(* ===== verification/_CoqProject ===== *)
-Q . S2P
Prelude.v
Serialize.v
ClvmNumber.v
ClvmSexp.v
Coin.v
ClvmPath.v
ClvmParser.v
ClvmCanonical.v
BackrefWriter.v
ClvmView.v
ClvmOps.v
ClvmBls.v
ClvmArena.v
ClvmOutcome.v
ClvmRuntime.v
ClvmRefine.v
ClvmEval.v
ClvmCurry.v
ClvmSpecs.v
PotIterations.v
Difficulty.v
Conditions.v
SpendConditions.v
BlockConditions.v
BlockGenerator.v
GeneratorProgram.v
FastForward.v
ConditionSizes.v
MerkleSet.v
MerkleProof.v
BlockValidation.v
BlockFilter.v
Float64.v
Mempool.v
MempoolInvariant.v
MempoolAdmission.v
MempoolPeak.v
MempoolReorg.v
FeeEstimator.v
MempoolSafety.v
BlockAssembly.v
