(* ===== verification/Prelude.v ===== *)
(** * dg_xch_utils: a verification development

    The repository is a Chia full node and its tools.  This development
    models the consensus core of [src/core], the wire codec of
    [src/serialize] and the mempool of [src/node]: how bytes become values
    and trees, how programs run and what they cost, what the conditions they
    return mean for coins and blocks, the arithmetic of the chain, and the
    pool of transactions that wait for a block.

    ** The parts and the files

    A full node receives a block whose transactions are one CLVM program, the
    generator.  The generator is parsed, run, and yields spends; each spend's
    puzzle is run and yields conditions; the conditions are accumulated,
    charged for and checked against the block.  The files follow that path.

    - [Prelude]: results ([res], [Ok], [Err], [Panic]), machine integers
      ([uok], [checked], [chk]: the three ways the code treats overflow),
      bytes, and record update.
    - [Serialize] ([serialize/src/lib.rs]): the class [ChiaSerialize], one
      instance per type of the codec, and the CLVM length prefix.
    - [ClvmNumber] ([clvm/sexp_ext.rs], [formatting.rs], [errors.rs]): numbers
      of programs with their i128 fast path, and the encodings of integers.
    - [ClvmSexp], [ClvmCurry] ([clvm/sexp.rs], [clvm/program.rs],
      [clvm/curry_utils.rs], [curry_and_treehash.rs],
      [clvm/tree_hash_cache.rs]): trees, currying, tree hashes plain and
      memoised, and what a curried program computes.
    - [Coin] ([blockchain/coin.rs], [blockchain/sized_bytes.rs]): coin ids.
    - [ClvmPath], [ClvmParser], [ClvmCanonical] ([clvm/parser.rs],
      [clvm/utils.rs]): the iterative parser, back-references, the writer and
      the two checks of canonical form.
    - [BackrefWriter] ([clvm/serialize_backrefs.rs]): the compressing writer,
      which keeps an index of what the decoder's stack will hold.
    - [ClvmView], [ClvmOps], [ClvmBls] ([clvm/core_ops.rs],
      [clvm/more_ops.rs], [clvm/pure_ops.rs], [clvm/bls_ops.rs]): the
      operators, defined once over any view of nodes.
    - [ClvmArena] ([clvm/arena.rs]): the arena with small atoms, interning,
      checkpoints and limits.
    - [ClvmOutcome], [ClvmRuntime], [ClvmRefine], [ClvmEval], [ClvmSpecs]
      ([clvm/runtime.rs], [clvm/dialect.rs]): the machine, a recursive
      evaluator, the refinement between them, and operator specifications.
    - [PotIterations], [Difficulty] ([consensus/pot_iterations.rs],
      [deficit.rs], [block_rewards.rs], [coinbase.rs],
      [difficulty_adjustment.rs], [blockchain/block_record.rs]): signage and
      infusion points, deficits, rewards and retargeting.
    - [Conditions] ([blockchain/condition_with_args.rs],
      [condition_opcode.rs], [blockchain/utils.rs]): the conditions, their two
      encodings and the messages that must be signed.
    - [SpendConditions], [BlockConditions], [BlockGenerator],
      [GeneratorProgram] ([consensus/block_generator.rs]): reading and
      accumulating a spend's conditions, the checks on a whole block, the
      three loops over spends, and running, querying and producing generators.
    - [ConditionSizes]: that what those loops return is well typed.
    - [MerkleSet], [MerkleProof] ([consensus/merkle_set.rs] and the root
      computation of [block_generator.rs]): Merkle sets and their proofs.
    - [BlockValidation] ([consensus/block_generator.rs],
      [blockchain/transactions_info.rs], [foliage_transaction_block.rs]): the
      validation of a whole transaction block, which uses all of the above.
    - [FastForward] ([consensus/fast_forward.rs]): moving a spend of a
      singleton to the newest version of the singleton.
    - [Float64]: the binary64 arithmetic of fee rates, on the Standard
      Library's [SpecFloat].
    - [Mempool] ([node/src/mempool.rs], the lineage query of
      [stores/src/traits.rs]): the pool, its caches and its methods in a
      state monad that keeps the state on an error ([pool_m]).  The method
      [admit] is [admit_bundle].
    - [MempoolInvariant], [MempoolAdmission], [MempoolPeak], [MempoolReorg]:
      the pool's invariant and what each method does to it.
    - [FeeEstimator] ([node/src/fee_estimator.rs]): the estimator that the
      pool feeds, an instance of the interface [Estimator] the pool is
      proved against.
    - [MempoolSafety]: the pool's methods as a step relation, and what holds
      of every pool they reach.
    - [BlockAssembly] ([node/src/mempool.rs], [create_block_generator] and
      [process_item_spends]): choosing items for a block, moving and
      deduplicating their spends, and building and costing the generator.
    - [BlockFilter] ([consensus/block_filter.rs]): the compact filter of a
      block's puzzle hashes and coin names.

    ** What is a parameter

    Code that is not in the repository is a class: [Sha256], [BigIntBytes]
    (the byte conversions of [num-bigint]), [Blst] (curve operations),
    [BlsVerify] (keys and signatures), [BlsAggregate] (their sum), [Memory] (the addresses of tree
    nodes) and [HashOrder] (the iteration order of hash maps, which is any
    enumeration).  The clock of the assembly is a function.  Their laws ([Sha256Ok] and so on)
    state documented behaviour only: digests have 32 bytes, conversions are
    two's complement.  Nothing assumes that SHA-256 is injective; theorems
    that need it name the finite list of strings that must not collide.  Each
    class has a concrete instance with its laws proved ([toy_hash_ok],
    [bigint_ref_ok], [toy_blst_ok], [toy_verify_ok], [interned_ok]), which
    the witnesses use.  The coin store of the pool is a record of its
    queries ([CoinStore]), each of which may fail; [store_ok] says that the
    version it names for a singleton is a coin of that singleton's puzzle
    hash, and [genuine] that the conditions handed over with a bundle are
    those of the bundle's spends.  [Estimator] is discharged by
    [FeeEstimator] ([fee_estimator_ok]).

    ** What the theorems show

    - The machine: [ClvmEval.run_in_arena_refines] and [ClvmEval.run_correct]
      say that the arena machine, with rewinding and interning, computes the
      cost and the tree of the recursive evaluator or stops at a limit of the
      arena; [ClvmSpecs] and [ClvmNumber] give the operators' meaning.
    - Codecs: [Serialize.from_bytes_exact_iff] (a byte string decodes exactly
      to a value iff it encodes it), [ClvmParser.parser_roundtrip],
      [canonical_iff], [parser_total], [BackrefWriter.backref_writer_roundtrip]
      and [Conditions.condition_roundtrip].
    - Blocks: [SpendConditions.parse_spend_refines],
      [BlockGenerator.generator_output_refines] and [conditions_accounted]
      (streaming out of the arena is reading the tree, and what is
      accumulated adds up), [BlockConditions.validate_block_conditions_iff]
      (acceptance is a declarative predicate on the block),
      [ConditionSizes.conditions_sized] (what is returned is well typed).
    - Transaction blocks: [BlockValidation.transaction_block_accepted] states
      acceptance as one predicate; [accepted_block_conserves] and
      [accepted_block_signed] say that an accepted block creates no money and
      carries the signatures its conditions ask for;
      [GeneratorProgram.producer_accepted] and [producer_roundtrip] say that
      what the producer builds is executed and can be queried.
    - Merkle sets: proofs that validate are true, proofs that are generated
      validate, and the two constructions of the root agree.
    - Fast forward: a rebased spend is a spend of the new version with the
      same inner puzzle and solution, and rebasing composes.
    - The pool: [MempoolSafety.pool_invariant] and [no_double_spend] hold of
      every reachable pool, after errors too; [admit_correct],
      [new_peak_live], [spent_coins_leave] and [reorg_standing] say what each
      method leaves behind; [can_replace_iff] and [check_time_locks_iff] give
      the rules of replacement and of time locks declaratively.
    - Assembly: [BlockAssembly.assembled_from_pool] and
      [assembled_block_executes] say that a block is made of items of the
      pool and that the validator executes it at the declared cost;
      [small_pool_assembled] that a pool that fits goes into the block whole;
      [dedup_spend_lost] that a skipped item can take a spend of a later one
      with it.
    - Filters: a filter decodes to the sorted hashes of its elements, misses
      none of them, and depends on their set alone.
    - The estimator: it never panics, removing undoes adding, the bucket of a
      rate is the right one, and the last period is never filled
      ([FeeEstimator.last_period_unfilled]).
    - The chain: retargeting terminates and computes the documented formula,
      deficits stay in range, rewards add up to the schedule.

    ** Fuel and bounds

    Loops that are not structural take fuel, and a theorem says that enough
    of it gives a result: the parser's and the writer's loops are bounded by
    the number of bytes or nodes and have no fuel in their interface; the
    machine ([run], [run_in_arena]) returns [None] without fuel and its
    theorems ask for four times the cost limit, which bounds the number of
    steps because every step costs at least one unit or was pushed by one
    that does; the search of the compressing writer is bounded by the edges
    of its index.  The ladder of fee buckets has fuel 400 and
    [bucket_index_correct] says that more changes nothing; the loops that
    trim the pool's caches run once per entry.  Integers are [Z] with the width written out; every
    addition the code leaves unchecked is [chk], which is [Panic] on overflow
    as in a build with overflow checks.

    ** Not modelled

    Networking, storage, the RPC services, plotting, the VDF and proof of
    space libraries, the user interfaces and the derive macros: they are
    input and output or bind external code.  The CLVM assembler and compiler
    are development tools.  Header validation and weight proofs would build
    on the parts here.  Inside the
    modelled files, display, debug logging and serde implementations are left
    out.  One-line cost constants stand beside the operators that use them. *)

From Stdlib Require Import ZArith Lia.
From stdpp Require Import base list numbers option.

Open Scope Z_scope.

(** ** Updating one field of a record

    [settable! mk <f1; ..; fn>] lists the fields of a record in order;
    [set f g r] applies [g] to the field [f], and [r <| f := v |>] assigns it. *)
Definition reader_pure {E T} (x : T) : E → T := λ _, x.
Definition reader_ap {E A B} (f : E → A → B) (x : E → A) : E → B := λ e, f e (x e).
Class Settable (T : Type) := settable : T → T.
Notation "'settable!' mk < f1 ; .. ; fn >" :=
  (reader_ap .. (reader_ap (reader_pure mk) f1) .. fn)
  (at level 0, mk at level 10, f1 at level 9, fn at level 9, only parsing).

Class Setter {R T} (proj : R → T) := set : (T → T) → R → R.
Arguments set {R T} proj {_} f r.
Ltac derive_setter R proj :=
  let i := constr:(_ : Settable R) in
  let mk := eval hnf in i in
  let mk := eval cbv beta delta [reader_ap reader_pure] in mk in
  match eval pattern proj in mk with
  | ?f _ =>
      let upd := eval cbv beta in (λ upd r, f (λ r, upd (proj r)) r) in
      exact upd
  end.
#[export] Hint Extern 0 (@Setter ?R _ ?proj) => (red; derive_setter R proj) : typeclass_instances.

Declare Scope dgx_scope.
Notation "r <| f := v |>" := (set f (λ _, v) r) (at level 1, left associativity, f at level 0) : dgx_scope.
Open Scope dgx_scope.

(** ** Outcomes of Rust code

    A Rust function that returns [Result<A, E>] either returns [Ok], returns
    [Err], or panics (an out-of-range index, a failed [expect], an arithmetic
    overflow).  Arithmetic overflow is a panic in a build with overflow checks
    and wraps around in one without, so every theorem that excludes [Panic]
    holds of both builds. *)
Inductive res (E A : Type) : Type :=
  | Ok (a : A)
  | Err (e : E)
  | Panic.
Arguments Ok {E A} a.
Arguments Err {E A} e.
Arguments Panic {E A}.

#[global] Instance res_ret E : MRet (res E) := fun A a => Ok a.
#[global] Instance res_bind E : MBind (res E) := fun A B f m =>
  match m with
  | Ok a => f a
  | Err e => Err e
  | Panic => Panic
  end.
#[global] Instance res_fmap E : FMap (res E) := fun A B f m =>
  match m with
  | Ok a => Ok (f a)
  | Err e => Err e
  | Panic => Panic
  end.

Section res_lemmas.
Context {E : Type}.

Lemma bind_Ok_inv {A B} (m : res E A) (f : A → res E B) b :
  m ≫= f = Ok b → ∃ a, m = Ok a ∧ f a = Ok b.
Proof. destruct m; naive_solver. Qed.

Lemma bind_Err_inv {A B} (m : res E A) (f : A → res E B) e :
  m ≫= f = Err e → m = Err e ∨ ∃ a, m = Ok a ∧ f a = Err e.
Proof. destruct m; naive_solver. Qed.

Lemma Ok_inj {A} (a b : A) : Ok (E:=E) a = Ok b → a = b.
Proof. by intros [= ->]. Qed.

Lemma Err_inj {A} (e f : E) : Err (A:=A) e = Err f → e = f.
Proof. by intros [= ->]. Qed.

Lemma bind_Ok {A B} (m : res E A) (f : A → res E B) a :
  m = Ok a → m ≫= f = f a.
Proof. by intros ->. Qed.

Lemma res_bind_assoc {A B C} (m : res E A) (f : A → res E B) (g : B → res E C) :
  (m ≫= f) ≫= g = m ≫= (λ a, f a ≫= g).
Proof. by destruct m. Qed.
End res_lemmas.

(** [res_inv] turns every hypothesis [_ ≫= _ = Ok _] into its two halves. *)
Ltac res_inv_step :=
  match goal with
  | H : mbind _ _ = Ok _ |- _ =>
      let a := fresh "a" in let Ha := fresh "Hm" in
      apply bind_Ok_inv in H as (a & Ha & H)
  | H : Ok _ = Ok _ |- _ => apply Ok_inj in H; try subst
  | H : mret _ = Ok _ |- _ => apply Ok_inj in H; try subst
  | H : Err _ = Ok _ |- _ => discriminate H
  | H : Panic = Ok _ |- _ => discriminate H
  | H : Ok _ = Err _ |- _ => discriminate H
  | H : Ok _ = Panic |- _ => discriminate H
  | H : Err _ = Panic |- _ => discriminate H
  | H : Err _ = Err _ |- _ => apply Err_inj in H; try subst
  end.
Ltac res_inv := repeat res_inv_step.

(** The same through binds of pairs. *)
Ltac res_inv_pairs :=
  repeat (res_inv_step ||
    match goal with
    | H : match ?x with (_, _) => _ end = Ok _ |- _ => is_var x; destruct x
    end).

(** [ok_or]: [Option::ok_or]. *)
Definition ok_or {E A} (o : option A) (e : E) : res E A :=
  match o with Some a => Ok a | None => Err e end.

(** [expect]: [Option::expect], a panic on [None]. *)
Definition expect {E A} (o : option A) : res E A :=
  match o with Some a => Ok a | None => Panic end.

Lemma ok_or_Ok {E A} (o : option A) (e : E) a : ok_or o e = Ok a ↔ o = Some a.
Proof. destruct o; naive_solver. Qed.

(** ** Machine integers

    A [w]-bit unsigned integer is a [Z] in [0, 2^w); a signed one is a [Z] in
    [-2^(w-1), 2^(w-1)).  [chk] is the plain Rust operators' overflow check,
    [wrapu] the truncating cast [as uN]. *)
Definition uok (w x : Z) : Prop := 0 ≤ x < 2 ^ w.
Definition uokb (w x : Z) : bool := (0 <=? x) && (x <? 2 ^ w).
Definition sokb (w x : Z) : bool := (- 2 ^ (w - 1) <=? x) && (x <? 2 ^ (w - 1)).
Definition chk {E} (w x : Z) : res E Z := if uokb w x then Ok x else Panic.
Definition checked (w x : Z) : option Z := if uokb w x then Some x else None.
Definition wrapu (w x : Z) : Z := x mod 2 ^ w.
Definition sat_sub (x y : Z) : Z := Z.max 0 (x - y).
Definition sat_addu (w x y : Z) : Z := Z.min (2 ^ w - 1) (x + y).
Definition sat_mulu (w x y : Z) : Z := Z.min (2 ^ w - 1) (x * y).
Definition div_ceil (x y : Z) : Z := (x + y - 1) / y.

(** The number of bits of a non-negative integer: [w - leading_zeros]. *)
Definition bit_length (x : Z) : Z := if x <=? 0 then 0 else Z.log2 x + 1.

Definition u8_max : Z := 2 ^ 8 - 1.
Definition u32_max : Z := 2 ^ 32 - 1.
Definition u64_max : Z := 2 ^ 64 - 1.

Lemma uokb_spec w x : uokb w x = true ↔ uok w x.
Proof. unfold uokb, uok. rewrite andb_true_iff, Z.leb_le, Z.ltb_lt. done. Qed.

Lemma chk_Ok {E} w x y : chk (E:=E) w x = Ok y ↔ uok w x ∧ y = x.
Proof.
  unfold chk. rewrite <-uokb_spec.
  destruct (uokb w x); split; [intros [= ->]; done | by intros [_ ->] | done | by intros [? _]].
Qed.

Lemma chk_ok {E} w x : uok w x → chk (E:=E) w x = Ok x.
Proof. intros H%uokb_spec. unfold chk. by rewrite H. Qed.

Lemma chk_not_Err {E} w x (e : E) : chk w x ≠ Err e.
Proof. unfold chk. by destruct (uokb w x). Qed.

Lemma bit_length_bounds x :
  0 < x → 2 ^ (bit_length x - 1) ≤ x < 2 ^ bit_length x.
Proof.
  intros Hx. unfold bit_length. destruct (Z.leb_spec x 0); [lia|].
  replace (Z.log2 x + 1 - 1) with (Z.log2 x) by lia.
  apply Z.log2_spec. lia.
Qed.

Lemma bit_length_nonneg x : 0 ≤ bit_length x.
Proof.
  unfold bit_length. destruct (Z.leb_spec x 0); [lia|].
  pose proof (Z.log2_nonneg x). lia.
Qed.

Lemma bit_length_0 : bit_length 0 = 0.
Proof. reflexivity. Qed.

Lemma bit_length_lt x w : 0 ≤ w → 0 ≤ x < 2 ^ w → bit_length x ≤ w.
Proof.
  intros Hw Hx. unfold bit_length. destruct (Z.leb_spec x 0); [lia|].
  enough (Z.log2 x < w) by lia. apply Z.log2_lt_pow2; lia.
Qed.

(** ** Bytes and big-endian integers *)
Definition byte_ok (b : Z) : Prop := 0 ≤ b < 256.
Definition bytes_ok (bs : list Z) : Prop := Forall byte_ok bs.
Definition byte_okb (b : Z) : bool := (0 <=? b) && (b <? 256).
Definition bytes_okb (bs : list Z) : bool := forallb byte_okb bs.

(** [zlen l] is [l.len()] as a machine integer. *)
Definition zlen {A} (l : list A) : Z := Z.of_nat (length l).

Definition from_be (bs : list Z) : Z := foldl (λ acc b, acc * 256 + b) 0 bs.

Fixpoint to_be (n : nat) (v : Z) : list Z :=
  match n with
  | O => []
  | S n => to_be n (v / 256) ++ [v mod 256]
  end.

(** The two's-complement reading of a non-empty big-endian byte string. *)
Definition from_be_signed (bs : list Z) : Z :=
  let v := from_be bs in
  if 2 ^ (8 * zlen bs - 1) <=? v then v - 2 ^ (8 * zlen bs) else v.

#[global] Arguments from_be : simpl never.
#[global] Arguments from_be_signed : simpl never.

(** The order of byte vectors ([Ord] of slices). *)
Fixpoint bytes_leb (x y : list Z) : bool :=
  match x, y with
  | [], _ => true
  | _ :: _, [] => false
  | a :: x, b :: y => if a <? b then true else if b <? a then false else bytes_leb x y
  end.

Lemma bytes_okb_spec bs : bytes_okb bs = true ↔ bytes_ok bs.
Proof.
  unfold bytes_okb, bytes_ok. rewrite forallb_forall, Forall_forall.
  setoid_rewrite <-list_elem_of_In. unfold byte_okb, byte_ok.
  setoid_rewrite andb_true_iff. setoid_rewrite Z.leb_le.
  setoid_rewrite Z.ltb_lt. done.
Qed.

Lemma bytes_ok_app l k : bytes_ok (l ++ k) ↔ bytes_ok l ∧ bytes_ok k.
Proof. apply Forall_app. Qed.

Lemma bytes_ok_nil : bytes_ok [].
Proof. constructor. Qed.

Lemma bytes_ok_cons b l : bytes_ok (b :: l) ↔ byte_ok b ∧ bytes_ok l.
Proof. apply Forall_cons_iff. Qed.

Lemma zlen_nonneg {A} (l : list A) : 0 ≤ zlen l.
Proof. unfold zlen. lia. Qed.

Lemma zlen_app {A} (l k : list A) : zlen (l ++ k) = zlen l + zlen k.
Proof. unfold zlen. rewrite length_app. lia. Qed.

Lemma zlen_cons {A} (x : A) l : zlen (x :: l) = zlen l + 1.
Proof. unfold zlen. simpl. lia. Qed.

Lemma zlen_nil {A} : zlen (@nil A) = 0.
Proof. done. Qed.

Lemma zlen_0 {A} (l : list A) : zlen l = 0 ↔ l = [].
Proof. unfold zlen. destruct l; naive_solver lia. Qed.

Lemma from_be_app l k : from_be (l ++ k) = from_be l * 256 ^ zlen k + from_be k.
Proof.
  unfold from_be. rewrite foldl_app.
  generalize (foldl (λ acc b, acc * 256 + b) 0 l) as x.
  induction k as [|b k IH] using rev_ind; intros x.
  - simpl. rewrite zlen_nil. lia.
  - rewrite !foldl_app. simpl. rewrite IH, zlen_app.
    change (zlen [b]) with 1.
    rewrite Z.pow_add_r by (unfold zlen; simpl; lia). lia.
Qed.

Lemma from_be_snoc l b : from_be (l ++ [b]) = from_be l * 256 + b.
Proof.
  rewrite from_be_app. change (zlen [b]) with 1. unfold from_be. simpl. lia.
Qed.

Lemma from_be_cons b l : from_be (b :: l) = b * 256 ^ zlen l + from_be l.
Proof.
  change (b :: l) with ([b] ++ l). rewrite from_be_app.
  by unfold from_be at 1.
Qed.

Lemma from_be_nil : from_be [] = 0.
Proof. done. Qed.

Lemma from_be_bounds l : bytes_ok l → 0 ≤ from_be l < 256 ^ zlen l.
Proof.
  induction l as [|b l IH]; intros Hl.
  - by vm_compute.
  - apply Forall_cons_iff in Hl as [Hb Hl]. specialize (IH Hl).
    rewrite from_be_cons, zlen_cons.
    pose proof (zlen_nonneg l). rewrite Z.pow_add_r by lia.
    unfold byte_ok in Hb. nia.
Qed.

Lemma length_to_be n v : length (to_be n v) = n.
Proof.
  revert v. induction n as [|n IH]; intros v; [done|].
  simpl. rewrite length_app, IH. simpl. lia.
Qed.

Lemma to_be_ok n v : bytes_ok (to_be n v).
Proof.
  revert v. induction n as [|n IH]; intros v; [by constructor|].
  simpl. apply Forall_app. split; [apply IH|].
  repeat constructor; apply Z.mod_pos_bound; lia.
Qed.

Lemma from_be_to_be n v : from_be (to_be n v) = v mod 256 ^ Z.of_nat n.
Proof.
  revert v. induction n as [|n IH]; intros v.
  - simpl. by rewrite Z.mod_1_r.
  - simpl to_be. rewrite from_be_snoc, IH.
    replace (Z.of_nat (S n)) with (1 + Z.of_nat n) by lia.
    rewrite Z.pow_add_r, Z.pow_1_r by lia.
    rewrite Z.rem_mul_r by lia. lia.
Qed.

Lemma to_be_from_be l : bytes_ok l → to_be (length l) (from_be l) = l.
Proof.
  induction l as [|b l IH] using rev_ind; intros Hl; [done|].
  apply Forall_app in Hl as [Hl Hb]. apply Forall_cons_iff in Hb as [Hb _].
  unfold byte_ok in Hb.
  rewrite length_app, Nat.add_1_r. simpl. rewrite from_be_snoc.
  rewrite Z.div_add_l by lia. rewrite (Z.div_small b) by lia. rewrite Z.add_0_r.
  rewrite IH by done. f_equal. f_equal.
  rewrite Z.add_comm, Z.mod_add, Z.mod_small; lia.
Qed.

Lemma to_be_inj n v w :
  0 ≤ v < 256 ^ Z.of_nat n → 0 ≤ w < 256 ^ Z.of_nat n →
  to_be n v = to_be n w → v = w.
Proof.
  intros Hv Hw H%(f_equal from_be).
  rewrite !from_be_to_be, !Z.mod_small in H; done.
Qed.

(** ** Automation

    [dgx] is the development's hint database: bounds of byte strings and
    lengths, which [eauto with dgx] chains. *)
Create HintDb dgx.
#[export] Hint Resolve to_be_ok zlen_nonneg bit_length_nonneg : dgx.
#[export] Hint Rewrite @zlen_app @zlen_cons @zlen_nil : dgx.

(** Case split on the innermost [if]/[match] of the goal, keeping the
    equation. *)
Ltac split_if :=
  match goal with
  | |- context [ if ?b then _ else _ ] =>
      lazymatch b with
      | context [ if _ then _ else _ ] => fail
      | context [ match _ with _ => _ end ] => fail
      | _ => let H := fresh "Hif" in destruct b eqn:H
      end
  end.

(** Turn the boolean comparisons of the context into propositions. *)
Ltac bool_to_prop :=
  repeat match goal with
  | H : (_ <=? _) = true |- _ => apply Z.leb_le in H
  | H : (_ <=? _) = false |- _ => apply Z.leb_gt in H
  | H : (_ <? _) = true |- _ => apply Z.ltb_lt in H
  | H : (_ <? _) = false |- _ => apply Z.ltb_ge in H
  | H : (_ =? _) = true |- _ => apply Z.eqb_eq in H
  | H : (_ =? _) = false |- _ => apply Z.eqb_neq in H
  | H : (_ >=? _) = _ |- _ => rewrite Z.geb_leb in H
  | H : (_ >? _) = _ |- _ => rewrite Z.gtb_ltb in H
  | H : (_ && _) = true |- _ => apply andb_true_iff in H as [? ?]
  | H : (_ || _) = false |- _ => apply orb_false_iff in H as [? ?]
  | H : negb _ = true |- _ => apply negb_true_iff in H
  | H : negb _ = false |- _ => apply negb_false_iff in H
  end.

(** Shifting in a byte. *)
Lemma checked_ok w x : uok w x → checked w x = Some x.
Proof. intros Hx. unfold checked. by rewrite (proj2 (uokb_spec w x)). Qed.

Lemma ok_or_checked {E} w x (e : E) y : ok_or (checked w x) e = Ok y → y = x ∧ uok w x.
Proof.
  unfold checked. destruct (uokb w x) eqn:Hx; cbn; [|done]. intros [= <-]. by apply uokb_spec in Hx.
Qed.

Lemma lor_shift_byte acc b : 0 ≤ acc → byte_ok b → Z.lor (Z.shiftl acc 8) b = acc * 256 + b.
Proof.
  intros Ha Hb. unfold byte_ok in Hb. rewrite Z.shiftl_mul_pow2 by lia.
  assert (Hland : Z.land (acc * 2 ^ 8) b = 0).
  { apply Z.bits_inj'. intros k Hk. rewrite Z.land_spec, Z.bits_0.
    destruct (Z.lt_ge_cases k 8).
    - by rewrite Z.mul_pow2_bits_low by lia.
    - rewrite <-(Z.mod_small b (2 ^ 8)) by (change (2 ^ 8) with 256; lia).
      rewrite Z.mod_pow2_bits_high by lia. by rewrite andb_false_r. }
  pose proof (Z.add_lor_land (acc * 2 ^ 8) b). change (2 ^ 8) with 256 in *. lia.
Qed.

(** A big-endian loop over bytes in a [w]-bit register. *)
Lemma fold_bytes_from_be w bs acc :
  bytes_ok bs → 0 ≤ acc → acc * 256 ^ zlen bs + from_be bs < 2 ^ w →
  foldl (λ value b, Z.lor (wrapu w (Z.shiftl value 8)) b) acc bs = acc * 256 ^ zlen bs + from_be bs.
Proof.
  revert acc. induction bs as [|b bs IH]; intros acc Hb Hacc Hlt.
  { cbn. rewrite from_be_nil. unfold zlen. cbn. lia. }
  apply Forall_cons_iff in Hb as [Hb0 Hb]. rewrite from_be_cons, zlen_cons in Hlt |- *.
  pose proof (from_be_bounds bs Hb). pose proof (zlen_nonneg bs).
  rewrite Z.add_1_r, Z.pow_succ_r in Hlt |- * by lia. unfold byte_ok in Hb0.
  pose proof (Z.pow_pos_nonneg 256 (zlen bs)). assert (Hs : acc * 256 < 2 ^ w) by nia.
  cbn [foldl]. unfold wrapu. rewrite (Z.mod_small (Z.shiftl acc 8))
    by (rewrite Z.shiftl_mul_pow2 by lia; change (2 ^ 8) with 256; nia).
  rewrite (lor_shift_byte acc b) by done. rewrite IH; [ring|done|lia|]. lia.
Qed.
