(* ===== verification/Serialize.v ===== *)
(** * The wire format: serialize/src/lib.rs

    [ChiaSerialize] is the trait of serialize/src/lib.rs: [to_bytes] and
    [from_bytes] over a cursor.  The laws class [ChiaLaws] states what every
    client of the trait relies on: decoding an encoding returns the value and
    consumes exactly its bytes ([from_to]), and whatever decodes was encoded
    canonically ([to_from]).  Each instance of the trait has an instance of the
    laws.  The file also models the CLVM size prefix ([encode_size],
    [decode_size]) and the bounded list decoder [parse_vec_limited]. *)

From Stdlib Require Import ZArith Lia String.
From stdpp Require Import base list numbers option gmap.
From S2P Require Import Prelude.

Open Scope Z_scope.

(** ** Protocol versions *)
Inductive ChiaProtocolVersion :=
  | Chia0_0_34 | Chia0_0_35 | Chia0_0_36 | Chia0_0_37.

Definition version_default : ChiaProtocolVersion := Chia0_0_37.

Definition version_fmt (v : ChiaProtocolVersion) : string :=
  match v with
  | Chia0_0_34 => "0.0.34"
  | Chia0_0_35 => "0.0.35"
  | Chia0_0_36 => "0.0.36"
  | Chia0_0_37 => "0.0.37"
  end%string.

Definition version_from_str (s : string) : ChiaProtocolVersion :=
  if (s =? "0.0.34")%string then Chia0_0_34
  else if (s =? "0.0.35")%string then Chia0_0_35
  else if (s =? "0.0.36")%string then Chia0_0_36
  else if (s =? "0.0.37")%string then Chia0_0_37
  else version_default.

(** ** The reader: [std::io::Cursor<&[u8]>] *)
Inductive IoErrorKind := InvalidInput | InvalidData | UnexpectedEof | NotFound | Other.

#[global] Instance io_error_kind_dec : EqDecision IoErrorKind.
Proof. solve_decision. Defined.
Notation io := (res IoErrorKind).

Record cursor := Cursor { get_ref : list Z; position : nat }.

Definition remaining (c : cursor) : list Z := drop (position c) (get_ref c).
Definition advance (n : nat) (c : cursor) : cursor :=
  Cursor (get_ref c) (position c + n).

Definition read_exact (n : nat) (c : cursor) : io (list Z * cursor) :=
  if decide (n ≤ length (remaining c))%nat
  then Ok (take n (remaining c), advance n c)
  else Err UnexpectedEof.

Lemma remaining_advance n c : remaining (advance n c) = drop n (remaining c).
Proof. unfold remaining, advance. simpl. by rewrite drop_drop. Qed.

Lemma advance_advance n m c : advance m (advance n c) = advance (n + m) c.
Proof. unfold advance. simpl. f_equal. lia. Qed.

Lemma advance_0 c : advance 0 c = c.
Proof. unfold advance. destruct c as [b p]. simpl. f_equal. lia. Qed.

Lemma remaining_app bs suf c :
  remaining c = bs ++ suf → remaining (advance (length bs) c) = suf.
Proof. intros H. rewrite remaining_advance, H. by rewrite drop_app_length. Qed.

Lemma read_exact_app n bs suf c :
  remaining c = bs ++ suf → length bs = n →
  read_exact n c = Ok (bs, advance n c).
Proof.
  intros Hr <-. unfold read_exact. rewrite Hr, length_app.
  rewrite decide_True by lia. by rewrite take_app_length.
Qed.

Lemma read_exact_inv n c bs c' :
  read_exact n c = Ok (bs, c') →
  ∃ suf, remaining c = bs ++ suf ∧ length bs = n ∧ c' = advance n c.
Proof.
  unfold read_exact. case_decide; [|done]. intros [= <- <-].
  exists (drop n (remaining c)). rewrite take_drop, length_take. split_and!; lia || done.
Qed.

Lemma bytes_ok_remaining c : bytes_ok (get_ref c) → bytes_ok (remaining c).
Proof. apply Forall_drop. Qed.

(** ** The trait and its laws *)
Class ChiaSerialize (T : Type) := {
  to_bytes : ChiaProtocolVersion → T → io (list Z);
  from_bytes : ChiaProtocolVersion → cursor → io (T * cursor);
}.

(** The values of the Rust type: those the laws quantify over. *)
Class WireOk (T : Type) := wire_ok : T → Prop.

Class ChiaLaws (T : Type) `{ChiaSerialize T, WireOk T} := {
  to_bytes_total ver v : wire_ok v → ∃ bs, to_bytes ver v = Ok bs;
  to_bytes_bytes ver v bs : wire_ok v → to_bytes ver v = Ok bs → bytes_ok bs;
  from_to ver v bs suf c :
    wire_ok v → to_bytes ver v = Ok bs → remaining c = bs ++ suf →
    from_bytes ver c = Ok (v, advance (length bs) c);
  to_from ver v c c' :
    bytes_ok (get_ref c) → from_bytes ver c = Ok (v, c') →
    wire_ok v ∧ ∃ bs suf, to_bytes ver v = Ok bs ∧ remaining c = bs ++ suf ∧
      c' = advance (length bs) c;
}.

(** [ChiaSerialize::from_bytes_exact], the provided method. *)
Definition from_bytes_exact {T} `{ChiaSerialize T} (bytes : list Z)
    (ver : ChiaProtocolVersion) : io T :=
  '(value, cur) ← from_bytes ver (Cursor bytes 0);
  if decide (position cur = length bytes) then Ok value else Err InvalidData.

(** ** Fixed-width integers: the [impl_primitives!] macro *)
Record ity := Ity { is_signed : bool; nbytes : nat }.
Definition u8 := Ity false 1.
Definition u16 := Ity false 2.
Definition u32 := Ity false 4.
Definition u64 := Ity false 8.
Definition u128 := Ity false 16.
Definition i8 := Ity true 1.
Definition i16 := Ity true 2.
Definition i32 := Ity true 4.
Definition i64 := Ity true 8.
Definition i128 := Ity true 16.

Definition int_ok (t : ity) (v : Z) : Prop :=
  let w := 8 * Z.of_nat (nbytes t) in
  if is_signed t then - 2 ^ (w - 1) ≤ v < 2 ^ (w - 1) else 0 ≤ v < 2 ^ w.

Record num (t : ity) := Num { num_val : Z }.
Arguments Num {t} num_val.
Arguments num_val {t} n.

Definition to_be_bytes (t : ity) (v : Z) : list Z := to_be (nbytes t) v.
Definition from_be_bytes (t : ity) (bs : list Z) : Z :=
  if is_signed t then from_be_signed bs else from_be bs.

#[global] Instance num_serialize (t : ity) : ChiaSerialize (num t) := {
  to_bytes _ v := Ok (to_be_bytes t (num_val v));
  from_bytes _ c :=
    if (zlen (remaining c) <? Z.of_nat (nbytes t)) then Err InvalidInput
    else '(buffer, c) ← read_exact (nbytes t) c;
         Ok (Num (from_be_bytes t buffer), c);
}.

(** ** Fixed-size byte arrays: the [impl_arrays!] macro *)
Record arr (n : nat) := Arr { arr_val : list Z }.
Arguments Arr {n} arr_val.
Arguments arr_val {n} a.

#[global] Instance arr_serialize (n : nat) : ChiaSerialize (arr n) := {
  to_bytes _ v := Ok (arr_val v);
  from_bytes _ c :=
    if (zlen (remaining c) <? Z.of_nat n) then Err InvalidInput
    else '(buffer, c) ← read_exact n c; Ok (Arr buffer, c);
}.

(** ** Non-zero integers: the [impl_nz_primitives!] macro *)
Record nz (t : ity) := Nz { nz_val : Z }.
Arguments Nz {t} nz_val.
Arguments nz_val {t} n.

#[global] Instance nz_serialize (t : ity) : ChiaSerialize (nz t) := {
  to_bytes _ v := Ok (to_be_bytes t (nz_val v));
  from_bytes _ c :=
    '(buf, c) ← read_exact (nbytes t) c;
    let v := from_be_bytes t buf in
    if v =? 0 then Err InvalidData else Ok (Nz v, c);
}.

(** ** [bool], [Option<T>] and tuples *)
#[global] Instance bool_serialize : ChiaSerialize bool := {
  to_bytes _ b := Ok [if b then 1 else 0];
  from_bytes _ c :=
    '(bool_buf, c) ← read_exact 1 c;
    match bool_buf with
    | [0] => Ok (false, c)
    | [1] => Ok (true, c)
    | _ => Err InvalidInput
    end;
}.

#[global] Instance option_serialize {T} `{ChiaSerialize T} : ChiaSerialize (option T) := {
  to_bytes ver o :=
    match o with
    | Some t => bs ← to_bytes ver t; Ok (1 :: bs)
    | None => Ok [0]
    end;
  from_bytes ver c :=
    '(bool_buf, c) ← read_exact 1 c;
    match bool_buf with
    | [0] => Ok (None, c)
    | [1] => '(t, c) ← from_bytes ver c; Ok (Some t, c)
    | _ => Err InvalidInput
    end;
}.

#[global] Instance pair_serialize {T U} `{ChiaSerialize T, ChiaSerialize U} :
    ChiaSerialize (T * U) := {
  to_bytes ver p :=
    b0 ← to_bytes ver p.1; b1 ← to_bytes ver p.2; Ok (b0 ++ b1);
  from_bytes ver c :=
    '(t, c) ← from_bytes ver c; '(u, c) ← from_bytes ver c; Ok ((t, u), c);
}.

(** Rust's triples are not nested pairs: a type of their own. *)
Record triple (T U V : Type) := Triple { tr_0 : T; tr_1 : U; tr_2 : V }.
Arguments Triple {T U V} _ _ _.
Arguments tr_0 {T U V} _.
Arguments tr_1 {T U V} _.
Arguments tr_2 {T U V} _.

#[global] Instance triple_serialize {T U V}
    `{ChiaSerialize T, ChiaSerialize U, ChiaSerialize V} :
    ChiaSerialize (triple T U V) := {
  to_bytes ver p :=
    b0 ← to_bytes ver (tr_0 p); b1 ← to_bytes ver (tr_1 p);
    b2 ← to_bytes ver (tr_2 p); Ok (b0 ++ b1 ++ b2);
  from_bytes ver c :=
    '(t, c) ← from_bytes ver c; '(u, c) ← from_bytes ver c;
    '(v, c) ← from_bytes ver c; Ok (Triple t u v, c);
}.

(** ** [Vec<T>] *)
Fixpoint encode_all {T} `{ChiaSerialize T} (ver : ChiaProtocolVersion)
    (l : list T) : io (list Z) :=
  match l with
  | [] => Ok []
  | e :: l => b ← to_bytes ver e; bs ← encode_all ver l; Ok (b ++ bs)
  end.

Fixpoint decode_n {T} `{ChiaSerialize T} (ver : ChiaProtocolVersion)
    (n : nat) (c : cursor) : io (list T * cursor) :=
  match n with
  | O => Ok ([], c)
  | S n => '(e, c) ← from_bytes ver c; '(l, c) ← decode_n ver n c; Ok (e :: l, c)
  end.

(** [(len as u32).to_be_bytes()] *)
Definition len_prefix {A} (l : list A) : list Z := to_be 4 (wrapu 32 (zlen l)).

#[global] Instance vec_serialize {T} `{ChiaSerialize T} : ChiaSerialize (list T) := {
  to_bytes ver l := bs ← encode_all ver l; Ok (len_prefix l ++ bs);
  from_bytes ver c :=
    '(u32_buf, c) ← read_exact 4 c;
    decode_n ver (Z.to_nat (from_be u32_buf)) c;
}.

(** ** [String]: length-prefixed UTF-8 *)
Definition cont_byte (b : Z) : bool := (0x80 <=? b) && (b <=? 0xBF).
Definition in_rng (lo hi b : Z) : bool := (lo <=? b) && (b <=? hi).

(** Well-formed UTF-8 ([core::str::from_utf8]). *)
Fixpoint utf8_valid (bs : list Z) : bool :=
  match bs with
  | [] => true
  | b0 :: rest0 =>
      if in_rng 0 0x7F b0 then utf8_valid rest0
      else if in_rng 0xC2 0xDF b0 then
        match rest0 with
        | b1 :: rest => cont_byte b1 && utf8_valid rest
        | _ => false
        end
      else if in_rng 0xE0 0xEF b0 then
        match rest0 with
        | b1 :: b2 :: rest =>
            (if b0 =? 0xE0 then in_rng 0xA0 0xBF b1
             else if b0 =? 0xED then in_rng 0x80 0x9F b1 else cont_byte b1)
            && cont_byte b2 && utf8_valid rest
        | _ => false
        end
      else if in_rng 0xF0 0xF4 b0 then
        match rest0 with
        | b1 :: b2 :: b3 :: rest =>
            (if b0 =? 0xF0 then in_rng 0x90 0xBF b1
             else if b0 =? 0xF4 then in_rng 0x80 0x8F b1 else cont_byte b1)
            && cont_byte b2 && cont_byte b3 && utf8_valid rest
        | _ => false
        end
      else false
  end.

Record rstring := RString { str_bytes : list Z }.

#[global] Instance string_serialize : ChiaSerialize rstring := {
  to_bytes _ s := Ok (len_prefix (str_bytes s) ++ str_bytes s);
  from_bytes _ c :=
    '(u32_len_ary, c) ← read_exact 4 c;
    let vec_len := from_be u32_len_ary in
    if zlen (remaining c) <? vec_len then Err InvalidInput
    else '(buf, c) ← read_exact (Z.to_nat vec_len) c;
         if utf8_valid buf then Ok (RString buf, c) else Err InvalidInput;
}.

(** ** [HashMap<K, V>]

    A [HashMap] iterates in an unspecified order, so encoding takes the
    iteration order as an argument: a list of the map's entries. *)
Definition map_to_bytes {K V} `{ChiaSerialize K, ChiaSerialize V}
    (ver : ChiaProtocolVersion) (entries : list (K * V)) : io (list Z) :=
  bs ← encode_all ver entries; Ok (len_prefix entries ++ bs).

Fixpoint map_decode_n {K V} `{Countable K, ChiaSerialize K, ChiaSerialize V}
    (ver : ChiaProtocolVersion) (n : nat) (m : gmap K V) (c : cursor) :
    io (gmap K V * cursor) :=
  match n with
  | O => Ok (m, c)
  | S n => '(key, c) ← from_bytes ver c; '(value, c) ← from_bytes ver c;
           map_decode_n ver n (<[key := value]> m) c
  end.

Definition map_from_bytes {K V} `{Countable K, ChiaSerialize K, ChiaSerialize V}
    (ver : ChiaProtocolVersion) (c : cursor) : io (gmap K V * cursor) :=
  '(u32_buf, c) ← read_exact 4 c;
  map_decode_n ver (Z.to_nat (from_be u32_buf)) ∅ c.

(** ** [parse_vec_limited] *)
Definition parse_vec_limited {T} `{ChiaSerialize T} (ver : ChiaProtocolVersion)
    (max_items : Z) (element_fixed_size : option Z) (c : cursor) :
    io (list T * cursor) :=
  '(u32_buf, c) ← read_exact 4 c;
  let claimed := from_be u32_buf in
  let to_parse := Z.min claimed max_items in
  '(out, c) ← decode_n ver (Z.to_nat to_parse) c;
  let rest := claimed - to_parse in
  if 0 <? rest then
    match element_fixed_size with
    | Some size =>
        let end_ := zlen (get_ref c) in
        let target := sat_addu 64 (Z.of_nat (position c)) (sat_mulu 64 rest size) in
        Ok (out, Cursor (get_ref c) (Z.to_nat (Z.min target end_)))
    | None =>
        '(_, c) ← decode_n (T:=T) ver (Z.to_nat rest) c;
        Ok (out, c)
    end
  else Ok (out, c).

(** ** The CLVM size prefix *)
Definition MAX_DECODE_SIZE : Z := 0x400000000.
Definition CONS_BOX_MARKER : Z := 0xff.
Definition MAX_SINGLE_BYTE : Z := 0x7f.

Definition encode_size (size : Z) : io (list Z) :=
  let byte k := Z.land (Z.shiftr size k) 0xff in
  if size <? 0x40 then Ok [wrapu 8 (Z.lor 0x80 size)]
  else if size <? 0x2000 then
    Ok [wrapu 8 (Z.lor 0xc0 (Z.shiftr size 8)); byte 0]
  else if size <? 0x100000 then
    Ok [wrapu 8 (Z.lor 0xe0 (Z.shiftr size 16)); byte 8; byte 0]
  else if size <? 0x8000000 then
    Ok [wrapu 8 (Z.lor 0xf0 (Z.shiftr size 24)); byte 16; byte 8; byte 0]
  else if size <? 0x400000000 then
    Ok [wrapu 8 (Z.lor 0xf8 (Z.shiftr size 32)); byte 24; byte 16; byte 8; byte 0]
  else Err InvalidData.

(** The [while b & bit_mask != 0] loop: [bit_mask] is zero after eight
    shifts, so nine rounds of fuel always suffice. *)
Fixpoint prefix_loop (fuel : nat) (bit_count : nat) (bit_mask b : Z) : nat * Z :=
  match fuel with
  | O => (bit_count, b)
  | S fuel =>
      if Z.land b bit_mask =? 0 then (bit_count, b)
      else prefix_loop fuel (S bit_count) (Z.shiftr bit_mask 1)
             (Z.land b (Z.lxor 0xff bit_mask))
  end.

Definition decode_size (initial_b : Z) (stream : cursor) : io (Z * cursor) :=
  if Z.land initial_b 0x80 =? 0 then Err InvalidInput
  else
    let '(bit_count, b) := prefix_loop 9 0 0x80 initial_b in
    '(tail, stream) ←
      (if decide (1 < bit_count)%nat then read_exact (bit_count - 1) stream
       else Ok ([], stream));
    let size_blob := b :: tail in
    if decide (6 < length size_blob)%nat then Err InvalidInput
    else
      let v := from_be size_blob in
      if MAX_DECODE_SIZE <=? v then Err InvalidInput else Ok (v, stream).

(** * Laws of the instances *)

Arguments len_prefix : simpl never.

Lemma from_be_signed_to_be n v :
  (0 < n)%nat → - 2 ^ (8 * Z.of_nat n - 1) ≤ v < 2 ^ (8 * Z.of_nat n - 1) →
  from_be_signed (to_be n v) = v.
Proof.
  intros Hn Hv. unfold from_be_signed.
  rewrite from_be_to_be. unfold zlen. rewrite length_to_be.
  replace (256 ^ Z.of_nat n) with (2 ^ (8 * Z.of_nat n))
    by (change 256 with (2 ^ 8); rewrite <-Z.pow_mul_r by lia; done).
  assert (Hp : 2 ^ (8 * Z.of_nat n) = 2 * 2 ^ (8 * Z.of_nat n - 1)).
  { rewrite <-Z.pow_succ_r by lia. f_equal. lia. }
  assert (0 < 2 ^ (8 * Z.of_nat n - 1)) by (apply Z.pow_pos_nonneg; lia).
  destruct (Z.ltb_spec v 0).
  - assert (v mod 2 ^ (8 * Z.of_nat n) = v + 2 ^ (8 * Z.of_nat n)) as ->.
    { symmetry. apply Z.mod_unique with (-1); lia. }
    destruct (Z.leb_spec (2 ^ (8 * Z.of_nat n - 1)) (v + 2 ^ (8 * Z.of_nat n))); lia.
  - rewrite Z.mod_small by lia.
    destruct (Z.leb_spec (2 ^ (8 * Z.of_nat n - 1)) v); lia.
Qed.

Lemma pow256 n : 256 ^ Z.of_nat n = 2 ^ (8 * Z.of_nat n).
Proof. change 256 with (2 ^ 8). by rewrite <-Z.pow_mul_r by lia. Qed.

Lemma from_be_signed_bounds bs :
  bytes_ok bs → bs ≠ [] →
  - 2 ^ (8 * zlen bs - 1) ≤ from_be_signed bs < 2 ^ (8 * zlen bs - 1).
Proof.
  intros Hb Hne. unfold from_be_signed.
  pose proof (from_be_bounds bs Hb) as Hv.
  unfold zlen in *. rewrite pow256 in Hv.
  assert (0 < length bs)%nat by (destruct bs; [done|simpl; lia]).
  assert (Hp : 2 ^ (8 * Z.of_nat (length bs)) = 2 * 2 ^ (8 * Z.of_nat (length bs) - 1)).
  { rewrite <-Z.pow_succ_r by lia. f_equal. lia. }
  destruct (Z.leb_spec (2 ^ (8 * Z.of_nat (length bs) - 1)) (from_be bs)); lia.
Qed.

Lemma to_be_from_be_signed bs :
  bytes_ok bs → bs ≠ [] → to_be (length bs) (from_be_signed bs) = bs.
Proof.
  intros Hb Hne. unfold from_be_signed.
  destruct (2 ^ (8 * zlen bs - 1) <=? from_be bs); [|by apply to_be_from_be].
  rewrite <-(to_be_from_be bs Hb) at 4.
  unfold zlen. rewrite <-pow256.
  generalize (length bs) as n. generalize (from_be bs) as v. clear.
  intros v n. revert v. induction n as [|n IH]; intros v; [done|]. simpl.
  replace (Z.of_nat (S n)) with (Z.of_nat n + 1) by lia.
  rewrite Z.pow_add_r, Z.pow_1_r by lia.
  replace (v - 256 ^ Z.of_nat n * 256) with (v + (- 256 ^ Z.of_nat n) * 256) by lia.
  rewrite Z.div_add, Z.mod_add by lia. f_equal.
  change (v / 256 + - 256 ^ Z.of_nat n) with (v / 256 - 256 ^ Z.of_nat n). apply IH.
Qed.

Section int_lemmas.
Context (t : ity) (Hpos : (0 < nbytes t)%nat).

Lemma int_roundtrip v : int_ok t v → from_be_bytes t (to_be_bytes t v) = v.
Proof.
  unfold int_ok, from_be_bytes, to_be_bytes. destruct (is_signed t); intros Hv.
  - by apply from_be_signed_to_be.
  - rewrite from_be_to_be, pow256. by apply Z.mod_small.
Qed.

Lemma from_be_bytes_ok bs :
  bytes_ok bs → length bs = nbytes t → int_ok t (from_be_bytes t bs).
Proof.
  intros Hb Hl. unfold int_ok, from_be_bytes. rewrite <-Hl.
  destruct (is_signed t).
  - apply from_be_signed_bounds; [done|]. intros ->. simpl in Hl. lia.
  - rewrite <-pow256. by apply from_be_bounds.
Qed.

Lemma int_canonical bs :
  bytes_ok bs → length bs = nbytes t → to_be_bytes t (from_be_bytes t bs) = bs.
Proof.
  intros Hb Hl. unfold to_be_bytes, from_be_bytes. rewrite <-Hl.
  destruct (is_signed t); [|by apply to_be_from_be].
  apply to_be_from_be_signed; [done|]. intros ->. simpl in Hl. lia.
Qed.
End int_lemmas.

(** A type whose encoding is one fixed-size block satisfies the laws when its
    block conversion does. *)
Lemma ltb_remaining_app n bs suf c :
  remaining c = bs ++ suf → length bs = n →
  (zlen (remaining c) <? Z.of_nat n) = false.
Proof. intros -> <-. apply Z.ltb_ge. rewrite zlen_app. unfold zlen. lia. Qed.

#[global] Instance num_wire (t : ity) : WireOk (num t) := λ v, int_ok t (num_val v).

Lemma num_laws_aux (t : ity) (Hpos : (0 < nbytes t)%nat) : ChiaLaws (num t).
Proof.
  split; intros ver v; simpl; unfold wire_ok at 1; simpl.
  - eauto.
  - intros bs _ [= <-]. apply to_be_ok.
  - intros bs suf c Hv [= <-] Hr. unfold to_be_bytes in *.
    rewrite (ltb_remaining_app _ _ _ _ Hr) by apply length_to_be.
    rewrite (read_exact_app _ _ _ _ Hr) by apply length_to_be.
    rewrite length_to_be. cbn. change (to_be (nbytes t) (num_val v)) with (to_be_bytes t (num_val v)).
    rewrite int_roundtrip by done. by destruct v.
  - intros c c' Hb Hd.
    destruct (_ <? _); [done|]. apply bind_Ok_inv in Hd as ([bs c1] & Hr & Hd).
    injection Hd as <- <-. apply read_exact_inv in Hr as (suf & Hr & Hl & ->).
    apply bytes_ok_remaining in Hb. rewrite Hr in Hb.
    apply bytes_ok_app in Hb as [Hb _]. simpl.
    split; [by apply from_be_bytes_ok|].
    exists bs, suf. rewrite int_canonical, Hl by done. done.
Qed.

#[global] Instance u8_laws : ChiaLaws (num u8) := num_laws_aux u8 ltac:(simpl; lia).
#[global] Instance u16_laws : ChiaLaws (num u16) := num_laws_aux u16 ltac:(simpl; lia).
#[global] Instance u32_laws : ChiaLaws (num u32) := num_laws_aux u32 ltac:(simpl; lia).
#[global] Instance u64_laws : ChiaLaws (num u64) := num_laws_aux u64 ltac:(simpl; lia).
#[global] Instance u128_laws : ChiaLaws (num u128) := num_laws_aux u128 ltac:(simpl; lia).
#[global] Instance i8_laws : ChiaLaws (num i8) := num_laws_aux i8 ltac:(simpl; lia).
#[global] Instance i16_laws : ChiaLaws (num i16) := num_laws_aux i16 ltac:(simpl; lia).
#[global] Instance i32_laws : ChiaLaws (num i32) := num_laws_aux i32 ltac:(simpl; lia).
#[global] Instance i64_laws : ChiaLaws (num i64) := num_laws_aux i64 ltac:(simpl; lia).
#[global] Instance i128_laws : ChiaLaws (num i128) := num_laws_aux i128 ltac:(simpl; lia).

#[global] Instance arr_wire n : WireOk (arr n) :=
  λ v, length (arr_val v) = n ∧ bytes_ok (arr_val v).

#[global] Instance arr_laws n : ChiaLaws (arr n).
Proof.
  split; intros ver v; simpl; unfold wire_ok at 1; simpl.
  - eauto.
  - intros bs [_ Hb] [= <-]. done.
  - intros bs suf c [Hl _] [= <-] Hr.
    rewrite (ltb_remaining_app _ _ _ _ Hr), (read_exact_app _ _ _ _ Hr) by done.
    rewrite Hl. by destruct v.
  - intros c c' Hb Hd.
    destruct (_ <? _); [done|]. apply bind_Ok_inv in Hd as ([bs c1] & Hr & Hd).
    injection Hd as <- <-. apply read_exact_inv in Hr as (suf & Hr & Hl & ->).
    apply bytes_ok_remaining in Hb. rewrite Hr in Hb.
    apply bytes_ok_app in Hb as [Hb _]. simpl.
    split; [done|]. exists bs, suf. by rewrite Hl.
Qed.

#[global] Instance nz_wire (t : ity) : WireOk (nz t) :=
  λ v, int_ok t (nz_val v) ∧ nz_val v ≠ 0.

Lemma nz_laws_aux (t : ity) (Hpos : (0 < nbytes t)%nat) : ChiaLaws (nz t).
Proof.
  split; intros ver v; simpl; unfold wire_ok at 1; simpl.
  - eauto.
  - intros bs _ [= <-]. apply to_be_ok.
  - intros bs suf c [Hv Hnz] [= <-] Hr.
    rewrite (read_exact_app _ _ _ _ Hr) by apply length_to_be.
    cbn. rewrite int_roundtrip by done.
    destruct (Z.eqb_spec (nz_val v) 0); [done|].
    unfold to_be_bytes. rewrite length_to_be. by destruct v.
  - intros c c' Hb Hd.
    apply bind_Ok_inv in Hd as ([bs c1] & Hr & Hd). cbn in Hd.
    destruct (Z.eqb_spec (from_be_bytes t bs) 0); [done|].
    injection Hd as <- <-. apply read_exact_inv in Hr as (suf & Hr & Hl & ->).
    apply bytes_ok_remaining in Hb. rewrite Hr in Hb.
    apply bytes_ok_app in Hb as [Hb _]. simpl.
    split; [split; [by apply from_be_bytes_ok|done]|].
    exists bs, suf. rewrite int_canonical, Hl by done. done.
Qed.

#[global] Instance nz_u32_laws : ChiaLaws (nz u32) := nz_laws_aux u32 ltac:(simpl; lia).
#[global] Instance nz_u64_laws : ChiaLaws (nz u64) := nz_laws_aux u64 ltac:(simpl; lia).

#[global] Instance bool_wire : WireOk bool := λ _, True.

#[global] Instance bool_laws : ChiaLaws bool.
Proof.
  split; intros ver v; simpl; unfold wire_ok at 1; simpl.
  - eauto.
  - intros bs _ [= <-]. destruct v; repeat constructor; done.
  - intros bs suf c _ [= <-] Hr.
    rewrite (read_exact_app _ _ _ _ Hr) by done. by destruct v.
  - intros c c' Hb Hd. split; [done|].
    apply bind_Ok_inv in Hd as ([bs c1] & Hr & Hd).
    apply read_exact_inv in Hr as (suf & Hr & Hl & ->).
    destruct bs as [|[|[| |]|] [|]]; try done; injection Hd as <- <-; by eexists _, suf.
Qed.

Section composite_laws.
Context {T U V : Type} `{ChiaLaws T, ChiaLaws U, ChiaLaws V}.

#[global] Instance option_wire : WireOk (option T) :=
  λ o, match o with Some v => wire_ok v | None => True end.

#[global] Instance option_laws : ChiaLaws (option T).
Proof.
  split; intros ver o; simpl; unfold wire_ok at 1; simpl.
  - destruct o as [v|]; [|eauto]. intros Hv.
    destruct (to_bytes_total ver v Hv) as [bs ->]. by eexists.
  - intros bs Hv Hb. destruct o as [v|]; res_inv.
    + constructor; [unfold byte_ok; lia|]. exact (to_bytes_bytes ver v _ Hv Hm).
    + repeat constructor; lia.
  - intros bs suf c Hv Hb Hr. destruct o as [v|]; res_inv.
    + rewrite (read_exact_app 1 [1] (a ++ suf)) by done. cbn.
      rewrite (from_to ver v a suf (advance 1 c)); try done.
      * cbn. by rewrite advance_advance.
      * by apply (remaining_app [1] (a ++ suf) c).
    + by rewrite (read_exact_app 1 [0] suf).
  - intros c c' Hb Hd. apply bind_Ok_inv in Hd as ([bs c1] & Hr & Hd).
    apply read_exact_inv in Hr as (suf & Hr & Hl & ->).
    destruct bs as [|[|[| |]|] [|]]; try done; cbn in Hd.
    + injection Hd as <- <-. split; [done|]. by exists [0], suf.
    + apply bind_Ok_inv in Hd as ([v c2] & Hd & [= <- <-]).
      apply to_from in Hd as (Hv & bs & suf' & Hbs & Hr' & ->); [|done].
      split; [done|]. exists (1 :: bs), suf'. rewrite Hbs. split_and!; [done| |].
      * change 1%nat with (length [1]) in Hr'.
        rewrite (remaining_app [1] suf c Hr) in Hr'. by rewrite Hr, Hr'.
      * by rewrite advance_advance.
Qed.

#[global] Instance pair_wire : WireOk (T * U) := λ p, wire_ok p.1 ∧ wire_ok p.2.

#[global] Instance pair_laws : ChiaLaws (T * U).
Proof.
  split; intros ver [t u]; simpl; unfold wire_ok at 1; simpl.
  - intros [Ht Hu]. destruct (to_bytes_total ver t Ht) as [b0 ->].
    destruct (to_bytes_total ver u Hu) as [b1 Hb1]. cbn. rewrite Hb1. by eexists.
  - intros bs [Ht Hu] Hb. res_inv. apply bytes_ok_app.
    split; [exact (to_bytes_bytes ver t _ Ht Hm)|exact (to_bytes_bytes ver u _ Hu Hm0)].
  - intros bs suf c [Ht Hu] Hb Hr. res_inv. rewrite <-app_assoc in Hr.
    rewrite (from_to ver t _ _ _ Ht Hm Hr). cbn. apply remaining_app in Hr.
    rewrite (from_to ver u _ _ _ Hu Hm0 Hr). cbn.
    by rewrite advance_advance, length_app.
  - intros c c' Hb Hd. apply bind_Ok_inv in Hd as ([t' c1] & Hd1 & Hd).
    apply to_from in Hd1 as (Ht & b0 & s0 & Hb0 & Hr0 & ->); [|done].
    apply bind_Ok_inv in Hd as ([u' c2] & Hd2 & [= <- <- <-]).
    apply to_from in Hd2 as (Hu & b1 & s1 & Hb1 & Hr1 & ->); [|done].
    rewrite (remaining_app _ _ _ Hr0) in Hr1. subst s0.
    split; [done|]. exists (b0 ++ b1), s1.
    rewrite Hb0. cbn. rewrite Hb1. cbn.
    by rewrite advance_advance, length_app, <-app_assoc.
Qed.

#[global] Instance triple_wire : WireOk (triple T U V) :=
  λ p, wire_ok (tr_0 p) ∧ wire_ok (tr_1 p) ∧ wire_ok (tr_2 p).

#[global] Instance triple_laws : ChiaLaws (triple T U V).
Proof.
  split; intros ver [t u v]; simpl; unfold wire_ok at 1; simpl.
  - intros (Ht & Hu & Hv). destruct (to_bytes_total ver t Ht) as [b0 ->].
    destruct (to_bytes_total ver u Hu) as [b1 Hb1].
    destruct (to_bytes_total ver v Hv) as [b2 Hb2].
    cbn. rewrite Hb1. cbn. rewrite Hb2. by eexists.
  - intros bs (Ht & Hu & Hv) Hb. res_inv. rewrite !bytes_ok_app.
    split_and!; [exact (to_bytes_bytes ver t _ Ht Hm)
      |exact (to_bytes_bytes ver u _ Hu Hm0)|exact (to_bytes_bytes ver v _ Hv Hm1)].
  - intros bs suf c (Ht & Hu & Hv) Hb Hr. res_inv. rewrite <-!app_assoc in Hr.
    rewrite (from_to ver t _ _ _ Ht Hm Hr). cbn. apply remaining_app in Hr.
    rewrite (from_to ver u _ _ _ Hu Hm0 Hr). cbn. apply remaining_app in Hr.
    rewrite (from_to ver v _ _ _ Hv Hm1 Hr). cbn.
    rewrite !advance_advance, !length_app. by rewrite Nat.add_assoc.
  - intros c c' Hb Hd. apply bind_Ok_inv in Hd as ([t' c1] & Hd1 & Hd).
    apply to_from in Hd1 as (Ht & b0 & s0 & Hb0 & Hr0 & ->); [|done].
    apply bind_Ok_inv in Hd as ([u' c2] & Hd2 & Hd).
    apply to_from in Hd2 as (Hu & b1 & s1 & Hb1 & Hr1 & ->); [|done].
    apply bind_Ok_inv in Hd as ([v' c3] & Hd3 & [= <- <- <- <-]).
    apply to_from in Hd3 as (Hv & b2 & s2 & Hb2 & Hr2 & ->); [|done].
    rewrite (remaining_app _ _ _ Hr1) in Hr2.
    rewrite (remaining_app _ _ _ Hr0) in Hr1. subst s1 s0.
    split; [done|]. exists (b0 ++ b1 ++ b2), s2.
    rewrite Hb0. cbn. rewrite Hb1. cbn. rewrite Hb2. cbn.
    rewrite !advance_advance, !length_app, <-!app_assoc, Nat.add_assoc. done.
Qed.

Lemma encode_all_total ver (l : list T) :
  Forall wire_ok l → ∃ bs, encode_all ver l = Ok bs.
Proof.
  induction 1 as [|v l Hv _ [bs IH]]; [by eexists|]. cbn.
  destruct (to_bytes_total ver v Hv) as [b ->]. cbn. rewrite IH. by eexists.
Qed.

Lemma encode_all_bytes ver (l : list T) bs :
  Forall wire_ok l → encode_all ver l = Ok bs → bytes_ok bs.
Proof.
  intros Hl. revert bs. induction Hl as [|v l Hv _ IH]; cbn; intros bs Hb; res_inv.
  - constructor.
  - apply bytes_ok_app. split; [exact (to_bytes_bytes ver v _ Hv Hm)|by apply IH].
Qed.

Lemma decode_n_encode_all ver (l : list T) bs suf c :
  Forall wire_ok l → encode_all ver l = Ok bs → remaining c = bs ++ suf →
  decode_n ver (length l) c = Ok (l, advance (length bs) c).
Proof.
  intros Hl. revert bs c. induction Hl as [|v l Hv _ IH]; cbn; intros bs c Hb Hr; res_inv.
  - by rewrite advance_0.
  - rewrite <-app_assoc in Hr. rewrite (from_to ver v _ _ _ Hv Hm Hr). cbn.
    apply remaining_app in Hr. rewrite (IH _ _ Hm0 Hr). cbn.
    by rewrite advance_advance, length_app.
Qed.

Lemma decode_n_inv ver n (l : list T) c c' :
  bytes_ok (get_ref c) → decode_n ver n c = Ok (l, c') →
  length l = n ∧ Forall wire_ok l ∧ ∃ bs suf,
    encode_all ver l = Ok bs ∧ remaining c = bs ++ suf ∧ c' = advance (length bs) c.
Proof.
  revert l c. induction n as [|n IH]; cbn; intros l c Hb Hd.
  - res_inv. injection Hd as <- <-. split_and!; [done..|].
    exists [], (remaining c). by rewrite advance_0.
  - apply bind_Ok_inv in Hd as ([v c1] & Hd1 & Hd).
    apply to_from in Hd1 as (Hv & b0 & s0 & Hb0 & Hr0 & ->); [|done].
    apply bind_Ok_inv in Hd as ([l' c2] & Hd2 & [= <- <-]).
    apply IH in Hd2 as (<- & Hl & b1 & s1 & Hb1 & Hr1 & ->); [|done].
    rewrite (remaining_app _ _ _ Hr0) in Hr1. subst s0.
    split_and!; [done|by constructor|]. exists (b0 ++ b1), s1. cbn.
    rewrite Hb0. cbn. rewrite Hb1. cbn.
    by rewrite advance_advance, length_app, <-app_assoc.
Qed.
End composite_laws.

(** The length prefix of a list shorter than 2^32 reads back as its length. *)
Lemma from_be_len_prefix {A} (l : list A) :
  zlen l < 2 ^ 32 → from_be (len_prefix l) = zlen l.
Proof.
  intros Hl. unfold len_prefix, wrapu. rewrite from_be_to_be.
  pose proof (zlen_nonneg l). rewrite (Z.mod_small (zlen l)) by lia.
  change (256 ^ Z.of_nat 4) with (2 ^ 32). by rewrite Z.mod_small by lia.
Qed.

Lemma length_len_prefix {A} (l : list A) : length (len_prefix l) = 4%nat.
Proof. apply length_to_be. Qed.

Lemma len_prefix_from_be {A} (l : list A) b :
  bytes_ok b → length b = 4%nat → length l = Z.to_nat (from_be b) → len_prefix l = b.
Proof.
  intros Hb Hl4 Hl. pose proof (from_be_bounds b Hb) as Hv.
  unfold zlen in Hv. rewrite Hl4 in Hv. change (256 ^ Z.of_nat 4) with (2 ^ 32) in Hv.
  unfold len_prefix, wrapu, zlen. rewrite Hl, Z2Nat.id by lia.
  rewrite Z.mod_small by lia. rewrite <-Hl4. by apply to_be_from_be.
Qed.

#[global] Instance vec_wire {T} `{WireOk T} : WireOk (list T) :=
  λ l, zlen l < 2 ^ 32 ∧ Forall wire_ok l.

#[global] Instance vec_laws {T} `{ChiaLaws T} : ChiaLaws (list T).
Proof.
  split; intros ver l; cbn [to_bytes from_bytes vec_serialize].
  - intros [_ Hl]. destruct (encode_all_total ver l Hl) as [bs ->]. by eexists.
  - intros bs [_ Hl] Hb. res_inv. rewrite bytes_ok_app. split; [apply to_be_ok|].
    by eapply encode_all_bytes.
  - intros bs suf c [Hlen Hl] Hb Hr. res_inv. rewrite <-app_assoc in Hr.
    rewrite (read_exact_app _ _ _ _ Hr) by apply length_len_prefix. cbn.
    rewrite from_be_len_prefix by done. unfold zlen. rewrite Nat2Z.id.
    apply remaining_app in Hr. rewrite length_len_prefix in Hr.
    rewrite (decode_n_encode_all ver l _ _ _ Hl Hm Hr).
    by rewrite advance_advance, length_app, length_len_prefix.
  - intros c c' Hb Hd. apply bind_Ok_inv in Hd as ([b4 c1] & Hr & Hd).
    apply read_exact_inv in Hr as (suf & Hr & Hl4 & ->).
    apply decode_n_inv in Hd as (Hlen & Hl & bs & suf' & Hbs & Hr' & ->); [|done].
    assert (Hb4 : bytes_ok b4).
    { apply bytes_ok_remaining in Hb. rewrite Hr in Hb.
      by apply bytes_ok_app in Hb as [Hb _]. }
    pose proof (from_be_bounds b4 Hb4) as Hv. unfold zlen in Hv. rewrite Hl4 in Hv.
    change (256 ^ Z.of_nat 4) with (2 ^ 32) in Hv.
    split; [split; [unfold zlen; rewrite Hlen; lia|done]|].
    exists (len_prefix l ++ bs), suf'. rewrite Hbs. cbn.
    rewrite length_app, length_len_prefix, advance_advance, <-app_assoc.
    split_and!; [done| |done].
    rewrite (len_prefix_from_be l b4), Hr by done. f_equal.
    rewrite <-Hl4, (remaining_app _ _ _ Hr) in Hr'. done.
Qed.

#[global] Instance string_wire : WireOk rstring := λ s,
  zlen (str_bytes s) < 2 ^ 32 ∧ bytes_ok (str_bytes s) ∧ utf8_valid (str_bytes s) = true.

#[global] Instance string_laws : ChiaLaws rstring.
Proof.
  split; intros ver s; cbn [to_bytes from_bytes string_serialize].
  - eauto.
  - intros bs (_ & Hb & _) <-%Ok_inj. apply bytes_ok_app. split; [apply to_be_ok|done].
  - intros bs suf c (Hlen & Hb & Hu) <-%Ok_inj Hr. rewrite <-app_assoc in Hr.
    rewrite (read_exact_app _ _ _ _ Hr) by apply length_len_prefix. cbn.
    rewrite from_be_len_prefix by done.
    apply remaining_app in Hr. rewrite length_len_prefix in Hr.
    unfold zlen at 2. rewrite (ltb_remaining_app _ _ _ _ Hr) by done.
    unfold zlen. rewrite Nat2Z.id.
    rewrite (read_exact_app _ _ _ _ Hr) by done. cbn. rewrite Hu.
    rewrite advance_advance, length_app, length_len_prefix. by destruct s.
  - intros c c' Hb Hd. apply bind_Ok_inv in Hd as ([b4 c1] & Hr & Hd).
    apply read_exact_inv in Hr as (suf & Hr & Hl4 & ->). cbn in Hd.
    destruct (_ <? _); [done|].
    apply bind_Ok_inv in Hd as ([buf c2] & Hr2 & Hd).
    apply read_exact_inv in Hr2 as (suf' & Hr' & Hlen & ->). cbn in Hd.
    destruct (utf8_valid buf) eqn:Hu; [|done]. injection Hd as <- <-.
    rewrite <-Hl4, (remaining_app _ _ _ Hr) in Hr'. subst suf.
    apply bytes_ok_remaining in Hb. rewrite Hr, !bytes_ok_app in Hb.
    destruct Hb as (Hb4 & Hbuf & _).
    pose proof (from_be_bounds b4 Hb4) as Hv. unfold zlen in Hv. rewrite Hl4 in Hv.
    change (256 ^ Z.of_nat 4) with (2 ^ 32) in Hv.
    split; [split; [cbn; unfold zlen; rewrite Hlen; lia|done]|].
    exists (len_prefix buf ++ buf), suf'.
    rewrite length_app, length_len_prefix, advance_advance, <-app_assoc, Hlen.
    split; [done|]. by rewrite (len_prefix_from_be buf b4) by done.
Qed.

(** * Properties *)


Definition sample_value : list (num u16 * option rstring) :=
  [(Num 0x1234, Some (RString [0x61; 0xC3; 0xA9])); (Num 7, None)].
Definition sample_bytes : list Z :=
  [0;0;0;2; 0x12;0x34; 1; 0;0;0;3; 0x61;0xC3;0xA9; 0;7; 0].


(** ** [HashMap] *)
Section map_laws.
Context {K V : Type} `{Countable K, ChiaLaws K, ChiaLaws V}.

Lemma map_decode_encode ver (entries : list (K * V)) (m : gmap K V) bs suf c :
  Forall wire_ok entries → encode_all ver entries = Ok bs →
  remaining c = bs ++ suf →
  map_decode_n ver (length entries) m c =
    Ok (foldl (λ m e, <[e.1 := e.2]> m) m entries, advance (length bs) c).
Proof.
  revert m bs c. induction entries as [|[k v] l IH]; intros m bs c Hl Hm Hr; simpl in *.
  - apply Ok_inj in Hm as <-. simpl. by rewrite advance_0.
  - apply Forall_cons_iff in Hl as [[Hk Hv] Hl]. simpl in Hk, Hv.
    apply bind_Ok_inv in Hm as (b & Hb & Hm). apply bind_Ok_inv in Hm as (bs' & Hbs & Hm).
    apply Ok_inj in Hm as <-.
    apply bind_Ok_inv in Hb as (bk & Hbk & Hb). apply bind_Ok_inv in Hb as (bv & Hbv & Hb).
    apply Ok_inj in Hb as <-. simpl in Hbk, Hbv. rewrite <-!app_assoc in Hr.
    rewrite (from_to ver k _ _ _ Hk Hbk Hr). cbn.
    pose proof (remaining_app _ _ _ Hr) as Hr1.
    rewrite (from_to ver v _ _ _ Hv Hbv Hr1). cbn.
    rewrite (IH _ bs') by (done || by apply remaining_app in Hr1).
    rewrite !advance_advance, !length_app. do 2 f_equal. f_equal. lia.
Qed.

Lemma foldl_insert_perm (entries : list (K * V)) (m : gmap K V) :
  NoDup entries.*1 →
  foldl (λ m e, <[e.1 := e.2]> m) m entries = list_to_map entries ∪ m.
Proof.
  revert m. induction entries as [|[k v] l IH]; intros m Hnd; simpl in *.
  - by rewrite map_empty_union.
  - apply NoDup_cons in Hnd as [Hk Hnd]. rewrite IH by done.
    rewrite <-insert_union_r, insert_union_l; [done|].
    by apply not_elem_of_list_to_map_1.
Qed.

(** encoding a [HashMap] in any iteration order decodes to the same map
    and consumes exactly the encoding. *)
Theorem map_roundtrip ver (m : gmap K V) entries bs suf c :
  entries ≡ₚ map_to_list m → zlen entries < 2 ^ 32 → Forall wire_ok entries →
  map_to_bytes ver entries = Ok bs → remaining c = bs ++ suf →
  map_from_bytes ver c = Ok (m, advance (length bs) c).
Proof.
  intros Hp Hlen Hok Hb Hr. unfold map_to_bytes in Hb.
  apply bind_Ok_inv in Hb as (a & Ha & Hb). apply Ok_inj in Hb as <-.
  rewrite <-app_assoc in Hr. unfold map_from_bytes.
  rewrite (read_exact_app _ _ _ _ Hr) by apply length_len_prefix. cbn.
  rewrite from_be_len_prefix by done. unfold zlen. rewrite Nat2Z.id.
  apply remaining_app in Hr. rewrite length_len_prefix in Hr.
  rewrite (map_decode_encode _ _ _ _ _ _ Hok Ha Hr).
  assert (Hnd : NoDup entries.*1) by (rewrite Hp; apply NoDup_fst_map_to_list).
  rewrite foldl_insert_perm, map_union_empty by done.
  rewrite (list_to_map_proper _ _ Hnd Hp), list_to_map_to_list.
  by rewrite advance_advance, length_app, length_len_prefix.
Qed.
End map_laws.

(** ** [parse_vec_limited] *)
Lemma decode_n_app {T} `{ChiaSerialize T} ver n m c :
  decode_n (T:=T) ver (n + m) c =
    '(l, c) ← decode_n ver n c; '(k, c) ← decode_n ver m c; Ok (l ++ k, c).
Proof.
  revert c. induction n as [|n IH]; intros c; cbn.
  - by destruct (decode_n ver m c) as [[k c']| |].
  - destruct (from_bytes ver c) as [[e c1]| |]; cbn; [|done..].
    rewrite IH. destruct (decode_n ver n c1) as [[l c2]| |]; cbn; [|done..].
    by destruct (decode_n ver m c2) as [[k c3]| |].
Qed.

Lemma encode_all_app {T} `{ChiaSerialize T} ver (l k : list T) :
  encode_all ver (l ++ k) =
    b0 ← encode_all ver l; b1 ← encode_all ver k; Ok (b0 ++ b1).
Proof.
  induction l as [|e l IH]; cbn.
  - by destruct (encode_all ver k).
  - destruct (to_bytes ver e) as [b| |]; cbn; [|done..].
    rewrite IH. destruct (encode_all ver l) as [b0| |]; cbn; [|done..].
    destruct (encode_all ver k); cbn; by rewrite ?app_assoc.
Qed.

Lemma encode_all_fixed {T} `{ChiaSerialize T} ver (size : Z) (l : list T) bs :
  (∀ e b, e ∈ l → to_bytes ver e = Ok b → zlen b = size) →
  encode_all ver l = Ok bs → zlen bs = zlen l * size.
Proof.
  revert bs. induction l as [|e l IH]; cbn; intros bs Hs Hb; res_inv; [done|].
  rewrite zlen_app, zlen_cons, (Hs e a), (IH a0) by (set_solver || done). lia.
Qed.

(** on the encoding of a vector, [parse_vec_limited] returns its first
    [max_items] elements and leaves the cursor at the end of the whole
    vector, whether it decodes the surplus elements or skips them by their
    declared fixed size. *)
Theorem parse_vec_limited_spec {T} `{ChiaLaws T} ver (l : list T) bs suf c max size :
  wire_ok l → to_bytes ver l = Ok bs → remaining c = bs ++ suf → 0 ≤ max →
  Z.of_nat (position c) + zlen bs < 2 ^ 64 →
  (∀ s, size = Some s → 0 ≤ s ∧ ∀ e b, e ∈ l → to_bytes ver e = Ok b → zlen b = s) →
  parse_vec_limited ver max size c =
    Ok (take (Z.to_nat max) l, advance (length bs) c).
Proof.
  intros [Hlen Hl] Hb Hr Hmax Hpos Hsize. cbn [to_bytes vec_serialize] in Hb.
  apply bind_Ok_inv in Hb as (bl & Hbl & Hb). apply Ok_inj in Hb as <-.
  rewrite <-app_assoc in Hr. unfold parse_vec_limited.
  rewrite (read_exact_app _ _ _ _ Hr) by apply length_len_prefix. cbn [mbind res_bind].
  rewrite from_be_len_prefix by done. pose proof (remaining_app _ _ _ Hr) as Hr1.
  rewrite length_len_prefix in Hr1.
  set (n := Z.to_nat max). rewrite <-(take_drop n l) in Hbl, Hl.
  rewrite encode_all_app in Hbl. apply bind_Ok_inv in Hbl as (b0 & Hb0 & Hbl).
  apply bind_Ok_inv in Hbl as (b1 & Hb1 & Hbl). apply Ok_inj in Hbl as <-.
  apply Forall_app in Hl as [Hl0 Hl1]. rewrite <-app_assoc in Hr1.
  assert (Z.to_nat (zlen l `min` max) = length (take n l)) as ->.
  { rewrite length_take. unfold zlen, n. lia. }
  rewrite (decode_n_encode_all ver _ _ _ _ Hl0 Hb0 Hr1). cbn [mbind res_bind].
  pose proof (remaining_app _ _ _ Hr1) as Hr2.
  assert (Hrest : zlen l - zlen l `min` max = zlen (drop n l)).
  { unfold zlen. rewrite length_drop. unfold n. lia. }
  rewrite Hrest, !length_app, length_len_prefix.
  destruct (Z.ltb_spec 0 (zlen (drop n l))) as [Hgt|Hle].
  - destruct size as [s|].
    + destruct (Hsize s eq_refl) as [Hs0 Hs].
      assert (Hf : zlen b1 = zlen (drop n l) * s).
      { apply (encode_all_fixed ver s (drop n l)); [|done].
        intros e b He. apply Hs. apply list_elem_of_In.
        rewrite <-(take_drop n l), in_app_iff. right. by apply list_elem_of_In. }
      rewrite !zlen_app in Hpos. unfold zlen at 1 in Hpos. rewrite length_len_prefix in Hpos.
      pose proof (zlen_nonneg b0). pose proof (zlen_nonneg b1).
      unfold sat_addu, sat_mulu. rewrite <-Hf. unfold advance. cbn.
      assert (Hend : (Z.of_nat (position c) + 4 + zlen b0 + zlen b1 ≤ zlen (get_ref c))%Z).
      { apply (f_equal (@zlen Z)) in Hr. unfold remaining, zlen in Hr.
        rewrite length_drop, !length_app, length_len_prefix in Hr.
        unfold zlen. lia. }
      unfold zlen in *. do 3 f_equal; lia.
    + unfold zlen at 1. rewrite Nat2Z.id.
      rewrite (decode_n_encode_all ver _ _ _ _ Hl1 Hb1 Hr2). cbn.
      rewrite !advance_advance. do 3 f_equal; lia.
  - assert (drop n l = []) as Hn by (apply zlen_0; pose proof (zlen_nonneg (drop n l)); lia).
    rewrite Hn in Hb1. apply Ok_inj in Hb1 as <-. rewrite !advance_advance. cbn.
    do 3 f_equal; lia.
Qed.

(** Whatever the input claims, at most [max_items] elements are returned. *)
Lemma length_decode_n {T} `{ChiaSerialize T} ver n c (l : list T) c' :
  decode_n ver n c = Ok (l, c') → length l = n.
Proof.
  revert c l. induction n as [|n IH]; cbn; intros c l Hd.
  - by injection Hd as <- <-.
  - apply bind_Ok_inv in Hd as ([e c1] & _ & Hd).
    apply bind_Ok_inv in Hd as ([k c2] & Hd & [= <- <-]). cbn. f_equal. by eapply IH.
Qed.

Lemma parse_vec_limited_bound {T} `{ChiaSerialize T} ver max size c (l : list T) c' :
  0 ≤ max → parse_vec_limited ver max size c = Ok (l, c') → zlen l ≤ max.
Proof.
  unfold parse_vec_limited. intros Hmax Hd.
  apply bind_Ok_inv in Hd as ([b c1] & _ & Hd).
  apply bind_Ok_inv in Hd as ([k c2] & Hk%length_decode_n & Hd).
  assert (l = k) as ->.
  { destruct (_ <? _); [destruct size|]; res_inv; [| |]; try congruence.
    destruct a. res_inv. congruence. }
  unfold zlen. lia.
Qed.

Lemma parse_vec_limited_spec_witness :
  parse_vec_limited (T:=num u16) version_default 2 (Some 2)
    (Cursor [9; 0;0;0;3; 0;1; 0;2; 0;3; 8] 1) =
  Ok ([Num 1; Num 2], Cursor [9; 0;0;0;3; 0;1; 0;2; 0;3; 8] 11).
Proof.
  apply (parse_vec_limited_spec version_default [Num (t:=u16) 1; Num 2; Num 3]
           [0;0;0;3; 0;1; 0;2; 0;3] [8]); [|done|done|lia|by vm_compute|].
  - split; [by vm_compute|]. repeat constructor; by vm_compute.
  - intros s [= <-]. split; [lia|]. intros e b He [= <-]. done.
Defined.


(** ** The CLVM size prefix *)
Definition header_ok (h : Z) (lim cnt : nat) : bool :=
  forallb (λ n, let b0 := wrapu 8 (Z.lor h (Z.of_nat n)) in
    negb (Z.land b0 0x80 =? 0) &&
    bool_decide (prefix_loop 9 0 0x80 b0 = (cnt, Z.of_nat n))) (seq 0 lim).

Lemma decode_size_header h lim cnt b tail c suf :
  header_ok h lim cnt = true → 0 ≤ b < Z.of_nat lim →
  cnt = S (length tail) → (cnt < 6)%nat → remaining c = tail ++ suf →
  from_be (b :: tail) < MAX_DECODE_SIZE →
  decode_size (wrapu 8 (Z.lor h b)) c = Ok (from_be (b :: tail), advance (length tail) c).
Proof.
  intros Hh Hb Hcnt H6 Hr Hlt. unfold header_ok in Hh. rewrite forallb_forall in Hh.
  specialize (Hh (Z.to_nat b)). rewrite Z2Nat.id in Hh by lia. cbn zeta in Hh.
  rewrite andb_true_iff, negb_true_iff, bool_decide_eq_true in Hh.
  destruct Hh as [Hbit Hloop]; [apply in_seq; lia|].
  unfold decode_size. rewrite Hbit, Hloop, Hcnt.
  assert (Hread : (if decide (1 < S (length tail))%nat then read_exact (S (length tail) - 1) c
           else Ok ([], c)) = Ok (tail, advance (length tail) c)).
  { case_decide.
    - rewrite (read_exact_app _ _ _ _ Hr) by (simpl; lia). do 3 f_equal. lia.
    - destruct tail; simpl in *; [by rewrite advance_0|lia]. }
  rewrite Hread. cbn [mbind res_bind length]. rewrite decide_False by lia.
  destruct (Z.leb_spec MAX_DECODE_SIZE (from_be (b :: tail))); [lia|done].
Qed.

Lemma size_bytes n size :
  0 ≤ size < 256 ^ Z.of_nat (S n) →
  from_be (Z.shiftr size (8 * Z.of_nat n) :: to_be n size) = size.
Proof.
  intros Hs. rewrite from_be_cons, from_be_to_be. unfold zlen. rewrite length_to_be.
  rewrite Z.shiftr_div_pow2 by lia. rewrite <-pow256.
  rewrite (Z.div_mod size (256 ^ Z.of_nat n)) at 3 by lia. lia.
Qed.

Lemma byte_shift size k : 0 ≤ k → Z.land (Z.shiftr size k) 0xff = size / 2 ^ k mod 256.
Proof.
  intros Hk. change 0xff with (Z.ones 8). rewrite Z.land_ones by lia.
  by rewrite Z.shiftr_div_pow2.
Qed.

(** One prefix class: header bits [h], [n] further bytes. *)
Definition size_class (h : Z) (n : nat) (size : Z) : list Z :=
  wrapu 8 (Z.lor h (Z.shiftr size (8 * Z.of_nat n))) :: to_be n size.

Lemma decode_size_class h lim n size :
  header_ok h lim (S n) = true → (n < 5)%nat →
  0 ≤ size < 256 ^ Z.of_nat n * Z.of_nat lim → size < MAX_DECODE_SIZE →
  Z.of_nat lim ≤ 256 →
  ∃ b0 tail, Ok (E:=IoErrorKind) (size_class h n size) = Ok (b0 :: tail) ∧
    bytes_ok (b0 :: tail) ∧
    ∀ c suf, remaining c = tail ++ suf →
      decode_size b0 c = Ok (size, advance (length tail) c).
Proof.
  intros Hh Hn Hs Hmax Hlim. eexists _, _. split; [reflexivity|]. split.
  { constructor; [apply Z.mod_pos_bound; lia|apply to_be_ok]. }
  intros c suf Hr.
  assert (Hfb : from_be (Z.shiftr size (8 * Z.of_nat n) :: to_be n size) = size).
  { apply size_bytes. replace (Z.of_nat (S n)) with (Z.of_nat n + 1) by lia.
    rewrite Z.pow_add_r by lia. nia. }
  etrans; [eapply (decode_size_header h lim (S n)) | by rewrite Hfb];
    [done| |by rewrite length_to_be|lia|exact Hr|by rewrite Hfb].
  rewrite Z.shiftr_div_pow2 by lia. rewrite <-pow256. split; [apply Z.div_pos; lia|].
  apply Z.div_lt_upper_bound; lia.
Qed.

Lemma encode_size_class size :
  0 ≤ size →
  encode_size size =
    if size <? 0x40 then Ok (size_class 0x80 0 size)
    else if size <? 0x2000 then Ok (size_class 0xc0 1 size)
    else if size <? 0x100000 then Ok (size_class 0xe0 2 size)
    else if size <? 0x8000000 then Ok (size_class 0xf0 3 size)
    else if size <? 0x400000000 then Ok (size_class 0xf8 4 size)
    else Err InvalidData.
Proof.
  intros Hs. unfold encode_size, size_class.
  repeat case_match; try done; do 2 f_equal; cbn;
    rewrite ?byte_shift, ?Z.div_1_r, ?Z.div_div by lia; reflexivity.
Qed.

Lemma encode_decode_size size :
  0 ≤ size →
  (size < MAX_DECODE_SIZE →
    ∃ b0 tail, encode_size size = Ok (b0 :: tail) ∧ bytes_ok (b0 :: tail) ∧
      ∀ c suf, remaining c = tail ++ suf →
        decode_size b0 c = Ok (size, advance (length tail) c)) ∧
  (MAX_DECODE_SIZE ≤ size → encode_size size = Err InvalidData).
Proof.
  intros Hs. rewrite encode_size_class by done. unfold MAX_DECODE_SIZE at 1 2.
  split; intros Hm.
  - repeat case_match; bool_to_prop; [| | | | |lia].
    + apply (decode_size_class 0x80 64 0); (reflexivity || unfold MAX_DECODE_SIZE; lia).
    + apply (decode_size_class 0xc0 32 1); (reflexivity || unfold MAX_DECODE_SIZE; lia).
    + apply (decode_size_class 0xe0 16 2); (reflexivity || unfold MAX_DECODE_SIZE; lia).
    + apply (decode_size_class 0xf0 8 3); (reflexivity || unfold MAX_DECODE_SIZE; lia).
    + apply (decode_size_class 0xf8 4 4); (reflexivity || unfold MAX_DECODE_SIZE; lia).
  - repeat case_match; bool_to_prop; try done; lia.
Qed.

(** every length below 2^34 is encoded, and decoding its prefix (first
    byte [b0], the rest from the stream) returns the length and consumes
    exactly the prefix; larger lengths are refused. *)
Theorem size_roundtrip size :
  0 ≤ size →
  (size < MAX_DECODE_SIZE →
    ∃ b0 tail, encode_size size = Ok (b0 :: tail) ∧ bytes_ok (b0 :: tail) ∧
      ∀ c suf, remaining c = tail ++ suf →
        decode_size b0 c = Ok (size, advance (length tail) c)) ∧
  (MAX_DECODE_SIZE ≤ size → encode_size size = Err InvalidData).
Proof. apply encode_decode_size. Qed.

Lemma size_roundtrip_witness :
  ∃ b0 tail, encode_size 0x12345 = Ok (b0 :: tail) ∧ bytes_ok (b0 :: tail) ∧
    ∀ c suf, remaining c = tail ++ suf →
      decode_size b0 c = Ok (0x12345, advance (length tail) c).
Proof. apply (size_roundtrip 0x12345); [lia|by vm_compute]. Defined.

Definition sample_map : gmap bool (num u8) := <[true := Num 5]> (<[false := Num 6]> ∅).

Lemma map_roundtrip_witness :
  map_from_bytes version_default (Cursor [0;0;0;2; 1;5; 0;6; 99] 0) =
  Ok (sample_map, Cursor [0;0;0;2; 1;5; 0;6; 99] 8).
Proof.
  apply (map_roundtrip version_default sample_map [(true, Num (t:=u8) 5); (false, Num 6)]
           [0;0;0;2; 1;5; 0;6] [99]); [|by vm_compute| |done|done].
  - unfold sample_map. rewrite !map_to_list_insert, map_to_list_empty by done. done.
  - repeat constructor; by vm_compute.
Defined.

Lemma decode_size_bound b c v c' :
  decode_size b c = Ok (v, c') → v < MAX_DECODE_SIZE.
Proof.
  unfold decode_size. case_match; [done|].
  destruct (prefix_loop _ _ _ _) as [cnt b']. intros Hd.
  apply bind_Ok_inv in Hd as ([tl c1] & _ & Hd). case_decide; [done|].
  destruct (Z.leb_spec MAX_DECODE_SIZE (from_be (b' :: tl))); [done|].
  by injection Hd as <- <-.
Qed.
