(* ===== verification/ClvmNumber.v ===== *)
(** * CLVM integers: [core/src/formatting.rs] and [core/src/clvm/sexp_ext.rs]

    The byte encodings of integers (minimal signed big-endian two's
    complement), the [SExpNumber] type with its [i128] fast path and its
    [BigInt] slow path, and the numeric part of the [From<_> for SExp] family
    of [core/src/clvm/sexp.rs].  [num_bigint::BigInt] is an arbitrary-precision
    integer, a [Z] here; its byte conversions are the fields of the class
    [BigIntBytes], what the code relies on is [BigIntBytesOk].

    The theorems: the trimmed encoding is the one canonical encoding of the
    integer whichever representation it comes from, and every operation of
    [SExpNumber] computes the integer operation and keeps the [i128] bounds. *)
From Stdlib Require Import ZArith Lia String.
From stdpp Require Import base list numbers option strings.
From S2P Require Import Prelude Serialize.

Open Scope Z_scope.

(** ** Error codes of consensus: the codes of [ChiaError] that the block
    generator raises *)
Inductive ChiaError :=
  | InvalidBlockSolution
  | DuplicateOutput
  | DoubleSpend
  | BadAggregateSignature
  | WrongPuzzleHash
  | InvalidCondition
  | AssertAnnounceConsumedFailed
  | AssertHeightRelativeFailed
  | AssertHeightAbsoluteFailed
  | AssertSecondsAbsoluteFailed
  | CoinAmountExceedsMaximum
  | BlockCostExceedsMax
  | BadAdditionRoot
  | BadRemovalRoot
  | InvalidBlockFeeAmount
  | InvalidTransactionsGeneratorHash
  | ReserveFeeConditionFailed
  | InvalidTransactionsInfoHash
  | InvalidBlockCost
  | AssertSecondsRelativeFailed
  | TooManyGeneratorRefs
  | GeneratorRuntimeError
  | InvalidCostResult
  | FutureGeneratorRefs
  | GeneratorRefHasNoGenerator
  | CoinAmountNegative
  | AssertConcurrentSpendFailed
  | AssertConcurrentPuzzleFailed
  | AssertEphemeralFailed
  | MessageNotSentOrReceived
  | ComplexGeneratorReceived
  | TooManySpends.

#[global] Instance chia_error_dec : EqDecision ChiaError.
Proof. solve_decision. Defined.

(** ** Errors of the CLVM: [core/src/errors.rs]

    The messages (rendered nodes) are left out; the payloads that are not
    text are kept. *)
Inductive ClvmError :=
  | AtomNotValidU64
  | BadEncoding
  | ConditionFailure (e : ChiaError)
  | DoubleSpendE
  | DuplicateCreate
  | InvalidPublicKey (key : list Z)
  | InvalidSpendbundle
  | CostExceeded (cost max_cost : Z)
  | ExpectedPairGotAtom
  | ExpectedAtomGotPair
  | InvalidApplyArgs
  | InvalidInputE
  | InvalidOperandList
  | InvalidOperandArgs (name : string) (expected : Z)
  | InvalidSyntax
  | IoError (k : IoErrorKind)
  | Overflow
  | Raise
  | ReservedOperator
  | TooManyAtoms
  | TooManyPairs
  | OutOfMemory
  | SerializationError
  | UnexpectedEndOfValues
  | Unimplemented (op : Z)
  | InvalidArgCount
  | InvalidOperator
  | Unsupported
  | ValueStackEmpty.

#[global] Instance clvm_error_dec : EqDecision ClvmError.
Proof. solve_decision. Defined.

Notation clvm := (res ClvmError).

(** [?] on an [io::Error] inside a function returning [ClvmError]. *)
Definition from_io {A} (m : io A) : clvm A :=
  match m with Ok a => Ok a | Err k => Err (IoError k) | Panic => Panic end.

(** ** [num_bigint]'s byte conversions *)
Class BigIntBytes := {
  to_signed_bytes_be : Z → list Z;
  from_signed_bytes_be : list Z → Z;
  magnitude_to_bytes_be : Z → list Z;
  modpow : Z → Z → Z → Z;
}.

(** What the code relies on: [to_signed_bytes_be] is some two's-complement
    big-endian representation, [from_signed_bytes_be] reads one back and
    [magnitude().to_bytes_be()] is a big-endian representation of the
    absolute value; [modpow] is the power reduced with a floored modulus. *)
Class BigIntBytesOk `{BigIntBytes} : Prop := {
  to_signed_ok v : bytes_ok (to_signed_bytes_be v);
  to_signed_nonempty v : to_signed_bytes_be v ≠ [];
  to_signed_value v : from_be_signed (to_signed_bytes_be v) = v;
  from_signed_value bs : bs ≠ [] → from_signed_bytes_be bs = from_be_signed bs;
  magnitude_ok v : bytes_ok (magnitude_to_bytes_be v);
  magnitude_value v : from_be (magnitude_to_bytes_be v) = Z.abs v;
  modpow_value b e m : 0 ≤ e → m ≠ 0 → modpow b e m = (b ^ e) mod m;
}.

(** ** [core/src/formatting.rs] *)
Definition number_from_slice `{BigIntBytes} (v : list Z) : Z :=
  match v with [] => 0 | _ => from_signed_bytes_be v end.

Fixpoint trim_leading_zeros (bs : list Z) : list Z :=
  match bs with
  | [] => []
  | b :: rest => if b =? 0 then trim_leading_zeros rest else b :: rest
  end.

Definition u64_to_bytes (v : Z) : list Z :=
  if 2 ^ 63 <=? v then 0 :: to_be 8 v
  else trim_leading_zeros (to_be 8 v).

(** The loop condition of [bigint_to_bytes]: [b0] only repeats the sign of
    what follows. *)
Definition redundant_sign (b0 b1 : Z) : bool :=
  ((b0 =? 0x00) && (Z.land b1 0x80 =? 0)) ||
  ((b0 =? 0xFF) && negb (Z.land b1 0x80 =? 0)).

Fixpoint strip_sign (b : list Z) : list Z :=
  match b with
  | b0 :: ((b1 :: _) as tl) => if redundant_sign b0 b1 then strip_sign tl else b
  | _ => b
  end.

Definition bigint_to_bytes `{BigIntBytes} (v : Z) (signed : bool) : list Z :=
  if v =? 0 then []
  else if negb signed then magnitude_to_bytes_be v
  else strip_sign (to_signed_bytes_be v).

Definition u64_from_bigint (item : Z) : io Z :=
  if item <? 0 then Err InvalidData
  else ok_or (checked 64 item) InvalidData.

Definition saturating_u32_from_bigint (item : Z) : Z :=
  if item <? 0 then 0 else default u32_max (checked 32 item).
Definition saturating_u64_from_bigint (item : Z) : Z :=
  if item <? 0 then 0 else default u64_max (checked 64 item).

Definition u32_from_slice_impl (buf : list Z) (signed : bool) : option Z :=
  match buf with
  | [] => Some 0
  | b0 :: _ =>
      if 4 <? zlen buf then None
      else
        let sign_extend := negb (Z.land b0 0x80 =? 0) in
        let ret := if signed && sign_extend then 0xffffffff else 0 in
        Some (foldl (λ ret b, Z.lor (wrapu 32 (Z.shiftl ret 8)) b) ret buf)
  end.

Definition u32_from_slice (buf : list Z) : option Z := u32_from_slice_impl buf false.

(** [v as i32] *)
Definition as_i32 (v : Z) : Z := if 2 ^ 31 <=? v then v - 2 ^ 32 else v.
Definition i32_from_slice (buf : list Z) : option Z :=
  as_i32 <$> u32_from_slice_impl buf true.

(** ** Integers to atoms: the [From] impls of [sexp.rs] *)
(** [trim_twos_complement_be], also inlined in [impl_ints!] and
    [Arena::new_i128]. *)
Fixpoint trim_twos_complement_be (b : list Z) : list Z :=
  match b with
  | b0 :: ((b1 :: _) as tl) =>
      if b0 =? (if 0 <? Z.land b1 0x80 then 1 else 0) * 0xFF
      then trim_twos_complement_be tl else b
  | _ => b
  end.

(** [From<$name> for SExp] of [impl_ints!]: the atom bytes of a [t] integer. *)
Definition sexp_from_int (t : ity) (num : Z) : list Z :=
  if num =? 0 then [] else trim_twos_complement_be (to_be_bytes t num).

(** ** [SExpNumber] *)
Inductive SExpNumber :=
  | I128 (i : Z)
  | BigInt (b : Z).

Definition num_value (n : SExpNumber) : Z := match n with I128 i => i | BigInt b => b end.
Definition i128_okb (v : Z) : bool := sokb 128 v.

Inductive Sign := Minus | NoSign | Plus.
#[global] Instance sign_dec : EqDecision Sign.
Proof. solve_decision. Defined.

Definition bigint_sign (b : Z) : Sign :=
  if b =? 0 then NoSign else if 0 <? b then Plus else Minus.

Definition sign (n : SExpNumber) : Sign :=
  match n with
  | I128 i => if i =? 0 then NoSign else if 0 <? i then Plus else Minus
  | BigInt b => bigint_sign b
  end.

Definition to_u64 (n : SExpNumber) : option Z :=
  match n with I128 i => checked 64 i | BigInt b => checked 64 b end.

(** [i128::checked_*]: [None] when the result does not fit. *)
Definition i128_checked (v : Z) : option Z := if i128_okb v then Some v else None.

Definition num_binop (op : Z → Z → Z) (fast : Z → Z → option Z) (l r : SExpNumber) :
    SExpNumber :=
  match l, r with
  | I128 l, I128 r => match fast l r with Some v => I128 v | None => BigInt (op l r) end
  | BigInt l, BigInt r => BigInt (op l r)
  | BigInt l, I128 r => BigInt (op l r)
  | I128 l, BigInt r => BigInt (op l r)
  end.

Definition num_add : SExpNumber → SExpNumber → SExpNumber :=
  num_binop Z.add (λ l r, i128_checked (l + r)).
Definition num_sub : SExpNumber → SExpNumber → SExpNumber :=
  num_binop Z.sub (λ l r, i128_checked (l - r)).
Definition num_mul : SExpNumber → SExpNumber → SExpNumber :=
  num_binop Z.mul (λ l r, i128_checked (l * r)).

(** Division: [checked_div]/[checked_rem] are [None] on a zero divisor and on
    [i128::MIN / -1]; the [BigInt] operators then panic on zero. *)
Definition num_divop (op : Z → Z → Z) (l r : SExpNumber) : clvm SExpNumber :=
  let big l r := if r =? 0 then Panic else Ok (BigInt (op l r)) in
  match l, r with
  | I128 l, I128 r =>
      if (r =? 0) || negb (i128_okb (Z.quot l r)) then big l r else Ok (I128 (op l r))
  | BigInt l, BigInt r => big l r
  | BigInt l, I128 r => big l r
  | I128 l, BigInt r => big l r
  end.
Definition num_div : SExpNumber → SExpNumber → clvm SExpNumber := num_divop Z.quot.
Definition num_rem : SExpNumber → SExpNumber → clvm SExpNumber := num_divop Z.rem.

Definition div_rem (l r : SExpNumber) : clvm (SExpNumber * SExpNumber) :=
  d ← num_div l r; m ← num_rem l r; Ok (d, m).

Definition div_mod_floor (l rhs : SExpNumber) : clvm (SExpNumber * SExpNumber) :=
  '(d, r) ← div_rem l rhs;
  if (bool_decide (sign r = Plus) && bool_decide (sign rhs = Minus)) ||
     (bool_decide (sign r = Minus) && bool_decide (sign rhs = Plus))
  then Ok (num_sub d (I128 1), num_add r rhs)
  else Ok (d, r).

Definition num_is_zero (n : SExpNumber) : bool :=
  match n with I128 i => i =? 0 | BigInt b => b =? 0 end.
Definition num_eqb (l r : SExpNumber) : bool := num_value l =? num_value r.
Definition num_cmp (l r : SExpNumber) : comparison := num_value l ?= num_value r.

(** [SExpNumber::from(&AtomBuf)]: sign extension into 16 bytes. *)
Definition number_of_atom `{BigIntBytes} (buf : list Z) : SExpNumber :=
  match buf with
  | [] => I128 0
  | b0 :: _ =>
      if zlen buf <=? 16 then
        let fill := if negb (Z.land b0 0x80 =? 0) then 0xff else 0x00 in
        I128 (from_be_signed (replicate (16 - length buf) fill ++ buf))
      else BigInt (number_from_slice buf)
  end.

(** [From<SExpNumber> for SExp] *)
Definition number_to_atom `{BigIntBytes} (n : SExpNumber) : list Z :=
  match n with
  | I128 num => sexp_from_int i128 num
  | BigInt num => bigint_to_bytes num (bool_decide (bigint_sign num ≠ NoSign))
  end.

(** * Lemmas *)

(** ** Byte tables *)
Lemma byte_forall (P : Z → bool) b :
  forallb P (seqZ 0 256) = true → byte_ok b → P b = true.
Proof.
  intros HP Hb. rewrite forallb_forall in HP. apply HP.
  apply list_elem_of_In, elem_of_seqZ. unfold byte_ok in Hb. lia.
Qed.

Lemma byte_msb b : byte_ok b → (Z.land b 0x80 =? 0) = (b <? 128).
Proof.
  intros Hb. apply eqb_prop.
  by apply (byte_forall (λ b, eqb (Z.land b 0x80 =? 0) (b <? 128))).
Qed.

Lemma byte_msb_pos b : byte_ok b → (0 <? Z.land b 0x80) = (128 <=? b).
Proof.
  intros Hb. apply eqb_prop.
  by apply (byte_forall (λ b, eqb (0 <? Z.land b 0x80) (128 <=? b))).
Qed.

Lemma redundant_sign_spec b0 b1 :
  byte_ok b1 → redundant_sign b0 b1 = true ↔ b0 = 0 ∧ b1 < 128 ∨ b0 = 255 ∧ 128 ≤ b1.
Proof.
  intros Hb. unfold redundant_sign. rewrite byte_msb by done.
  rewrite orb_true_iff, !andb_true_iff, negb_true_iff, !Z.eqb_eq, Z.ltb_lt, Z.ltb_ge. done.
Qed.

Lemma strip_sign_cons2 b0 b1 tl :
  strip_sign (b0 :: b1 :: tl) =
    if redundant_sign b0 b1 then strip_sign (b1 :: tl) else b0 :: b1 :: tl.
Proof. done. Qed.

Lemma trim_cons2 b0 b1 tl :
  trim_twos_complement_be (b0 :: b1 :: tl) =
    if b0 =? (if 0 <? Z.land b1 0x80 then 1 else 0) * 0xFF
    then trim_twos_complement_be (b1 :: tl) else b0 :: b1 :: tl.
Proof. done. Qed.

(** The two trimming loops of the code are the same function on bytes. *)
Lemma trim_strip bs : bytes_ok bs → trim_twos_complement_be bs = strip_sign bs.
Proof.
  induction bs as [|b0 [|b1 tl] IH]; intros Hb; [done..|].
  apply bytes_ok_cons in Hb as [Hb0 Hb]. specialize (IH Hb).
  apply bytes_ok_cons in Hb as [Hb1 _].
  rewrite trim_cons2, strip_sign_cons2, IH.
  assert (redundant_sign b0 b1 = (b0 =? (if 0 <? Z.land b1 0x80 then 1 else 0) * 0xFF)) as ->.
  { unfold redundant_sign. rewrite byte_msb, byte_msb_pos by done.
    destruct (Z.ltb_spec b1 128), (Z.leb_spec 128 b1); try lia; simpl;
      rewrite ?andb_false_r, ?andb_true_r, ?orb_false_r; done. }
  done.
Qed.

(** ** Two's-complement values *)
Definition atom_value (bs : list Z) : Z := match bs with [] => 0 | _ => from_be_signed bs end.

Lemma from_be_signed_cons b l :
  bytes_ok (b :: l) →
  from_be_signed (b :: l) = (if b <? 128 then b else b - 256) * 256 ^ zlen l + from_be l.
Proof.
  intros [Hb Hl]%bytes_ok_cons. unfold from_be_signed, byte_ok in *.
  rewrite from_be_cons, zlen_cons. pose proof (from_be_bounds l Hl) as Hv.
  pose proof (zlen_nonneg l).
  replace (8 * (zlen l + 1)) with (8 * zlen l + 8) by lia.
  replace (8 * zlen l + 8 - 1) with (8 * zlen l + 7) by lia.
  rewrite !Z.pow_add_r by lia. change (2 ^ 7) with 128. change (2 ^ 8) with 256.
  replace (256 ^ zlen l) with (2 ^ (8 * zlen l)) in *
    by (change 256 with (2 ^ 8); by rewrite <-Z.pow_mul_r by lia).
  set (p := 2 ^ (8 * zlen l)) in *.
  destruct (Z.ltb_spec b 128), (Z.leb_spec (p * 128) (b * p + from_be l)); nia.
Qed.

Lemma signed_strip b0 b1 l :
  bytes_ok (b0 :: b1 :: l) → redundant_sign b0 b1 = true →
  from_be_signed (b0 :: b1 :: l) = from_be_signed (b1 :: l).
Proof.
  intros Hb Hr. pose proof Hb as Hb'. apply bytes_ok_cons in Hb' as [_ Hb'].
  rewrite !from_be_signed_cons, from_be_cons, zlen_cons by done.
  apply bytes_ok_cons in Hb' as [Hb1 _].
  apply redundant_sign_spec in Hr; [|done].
  pose proof (zlen_nonneg l). rewrite Z.pow_add_r, Z.pow_1_r by lia.
  destruct Hr as [[-> ?]|[-> ?]]; cbn;
    destruct (Z.ltb_spec b1 128); lia.
Qed.

Lemma strip_sign_value bs :
  bytes_ok bs → bs ≠ [] →
  from_be_signed (strip_sign bs) = from_be_signed bs ∧ strip_sign bs ≠ [] ∧
  bytes_ok (strip_sign bs).
Proof.
  induction bs as [|b0 [|b1 tl] IH]; intros Hb Hne; [done..|].
  rewrite strip_sign_cons2. destruct (redundant_sign b0 b1) eqn:Hr; [|done].
  rewrite signed_strip by done. apply IH; [|done]. by apply bytes_ok_cons in Hb as [_ ?].
Qed.

(** ** Canonical encodings *)
Definition canonb (bs : list Z) : bool :=
  match bs with
  | [] => true
  | [b] => negb (b =? 0)
  | b0 :: b1 :: _ => negb (redundant_sign b0 b1)
  end.

Lemma strip_sign_canon bs :
  bytes_ok bs → bs ≠ [] → from_be_signed bs ≠ 0 → canonb (strip_sign bs) = true.
Proof.
  induction bs as [|b0 [|b1 tl] IH]; intros Hb Hne Hv; [done| |].
  - cbn. apply negb_true_iff, Z.eqb_neq. intros ->. by apply Hv.
  - rewrite strip_sign_cons2. destruct (redundant_sign b0 b1) eqn:Hr; [|cbn; by rewrite Hr].
    rewrite signed_strip in Hv by done. apply IH; [|done..].
    by apply bytes_ok_cons in Hb as [_ ?].
Qed.

(** A canonical string of [n + 1] bytes denotes a value [n] bytes cannot. *)
Lemma canon_lower bs b l :
  bs = b :: l → bytes_ok bs → canonb bs = true →
  l ≠ [] → ¬ (- 2 ^ (8 * zlen l - 1) ≤ from_be_signed bs < 2 ^ (8 * zlen l - 1)).
Proof.
  intros -> Hb Hc Hl. destruct l as [|b1 l]; [done|]. cbn in Hc.
  apply negb_true_iff in Hc. rewrite from_be_signed_cons by done.
  apply bytes_ok_cons in Hb as [Hb0 Hb]. pose proof Hb as [Hb1 Hbl]%bytes_ok_cons.
  assert (Hn : ¬ (b = 0 ∧ b1 < 128 ∨ b = 255 ∧ 128 ≤ b1)).
  { rewrite <-redundant_sign_spec by done. by rewrite Hc. }
  rewrite from_be_cons, zlen_cons. pose proof (from_be_bounds l Hbl) as Hv.
  pose proof (zlen_nonneg l).
  replace (8 * (zlen l + 1) - 1) with (8 * zlen l + 7) by lia.
  rewrite !Z.pow_add_r by lia. change (2 ^ 7) with 128. rewrite Z.pow_1_r.
  replace (2 ^ (8 * zlen l)) with (256 ^ zlen l)
    by (change 256 with (2 ^ 8); by rewrite <-Z.pow_mul_r by lia).
  set (p := 256 ^ zlen l) in *. unfold byte_ok in *.
  destruct (Z.ltb_spec b 128); nia.
Qed.

Lemma canon_length bs bs' :
  bytes_ok bs → bytes_ok bs' → canonb bs' = true →
  atom_value bs = atom_value bs' → ¬ (length bs < length bs')%nat.
Proof.
  intros Hb Hb' Hc Hv Hlt. destruct bs' as [|b' l']; [simpl in Hlt; lia|].
  destruct l' as [|b1 l'].
  - destruct bs; [|simpl in Hlt; lia]. cbn [atom_value] in Hv.
    rewrite from_be_signed_cons in Hv by done. cbn in Hc.
    apply negb_true_iff, Z.eqb_neq in Hc. apply bytes_ok_cons in Hb' as [Hb' _].
    unfold byte_ok in Hb'. change (zlen []) with 0 in Hv. change (from_be []) with 0 in Hv.
    destruct (Z.ltb_spec b' 128); lia.
  - apply (canon_lower _ b' (b1 :: l') eq_refl Hb' Hc); [done|].
    cbn [atom_value] in Hv. rewrite <-Hv. set (m := zlen (b1 :: l')).
    assert (zlen bs ≤ m) by (unfold m, zlen; simpl in *; lia).
    assert (1 ≤ m) by (unfold m; rewrite zlen_cons; pose proof (zlen_nonneg l'); lia).
    destruct bs as [|b l]; cbn [atom_value].
    + pose proof (Z.pow_pos_nonneg 2 (8 * m - 1) ltac:(lia) ltac:(lia)). lia.
    + pose proof (from_be_signed_bounds (b :: l) Hb ltac:(done)) as Hr.
      pose proof (Z.pow_le_mono_r 2 (8 * zlen (b :: l) - 1) (8 * m - 1)). lia.
Qed.

(** An integer has at most one canonical encoding. *)
Lemma canon_unique bs bs' :
  bytes_ok bs → bytes_ok bs' → canonb bs = true → canonb bs' = true →
  atom_value bs = atom_value bs' → bs = bs'.
Proof.
  intros Hb Hb' Hc Hc' Hv.
  pose proof (canon_length bs bs' Hb Hb' Hc' Hv).
  pose proof (canon_length bs' bs Hb' Hb Hc (eq_sym Hv)).
  assert (Hl : length bs = length bs') by lia.
  destruct bs as [|b l], bs' as [|b' l']; try done. cbn [atom_value] in Hv.
  rewrite <-(to_be_from_be_signed (b :: l)), <-(to_be_from_be_signed (b' :: l')) by done.
  by rewrite Hv, Hl.
Qed.

(** ** A concrete [BigInt] representation, for evaluation *)
Definition bigint_ref : BigIntBytes := {|
  to_signed_bytes_be v := to_be (Z.to_nat (bit_length (Z.abs v) / 8 + 1)) v;
  from_signed_bytes_be bs := from_be_signed bs;
  magnitude_to_bytes_be v := to_be (Z.to_nat (bit_length (Z.abs v) / 8 + 1)) (Z.abs v);
  modpow b e m := (b ^ e) mod m;
|}.

Lemma bit_length_fits v n :
  n = Z.to_nat (bit_length (Z.abs v) / 8 + 1) →
  (0 < n)%nat ∧ Z.abs v < 2 ^ (8 * Z.of_nat n - 1).
Proof.
  intros ->. pose proof (bit_length_nonneg (Z.abs v)) as Hb.
  pose proof (Z.div_pos (bit_length (Z.abs v)) 8 Hb ltac:(lia)).
  split; [lia|]. rewrite Z2Nat.id by lia.
  pose proof (Z.mod_pos_bound (bit_length (Z.abs v)) 8 ltac:(lia)).
  pose proof (Z.div_mod (bit_length (Z.abs v)) 8 ltac:(lia)).
  assert (Hle : bit_length (Z.abs v) ≤ 8 * (bit_length (Z.abs v) / 8 + 1) - 1) by lia.
  pose proof (Z.pow_le_mono_r 2 _ _ ltac:(lia) Hle).
  destruct (Z.eq_dec v 0) as [->|Hv]; [by vm_compute|].
  pose proof (bit_length_bounds (Z.abs v)). lia.
Qed.

#[global] Instance bigint_ref_ok : @BigIntBytesOk bigint_ref.
Proof.
  split; intros v; cbn.
  - apply to_be_ok.
  - destruct (bit_length_fits v _ eq_refl) as [Hn _].
    intros H%(f_equal length). rewrite length_to_be in H. simpl in H. lia.
  - destruct (bit_length_fits v _ eq_refl) as [Hn Hv].
    apply from_be_signed_to_be; lia.
  - done.
  - apply to_be_ok.
  - destruct (bit_length_fits v _ eq_refl) as [Hn Hv].
    rewrite from_be_to_be, pow256, Z.mod_small; [done|].
    set (n := Z.to_nat _) in *.
    pose proof (Z.pow_le_mono_r 2 (8 * Z.of_nat n - 1) (8 * Z.of_nat n)). lia.
  - done.
Qed.

Section numbers.
Context `{BigIntBytesOk}.

Lemma number_from_slice_value bs : number_from_slice bs = atom_value bs.
Proof. destruct bs as [|b l]; [done|]. by apply from_signed_value. Qed.

Lemma strip_sign_spec bs v :
  bytes_ok bs → bs ≠ [] → from_be_signed bs = v → v ≠ 0 →
  bytes_ok (strip_sign bs) ∧ canonb (strip_sign bs) = true ∧
  atom_value (strip_sign bs) = v.
Proof.
  intros Hb Hne <- Hnz. destruct (strip_sign_value bs Hb Hne) as (Hv & Hn & Hok).
  split_and!; [done|by apply strip_sign_canon|].
  rewrite <-Hv. by destruct (strip_sign bs).
Qed.

Lemma bigint_to_bytes_spec v :
  bytes_ok (bigint_to_bytes v true) ∧ canonb (bigint_to_bytes v true) = true ∧
  atom_value (bigint_to_bytes v true) = v.
Proof.
  unfold bigint_to_bytes. destruct (Z.eqb_spec v 0) as [->|Hv].
  - split_and!; [constructor|done..].
  - cbn. apply strip_sign_spec; auto using to_signed_ok, to_signed_nonempty, to_signed_value.
Qed.

Lemma sexp_from_int_spec (t : ity) v :
  (0 < nbytes t)%nat →
  - 2 ^ (8 * Z.of_nat (nbytes t) - 1) ≤ v < 2 ^ (8 * Z.of_nat (nbytes t) - 1) →
  bytes_ok (sexp_from_int t v) ∧ canonb (sexp_from_int t v) = true ∧
  atom_value (sexp_from_int t v) = v.
Proof.
  intros Hn Hv. unfold sexp_from_int. destruct (Z.eqb_spec v 0) as [->|Hnz].
  - split_and!; [constructor|done..].
  - unfold to_be_bytes. rewrite trim_strip by apply to_be_ok.
    apply strip_sign_spec; [apply to_be_ok| |by apply from_be_signed_to_be|done].
    intros Hl%(f_equal length). rewrite length_to_be in Hl. simpl in Hl. lia.
Qed.

Definition i128_ok (v : Z) : Prop := - 2 ^ 127 ≤ v < 2 ^ 127.
Definition number_ok (n : SExpNumber) : Prop :=
  match n with I128 i => i128_ok i | BigInt _ => True end.

Lemma number_to_atom_spec n :
  number_ok n →
  bytes_ok (number_to_atom n) ∧ canonb (number_to_atom n) = true ∧
  atom_value (number_to_atom n) = num_value n.
Proof.
  destruct n as [i|b]; intros Hn; cbn [number_to_atom num_value].
  - apply sexp_from_int_spec; [simpl; lia|exact Hn].
  - case_bool_decide as Hs.
    + apply bigint_to_bytes_spec.
    + assert (b = 0) as ->.
      { unfold bigint_sign in Hs. destruct (Z.eqb_spec b 0); [done|].
        by destruct (0 <? b). }
      split_and!; [constructor|done..].
Qed.

(** Two numbers with the same value have the same atom. *)
Lemma number_to_atom_ext n m :
  number_ok n → number_ok m → num_value n = num_value m →
  number_to_atom n = number_to_atom m.
Proof.
  intros (Hb & Hc & Hv)%number_to_atom_spec (Hb' & Hc' & Hv')%number_to_atom_spec Heq.
  apply canon_unique; congruence.
Qed.

Lemma fill_value n b l :
  bytes_ok (b :: l) →
  from_be_signed (replicate n (if b <? 128 then 0x00 else 0xff) ++ b :: l) =
    from_be_signed (b :: l) ∧
  bytes_ok (replicate n (if b <? 128 then 0x00 else 0xff) ++ b :: l).
Proof.
  intros Hb. set (f := if b <? 128 then 0x00 else 0xff).
  pose proof Hb as [Hb0 _]%bytes_ok_cons.
  assert (Hf : byte_ok f) by (unfold f, byte_ok; destruct (_ <? _); lia).
  induction n as [|n [IHv IHb]]; [done|]. cbn [replicate app].
  assert (Hok : bytes_ok (f :: replicate n f ++ b :: l)) by (by apply bytes_ok_cons).
  split; [|done]. rewrite <-IHv. destruct n as [|n]; cbn [replicate app] in *.
  - apply signed_strip; [done|]. apply redundant_sign_spec; [done|].
    unfold f. destruct (Z.ltb_spec b 128); lia.
  - apply signed_strip; [done|]. apply redundant_sign_spec; [done|].
    unfold f. destruct (Z.ltb_spec b 128); lia.
Qed.

Lemma number_of_atom_spec bs :
  bytes_ok bs →
  number_ok (number_of_atom bs) ∧ num_value (number_of_atom bs) = atom_value bs.
Proof.
  intros Hb. destruct bs as [|b l]; [done|]. cbn [number_of_atom].
  pose proof Hb as [Hb0 _]%bytes_ok_cons. rewrite byte_msb by done.
  assert ((if negb (b <? 128) then 0xff else 0x00) = (if b <? 128 then 0x00 else 0xff)) as ->
    by (by destruct (b <? 128)).
  destruct (Z.leb_spec (zlen (b :: l)) 16) as [Hle|Hgt].
  - destruct (fill_value (16 - length (b :: l)) b l Hb) as [Hv Hok].
    split; [|exact Hv]. cbn [number_ok]. unfold i128_ok.
    pose proof (from_be_signed_bounds _ Hok) as Hr.
    assert (Hlen : zlen (replicate (16 - length (b :: l)) (if b <? 128 then 0x00 else 0xff)
              ++ b :: l) = 16).
    { rewrite zlen_app. unfold zlen in *. rewrite length_replicate. lia. }
    rewrite Hlen in Hr. apply Hr. by destruct (16 - length (b :: l))%nat.
  - split; [done|]. cbn [num_value]. apply number_from_slice_value.
Qed.
End numbers.

(** ** Arithmetic *)
Lemma i128_checked_Some v w : i128_checked v = Some w → w = v ∧ i128_ok v.
Proof.
  unfold i128_checked, i128_okb, sokb. destruct (_ && _) eqn:E; [|done].
  intros [= <-]. bool_to_prop. split; [done|]. unfold i128_ok. simpl in *. lia.
Qed.

Lemma num_binop_spec op l r :
  num_value (num_binop op (λ l r, i128_checked (op l r)) l r) =
    op (num_value l) (num_value r) ∧
  number_ok (num_binop op (λ l r, i128_checked (op l r)) l r).
Proof.
  destruct l as [l|l], r as [r|r]; cbn; try done.
  destruct (i128_checked (op l r)) as [v|] eqn:E; [|done].
  by apply i128_checked_Some in E as [-> ?].
Qed.

Lemma num_divop_spec op l r :
  (∀ x y, i128_ok x → i128_ok y → y ≠ 0 → i128_ok (Z.quot x y) → i128_ok (op x y)) →
  number_ok l → number_ok r → num_value r ≠ 0 →
  ∃ n, num_divop op l r = Ok n ∧ num_value n = op (num_value l) (num_value r) ∧ number_ok n.
Proof.
  intros Hop Hl Hr Hnz. unfold num_divop.
  assert (Hb : (num_value r =? 0) = false) by (by apply Z.eqb_neq).
  destruct l as [l|l], r as [r|r]; cbn in *; rewrite Hb;
    try (eexists; split_and!; done).
  cbn. destruct (i128_okb (Z.quot l r)) eqn:E; cbn; [|by eexists].
  eexists; split_and!; [done..|]. apply Hop; try done.
  unfold i128_okb, sokb in E. bool_to_prop. unfold i128_ok. simpl in *. lia.
Qed.

Lemma num_sign_value n : sign n = bigint_sign (num_value n).
Proof. by destruct n. Qed.

(** Floor division from truncated division. *)
Lemma floor_of_quot l r :
  r ≠ 0 →
  if bool_decide (bigint_sign (Z.rem l r) = Plus) && bool_decide (bigint_sign r = Minus)
     || bool_decide (bigint_sign (Z.rem l r) = Minus) && bool_decide (bigint_sign r = Plus)
  then l / r = Z.quot l r - 1 ∧ l mod r = Z.rem l r + r
  else l / r = Z.quot l r ∧ l mod r = Z.rem l r.
Proof.
  intros Hr. pose proof (Z.quot_rem l r Hr) as Hq.
  assert (Hsame : ∀ q m, l = r * q + m → (0 ≤ m < r ∨ r < m ≤ 0) → l / r = q ∧ l mod r = m).
  { intros q m Hm Hb. split; symmetry; [by eapply Z.div_unique|by eapply Z.mod_unique]. }
  pose proof (Z.rem_bound_abs l r Hr).
  unfold bigint_sign.
  destruct (Z.eqb_spec (Z.rem l r) 0), (Z.eqb_spec r 0), (Z.ltb_spec 0 (Z.rem l r)),
    (Z.ltb_spec 0 r); try lia; cbn; apply Hsame; lia.
Qed.

Lemma div_mod_floor_spec l r :
  number_ok l → number_ok r → num_value r ≠ 0 →
  ∃ q m, div_mod_floor l r = Ok (q, m) ∧ number_ok q ∧ number_ok m ∧
    num_value q = num_value l / num_value r ∧ num_value m = num_value l mod num_value r.
Proof.
  intros Hl Hr Hnz. unfold div_mod_floor, div_rem.
  destruct (num_divop_spec Z.quot l r) as (d & Hd & Hdv & Hdo); try done.
  destruct (num_divop_spec Z.rem l r) as (m & Hm & Hmv & Hmo); try done.
  { intros x y Hx Hy Hy0 _. pose proof (Z.rem_bound_abs x y Hy0). unfold i128_ok in *. lia. }
  unfold num_div, num_rem. rewrite Hd. cbn [mbind res_bind]. rewrite Hm. cbn [mbind res_bind].
  rewrite !num_sign_value, Hmv.
  pose proof (floor_of_quot (num_value l) (num_value r) Hnz) as Hf.
  destruct (_ || _); destruct Hf as [-> ->].
  - destruct (num_binop_spec Z.sub d (I128 1)) as [Hsv Hso].
    destruct (num_binop_spec Z.add m r) as [Hav Hao].
    eexists _, _. split; [done|]. split_and!; [exact Hso|exact Hao| |].
    + etrans; [exact Hsv|]. by rewrite Hdv.
    + etrans; [exact Hav|]. by rewrite Hmv.
  - eexists _, _. by split_and!.
Qed.

(** every arithmetic operation of [SExpNumber] computes the integer
    operation and stays in the range of its representation: the [i128] fast
    path and the [BigInt] path agree, also at the ends of the [i128] range,
    and [div_mod_floor] is floored division (never a panic on a non-zero
    divisor). *)
Theorem number_arith l r :
  number_ok l → number_ok r →
  (num_value (num_add l r) = num_value l + num_value r ∧ number_ok (num_add l r)) ∧
  (num_value (num_sub l r) = num_value l - num_value r ∧ number_ok (num_sub l r)) ∧
  (num_value (num_mul l r) = num_value l * num_value r ∧ number_ok (num_mul l r)) ∧
  (num_value r ≠ 0 →
    ∃ q m, div_mod_floor l r = Ok (q, m) ∧ number_ok q ∧ number_ok m ∧
      num_value q = num_value l / num_value r ∧
      num_value m = num_value l mod num_value r).
Proof.
  intros Hl Hr. split_and!; try apply num_binop_spec. by apply div_mod_floor_spec.
Qed.

Lemma number_arith_witness :
  ∃ q m, div_mod_floor (I128 (- 2 ^ 127)) (I128 (-1)) = Ok (q, m) ∧ number_ok q ∧
    number_ok m ∧ num_value q = 2 ^ 127 ∧ num_value m = 0.
Proof.
  apply (number_arith (I128 (- 2 ^ 127)) (I128 (-1))); [by vm_compute..|done].
Defined.

(** numbers and atoms round trip: a number is written as the one canonical
    (shortest) signed big-endian atom of its value, whichever of the [i128]
    and [BigInt] paths wrote it, and reads back with the same value; a
    canonical atom read as a number is written back unchanged. *)
Theorem number_roundtrip `{BigIntBytesOk} n bs :
  number_ok n → bytes_ok bs →
  (canonb (number_to_atom n) = true ∧
   num_value (number_of_atom (number_to_atom n)) = num_value n) ∧
  (canonb bs = true → number_to_atom (number_of_atom bs) = bs) ∧
  (∀ m, number_ok m → num_value m = num_value n → number_to_atom m = number_to_atom n).
Proof.
  intros Hn Hb. destruct (number_to_atom_spec n Hn) as (Hnb & Hnc & Hnv).
  destruct (number_of_atom_spec bs Hb) as [Hok Hv]. split_and!.
  - done.
  - by destruct (number_of_atom_spec _ Hnb) as [_ ->].
  - intros Hc. destruct (number_to_atom_spec _ Hok) as (Hb' & Hc' & Hv').
    apply canon_unique; congruence.
  - intros m Hm Heq. by apply number_to_atom_ext.
Qed.

Lemma number_roundtrip_witness :
  @number_to_atom bigint_ref (@number_of_atom bigint_ref [0xff; 0x00]) = [0xff; 0x00].
Proof.
  refine (proj1 (proj2 (@number_roundtrip bigint_ref bigint_ref_ok (I128 (-256))
            [0xff; 0x00] _ _)) _); [by vm_compute|by apply bytes_okb_spec|done].
Defined.

(** ** Unsigned integers and coin amounts *)

(** [SExp::from] of an unsigned integer type keeps the value exactly when
    the top bit of the type is clear: from [2^(w-1)] on the atom reads back as
    a different (negative) number, since the trimming loop treats the unsigned
    bytes as two's complement. *)
Theorem sexp_from_unsigned `{BigIntBytesOk} (t : ity) v :
  is_signed t = false → (0 < nbytes t)%nat → int_ok t v →
  num_value (number_of_atom (sexp_from_int t v)) = v ↔
  v < 2 ^ (8 * Z.of_nat (nbytes t) - 1).
Proof.
  intros Hs Hn Hv. unfold int_ok in Hv. rewrite Hs in Hv.
  set (w := 8 * Z.of_nat (nbytes t)) in *.
  assert (Hw : 2 ^ w = 2 * 2 ^ (w - 1)) by (rewrite <-Z.pow_succ_r by lia; f_equal; lia).
  destruct (Z.lt_ge_cases v (2 ^ (w - 1))) as [Hlt|Hge].
  - destruct (sexp_from_int_spec t v Hn) as (Hb & _ & Hval); [fold w; lia|].
    destruct (number_of_atom_spec _ Hb) as [_ ->]. tauto.
  - split; [|lia]. intros Heq. exfalso.
    assert (Hz : v ≠ 0) by (pose proof (Z.pow_pos_nonneg 2 (w - 1)); lia).
    assert (Hbs : bytes_ok (to_be (nbytes t) v)) by apply to_be_ok.
    assert (Hne : to_be (nbytes t) v ≠ []).
    { intros Hl%(f_equal length). rewrite length_to_be in Hl. simpl in Hl. lia. }
    assert (Hfs : from_be_signed (to_be (nbytes t) v) = v - 2 ^ w).
    { unfold from_be_signed. unfold zlen. rewrite length_to_be, from_be_to_be, pow256.
      fold w. rewrite Z.mod_small by lia. by destruct (Z.leb_spec (2 ^ (w - 1)) v); [|lia]. }
    unfold sexp_from_int, to_be_bytes in Heq. rewrite trim_strip in Heq by done.
    destruct (Z.eqb_spec v 0); [done|].
    destruct (strip_sign_value _ Hbs Hne) as (Hsv & Hsn & Hso).
    destruct (number_of_atom_spec _ Hso) as [_ Hnum]. rewrite Hnum in Heq.
    assert (atom_value (strip_sign (to_be (nbytes t) v)) = v - 2 ^ w) as Ha.
    { rewrite <-Hfs, <-Hsv. by destruct (strip_sign _). }
    lia.
Qed.

Lemma sexp_from_unsigned_witness :
  num_value (@number_of_atom bigint_ref (sexp_from_int u16 0xFFFF)) = 0xFFFF ↔
  0xFFFF < 2 ^ (8 * Z.of_nat 2 - 1).
Proof.
  apply (@sexp_from_unsigned bigint_ref bigint_ref_ok u16 0xFFFF);
    [done|simpl; lia|by vm_compute].
Defined.

Lemma trim_leading_zeros_spec bs :
  bytes_ok bs →
  bytes_ok (trim_leading_zeros bs) ∧ from_be (trim_leading_zeros bs) = from_be bs ∧
  (∀ b l, trim_leading_zeros bs = b :: l → b ≠ 0).
Proof.
  induction bs as [|b l IH]; intros Hb; cbn [trim_leading_zeros]; [done|].
  pose proof Hb as [Hb0 Hl]%bytes_ok_cons. destruct (Z.eqb_spec b 0) as [->|Hnz].
  - rewrite from_be_cons, Z.mul_0_l, Z.add_0_l. by apply IH.
  - split_and!; [done..|]. by intros ? ? [= <- <-].
Qed.

(** [u64_to_bytes] (the amount encoding of the [AGG_SIG_*_AMOUNT]
    messages) is the CLVM encoding of the amount exactly when the amount is at
    least [2^63] or its leading byte is below [0x80]; otherwise the protecting
    zero byte is missing and the bytes denote a negative integer. *)
Theorem u64_to_bytes_clvm `{BigIntBytesOk} v :
  0 ≤ v < 2 ^ 64 →
  u64_to_bytes v = number_to_atom (I128 v) ↔
  2 ^ 63 ≤ v ∨ hd 0 (trim_leading_zeros (to_be 8 v)) < 0x80.
Proof.
  intros Hv. assert (Hok : number_ok (I128 v)) by (cbn; unfold i128_ok; lia).
  destruct (number_to_atom_spec _ Hok) as (Hnb & Hnc & Hnv). cbn [num_value] in Hnv.
  assert (Hval : from_be (to_be 8 v) = v).
  { rewrite from_be_to_be. apply Z.mod_small. by change (256 ^ Z.of_nat 8) with (2 ^ 64). }
  assert (Hcanon : bytes_ok (u64_to_bytes v) → canonb (u64_to_bytes v) = true →
     atom_value (u64_to_bytes v) = v → u64_to_bytes v = number_to_atom (I128 v)).
  { intros. apply canon_unique; congruence. }
  unfold u64_to_bytes in *. destruct (Z.leb_spec (2 ^ 63) v) as [Hge|Hlt].
  - split; [by left|]. intros _. apply Hcanon.
    + apply bytes_ok_cons. split; [by unfold byte_ok; lia|apply to_be_ok].
    + assert (Hd : ∃ b l, to_be 8 v = b :: l) by (cbn; eauto). destruct Hd as (b & l & Hd).
      pose proof (to_be_ok 8 v) as Hbs. rewrite Hd in Hbs, Hval |- *. cbn.
      apply bytes_ok_cons in Hbs as [Hb Hl].
      apply negb_true_iff, not_true_iff_false. rewrite redundant_sign_spec by done.
      assert (zlen l = 7).
      { apply (f_equal (@zlen Z)) in Hd. rewrite zlen_cons in Hd. unfold zlen at 1 in Hd.
        rewrite length_to_be in Hd. lia. }
      rewrite from_be_cons in Hval. pose proof (from_be_bounds l Hl) as Hbd.
      rewrite H1 in *. change (256 ^ 7) with (2 ^ 56) in *. lia.
    + cbn [atom_value]. rewrite from_be_signed_cons.
      * cbn [Z.ltb Z.compare]. rewrite Hval. lia.
      * apply bytes_ok_cons. split; [by unfold byte_ok; lia|apply to_be_ok].
  - destruct (trim_leading_zeros_spec (to_be 8 v) (to_be_ok 8 v)) as (Hb & Hf & Hnz).
    rewrite Hval in Hf. destruct (trim_leading_zeros (to_be 8 v)) as [|b l]; cbn [hd].
    + split; [intros _; right; lia|]. intros _. apply Hcanon; [done..|]. cbn. by rewrite <-Hf.
    + specialize (Hnz b l eq_refl). pose proof Hb as [Hb0 Hbl]%bytes_ok_cons.
      assert (Hav : atom_value (b :: l) = if b <? 128 then v else v - 256 ^ (zlen l + 1)).
      { cbn [atom_value]. rewrite from_be_signed_cons by done. rewrite from_be_cons in Hf.
        pose proof (zlen_nonneg l). rewrite Z.pow_add_r, Z.pow_1_r by lia.
        destruct (b <? 128); lia. }
      destruct (Z.ltb_spec b 128) as [Hlo|Hhi].
      * split; [by right|]. intros _. apply Hcanon; [done| |done]. destruct l as [|b1 l]; cbn.
        -- by apply negb_true_iff, Z.eqb_neq.
        -- apply bytes_ok_cons in Hbl as [Hb1 _].
           apply negb_true_iff, not_true_iff_false. rewrite redundant_sign_spec by done. lia.
      * split; [|lia]. intros Heq. exfalso. rewrite <-Heq in Hnv.
        pose proof (zlen_nonneg l). pose proof (Z.pow_pos_nonneg 256 (zlen l + 1)). lia.
Qed.

Lemma u64_to_bytes_clvm_witness :
  u64_to_bytes 200 = @number_to_atom bigint_ref (I128 200) ↔
  2 ^ 63 ≤ 200 ∨ hd 0 (trim_leading_zeros (to_be 8 200)) < 0x80.
Proof. apply (@u64_to_bytes_clvm bigint_ref bigint_ref_ok 200). lia. Defined.
