(* ===== verification/ClvmSexp.v ===== *)
(** * S-expressions: [core/src/clvm/sexp.rs], [program.rs], [curry_utils.rs],
      [curry_and_treehash.rs], [tree_hash_cache.rs]

    [SExp] is the tree: an atom (a byte string) or a pair; ownership and
    borrowing ([AtomBuf], [PairBuf]) do not change the value and are left out.
    Each function of the [impl SExp] block that computes with the value is a
    definition here.  SHA-256 ([hash_256]) is the field of the class [Sha256].

    The theorems: the tree hash binds the tree up to an explicit SHA-256
    collision, hashing a curried program from the hashes of its parts agrees
    with hashing the program, [uncurry] inverts [curry], and the memoising
    hasher of [TreeHashCache] computes the plain tree hash whatever it has
    already cached. *)
From Stdlib Require Import ZArith Lia String Ascii.
From stdpp Require Import base list numbers option gmap strings.
From S2P Require Import Prelude Serialize ClvmNumber.

Open Scope Z_scope.

Inductive SExp :=
  | Atom (a : list Z)
  | Pair (first rest : SExp).

#[global] Instance sexp_dec : EqDecision SExp.
Proof. solve_decision. Defined.

(** The atoms of a tree are byte strings. *)
Fixpoint sexp_ok (s : SExp) : Prop :=
  match s with Atom a => bytes_ok a | Pair f r => sexp_ok f ∧ sexp_ok r end.

Definition NULL_SEXP : SExp := Atom [].
Definition ONE_SEXP : SExp := Atom [1].

(** ** The accessors of [impl SExp] *)
Definition sexp_atom (s : SExp) : clvm (list Z) :=
  match s with Atom a => Ok a | Pair _ _ => Err ExpectedAtomGotPair end.
Definition sexp_first (s : SExp) : clvm SExp :=
  match s with Atom _ => Err ExpectedPairGotAtom | Pair f _ => Ok f end.
Definition sexp_rest (s : SExp) : clvm SExp :=
  match s with Atom _ => Err ExpectedPairGotAtom | Pair _ r => Ok r end.
Definition sexp_split (s : SExp) : clvm (SExp * SExp) :=
  match s with Atom _ => Err ExpectedPairGotAtom | Pair f r => Ok (f, r) end.
Definition sexp_as_int `{BigIntBytes} (s : SExp) : clvm SExpNumber :=
  match s with Atom a => Ok (number_of_atom a) | Pair _ _ => Err ExpectedAtomGotPair end.
Definition sexp_cons (s other : SExp) : SExp := Pair s other.

Definition sexp_nullp (s : SExp) : bool :=
  match s with Atom a => bool_decide (a = []) | Pair _ _ => false end.
Definition sexp_non_nil (s : SExp) : bool :=
  match s with Pair _ _ => true | Atom b => negb (bool_decide (b = [])) end.

Fixpoint sexp_as_atom_list (s : SExp) : list (list Z) :=
  match s with
  | Atom _ => []
  | Pair (Atom buf) rest => buf :: sexp_as_atom_list rest
  | Pair (Pair _ _) _ => []
  end.

(** [while count > 0 { ptr = rest }] *)
Fixpoint sexp_arg_count_is (s : SExp) (count : nat) : bool :=
  match count with
  | O => sexp_nullp s
  | S count => match s with Pair _ rest => sexp_arg_count_is rest count | Atom _ => false end
  end.

Fixpoint sexp_arg_count_loop (s : SExp) (count early : Z) : Z :=
  match s with
  | Pair _ rest =>
      let count := count + 1 in
      if early <? count then count else sexp_arg_count_loop rest count early
  | Atom _ => count
  end.
Definition sexp_arg_count (s : SExp) (return_early_if_exceeds : Z) : Z :=
  sexp_arg_count_loop s 0 return_early_if_exceeds.

(** What [SExpIter] yields: each pair's [first], then a non-nil terminator
    once. *)
Fixpoint sexp_iter (s : SExp) : list SExp :=
  match s with
  | Atom a => if bool_decide (a = []) then [] else [Atom a]
  | Pair f r => f :: sexp_iter r
  end.

Fixpoint ref_list (s : SExp) : list SExp :=
  match s with
  | Atom a => if sexp_non_nil (Atom a) then [Atom a] else []
  | Pair f r => f :: ref_list r
  end.

Fixpoint owned_list_loop (s : SExp) (store : bool) (args : list SExp) : list SExp :=
  match s with
  | Atom a => if sexp_non_nil (Atom a) then [] else args
  | Pair f r => owned_list_loop r store (if store then args ++ [f] else args)
  end.
Definition owned_list (s : SExp) (store : bool) : list SExp := owned_list_loop s store [].

Definition sexp_substr (s : SExp) (start end_ : Z) : clvm SExp :=
  atom ← sexp_atom s;
  if zlen atom <? start then Err InvalidInputE
  else if zlen atom <? end_ then Err InvalidInputE
  else if end_ <? start then Err InvalidInputE
  else Ok (Atom (take (Z.to_nat (end_ - start)) (drop (Z.to_nat start) atom))).

Fixpoint sexp_concat_loop (nodes : list SExp) (buf : list Z) : clvm (list Z) :=
  match nodes with
  | [] => Ok buf
  | node :: nodes => atom ← sexp_atom node; sexp_concat_loop nodes (buf ++ atom)
  end.
Definition sexp_concat (nodes : list SExp) : clvm SExp :=
  buf ← sexp_concat_loop nodes []; Ok (Atom buf).

(** [From<&[SExp]> for SExp]: the last element is consed first. *)
Definition sexp_from_list (values : list SExp) : SExp :=
  match values with
  | [] => NULL_SEXP
  | sexp :: others =>
      sexp_cons sexp (fold_right sexp_cons NULL_SEXP others)
  end.

(** ** Tree hashes *)
Class Sha256 := hash_256 : list Z → list Z.
Class Sha256Ok `{Sha256} : Prop := {
  hash_256_length bs : length (hash_256 bs) = 32%nat;
  hash_256_bytes bs : bytes_ok (hash_256 bs);
}.

Fixpoint tree_hash `{Sha256} (s : SExp) : list Z :=
  match s with
  | Pair first rest => hash_256 (2 :: tree_hash first ++ tree_hash rest)
  | Atom atom => hash_256 (1 :: atom)
  end.

(** ** [curry_and_treehash.rs] *)
Definition Q_KW : list Z := [1].
Definition A_KW : list Z := [2].
Definition C_KW : list Z := [4].

Definition shatree_atom `{Sha256} (atom : list Z) : list Z := hash_256 ([1] ++ atom).
Definition shatree_pair `{Sha256} (left_hash right_hash : list Z) : list Z :=
  hash_256 ([2] ++ left_hash ++ right_hash).

Fixpoint curried_values_tree_hash `{Sha256} (arguments : list (list Z)) : list Z :=
  match arguments with
  | [] => shatree_atom [1]
  | arg :: rest =>
      shatree_pair (shatree_atom C_KW)
        (shatree_pair (shatree_pair (shatree_atom Q_KW) arg)
           (shatree_pair (curried_values_tree_hash rest) (shatree_atom [])))
  end.

Definition curry_and_treehash `{Sha256} (hash_of_quoted_mod_hash : list Z)
    (hashed_arguments : list (list Z)) : list Z :=
  let curried_values := curried_values_tree_hash hashed_arguments in
  shatree_pair (shatree_atom A_KW)
    (shatree_pair hash_of_quoted_mod_hash (shatree_pair curried_values (shatree_atom []))).

Definition calculate_hash_of_quoted_mod_hash `{Sha256} (mod_hash : list Z) : list Z :=
  shatree_pair (shatree_atom Q_KW) mod_hash.

(** ** [curry_utils.rs] and the currying part of [program.rs] *)
Definition sexp_int (v : Z) : SExp := Atom (sexp_from_int i32 v).

Definition curry (program : SExp) (args : list SExp) : SExp :=
  let fixed_args :=
    foldl (λ fixed_args arg,
      sexp_from_list [sexp_int 4; sexp_cons (sexp_int 1) arg; fixed_args])
      (sexp_int 1) (rev args) in
  sexp_from_list [sexp_int 2; Pair (sexp_int 1) program; fixed_args].

Definition is_atom (o : SExp) (expected : list Z) : bool :=
  match o with Atom a => bool_decide (a = expected) | Pair _ _ => false end.

Definition three (node : SExp) : option (SExp * SExp * SExp) :=
  match node with
  | Pair a (Pair b (Pair c (Atom _))) => Some (a, b, c)
  | _ => None
  end.

(** The [while let SExp::Pair(_) = args_list] loop; each round descends to the
    third element of the list. *)
Fixpoint uncurry_args (args_list : SExp) (args : list SExp) : option (list SExp) :=
  match args_list with
  | Pair kw (Pair quoted_arg (Pair rest (Atom _))) =>
      if is_atom kw [4] then
        match quoted_arg with
        | Pair q arg => if is_atom q [1] then uncurry_args rest (args ++ [arg]) else None
        | Atom _ => None
        end
      else None
  | Pair _ _ => None
  | Atom a => if is_atom (Atom a) [1] then Some args else None
  end.

Definition uncurry_matched (s : SExp) : option (SExp * SExp) :=
  match three s with
  | None => None
  | Some (ev, quoted_inner, args_list) =>
      if is_atom ev [2] then
        match quoted_inner with
        | Atom _ => None
        | Pair q module =>
            if is_atom q [1] then
              match uncurry_args args_list [] with
              | Some args => Some (module, sexp_from_list args)
              | None => None
              end
            else None
        end
      else None
  end.
Definition uncurry (s : SExp) : clvm (SExp * SExp) :=
  Ok (default (s, sexp_int 0) (uncurry_matched s)).

(** [Program::at]: a path of [f]/[r] letters. *)
Fixpoint at_path (path : list ascii) (rtn : SExp) : clvm SExp :=
  match path with
  | [] => Ok rtn
  | c :: path =>
      if (bool_decide (c = "f"%char) || bool_decide (c = "F"%char)) then
        rtn ← sexp_first rtn; at_path path rtn
      else if (bool_decide (c = "r"%char) || bool_decide (c = "R"%char)) then
        rtn ← sexp_rest rtn; at_path path rtn
      else Err InvalidInputE
  end.

(** ** [tree_hash_cache.rs]

    A live node is its address and its contents: two nodes with the same
    address are the same node.  [visit_tree] and [tree_hash] are loops over
    explicit stacks; they run on fuel, [None] when it is exhausted. *)
Inductive node :=
  | NAtom (a : list Z)
  | NPair (addr : Z) (first rest : node).

Fixpoint erase (n : node) : SExp :=
  match n with NAtom a => Atom a | NPair _ f r => Pair (erase f) (erase r) end.

Fixpoint node_size (n : node) : nat :=
  match n with NAtom _ => 1 | NPair _ f r => S (node_size f + node_size r) end.

Definition atom_hash `{Sha256} (atom : list Z) : list Z := hash_256 ([1] ++ atom).
Definition pair_hash `{Sha256} (first rest : list Z) : list Z :=
  hash_256 ([2] ++ first ++ rest).

Inductive TreeOp :=
  | OpNode (n : node)
  | OpCons
  | OpConsCache (key : Z).

Record TreeHashCache := {
  counts : gmap Z Z;
  hashes : gmap Z (list Z);
}.

Fixpoint visit_loop (fuel : nat) (counts : gmap Z Z) (stack : list node) :
    option (gmap Z Z) :=
  match fuel with
  | O => None
  | S fuel =>
      match stack with
      | [] => Some counts
      | NAtom _ :: stack => visit_loop fuel counts stack
      | NPair a f r :: stack =>
          if 1 <=? default 0 (counts !! a)
          then visit_loop fuel (<[a := 2]> counts) stack
          else visit_loop fuel (<[a := 1]> counts) (r :: f :: stack)
      end
  end.
Definition visit_tree (fuel : nat) (c : TreeHashCache) (n : node) : option TreeHashCache :=
  counts' ← visit_loop fuel (counts c) [n];
  Some {| counts := counts'; hashes := hashes c |}.

(** One round of the loop of [tree_hash]: the cached hashes, the operation
    stack and the hash stack. *)
Definition th_step `{Sha256} (c : TreeHashCache) (op : TreeOp) (ops : list TreeOp)
    (hs : list (list Z)) : clvm (TreeHashCache * list TreeOp * list (list Z)) :=
  match op with
  | OpNode (NAtom a) => Ok (c, ops, atom_hash a :: hs)
  | OpNode (NPair key f r) =>
      match hashes c !! key with
      | Some h => Ok (c, ops, h :: hs)
      | None =>
          let mark := if 2 <=? default 0 (counts c !! key) then OpConsCache key else OpCons in
          Ok (c, OpNode r :: OpNode f :: mark :: ops, hs)
      end
  | OpCons =>
      match hs with
      | first :: rest :: hs => Ok (c, ops, pair_hash first rest :: hs)
      | _ => Panic
      end
  | OpConsCache key =>
      match hs with
      | first :: rest :: hs =>
          let h := pair_hash first rest in
          Ok ({| counts := counts c; hashes := <[key := h]> (hashes c) |}, ops, h :: hs)
      | _ => Panic
      end
  end.

Fixpoint th_loop `{Sha256} (fuel : nat) (c : TreeHashCache) (ops : list TreeOp)
    (hs : list (list Z)) : option (clvm (TreeHashCache * list (list Z))) :=
  match fuel with
  | O => None
  | S fuel =>
      match ops with
      | [] => Some (Ok (c, hs))
      | op :: ops =>
          match th_step c op ops hs with
          | Ok (c, ops, hs) => th_loop fuel c ops hs
          | Err e => Some (Err e)
          | Panic => Some Panic
          end
      end
  end.

Definition cache_tree_hash `{Sha256} (fuel : nat) (c : TreeHashCache) (n : node) :
    option (clvm (TreeHashCache * list Z)) :=
  match th_loop fuel c [OpNode n] [] with
  | Some (Ok (c, h :: _)) => Some (Ok (c, h))
  | Some (Ok (_, [])) => Some Panic
  | Some (Err e) => Some (Err e)
  | Some Panic => Some Panic
  | None => None
  end.

(** * Theorems *)

(** A concrete hash function, for evaluation only. *)
Definition toy_hash : Sha256 := λ bs, to_be 32 (foldl (λ acc b, acc * 257 + b + 1) 1 bs).
#[global] Instance toy_hash_ok : @Sha256Ok toy_hash.
Proof. split; intros bs; [apply length_to_be|apply to_be_ok]. Qed.

(** ** The tree hash binds the tree *)
Section hashes.
Context `{Sha256Ok}.

(** The strings hashed while computing [tree_hash]. *)
Fixpoint preimages (s : SExp) : list (list Z) :=
  match s with
  | Atom a => [1 :: a]
  | Pair f r => (2 :: tree_hash f ++ tree_hash r) :: preimages f ++ preimages r
  end.

Definition collision (s t : SExp) : Prop :=
  ∃ x y, x ∈ preimages s ∧ y ∈ preimages t ∧ x ≠ y ∧ hash_256 x = hash_256 y.

Definition top_preimage (s : SExp) : list Z :=
  match s with Atom a => 1 :: a | Pair f r => 2 :: tree_hash f ++ tree_hash r end.

Lemma tree_hash_top s : tree_hash s = hash_256 (top_preimage s).
Proof. by destruct s. Qed.

Lemma top_preimage_in s : top_preimage s ∈ preimages s.
Proof. destruct s; cbn; apply list_elem_of_here. Qed.

Lemma tree_hash_length s : length (tree_hash s) = 32%nat.
Proof. rewrite tree_hash_top. apply hash_256_length. Qed.

Lemma collision_pair f r f' r' :
  collision f f' ∨ collision r r' → collision (Pair f r) (Pair f' r').
Proof.
  intros [(x & y & Hx & Hy & Hc)|(x & y & Hx & Hy & Hc)]; exists x, y; cbn;
    split_and!; try tauto; apply elem_of_cons; right; apply elem_of_app; tauto.
Qed.

Lemma tree_hash_binds s t : tree_hash s = tree_hash t → s = t ∨ collision s t.
Proof.
  revert t. induction s as [a|f IHf r IHr]; intros t Heq.
  all: destruct (decide (top_preimage (Atom a) = top_preimage t)) as [Hp|Hp] ||
       destruct (decide (top_preimage (Pair f r) = top_preimage t)) as [Hp|Hp].
  all: try (right; rewrite !tree_hash_top in Heq;
            eexists _, _; split_and!; eauto using top_preimage_in; done).
  - destruct t as [a'|f' r']; [|done]. left. by injection Hp as ->.
  - destruct t as [a'|f' r']; [done|]. injection Hp as Hp.
    apply app_inj_1 in Hp as [Hf Hr]; [|by rewrite !tree_hash_length].
    destruct (IHf f' Hf) as [->|?], (IHr r' Hr) as [->|?];
      auto using collision_pair.
Qed.

(** equal tree hashes come from equal trees, unless the hashing of the two
    trees itself exhibits a SHA-256 collision. *)
Theorem tree_hash_binding s t :
  tree_hash s = tree_hash t → s = t ∨ collision s t.
Proof. apply tree_hash_binds. Qed.

(** the tree hash of a curried program can be computed from the hashes of
    the module and of the arguments alone. *)
Theorem curry_treehash (program : SExp) (args : list SExp) :
  curry_and_treehash (calculate_hash_of_quoted_mod_hash (tree_hash program))
    (tree_hash <$> args) = tree_hash (curry program args).
Proof.
  unfold curry, curry_and_treehash. cbn zeta.
  assert (Hargs : curried_values_tree_hash (tree_hash <$> args) =
    tree_hash (foldl (λ fixed_args arg,
      sexp_from_list [sexp_int 4; sexp_cons (sexp_int 1) arg; fixed_args])
      (sexp_int 1) (rev args))).
  { induction args as [|arg args IH]; [done|].
    cbn [rev fmap list_fmap curried_values_tree_hash]. rewrite foldl_app. cbn [foldl].
    by rewrite IH. }
  rewrite Hargs. done.
Qed.
End hashes.

Lemma tree_hash_binding_witness :
  Pair (Atom [1]) (Atom [2]) = Pair (Atom [1]) (Atom [2]) ∨
  @collision toy_hash (Pair (Atom [1]) (Atom [2])) (Pair (Atom [1]) (Atom [2])).
Proof. apply (@tree_hash_binding toy_hash toy_hash_ok). reflexivity. Defined.

(** ** Currying *)
Lemma sexp_from_list_fold l : sexp_from_list l = fold_right sexp_cons NULL_SEXP l.
Proof. by destruct l. Qed.

Lemma uncurry_args_curry (args acc : list SExp) :
  uncurry_args (foldl (λ fixed_args arg,
      sexp_from_list [sexp_int 4; sexp_cons (sexp_int 1) arg; fixed_args])
      (sexp_int 1) (rev args)) acc = Some (acc ++ args).
Proof.
  revert acc. induction args as [|arg args IH]; intros acc.
  - cbn. by rewrite app_nil_r.
  - cbn [rev]. rewrite foldl_app. cbn [foldl sexp_from_list fold_right sexp_cons].
    cbn -[foldl rev]. rewrite IH. by rewrite <-app_assoc.
Qed.

(** [uncurry] returns the module and the argument list that [curry] was
    given. *)
Theorem uncurry_curry (program : SExp) (args : list SExp) :
  uncurry (curry program args) = Ok (program, sexp_from_list args).
Proof.
  unfold uncurry, curry. cbn zeta. unfold uncurry_matched.
  cbn [sexp_from_list fold_right sexp_cons three NULL_SEXP].
  change (is_atom (sexp_int 2) [2]) with true. cbn iota.
  change (is_atom (sexp_int 1) [1]) with true. cbn iota.
  by rewrite uncurry_args_curry.
Qed.

(** ** The memoising tree hash *)
Section cache.
Context `{Sha256}.

(** [env a] is the tree at address [a]; a node is coherent with it when every
    pair of it is what its address says. *)
Variable env : gmap Z SExp.

Fixpoint coherent (n : node) : Prop :=
  match n with
  | NAtom _ => True
  | NPair a f r => env !! a = Some (erase (NPair a f r)) ∧ coherent f ∧ coherent r
  end.

Definition cache_ok (c : TreeHashCache) : Prop :=
  ∀ a h, hashes c !! a = Some h → ∃ s, env !! a = Some s ∧ tree_hash s = h.

(** Hashing one node costs at most three rounds per tree node and leaves its
    hash on top of the stack. *)
Lemma th_loop_node n c ops hs :
  coherent n → cache_ok c →
  ∃ k c', (k ≤ 3 * node_size n)%nat ∧ cache_ok c' ∧
    ∀ fuel, th_loop (k + fuel) c (OpNode n :: ops) hs =
            th_loop fuel c' ops (tree_hash (erase n) :: hs).
Proof.
  revert c ops hs. induction n as [a|key f IHf r IHr]; intros c ops hs Hn Hc.
  - exists 1%nat, c. split_and!; [cbn; lia|done|]. done.
  - destruct Hn as (Henv & Hf & Hr). destruct (hashes c !! key) as [h|] eqn:Hk.
    { destruct (Hc key h Hk) as (s & Hs & Hh).
      exists 1%nat, c. split_and!; [cbn; lia|done|]. intros fuel. cbn. rewrite Hk.
      rewrite Henv in Hs. injection Hs as <-. by rewrite <-Hh. }
    set (mark := if 2 <=? default 0 (counts c !! key) then OpConsCache key else OpCons).
    destruct (IHr c (OpNode f :: mark :: ops) hs Hr Hc) as (k1 & c1 & Hk1 & Hc1 & Hl1).
    destruct (IHf c1 (mark :: ops) (tree_hash (erase r) :: hs) Hf Hc1)
      as (k2 & c2 & Hk2 & Hc2 & Hl2).
    assert (Hmark : ∃ c3, cache_ok c3 ∧ ∀ fuel,
      th_loop (S fuel) c2 (mark :: ops) (tree_hash (erase f) :: tree_hash (erase r) :: hs) =
      th_loop fuel c3 ops (tree_hash (erase (NPair key f r)) :: hs)).
    { unfold mark. destruct (2 <=? _).
      - eexists. split; [|intros fuel; cbn; reflexivity].
        intros a h. cbn. destruct (decide (a = key)) as [->|Hne].
        + rewrite lookup_insert_eq. intros [= <-]. by exists (erase (NPair key f r)).
        + rewrite lookup_insert_ne by done. apply Hc2.
      - exists c2. by split. }
    destruct Hmark as (c3 & Hc3 & Hl3).
    exists (S (k1 + (k2 + 1))), c3. split_and!; [cbn; lia|done|]. intros fuel.
    change (S (k1 + (k2 + 1)) + fuel)%nat with (S ((k1 + (k2 + 1)) + fuel)).
    cbn [th_loop th_step]. rewrite Hk. fold mark.
    replace (k1 + (k2 + 1) + fuel)%nat with (k1 + (k2 + S fuel))%nat by lia.
    by rewrite Hl1, Hl2, Hl3.
Qed.

Lemma cache_tree_hash_spec n c fuel :
  coherent n → cache_ok c → (3 * node_size n < fuel)%nat →
  ∃ c', cache_tree_hash fuel c n = Some (Ok (c', tree_hash (erase n))) ∧ cache_ok c'.
Proof.
  intros Hn Hc Hfuel.
  destruct (th_loop_node n c [] [] Hn Hc) as (k & c' & Hk & Hc' & Hl).
  exists c'. split; [|done]. unfold cache_tree_hash.
  replace fuel with (k + S (fuel - k - 1))%nat by lia. by rewrite Hl.
Qed.

(** whatever it has already cached, the memoising hasher terminates
    within its fuel, returns the plain tree hash of the node, and leaves a
    correct cache. *)
Theorem cache_tree_hash_correct n c fuel :
  coherent n → cache_ok c → (3 * node_size n < fuel)%nat →
  ∃ c', cache_tree_hash fuel c n = Some (Ok (c', tree_hash (erase n))) ∧ cache_ok c'.
Proof. apply cache_tree_hash_spec. Qed.
End cache.

(** A tree with a shared pair, visited and then hashed. *)
Definition shared_pair : node := NPair 7 (NAtom [1]) (NAtom [2]).
Definition sharing_node : node := NPair 8 shared_pair shared_pair.
Definition sharing_env : gmap Z SExp :=
  <[8 := erase sharing_node]> {[7 := erase shared_pair]}.
Definition visited_cache : TreeHashCache :=
  default {| counts := ∅; hashes := ∅ |}
    (visit_tree 20 {| counts := ∅; hashes := ∅ |} sharing_node).

Lemma cache_tree_hash_correct_witness :
  ∃ c', @cache_tree_hash toy_hash 30 visited_cache sharing_node =
    Some (Ok (c', @tree_hash toy_hash (erase sharing_node))) ∧
  @cache_ok toy_hash sharing_env c'.
Proof.
  apply (@cache_tree_hash_correct toy_hash sharing_env sharing_node visited_cache 30).
  - cbn. by split_and!.
  - intros a h. change (hashes visited_cache) with (∅ : gmap Z (list Z)).
    by rewrite lookup_empty.
  - cbn. lia.
Defined.
