(* ===== verification/Coin.v ===== *)
(** * Coins: [core/src/blockchain/coin.rs]

    The coin record and its id: SHA-256 of the parent id, the puzzle hash and
    the amount.  [coin_id] cuts the amount's bytes by its leading zeros; the
    theorem is that this is exactly the CLVM encoding of the amount, so that
    the id equals the one a puzzle computes with [sha256] over atoms. *)
From Stdlib Require Import ZArith Lia.
From stdpp Require Import base list numbers option.
From S2P Require Import Prelude Serialize ClvmNumber ClvmSexp.

Open Scope Z_scope.

Record Coin := {
  parent_coin_info : list Z;
  puzzle_hash : list Z;
  amount : Z;
}.

(** [u64::leading_zeros] *)
Definition leading_zeros64 (v : Z) : Z := 64 - bit_length v.

(** The part of the amount's eight bytes that is hashed. *)
Definition amount_bytes (amount : Z) : list Z :=
  let amount_bytes := to_be 8 amount in
  if 0x8000000000000000 <=? amount then 0 :: amount_bytes
  else
    let start :=
      if amount =? 0 then 8
      else sat_sub (div_ceil (leading_zeros64 amount) 8) 1 in
    drop (Z.to_nat start) amount_bytes.

Definition coin_id `{Sha256} (c : Coin) : list Z :=
  hash_256 (parent_coin_info c ++ puzzle_hash c ++ amount_bytes (amount c)).

(** [SizedBytesImpl::parse]: shorter inputs are padded on the left. *)
Definition sized_parse (SIZE : nat) (bytes : list Z) : clvm (list Z) :=
  if bool_decide (SIZE < length bytes)%nat then Err InvalidInputE
  else Ok (replicate (SIZE - length bytes) 0 ++ bytes).

(** [TryFrom<&SExp> for Bytes32] and [TryFrom<&SExp> for Coin] *)
Definition bytes32_of_sexp (s : SExp) : clvm (list Z) :=
  match s with Atom a => sized_parse 32 a | Pair _ _ => Err InvalidInputE end.
Definition coin_of_sexp `{BigIntBytes} (sexp : SExp) : clvm Coin :=
  '(parent, rest) ← sexp_split sexp;
  '(puzzle, rest) ← sexp_split rest;
  '(amt, _) ← sexp_split rest;
  parent_coin_info ← bytes32_of_sexp parent;
  puzzle_hash ← bytes32_of_sexp puzzle;
  n ← sexp_as_int amt;
  amount ← ok_or (to_u64 n) AtomNotValidU64;
  Ok {| parent_coin_info := parent_coin_info; puzzle_hash := puzzle_hash; amount := amount |}.

(** ** The amount bytes are the CLVM encoding *)
Lemma drop_to_be n k v :
  (k ≤ n)%nat → 0 ≤ v < 256 ^ Z.of_nat (n - k) → drop k (to_be n v) = to_be (n - k) v.
Proof.
  revert k v. induction n as [|n IH]; intros k v Hk Hv.
  - by destruct k.
  - destruct (decide (k = S n)) as [->|Hne].
    { rewrite Nat.sub_diag. rewrite drop_ge by (rewrite length_to_be; lia). done. }
    replace (S n - k)%nat with (S (n - k)) in * by lia.
    cbn [to_be]. rewrite drop_app_le by (rewrite length_to_be; lia).
    rewrite IH; [done|lia|]. split; [apply Z.div_pos; lia|].
    apply Z.div_lt_upper_bound; [lia|]. rewrite <-Z.pow_succ_r by lia.
    replace (Z.succ (Z.of_nat (n - k))) with (Z.of_nat (S (n - k))) by lia. lia.
Qed.

(** The fewest bytes that hold a positive integer with its sign bit clear. *)
Lemma to_be_canonical n v :
  (0 < n)%nat → 0 < v < 2 ^ (8 * Z.of_nat n - 1) →
  (n = 1%nat ∨ 2 ^ (8 * Z.of_nat n - 9) ≤ v) →
  canonb (to_be n v) = true ∧ atom_value (to_be n v) = v.
Proof.
  intros Hn Hv Hlo.
  assert (Hsv : from_be_signed (to_be n v) = v) by (apply from_be_signed_to_be; lia).
  assert (Hne : to_be n v ≠ []).
  { intros E%(f_equal length). rewrite length_to_be in E. cbn in E. lia. }
  split; [|by destruct (to_be n v)].
  assert (Hstrip : strip_sign (to_be n v) = to_be n v).
  { destruct (to_be n v) as [|b0 [|b1 l]] eqn:E; [done..|]. rewrite strip_sign_cons2.
    destruct (redundant_sign b0 b1) eqn:Hr; [|done]. exfalso.
    pose proof (to_be_ok n v) as Hbs. rewrite E in Hbs.
    assert (Hlen : (2 + length l = n)%nat) by (rewrite <-(length_to_be n v), E; done).
    rewrite signed_strip in Hsv by done. apply bytes_ok_cons in Hbs as [_ Hbs].
    pose proof (from_be_signed_bounds (b1 :: l) Hbs ltac:(done)) as Hbd. rewrite Hsv in Hbd.
    unfold zlen in Hbd. cbn [length] in Hbd.
    destruct Hlo as [->|Hlo]; [lia|].
    replace (8 * Z.of_nat n - 9) with (8 * Z.of_nat (S (length l)) - 1) in Hlo by lia. lia. }
  rewrite <-Hstrip. apply strip_sign_canon; [apply to_be_ok|done|]. rewrite Hsv. lia.
Qed.

(** The number of bytes kept for a positive amount below [2^63]. *)
Lemma amount_start a :
  0 < a < 2 ^ 63 →
  let k := Z.to_nat (sat_sub (div_ceil (leading_zeros64 a) 8) 1) in
  (k < 8)%nat ∧ a < 2 ^ (8 * Z.of_nat (8 - k) - 1) ∧
  (k = 7%nat ∨ 2 ^ (8 * Z.of_nat (8 - k) - 9) ≤ a).
Proof.
  intros Ha k. pose proof (bit_length_bounds a ltac:(lia)) as [Hlo Hhi].
  pose proof (bit_length_nonneg a). pose proof (bit_length_lt a 63 ltac:(lia) ltac:(lia)).
  set (l := bit_length a) in *. unfold k, sat_sub, div_ceil, leading_zeros64. fold l.
  assert (1 ≤ l).
  { destruct (Z.lt_ge_cases l 1); [|lia]. assert (l = 0) as Hl by lia. rewrite Hl in Hhi. cbn in Hhi. lia. }
  pose proof (Z.div_mod (64 - l + 8 - 1) 8 ltac:(lia)) as Hdm.
  pose proof (Z.mod_pos_bound (64 - l + 8 - 1) 8 ltac:(lia)).
  set (q := (64 - l + 8 - 1) / 8) in *.
  assert (1 ≤ q ≤ 8) by lia. rewrite Z.max_r by lia.
  split_and!; [lia| |].
  - apply Z.lt_le_trans with (2 ^ l); [done|]. apply Z.pow_le_mono_r; lia.
  - destruct (Z.eq_dec q 8); [left; lia|]. right.
    apply Z.le_trans with (2 ^ (l - 1)); [|done]. apply Z.pow_le_mono_r; lia.
Qed.

Lemma amount_bytes_canonical `{BigIntBytesOk} a :
  0 ≤ a < 2 ^ 64 → amount_bytes a = number_to_atom (I128 a).
Proof.
  intros Ha. assert (Hok : number_ok (I128 a)) by (cbn; unfold i128_ok; lia).
  destruct (number_to_atom_spec _ Hok) as (Hnb & Hnc & Hnv). cbn [num_value] in Hnv.
  enough (bytes_ok (amount_bytes a) ∧ canonb (amount_bytes a) = true ∧
          atom_value (amount_bytes a) = a) as (Hb & Hc & Hv).
  { apply canon_unique; congruence. }
  unfold amount_bytes. change 0x8000000000000000 with (2 ^ 63).
  destruct (Z.leb_spec (2 ^ 63) a) as [Hge|Hlt].
  { assert (Hval : from_be (to_be 8 a) = a).
    { rewrite from_be_to_be. apply Z.mod_small. by change (256 ^ Z.of_nat 8) with (2 ^ 64). }
    assert (Hbs : bytes_ok (0 :: to_be 8 a)).
    { apply bytes_ok_cons. split; [unfold byte_ok; lia|apply to_be_ok]. }
    split_and!; [done| |].
    - assert (Hd : ∃ b l, to_be 8 a = b :: l) by (cbn; eauto). destruct Hd as (b & l & Hd).
      rewrite Hd in *. cbn. apply bytes_ok_cons in Hbs as [_ [Hb Hl]%bytes_ok_cons].
      apply negb_true_iff, not_true_iff_false. rewrite redundant_sign_spec by done.
      assert (Hl7 : zlen l = 7).
      { apply (f_equal (@zlen Z)) in Hd. rewrite zlen_cons in Hd. unfold zlen at 1 in Hd.
        rewrite length_to_be in Hd. lia. }
      rewrite from_be_cons, Hl7 in Hval. pose proof (from_be_bounds l Hl) as Hbd.
      rewrite Hl7 in Hbd. change (256 ^ 7) with (2 ^ 56) in *. lia.
    - cbn [atom_value]. rewrite from_be_signed_cons by done. cbn [Z.ltb Z.compare].
      rewrite Hval. lia. }
  destruct (Z.eqb_spec a 0) as [->|Hnz]; [split_and!; [constructor|done..]|].
  destruct (amount_start a ltac:(lia)) as (Hk & Hhi & Hlo).
  set (k := Z.to_nat _) in *. set (n := (8 - k)%nat) in *.
  assert (Hn : (0 < n)%nat) by lia.
  assert (Hp : 2 ^ (8 * Z.of_nat n - 1) ≤ 2 ^ (8 * Z.of_nat n)) by (apply Z.pow_le_mono_r; lia).
  rewrite drop_to_be by (try lia; fold n; rewrite pow256; lia). fold n.
  split_and!; [apply to_be_ok|apply to_be_canonical; lia..].
Qed.

(** a coin's id is SHA-256 over the parent id, the puzzle hash and the
    CLVM encoding of the amount, for every 64-bit amount. *)
Theorem coin_id_clvm `{BigIntBytesOk, Sha256} (c : Coin) :
  0 ≤ amount c < 2 ^ 64 →
  coin_id c = hash_256 (parent_coin_info c ++ puzzle_hash c ++ number_to_atom (I128 (amount c))).
Proof. intros Ha. unfold coin_id. by rewrite amount_bytes_canonical. Qed.

Definition sample_coin : Coin :=
  {| parent_coin_info := replicate 32 1; puzzle_hash := replicate 32 2; amount := 200 |}.

Lemma coin_id_clvm_witness :
  @coin_id toy_hash sample_coin =
  @hash_256 toy_hash (replicate 32 1 ++ replicate 32 2 ++
    @number_to_atom bigint_ref (I128 200)).
Proof. apply (@coin_id_clvm bigint_ref bigint_ref_ok toy_hash sample_coin). cbn. lia. Defined.
