(* ===== verification/ClvmPath.v ===== *)
(** * Environment paths

    A path atom is an unsigned big-endian integer whose bits, from the least
    significant up to (and without) the most significant one, say [rest] (1) or
    [first] (0).  Two loops of the code walk it with a byte index and a bit
    mask: [ClvmRuntime::traverse_path] and [traverse_backref_path] of
    [parser.rs].  This file holds what they share: the helpers of
    [runtime.rs], the loop's step and condition, and the lemma that relates a
    position of the loop to the integer that is left of the path. *)
From Stdlib Require Import ZArith Lia.
From stdpp Require Import base list numbers option.
From S2P Require Import Prelude Serialize ClvmNumber ClvmSexp.

Open Scope Z_scope.

(** [first_non_zero]: the index of the first non-zero byte, the length when
    there is none. *)
Fixpoint first_non_zero (buf : list Z) : nat :=
  match buf with
  | [] => 0
  | b :: buf => if b =? 0 then S (first_non_zero buf) else 0
  end.

(** [msb_mask]: the most significant set bit of a byte. *)
Definition msb_mask (byte : Z) : Z :=
  let byte := Z.lor byte (Z.shiftr byte 1) in
  let byte := Z.lor byte (Z.shiftr byte 2) in
  let byte := Z.lor byte (Z.shiftr byte 4) in
  wrapu 8 (Z.shiftr (byte + 1) 1).

(** [while byte_idx > first || bitmask < last] *)
Definition path_continues (first : nat) (last : Z) (byte_idx : nat) (bitmask : Z) : bool :=
  bool_decide (first < byte_idx)%nat || (bitmask <? last).

(** [node_index[byte_idx] & bitmask != 0] *)
Definition path_bit (path : list Z) (byte_idx : nat) (bitmask : Z) : bool :=
  negb (Z.land (default 0 (path !! byte_idx)) bitmask =? 0).

(** The next byte and mask. *)
Definition path_next (byte_idx : nat) (bitmask : Z) : nat * Z :=
  if bitmask =? 0x80 then ((byte_idx - 1)%nat, 0x01) else (byte_idx, wrapu 8 (Z.shiftl bitmask 1)).

(** The reference: the binary digits of a positive number, least significant
    first, are its constructors. *)
Fixpoint follow (p : positive) (s : SExp) : option SExp :=
  match p, s with
  | xH, _ => Some s
  | xO p, Pair f _ => follow p f
  | xI p, Pair _ r => follow p r
  | _, Atom _ => None
  end.

(** The node a path integer denotes: nil for 0. *)
Definition path_lookup (n : Z) (s : SExp) : option SExp :=
  match n with Zpos p => follow p s | _ => Some NULL_SEXP end.

(** * Lemmas *)
Lemma first_non_zero_le buf : (first_non_zero buf ≤ length buf)%nat.
Proof. induction buf as [|b l IH]; cbn; [lia|]. destruct (b =? 0); lia. Qed.

Lemma first_non_zero_all buf :
  bytes_ok buf → first_non_zero buf = length buf ↔ from_be buf = 0.
Proof.
  induction buf as [|b l IH]; intros Hb; [done|].
  apply bytes_ok_cons in Hb as [Hb Hl]. unfold byte_ok in Hb.
  cbn. rewrite from_be_cons. pose proof (from_be_bounds l Hl).
  pose proof (zlen_nonneg l). pose proof (Z.pow_pos_nonneg 256 (zlen l)).
  destruct (Z.eqb_spec b 0) as [->|].
  - rewrite Z.mul_0_l, Z.add_0_l, <-IH by done. lia.
  - split; [done|nia].
Qed.

(** The bytes before the first non-zero one do not count. *)
Lemma from_be_first buf :
  first_non_zero buf ≠ length buf →
  ∃ b rest, buf !! first_non_zero buf = Some b ∧ b ≠ 0 ∧
    drop (first_non_zero buf) buf = b :: rest ∧ from_be buf = from_be (b :: rest) ∧
    length rest = (length buf - first_non_zero buf - 1)%nat.
Proof.
  induction buf as [|b l IH]; [done|]. cbn [first_non_zero length]. intros Hne.
  destruct (Z.eqb_spec b 0) as [->|Hb].
  - destruct IH as (b' & rest & H1 & H2 & H3 & H4 & H5); [lia|].
    exists b', rest. split_and!; [done..| |cbn; lia].
    by rewrite from_be_cons, Z.mul_0_l, Z.add_0_l.
  - exists b, l. by split_and!; [done..|cbn; lia].
Qed.

Lemma msb_mask_spec b : byte_ok b → b ≠ 0 → msb_mask b = 2 ^ Z.log2 b ∧ 0 ≤ Z.log2 b < 8.
Proof.
  intros Hb Hnz.
  assert (H : (b =? 0) || (msb_mask b =? 2 ^ Z.log2 b) && (Z.log2 b <? 8) = true)
    by (by apply (byte_forall (λ b, (b =? 0) || (msb_mask b =? 2 ^ Z.log2 b) && (Z.log2 b <? 8)))).
  pose proof (Z.log2_nonneg b).
  destruct (Z.eqb_spec b 0); [done|]. cbn in H. bool_to_prop. lia.
Qed.

(** ** Positions of the loop *)
Section position.
Variables (path : list Z) (first : nat) (last : Z).
Hypothesis Hok : bytes_ok path.
Hypothesis Hfirst : first = first_non_zero path.
Hypothesis Hne : first ≠ length path.
Hypothesis Hlast : ∀ b, path !! first = Some b → last = 2 ^ Z.log2 b.

(** What is left of the path at byte [i], bit [j]. *)
Definition path_rest (i : nat) (j : Z) : Z :=
  from_be path / 2 ^ (8 * Z.of_nat (length path - 1 - i) + j).

Definition pos_ok (i : nat) (j : Z) : Prop :=
  (first ≤ i < length path)%nat ∧ 0 ≤ j < 8 ∧ 1 ≤ path_rest i j.

Lemma split_at i b :
  path !! i = Some b →
  ∃ hi lo, from_be path = (hi * 256 + b) * 256 ^ zlen lo + from_be lo ∧
    hi = from_be (take i path) ∧ length lo = (length path - 1 - i)%nat ∧
    bytes_ok lo ∧ byte_ok b ∧ bytes_ok (take i path).
Proof.
  intros Hi. assert (Hlen : (i < length path)%nat) by (by eapply lookup_lt_Some).
  pose proof (take_drop_middle path i b Hi) as Hsplit.
  exists (from_be (take i path)), (drop (S i) path). rewrite <-Hsplit in Hok.
  apply bytes_ok_app in Hok as [H1 [H2 H3]%bytes_ok_cons].
  split_and!; try done; [|rewrite length_drop; lia].
  rewrite <-Hsplit at 1. rewrite from_be_app, from_be_cons, zlen_cons.
  pose proof (zlen_nonneg (drop (S i) path)). rewrite Z.pow_add_r by lia. lia.
Qed.

Lemma path_rest_byte i j b :
  path !! i = Some b → 0 ≤ j < 8 →
  path_rest i j = (from_be (take i path) * 256 + b) / 2 ^ j.
Proof.
  intros Hi Hj. destruct (split_at i b Hi) as (hi & lo & Hf & Hhi & Hlen & Hlo & Hb & _).
  unfold path_rest. rewrite <-Hlen, Hf, Hhi. rewrite Z.pow_add_r by lia.
  replace (2 ^ (8 * Z.of_nat (length lo))) with (256 ^ zlen lo)
    by (unfold zlen; apply pow256).
  pose proof (from_be_bounds lo Hlo). rewrite <-Z.div_div by lia.
  rewrite Z.div_add_l by lia. rewrite (Z.div_small (from_be lo)) by lia.
  by rewrite Z.add_0_r.
Qed.

Lemma path_bit_odd i j :
  pos_ok i j → path_bit path i (2 ^ j) = Z.odd (path_rest i j).
Proof.
  intros ((Hi & Hi') & Hj & _). apply lookup_lt_is_Some_2 in Hi' as [b Hb].
  destruct (split_at i b Hb) as (hi & lo & _ & _ & _ & _ & Hbok & _).
  unfold path_bit. rewrite Hb. change (default 0 (Some b)) with b. rewrite (path_rest_byte i j b Hb Hj).
  set (h := from_be (take i path)). unfold byte_ok in Hbok.
  rewrite <-Z.bit0_odd, Z.div_pow2_bits by lia. rewrite Z.add_0_l.
  replace (h * 256 + b) with (b + h * 2 ^ 8) by lia.
  assert (Hbits : Z.testbit (b + h * 2 ^ 8) j = Z.testbit b j).
  { rewrite <-(Z.mod_pow2_bits_low (b + h * 2 ^ 8) 8 j) by lia.
    rewrite Z.mod_add by lia. rewrite Z.mod_small by (change (2 ^ 8) with 256; lia). done. }
  rewrite Hbits. destruct (Z.testbit b j) eqn:E.
  - apply negb_true_iff, Z.eqb_neq. intros Hz.
    assert (Ht : Z.testbit (Z.land b (2 ^ j)) j = true)
      by (rewrite Z.land_spec, E, Z.pow2_bits_true by lia; done).
    by rewrite Hz, Z.bits_0 in Ht.
  - apply negb_false_iff, Z.eqb_eq. apply Z.bits_inj'. intros k Hk.
    rewrite Z.land_spec, Z.bits_0. destruct (Z.eq_dec k j) as [->|Hkj]; [by rewrite E|].
    rewrite Z.pow2_bits_false by lia. by rewrite andb_false_r.
Qed.

Lemma path_continues_gt i j :
  pos_ok i j → path_continues first last i (2 ^ j) = (1 <? path_rest i j).
Proof.
  intros ((Hi & Hi') & Hj & H1). unfold path_continues.
  destruct (from_be_first path) as (b & rest & Hb & Hnz & Hdrop & _); [by rewrite <-Hfirst|].
  rewrite <-Hfirst in Hb. rewrite (Hlast b Hb).
  destruct (split_at first b Hb) as (_ & _ & _ & _ & _ & _ & Hbok & Htk).
  assert (Hzero : from_be (take first path) = 0).
  { rewrite Hfirst. clear. induction path as [|c l IH]; [done|]. cbn.
    destruct (Z.eqb_spec c 0) as [->|]; [|done]. cbn [take].
    by rewrite from_be_cons, Z.mul_0_l, Z.add_0_l. }
  destruct (decide (first < i)%nat) as [Hlt|Hge].
  - rewrite bool_decide_eq_true_2 by done. cbn. symmetry. apply Z.ltb_lt.
    destruct (lookup_lt_is_Some_2 path i Hi') as [c Hc].
    rewrite (path_rest_byte i j c Hc Hj).
    destruct (split_at i c Hc) as (_ & _ & _ & _ & _ & _ & Hcok & Htk').
    assert (1 ≤ from_be (take i path)).
    { rewrite <-(take_drop first (take i path)), from_be_app.
      rewrite take_take, Nat.min_l by lia. rewrite Hzero, Z.mul_0_l, Z.add_0_l.
      assert (Hd : ∃ r, drop first (take i path) = b :: r).
      { destruct (drop first (take i path)) as [|b' r] eqn:E.
        - apply (f_equal length) in E. rewrite length_drop, length_take in E.
          simpl in E. lia.
        - exists r. f_equal. assert (Hh : drop first (take i path) !! 0%nat = Some b').
          { by rewrite E. }
          rewrite lookup_drop, Nat.add_0_r, lookup_take_lt in Hh by done. congruence. }
      destruct Hd as [r Hd].
      assert (Hr : bytes_ok (b :: r)) by (rewrite <-Hd; by apply Forall_drop).
      apply bytes_ok_cons in Hr as [_ Hr]. rewrite Hd, from_be_cons.
      pose proof (from_be_bounds r Hr). pose proof (zlen_nonneg r).
      pose proof (Z.pow_pos_nonneg 256 (zlen r)). unfold byte_ok in Hbok. nia. }
    unfold byte_ok in Hcok. pose proof (Z.pow_le_mono_r 2 j 7).
    change (2 ^ 7) with 128 in *. apply Z.lt_le_trans with 2; [lia|].
    apply Z.div_le_lower_bound; [apply Z.pow_pos_nonneg; lia|]. lia.
  - assert (i = first) as -> by lia. rewrite bool_decide_eq_false_2 by lia. cbn.
    rewrite (path_rest_byte first j b Hb Hj) in *. rewrite Hzero in *.
    rewrite Z.mul_0_l, Z.add_0_l in *. unfold byte_ok in Hbok.
    pose proof (Z.log2_spec b ltac:(lia)) as [Hlo Hhi]. pose proof (Z.log2_nonneg b).
    assert (Hp : 0 < 2 ^ j) by (apply Z.pow_pos_nonneg; lia).
    apply eq_true_iff_eq. rewrite Z.ltb_lt, Z.ltb_lt. split.
    + intros Hlt. apply Z.pow_lt_mono_r_iff in Hlt; [|lia..].
      apply Z.lt_le_trans with 2; [lia|]. apply Z.div_le_lower_bound; [done|].
      rewrite Z.mul_comm, <-Z.pow_succ_r by lia.
      pose proof (Z.pow_le_mono_r 2 (Z.succ j) (Z.log2 b)). lia.
    + intros Hgt. apply Z.pow_lt_mono_r; [lia..|].
      destruct (Z.lt_ge_cases j (Z.log2 b)); [done|]. exfalso.
      pose proof (Z.pow_le_mono_r 2 (Z.succ (Z.log2 b)) (Z.succ j)).
      assert (b / 2 ^ j < 2); [|lia]. apply Z.div_lt_upper_bound; [done|].
      rewrite Z.mul_comm, <-Z.pow_succ_r by lia. lia.
Qed.

Lemma path_next_rest i j i' m' :
  pos_ok i j → 1 < path_rest i j → path_next i (2 ^ j) = (i', m') →
  ∃ j', m' = 2 ^ j' ∧ pos_ok i' j' ∧ path_rest i' j' = path_rest i j / 2.
Proof.
  intros Hpos Hgt Hnext. pose proof Hpos as ((Hi & Hi') & Hj & H1).
  assert (Hhalf : 1 ≤ path_rest i j / 2) by (apply Z.div_le_lower_bound; lia).
  unfold path_next in Hnext. destruct (Z.eqb_spec (2 ^ j) 0x80) as [H80|H80].
  - assert (j = 7) as ->.
    { destruct (Z.eq_dec j 7); [done|]. exfalso.
      pose proof (Z.pow_lt_mono_r 2 j 7). change (2 ^ 7) with 0x80 in *. lia. }
    assert (Hfi : (first < i)%nat).
    { destruct (decide (first < i)%nat); [done|]. exfalso.
      pose proof (path_continues_gt i 7 Hpos) as Hc. unfold path_continues in Hc.
      rewrite bool_decide_eq_false_2 in Hc by done.
      destruct (from_be_first path) as (b & rest & Hb & Hnz & _); [by rewrite <-Hfirst|].
      rewrite <-Hfirst in Hb. rewrite (Hlast b Hb) in Hc.
      destruct (split_at first b Hb) as (_ & _ & _ & _ & _ & _ & Hbok & _).
      destruct (msb_mask_spec b Hbok Hnz) as [_ Hl].
      pose proof (Z.pow_le_mono_r 2 (Z.log2 b) 7).
      destruct (Z.ltb_spec 1 (path_rest i 7)); [|lia]. cbn in Hc.
      apply Z.ltb_lt in Hc. change (2 ^ 7) with 128 in *. lia. }
    injection Hnext as <- <-. exists 0. split; [done|].
    assert (Heq : path_rest (i - 1) 0 = path_rest i 7 / 2).
    { unfold path_rest. rewrite Z.div_div by (try apply Z.pow_nonzero; lia).
      f_equal. change 2 with (2 ^ 1) at 3. rewrite <-Z.pow_add_r by lia. f_equal. lia. }
    split; [|done]. unfold pos_ok. rewrite Heq. split_and!; lia.
  - injection Hnext as <- <-. exists (j + 1).
    assert (j < 7).
    { destruct (Z.lt_ge_cases j 7); [done|]. assert (j = 7) as -> by lia. done. }
    split.
    { unfold wrapu. rewrite Z.shiftl_mul_pow2 by lia.
      rewrite <-Z.pow_add_r by lia. apply Z.mod_small.
      split; [apply Z.pow_nonneg; lia|]. apply Z.pow_lt_mono_r; lia. }
    assert (Heq : path_rest i (j + 1) = path_rest i j / 2).
    { unfold path_rest. rewrite Z.div_div by (try apply Z.pow_nonzero; lia).
      f_equal. change 2 with (2 ^ 1) at 3. rewrite <-Z.pow_add_r by lia. f_equal. lia. }
    split; [|done]. unfold pos_ok. rewrite Heq. split_and!; lia.
Qed.

Lemma path_start : pos_ok (length path - 1) 0 ∧ path_rest (length path - 1) 0 = from_be path.
Proof.
  assert (Heq : path_rest (length path - 1) 0 = from_be path).
  { unfold path_rest. rewrite Nat.sub_diag. cbn. by rewrite Z.div_1_r. }
  split; [|done]. pose proof (first_non_zero_le path). unfold pos_ok. rewrite Heq.
  pose proof (from_be_bounds path Hok).
  pose proof (first_non_zero_all path Hok). split_and!; [lia..|].
  destruct (Z.eq_dec (from_be path) 0); [|lia]. exfalso. apply Hne. rewrite Hfirst. tauto.
Qed.
End position.

(** ** The walk

    [path_walk] is the [while] loop of both walkers, [body] what one of them
    does with a bit.  [8 * length path] rounds are enough. *)
Fixpoint path_walk {A} (body : bool → A → clvm A) (fuel : nat) (path : list Z)
    (first : nat) (last : Z) (byte_idx : nat) (bitmask : Z) (a : A) : clvm A :=
  match fuel with
  | O => Panic
  | S fuel =>
      if path_continues first last byte_idx bitmask then
        a ← body (path_bit path byte_idx bitmask) a;
        let '(byte_idx, bitmask) := path_next byte_idx bitmask in
        path_walk body fuel path first last byte_idx bitmask a
      else Ok a
  end.

(** The same walk over the digits of the path integer. *)
Fixpoint walk_pos {A} (body : bool → A → clvm A) (p : positive) (a : A) : clvm A :=
  match p with
  | xH => Ok a
  | xO p => a ← body false a; walk_pos body p a
  | xI p => a ← body true a; walk_pos body p a
  end.

Lemma walk_pos_step {A} (body : bool → A → clvm A) n a :
  1 < n →
  walk_pos body (Z.to_pos n) a =
    (a ← body (Z.odd n) a; walk_pos body (Z.to_pos (n / 2)) a).
Proof.
  intros Hn. destruct n as [|p|p]; [lia| |lia].
  destruct p as [p|p|]; [| |lia]; cbn [walk_pos Z.to_pos Z.odd].
  - by rewrite <-Z.div2_div.
  - by rewrite <-Z.div2_div.
Qed.

Lemma path_walk_pos {A} (body : bool → A → clvm A) path first last :
  bytes_ok path → first = first_non_zero path → first ≠ length path →
  (∀ b, path !! first = Some b → last = 2 ^ Z.log2 b) →
  ∀ fuel i j a, pos_ok path first i j → Z.log2 (path_rest path i j) < Z.of_nat fuel →
  path_walk body fuel path first last i (2 ^ j) a =
    walk_pos body (Z.to_pos (path_rest path i j)) a.
Proof.
  intros Hok Hf Hne Hl. induction fuel as [|fuel IH]; intros i j a Hpos Hfuel.
  { pose proof (Z.log2_nonneg (path_rest path i j)). lia. }
  cbn [path_walk]. rewrite (path_continues_gt path first last) by done.
  destruct (Z.ltb_spec 1 (path_rest path i j)) as [Hgt|Hle].
  - rewrite (path_bit_odd path first) by done. rewrite walk_pos_step by done.
    destruct (body _ a) as [a'| |]; cbn [mbind res_bind]; [|done..].
    destruct (path_next i (2 ^ j)) as [i' m'] eqn:Hn.
    destruct (path_next_rest path first last Hok Hf Hne Hl i j i' m') as (j' & -> & Hp & Hr);
      [done..|].
    rewrite IH; [by rewrite Hr|done|]. rewrite Hr.
    assert (Z.log2 (path_rest path i j / 2) < Z.log2 (path_rest path i j)); [|lia].
    rewrite <-Z.div2_div, Z.div2_spec, Z.log2_shiftr by lia.
    pose proof (Z.log2_pos (path_rest path i j)). lia.
  - destruct Hpos as (_ & _ & H1). replace (path_rest path i j) with 1 by lia. done.
Qed.

(** From the start: the whole loop walks the path integer. *)
Lemma path_walk_start {A} (body : bool → A → clvm A) path last a :
  bytes_ok path → first_non_zero path ≠ length path →
  (∀ b, path !! first_non_zero path = Some b → last = 2 ^ Z.log2 b) →
  path_walk body (8 * length path) path (first_non_zero path) last (length path - 1) 1 a =
    walk_pos body (Z.to_pos (from_be path)) a.
Proof.
  intros Hok Hne Hl. destruct (path_start path _ Hok eq_refl Hne) as [Hpos Hr].
  rewrite <-Hr. change (path_walk body (8 * length path) path (first_non_zero path) last
    (length path - 1) (2 ^ 0) a = walk_pos body (Z.to_pos (path_rest path (length path - 1) 0)) a).
  apply path_walk_pos; try done.
  destruct Hpos as (_ & _ & H1). rewrite Hr in *.
  pose proof (from_be_bounds path Hok) as Hb. unfold zlen in Hb. rewrite pow256 in Hb.
  replace (Z.of_nat (8 * length path)) with (8 * Z.of_nat (length path)) by lia.
  apply Z.log2_lt_pow2; lia.
Qed.
