(* ===== verification/ClvmParser.v ===== *)
(** * The CLVM serialization: [core/src/clvm/parser.rs] and
      [is_clvm_canonical] of [core/src/clvm/utils.rs]

    The parsers are stack machines over a byte cursor: an operation stack
    ([ParserOp]) and a value stack.  The plain parser reads pairs and atoms,
    the back-reference parser also resolves [0xfe] paths into the values parsed
    so far.  [sexp_to_bytes] writes a tree with an explicit stack.

    The theorems: the parser inverts the writer and never panics,
    [is_clvm_canonical] accepts exactly the outputs of the writer, and a
    back-reference path resolves to the node of the (virtual) list of parsed
    values it denotes. *)
From Stdlib Require Import ZArith Lia.
From stdpp Require Import base list numbers option.
From S2P Require Import Prelude Serialize ClvmNumber ClvmSexp ClvmPath.

Open Scope Z_scope.

Inductive ParserOp := Exp | PCons.

Definition BACK_REFERENCE : Z := 0xfe.

Definition parse_atom_from_first_byte (stream : cursor) (first_byte : Z) :
    clvm (SExp * cursor) :=
  if first_byte =? 0x80 then Ok (NULL_SEXP, stream)
  else if first_byte <=? MAX_SINGLE_BYTE then Ok (Atom [first_byte], stream)
  else
    '(blob_size, stream) ← from_io (decode_size first_byte stream);
    if zlen (remaining stream) <? blob_size then Err BadEncoding
    else
      '(blob, stream) ← from_io (read_exact (Z.to_nat blob_size) stream);
      Ok (Atom blob, stream).

(** One round of [sexp_from_bytes]: the stacks have their top first. *)
Definition parse_step (op : ParserOp) (op_buf : list ParserOp) (val_buf : list SExp)
    (stream : cursor) : clvm (list ParserOp * list SExp * cursor) :=
  match op with
  | Exp =>
      if zlen (remaining stream) =? 0 then Err UnexpectedEndOfValues
      else
        '(byte_buf, stream) ← from_io (read_exact 1 stream);
        let b := hd 0 byte_buf in
        if b =? CONS_BOX_MARKER then Ok (Exp :: Exp :: PCons :: op_buf, val_buf, stream)
        else
          '(v, stream) ← parse_atom_from_first_byte stream b;
          Ok (op_buf, v :: val_buf, stream)
  | PCons =>
      match val_buf with
      | second :: first :: val_buf => Ok (op_buf, Pair first second :: val_buf, stream)
      | _ => Err BadEncoding
      end
  end.

Fixpoint parse_loop (fuel : nat) (op_buf : list ParserOp) (val_buf : list SExp)
    (stream : cursor) : clvm (SExp * cursor) :=
  match fuel with
  | O => Panic
  | S fuel =>
      match op_buf with
      | [] => match val_buf with v :: _ => Ok (v, stream) | [] => Err InvalidSyntax end
      | op :: op_buf =>
          '(op_buf, val_buf, stream) ← parse_step op op_buf val_buf stream;
          parse_loop fuel op_buf val_buf stream
      end
  end.

(** Every round reads a byte or builds a pair whose marker was read, so twice
    the bytes are enough rounds. *)
Definition sexp_from_bytes (stream : cursor) : clvm (SExp * cursor) :=
  if zlen (remaining stream) =? 0 then Ok (NULL_SEXP, stream)
  else parse_loop (2 * length (remaining stream) + 3) [Exp] [] stream.

(** ** Back-references *)
Definition parse_backref_path (stream : cursor) : clvm (list Z * cursor) :=
  if zlen (remaining stream) =? 0 then Err UnexpectedEndOfValues
  else
    '(byte_buf, stream) ← from_io (read_exact 1 stream);
    let b := hd 0 byte_buf in
    if (b =? CONS_BOX_MARKER) || (b =? BACK_REFERENCE) then Err SerializationError
    else
      '(v, stream) ← parse_atom_from_first_byte stream b;
      match v with
      | Atom atom => Ok (atom, stream)
      | Pair _ _ => Panic
      end.

(** The walker's state: inside a value or still on the value stack. *)
Record backref_state := {
  parsing_sexp : bool;
  stack_index : nat;
  current : SExp;
}.

(** The values parsed so far, bottom first, each with its cached list. *)
Notation value_buf := (list (SExp * option SExp)).

Definition backref_step (values : value_buf) (take_rest : bool) (st : backref_state) :
    clvm backref_state :=
  if parsing_sexp st then
    match current st with
    | Pair f r => Ok {| parsing_sexp := true; stack_index := stack_index st;
                        current := if take_rest then r else f |}
    | Atom _ => Err SerializationError
    end
  else if take_rest then
    match stack_index st with
    | O => Ok {| parsing_sexp := true; stack_index := 0; current := NULL_SEXP |}
    | S i => Ok {| parsing_sexp := false; stack_index := i; current := current st |}
    end
  else
    match values !! stack_index st with
    | Some v => Ok {| parsing_sexp := true; stack_index := stack_index st; current := v.1 |}
    | None => Panic
    end.

(** [for value in values.iter_mut().take(stack_index + 1)]: the list of the
    values up to [n], using and filling the caches. *)
Fixpoint build_stack_list (values : value_buf) (n : nat) (stack_list : SExp) :
    SExp * value_buf :=
  match n, values with
  | S n, (v, cached) :: values =>
      match cached with
      | Some c =>
          let '(s, values) := build_stack_list values n c in (s, (v, Some c) :: values)
      | None =>
          let c := Pair v stack_list in
          let '(s, values) := build_stack_list values n c in (s, (v, Some c) :: values)
      end
  | _, _ => (stack_list, values)
  end.

Definition traverse_backref_path (values : value_buf) (path : list Z) :
    clvm (SExp * value_buf) :=
  let first_nz := first_non_zero path in
  if bool_decide (length path ≤ first_nz)%nat then Ok (NULL_SEXP, values)
  else
    let sentinel :=
      Z.shiftr 0x80 (8 - bit_length (default 0 (path !! first_nz))) in
    st ← path_walk (backref_step values) (8 * length path) path first_nz sentinel
           (length path - 1) 1
           {| parsing_sexp := bool_decide (values = []);
              stack_index := length values - 1; current := NULL_SEXP |};
    if parsing_sexp st then Ok (current st, values)
    else Ok (build_stack_list values (stack_index st + 1) NULL_SEXP).

Definition backref_parse_step (op : ParserOp) (op_buf : list ParserOp)
    (val_buf : value_buf) (stream : cursor) : clvm (list ParserOp * value_buf * cursor) :=
  match op with
  | Exp =>
      if zlen (remaining stream) =? 0 then Err UnexpectedEndOfValues
      else
        '(byte_buf, stream) ← from_io (read_exact 1 stream);
        let b := hd 0 byte_buf in
        if b =? CONS_BOX_MARKER then Ok (Exp :: Exp :: PCons :: op_buf, val_buf, stream)
        else if b =? BACK_REFERENCE then
          '(path, stream) ← parse_backref_path stream;
          '(backref, val_buf) ← traverse_backref_path val_buf path;
          Ok (op_buf, val_buf ++ [(backref, None)], stream)
        else
          '(v, stream) ← parse_atom_from_first_byte stream b;
          Ok (op_buf, val_buf ++ [(v, None)], stream)
  | PCons =>
      match rev val_buf with
      | (second, _) :: (first, _) :: below =>
          Ok (op_buf, rev below ++ [(Pair first second, None)], stream)
      | _ => Err BadEncoding
      end
  end.

Fixpoint backref_parse_loop (fuel : nat) (op_buf : list ParserOp) (val_buf : value_buf)
    (stream : cursor) : clvm (SExp * cursor) :=
  match fuel with
  | O => Panic
  | S fuel =>
      match op_buf with
      | [] => match rev val_buf with (v, _) :: _ => Ok (v, stream) | [] => Err InvalidSyntax end
      | op :: op_buf =>
          '(op_buf, val_buf, stream) ← backref_parse_step op op_buf val_buf stream;
          backref_parse_loop fuel op_buf val_buf stream
      end
  end.

Definition sexp_from_bytes_backrefs (stream : cursor) : clvm (SExp * cursor) :=
  if zlen (remaining stream) =? 0 then Ok (NULL_SEXP, stream)
  else backref_parse_loop (2 * length (remaining stream) + 3) [Exp] [] stream.

(** ** The writer *)
Definition atom_to_bytes (data : list Z) : io (list Z) :=
  match data with
  | [] => Ok [0x80]
  | [b] => if b <=? MAX_SINGLE_BYTE then Ok [b]
           else size ← encode_size (zlen data); Ok (size ++ data)
  | _ => size ← encode_size (zlen data); Ok (size ++ data)
  end.

Fixpoint sexp_size (s : SExp) : nat :=
  match s with Atom _ => 1 | Pair f r => S (sexp_size f + sexp_size r) end.

Fixpoint write_loop (fuel : nat) (stack : list SExp) (buffer : list Z) : io (list Z) :=
  match fuel with
  | O => Panic
  | S fuel =>
      match stack with
      | [] => Ok buffer
      | Atom atom :: stack => bs ← atom_to_bytes atom; write_loop fuel stack (buffer ++ bs)
      | Pair first rest :: stack =>
          write_loop fuel (first :: rest :: stack) (buffer ++ [CONS_BOX_MARKER])
      end
  end.

Definition sexp_to_bytes (sexp : SExp) : io (list Z) :=
  write_loop (S (sexp_size sexp)) [sexp] [].

(** ** [is_clvm_canonical] *)

(** The number of prefix bytes, the value mask of the first byte and the
    smallest length of the form. *)
Definition prefix_form (b : Z) : nat * Z * Z :=
  if Z.land b 0xC0 =? 0x80 then (0%nat, 0x3F, 1)
  else if Z.land b 0xE0 =? 0xC0 then (1%nat, 0x1F, 2 ^ 6)
  else if Z.land b 0xF0 =? 0xE0 then (2%nat, 0x0F, 2 ^ 13)
  else if Z.land b 0xF8 =? 0xF0 then (3%nat, 0x07, 2 ^ 20)
  else if Z.land b 0xFC =? 0xF8 then (4%nat, 0x03, 2 ^ 27)
  else (5%nat, 0x01, 2 ^ 34).

(** [for i in 0..prefix_len]: accumulate the prefix bytes. *)
Fixpoint prefix_value (clvm : list Z) (offset n : nat) (atom_len : Z) : option Z :=
  match n with
  | O => Some atom_len
  | S n =>
      match clvm !! offset with
      | Some next => prefix_value clvm (S offset) n (Z.lor (Z.shiftl atom_len 8) next)
      | None => None
      end
  end.

Definition atom_end (clvm : list Z) (offset : nat) (b : Z) : option nat :=
  let '(prefix_len, mask, min_value) := prefix_form b in
  match prefix_value clvm (offset + 1) prefix_len (Z.land b mask) with
  | None => None
  | Some atom_len =>
      if atom_len <? min_value then None
      else
        let next := Z.of_nat offset + (1 + Z.of_nat prefix_len + atom_len) in
        if next <? 2 ^ 64 then Some (Z.to_nat next) else None
  end.

(** Every round moves [offset] forward, so one more round than there are bytes
    is enough; out of range the loop answers [false]. *)
Fixpoint canonical_loop (fuel : nat) (clvm : list Z) (offset : nat) (tokens_left : Z) : bool :=
  match fuel with
  | O => false
  | S fuel =>
      match clvm !! offset with
      | None => false
      | Some b =>
          if b =? 0xFF then canonical_loop fuel clvm (offset + 1) (tokens_left + 1)
          else if b =? 0xFE then false
          else
            let next := if b <=? 0x80 then Some (offset + 1)%nat else atom_end clvm offset b in
            match next with
            | None => false
            | Some offset =>
                let tokens_left := tokens_left - 1 in
                if tokens_left =? 0 then bool_decide (offset = length clvm)
                else canonical_loop fuel clvm offset tokens_left
            end
      end
  end.

Definition is_clvm_canonical (clvm : list Z) : bool :=
  match clvm with [] => false | _ => canonical_loop (length clvm) clvm 0 1 end.

(** * The writer *)

(** The reference writer: structural recursion. *)
Fixpoint enc (s : SExp) : io (list Z) :=
  match s with
  | Atom a => atom_to_bytes a
  | Pair f r => bf ← enc f; br ← enc r; Ok (CONS_BOX_MARKER :: bf ++ br)
  end.

Lemma write_loop_enc s fuel stack buf :
  write_loop (sexp_size s + fuel) (s :: stack) buf =
    (bs ← enc s; write_loop fuel stack (buf ++ bs)).
Proof.
  revert fuel stack buf. induction s as [a|f IHf r IHr]; intros fuel stack buf; [done|].
  cbn [sexp_size Nat.add write_loop enc]. rewrite <-Nat.add_assoc, IHf.
  destruct (enc f) as [bf| |]; cbn [mbind res_bind]; [|done..].
  rewrite IHr. destruct (enc r) as [br| |]; cbn [mbind res_bind]; [|done..].
  by rewrite <-!app_assoc.
Qed.

Lemma sexp_to_bytes_enc s : sexp_to_bytes s = enc s.
Proof.
  unfold sexp_to_bytes. replace (S (sexp_size s)) with (sexp_size s + 1)%nat by lia.
  rewrite write_loop_enc. destruct (enc s); done.
Qed.

(** ** The five length forms

    Header bits, number of values of the first byte, prefix bytes, mask and
    smallest length. *)
Definition forms : list (Z * nat * nat * Z * Z) :=
  [(0x80, 64%nat, 0%nat, 0x3F, 1); (0xc0, 32%nat, 1%nat, 0x1F, 2 ^ 6);
   (0xe0, 16%nat, 2%nat, 0x0F, 2 ^ 13); (0xf0, 8%nat, 3%nat, 0x07, 2 ^ 20);
   (0xf8, 4%nat, 4%nat, 0x03, 2 ^ 27)].

Lemma form_encode h lim n mask mn v :
  (h, lim, n, mask, mn) ∈ forms → mn ≤ v < 256 ^ Z.of_nat n * Z.of_nat lim →
  encode_size v = Ok (size_class h n v).
Proof.
  unfold forms. intros Hin Hv. repeat (apply elem_of_cons in Hin as [[= -> -> -> -> ->]|Hin]);
    [..|by apply elem_of_nil in Hin]; cbn in Hv; rewrite encode_size_class by lia;
    repeat case_match; bool_to_prop; done || lia.
Qed.

Lemma form_exists v :
  1 ≤ v < MAX_DECODE_SIZE →
  ∃ h lim n mask mn, (h, lim, n, mask, mn) ∈ forms ∧
    mn ≤ v < 256 ^ Z.of_nat n * Z.of_nat lim.
Proof.
  unfold MAX_DECODE_SIZE. intros Hv.
  destruct (Z.lt_ge_cases v 0x40); [exists 0x80, 64%nat, 0%nat, 0x3F, 1; split; [apply list_elem_of_In; cbn; tauto|cbn; lia]|].
  destruct (Z.lt_ge_cases v 0x2000); [exists 0xc0, 32%nat, 1%nat, 0x1F, (2 ^ 6); split; [apply list_elem_of_In; cbn; tauto|cbn; lia]|].
  destruct (Z.lt_ge_cases v 0x100000); [exists 0xe0, 16%nat, 2%nat, 0x0F, (2 ^ 13); split; [apply list_elem_of_In; cbn; tauto|cbn; lia]|].
  destruct (Z.lt_ge_cases v 0x8000000); [exists 0xf0, 8%nat, 3%nat, 0x07, (2 ^ 20); split; [apply list_elem_of_In; cbn; tauto|cbn; lia]|].
  exists 0xf8, 4%nat, 4%nat, 0x03, (2 ^ 27); split; [apply list_elem_of_In; cbn; tauto|cbn; lia].
Qed.

Definition form_table (f : Z * nat * nat * Z * Z) : bool :=
  let '(h, lim, n, mask, mn) := f in
  forallb (λ x, let b := wrapu 8 (Z.lor h (Z.of_nat x)) in
    bool_decide (h = 0x80 ∧ x = 0%nat) ||
    (bool_decide (prefix_form b = (n, mask, mn)) && (Z.land b mask =? Z.of_nat x) &&
     (0x80 <? b) && (b <? 0xfc))) (seq 0 lim).

Lemma form_header h lim n mask mn x :
  (h, lim, n, mask, mn) ∈ forms → 0 ≤ x < Z.of_nat lim → ¬ (h = 0x80 ∧ x = 0) →
  let b := wrapu 8 (Z.lor h x) in
  prefix_form b = (n, mask, mn) ∧ Z.land b mask = x ∧ 0x80 < b < 0xfc.
Proof.
  intros Hin Hx Hne. assert (Hall : forallb form_table forms = true) by reflexivity.
  rewrite forallb_forall in Hall. apply list_elem_of_In, Hall in Hin. cbn in Hin.
  rewrite forallb_forall in Hin. specialize (Hin (Z.to_nat x)).
  rewrite Z2Nat.id in Hin by lia.
  rewrite orb_true_iff, !andb_true_iff, !bool_decide_eq_true, Z.eqb_eq, !Z.ltb_lt in Hin.
  destruct Hin as [[-> Hx0]|[[[? ?] ?] ?]]; [apply in_seq; lia| |].
  - exfalso. apply Hne. split; [done|lia].
  - cbn. done.
Qed.

Definition byte_form_table (b : Z) : bool :=
  (b <=? 0x80) || (0xfc <=? b) ||
  existsb (λ '(h, lim, n, mask, mn),
    bool_decide (prefix_form b = (n, mask, mn)) &&
    (b =? wrapu 8 (Z.lor h (Z.land b mask))) &&
    (0 <=? Z.land b mask) && (Z.land b mask <? Z.of_nat lim)) forms.

(** Every first byte of a long atom is of one of the forms. *)
Lemma byte_form b :
  byte_ok b → 0x80 < b < 0xfc →
  ∃ h lim n mask mn, (h, lim, n, mask, mn) ∈ forms ∧ prefix_form b = (n, mask, mn) ∧
    b = wrapu 8 (Z.lor h (Z.land b mask)) ∧ 0 ≤ Z.land b mask < Z.of_nat lim.
Proof.
  intros Hb Hr.
  assert (Ht : byte_form_table b = true) by (by apply (byte_forall byte_form_table)).
  unfold byte_form_table in Ht.
  rewrite !orb_true_iff, !Z.leb_le in Ht. destruct Ht as [[?|?]|Ht]; [lia..|].
  apply existsb_exists in Ht as ([[[[h lim] n] mask] mn] & Hin & Ht).
  rewrite !andb_true_iff, bool_decide_eq_true, Z.eqb_eq, Z.leb_le, Z.ltb_lt in Ht.
  apply list_elem_of_In in Hin. destruct Ht as [[[? ?] ?] ?]. by exists h, lim, n, mask, mn.
Qed.

Lemma size_class_split h lim n mask mn v :
  (h, lim, n, mask, mn) ∈ forms → mn ≤ v < 256 ^ Z.of_nat n * Z.of_nat lim →
  let x := v / 256 ^ Z.of_nat n in
  size_class h n v = wrapu 8 (Z.lor h x) :: to_be n v ∧
  0 ≤ x < Z.of_nat lim ∧ ¬ (h = 0x80 ∧ x = 0).
Proof.
  intros Hin Hv x.
  assert (Hmn : 1 ≤ mn ∧ (h = 0x80 → n = 0%nat ∧ mn = 1)).
  { unfold forms in Hin. repeat (apply elem_of_cons in Hin as [[= -> -> -> -> ->]|Hin]);
      [..|by apply elem_of_nil in Hin]; split; done || lia. }
  assert (Hp : 0 < 256 ^ Z.of_nat n) by (apply Z.pow_pos_nonneg; lia).
  unfold x. split_and!.
  - unfold size_class. rewrite Z.shiftr_div_pow2 by lia. by rewrite <-pow256.
  - apply Z.div_pos; lia.
  - apply Z.div_lt_upper_bound; lia.
  - intros [Hh Hz]. destruct Hmn as [? Hmn]. destruct (Hmn Hh) as [-> ->].
    rewrite Z.div_1_r in Hz. lia.
Qed.

(** The first byte of a long atom's length. *)
Lemma encode_size_first v :
  1 ≤ v < MAX_DECODE_SIZE →
  ∃ b tl, encode_size v = Ok (b :: tl) ∧ 0x80 < b < 0xfc ∧ bytes_ok (b :: tl).
Proof.
  intros Hv. destruct (form_exists v Hv) as (h & lim & n & mask & mn & Hin & Hr).
  rewrite (form_encode _ _ _ _ _ _ Hin Hr).
  destruct (size_class_split _ _ _ _ _ _ Hin Hr) as (-> & Hx & Hne).
  destruct (form_header _ _ _ _ _ _ Hin Hx Hne) as (_ & _ & Hb).
  eexists _, _. split_and!; [done|lia..|]. apply bytes_ok_cons. split; [unfold byte_ok; lia|apply to_be_ok].
Qed.

(** * The parser inverts the writer *)

(** The serialization of an atom with the shortest length prefix.  A single
    byte below [0x80] also passes behind the one-byte prefix [0x81]. *)
Definition atom_form (a bs : list Z) : Prop :=
  atom_to_bytes a = Ok bs ∨ ∃ b, a = [b] ∧ b ≤ MAX_SINGLE_BYTE ∧ bs = [0x81; b].

(** A tree written with such atoms. *)
Fixpoint canon_enc (s : SExp) (bs : list Z) : Prop :=
  match s with
  | Atom a => bytes_ok a ∧ atom_form a bs
  | Pair f r => ∃ bf br, bs = 0xff :: bf ++ br ∧ canon_enc f bf ∧ canon_enc r br
  end.

Lemma enc_canon s bs : sexp_ok s → enc s = Ok bs → canon_enc s bs.
Proof.
  revert bs. induction s as [a|f IHf r IHr]; intros bs Hok Henc; [by split; [|left]|].
  destruct Hok as [Hf Hr]. cbn in Henc.
  apply bind_Ok_inv in Henc as (bf & Hbf & Henc). apply bind_Ok_inv in Henc as (br & Hbr & Henc).
  apply Ok_inj in Henc as <-. exists bf, br. auto.
Qed.

Lemma from_io_Ok {A} (a : A) : from_io (Ok a) = Ok a.
Proof. done. Qed.

Lemma atom_to_bytes_parse a bs suf c :
  bytes_ok a → atom_to_bytes a = Ok bs → remaining c = bs ++ suf →
  ∃ b0 tl, bs = b0 :: tl ∧ byte_ok b0 ∧ b0 < 0xfc ∧
    parse_atom_from_first_byte (advance 1 c) b0 = Ok (Atom a, advance (length bs) c).
Proof.
  intros Ha Hbs Hr.
  assert (Hlong : a ≠ [] → (zlen a = 1 → ∃ b, a = [b] ∧ 0x7f < b) →
    (size ← encode_size (zlen a); Ok (size ++ a)) = Ok bs →
    ∃ b0 tl, bs = b0 :: tl ∧ byte_ok b0 ∧ b0 < 0xfc ∧
      parse_atom_from_first_byte (advance 1 c) b0 = Ok (Atom a, advance (length bs) c)).
  { intros Hne _ He. apply bind_Ok_inv in He as (sz & Hsz & He). apply Ok_inj in He as <-.
    assert (H1 : 1 ≤ zlen a) by (destruct a; [done|rewrite zlen_cons; pose proof (zlen_nonneg a); lia]).
    assert (Hmax : zlen a < MAX_DECODE_SIZE).
    { destruct (Z.lt_ge_cases (zlen a) MAX_DECODE_SIZE); [done|].
      destruct (encode_decode_size (zlen a)) as [_ Hbig]; [lia|]. rewrite Hbig in Hsz; done. }
    destruct (encode_size_first (zlen a)) as (b0 & tl & Hsz' & Hb0 & Hok); [done|].
    rewrite Hsz in Hsz'. apply Ok_inj in Hsz' as ->.
    apply bytes_ok_cons in Hok as [Hok0 _].
    exists b0, (tl ++ a). split_and!; [done|apply Hok0..|lia|].
    destruct (encode_decode_size (zlen a)) as [Hsmall _]; [lia|].
    destruct (Hsmall Hmax) as (b0' & tl' & Hsz' & _ & Hdec). rewrite Hsz in Hsz'.
    apply Ok_inj in Hsz'. injection Hsz' as <- <-.
    rewrite <-app_assoc in Hr. cbn [app] in Hr.
    apply (remaining_app [b0] (tl ++ a ++ suf)) in Hr. cbn [length] in Hr.
    unfold parse_atom_from_first_byte, MAX_SINGLE_BYTE.
    destruct (Z.eqb_spec b0 0x80); [lia|]. destruct (Z.leb_spec b0 0x7f); [lia|].
    rewrite (Hdec _ _ Hr). rewrite from_io_Ok. cbn [mbind res_bind].
    apply remaining_app in Hr.
    destruct (Z.ltb_spec (zlen (remaining (advance (length tl) (advance 1 c)))) (zlen a)) as [Hlt|_].
    { rewrite Hr, zlen_app in Hlt. pose proof (zlen_nonneg suf). lia. }
    rewrite (read_exact_app _ _ _ _ Hr) by (unfold zlen; by rewrite Nat2Z.id).
    rewrite from_io_Ok. cbn [mbind res_bind]. rewrite !advance_advance.
    unfold zlen. rewrite Nat2Z.id. cbn. rewrite length_app. do 3 f_equal; lia. }
  unfold atom_to_bytes in Hbs. destruct a as [|b [|b1 l]].
  - apply Ok_inj in Hbs as <-. exists 0x80, []. by split_and!.
  - apply bytes_ok_cons in Ha as [Hb _]. destruct (Z.leb_spec b MAX_SINGLE_BYTE) as [Hle|Hgt].
    + apply Ok_inj in Hbs as <-. exists b, []. unfold MAX_SINGLE_BYTE in *.
      split_and!; [done|apply Hb..|lia|]. unfold parse_atom_from_first_byte, MAX_SINGLE_BYTE.
      destruct (Z.eqb_spec b 0x80); [lia|]. by destruct (Z.leb_spec b 0x7f); [|lia].
    + apply Hlong; [done| |done]. intros _. by exists b.
  - apply Hlong; [done| |done]. rewrite !zlen_cons. pose proof (zlen_nonneg l). lia.
Qed.

Lemma atom_form_parse a bs suf c :
  bytes_ok a → atom_form a bs → remaining c = bs ++ suf →
  ∃ b0 tl, bs = b0 :: tl ∧ byte_ok b0 ∧ b0 < 0xfc ∧
    parse_atom_from_first_byte (advance 1 c) b0 = Ok (Atom a, advance (length bs) c).
Proof.
  intros Ha [Hto|(b & -> & Hle & ->)] Hr; [by eapply atom_to_bytes_parse|].
  exists 0x81, [b]. split_and!; [done..|]. unfold parse_atom_from_first_byte.
  apply (remaining_app [0x81] (b :: suf)) in Hr. cbn [length] in Hr.
  destruct (encode_decode_size 1 ltac:(lia)) as [Hsmall _].
  destruct (Hsmall eq_refl) as (b0 & tl & Hsz & _ & Hdec).
  apply Ok_inj in Hsz. injection Hsz as <- <-.
  change (wrapu 8 (Z.lor 0x80 1)) with 0x81 in Hdec.
  cbn [Z.eqb Z.leb Z.compare]. rewrite (Hdec _ _ Hr). rewrite from_io_Ok. cbn [mbind res_bind].
  cbn [length]. rewrite advance_0, Hr, zlen_cons.
  destruct (Z.ltb_spec (zlen suf + 1) 1); [pose proof (zlen_nonneg suf); lia|].
  rewrite (read_exact_app _ [b] suf) by done. cbn. by rewrite advance_advance.
Qed.

Lemma exp_step_eq ops vals c b rest :
  remaining c = b :: rest →
  parse_step Exp ops vals c =
    if b =? CONS_BOX_MARKER then Ok (Exp :: Exp :: PCons :: ops, vals, advance 1 c)
    else '(v, c') ← parse_atom_from_first_byte (advance 1 c) b; Ok (ops, v :: vals, c').
Proof.
  intros Hr. cbn [parse_step]. rewrite Hr, zlen_cons.
  destruct (Z.eqb_spec (zlen rest + 1) 0); [pose proof (zlen_nonneg rest); lia|].
  rewrite (read_exact_app 1 [b] rest) by done. done.
Qed.

Lemma parse_loop_enc s bs suf c :
  canon_enc s bs → remaining c = bs ++ suf →
  (1 ≤ length bs)%nat ∧
  ∃ k, (k + 1 ≤ 2 * length bs)%nat ∧
    ∀ fuel ops vals, parse_loop (k + fuel) (Exp :: ops) vals c =
                     parse_loop fuel ops (s :: vals) (advance (length bs) c).
Proof.
  revert bs suf c. induction s as [a|f IHf r IHr]; intros bs suf c Henc Hr.
  - destruct Henc as [Hok Henc].
    destruct (atom_form_parse a bs suf c Hok Henc Hr) as (b0 & tl & -> & Hb & Hlt & Hp).
    split; [cbn; lia|]. exists 1%nat. split; [cbn; lia|]. intros fuel ops vals.
    change (1 + fuel)%nat with (S fuel). cbn [parse_loop]. rewrite (exp_step_eq _ _ _ _ _ Hr).
    unfold CONS_BOX_MARKER. destruct (Z.eqb_spec b0 0xff); [lia|]. by rewrite Hp.
  - destruct Henc as (bf & br & -> & Hbf & Hbr).
    cbn [app] in Hr. rewrite <-app_assoc in Hr.
    pose proof (remaining_app [CONS_BOX_MARKER] _ _ Hr) as Hr1. cbn [length] in Hr1.
    destruct (IHf bf (br ++ suf) (advance 1 c) Hbf Hr1) as (Hl1 & k1 & Hk1 & H1).
    apply remaining_app in Hr1.
    destruct (IHr br suf _ Hbr Hr1) as (Hl2 & k2 & Hk2 & H2).
    cbn [length]. rewrite length_app. split; [lia|].
    exists (1 + (k1 + (k2 + 1)))%nat. split; [lia|]. intros fuel ops vals.
    replace (1 + (k1 + (k2 + 1)) + fuel)%nat with (S (k1 + (k2 + S fuel))) by lia.
    cbn [parse_loop]. rewrite (exp_step_eq _ _ _ _ _ Hr). rewrite Z.eqb_refl.
    cbn [mbind res_bind]. rewrite H1, H2. cbn [parse_loop parse_step mbind res_bind].
    rewrite !advance_advance. do 2 f_equal; lia.
Qed.

Lemma parse_canon s bs suf c :
  canon_enc s bs → remaining c = bs ++ suf →
  sexp_from_bytes c = Ok (s, advance (length bs) c).
Proof.
  intros Henc Hr. destruct (parse_loop_enc s bs suf c Henc Hr) as (Hl & k & Hk & H).
  unfold sexp_from_bytes. rewrite Hr, zlen_app, length_app.
  pose proof (zlen_nonneg suf). unfold zlen at 1.
  destruct (Z.eqb_spec (Z.of_nat (length bs) + zlen suf) 0); [lia|].
  replace (2 * (length bs + length suf) + 3)%nat with
    (k + S (2 * (length bs + length suf) + 3 - k - 1))%nat by lia.
  by rewrite H.
Qed.

(** C28: parsing the serialization of a tree returns the tree and stops right
    after it. *)
Theorem parser_roundtrip s bs suf c :
  sexp_ok s → sexp_to_bytes s = Ok bs → remaining c = bs ++ suf →
  sexp_from_bytes c = Ok (s, advance (length bs) c).
Proof. rewrite sexp_to_bytes_enc. eauto using parse_canon, enc_canon. Qed.

Lemma parser_roundtrip_witness :
  sexp_from_bytes (Cursor [0xff; 0x05; 0xff; 0x82; 0x01; 0x00; 0x80; 0x33] 0) =
  Ok (Pair (Atom [5]) (Pair (Atom [1; 0]) (Atom [])),
      Cursor [0xff; 0x05; 0xff; 0x82; 0x01; 0x00; 0x80; 0x33] 7).
Proof.
  apply (parser_roundtrip (Pair (Atom [5]) (Pair (Atom [1; 0]) (Atom [])))
           [0xff; 0x05; 0xff; 0x82; 0x01; 0x00; 0x80] [0x33]); [|reflexivity|reflexivity].
  cbn. split_and!; apply bytes_okb_spec; reflexivity.
Defined.

(** ** The parser always answers *)
Lemma read_exact_progress n c bs c' :
  read_exact n c = Ok (bs, c') → length (remaining c') = (length (remaining c) - n)%nat.
Proof.
  intros (suf & Hr & Hl & ->)%read_exact_inv. rewrite remaining_advance, length_drop. lia.
Qed.

Lemma decode_size_progress b c v c' :
  decode_size b c = Ok (v, c') → (length (remaining c') ≤ length (remaining c))%nat.
Proof.
  unfold decode_size. case_match; [done|].
  destruct (prefix_loop _ _ _ _) as [cnt b']. intros Hd.
  apply bind_Ok_inv in Hd as ([tl c1] & Ht & Hd). case_decide; [done|].
  destruct (_ <=? _); [done|]. injection Hd as <- <-.
  case_decide; [apply read_exact_progress in Ht; lia|by injection Ht as <- <-].
Qed.

Lemma decode_size_no_panic b c : decode_size b c ≠ Panic.
Proof.
  unfold decode_size. case_match; [done|].
  destruct (prefix_loop _ _ _ _) as [cnt b']. unfold read_exact.
  repeat (case_decide; cbn; try done); destruct (_ <=? _); done.
Qed.

Lemma parse_atom_progress c b v c' :
  parse_atom_from_first_byte c b = Ok (v, c') →
  (length (remaining c') ≤ length (remaining c))%nat ∧ ∃ a, v = Atom a.
Proof.
  unfold parse_atom_from_first_byte.
  destruct (_ =? _); [intros [= <- <-]; eauto|]. destruct (_ <=? _); [intros [= <- <-]; eauto|].
  intros Hd. apply bind_Ok_inv in Hd as ([sz c1] & Hd1 & Hd).
  destruct (_ <? _); [done|]. apply bind_Ok_inv in Hd as ([bl c2] & Hd2 & [= <- <-]).
  split; [|eauto].
  destruct (decode_size b c) as [[? ?]| |] eqn:E1; try done. apply Ok_inj in Hd1 as [= -> ->].
  destruct (read_exact _ c1) as [[? ?]| |] eqn:E2; try done. apply Ok_inj in Hd2 as [= -> ->].
  apply decode_size_progress in E1. apply read_exact_progress in E2. lia.
Qed.

Lemma parse_atom_no_panic c b : parse_atom_from_first_byte c b ≠ Panic.
Proof.
  unfold parse_atom_from_first_byte. repeat (case_match; [done|]).
  pose proof (decode_size_no_panic b c). destruct (decode_size b c) as [[sz c1]| |]; try done.
  cbn. case_match; [done|]. unfold read_exact. by case_decide.
Qed.

Fixpoint pending_cons (ops : list ParserOp) : nat :=
  match ops with
  | [] => 0
  | PCons :: ops => S (pending_cons ops)
  | Exp :: ops => pending_cons ops
  end.

Lemma parse_step_progress op ops vals c :
  match parse_step op ops vals c with
  | Ok (ops', vals', c') =>
      (2 * length (remaining c') + pending_cons ops' <
       2 * length (remaining c) + pending_cons (op :: ops))%nat
  | Err _ => True
  | Panic => False
  end.
Proof.
  destruct op.
  - destruct (remaining c) as [|b rest] eqn:Hr; [cbn; by rewrite Hr|].
    rewrite (exp_step_eq _ _ _ _ _ Hr). cbn [length].
    assert (Hadv : length (remaining (advance 1 c)) = length rest)
      by (by rewrite remaining_advance, Hr).
    destruct (_ =? _).
    + rewrite Hadv. cbn; lia.
    + pose proof (parse_atom_no_panic (advance 1 c) b).
      destruct (parse_atom_from_first_byte _ b) as [[v c']| |] eqn:E; cbn; try done.
      apply parse_atom_progress in E as [E _]. rewrite Hadv in E.
      cbn; lia.
  - cbn. destruct vals as [|v1 [|v2 vals]]; try done. cbn; lia.
Qed.

Lemma parse_loop_total fuel ops vals c :
  (2 * length (remaining c) + pending_cons ops < fuel)%nat →
  parse_loop fuel ops vals c ≠ Panic.
Proof.
  revert ops vals c. induction fuel as [|fuel IH]; intros ops vals c Hf; [lia|].
  cbn [parse_loop]. destruct ops as [|op ops]; [by destruct vals|].
  pose proof (parse_step_progress op ops vals c) as Hp.
  destruct (parse_step op ops vals c) as [[[ops' vals'] c']| |]; cbn; try done.
  apply IH. lia.
Qed.

(** on every byte string the parser terminates with a tree or an error:
    its fuel is always enough and it never panics. *)
Theorem parser_total c : sexp_from_bytes c ≠ Panic.
Proof.
  unfold sexp_from_bytes. destruct (_ =? _); [done|].
  apply parse_loop_total. cbn. lia.
Qed.

(** * Canonical serializations *)
Lemma prefix_value_spec clvm off n acc :
  bytes_ok clvm → 0 ≤ acc →
  prefix_value clvm off n acc =
    if decide (off + n ≤ length clvm)%nat
    then Some (acc * 256 ^ Z.of_nat n + from_be (take n (drop off clvm)))
    else if decide (n = 0)%nat then Some acc else None.
Proof.
  intros Hb. revert off acc. induction n as [|n IH]; intros off acc Ha.
  - cbn [prefix_value]. rewrite take_0. change (from_be []) with 0.
    replace (acc * 256 ^ Z.of_nat 0 + 0) with acc by (cbn; lia). by case_decide.
  - cbn [prefix_value]. destruct (clvm !! off) as [b|] eqn:Hoff.
    + assert (Hb0 : byte_ok b) by (eapply Forall_lookup_1; done).
      rewrite lor_shift_byte by done. unfold byte_ok in Hb0. rewrite IH by lia.
      pose proof (lookup_lt_Some _ _ _ Hoff).
      destruct (decide (off + S n ≤ length clvm)%nat), (decide (S off + n ≤ length clvm)%nat); try lia.
      * rewrite (drop_S _ _ _ Hoff). cbn [take]. rewrite from_be_cons.
        unfold zlen. rewrite length_take, length_drop.
        replace (n `min` (length clvm - S off))%nat with n by lia.
        replace (Z.of_nat (S n)) with (Z.of_nat n + 1) by lia.
        rewrite Z.pow_add_r by lia. f_equal. lia.
      * destruct (decide (n = 0)%nat); [lia|]. done.
    + apply lookup_ge_None in Hoff. rewrite decide_False by lia. done.
Qed.

(** [atom_end] accepts these serializations of long atoms and nothing else (in
    a buffer shorter than 2^34 bytes). *)
Lemma atom_end_enc clvm off b off' :
  bytes_ok clvm → clvm !! off = Some b → 0x80 < b < 0xfe → zlen clvm < MAX_DECODE_SIZE →
  atom_end clvm off b = Some off' → (off' ≤ length clvm)%nat →
  (off < off')%nat ∧ ∃ a, bytes_ok a ∧
    atom_form a (take (off' - off) (drop off clvm)).
Proof.
  intros Hb Hoff Hr Hmax Hend Hle. assert (Hb0 : byte_ok b) by (eapply Forall_lookup_1; done).
  pose proof (lookup_lt_Some _ _ _ Hoff) as Hlt. unfold atom_end in Hend.
  destruct (decide (b < 0xfc)) as [Hfc|Hfc].
  2:{ exfalso. assert (Hform : prefix_form b = (5%nat, 0x01, 2 ^ 34)).
      { assert (b = 0xfc ∨ b = 0xfd) as [-> | ->] by lia; done. }
      rewrite Hform in Hend. destruct (prefix_value _ _ _ _) as [v|]; [|done].
      destruct (Z.ltb_spec v (2 ^ 34)); [done|]. destruct (_ <? _); [|done].
      injection Hend as <-. unfold zlen, MAX_DECODE_SIZE in Hmax. lia. }
  destruct (byte_form b Hb0) as (h & lim & n & mask & mn & Hin & Hform & Hbeq & Hx); [lia|].
  rewrite Hform in Hend. set (x := Z.land b mask) in *.
  rewrite prefix_value_spec in Hend by (done || lia).
  assert (Hcase : (off + 1 + n ≤ length clvm)%nat).
  { destruct (decide (off + 1 + n ≤ length clvm)%nat); [done|].
    destruct (decide (n = 0%nat)); [lia|done]. }
  rewrite decide_True in Hend by done.
  set (tl := take n (drop (off + 1) clvm)) in *.
  set (v := x * 256 ^ Z.of_nat n + from_be tl) in *.
  assert (Htl : bytes_ok tl) by (by apply Forall_take, Forall_drop).
  assert (Hlen : length tl = n) by (unfold tl; rewrite length_take, length_drop; lia).
  pose proof (from_be_bounds tl Htl) as Hbd. unfold zlen in Hbd. rewrite Hlen in Hbd.
  destruct (Z.ltb_spec v mn) as [|Hmn]; [done|]. destruct (_ <? _); [|done].
  injection Hend as Hend.
  assert (Hv : mn ≤ v < 256 ^ Z.of_nat n * Z.of_nat lim) by (unfold v in *; nia).
  assert (Hsc : size_class h n v = b :: tl).
  { destruct (size_class_split _ _ _ _ _ _ Hin Hv) as (-> & _ & _).
    assert (v / 256 ^ Z.of_nat n = x) as ->.
    { unfold v. rewrite Z.div_add_l by lia. rewrite Z.div_small by lia. lia. }
    rewrite <-Hbeq. f_equal.
    assert (Hmod : ∀ m y z, to_be m (y * 256 ^ Z.of_nat m + z) = to_be m z).
    { clear. induction m as [|m IH]; intros y z; [done|]. cbn [to_be].
      replace (Z.of_nat (S m)) with (Z.of_nat m + 1) by lia. rewrite Z.pow_add_r, Z.pow_1_r by lia.
      replace (y * (256 ^ Z.of_nat m * 256) + z) with (z + (y * 256 ^ Z.of_nat m) * 256) by lia.
      rewrite Z.div_add, Z.mod_add by lia. f_equal. rewrite Z.add_comm. apply IH. }
    unfold v. rewrite Hmod, <-Hlen. by apply to_be_from_be. }
  assert (Hpos : 1 ≤ mn) by
    (unfold forms in Hin; repeat (apply elem_of_cons in Hin as [[= -> -> -> -> ->]|Hin]);
      [lia..|by apply elem_of_nil in Hin]).
  split; [lia|]. set (a := take (Z.to_nat v) (drop (off + 1 + n) clvm)). exists a.
  assert (Ha : bytes_ok a) by (by apply Forall_take, Forall_drop).
  assert (Hal : zlen a = v) by (unfold a, zlen; rewrite length_take, length_drop; lia).
  split; [done|].
  assert (Hlong : (size ← encode_size (zlen a); Ok (size ++ a)) =
                  Ok (take (off' - off) (drop off clvm))).
  { rewrite Hal, (form_encode _ _ _ _ _ _ Hin Hv), Hsc. cbn [mbind res_bind]. f_equal.
    rewrite (drop_S _ _ _ Hoff). replace (off' - off)%nat with (S (n + Z.to_nat v)) by lia.
    cbn [take app]. f_equal. replace (S off) with (off + 1)%nat by lia.
    rewrite <-take_take_drop, drop_drop. done. }
  unfold atom_form, atom_to_bytes. destruct a as [|a0 [|a1 a]].
  - change (zlen []) with 0 in Hal. lia.
  - destruct (Z.leb_spec a0 MAX_SINGLE_BYTE); [|by left]. right. exists a0.
    split_and!; [done..|]. by apply Ok_inj in Hlong as <-.
  - by left.
Qed.

Lemma zlen_pos_nonempty {A} (l : list A) : l ≠ [] → 1 ≤ zlen l.
Proof. destruct l; [done|]. rewrite zlen_cons. pose proof (zlen_nonneg l). lia. Qed.

(** The shape of an atom's serialization: one byte up to [0x80], or a length
    prefix that [atom_end] reads. *)
Lemma atom_form_cases clvm off a bs suf :
  bytes_ok clvm → bytes_ok a → zlen clvm < MAX_DECODE_SIZE →
  atom_form a bs → drop off clvm = bs ++ suf →
  ∃ b tl, bs = b :: tl ∧ b < 0xfe ∧
    (if b <=? 0x80 then Some (off + 1)%nat else atom_end clvm off b) =
      Some (off + length bs)%nat.
Proof.
  intros Hb Ha Hmax Hform Hdrop.
  assert (Hlong : ∀ b sz, a ≠ [] → encode_size (zlen a) = Ok (b :: sz) → bs = b :: sz ++ a →
    ∃ b tl, bs = b :: tl ∧ b < 0xfe ∧
      (if b <=? 0x80 then Some (off + 1)%nat else atom_end clvm off b) =
        Some (off + length bs)%nat).
  { intros b sz Hne Hsz ->.
    assert (Hlen : zlen (drop off clvm) ≤ zlen clvm)
      by (unfold zlen; rewrite length_drop; lia).
    rewrite Hdrop, zlen_app, zlen_cons, zlen_app in Hlen.
    pose proof (zlen_pos_nonempty a Hne). pose proof (zlen_nonneg sz). pose proof (zlen_nonneg suf).
    destruct (form_exists (zlen a)) as (h & lim & n & mask & mn & Hin & Hr); [lia|].
    rewrite (form_encode _ _ _ _ _ _ Hin Hr) in Hsz.
    destruct (size_class_split _ _ _ _ _ _ Hin Hr) as (Hsc & Hx & Hnz).
    rewrite Hsc in Hsz. apply Ok_inj in Hsz. injection Hsz as <- <-.
    destruct (form_header _ _ _ _ _ _ Hin Hx Hnz) as (Hform' & Hland & Hbr).
    set (b := wrapu 8 _) in *. eexists b, _. split_and!; [done|lia|].
    destruct (Z.leb_spec b 0x80); [lia|]. unfold atom_end. rewrite Hform'.
    rewrite prefix_value_spec by (done || (rewrite Hland; lia)). rewrite Hland.
    assert (Hoffl : (off + S (n + length a) ≤ length clvm)%nat).
    { assert (Hl2 : (1 ≤ length (drop off clvm))%nat) by (rewrite Hdrop; cbn; lia).
      rewrite length_drop in Hl2. apply (f_equal length) in Hdrop.
      rewrite length_drop, length_app in Hdrop. cbn in Hdrop.
      rewrite length_app, length_to_be in Hdrop. lia. }
    rewrite decide_True by lia.
    assert (Htake : take n (drop (off + 1) clvm) = to_be n (zlen a)).
    { rewrite <-drop_drop, Hdrop. cbn [drop app]. rewrite <-app_assoc.
      by rewrite drop_0, take_app_length' by (by rewrite length_to_be). }
    rewrite Htake, from_be_to_be.
    rewrite Z.mul_comm, <-Z.div_mod by (apply Z.pow_nonzero; lia).
    destruct (Z.ltb_spec (zlen a) mn); [lia|].
    unfold MAX_DECODE_SIZE, zlen in Hmax.
    destruct (Z.ltb_spec (Z.of_nat off + (1 + Z.of_nat n + zlen a)) (2 ^ 64)); [|unfold zlen in *; lia].
    f_equal. cbn [length]. rewrite length_app, length_to_be. unfold zlen. lia. }
  destruct Hform as [Hto|(b & -> & Hle & ->)].
  - unfold atom_to_bytes in Hto. destruct a as [|a0 [|a1 a]].
    + apply Ok_inj in Hto as <-. by exists 0x80, [].
    + destruct (Z.leb_spec a0 MAX_SINGLE_BYTE) as [Hle|Hgt].
      * apply Ok_inj in Hto as <-. exists a0, []. unfold MAX_SINGLE_BYTE in Hle.
        split_and!; [done|lia|]. by destruct (Z.leb_spec a0 0x80); [|lia].
      * apply bind_Ok_inv in Hto as (sz & Hsz & Hto). apply Ok_inj in Hto as <-.
        destruct sz as [|b sz]; [by apply Ok_inj in Hsz|]. by apply (Hlong b sz).
    + apply bind_Ok_inv in Hto as (sz & Hsz & Hto). apply Ok_inj in Hto as <-.
      destruct sz as [|b sz].
      * exfalso. unfold encode_size in Hsz. repeat case_match; done.
      * by apply (Hlong b sz).
  - by apply (Hlong 0x81 []).
Qed.

Fixpoint canon_encs (ss : list SExp) (bs : list Z) : Prop :=
  match ss with
  | [] => bs = []
  | s :: ss => ∃ b1 b2, bs = b1 ++ b2 ∧ canon_enc s b1 ∧ canon_encs ss b2
  end.

Lemma canonical_loop_sound clvm fuel off t :
  bytes_ok clvm → zlen clvm < MAX_DECODE_SIZE → 1 ≤ t →
  canonical_loop fuel clvm off t = true →
  ∃ ss, zlen ss = t ∧ canon_encs ss (drop off clvm).
Proof.
  intros Hb Hmax. revert off t. induction fuel as [|fuel IH]; intros off t Ht; [done|].
  cbn [canonical_loop]. destruct (clvm !! off) as [b|] eqn:Hoff; [|done].
  assert (Hb0 : byte_ok b) by (eapply Forall_lookup_1; done). unfold byte_ok in Hb0.
  pose proof (lookup_lt_Some _ _ _ Hoff) as Hlt. rewrite (drop_S _ _ _ Hoff).
  destruct (Z.eqb_spec b 0xFF) as [->|Hff].
  { intros Hl. apply IH in Hl as (ss & Hlen & Hss); [|lia].
    replace (off + 1)%nat with (S off) in Hss by lia.
    destruct ss as [|f [|r ss]]; rewrite ?zlen_cons in Hlen; unfold zlen in Hlen; simpl in Hlen; try lia.
    destruct Hss as (bf & b2 & Heq & Hf & br & b3 & -> & Hr & Hss).
    exists (Pair f r :: ss). split; [rewrite zlen_cons; unfold zlen; lia|].
    exists (0xff :: bf ++ br), b3. split_and!; [cbn; by rewrite Heq, <-app_assoc| |done].
    by exists bf, br. }
  destruct (Z.eqb_spec b 0xFE) as [|Hfe]; [done|].
  set (next := if b <=? 0x80 then _ else _).
  destruct next as [off'|] eqn:Hnext; [|done]. intros Hl.
  assert (Hle : (off' ≤ length clvm)%nat).
  { destruct (_ =? _); [apply bool_decide_eq_true in Hl; lia|].
    destruct fuel; [done|]. cbn in Hl. destruct (clvm !! off') eqn:E; [|done].
    apply lookup_lt_Some in E. lia. }
  assert (Hatom : (off < off')%nat ∧ ∃ a, bytes_ok a ∧
            atom_form a (take (off' - off) (drop off clvm))).
  { subst next. destruct (Z.leb_spec b 0x80) as [Hsm|Hbig].
    - injection Hnext as <-. split; [lia|].
      replace (off + 1 - off)%nat with 1%nat by lia. rewrite (drop_S _ _ _ Hoff). cbn [take].
      destruct (Z.eq_dec b 0x80) as [->|].
      + exists []. split; [constructor|by left].
      + exists [b]. split; [apply bytes_ok_cons; split; [done|apply bytes_ok_nil]|]. left. cbn.
        unfold MAX_SINGLE_BYTE. by destruct (Z.leb_spec b 0x7f); [|lia].
    - apply (atom_end_enc clvm off b off'); try done; lia. }
  destruct Hatom as (Hlt' & a & Ha & Hform).
  assert (Hsplit : b :: drop (S off) clvm =
                   take (off' - off) (drop off clvm) ++ drop off' clvm).
  { rewrite <-(drop_S _ _ _ Hoff). rewrite <-(take_drop (off' - off) (drop off clvm)) at 1.
    rewrite drop_drop. do 2 f_equal. lia. }
  rewrite Hsplit. destruct (Z.eqb_spec (t - 1) 0) as [Ht0|Ht0].
  - apply bool_decide_eq_true in Hl. exists [Atom a]. split; [by rewrite zlen_cons, zlen_nil; lia|].
    eexists _, _. split_and!; [done|done|]. cbn. rewrite Hl. apply drop_all.
  - apply IH in Hl as (ss & Hlen & Hss); [|lia]. exists (Atom a :: ss).
    split; [rewrite zlen_cons; lia|]. eexists _, _. by split_and!.
Qed.

Lemma canonical_loop_complete clvm fuel off ss :
  bytes_ok clvm → zlen clvm < MAX_DECODE_SIZE → ss ≠ [] →
  canon_encs ss (drop off clvm) → (length (drop off clvm) ≤ fuel)%nat →
  canonical_loop fuel clvm off (zlen ss) = true.
Proof.
  intros Hb Hmax. revert off ss. induction fuel as [|fuel IH]; intros off ss Hne Hss Hf.
  { destruct ss as [|s ss]; [done|]. destruct Hss as (b1 & b2 & Heq & Hs & _).
    assert (b1 = []) as ->.
    { apply length_zero_iff_nil. rewrite Heq, length_app in Hf. lia. }
    destruct s as [a|f r]; [|by destruct Hs as (? & ? & ? & _)].
    destruct Hs as [_ Hform]. exfalso. destruct Hform as [Hto|(? & _ & _ & ?)]; [|done].
    unfold atom_to_bytes in Hto. destruct a as [|a0 [|a1 a]]; [done|case_match; [done|]|];
      apply bind_Ok_inv in Hto as (sz & _ & Hto); apply Ok_inj in Hto;
      by apply app_eq_nil in Hto as [_ ?]. }
  destruct ss as [|s ss]; [done|]. destruct Hss as (b1 & b2 & Heq & Hs & Hss).
  cbn [canonical_loop]. destruct s as [a|f r].
  - destruct Hs as [Ha Hform].
    destruct (atom_form_cases clvm off a b1 b2 Hb Ha Hmax Hform Heq) as (b & tl & -> & Hlt & Hnext).
    assert (Hoff : clvm !! off = Some b).
    { rewrite <-(Nat.add_0_r off), <-lookup_drop, Heq. done. }
    rewrite Hoff. destruct (Z.eqb_spec b 0xFF); [lia|]. destruct (Z.eqb_spec b 0xFE); [lia|].
    rewrite Hnext. rewrite zlen_cons.
    assert (Hrest : drop (off + length (b :: tl)) clvm = b2).
    { rewrite <-drop_drop, Heq. by rewrite drop_app_length. }
    pose proof (lookup_lt_Some _ _ _ Hoff).
    assert (Hlen : length (drop off clvm) = (length (b :: tl) + length b2)%nat)
      by (by rewrite Heq, length_app).
    replace (zlen ss + 1 - 1) with (zlen ss) by lia.
    destruct (Z.eqb_spec (zlen ss) 0) as [Hz|Hz].
    + apply zlen_0 in Hz as ->. cbn in Hss. subst b2. apply bool_decide_eq_true.
      rewrite length_drop in Hlen. cbn [length] in *. lia.
    + apply IH; [by intros ->|by rewrite Hrest|]. rewrite Hrest. cbn [length] in *. lia.
  - destruct Hs as (bf & br & -> & Hf' & Hr').
    assert (Hoff : clvm !! off = Some 0xff).
    { rewrite <-(Nat.add_0_r off), <-lookup_drop, Heq. done. }
    rewrite Hoff, Z.eqb_refl, zlen_cons.
    assert (Hrest : drop (off + 1) clvm = bf ++ br ++ b2).
    { rewrite <-drop_drop, Heq. cbn. by rewrite <-app_assoc. }
    replace (zlen ss + 1 + 1) with (zlen (f :: r :: ss)) by (rewrite !zlen_cons; lia).
    apply IH; [done| |].
    + rewrite Hrest. exists bf, (br ++ b2). split_and!; [done..|]. by exists br, b2.
    + rewrite Hrest. rewrite Heq in Hf. cbn in Hf. rewrite !length_app in *. lia.
Qed.

Lemma canonical_encs clvm :
  bytes_ok clvm → zlen clvm < MAX_DECODE_SIZE →
  is_clvm_canonical clvm = true ↔ ∃ s, canon_enc s clvm.
Proof.
  intros Hb Hmax. unfold is_clvm_canonical. destruct clvm as [|b l] eqn:Hc.
  - split; [done|]. intros (s & Hs).
    assert (H : canonical_loop 0 [] 0 (zlen [s]) = true); [|done].
    apply canonical_loop_complete; [constructor|done..| |cbn; lia].
    exists [], []. by split_and!.
  - rewrite <-Hc in *. split.
    + intros (ss & Hlen & Hss)%canonical_loop_sound; [|done..|lia].
      destruct ss as [|s [|]]; rewrite ?zlen_cons in Hlen; unfold zlen in Hlen; simpl in Hlen; try lia.
      destruct Hss as (b1 & b2 & Heq & Hs & ->). rewrite drop_0, app_nil_r in Heq.
      exists s. by rewrite Heq.
    + intros (s & Hs). change 1 with (zlen [s]).
      apply canonical_loop_complete; [done..| |rewrite drop_0; lia].
      rewrite drop_0. exists clvm, []. by rewrite app_nil_r.
Qed.



(** a canonical buffer is not unique for its tree: a single byte below
    [0x80] is also accepted behind the length prefix [0x81], although the
    writer never produces that form. *)
Theorem canonical_single_byte b :
  0 ≤ b ≤ MAX_SINGLE_BYTE →
  is_clvm_canonical [0x81; b] = true ∧
  sexp_from_bytes (Cursor [0x81; b] 0) = Ok (Atom [b], Cursor [0x81; b] 2) ∧
  sexp_to_bytes (Atom [b]) = Ok [b].
Proof.
  unfold MAX_SINGLE_BYTE. intros Hb.
  assert (Hok : byte_ok b) by (unfold byte_ok; lia).
  assert (Hc : canon_enc (Atom [b]) [0x81; b]).
  { split; [apply bytes_ok_cons; split; [done|apply bytes_ok_nil]|]. right. exists b.
    split_and!; [done|unfold MAX_SINGLE_BYTE; lia|done]. }
  split_and!.
  - apply canonical_encs; [|by vm_compute|by eexists].
    rewrite !bytes_ok_cons. split_and!; [by vm_compute|done|apply bytes_ok_nil].
  - by rewrite (parse_canon (Atom [b]) [0x81; b] []) by done.
  - rewrite sexp_to_bytes_enc. cbn. unfold MAX_SINGLE_BYTE.
    destruct (Z.leb_spec b 0x7f); [done|lia].
Qed.

Lemma canonical_single_byte_witness :
  is_clvm_canonical [0x81; 0x05] = true ∧
  sexp_from_bytes (Cursor [0x81; 0x05] 0) = Ok (Atom [0x05], Cursor [0x81; 0x05] 2) ∧
  sexp_to_bytes (Atom [0x05]) = Ok [0x05].
Proof. apply (canonical_single_byte 0x05). by vm_compute. Defined.

(** * Back-references *)

(** The list a back-reference path starts from: the values parsed so far, the
    latest first. *)
Definition stack_sexp (values : value_buf) : SExp :=
  foldl (λ acc v, Pair v.1 acc) NULL_SEXP values.

(** A cached list is the list of the values up to its own. *)
Definition caches_ok (values : value_buf) : Prop :=
  ∀ i v c, values !! i = Some (v, Some c) → c = stack_sexp (take (S i) values).

Lemma stack_sexp_S values i v :
  values !! i = Some v →
  stack_sexp (take (S i) values) = Pair v.1 (stack_sexp (take i values)).
Proof.
  intros Hi. rewrite (take_S_r _ _ _ Hi). unfold stack_sexp. by rewrite foldl_app.
Qed.

Section traverse.
Variable values : value_buf.

Definition backref_den (st : backref_state) : SExp :=
  if parsing_sexp st then current st else stack_sexp (take (S (stack_index st)) values).
Definition backref_ok (st : backref_state) : Prop :=
  parsing_sexp st = true ∨ (stack_index st < length values)%nat.

Lemma backref_step_spec st b :
  backref_ok st →
  match backref_den st with
  | Atom _ => backref_step values b st = Err SerializationError
  | Pair f r => ∃ st', backref_step values b st = Ok st' ∧ backref_ok st' ∧
                  backref_den st' = if b then r else f
  end.
Proof.
  destruct st as [[] i cur]; unfold backref_den, backref_ok, backref_step; cbn; intros Hok.
  - destruct cur as [a|f r]; [done|]. eexists. split_and!; [done|by left|done].
  - destruct Hok as [|Hi]; [done|]. destruct (lookup_lt_is_Some_2 _ _ Hi) as [v Hv].
    rewrite (stack_sexp_S _ _ _ Hv). destruct b.
    + destruct i as [|i]; eexists; split_and!; try done; cbn; [by left|right; lia].
    + rewrite Hv. eexists. split_and!; [done|by left|done].
Qed.

Lemma backref_walk p st :
  backref_ok st →
  match follow p (backref_den st) with
  | Some s => ∃ st', walk_pos (backref_step values) p st = Ok st' ∧ backref_ok st' ∧
                backref_den st' = s
  | None => walk_pos (backref_step values) p st = Err SerializationError
  end.
Proof.
  revert st. induction p as [p IH|p IH|]; intros st Hok; cbn [follow walk_pos].
  - pose proof (backref_step_spec st true Hok) as Hs.
    destruct (backref_den st) as [a|f r]; [by rewrite Hs|].
    destruct Hs as (st' & -> & Hok' & <-). by apply IH.
  - pose proof (backref_step_spec st false Hok) as Hs.
    destruct (backref_den st) as [a|f r]; [by rewrite Hs|].
    destruct Hs as (st' & -> & Hok' & <-). by apply IH.
  - by exists st.
Qed.
End traverse.

Lemma build_stack_list_spec pre values n s values' :
  caches_ok (pre ++ values) →
  build_stack_list values n (stack_sexp pre) = (s, values') →
  s = stack_sexp (pre ++ take n values) ∧ values'.*1 = values.*1 ∧
  caches_ok (pre ++ values').
Proof.
  revert pre values s values'. induction n as [|n IH]; intros pre values s values' Hc Hb.
  { destruct values; injection Hb as <- <-;
      (split_and!; [by rewrite take_0, app_nil_r|done|done]). }
  destruct values as [|[v cached] values].
  { injection Hb as <- <-. split_and!; [by rewrite take_nil, app_nil_r|done|done]. }
  assert (Hnext : Pair v (stack_sexp pre) = stack_sexp (pre ++ [(v, cached)])).
  { unfold stack_sexp. by rewrite foldl_app. }
  assert (Hcached : match cached with Some c => c | None => Pair v (stack_sexp pre) end =
                    Pair v (stack_sexp pre)).
  { destruct cached as [c|]; [|done].
    rewrite (Hc (length pre) v c) by (by apply list_lookup_middle).
    rewrite Hnext. f_equal. rewrite take_app_ge by lia.
    by replace (S (length pre) - length pre)%nat with 1%nat by lia. }
  assert (Hext : build_stack_list ((v, cached) :: values) (S n) (stack_sexp pre) =
    let '(s, vs) := build_stack_list values n (Pair v (stack_sexp pre)) in
    (s, (v, Some (Pair v (stack_sexp pre))) :: vs)).
  { cbn. destruct cached as [c|]; [by rewrite Hcached|done]. }
  rewrite Hext in Hb. destruct (build_stack_list values n _) as [s1 vs] eqn:Hrec.
  injection Hb as <- <-. set (e := (v, Some (Pair v (stack_sexp pre)))).
  assert (Hsame : stack_sexp (pre ++ [e]) = stack_sexp (pre ++ [(v, cached)]))
    by (unfold stack_sexp; by rewrite !foldl_app).
  rewrite Hnext, <-Hsame in Hrec. apply IH in Hrec as (Hs & Hfst & Hok).
  - rewrite <-!app_assoc in *. cbn [app] in *. split_and!; [|cbn; by rewrite Hfst|done].
    rewrite Hs. cbn [take]. unfold stack_sexp. by rewrite !foldl_app.
  - rewrite <-app_assoc. cbn [app]. intros i u c Hi.
    destruct (Nat.lt_ge_cases i (length pre)) as [Hlt|Hge].
    + rewrite lookup_app_l in Hi by done.
      rewrite (Hc i u c) by (by rewrite lookup_app_l). by rewrite !take_app_le by lia.
    + rewrite lookup_app_r in Hi by done.
      destruct (i - length pre)%nat as [|k] eqn:Hk.
      * injection Hi as <- <-. rewrite take_app_ge by lia.
        replace (S i - length pre)%nat with 1%nat by lia. cbn. rewrite take_0.
        unfold stack_sexp. by rewrite foldl_app.
      * cbn in Hi. rewrite (Hc i u c) by (rewrite lookup_app_r, Hk by done; done).
        rewrite !take_app_ge by lia. replace (S i - length pre)%nat with (S (S k)) by lia.
        cbn [take]. unfold stack_sexp. by rewrite !foldl_app.
Qed.

Lemma backref_resolves values path :
  bytes_ok path → caches_ok values →
  match path_lookup (from_be path) (stack_sexp values) with
  | Some s => ∃ values', traverse_backref_path values path = Ok (s, values') ∧
                values'.*1 = values.*1 ∧ caches_ok values'
  | None => traverse_backref_path values path = Err SerializationError
  end.
Proof.
  intros Hp Hc. unfold traverse_backref_path. pose proof (first_non_zero_le path).
  pose proof (first_non_zero_all path Hp) as Hall. pose proof (from_be_bounds path Hp).
  case_bool_decide as Hle.
  { assert (from_be path = 0) as -> by (apply Hall; lia). cbn. by exists values. }
  assert (Hne : first_non_zero path ≠ length path) by lia.
  destruct (from_be path) as [|p|p] eqn:Hn; [exfalso; tauto| |lia]. cbn [path_lookup].
  rewrite (path_walk_start _ path) by (done ||
    (intros b Hb; rewrite Hb; cbn;
     destruct (from_be_first path Hne) as (b' & _ & Hb' & Hnz & _);
     assert (b' = b) as -> by congruence;
     assert (Hok : byte_ok b) by (by eapply Forall_lookup_1);
     assert (Ht : (b =? 0) || (Z.shiftr 0x80 (8 - bit_length b) =? 2 ^ Z.log2 b) = true)
       by (by apply (byte_forall (λ b, (b =? 0) || (Z.shiftr 0x80 (8 - bit_length b) =? 2 ^ Z.log2 b))));
     destruct (Z.eqb_spec b 0); [done|]; by apply Z.eqb_eq in Ht)).
  rewrite Hn. cbn [Z.to_pos].
  set (st := {| parsing_sexp := _; stack_index := _; current := _ |}).
  assert (Hden : backref_den values st = stack_sexp values ∧ backref_ok values st).
  { unfold backref_den, backref_ok, st. cbn. case_bool_decide as Hv; cbn.
    - subst. split; [done|by left].
    - assert (length values ≠ 0%nat) by (by destruct values). split; [|right; lia].
      rewrite take_ge by lia. done. }
  destruct Hden as [<- Hok]. pose proof (backref_walk values p st Hok) as Hw.
  destruct (follow p (backref_den values st)) as [s|]; [|by rewrite Hw].
  destruct Hw as (st' & -> & Hok' & <-). cbn [mbind res_bind]. unfold backref_den.
  destruct (parsing_sexp st') eqn:Hps; [by exists values|].
  destruct (build_stack_list values (stack_index st' + 1) NULL_SEXP) as [s vs] eqn:Hb.
  apply (build_stack_list_spec [] values) in Hb as (-> & Hfst & Hcs); [|done].
  exists vs. split_and!; [|done..]. cbn [app]. do 4 f_equal. lia.
Qed.

(** a back-reference resolves to the node its path denotes in the list of
    the values parsed so far, or is refused when the path enters an atom; the
    cached lists stay correct and the values unchanged. *)
Theorem backref_correct values path :
  bytes_ok path → caches_ok values →
  match path_lookup (from_be path) (stack_sexp values) with
  | Some s => ∃ values', traverse_backref_path values path = Ok (s, values') ∧
                values'.*1 = values.*1 ∧ caches_ok values'
  | None => traverse_backref_path values path = Err SerializationError
  end.
Proof. apply backref_resolves. Qed.

Lemma backref_correct_witness :
  ∃ values', traverse_backref_path [(Atom [7], None); (Atom [9], None)] [3] =
               Ok (Pair (Atom [7]) NULL_SEXP, values') ∧
    values'.*1 = [Atom [7]; Atom [9]] ∧ caches_ok values'.
Proof.
  apply (backref_correct [(Atom [7], None); (Atom [9], None)] [3]).
  - by apply bytes_okb_spec.
  - intros i v c. destruct i as [|[|i]]; cbn; intros [=].
Defined.
