(* ===== verification/ClvmCanonical.v ===== *)
(** * The canonical serialization check of soft fork 9

    [is_canonical_serialization] of [core/src/clvm/parser.rs], which block
    validation applies to generators.  Unlike [is_clvm_canonical] it admits
    back-references.  On the buffers with shortest length prefixes the two
    checks agree except for one range of atom lengths: the floors of the
    five- and six-byte prefixes are written [1 << 28] and [1 << 36], although
    the four-byte prefix ends at [2^27 - 1]. *)
From Stdlib Require Import ZArith Lia.
From stdpp Require Import base list numbers option.
From S2P Require Import Prelude Serialize ClvmNumber ClvmSexp ClvmPath ClvmParser.

Open Scope Z_scope.

(** [u8::leading_ones] *)
Definition leading_ones8 (b : Z) : nat := fst (prefix_loop 9 0 0x80 b).

Definition min_value (prefix_len : nat) : option Z :=
  match prefix_len with
  | 1%nat => Some 1
  | 2%nat => Some (2 ^ 6)
  | 3%nat => Some (2 ^ 13)
  | 4%nat => Some (2 ^ 20)
  | 5%nat => Some (2 ^ 28)
  | 6%nat => Some (2 ^ 36)
  | _ => None
  end.

(** [None] is the answer [false]; the stream moves past the atom otherwise.
    [seek] fails only when the new position overflows. *)
Definition is_canonical_atom (stream : cursor) (first_byte : Z) : option cursor :=
  if (first_byte =? 0x80) || (first_byte <=? MAX_SINGLE_BYTE) then Some stream
  else
    let prefix_len := leading_ones8 first_byte in
    match decode_size first_byte stream with
    | Ok (atom_len, stream) =>
        match min_value prefix_len with
        | None => None
        | Some mn =>
            if 2 ^ 63 <=? atom_len then None
            else if 2 ^ 64 <=? Z.of_nat (position stream) + atom_len then None
            else if mn <=? atom_len then Some (advance (Z.to_nat atom_len) stream) else None
        end
    | _ => None
    end.

(** Every round reads at least a byte. *)
Fixpoint serialization_loop (fuel : nat) (bytes : list Z) (counter : Z) (stream : cursor) : bool :=
  if counter <=? 0 then bool_decide (length bytes = position stream)
  else
    match fuel with
    | O => false
    | S fuel =>
        let counter := counter - 1 in
        match read_exact 1 stream with
        | Ok (buf, stream) =>
            let b := hd 0 buf in
            let next :=
              if b =? CONS_BOX_MARKER then Some (counter + 2, stream)
              else if b =? BACK_REFERENCE then
                match read_exact 1 stream with
                | Ok (buf, stream) => stream ← is_canonical_atom stream (hd 0 buf); Some (counter, stream)
                | _ => None
                end
              else stream ← is_canonical_atom stream b; Some (counter, stream) in
            match next with
            | None => false
            | Some (counter, stream) =>
                if (length bytes <? position stream)%nat then false
                else serialization_loop fuel bytes counter stream
            end
        | _ => false
        end
    end.

Definition is_canonical_serialization (bytes : list Z) : bool :=
  serialization_loop (S (length bytes)) bytes 1 (Cursor bytes 0).

(** ** The lengths it accepts *)

(** No atom's length is between [2^27] and [2^28 - 1]. *)
Definition outside_gap (a : list Z) : bool := negb ((2 ^ 27 <=? zlen a) && (zlen a <? 2 ^ 28)).
Fixpoint atoms_outside_gap (s : SExp) : bool :=
  match s with
  | Atom a => outside_gap a
  | Pair f r => atoms_outside_gap f && atoms_outside_gap r
  end.

Definition leading_ones_table (b : Z) : bool :=
  (b <=? 0x80) || (0xfc <=? b) || (leading_ones8 b =? S (prefix_form b).1.1)%nat.

Lemma leading_ones_form b :
  byte_ok b → 0x80 < b < 0xfc → leading_ones8 b = S (prefix_form b).1.1.
Proof.
  intros Hb Hr.
  assert (Ht : leading_ones_table b = true) by (by apply (byte_forall leading_ones_table)).
  unfold leading_ones_table in Ht.
  rewrite !orb_true_iff, !Z.leb_le, Nat.eqb_eq in Ht. destruct Ht as [[?|?]|?]; [lia..|done].
Qed.

(** The prefix of a length: its first byte, its width and its floor. *)
Lemma encode_size_floor v :
  1 ≤ v < MAX_DECODE_SIZE →
  ∃ b tl mn, encode_size v = Ok (b :: tl) ∧ 0x80 < b < 0xfc ∧
    min_value (leading_ones8 b) = Some mn ∧
    (mn <=? v) = negb ((2 ^ 27 <=? v) && (v <? 2 ^ 28)).
Proof.
  intros Hv. destruct (form_exists v Hv) as (h & lim & n & mask & mn & Hin & Hr).
  rewrite (form_encode _ _ _ _ _ _ Hin Hr).
  destruct (size_class_split _ _ _ _ _ _ Hin Hr) as (-> & Hx & Hne).
  destruct (form_header _ _ _ _ _ _ Hin Hx Hne) as (Hf & _ & Hb).
  set (b := wrapu 8 _) in *. exists b, (to_be n v).
  rewrite (leading_ones_form b) by (unfold byte_ok; lia). rewrite Hf. cbn [fst].
  unfold forms in Hin. repeat (apply elem_of_cons in Hin as [[= -> -> -> -> ->]|Hin]);
    [..|by apply elem_of_nil in Hin]; cbn [min_value]; eexists; split_and!; try done; try lia; cbn in Hr;
    destruct (Z.leb_spec (2 ^ 27) v), (Z.ltb_spec v (2 ^ 28)); cbn [andb negb];
    (apply Z.leb_le || apply Z.leb_gt); lia.
Qed.

Lemma canonical_atom_long a sz b suf c :
  1 ≤ zlen a → encode_size (zlen a) = Ok (b :: sz) → remaining c = sz ++ a ++ suf →
  Z.of_nat (length (get_ref c)) < MAX_DECODE_SIZE →
  is_canonical_atom c b = if outside_gap a then Some (advance (length (sz ++ a)) c) else None.
Proof.
  intros Hne Hsz Hr Hmax.
  assert (Hrem : (length (remaining c) ≤ length (get_ref c))%nat) by (unfold remaining; rewrite length_drop; lia).
  assert (Hpos : (position c ≤ length (get_ref c))%nat).
  { assert (Hl : remaining c ≠ []) by (rewrite Hr; destruct sz, a; done).
    unfold remaining in Hl. destruct (Nat.le_gt_cases (position c) (length (get_ref c))); [done|].
    by rewrite drop_ge in Hl by lia. }
  rewrite Hr, !length_app in Hrem. unfold zlen in *.
  assert (Hv : 1 ≤ Z.of_nat (length a) < MAX_DECODE_SIZE) by lia.
  destruct (encode_size_floor _ Hv) as (b' & tl & mn & Hsz' & Hb & Hmn & Hfl).
  rewrite Hsz in Hsz'. apply Ok_inj in Hsz'. injection Hsz' as <- <-.
  destruct (encode_decode_size (Z.of_nat (length a))) as [Hdec _]; [lia|].
  destruct (Hdec (proj2 Hv)) as (b' & tl & Hsz' & _ & Hdec'). rewrite Hsz in Hsz'.
  apply Ok_inj in Hsz'. injection Hsz' as <- <-.
  unfold is_canonical_atom, MAX_SINGLE_BYTE.
  rewrite (proj2 (Z.eqb_neq b 0x80)) by lia. rewrite (proj2 (Z.leb_gt b 0x7f)) by lia. cbn [orb].
  rewrite (Hdec' c (a ++ suf) Hr), Hmn. unfold MAX_DECODE_SIZE in *. cbn [position advance].
  rewrite !(proj2 (Z.leb_gt _ _)) by lia.
  rewrite Hfl. unfold outside_gap, zlen. destruct (negb _); [|done].
  by rewrite advance_advance, Nat2Z.id, length_app.
Qed.

Lemma canonical_atom_form a bs suf c :
  atom_form a bs → remaining c = bs ++ suf → Z.of_nat (length (get_ref c)) < MAX_DECODE_SIZE →
  ∃ b tl, bs = b :: tl ∧ b < 0xfc ∧
    is_canonical_atom (advance 1 c) b = if outside_gap a then Some (advance (length bs) c) else None.
Proof.
  intros Hform Hr Hmax.
  assert (Hlong : ∀ b sz, a ≠ [] → encode_size (zlen a) = Ok (b :: sz) → bs = b :: sz ++ a →
    ∃ b tl, bs = b :: tl ∧ b < 0xfc ∧
      is_canonical_atom (advance 1 c) b = if outside_gap a then Some (advance (length bs) c) else None).
  { intros b sz Hne Hsz ->. exists b, (sz ++ a). cbn [app] in Hr.
    apply (remaining_app [b]) in Hr. cbn [length] in Hr. rewrite <-app_assoc in Hr.
    pose proof (zlen_pos_nonempty a Hne) as Hp.
    rewrite (canonical_atom_long a sz b suf) by done.
    split_and!; [done| |by rewrite advance_advance].
    assert (Hl : (length (remaining (advance 1 c)) ≤ length (get_ref c))%nat)
      by (unfold remaining; rewrite length_drop; cbn; lia).
    rewrite Hr, !length_app in Hl. unfold zlen in *.
    destruct (encode_size_first (Z.of_nat (length a))) as (b' & tl & Hsz' & Hb & _); [lia|].
    rewrite Hsz in Hsz'. apply Ok_inj in Hsz'. injection Hsz' as <- <-. lia. }
  assert (Hshort : ∀ b, (b = 0x80 ∨ b ≤ MAX_SINGLE_BYTE) → is_canonical_atom (advance 1 c) b = Some (advance 1 c)).
  { intros b [->|Hb]; [done|]. unfold is_canonical_atom. by rewrite (proj2 (Z.leb_le _ _) Hb), orb_true_r. }
  destruct Hform as [Hto|(b & -> & Hle & ->)]; [|by apply (Hlong 0x81 [])].
  unfold atom_to_bytes in Hto. destruct a as [|a0 [|a1 a]].
  - apply Ok_inj in Hto as <-. exists 0x80, []. split_and!; [done..|]. rewrite Hshort by auto. done.
  - destruct (Z.leb_spec a0 MAX_SINGLE_BYTE) as [Hle|Hgt].
    + apply Ok_inj in Hto as <-. exists a0, []. rewrite Hshort by auto.
      split_and!; [done|unfold MAX_SINGLE_BYTE in *; lia|done].
    + apply bind_Ok_inv in Hto as (sz & Hsz & Hto). apply Ok_inj in Hto as <-.
      destruct sz as [|b sz]; [by apply Ok_inj in Hsz|]. by apply (Hlong b sz).
  - apply bind_Ok_inv in Hto as (sz & Hsz & Hto). apply Ok_inj in Hto as <-.
    destruct sz as [|b sz]; [|by apply (Hlong b sz)].
    exfalso. unfold encode_size in Hsz. repeat case_match; done.
Qed.

(** One round of the loop. *)
Lemma serialization_step bytes fuel counter c b bs :
  1 ≤ counter → remaining c = b :: bs →
  serialization_loop (S fuel) bytes counter c =
    match (if b =? CONS_BOX_MARKER then Some (counter - 1 + 2, advance 1 c)
           else if b =? BACK_REFERENCE then
             match read_exact 1 (advance 1 c) with
             | Ok (buf, stream) => stream ← is_canonical_atom stream (hd 0 buf); Some (counter - 1, stream)
             | _ => None
             end
           else stream ← is_canonical_atom (advance 1 c) b; Some (counter - 1, stream)) with
    | None => false
    | Some (counter, stream) =>
        if (length bytes <? position stream)%nat then false
        else serialization_loop fuel bytes counter stream
    end.
Proof.
  intros Hc Hr. cbn [serialization_loop]. rewrite (proj2 (Z.leb_gt _ 0)) by lia.
  by rewrite (read_exact_app 1 [b] bs c Hr).
Qed.

Lemma serialization_loop_encs bytes fuel ss c :
  zlen bytes < MAX_DECODE_SIZE → get_ref c = bytes → (position c ≤ length bytes)%nat →
  canon_encs ss (remaining c) → (length (remaining c) < fuel)%nat →
  serialization_loop fuel bytes (zlen ss) c = forallb atoms_outside_gap ss.
Proof.
  intros Hmax. unfold zlen in Hmax. revert ss c. induction fuel as [|fuel IH]; intros ss c Hc Hpos Hss Hf; [lia|].
  assert (Hrl : length (remaining c) = (length bytes - position c)%nat)
    by (unfold remaining; by rewrite length_drop, Hc).
  destruct ss as [|s ss].
  { cbn in Hss. rewrite Hss in Hrl. cbn in Hrl |- *. apply bool_decide_eq_true. lia. }
  destruct Hss as (b1 & b2 & Hr & Hs & Hss). rewrite zlen_cons. pose proof (zlen_nonneg ss).
  assert (Hle : (length b1 + length b2 + position c = length bytes)%nat).
  { rewrite Hr, length_app in Hrl. lia. }
  destruct s as [a|f r].
  - destruct Hs as [_ Hform].
    destruct (canonical_atom_form a b1 b2 c Hform Hr) as (b & tl & -> & Hb & Hca); [by rewrite Hc|].
    rewrite (serialization_step _ _ _ _ b (tl ++ b2)) by (done || lia).
    unfold CONS_BOX_MARKER, BACK_REFERENCE.
    rewrite (proj2 (Z.eqb_neq b 0xff)), (proj2 (Z.eqb_neq b 0xfe)), Hca by lia.
    cbn [forallb atoms_outside_gap]. destruct (outside_gap a); cbn [mbind option_bind andb]; [|done].
    rewrite (proj2 (Nat.ltb_ge _ _)) by (cbn [position advance]; lia).
    replace (zlen ss + 1 - 1) with (zlen ss) by lia.
    apply remaining_app in Hr. apply IH; [done|cbn [position advance]; lia|by rewrite Hr|].
    rewrite Hr. cbn in Hle. lia.
  - destruct Hs as (bf & br & -> & Hsf & Hsr).
    rewrite (serialization_step _ _ _ _ 0xff ((bf ++ br) ++ b2)) by (done || lia). cbn [Z.eqb CONS_BOX_MARKER Pos.eqb].
    cbn [length] in Hle. rewrite length_app in Hle.
    rewrite (proj2 (Nat.ltb_ge _ _)) by (cbn [position advance]; lia).
    replace (zlen ss + 1 - 1 + 2) with (zlen (f :: r :: ss)) by (rewrite !zlen_cons; lia).
    apply (remaining_app [0xff]) in Hr. cbn [length] in Hr.
    rewrite IH; [cbn; by rewrite andb_assoc|done|cbn [position advance]; lia| |].
    + rewrite Hr. exists bf, (br ++ b2). rewrite app_assoc. split_and!; [done..|]. by exists br, b2.
    + rewrite Hr, !length_app. lia.
Qed.

(** on a buffer that holds one tree with shortest length prefixes (which
    every output of the writer is) the check answers [true] exactly when no
    atom's length is between [2^27] and [2^28 - 1]: for those lengths the only
    encoding there is is refused. *)
Theorem canonical_serialization_gap s bs :
  canon_enc s bs → zlen bs < MAX_DECODE_SIZE →
  is_canonical_serialization bs = atoms_outside_gap s.
Proof.
  intros Hs Hmax. unfold is_canonical_serialization. change 1 with (zlen [s]).
  rewrite serialization_loop_encs; [by cbn; rewrite andb_true_r|done|done|cbn; lia| |unfold remaining; cbn; rewrite drop_0; lia].
  exists bs, []. unfold remaining. cbn. by rewrite app_nil_r.
Qed.

(** An atom of [2^27] zero bytes behind its prefix. *)
Lemma canonical_serialization_gap_witness :
  is_canonical_serialization (0xf8 :: 0x08 :: replicate 3 0 ++ replicate (Z.to_nat (2 ^ 27)) 0) = false.
Proof.
  assert (Hz : zlen (replicate (Z.to_nat (2 ^ 27)) 0) = 2 ^ 27)
    by (unfold zlen; rewrite length_replicate, Z2Nat.id by lia; reflexivity).
  rewrite (canonical_serialization_gap (Atom (replicate (Z.to_nat (2 ^ 27)) 0))).
  - cbn [atoms_outside_gap]. unfold outside_gap. rewrite Hz. reflexivity.
  - split; [apply Forall_replicate; unfold byte_ok; lia|]. left. unfold atom_to_bytes.
    destruct (replicate (Z.to_nat (2 ^ 27)) 0) as [|x [|y l]] eqn:E.
    + exfalso. rewrite zlen_nil in Hz. lia.
    + exfalso. rewrite zlen_cons, zlen_nil in Hz. lia.
    + rewrite Hz. reflexivity.
  - rewrite !zlen_cons, zlen_app, Hz. reflexivity.
Defined.
