(* ===== verification/BackrefWriter.v ===== *)
(** * The compressing CLVM writer: [core/src/clvm/serialize_backrefs.rs]

    [sexp_to_bytes_backrefs] writes a tree like the plain writer, but replaces
    a subtree that the decoder can already reach by a path to it.  It runs
    alongside a model of the decoder's value stack: [BackrefStackIndex] knows
    the stack by tree hashes only, keeps for every hash the pairs it has been
    a child of, and searches upwards, breadth first, from the hash of the
    subtree to the hash of the whole stack.

    [backref_writer_roundtrip] says that the decoder reads the compressed
    bytes back to the same tree and that they are never longer than the plain
    ones, provided that no two of the strings hashed on the way collide. *)
From Stdlib Require Import ZArith Lia.
From stdpp Require Import base list numbers option gmap sets.
From S2P Require Import Prelude Serialize ClvmNumber ClvmSexp ClvmPath ClvmParser.

Open Scope Z_scope.

(** ** Live nodes

    The memos are keyed by the address of a node; atoms have one too. *)
Inductive lnode :=
  | LAtom (address : Z) (a : list Z)
  | LPair (address : Z) (first rest : lnode).

Definition addr (n : lnode) : Z := match n with LAtom k _ | LPair k _ _ => k end.
Fixpoint tree (n : lnode) : SExp :=
  match n with LAtom _ a => Atom a | LPair _ f r => Pair (tree f) (tree r) end.

Definition atom_tree_hash `{Sha256} (atom : list Z) : list Z := hash_256 ([1] ++ atom).
Definition pair_tree_hash `{Sha256} (first rest : list Z) : list Z := hash_256 ([2] ++ first ++ rest).

Definition serialized_length_atom (buf : list Z) : Z :=
  let lb := zlen buf in
  if (lb =? 0) || ((lb =? 1) && (nth 0 buf 0 <? 128)) then 1
  else if lb <? 0x40 then 1 + lb
  else if lb <? 0x2000 then 2 + lb
  else if lb <? 0x100000 then 3 + lb
  else if lb <? 0x8000000 then 4 + lb
  else 5 + lb.

Definition atom_length_bits (num_bits : Z) : option Z :=
  if num_bits <? 8 then Some 1
  else
    let num_bytes := div_ceil num_bits 8 in
    if num_bytes <? 0x40 then Some (1 + num_bytes)
    else if num_bytes <? 0x2000 then Some (2 + num_bytes)
    else if num_bytes <? 0x100000 then Some (3 + num_bytes)
    else if num_bytes <? 0x8000000 then Some (4 + num_bytes)
    else if num_bytes <? 0x400000000 then Some (5 + num_bytes)
    else None.

Definition write_atom (data : list Z) : io (list Z) :=
  if bool_decide (data = []) then Ok [0x80]
  else if (zlen data =? 1) && (nth 0 data 0 <=? MAX_SINGLE_BYTE) then Ok [nth 0 data 0]
  else size ← encode_size (zlen data); Ok (size ++ data).

(** ** [encode_backref_path] *)
Definition or_byte (v : list Z) (index : nat) (mask : Z) : io (list Z) :=
  b ← expect (v !! index); Ok (<[index := Z.lor b mask]> v).

Fixpoint path_bits (path : list bool) (v : list Z) (index : nat) (mask : Z) : io (list Z * nat * Z) :=
  match path with
  | [] => Ok (v, index, mask)
  | p :: path =>
      v ← (if p then or_byte v index mask else Ok v);
      if mask =? 0x80 then
        match index with O => Panic | S index => path_bits path v index 1 end
      else path_bits path v index (wrapu 8 (Z.shiftl mask 1))
  end.

Definition encode_backref_path (path : list bool) : io (list Z) :=
  let byte_count := ((length path + 1 + 7) / 8)%nat in
  '(v, index, mask) ← path_bits (rev path) (replicate byte_count 0) (byte_count - 1) 1;
  or_byte v index mask.

(** ** [BackrefStackIndex]; the stack has its top first *)
Record BackrefStackIndex := mkIndex {
  root : list Z;
  istack : list (list Z * list Z);
  active : gmap (list Z) Z;
  parents : gmap (list Z) (list (list Z * bool));
}.

Definition index_new `{Sha256} : BackrefStackIndex :=
  {| root := atom_tree_hash []; istack := []; active := {[atom_tree_hash [] := 1]}; parents := ∅ |}.

(** [*active.entry(hash).or_default() += 1] on [u32] counts *)
Definition bump (hash : list Z) (m : gmap (list Z) Z) : io (gmap (list Z) Z) :=
  count ← chk 32 (default 0 (m !! hash) + 1); Ok (<[hash := count]> m).
Definition unbump (hash : list Z) (m : gmap (list Z) Z) : gmap (list Z) Z :=
  alter (λ count, sat_sub count 1) hash m.
Definition add_parent (child parent : list Z) (direction : bool) (m : gmap (list Z) (list (list Z * bool))) :=
  <[child := default [] (m !! child) ++ [(parent, direction)]]> m.

Definition activate `{Sha256} (hash : list Z) (s : BackrefStackIndex) : io BackrefStackIndex :=
  let previous_root := root s in
  let new_root := pair_tree_hash hash previous_root in
  m ← bump hash (active s);
  m ← bump new_root m;
  Ok {| root := new_root; istack := (hash, previous_root) :: istack s; active := m;
        parents := add_parent previous_root new_root true (add_parent hash new_root false (parents s)) |}.

Definition deactivate_top (s : BackrefStackIndex) : io (list Z * list Z * BackrefStackIndex) :=
  match istack s with
  | [] => Panic
  | item :: rest =>
      Ok (item, {| root := item.2; istack := rest; active := unbump (root s) (unbump item.1 (active s)); parents := parents s |})
  end.

Definition combine_top_pair `{Sha256} (s : BackrefStackIndex) : io BackrefStackIndex :=
  '(right_item, s) ← deactivate_top s;
  '(left_item, s) ← deactivate_top s;
  m ← bump left_item.1 (active s);
  m ← bump right_item.1 m;
  let pair := pair_tree_hash left_item.1 right_item.1 in
  activate pair {| root := root s; istack := istack s; active := m;
    parents := add_parent right_item.1 pair true (add_parent left_item.1 pair false (parents s)) |}.

(** [for &(parent, direction) in self.parents.get(&node)] *)
Fixpoint push_parents (m : gmap (list Z) Z) (edges : list (list Z * bool)) (path : list bool)
    (queue : list (list Z * list bool)) (seen : gset (list Z)) : list (list Z * list bool) * gset (list Z) :=
  match edges with
  | [] => (queue, seen)
  | (parent, direction) :: edges =>
      if (default 0 (m !! parent) =? 0) || bool_decide (parent ∈ seen) then push_parents m edges path queue seen
      else push_parents m edges path (queue ++ [(parent, path ++ [direction])]) ({[parent]} ∪ seen)
  end.

Definition edges_of (s : BackrefStackIndex) (node : list Z) : list (list Z * bool) := default [] (parents s !! node).

Fixpoint search (fuel : nat) (s : BackrefStackIndex) (max_steps max_atom_bytes : Z) (queue : list (list Z * list bool))
    (seen : gset (list Z)) (candidates : list (list Z)) (result_depth : option nat) : io (list (list Z)) :=
  match fuel with
  | O => Panic
  | S fuel =>
      match queue with
      | [] => Ok candidates
      | (node, path) :: queue =>
          if match result_depth with Some depth => (depth <? length path)%nat | None => false end then Ok candidates
          else if bool_decide (node = root s) then
            encoded ← encode_backref_path path;
            if match atom_length_bits (zlen path + 1) with Some len => len <=? max_atom_bytes | None => false end
            then search fuel s max_steps max_atom_bytes queue seen (candidates ++ [encoded]) (Some (length path))
            else search fuel s max_steps max_atom_bytes queue seen candidates result_depth
          else if max_steps <=? zlen path then search fuel s max_steps max_atom_bytes queue seen candidates result_depth
          else
            let '(queue, seen) := push_parents (active s) (edges_of s node) path queue seen in
            search fuel s max_steps max_atom_bytes queue seen candidates result_depth
      end
  end.

(** [candidates.into_iter().min()] *)
Definition min_bytes (l : list (list Z)) : option (list Z) :=
  match l with
  | [] => None
  | x :: l => Some (foldl (λ m y, if bytes_leb m y then m else y) x l)
  end.

(** Every node that can be queued is the hash looked up or the target of an
    edge, and is queued once. *)
Definition targets (s : BackrefStackIndex) : list (list Z) := ((map_to_list (parents s)).*2 ≫= id).*1.

Definition shortest_path (s : BackrefStackIndex) (hash : list Z) (plain_length : Z) : io (option (list Z)) :=
  if plain_length <? 4 then Ok None
  else
    let max_atom_bytes := plain_length - 1 in
    let max_steps := sat_sub (sat_mulu 64 max_atom_bytes 8) 1 in
    candidates ← search (length (targets s) + 2) s max_steps max_atom_bytes [(hash, [])] {[hash]} [] None;
    Ok (min_bytes candidates).

(** ** [compute_memos] *)
Inductive MemoOp := Enter (n : lnode) | Exit (n : lnode).

Record memos := { memo_hashes : gmap Z (list Z); memo_lens : gmap Z Z }.

Fixpoint memo_loop `{Sha256} (fuel : nat) (stack : list MemoOp) (m : memos) : io memos :=
  match fuel with
  | O => Panic
  | S fuel =>
      match stack with
      | [] => Ok m
      | Enter node :: stack =>
          match memo_hashes m !! addr node with
          | Some _ => memo_loop fuel stack m
          | None =>
              match node with
              | LAtom key atom =>
                  memo_loop fuel stack
                    {| memo_hashes := <[key := atom_tree_hash atom]> (memo_hashes m);
                       memo_lens := <[key := serialized_length_atom atom]> (memo_lens m) |}
              | LPair _ first rest => memo_loop fuel (Enter rest :: Enter first :: Exit node :: stack) m
              end
          end
      | Exit (LPair key first rest) :: stack =>
          lh ← expect (memo_hashes m !! addr first);
          rh ← expect (memo_hashes m !! addr rest);
          ll ← expect (memo_lens m !! addr first);
          rl ← expect (memo_lens m !! addr rest);
          memo_loop fuel stack
            {| memo_hashes := <[key := pair_tree_hash lh rh]> (memo_hashes m);
               memo_lens := <[key := sat_addu 64 (sat_addu 64 1 ll) rl]> (memo_lens m) |}
      | Exit (LAtom _ _) :: stack => memo_loop fuel stack m
      end
  end.

Definition compute_memos `{Sha256} (n : lnode) : io memos :=
  memo_loop (2 * sexp_size (tree n) + 1) [Enter n] {| memo_hashes := ∅; memo_lens := ∅ |}.

(** ** [node_to_stream_backrefs] *)
Inductive ReadOp := Parse | RCons.

(** [while let Some(ReadOp::Cons) = read_op_stack.last()] *)
Fixpoint pop_cons `{Sha256} (read_ops : list ReadOp) (s : BackrefStackIndex) : io (list ReadOp * BackrefStackIndex) :=
  match read_ops with
  | RCons :: read_ops => s ← combine_top_pair s; pop_cons read_ops s
  | _ => Ok (read_ops, s)
  end.

(** One node; [debug_assert!(op == Some(ReadOp::Parse))] *)
Definition stream_node `{Sha256} (m : memos) (node : lnode) (write_stack : list lnode) (read_ops : list ReadOp)
    (s : BackrefStackIndex) : io (list lnode * list ReadOp * BackrefStackIndex * list Z) :=
  match read_ops with
  | Parse :: read_ops =>
      node_hash ← expect (memo_hashes m !! addr node);
      node_len ← expect (memo_lens m !! addr node);
      found ← shortest_path s node_hash node_len;
      match found with
      | Some path =>
          bs ← write_atom path;
          s ← activate node_hash s;
          Ok (write_stack, read_ops, s, BACK_REFERENCE :: bs)
      | None =>
          match node with
          | LPair _ first rest =>
              Ok (first :: rest :: write_stack, Parse :: Parse :: RCons :: read_ops, s, [CONS_BOX_MARKER])
          | LAtom _ atom =>
              bs ← write_atom atom;
              s ← activate node_hash s;
              Ok (write_stack, read_ops, s, bs)
          end
      end
  | _ => Panic
  end.

Fixpoint stream_loop `{Sha256} (fuel : nat) (m : memos) (write_stack : list lnode) (read_ops : list ReadOp)
    (s : BackrefStackIndex) (f : list Z) : io (list Z) :=
  match fuel with
  | O => Panic
  | S fuel =>
      match write_stack with
      | [] => Ok f
      | node :: write_stack =>
          '(write_stack, read_ops, s, bs) ← stream_node m node write_stack read_ops s;
          '(read_ops, s) ← pop_cons read_ops s;
          stream_loop fuel m write_stack read_ops s (f ++ bs)
      end
  end.

Definition node_to_stream_backrefs `{Sha256} (n : lnode) : io (list Z) :=
  m ← compute_memos n;
  stream_loop (S (sexp_size (tree n))) m [n] [Parse] index_new [].

Definition sexp_to_bytes_backrefs `{Sha256} (n : lnode) : io (list Z) := node_to_stream_backrefs n.

(** * Theorems *)

(** ** Paths

    A path is listed from the node up; its integer has the step at the root
    as its lowest bit and a sentinel above the highest. *)
Definition path_pos (path : list bool) : positive := foldl (λ (p : positive) (b : bool), if b then xI p else xO p) xH path.

Definition bits_value (l : list bool) : Z := foldr (λ b acc, Z.b2z b + 2 * acc) 1 l.

Lemma bits_value_rev path : bits_value (rev path) = Zpos (path_pos path).
Proof.
  induction path as [|b path IH] using rev_ind; [done|].
  rewrite rev_app_distr. cbn [rev app bits_value foldr]. fold (bits_value (rev path)). rewrite IH.
  unfold path_pos. rewrite foldl_app. cbn [foldl]. by destruct b.
Qed.

(** Setting a bit above the bits set so far. *)
Lemma lor_above b i : 0 ≤ i → 0 ≤ b < 2 ^ i → Z.lor b (2 ^ i) = b + 2 ^ i.
Proof.
  intros Hi Hb. symmetry. apply Z.add_nocarry_lor.
  apply Z.bits_inj'. intros n Hn. rewrite Z.land_spec, Z.bits_0, Z.pow2_bits_eqb by lia.
  destruct (Z.eqb_spec i n) as [->|]; [|apply andb_false_r]. rewrite andb_true_r, <- (Z.mod_small b (2 ^ n)) by lia.
  by apply Z.mod_pow2_bits_high.
Qed.

(** The vector while bits are written: [z] zero bytes, the current byte, and
    the finished ones. *)
Lemma or_byte_at z b mask tail :
  or_byte (replicate z 0 ++ b :: tail) z mask = Ok (replicate z 0 ++ Z.lor b mask :: tail).
Proof.
  unfold or_byte. rewrite lookup_app_r, length_replicate, Nat.sub_diag by (by rewrite length_replicate). cbn [expect lookup list_lookup mbind res_bind].
  rewrite insert_app_r_alt, length_replicate, Nat.sub_diag by (by rewrite length_replicate). done.
Qed.

Lemma path_bits_spec l z b i tail :
  (i < 8)%nat → 0 ≤ b < 2 ^ Z.of_nat i → bytes_ok tail → (length l + i < 8 * (z + 1))%nat →
  ∃ z' b' i' tail', path_bits l (replicate z 0 ++ b :: tail) z (2 ^ Z.of_nat i) =
      Ok (replicate z' 0 ++ b' :: tail', z', 2 ^ Z.of_nat i') ∧
    (i' < 8)%nat ∧ 0 ≤ b' < 2 ^ Z.of_nat i' ∧ bytes_ok tail' ∧
    (8 * length tail' + i' = 8 * length tail + i + length l)%nat ∧ (z' + length tail' = z + length tail)%nat ∧
    (b' + 2 ^ Z.of_nat i') * 256 ^ zlen tail' + from_be tail' =
      b * 256 ^ zlen tail + from_be tail + 2 ^ Z.of_nat i * 256 ^ zlen tail * bits_value l.
Proof.
  revert z b i tail. induction l as [|p l IH]; intros z b i tail Hi Hb Ht Hl.
  - exists z, b, i, tail. split_and!; [done|done|lia|lia|done|cbn; lia|lia|cbn; lia].
  - cbn [path_bits bits_value foldr]. fold (bits_value l).
    set (b1 := if p then b + 2 ^ Z.of_nat i else b).
    assert (Hstep : (if p then or_byte (replicate z 0 ++ b :: tail) z (2 ^ Z.of_nat i) else Ok (replicate z 0 ++ b :: tail)) =
      Ok (replicate z 0 ++ b1 :: tail)).
    { subst b1. destruct p; [|done]. rewrite or_byte_at, lor_above by lia. done. }
    rewrite Hstep. cbn [mbind res_bind]. clear Hstep.
    assert (Hpow : 2 ^ Z.of_nat (S i) = 2 * 2 ^ Z.of_nat i) by (rewrite Nat2Z.inj_succ, Z.pow_succ_r by lia; lia).
    assert (Hb1 : 0 ≤ b1 < 2 ^ Z.of_nat (S i)) by (subst b1; destruct p; lia).
    assert (Hval : b1 = b + Z.b2z p * 2 ^ Z.of_nat i) by (subst b1; destruct p; cbn; lia).
    destruct (decide (i = 7%nat)) as [->|Hne].
    + change (2 ^ Z.of_nat 7 =? 0x80) with true. cbn iota. cbn [length] in Hl. destruct z as [|z]; [lia|].
      replace (replicate (S z) 0 ++ b1 :: tail) with (replicate z 0 ++ 0 :: (b1 :: tail)).
      2: { rewrite replicate_S_end, <- (assoc_L (++)). done. }
      change 1 with (2 ^ Z.of_nat 0) at 1. change (2 ^ Z.of_nat 8) with 256 in Hb1.
      destruct (IH z 0 0%nat (b1 :: tail)) as (z' & b' & i' & tail' & -> & Hi' & Hb' & Ht' & Hlen & Hz & Hv);
        [lia|cbn; lia|apply bytes_ok_cons; done|lia|].
      exists z', b', i', tail'. cbn [length] in *. split_and!; try done; [lia..|].
      rewrite Hv, zlen_cons, from_be_cons, Z.pow_add_r by (pose proof (zlen_nonneg tail); lia).
      change (2 ^ Z.of_nat 0) with 1. change (2 ^ Z.of_nat 7) with 128 in *. rewrite Hval. ring.
    + assert (Hmask : (2 ^ Z.of_nat i =? 0x80) = false /\ wrapu 8 (Z.shiftl (2 ^ Z.of_nat i) 1) = 2 ^ Z.of_nat (S i)).
      { do 8 (destruct i as [|i]; [done|]). lia. }
      destruct Hmask as [-> ->]. cbn [length] in Hl.
      destruct (IH z b1 (S i) tail) as (z' & b' & i' & tail' & -> & Hi' & Hb' & Ht' & Hlen & Hz & Hv); [lia|lia|done|lia|].
      exists z', b', i', tail'. cbn [length] in *. split_and!; try done; [lia..|].
      rewrite Hv, Hpow, Hval. ring.
Qed.

Lemma encode_backref_path_spec path :
  ∃ v, encode_backref_path path = Ok v ∧ bytes_ok v ∧ from_be v = Zpos (path_pos path) ∧
    length v = ((length path + 1 + 7) / 8)%nat.
Proof.
  unfold encode_backref_path. set (n := ((length path + 1 + 7) / 8)%nat).
  assert (Hn : (length path < 8 * n ∧ 8 * n <= length path + 8)%nat).
  { subst n. pose proof (Nat.div_mod (length path + 1 + 7) 8 ltac:(lia)). pose proof (Nat.mod_upper_bound (length path + 1 + 7) 8). lia. }
  destruct n as [|n]; [lia|]. rewrite replicate_S_end, Nat.sub_succ, Nat.sub_0_r.
  destruct (path_bits_spec (rev path) n 0 0%nat []) as (z & b & i & tail & Hrun & Hi & Hb & Ht & Hlen & Hz & Hv);
    [lia|cbn; lia|apply bytes_ok_nil|rewrite length_rev; lia|].
  change (2 ^ Z.of_nat 0) with 1 in Hrun at 1. rewrite Hrun. cbn [mbind res_bind]. rewrite or_byte_at, lor_above by lia.
  cbn [length] in Hlen, Hz. rewrite length_rev in Hlen. assert (z = 0%nat) as -> by lia.
  exists (b + 2 ^ Z.of_nat i :: tail). assert (2 ^ Z.of_nat i <= 128) by (do 8 (destruct i as [|i]; [cbn; lia|]); lia).
  split; [done|]. split; [apply bytes_ok_cons; split; [unfold byte_ok; lia|done]|].
  split; [|cbn; lia]. rewrite from_be_cons. cbn [zlen] in Hv |- *. rewrite bits_value_rev in Hv. rewrite Hv.
  change (256 ^ zlen (@nil Z)) with 1. change (from_be []) with 0. change (2 ^ Z.of_nat 0) with 1. lia.
Qed.

(** ** Climbing from a hash to the root *)
Section climb.
Context `{Sha256Ok}.

(** The strings that are hashed, and that none of them collide. *)
Definition collision_free (W : list (list Z)) : Prop :=
  ∀ x y, x ∈ W → y ∈ W → hash_256 x = hash_256 y → x = y.

Definition hashed_in (W : list (list Z)) (t : SExp) : Prop := ∀ x, x ∈ preimages t → x ∈ W.

Lemma hashed_in_pair W f r : hashed_in W (Pair f r) → hashed_in W f ∧ hashed_in W r.
Proof. intros Hp. split; intros x Hx; apply Hp, list_elem_of_further, elem_of_app; auto. Qed.

Lemma tree_hash_in W s t :
  collision_free W → hashed_in W s → hashed_in W t → tree_hash s = tree_hash t → s = t.
Proof.
  intros Hcf Hs Ht [->|(x & y & Hx & Hy & Hne & Heq)]%tree_hash_binds; [done|].
  destruct Hne. by apply Hcf; [apply Hs|apply Ht|].
Qed.

(** An edge says what a pair has on one side. *)
Definition edge_ok (W : list (list Z)) (child : list Z) (edge : list Z * bool) : Prop :=
  ∃ f r, hashed_in W (Pair f r) ∧ edge.1 = tree_hash (Pair f r) ∧ child = tree_hash (if edge.2 then r else f).

Definition edges_ok (W : list (list Z)) (s : BackrefStackIndex) : Prop :=
  ∀ child edge, edge ∈ edges_of s child → edge_ok W child edge.

(** [climbs s h path top]: the steps of [path] lead from [h] up to [top]. *)
Fixpoint climbs (s : BackrefStackIndex) (h : list Z) (path : list bool) (top : list Z) : Prop :=
  match path with
  | [] => h = top
  | d :: path => ∃ p, (p, d) ∈ edges_of s h ∧ climbs s p path top
  end.

Lemma climbs_snoc s h path d top p :
  climbs s h path p → (top, d) ∈ edges_of s p → climbs s h (path ++ [d]) top.
Proof.
  revert h. induction path as [|b path IH]; intros h Hc Hd; cbn in *.
  - subst. eauto.
  - destruct Hc as (q & Hq & Hc). eauto.
Qed.

Lemma climbs_snoc_inv s h path d top :
  climbs s h (path ++ [d]) top → ∃ p, climbs s h path p ∧ (top, d) ∈ edges_of s p.
Proof.
  revert h. induction path as [|b path IH]; intros h Hc; cbn in *.
  - destruct Hc as (p & Hp & ->). eauto.
  - destruct Hc as (q & Hq & (p & Hp & Hd)%IH). eauto.
Qed.

(** Followed down from the top, the path leads to a tree with the hash. *)
Lemma climbs_follow W s h path t :
  collision_free W → edges_ok W s → hashed_in W t → climbs s h path (tree_hash t) →
  ∃ sub, follow (path_pos path) t = Some sub ∧ tree_hash sub = h ∧ hashed_in W sub.
Proof.
  intros Hcf He. revert t. induction path as [|d path IH] using rev_ind; intros t Ht Hc.
  - cbn in Hc. subst. exists t. done.
  - apply climbs_snoc_inv in Hc as (p & Hc & Hd). destruct (He _ _ Hd) as (f & r & Hfr & Htop & Hp). cbn [fst snd] in Htop, Hp.
    apply (tree_hash_in W) in Htop; [|done..]. subst t p. destruct (hashed_in_pair _ _ _ Hfr) as [Hf Hr].
    unfold path_pos. rewrite foldl_app. fold (path_pos path). cbn [foldl].
    destruct d; cbn [follow]; by apply IH.
Qed.
End climb.

(** ** The search *)
Section searching.
Variable s : BackrefStackIndex.

(** A queued node was reached by its path. *)
Definition reached (hash : list Z) (q : list (list Z * list bool)) : Prop :=
  ∀ node path, (node, path) ∈ q → climbs s hash path node.

Lemma push_parents_reached hash node path edges q seen :
  reached hash q → climbs s hash path node → (∀ e, e ∈ edges → e ∈ edges_of s node) →
  reached hash (push_parents (active s) edges path q seen).1.
Proof.
  intros Hq Hc He. revert q seen Hq. induction edges as [|[p d] edges IH]; intros q seen Hq; [done|]. cbn [push_parents].
  assert (He' : ∀ e, e ∈ edges → e ∈ edges_of s node) by (intros e Hin; by apply He, list_elem_of_further).
  destruct (_ || _); [by apply IH|]. apply IH; [done|].
  intros n' path' [Hin|Hin%list_elem_of_singleton]%elem_of_app; [by apply Hq|]. injection Hin as -> ->.
  eapply climbs_snoc; [done|]. apply He, list_elem_of_here.
Qed.

(** What is found: encodings of climbs to the root that are short enough. *)
Definition found_ok (hash : list Z) (max_atom_bytes : Z) (encoded : list Z) : Prop :=
  ∃ path len, climbs s hash path (root s) ∧ encode_backref_path path = Ok encoded ∧
    atom_length_bits (zlen path + 1) = Some len ∧ len ≤ max_atom_bytes.

Lemma search_sound hash fuel max_steps max_atom_bytes q seen cands depth l :
  reached hash q → Forall (found_ok hash max_atom_bytes) cands →
  search fuel s max_steps max_atom_bytes q seen cands depth = Ok l → Forall (found_ok hash max_atom_bytes) l.
Proof.
  revert q seen cands depth. induction fuel as [|fuel IH]; intros q seen cands depth Hq Hc; [done|]. cbn [search].
  destruct q as [|[node path] q]; [by intros [= <-]|].
  assert (Hq' : reached hash q) by (intros n p Hin; by apply Hq, list_elem_of_further).
  assert (Hclimb : climbs s hash path node) by (apply Hq, list_elem_of_here).
  destruct (match depth with Some _ => _ | None => _ end); [by intros [= <-]|].
  case_bool_decide as Hroot.
  - destruct (encode_backref_path path) as [encoded| |] eqn:Henc; cbn [mbind res_bind]; [|done..].
    destruct (atom_length_bits (zlen path + 1)) as [len|] eqn:Hlen; [|by apply IH].
    destruct (Z.leb_spec len max_atom_bytes); [|by apply IH]. apply IH; [done|].
    apply Forall_app. split; [done|]. constructor; [|done]. exists path, len. by rewrite <- Hroot.
  - destruct (max_steps <=? zlen path); [by apply IH|].
    destruct (push_parents _ _ _ _ _) as [q2 seen2] eqn:Hpush. apply IH; [|done].
    change q2 with (q2, seen2).1. rewrite <- Hpush. by apply (push_parents_reached hash node).
Qed.

(** The search ends: a node is queued once. *)
Definition unseen (seen : gset (list Z)) : nat := length (filter (λ t, t ∉ seen) (targets s)).

Lemma edges_targets node e : e ∈ edges_of s node → e.1 ∈ targets s.
Proof.
  unfold edges_of, targets. destruct (parents s !! node) as [l|] eqn:Hl; [|by intros ?%not_elem_of_nil].
  intros He. apply list_elem_of_fmap. exists e. split; [done|]. apply list_elem_of_bind. exists l. split; [done|].
  apply list_elem_of_fmap. exists (node, l). split; [done|]. by apply elem_of_map_to_list.
Qed.

Lemma unseen_insert t seen : t ∈ targets s → t ∉ seen → (unseen ({[t]} ∪ seen) < unseen seen)%nat.
Proof.
  intros Ht Hs. unfold unseen. induction (targets s) as [|x l IH]; [by apply not_elem_of_nil in Ht|].
  assert (Hmono : (length (filter (λ x, x ∉ {[t]} ∪ seen) l) ≤ length (filter (λ x, x ∉ seen) l))%nat).
  { clear. induction l as [|x l IH]; [done|]. rewrite !filter_cons. destruct (decide (x ∉ seen)) as [Hx|Hx].
    - destruct (decide _); cbn; lia.
    - rewrite decide_False; [done|]. set_solver. }
  rewrite !filter_cons. apply elem_of_cons in Ht as [<-|Ht].
  - rewrite decide_False by set_solver. rewrite decide_True by done. cbn. lia.
  - specialize (IH Ht). destruct (decide (x ∉ seen)) as [Hx|Hx].
    + destruct (decide _); cbn; lia.
    + rewrite decide_False; [done|]. set_solver.
Qed.

Lemma push_parents_measure edges path q seen :
  (∀ e, e ∈ edges → e.1 ∈ targets s) →
  (length (push_parents (active s) edges path q seen).1 + unseen (push_parents (active s) edges path q seen).2
     ≤ length q + unseen seen)%nat.
Proof.
  intros He. revert q seen. induction edges as [|[p d] edges IH]; intros q seen; [done|]. cbn [push_parents].
  assert (He' : ∀ e, e ∈ edges → e.1 ∈ targets s) by (intros e Hin; by apply He, list_elem_of_further).
  destruct ((default 0 (active s !! p) =? 0) || bool_decide (p ∈ seen)) eqn:Hb; [by apply IH|].
  apply orb_false_iff in Hb as [_ Hb%bool_decide_eq_false]. specialize (IH He' (q ++ [(p, path ++ [d])]) ({[p]} ∪ seen)).
  pose proof (unseen_insert p seen (He (p, d) (list_elem_of_here _ _)) Hb). rewrite length_app in IH. cbn [length] in IH. lia.
Qed.

Lemma search_total fuel max_steps max_atom_bytes q seen cands depth :
  (length q + unseen seen < fuel)%nat → ∃ l, search fuel s max_steps max_atom_bytes q seen cands depth = Ok l.
Proof.
  revert q seen cands depth. induction fuel as [|fuel IH]; intros q seen cands depth Hf; [lia|]. cbn [search].
  destruct q as [|[node path] q]; [by eauto|]. cbn [length] in Hf.
  destruct (match depth with Some _ => _ | None => _ end); [by eauto|].
  case_bool_decide.
  - destruct (encode_backref_path_spec path) as (v & -> & _). cbn [mbind res_bind].
    destruct (match atom_length_bits _ with Some _ => _ | None => _ end); apply IH; lia.
  - destruct (max_steps <=? zlen path); [apply IH; lia|].
    pose proof (push_parents_measure (edges_of s node) path q seen (edges_targets node)) as Hm.
    destruct (push_parents _ _ _ _ _) as [q2 seen2]. cbn [fst snd] in Hm. apply IH. lia.
Qed.

Lemma min_bytes_in l x : min_bytes l = Some x → x ∈ l.
Proof.
  destruct l as [|y l]; [done|]. cbn [min_bytes]. intros [= <-]. revert y.
  induction l as [|z l IH]; intros y; cbn [foldl]; [apply list_elem_of_here|].
  destruct (bytes_leb y z).
  - specialize (IH y). apply elem_of_cons in IH as [->|Hin]; [apply list_elem_of_here|]. do 2 apply list_elem_of_further. done.
  - apply list_elem_of_further, IH.
Qed.

Lemma shortest_path_spec hash plain_length :
  ∃ r, shortest_path s hash plain_length = Ok r ∧
    ∀ v, r = Some v → found_ok hash (plain_length - 1) v.
Proof.
  unfold shortest_path. destruct (plain_length <? 4); [by eexists|]. cbv zeta.
  destruct (search_total (length (targets s) + 2) (sat_sub (sat_mulu 64 (plain_length - 1) 8) 1) (plain_length - 1)
    [(hash, [])] {[hash]} [] None) as [l Hl].
  { cbn [length]. unfold unseen. pose proof (length_filter (λ t, t ∉ ({[hash]} : gset (list Z))) (targets s)). lia. }
  rewrite Hl. cbn [mbind res_bind]. eexists. split; [done|]. intros v Hv.
  apply (search_sound hash) in Hl; [|intros n p [= -> ->]%list_elem_of_singleton; done|done].
  rewrite Forall_forall in Hl. by apply Hl, min_bytes_in.
Qed.
End searching.

(** ** Lengths *)
Lemma write_atom_eq data : write_atom data = atom_to_bytes data.
Proof.
  unfold write_atom, atom_to_bytes. destruct data as [|b [|b' data]]; cbn [bool_decide]; [done| |].
  - rewrite bool_decide_eq_false_2 by done. cbn. done.
  - rewrite bool_decide_eq_false_2 by done. destruct (Z.eqb_spec (zlen (b :: b' :: data)) 1) as [Hl|]; [|done].
    rewrite !zlen_cons in Hl. pose proof (zlen_nonneg data). lia.
Qed.

Definition prefix_length (v : Z) : Z :=
  if v <? 0x40 then 1 else if v <? 0x2000 then 2 else if v <? 0x100000 then 3 else if v <? 0x8000000 then 4 else 5.

Lemma encode_size_length v bs : encode_size v = Ok bs → zlen bs = prefix_length v ∧ v < 0x400000000.
Proof.
  unfold encode_size, prefix_length. cbv zeta.
  destruct (Z.ltb_spec v 0x40); [intros [= <-]; split; [done|lia]|].
  destruct (Z.ltb_spec v 0x2000); [intros [= <-]; split; [done|lia]|].
  destruct (Z.ltb_spec v 0x100000); [intros [= <-]; split; [done|lia]|].
  destruct (Z.ltb_spec v 0x8000000); [intros [= <-]; split; [done|lia]|].
  destruct (Z.ltb_spec v 0x400000000); [intros [= <-]; split; [done|lia]|done].
Qed.

Lemma encode_size_ok v : 0 ≤ v < 0x400000000 → ∃ bs, encode_size v = Ok bs.
Proof.
  intros Hv. unfold encode_size. cbv zeta. do 4 (destruct (_ <? _); [eexists; reflexivity|]).
  destruct (Z.ltb_spec v 0x400000000); [eexists; reflexivity|lia].
Qed.

Lemma atom_bytes_length a bs : atom_to_bytes a = Ok bs → serialized_length_atom a = zlen bs.
Proof.
  rewrite <- write_atom_eq. unfold write_atom, serialized_length_atom, MAX_SINGLE_BYTE. cbv zeta.
  case_bool_decide as Hne; [subst; by intros [= <-]|].
  destruct (Z.eqb_spec (zlen a) 0) as [H0|H0]; [by apply zlen_0 in H0|]. cbn [orb].
  destruct (Z.eqb_spec (zlen a) 1) as [H1|H1]; cbn [andb].
  - destruct (Z.ltb_spec (nth 0 a 0) 128), (Z.leb_spec (nth 0 a 0) 127); try lia; [by intros [= <-]|].
    intros Hs. apply bind_Ok_inv in Hs as (sz & [Hl _]%encode_size_length & [= <-]). rewrite zlen_app, Hl, H1. done.
  - intros Hs. apply bind_Ok_inv in Hs as (sz & [Hl _]%encode_size_length & [= <-]). rewrite zlen_app, Hl. unfold prefix_length.
    repeat (destruct (_ <? _); [done|]). done.
Qed.

(** The length of a written path is what [atom_length_bits] says. *)
Lemma write_path_length path v len :
  encode_backref_path path = Ok v → atom_length_bits (zlen path + 1) = Some len →
  ∃ bs, atom_to_bytes v = Ok bs ∧ zlen bs ≤ len.
Proof.
  intros Henc Hlen. destruct (encode_backref_path_spec path) as (v' & Henc' & Hok & Hval & Hl). rewrite Henc in Henc'. injection Henc' as <-.
  pose proof (zlen_nonneg path) as Hpos. unfold atom_length_bits, div_ceil in Hlen. cbv zeta in Hlen.
  assert (Hn : zlen v = (zlen path + 1 + 8 - 1) / 8).
  { unfold zlen. rewrite Hl. rewrite Nat2Z.inj_div. f_equal; lia. }
  rewrite <- Hn in Hlen. rewrite <- write_atom_eq. unfold write_atom, MAX_SINGLE_BYTE.
  assert (Hne : v ≠ []) by (intros ->; change (zlen (@nil Z)) with 0 in Hn; assert (1 ≤ (zlen path + 1 + 8 - 1) / 8) by (apply Z.div_le_lower_bound; lia); lia).
  rewrite bool_decide_eq_false_2 by done.
  destruct (Z.ltb_spec (zlen path + 1) 8) as [Hlt|Hge].
  - assert (H1 : zlen v = 1).
    { rewrite Hn. symmetry. apply (Z.div_unique _ _ _ (zlen path + 1 + 8 - 1 - 8)); lia. }
    destruct v as [|b [|]]; [done| |rewrite !zlen_cons in H1; pose proof (zlen_nonneg l); lia].
    assert (Hb : b ≤ 127).
    { change (from_be [b]) with (0 * 256 + b) in Hval. clear -Hval Hlt Hpos.
      assert (Hp : ∀ p, Zpos (path_pos p) < 2 ^ (zlen p + 1)).
      { intros p. induction p as [|d p IH] using rev_ind; [done|]. unfold path_pos in *. rewrite foldl_app. cbn [foldl].
        rewrite zlen_app. change (zlen [d]) with 1. pose proof (zlen_nonneg p). rewrite (Z.pow_add_r 2 (zlen p + 1) 1) by lia.
        change (2 ^ 1) with 2. destruct d; lia. }
      specialize (Hp path). assert (2 ^ (zlen path + 1) ≤ 2 ^ 7) by (apply Z.pow_le_mono_r; lia). lia. }
    cbn [nth]. rewrite (proj2 (Z.leb_le _ _) Hb). cbn. injection Hlen as <-. eexists. split; [done|]. done.
  - assert (Hsz : zlen v < 0x400000000).
    { destruct (Z.lt_ge_cases (zlen v) 0x400000000) as [|Hbig]; [done|].
      do 5 rewrite (proj2 (Z.ltb_ge _ _)) in Hlen by lia. done. }
    pose proof (zlen_nonneg v) as Hv0. destruct (encode_size_ok (zlen v)) as [sz Hs]; [lia|].
    pose proof (encode_size_length _ _ Hs) as [Hsl _].
    assert (Hlen' : len = prefix_length (zlen v) + zlen v).
    { rewrite (proj2 (Z.ltb_lt (zlen v) 0x400000000) Hsz) in Hlen. unfold prefix_length.
      do 4 (destruct (_ <? _); [injection Hlen as <-; lia|]). injection Hlen as <-. lia. }
    destruct ((zlen v =? 1) && (nth 0 v 0 <=? 127)) eqn:Hone.
    + eexists. split; [done|]. change (zlen [nth 0 v 0]) with 1. unfold prefix_length in Hlen'. repeat (destruct (_ <? _); [lia|]). lia.
    + rewrite Hs. cbn [mbind res_bind]. eexists. split; [done|]. rewrite zlen_app. lia.
Qed.

(** ** The memos *)
Fixpoint plain_len (t : SExp) : Z :=
  match t with
  | Atom a => serialized_length_atom a
  | Pair f r => sat_addu 64 (sat_addu 64 1 (plain_len f)) (plain_len r)
  end.

Lemma plain_len_enc t bs : enc t = Ok bs → plain_len t ≤ zlen bs.
Proof.
  revert bs. induction t as [a|f IHf r IHr]; intros bs; cbn [enc plain_len].
  - intros Ha%atom_bytes_length. lia.
  - intros He. apply bind_Ok_inv in He as (bf & Hf%IHf & He). apply bind_Ok_inv in He as (br & Hr%IHr & [= <-]).
    rewrite zlen_cons, zlen_app. unfold sat_addu. lia.
Qed.

Section memo.
Context `{Sha256}.
(** The node at each address; a node is placed when every node of it is what
    its address says. *)
Variable env : gmap Z lnode.

Fixpoint placed (n : lnode) : Prop :=
  env !! addr n = Some n ∧ match n with LAtom _ _ => True | LPair _ f r => placed f ∧ placed r end.

(** The memos of a node and of all nodes of it. *)
Fixpoint memo_has (m : memos) (n : lnode) : Prop :=
  memo_hashes m !! addr n = Some (tree_hash (tree n)) ∧ memo_lens m !! addr n = Some (plain_len (tree n)) ∧
  match n with LAtom _ _ => True | LPair _ f r => memo_has m f ∧ memo_has m r end.

Definition memo_ok (m : memos) : Prop :=
  ∀ k h, memo_hashes m !! k = Some h → ∃ n, env !! k = Some n ∧ placed n ∧ memo_has m n.

Definition memo_insert (n : lnode) (m : memos) : memos :=
  {| memo_hashes := <[addr n := tree_hash (tree n)]> (memo_hashes m);
     memo_lens := <[addr n := plain_len (tree n)]> (memo_lens m) |}.

Lemma placed_env n : placed n → env !! addr n = Some n.
Proof. destruct n; intros [? _]; done. Qed.

Lemma memo_has_insert m n n' : placed n → placed n' → memo_has m n' → memo_has (memo_insert n m) n'.
Proof.
  intros Hn Hn' Hm.
  assert (Hone : ∀ q, placed q → memo_hashes m !! addr q = Some (tree_hash (tree q)) → memo_lens m !! addr q = Some (plain_len (tree q)) →
    memo_hashes (memo_insert n m) !! addr q = Some (tree_hash (tree q)) ∧
    memo_lens (memo_insert n m) !! addr q = Some (plain_len (tree q))).
  { intros q Hq Hh Hl. cbn. destruct (decide (addr n = addr q)) as [Heq|Hne].
    - apply placed_env in Hn, Hq. rewrite Heq, Hq in Hn. injection Hn as <-. by rewrite !lookup_insert_eq.
    - by rewrite !lookup_insert_ne. }
  induction n' as [k a|k f IHf r IHr]; destruct Hm as (Hh & Hl & Hm).
  - destruct (Hone _ Hn' Hh Hl). done.
  - destruct (Hone _ Hn' Hh Hl). destruct Hn' as (_ & Hf & Hr), Hm as [Hmf Hmr]. cbn [memo_has]. auto.
Qed.

Lemma memo_insert_ok m n :
  memo_ok m → placed n → match n with LAtom _ _ => True | LPair _ f r => memo_has m f ∧ memo_has m r end →
  memo_ok (memo_insert n m) ∧ memo_has (memo_insert n m) n.
Proof.
  intros Hm Hn Hsub. assert (Hhas : memo_has (memo_insert n m) n).
  { assert (Htop : memo_hashes (memo_insert n m) !! addr n = Some (tree_hash (tree n)) ∧
      memo_lens (memo_insert n m) !! addr n = Some (plain_len (tree n))) by (cbn; by rewrite !lookup_insert_eq).
    destruct n as [k a|k f r]; cbn [memo_has]; [tauto|]. destruct Htop, Hsub. pose proof Hn as (_ & Hf & Hr).
    auto using memo_has_insert. }
  split; [|done]. intros k h Hk. cbn in Hk. destruct (decide (addr n = k)) as [<-|Hne].
  - exists n. split; [by apply placed_env|done].
  - rewrite lookup_insert_ne in Hk by done. destruct (Hm _ _ Hk) as (q & He & Hq & Hhq). exists q. auto using memo_has_insert.
Qed.

Lemma memo_loop_node n m stack :
  placed n → memo_ok m →
  ∃ k m', (k ≤ 2 * sexp_size (tree n))%nat ∧ memo_ok m' ∧ memo_has m' n ∧ (∀ q, placed q → memo_has m q → memo_has m' q) ∧
    ∀ fuel, memo_loop (k + fuel) (Enter n :: stack) m = memo_loop fuel stack m'.
Proof.
  revert m stack. induction n as [key a|key f IHf r IHr]; intros m stack Hn Hm;
    (destruct (memo_hashes m !! key) as [h|] eqn:Hk;
     [destruct (Hm _ _ Hk) as (q & He & Hq & Hhas); pose proof (placed_env _ Hn) as He'; cbn [addr] in He'; rewrite He in He'; injection He' as ->;
      exists 1%nat, m; split; [cbn; lia|]; split; [done|]; split; [done|]; split; [done|]; intros fuel; cbn [Nat.add memo_loop addr]; by rewrite Hk|]).
  - destruct (memo_insert_ok m (LAtom key a) Hm Hn I) as [Hok Hhas]. exists 1%nat, (memo_insert (LAtom key a) m).
    split; [cbn; lia|]. split; [done|]. split; [done|]. split; [intros; by apply memo_has_insert|].
    intros fuel. cbn [Nat.add memo_loop addr]. by rewrite Hk.
  - pose proof Hn as (_ & Hf & Hr).
    destruct (IHr m (Enter f :: Exit (LPair key f r) :: stack) Hr Hm) as (k1 & m1 & Hk1 & Hm1 & Hhas1 & Hext1 & Hrun1).
    destruct (IHf m1 (Exit (LPair key f r) :: stack) Hf Hm1) as (k2 & m2 & Hk2 & Hm2 & Hhas2 & Hext2 & Hrun2).
    specialize (Hext2 _ Hr Hhas1) as Hhas1'.
    destruct (memo_insert_ok m2 (LPair key f r) Hm2 Hn (conj Hhas2 Hhas1')) as [Hok Hhas].
    exists (S (k1 + (k2 + 1))), (memo_insert (LPair key f r) m2). split; [cbn; lia|]. split; [done|]. split; [done|].
    split; [intros q Hq Hhq; apply memo_has_insert; auto|].
    intros fuel. replace (S (k1 + (k2 + 1)) + fuel)%nat with (S (k1 + (k2 + S fuel))) by lia. cbn [memo_loop addr]. rewrite Hk, Hrun1, Hrun2.
    cbn [memo_loop].
    assert (Hl : ∀ q, memo_has m2 q → memo_hashes m2 !! addr q = Some (tree_hash (tree q)) ∧ memo_lens m2 !! addr q = Some (plain_len (tree q)))
      by (intros [] (? & ? & _); done).
    destruct (Hl _ Hhas2) as [-> ->], (Hl _ Hhas1') as [-> ->]. done.
Qed.

Lemma compute_memos_spec n : placed n → ∃ m, compute_memos n = Ok m ∧ memo_has m n.
Proof.
  intros Hn. destruct (memo_loop_node n {| memo_hashes := ∅; memo_lens := ∅ |} [] Hn) as (k & m & Hk & _ & Hhas & _ & Hrun).
  { intros key h. cbn. by rewrite lookup_empty. }
  exists m. split; [|done]. unfold compute_memos.
  replace (2 * sexp_size (tree n) + 1)%nat with (k + S (2 * sexp_size (tree n) - k))%nat by lia. by rewrite Hrun.
Qed.
End memo.

(** ** The index follows the decoder's stack *)
Section simulation.
Context `{Sha256Ok}.
(** The strings hashed. *)
Variable W : list (list Z).
Hypothesis Hcf : collision_free W.

(** The decoder's values, the latest first, as the list paths start from. *)
Definition stack_tree (rvals : list SExp) : SExp := foldr Pair NULL_SEXP rvals.

Lemma stack_sexp_tree (vals : value_buf) : stack_sexp vals = stack_tree (rev vals.*1).
Proof.
  unfold stack_sexp, stack_tree. induction vals as [|v vals IH] using rev_ind; [done|].
  rewrite foldl_app, fmap_app, rev_app_distr. cbn. by rewrite IH.
Qed.

Fixpoint stack_hashes (rvals : list SExp) : list (list Z * list Z) :=
  match rvals with
  | [] => []
  | v :: rvals => (tree_hash v, tree_hash (stack_tree rvals)) :: stack_hashes rvals
  end.

Record index_ok (N : Z) (rvals : list SExp) (s : BackrefStackIndex) : Prop := {
  i_root : root s = tree_hash (stack_tree rvals);
  i_stack : istack s = stack_hashes rvals;
  i_edges : edges_ok W s;
  i_active : ∀ h, 0 ≤ default 0 (active s !! h) ≤ N;
}.

Lemma bump_ok h m N :
  (∀ h, 0 ≤ default 0 (m !! h) ≤ N) → N + 1 < 2 ^ 32 →
  ∃ m', bump h m = Ok m' ∧ ∀ h, 0 ≤ default 0 (m' !! h) ≤ N + 1.
Proof.
  intros Hm HN. pose proof (Hm h) as Hh. unfold bump. rewrite chk_ok by (unfold uok; lia). cbn [mbind res_bind].
  eexists. split; [done|]. intros h'. destruct (decide (h = h')) as [<-|Hne].
  - rewrite lookup_insert_eq. cbn. lia.
  - rewrite lookup_insert_ne by done. specialize (Hm h'). lia.
Qed.

Lemma unbump_ok h m N : (∀ h, 0 ≤ default 0 (m !! h) ≤ N) → ∀ h', 0 ≤ default 0 (unbump h m !! h') ≤ N.
Proof.
  intros Hm h'. unfold unbump. destruct (decide (h = h')) as [<-|Hne].
  - rewrite lookup_alter_eq. specialize (Hm h). destruct (m !! h); cbn in *; [unfold sat_sub|]; lia.
  - by rewrite lookup_alter_ne.
Qed.

Lemma add_parent_elem c p d m child e :
  e ∈ default [] (add_parent c p d m !! child) → (child = c ∧ e = (p, d)) ∨ e ∈ default [] (m !! child).
Proof.
  unfold add_parent. destruct (decide (c = child)) as [<-|Hne].
  - rewrite lookup_insert_eq. cbn. intros [?|?%list_elem_of_singleton]%elem_of_app; auto.
  - rewrite lookup_insert_ne by done. auto.
Qed.

(** Both children of a pair that is hashed know it. *)
Lemma add_pair_edges m f r :
  hashed_in W (Pair f r) → (∀ child e, e ∈ default [] (m !! child) → edge_ok W child e) →
  ∀ child e, e ∈ default [] (add_parent (tree_hash r) (tree_hash (Pair f r)) true
    (add_parent (tree_hash f) (tree_hash (Pair f r)) false m) !! child) → edge_ok W child e.
Proof.
  intros Hfr Hm child e [[-> ->]|[[-> ->]|He]%add_parent_elem]%add_parent_elem; [| |by apply Hm]; exists f, r; done.
Qed.

Lemma activate_ok N rvals s t :
  index_ok N rvals s → hashed_in W (Pair t (stack_tree rvals)) → N + 2 < 2 ^ 32 →
  ∃ s', activate (tree_hash t) s = Ok s' ∧ index_ok (N + 2) (t :: rvals) s'.
Proof.
  intros [Hr Hs He Ha] Ht HN. unfold activate. cbv zeta.
  destruct (bump_ok (tree_hash t) (active s) N Ha) as (m1 & -> & Hm1); [lia|]. cbn [mbind res_bind].
  destruct (bump_ok (pair_tree_hash (tree_hash t) (root s)) m1 (N + 1) Hm1) as (m2 & -> & Hm2); [lia|]. cbn [mbind res_bind].
  eexists. split; [done|]. rewrite Hr. split; cbn [root istack active parents].
  - done.
  - by rewrite Hs.
  - intros child e. unfold edges_of. cbn [parents]. by apply (add_pair_edges (parents s) t (stack_tree rvals)).
  - intros h. specialize (Hm2 h). lia.
Qed.

Lemma deactivate_ok N t rvals s :
  index_ok N (t :: rvals) s →
  ∃ s', deactivate_top s = Ok (tree_hash t, tree_hash (stack_tree rvals), s') ∧ index_ok N rvals s'.
Proof.
  intros [Hr Hs He Ha]. unfold deactivate_top. rewrite Hs. cbn [stack_hashes]. eexists. split; [done|].
  split; cbn [root istack active parents fst snd]; [done|done|exact He|]. by do 2 apply unbump_ok.
Qed.

Lemma combine_ok N f r rvals s :
  index_ok N (r :: f :: rvals) s → hashed_in W (Pair (Pair f r) (stack_tree rvals)) → N + 4 < 2 ^ 32 →
  ∃ s', combine_top_pair s = Ok s' ∧ index_ok (N + 4) (Pair f r :: rvals) s'.
Proof.
  intros Hi Ht HN. unfold combine_top_pair.
  destruct (deactivate_ok _ _ _ _ Hi) as (s1 & -> & Hi1). cbn [mbind res_bind].
  destruct (deactivate_ok _ _ _ _ Hi1) as (s2 & -> & [Hr2 Hs2 He2 Ha2]). cbn [mbind res_bind fst snd].
  destruct (bump_ok (tree_hash f) (active s2) N Ha2) as (m1 & -> & Hm1); [lia|]. cbn [mbind res_bind].
  destruct (bump_ok (tree_hash r) m1 (N + 1) Hm1) as (m2 & -> & Hm2); [lia|]. cbn [mbind res_bind].
  destruct (hashed_in_pair _ _ _ Ht) as [Hfr _].
  edestruct (activate_ok (N + 2) rvals) as (s' & Hs' & Hi'); [|exact Ht|lia|].
  2: { exists s'. split; [exact Hs'|]. by replace (N + 4) with (N + 2 + 2) by lia. }
  split; cbn [root istack active parents]; [done|done| |].
  - intros child e. unfold edges_of. cbn [parents]. by apply (add_pair_edges (parents s2) f r).
  - intros h. specialize (Hm2 h). lia.
Qed.

(** A path that is found leads the decoder to the node. *)
Lemma found_path N rvals s t len v :
  index_ok N rvals s → hashed_in W (stack_tree rvals) → hashed_in W t →
  found_ok s (tree_hash t) (len - 1) v →
  bytes_ok v ∧ path_lookup (from_be v) (stack_tree rvals) = Some t ∧ ∃ bs, atom_to_bytes v = Ok bs ∧ zlen bs + 1 ≤ len.
Proof.
  intros [Hr _ He _] Hst Ht (path & l & Hc & Henc & Hbits & Hle).
  destruct (encode_backref_path_spec path) as (v' & Henc' & Hok & Hval & _). rewrite Henc in Henc'. injection Henc' as <-.
  split; [done|]. split.
  - rewrite Hval. cbn [path_lookup]. rewrite Hr in Hc.
    destruct (climbs_follow W s (tree_hash t) path (stack_tree rvals) Hcf He Hst Hc) as (sub & -> & Hh & Hsub).
    f_equal. by apply (tree_hash_in W).
  - destruct (write_path_length path v l Henc Hbits) as (bs & Hbs & Hlen). exists bs. split; [done|]. lia.
Qed.

(** ** The decoder's rounds *)
Lemma backref_exp_step ops vals c b rest :
  remaining c = b :: rest →
  backref_parse_step Exp ops vals c =
    if b =? CONS_BOX_MARKER then Ok (Exp :: Exp :: PCons :: ops, vals, advance 1 c)
    else if b =? BACK_REFERENCE then
      '(path, c) ← parse_backref_path (advance 1 c);
      '(backref, vals) ← traverse_backref_path vals path;
      Ok (ops, vals ++ [(backref, None)], c)
    else '(v, c) ← parse_atom_from_first_byte (advance 1 c) b; Ok (ops, vals ++ [(v, None)], c).
Proof.
  intros Hr. cbn [backref_parse_step]. rewrite Hr, zlen_cons.
  destruct (Z.eqb_spec (zlen rest + 1) 0); [pose proof (zlen_nonneg rest); lia|].
  rewrite (read_exact_app 1 [b] rest) by done. done.
Qed.

Lemma caches_ok_prefix (vals tl : value_buf) : caches_ok (vals ++ tl) → caches_ok vals.
Proof.
  intros Hc i v c Hi. rewrite (Hc i v c); [|by apply lookup_app_l_Some]. apply lookup_lt_Some in Hi.
  by rewrite take_app_le by lia.
Qed.

Lemma caches_ok_snoc (vals : value_buf) v : caches_ok vals → caches_ok (vals ++ [(v, None)]).
Proof.
  intros Hc i w c [Hi|[Hi Hw]]%lookup_app_Some.
  - rewrite (Hc i w c Hi). apply lookup_lt_Some in Hi. by rewrite take_app_le by lia.
  - by destruct (i - length vals)%nat as [|[]].
Qed.

(** Reading the bytes of a value: [decodes bs t rvals]. *)
Definition decodes (bs : list Z) (t : SExp) (rvals : list SExp) : Prop :=
  ∀ c suf (vals : value_buf), remaining c = bs ++ suf → vals.*1 = rev rvals → caches_ok vals →
    ∃ k (vals' : value_buf), (k + 1 ≤ 2 * length bs)%nat ∧ vals'.*1 = rev (t :: rvals) ∧ caches_ok vals' ∧
      ∀ fuel ops, backref_parse_loop (k + fuel) (Exp :: ops) vals c = backref_parse_loop fuel ops vals' (advance (length bs) c).

Lemma decodes_atom a bs rvals : bytes_ok a → atom_to_bytes a = Ok bs → decodes bs (Atom a) rvals.
Proof.
  intros Ha Hbs c suf vals Hr Hv Hc. destruct (atom_to_bytes_parse a bs suf c Ha Hbs Hr) as (b0 & tl & -> & _ & Hlt & Hp).
  exists 1%nat, (vals ++ [(Atom a, None)]). split; [cbn; lia|]. split; [by rewrite fmap_app, Hv|].
  split; [by apply caches_ok_snoc|]. intros fuel ops. cbn [Nat.add backref_parse_loop]. rewrite (backref_exp_step _ _ _ _ _ Hr).
  unfold CONS_BOX_MARKER, BACK_REFERENCE. rewrite (proj2 (Z.eqb_neq b0 0xff)), (proj2 (Z.eqb_neq b0 0xfe)), Hp by lia. done.
Qed.

Lemma decodes_backref v bs t rvals :
  bytes_ok v → atom_to_bytes v = Ok bs → path_lookup (from_be v) (stack_tree rvals) = Some t →
  decodes (BACK_REFERENCE :: bs) t rvals.
Proof.
  intros Hok Hbs Hl c suf vals Hr Hv Hc.
  assert (Hr1 : remaining (advance 1 c) = bs ++ suf) by exact (remaining_app [BACK_REFERENCE] (bs ++ suf) c Hr).
  destruct (atom_to_bytes_parse v bs suf (advance 1 c) Hok Hbs Hr1) as (b0 & tl & -> & _ & Hlt & Hp).
  assert (Hnz : (zlen (remaining (advance 1 c)) =? 0) = false).
  { apply Z.eqb_neq. rewrite Hr1, zlen_app, zlen_cons. pose proof (zlen_nonneg tl). pose proof (zlen_nonneg suf). lia. }
  pose proof (backref_resolves vals v Hok Hc) as Hres. rewrite stack_sexp_tree, Hv, rev_involutive, Hl in Hres.
  destruct Hres as (vals' & Htr & Hv' & Hc'). exists 1%nat, (vals' ++ [(t, None)]).
  split; [cbn; lia|]. split; [by rewrite fmap_app, Hv'|]. split; [by apply caches_ok_snoc|].
  intros fuel ops. cbn [Nat.add backref_parse_loop]. rewrite (backref_exp_step _ _ _ _ _ Hr).
  change (BACK_REFERENCE =? CONS_BOX_MARKER) with false. rewrite Z.eqb_refl. cbn iota. unfold parse_backref_path. rewrite Hnz.
  rewrite (read_exact_app 1 [b0] (tl ++ suf)) by (done || exact Hr1). cbn [from_io mbind res_bind hd].
  unfold CONS_BOX_MARKER, BACK_REFERENCE. rewrite (proj2 (Z.eqb_neq b0 0xff)), (proj2 (Z.eqb_neq b0 0xfe)) by lia. cbn [orb length].
  rewrite Hp. cbn [mbind res_bind]. rewrite Htr. cbn [mbind res_bind length]. rewrite advance_advance. done.
Qed.

Lemma decodes_pair bf br f r rvals :
  decodes bf f rvals → decodes br r (f :: rvals) → decodes (CONS_BOX_MARKER :: bf ++ br) (Pair f r) rvals.
Proof.
  intros Hf Hr c suf vals Hrem Hv Hc. cbn [app] in Hrem. rewrite <- (assoc_L (++)) in Hrem.
  pose proof (remaining_app [CONS_BOX_MARKER] _ _ Hrem) as Hr1. cbn [length] in Hr1.
  destruct (Hf _ _ _ Hr1 Hv Hc) as (k1 & vals1 & Hk1 & Hv1 & Hc1 & Hrun1). apply remaining_app in Hr1.
  destruct (Hr _ _ _ Hr1 Hv1 Hc1) as (k2 & vals2 & Hk2 & Hv2 & Hc2 & Hrun2).
  cbn [rev] in Hv2. apply fmap_app_inv in Hv2 as (vals3 & tl2 & Hv3 & Htl2 & ->).
  symmetry in Hv3. apply fmap_app_inv in Hv3 as (vals4 & tl1 & Hv4 & Htl1 & ->).
  destruct tl1 as [|[f' cf] [|]], tl2 as [|[r' cr] [|]]; try discriminate. cbn in Htl1, Htl2.
  injection Htl1 as <-. injection Htl2 as <-.
  exists (S (k1 + (k2 + 1)))%nat, (vals4 ++ [(Pair f r, None)]). cbn [length]. rewrite length_app. split; [lia|].
  split; [by rewrite fmap_app, <- Hv4|]. split; [apply caches_ok_snoc; by do 2 eapply caches_ok_prefix|].
  intros fuel ops. replace (S (k1 + (k2 + 1)) + fuel)%nat with (S (k1 + (k2 + S fuel))) by lia.
  cbn [backref_parse_loop]. rewrite (backref_exp_step _ _ _ _ _ Hrem), Z.eqb_refl. cbn [mbind res_bind].
  rewrite Hrun1, Hrun2. cbn [backref_parse_loop backref_parse_step].
  rewrite !rev_app_distr. cbn [rev app mbind res_bind]. by rewrite rev_involutive, !advance_advance.
Qed.

(** Plain bytes are read back too. *)
Lemma decodes_enc t bs rvals : sexp_ok t → enc t = Ok bs → decodes bs t rvals.
Proof.
  revert bs rvals. induction t as [a|f IHf r IHr]; intros bs rvals Hok Henc; [by apply decodes_atom|].
  destruct Hok as [Hf Hr]. cbn [enc] in Henc. apply bind_Ok_inv in Henc as (bf & Hbf & Henc).
  apply bind_Ok_inv in Henc as (br & Hbr & [= <-]). apply decodes_pair; auto.
Qed.

Lemma decodes_parse bs t c suf :
  decodes bs t [] → remaining c = bs ++ suf → sexp_from_bytes_backrefs c = Ok (t, advance (length bs) c).
Proof.
  intros Hdec Hr. destruct (Hdec c suf [] Hr) as (j & vals & Hj & Hv & _ & Hloop); [done|by intros i v c' Hi'|].
  unfold sexp_from_bytes_backrefs. rewrite Hr, zlen_app, length_app. pose proof (zlen_nonneg suf) as Hsuf.
  rewrite (proj2 (Z.eqb_neq _ _)) by (unfold zlen at 1; lia).
  replace (2 * (length bs + length suf) + 3)%nat with (j + S (2 * (length bs + length suf) + 2 - j))%nat by lia.
  rewrite Hloop. cbn [backref_parse_loop]. cbn in Hv. destruct vals as [|[v cv] [|]]; try discriminate.
  cbn in Hv. injection Hv as ->. done.
Qed.

(** ** One node *)
Fixpoint stack_trees (t st : SExp) : list SExp :=
  match t with
  | Atom _ => [Pair t st]
  | Pair f r => stack_trees f st ++ stack_trees r (Pair f st) ++ [Pair t st]
  end.

Lemma stack_trees_last t st : Pair t st ∈ stack_trees t st.
Proof. destruct t; cbn; rewrite ?elem_of_app, ?list_elem_of_singleton; auto. Qed.

(** What writing a node does to the index and which bytes it adds. *)
Record streams (m : memos) (n : lnode) (rvals : list SExp) (N : Z) (s : BackrefStackIndex) (plain : list Z)
    (k : nat) (bs : list Z) (s' : BackrefStackIndex) (N' : Z) : Prop := {
  st_rounds : (k ≤ sexp_size (tree n))%nat;
  st_index : index_ok N' (tree n :: rvals) s';
  st_bound : N' ≤ N + 4 * Z.of_nat (sexp_size (tree n));
  st_short : zlen bs ≤ zlen plain;
  st_run fuel ws ro f : stream_loop (k + fuel) m (n :: ws) (Parse :: ro) s f =
    ('(ro, s) ← pop_cons ro s'; stream_loop fuel m ws ro s (f ++ bs));
  st_decodes : decodes bs (tree n) rvals;
}.

Lemma memo_has_top m n :
  memo_has m n → memo_hashes m !! addr n = Some (tree_hash (tree n)) ∧ memo_lens m !! addr n = Some (plain_len (tree n)).
Proof. destruct n; intros (? & ? & _); done. Qed.

Lemma streams_found m n rvals N s plain v :
  memo_has m n → enc (tree n) = Ok plain → index_ok N rvals s → hashed_in W (Pair (tree n) (stack_tree rvals)) →
  N + 2 < 2 ^ 32 → shortest_path s (tree_hash (tree n)) (plain_len (tree n)) = Ok (Some v) →
  ∃ k bs s' N', streams m n rvals N s plain k bs s' N'.
Proof.
  intros [Hh Hl]%memo_has_top Henc Hi Hw HN Hsp. destruct (hashed_in_pair _ _ _ Hw) as [Hn Hst].
  destruct (shortest_path_spec s (tree_hash (tree n)) (plain_len (tree n))) as (r & Hr & Hf). rewrite Hsp in Hr. injection Hr as <-.
  destruct (found_path N rvals s (tree n) _ v Hi Hst Hn (Hf v eq_refl)) as (Hok & Hlook & bs & Hbs & Hlen).
  destruct (activate_ok N rvals s (tree n) Hi Hw HN) as (s' & Hact & Hi').
  assert (1 ≤ sexp_size (tree n))%nat by (destruct (tree n); cbn; lia).
  exists 1%nat, (BACK_REFERENCE :: bs), s', (N + 2). split; [lia|done|lia| | |by eapply decodes_backref].
  - rewrite zlen_cons. apply plain_len_enc in Henc. lia.
  - intros fuel ws ro f. cbn [Nat.add stream_loop]. unfold stream_node. rewrite Hh, Hl. cbn [expect mbind res_bind].
    rewrite Hsp. cbn [mbind res_bind]. rewrite write_atom_eq, Hbs. cbn [mbind res_bind]. rewrite Hact. done.
Qed.

Lemma stream_spec m n rvals N s plain :
  memo_has m n → sexp_ok (tree n) → enc (tree n) = Ok plain →
  (∀ t, t ∈ stack_trees (tree n) (stack_tree rvals) → hashed_in W t) →
  index_ok N rvals s → N + 4 * Z.of_nat (sexp_size (tree n)) < 2 ^ 32 →
  ∃ k bs s' N', streams m n rvals N s plain k bs s' N'.
Proof.
  revert rvals N s plain. induction n as [key a|key f IHf r IHr]; intros rvals N s plain Hm Hok Henc HW Hi HN;
    (assert (Hw : hashed_in W (Pair (tree _) (stack_tree rvals))) by (apply HW, stack_trees_last);
     pose proof (memo_has_top _ _ Hm) as [Hh Hl];
     match type of Hm with memo_has _ ?n => 
       destruct (shortest_path_spec s (tree_hash (tree n)) (plain_len (tree n))) as (found & Hsp & _);
       destruct found as [v|]; [apply (streams_found _ _ _ _ _ _ v); [done..|cbn [sexp_size tree] in HN; lia|done]|] end).
  - destruct (activate_ok N rvals s (Atom a) Hi Hw) as (s' & Hact & Hi'); [cbn in HN; lia|].
    exists 1%nat, plain, s', (N + 2). split; [cbn; lia|done|cbn; lia|lia| |by apply decodes_atom].
    intros fuel ws ro fo. cbn [Nat.add stream_loop]. unfold stream_node. rewrite Hh, Hl. cbn [expect mbind res_bind].
    rewrite Hsp. cbn [mbind res_bind tree]. rewrite write_atom_eq. cbn [tree enc] in Henc. rewrite Henc. cbn [mbind res_bind].
    cbn [tree] in Hact. rewrite Hact. done.
  - destruct Hm as (_ & _ & Hmf & Hmr), Hok as [Hokf Hokr]. cbn [tree enc] in Henc.
    apply bind_Ok_inv in Henc as (pf & Hpf & Henc). apply bind_Ok_inv in Henc as (pr & Hpr & [= <-]). cbn [tree sexp_size] in HN.
    destruct (IHf rvals N s pf Hmf Hokf Hpf) as (k1 & b1 & s1 & N1 & [Hk1 Hi1 HN1 Hb1 Hrun1 Hdec1]); [|done|lia|].
    { intros t Ht. apply HW. cbn [tree stack_trees]. rewrite !elem_of_app. auto. }
    destruct (IHr (tree f :: rvals) N1 s1 pr Hmr Hokr Hpr) as (k2 & b2 & s2 & N2 & [Hk2 Hi2 HN2 Hb2 Hrun2 Hdec2]); [|done|lia|].
    { intros t Ht. apply HW. cbn [tree stack_trees]. rewrite !elem_of_app. auto. }
    destruct (combine_ok N2 (tree f) (tree r) rvals s2 Hi2 Hw) as (s3 & Hcomb & Hi3); [lia|].
    exists (S (k1 + k2)), (CONS_BOX_MARKER :: b1 ++ b2), s3, (N2 + 4). 
    split; cbn [tree sexp_size]; [lia|done|lia|rewrite !zlen_cons, !zlen_app; lia| |by apply decodes_pair].
    intros fuel ws ro fo. replace (S (k1 + k2) + fuel)%nat with (S (k1 + (k2 + fuel))) by lia. cbn [stream_loop].
    unfold stream_node at 1. rewrite Hh, Hl. cbn [expect mbind res_bind]. rewrite Hsp. cbn [mbind res_bind pop_cons].
    rewrite Hrun1. cbn [pop_cons mbind res_bind]. rewrite Hrun2. cbn [pop_cons]. rewrite Hcomb. cbn [mbind res_bind].
    by rewrite <- !(assoc_L (++)).
Qed.
End simulation.

(** ** The writer and the decoder *)
Section roundtrip.
Context `{Sha256Ok}.

(** Every string that is hashed while [t] is written or decoded. *)
Definition writer_strings (t : SExp) : list (list Z) := stack_trees t NULL_SEXP ≫= preimages.

Lemma backref_writer_spec env n plain :
  placed env n → sexp_ok (tree n) → 4 * Z.of_nat (sexp_size (tree n)) + 1 < 2 ^ 32 →
  collision_free (writer_strings (tree n)) → sexp_to_bytes (tree n) = Ok plain →
  ∃ bs, sexp_to_bytes_backrefs n = Ok bs ∧ zlen bs ≤ zlen plain ∧
    ∀ c suf, remaining c = bs ++ suf → sexp_from_bytes_backrefs c = Ok (tree n, advance (length bs) c).
Proof.
  intros Hn Hok Hsize Hcf Hplain. rewrite sexp_to_bytes_enc in Hplain.
  destruct (compute_memos_spec env n Hn) as (m & Hm & Hhas).
  destruct (stream_spec (writer_strings (tree n)) Hcf m n [] 1 index_new plain Hhas Hok Hplain) as (k & bs & s' & N' & Hs).
  { intros t Ht x Hx. apply list_elem_of_bind. eauto. }
  { split; cbn [root istack active parents index_new]; [done|done| |].
    - intros child e He. unfold edges_of in He. cbn in He. rewrite lookup_empty in He. by apply not_elem_of_nil in He.
    - intros h. destruct (decide (atom_tree_hash [] = h)) as [<-|Hne]; [rewrite lookup_singleton_eq|rewrite lookup_singleton_ne by done]; cbn; lia. }
  { lia. }
  destruct Hs as [Hk Hi HN Hb Hrun Hdec].
  exists bs. split.
  - unfold sexp_to_bytes_backrefs, node_to_stream_backrefs. rewrite Hm. cbn [mbind res_bind].
    replace (S (sexp_size (tree n))) with (k + S (sexp_size (tree n) - k))%nat by lia. rewrite Hrun. done.
  - split; [done|]. intros c suf Hr. by apply (decodes_parse bs (tree n) c suf).
Qed.

(** What the writer has written stays. *)
Lemma stream_loop_prefix fuel m ws ro s f out : stream_loop fuel m ws ro s f = Ok out → ∃ tl, out = f ++ tl.
Proof.
  revert ws ro s f. induction fuel as [|fuel IH]; intros ws ro s f Hl; [done|]. cbn [stream_loop] in Hl.
  destruct ws as [|n ws]; [injection Hl as <-; exists []; by rewrite app_nil_r|].
  apply bind_Ok_inv in Hl as ([[[ws' ro'] s'] bs] & _ & Hl). apply bind_Ok_inv in Hl as ([ro'' s''] & _ & Hl).
  apply IH in Hl as [tl ->]. exists (bs ++ tl). by rewrite (assoc_L (++)).
Qed.

(** Nothing is found while nothing is written. *)
Lemma shortest_path_new h len : h ≠ atom_tree_hash [] → shortest_path index_new h len = Ok None.
Proof.
  intros Hh. unfold shortest_path. destruct (len <? 4); [done|].
  change (length (targets index_new) + 2)%nat with 2%nat. cbn [search root index_new].
  rewrite bool_decide_eq_false_2 by done. unfold edges_of. cbn [parents index_new]. rewrite lookup_empty.
  cbn [default push_parents]. by destruct (_ <=? _).
Qed.

Lemma stream_loop_step fuel m n ws ro s f :
  stream_loop (S fuel) m (n :: ws) ro s f =
    ('(ws, ro, s, bs) ← stream_node m n ws ro s; '(ro, s) ← pop_cons ro s; stream_loop fuel m ws ro s (f ++ bs)).
Proof. done. Qed.

(** A pair that starts with a short atom is written as that. *)
Lemma backref_writer_head env k k1 a r ba bs :
  placed env (LPair k (LAtom k1 a) r) → collision_free (writer_strings (tree (LPair k (LAtom k1 a) r))) →
  plain_len (Atom a) < 4 → atom_to_bytes a = Ok ba →
  sexp_to_bytes_backrefs (LPair k (LAtom k1 a) r) = Ok bs → ∃ tl, bs = CONS_BOX_MARKER :: ba ++ tl.
Proof.
  intros Hn Hcf Hlen Ha Hbs. destruct (compute_memos_spec env _ Hn) as (m & Hm & Hhas).
  unfold sexp_to_bytes_backrefs, node_to_stream_backrefs in Hbs. rewrite Hm in Hbs. cbn [mbind res_bind] in Hbs.
  pose proof (memo_has_top _ _ Hhas) as [Hh Hl]. destruct Hhas as (_ & _ & Hhas & _).
  pose proof (memo_has_top _ _ Hhas) as [Hh1 Hl1]. cbn [tree] in *.
  replace (S (sexp_size (Pair (Atom a) (tree r)))) with (S (S (S (sexp_size (tree r))))) in Hbs by (cbn; lia).
  revert Hbs. generalize (S (sexp_size (tree r))). intros fuel Hbs.
  rewrite stream_loop_step in Hbs. unfold stream_node in Hbs. rewrite Hh, Hl in Hbs. cbn [expect mbind res_bind] in Hbs. rewrite shortest_path_new in Hbs.
  2:{ intros Heq. set (w := [2] ++ tree_hash (Atom a) ++ tree_hash (tree r)).
      assert (Hin : ∀ x, x ∈ preimages (Pair (Pair (Atom a) (tree r)) NULL_SEXP) → x ∈ writer_strings (Pair (Atom a) (tree r))).
      { intros x Hx. apply list_elem_of_bind. eexists. split; [exact Hx|]. apply stack_trees_last. }
      assert (w = [1] ++ []); [|done]. apply (Hcf w ([1] ++ [])); [apply Hin; subst w; clear; cbn; set_solver|apply Hin; clear; cbn; set_solver|exact Heq]. }
  cbn [mbind res_bind pop_cons] in Hbs. rewrite stream_loop_step in Hbs. unfold stream_node in Hbs. rewrite Hh1, Hl1 in Hbs.
  cbn [expect mbind res_bind] in Hbs. unfold shortest_path in Hbs. rewrite (proj2 (Z.ltb_lt _ _)) in Hbs by done.
  cbn [mbind res_bind] in Hbs. rewrite write_atom_eq, Ha in Hbs. cbn [mbind res_bind] in Hbs.
  apply bind_Ok_inv in Hbs as ([[[ws' ro'] s'] bs'] & Hact & Hbs). apply bind_Ok_inv in Hact as (s'' & _ & [= <- <- <- <-]).
  cbn [pop_cons mbind res_bind] in Hbs. apply stream_loop_prefix in Hbs as [tl ->]. exists tl. done.
Qed.

(** C16: the compressing writer and the back-reference parser are inverse. For
    every tree that the plain writer can write, the compressing writer
    returns bytes, no more of them than the plain writer, and the parser
    reads them back to the same tree and stops right after them, provided
    that no two of the strings hashed on the way have the same SHA-256. *)
Theorem backref_writer_roundtrip env n plain :
  placed env n → sexp_ok (tree n) → 4 * Z.of_nat (sexp_size (tree n)) + 1 < 2 ^ 32 →
  collision_free (writer_strings (tree n)) → sexp_to_bytes (tree n) = Ok plain →
  ∃ bs, sexp_to_bytes_backrefs n = Ok bs ∧ zlen bs ≤ zlen plain ∧
    ∀ c suf, remaining c = bs ++ suf → sexp_from_bytes_backrefs c = Ok (tree n, advance (length bs) c).
Proof. apply backref_writer_spec. Qed.
End roundtrip.

(** A leaf shared by both sides of a pair. *)
Definition five_bytes : lnode := LAtom 1 [1; 2; 3; 4; 5].
Definition doubled : lnode := LPair 2 five_bytes five_bytes.
Definition doubled_env : gmap Z lnode := <[1 := five_bytes]> {[2 := doubled]}.
Definition doubled_plain : list Z := [255; 133; 1; 2; 3; 4; 5; 133; 1; 2; 3; 4; 5].

(** A test for it that hashes every string once. *)
Fixpoint distinct (l : list (list Z)) : bool :=
  match l with [] => true | x :: l => negb (existsb (λ y, bool_decide (x = y)) l) && distinct l end.

Lemma collision_free_distinct `{Sha256} (W : list (list Z)) :
  distinct (map hash_256 (remove_dups W)) = true → collision_free W.
Proof.
  assert (Hd : ∀ l, distinct (map hash_256 l) = true → ∀ x y, x ∈ l → y ∈ l → hash_256 x = hash_256 y → x = y).
  { induction l as [|a l IH]; cbn; intros Hd x y; [by intros ?%not_elem_of_nil|].
    apply andb_true_iff in Hd as [Ha Hd]. apply negb_true_iff in Ha.
    assert (Hne : ∀ z, z ∈ l → hash_256 a ≠ hash_256 z).
    { intros z Hz Heq. assert (existsb (λ y, bool_decide (hash_256 a = y)) (map hash_256 l) = true); [|congruence].
      apply existsb_exists. exists (hash_256 z). split; [|by apply bool_decide_eq_true_2].
      apply in_map. by apply list_elem_of_In. }
    intros [->|Hx]%elem_of_cons [->|Hy]%elem_of_cons Heq; [done|by destruct (Hne y)|by destruct (Hne x)|by apply IH]. }
  intros Hw x y Hx Hy. apply (Hd (remove_dups W)); by rewrite ?elem_of_remove_dups.
Qed.

(** The strings hashed for [t] on the stack with hash [st], and the hash of
    [t]; every hash is computed once. *)
Fixpoint stack_strings `{Sha256} (t : SExp) (st : list Z) : list Z * list (list Z) :=
  match t with
  | Atom a =>
      let h := hash_256 ([1] ++ a) in
      (h, [[1] ++ a; [2] ++ h ++ st])
  | Pair f r =>
      let '(hf, sf) := stack_strings f st in
      let '(hr, sr) := stack_strings r (hash_256 ([2] ++ hf ++ st)) in
      let h := hash_256 ([2] ++ hf ++ hr) in
      (h, ([2] ++ hf ++ hr) :: ([2] ++ h ++ st) :: sf ++ sr)
  end.

Lemma stack_strings_hash `{Sha256} t st : (stack_strings t st).1 = tree_hash t.
Proof.
  revert st. induction t as [a|f IHf r IHr]; intros st; cbn [stack_strings tree_hash]; [done|].
  specialize (IHf st). destruct (stack_strings f st) as [hf sf]. cbn in IHf. subst hf.
  specialize (IHr (hash_256 ([2] ++ tree_hash f ++ st))). destruct (stack_strings r _) as [hr sr]. cbn in IHr. by subst hr.
Qed.

Lemma stack_strings_spec `{Sha256} t st x u :
  u ∈ stack_trees t st → x ∈ preimages u → x ∈ (stack_strings t (tree_hash st)).2 ∨ x ∈ preimages st.
Proof.
  revert st x u. induction t as [a|f IHf r IHr]; intros st x u; cbn [stack_trees stack_strings].
  { intros ->%list_elem_of_singleton. cbn. rewrite !elem_of_cons. naive_solver. }
  pose proof (stack_strings_hash f (tree_hash st)) as Hf. specialize (IHf st).
  destruct (stack_strings f (tree_hash st)) as [hf sf]. cbn in Hf. subst hf.
  pose proof (stack_strings_hash r (hash_256 ([2] ++ tree_hash f ++ tree_hash st))) as Hr. specialize (IHr (Pair f st)).
  cbn [tree_hash] in IHr. destruct (stack_strings r _) as [hr sr]. cbn in Hr. subst hr. cbn [snd] in *.
  assert (Hfx : ∀ x, x ∈ preimages f → x ∈ sf ∨ x ∈ preimages st).
  { intros y Hy. apply (IHf y (Pair f st)); [apply stack_trees_last|]. cbn. rewrite ?elem_of_cons, ?elem_of_app. tauto. }
  assert (Hrx : ∀ x, x ∈ preimages r → x ∈ sr ∨ x ∈ preimages (Pair f st)).
  { intros y Hy. apply (IHr y (Pair r (Pair f st))); [apply stack_trees_last|]. cbn. rewrite ?elem_of_cons, ?elem_of_app. tauto. }
  assert (Hst : [2] ++ tree_hash f ++ tree_hash st ∈ sf ∨ [2] ++ tree_hash f ++ tree_hash st ∈ preimages st).
  { apply (IHf _ (Pair f st)); [apply stack_trees_last|]. cbn. rewrite ?elem_of_cons, ?elem_of_app. tauto. }
  rewrite !elem_of_app, list_elem_of_singleton. rewrite !elem_of_cons, !elem_of_app.
  intros [Hu|[Hu| ->]] Hx.
  - destruct (IHf _ _ Hu Hx); auto.
  - destruct (IHr _ _ Hu Hx) as [|Hp]; [auto|]. cbn [preimages] in Hp. rewrite elem_of_cons, elem_of_app in Hp.
    destruct Hp as [->|[Hp|Hp]]; [destruct Hst|destruct (Hfx _ Hp)|]; auto.
  - cbn [preimages tree_hash] in Hx. repeat (rewrite elem_of_cons in Hx || rewrite elem_of_app in Hx). cbn [app].
    destruct Hx as [Hx|[[Hx|[Hx|Hx]]|Hx]]; [auto|auto|destruct (Hfx _ Hx); auto| |auto].
    destruct (Hrx _ Hx) as [|Hp]; [auto|]. cbn [preimages] in Hp. rewrite elem_of_cons, elem_of_app in Hp.
    destruct Hp as [->|[Hp|Hp]]; [destruct Hst|destruct (Hfx _ Hp)|]; auto.
Qed.

Lemma collision_free_strings `{Sha256} t :
  distinct (map hash_256 (remove_dups ([1] :: (stack_strings t (hash_256 [1])).2))) = true → collision_free (writer_strings t).
Proof.
  intros Hd x y Hx Hy. apply (collision_free_distinct _ Hd).
  - apply list_elem_of_bind in Hx as (u & Hx & Hu). rewrite elem_of_cons.
    destruct (stack_strings_spec t NULL_SEXP x u Hu Hx) as [|Hn]; [auto|]. left. by apply list_elem_of_singleton in Hn.
  - apply list_elem_of_bind in Hy as (u & Hy & Hu). rewrite elem_of_cons.
    destruct (stack_strings_spec t NULL_SEXP y u Hu Hy) as [|Hn]; [auto|]. left. by apply list_elem_of_singleton in Hn.
Qed.

Lemma doubled_compressed :
  @sexp_to_bytes_backrefs toy_hash doubled = Ok [255; 133; 1; 2; 3; 4; 5; 254; 2].
Proof. by vm_compute. Qed.

Lemma backref_writer_roundtrip_witness :
  ∃ bs, @sexp_to_bytes_backrefs toy_hash doubled = Ok bs ∧ zlen bs ≤ zlen doubled_plain ∧
    ∀ c suf, remaining c = bs ++ suf → sexp_from_bytes_backrefs c = Ok (tree doubled, advance (length bs) c).
Proof.
  apply (@backref_writer_roundtrip toy_hash toy_hash_ok doubled_env doubled doubled_plain).
  - by vm_compute.
  - by repeat constructor.
  - by vm_compute.
  - apply collision_free_strings. by vm_compute.
  - by vm_compute.
Defined.
