(* ===== verification/ClvmView.v ===== *)
(** * Reading nodes: the interface between the operators and a node store

    The operators of [core_ops.rs], [more_ops.rs] and [bls_ops.rs] only read
    nodes (through [&Arena]) and describe their result ([OpOut],
    [pure_ops.rs]).  A [view] is that interface: the shape of a node, its bytes,
    its length, its number, and the constants nil and one.  The operators are
    defined once over any view; [ClvmArena] gives the arena's view and this
    file the view of plain trees.  [view_sim] states that a view reads its
    nodes as the trees they denote.  The file also holds the readers shared by
    all operators: [Arena::next], [arg_count], [arg_count_is], [ArgCursor] and
    the helpers of [utils.rs], each with its simulation lemma. *)
From Stdlib Require Import ZArith Lia String.
From stdpp Require Import base list numbers option strings.
From S2P Require Import Prelude Serialize ClvmNumber ClvmSexp.

Open Scope Z_scope.

(** Shape of a node. *)
Inductive NodeKind (N : Type) :=
  | KAtom
  | KPair (first rest : N).
Arguments KAtom {N}.
Arguments KPair {N} first rest.

Record view (N : Type) := {
  v_kind : N → clvm (NodeKind N);
  v_atom : N → clvm (option (list Z));
  v_len : N → clvm (option Z);
  v_number : N → clvm (option SExpNumber);
  v_nullp : N → clvm bool;
  v_NIL : N;
  v_ONE : N;
  (** More than the pairs on any [rest] chain from a node. *)
  v_fuel : N → nat;
}.
Arguments v_kind {N}.
Arguments v_atom {N}.
Arguments v_len {N}.
Arguments v_number {N}.
Arguments v_nullp {N}.
Arguments v_NIL {N}.
Arguments v_ONE {N}.
Arguments v_fuel {N}.

(** What an operator produced, described rather than allocated. *)
Inductive OpOut (N : Type) :=
  | Same (node : N)
  | OPair (first rest : N)
  | Number (n : SExpNumber)
  | Small (bytes : list Z)
  | Concat (nodes : list N) (total : Z)
  | Substr (node : N) (start end_ : Z)
  | NumberPair (q r : SExpNumber).
Arguments Same {N}.
Arguments OPair {N}.
Arguments Number {N}.
Arguments Small {N}.
Arguments Concat {N}.
Arguments Substr {N}.
Arguments NumberPair {N}.

Definition is_self_contained {N} (o : OpOut N) : bool :=
  match o with Number _ | Small _ => true | _ => false end.

(** [OpOut::small]: at most 96 bytes. *)
Definition small {N} (bytes : list Z) : clvm (OpOut N) :=
  if 96 <? zlen bytes then Panic else Ok (Small bytes).

(** A cost or a size computed in [u64]/[usize]: overflow panics. *)
Definition c64 (x : Z) : clvm Z := chk 64 x.

Section readers.
Context {N : Type} (v : view N).

(** ** [Arena] readers that only follow pairs *)
Definition next (node : N) : clvm (option (N * N)) :=
  k ← v_kind v node;
  match k with KPair f r => Ok (Some (f, r)) | KAtom => Ok None end.

Definition non_nil (node : N) : clvm bool := b ← v_nullp v node; Ok (negb b).

Fixpoint arg_count_loop (fuel : nat) (ptr : N) (count early : Z) : clvm Z :=
  match fuel with
  | O => Panic
  | S fuel =>
      o ← next ptr;
      match o with
      | Some (_, rest) =>
          let count := count + 1 in
          if early <? count then Ok count else arg_count_loop fuel rest count early
      | None => Ok count
      end
  end.
Definition arg_count (node : N) (return_early_if_exceeds : Z) : clvm Z :=
  arg_count_loop (v_fuel v node) node 0 return_early_if_exceeds.

Fixpoint arg_count_is (ptr : N) (count : nat) : clvm bool :=
  match count with
  | O => v_nullp v ptr
  | S count =>
      o ← next ptr;
      match o with Some (_, rest) => arg_count_is rest count | None => Ok false end
  end.

Fixpoint as_atom_list_loop (fuel : nat) (cur : N) (rtn : list (list Z)) : clvm (list (list Z)) :=
  match fuel with
  | O => Panic
  | S fuel =>
      o ← next cur;
      match o with
      | None => Ok rtn
      | Some (first, rest) =>
          a ← v_atom v first;
          match a with
          | Some a => as_atom_list_loop fuel rest (rtn ++ [a])
          | None => Ok []
          end
      end
  end.
Definition as_atom_list (node : N) : clvm (list (list Z)) :=
  as_atom_list_loop (v_fuel v node) node [].

(** ** [ArgCursor] *)
Record ArgCursor := { cur : N; cursor_done : bool }.
Definition ArgCursor_new (args : N) : ArgCursor := {| cur := args; cursor_done := false |}.

Definition cursor_next (c : ArgCursor) : clvm (option N * ArgCursor) :=
  if cursor_done c then Ok (None, c)
  else
    k ← v_kind v (cur c);
    match k with
    | KPair first rest => Ok (Some first, {| cur := rest; cursor_done := false |})
    | KAtom =>
        b ← non_nil (cur c);
        Ok ((if (b : bool) then Some (cur c) else None), {| cur := cur c; cursor_done := true |})
    end.

(** [while let Some(arg) = cursor.next(arena) { body }] *)
Fixpoint cursor_loop {St : Type} (body : St → N → clvm St) (fuel : nat) (c : ArgCursor) (s : St) : clvm St :=
  match fuel with
  | O => Panic
  | S fuel =>
      '(o, c) ← cursor_next c;
      match o with
      | None => Ok s
      | Some arg => s ← body s arg; cursor_loop body fuel c s
      end
  end.
Definition for_args {St : Type} (body : St → N → clvm St) (args : N) (s : St) : clvm St :=
  cursor_loop body (v_fuel v args) (ArgCursor_new args) s.

(** [while let Some((arg, rest)) = arena.next(input) { body }] *)
Fixpoint pairs_loop {St : Type} (body : St → N → clvm St) (fuel : nat) (input : N) (s : St) : clvm St :=
  match fuel with
  | O => Panic
  | S fuel =>
      o ← next input;
      match o with
      | None => Ok s
      | Some (arg, rest) => s ← body s arg; pairs_loop body fuel rest s
      end
  end.
Definition for_pairs {St : Type} (body : St → N → clvm St) (args : N) (s : St) : clvm St :=
  pairs_loop body (v_fuel v args) args s.

(** ** [utils.rs] *)
Definition check_cost (cost max_cost : Z) : clvm unit :=
  if max_cost <? cost then Err (IoError InvalidData) else Ok tt.

Definition check_arg_count (args : N) (expected : Z) (name : string) : clvm unit :=
  n ← arg_count args expected;
  if n =? expected then Ok tt else Err (InvalidOperandArgs name expected).

Definition split (node : N) : clvm (N * N) :=
  o ← next node; ok_or o ExpectedPairGotAtom.

Definition int_atom (node : N) : clvm (list Z) :=
  o ← v_atom v node; ok_or o (IoError InvalidInput).
Definition atom (node : N) : clvm (list Z) :=
  o ← v_atom v node; ok_or o (IoError InvalidInput).

Definition number_with_len (node : N) : clvm (SExpNumber * Z) :=
  n ← v_number v node; len ← v_len v node;
  match n, len with
  | Some n, Some len => Ok (n, len)
  | _, _ => Err ExpectedAtomGotPair
  end.

Definition two_ints (args : N) (op_name : string) :
    clvm ((SExpNumber * Z) * (SExpNumber * Z)) :=
  check_arg_count args 2 op_name;;
  '(first, rest) ← split args;
  '(second, _) ← split rest;
  a ← number_with_len first; b ← number_with_len second; Ok (a, b).

Definition i32_atom (node : N) : clvm Z :=
  o ← v_atom v node;
  match o with
  | None => Err (IoError InvalidData)
  | Some buf => ok_or (i32_from_slice buf) (IoError InvalidData)
  end.
End readers.
Arguments ArgCursor : clear implicits.

(** ** The view of trees *)
Fixpoint spine (s : SExp) : nat :=
  match s with Atom _ => 0 | Pair _ r => S (spine r) end.

Definition tree_view `{BigIntBytes} : view SExp := {|
  v_kind s := Ok (match s with Atom _ => KAtom | Pair f r => KPair f r end);
  v_atom s := Ok (match s with Atom a => Some a | Pair _ _ => None end);
  v_len s := Ok (match s with Atom a => Some (zlen a) | Pair _ _ => None end);
  v_number s := Ok (match s with Atom a => Some (number_of_atom a) | Pair _ _ => None end);
  v_nullp s := Ok (sexp_nullp s);
  v_NIL := NULL_SEXP;
  v_ONE := ONE_SEXP;
  v_fuel s := S (S (spine s));
|}.

(** * Simulation *)

(** Two computations with the same outcome, related results. *)
Definition clvm_rel {A B} (Q : A → B → Prop) (m1 : clvm A) (m2 : clvm B) : Prop :=
  match m1, m2 with
  | Ok a, Ok b => Q a b
  | Err e, Err f => e = f
  | Panic, Panic => True
  | _, _ => False
  end.

Lemma rel_bind {A B C D} (Q : A → B → Prop) (P : C → D → Prop) m1 m2 k1 k2 :
  clvm_rel Q m1 m2 → (∀ a b, Q a b → clvm_rel P (k1 a) (k2 b)) →
  clvm_rel P (m1 ≫= k1) (m2 ≫= k2).
Proof. destruct m1, m2; cbn; naive_solver. Qed.

Lemma rel_refl {A} (m : clvm A) : clvm_rel eq m m.
Proof. by destruct m. Qed.

Lemma rel_mono {A B} (Q P : A → B → Prop) m1 m2 :
  clvm_rel Q m1 m2 → (∀ a b, Q a b → P a b) → clvm_rel P m1 m2.
Proof. destruct m1, m2; cbn; naive_solver. Qed.

Inductive kind_rel {N} (R : N → SExp → Prop) : NodeKind N → NodeKind SExp → Prop :=
  | kind_rel_atom : kind_rel R KAtom KAtom
  | kind_rel_pair f r tf tr : R f tf → R r tr → kind_rel R (KPair f r) (KPair tf tr).

Inductive out_rel {N} (R : N → SExp → Prop) : OpOut N → OpOut SExp → Prop :=
  | out_same n t : R n t → out_rel R (Same n) (Same t)
  | out_pair f r tf tr : R f tf → R r tr → out_rel R (OPair f r) (OPair tf tr)
  | out_number n : out_rel R (Number n) (Number n)
  | out_small b : out_rel R (Small b) (Small b)
  | out_concat ns ts total : Forall2 R ns ts → out_rel R (Concat ns total) (Concat ts total)
  | out_substr n t s e : R n t → out_rel R (Substr n s e) (Substr t s e)
  | out_numbers q r : out_rel R (NumberPair q r) (NumberPair q r).

(** A result with its cost. *)
Definition cost_out_rel {N} (R : N → SExp → Prop) (x : Z * OpOut N) (y : Z * OpOut SExp) : Prop :=
  x.1 = y.1 ∧ out_rel R x.2 y.2.

Definition opt_rel {A B} (R : A → B → Prop) (x : option A) (y : option B) : Prop :=
  option_Forall2 R x y.
Definition pair_rel {A B C D} (R : A → B → Prop) (Q : C → D → Prop) (x : A * C) (y : B * D) : Prop :=
  R x.1 y.1 ∧ Q x.2 y.2.

(** A view reads its nodes as the trees they denote. *)
Class view_sim `{BigIntBytes} {N} (v : view N) (R : N → SExp → Prop) : Prop := {
  sim_kind n t : R n t → clvm_rel (kind_rel R) (v_kind v n) (v_kind tree_view t);
  sim_atom n t : R n t → v_atom v n = v_atom tree_view t;
  sim_len n t : R n t → v_len v n = v_len tree_view t;
  sim_number n t : R n t → v_number v n = v_number tree_view t;
  sim_nullp n t : R n t → v_nullp v n = v_nullp tree_view t;
  sim_NIL : R (v_NIL v) (v_NIL tree_view);
  sim_ONE : R (v_ONE v) (v_ONE tree_view);
  sim_fuel n t : R n t → (v_fuel tree_view t ≤ v_fuel v n)%nat;
}.

(** The simulation database: related readers, closed by [sim_auto]. *)
Create HintDb sim.
#[export] Hint Resolve rel_refl : sim.
#[export] Hint Constructors kind_rel out_rel Forall2 option_Forall2 : sim.

(** Use the equations between related values the binds leave behind. *)
Ltac sim_destruct :=
  repeat match goal with
  | H : pair_rel _ _ ?x ?y |- _ =>
      let H1 := fresh "HR" in let H2 := fresh "HR" in destruct H as [H1 H2];
      let a := fresh "a" in let b := fresh "b" in
      try (destruct x as [a b]); try (destruct y as [? ?]); cbn [fst snd] in H1, H2
  | H : opt_rel _ _ _ |- _ => unfold opt_rel in H
  | H : option_Forall2 _ ?x ?y |- _ => inversion H; clear H; try subst x; try subst y
  | H : kind_rel _ ?x ?y |- _ => inversion H; clear H; try subst x; try subst y
  | H : ?x = ?y |- _ => is_var y; subst y
  | H : ?x = ?y |- _ => is_var x; subst x
  | x : unit |- _ => destruct x
  | x : (_ * _)%type |- _ => destruct x
  end.

(** One step: binds, equal tests, equal scrutinees. *)
Ltac sim_step :=
  match goal with
  | |- clvm_rel _ (Ok _) (Ok _) => cbn [clvm_rel]
  | |- clvm_rel _ (Err _) (Err _) => reflexivity
  | |- clvm_rel _ Panic Panic => exact I
  | |- cost_out_rel _ _ _ => split; cbn [fst snd]; [first [done | lia] | eauto with sim]
  | |- clvm_rel _ (mbind _ ?m1) (mbind _ ?m2) =>
      eapply rel_bind; [solve [eauto with sim] | let H := fresh "HR" in intros ? ? H; sim_destruct]
  | |- clvm_rel _ (match ?x with (_, _) => _ end) _ => destruct x as [? ?]; cbn beta iota zeta
  | |- clvm_rel _ (if ?b then _ else _) (if ?b then _ else _) => destruct b eqn:?
  | |- clvm_rel _ (match ?x with _ => _ end) (match ?x with _ => _ end) => destruct x eqn:?
  | |- pair_rel _ _ _ _ => split; cbn [fst snd]
  | |- opt_rel _ _ _ => constructor
  | |- _ => progress cbn beta iota zeta
  | |- clvm_rel _ _ _ => solve [eauto with sim]
  end.
Ltac sim_auto := repeat (sim_step; sim_destruct); eauto with sim; try done.

Section sims.
Context `{BigIntBytes} {N : Type} (v : view N) (R : N → SExp → Prop) `{!view_sim v R}.

Lemma kind_sim n t : R n t → clvm_rel (kind_rel R) (v_kind v n) (v_kind tree_view t).
Proof. apply sim_kind. Qed.
Lemma atom_read_sim n t : R n t → clvm_rel eq (v_atom v n) (v_atom tree_view t).
Proof. intros HR. rewrite (sim_atom n t HR). apply rel_refl. Qed.
Lemma len_read_sim n t : R n t → clvm_rel eq (v_len v n) (v_len tree_view t).
Proof. intros HR. rewrite (sim_len n t HR). apply rel_refl. Qed.
Lemma number_read_sim n t : R n t → clvm_rel eq (v_number v n) (v_number tree_view t).
Proof. intros HR. rewrite (sim_number n t HR). apply rel_refl. Qed.
Lemma nullp_sim n t : R n t → clvm_rel eq (v_nullp v n) (v_nullp tree_view t).
Proof. intros HR. rewrite (sim_nullp n t HR). apply rel_refl. Qed.
#[local] Hint Resolve kind_sim atom_read_sim len_read_sim number_read_sim nullp_sim : sim.

Lemma next_sim n t :
  R n t → clvm_rel (opt_rel (pair_rel R R)) (next v n) (next tree_view t).
Proof. intros HR. unfold next. sim_auto. Qed.

Lemma non_nil_sim n t : R n t → clvm_rel eq (non_nil v n) (non_nil tree_view t).
Proof. intros HR. unfold non_nil. sim_auto. Qed.
#[local] Hint Resolve next_sim non_nil_sim : sim.

Lemma split_sim n t : R n t → clvm_rel (pair_rel R R) (split v n) (split tree_view t).
Proof.
  intros HR. unfold split. eapply rel_bind; [by apply next_sim|].
  intros a b Hab. inversion Hab; by subst.
Qed.
#[local] Hint Resolve split_sim : sim.

Lemma NIL_sim : R (v_NIL v) (v_NIL tree_view).
Proof. apply sim_NIL. Qed.
Lemma ONE_sim : R (v_ONE v) (v_ONE tree_view).
Proof. apply sim_ONE. Qed.

(** The shape of a node, for inductions over the tree it denotes. *)
Lemma kind_cases n t :
  R n t →
  match t with
  | Atom _ => v_kind v n = Ok KAtom
  | Pair tf tr => ∃ f r, v_kind v n = Ok (KPair f r) ∧ R f tf ∧ R r tr
  end.
Proof.
  intros HR. pose proof (kind_sim n t HR) as Hk. destruct t; cbn in Hk;
    destruct (v_kind v n) as [k| |]; try done; inversion Hk; subst; eauto.
Qed.

Lemma next_cases n t :
  R n t →
  match t with
  | Atom _ => next v n = Ok None
  | Pair tf tr => ∃ f r, next v n = Ok (Some (f, r)) ∧ R f tf ∧ R r tr
  end.
Proof.
  intros HR. pose proof (kind_cases n t HR) as Hk. unfold next.
  destruct t; [by rewrite Hk|]. destruct Hk as (f & r & -> & ? & ?). eauto.
Qed.

Lemma arg_count_loop_sim f1 f2 n t c e :
  R n t → (spine t < f1)%nat → (spine t < f2)%nat →
  arg_count_loop v f1 n c e = arg_count_loop tree_view f2 t c e.
Proof.
  revert f1 f2 n c. induction t as [a|tf _ tr IH]; intros f1 f2 n c HR H1 H2;
    (destruct f1; [cbn in H1; lia|]); (destruct f2; [cbn in H2; lia|]);
    cbn [arg_count_loop]; pose proof (next_cases n _ HR) as Hn.
  - by rewrite Hn.
  - destruct Hn as (f & r & -> & _ & Hr). cbn. destruct (e <? c + 1); [done|].
    apply IH; [done|cbn in *; lia..].
Qed.

Lemma arg_count_sim n t e : R n t → clvm_rel eq (arg_count v n e) (arg_count tree_view t e).
Proof.
  intros HR. unfold arg_count. rewrite (arg_count_loop_sim _ (v_fuel tree_view t) n t); [apply rel_refl|done|..].
  - pose proof (sim_fuel n t HR). cbn in *. lia.
  - cbn. lia.
Qed.

Lemma arg_count_is_sim n t c :
  R n t → clvm_rel eq (arg_count_is v n c) (arg_count_is tree_view t c).
Proof.
  revert n t. induction c as [|c IH]; intros n t HR; cbn [arg_count_is]; [by apply nullp_sim|].
  pose proof (next_cases n t HR) as Hn. destruct t.
  - by rewrite Hn.
  - destruct Hn as (f & r & -> & _ & Hr). cbn. by apply IH.
Qed.

Lemma as_atom_list_loop_sim f1 f2 n t l :
  R n t → (spine t < f1)%nat → (spine t < f2)%nat →
  as_atom_list_loop v f1 n l = as_atom_list_loop tree_view f2 t l.
Proof.
  revert f1 f2 n l. induction t as [a|tf _ tr IH]; intros f1 f2 n l HR H1 H2;
    (destruct f1; [cbn in H1; lia|]); (destruct f2; [cbn in H2; lia|]);
    cbn [as_atom_list_loop]; pose proof (next_cases n _ HR) as Hn.
  - by rewrite Hn.
  - destruct Hn as (f & r & -> & Hf & Hr). cbn [mbind res_bind next tree_view v_kind].
    rewrite (sim_atom f tf Hf). cbn. destruct tf; [|done]. apply IH; [done|cbn in *; lia..].
Qed.

Lemma as_atom_list_sim n t : R n t → clvm_rel eq (as_atom_list v n) (as_atom_list tree_view t).
Proof.
  intros HR. unfold as_atom_list.
  rewrite (as_atom_list_loop_sim _ (v_fuel tree_view t) n t); [apply rel_refl|done|..].
  - pose proof (sim_fuel n t HR). cbn in *. lia.
  - cbn. lia.
Qed.

(** ** Argument loops *)
Section loops.
Context {S1 S2 : Type} (Q : S1 → S2 → Prop).
Context (body1 : S1 → N → clvm S1) (body2 : S2 → SExp → clvm S2).
Hypothesis Hbody : ∀ s1 s2 n t, Q s1 s2 → R n t → clvm_rel Q (body1 s1 n) (body2 s2 t).

Lemma cursor_done_loop {M St} (w : view M) (body : St → M → clvm St) fuel n s :
  cursor_loop w body (S fuel) {| cur := n; cursor_done := true |} s = Ok s.
Proof. done. Qed.

Lemma cursor_loop_sim f1 f2 n t s1 s2 :
  R n t → Q s1 s2 → (S (spine t) < f1)%nat → (S (spine t) < f2)%nat →
  clvm_rel Q (cursor_loop v body1 f1 (ArgCursor_new n) s1)
             (cursor_loop tree_view body2 f2 (ArgCursor_new t) s2).
Proof.
  revert f1 f2 n s1 s2. induction t as [a|tf _ tr IH]; intros f1 f2 n s1 s2 HR HQ H1 H2;
    (destruct f1; [cbn in H1; lia|]); (destruct f2; [cbn in H2; lia|]);
    cbn [cursor_loop]; pose proof (kind_cases n _ HR) as Hn.
  - unfold cursor_next. cbn [cursor_done ArgCursor_new cur]. rewrite Hn. unfold non_nil.
    rewrite (sim_nullp n _ HR).
    cbn [mbind res_bind v_nullp tree_view v_kind].
    destruct (negb (sexp_nullp (Atom a))); [|done].
    eapply rel_bind; [by apply Hbody|]. intros a1 a2 Ha.
    destruct f1, f2; [cbn in *; lia..|]. rewrite !cursor_done_loop. done.
  - unfold cursor_next. cbn [cursor_done ArgCursor_new cur].
    destruct Hn as (f & r & -> & Hf & Hr). cbn [mbind res_bind v_kind tree_view].
    eapply rel_bind; [by apply Hbody|]. intros a1 a2 Ha. apply IH; [done..|cbn in *; lia|cbn in *; lia].
Qed.

Lemma for_args_sim n t s1 s2 :
  R n t → Q s1 s2 → clvm_rel Q (for_args v body1 n s1) (for_args tree_view body2 t s2).
Proof.
  intros HR HQ. apply cursor_loop_sim; [done..|pose proof (sim_fuel n t HR); cbn in *; lia|cbn; lia].
Qed.

Lemma pairs_loop_sim f1 f2 n t s1 s2 :
  R n t → Q s1 s2 → (spine t < f1)%nat → (spine t < f2)%nat →
  clvm_rel Q (pairs_loop v body1 f1 n s1) (pairs_loop tree_view body2 f2 t s2).
Proof.
  revert f1 f2 n s1 s2. induction t as [a|tf _ tr IH]; intros f1 f2 n s1 s2 HR HQ H1 H2;
    (destruct f1; [cbn in H1; lia|]); (destruct f2; [cbn in H2; lia|]);
    cbn [pairs_loop]; pose proof (next_cases n _ HR) as Hn.
  - by rewrite Hn.
  - destruct Hn as (f & r & -> & Hf & Hr). cbn [mbind res_bind next v_kind tree_view].
    eapply rel_bind; [by apply Hbody|]. intros a1 a2 Ha. apply IH; [done..|cbn in *; lia|cbn in *; lia].
Qed.

Lemma for_pairs_sim n t s1 s2 :
  R n t → Q s1 s2 → clvm_rel Q (for_pairs v body1 n s1) (for_pairs tree_view body2 t s2).
Proof.
  intros HR HQ. apply pairs_loop_sim; [done..|pose proof (sim_fuel n t HR); cbn in *; lia|cbn; lia].
Qed.
End loops.

(** ** [utils.rs] *)
Lemma check_arg_count_sim n t e name :
  R n t → clvm_rel eq (check_arg_count v n e name) (check_arg_count tree_view t e name).
Proof. intros HR. unfold check_arg_count. pose proof arg_count_sim. sim_auto. Qed.
#[local] Hint Resolve check_arg_count_sim arg_count_sim : sim.

Lemma int_atom_sim n t : R n t → clvm_rel eq (int_atom v n) (int_atom tree_view t).
Proof. intros HR. unfold int_atom. sim_auto. Qed.
Lemma atom_sim n t : R n t → clvm_rel eq (atom v n) (atom tree_view t).
Proof. intros HR. unfold atom. sim_auto. Qed.
Lemma number_with_len_sim n t :
  R n t → clvm_rel eq (number_with_len v n) (number_with_len tree_view t).
Proof. intros HR. unfold number_with_len. sim_auto. Qed.
#[local] Hint Resolve number_with_len_sim : sim.
Lemma two_ints_sim n t name :
  R n t → clvm_rel eq (two_ints v n name) (two_ints tree_view t name).
Proof. intros HR. unfold two_ints. sim_auto. Qed.
Lemma i32_atom_sim n t : R n t → clvm_rel eq (i32_atom v n) (i32_atom tree_view t).
Proof. intros HR. unfold i32_atom. sim_auto. Qed.
End sims.

#[export] Hint Resolve kind_sim atom_read_sim len_read_sim number_read_sim nullp_sim
  next_sim non_nil_sim split_sim check_arg_count_sim arg_count_sim
  arg_count_is_sim as_atom_list_sim int_atom_sim atom_sim number_with_len_sim two_ints_sim
  i32_atom_sim : sim.
