(* ===== verification/ClvmOps.v ===== *)
(** * CLVM operators: [core_ops.rs] and [more_ops.rs]

    Every operator reads its arguments through a [view] and returns its cost
    and the description of its result ([OpOut]).  Costs are computed in [u64]
    and sizes in [usize]: an overflow is [Panic].  The messages of the errors
    (rendered nodes) are left out.  Each operator has a simulation lemma: over
    a view that reads nodes as the trees they denote, it behaves as over the
    trees. *)
From Stdlib Require Import ZArith Lia String Ascii.
From stdpp Require Import base list numbers option strings.
From S2P Require Import Prelude Serialize ClvmNumber ClvmSexp Coin ClvmView.

Open Scope Z_scope.

(** ** Constants *)
Definition NO_NEG_DIV : Z := 0x0001.
Definition NO_UNKNOWN_OPS : Z := 0x0002.
Definition LIMITS : Z := 0x0040.
Definition DISABLE_OP : Z := 0x0200.
Definition NEW_COST_MODEL : Z := 0x2000.
Definition RELAXED_BLS : Z := 0x4000.
Definition CANONICAL_INTS : Z := 0x04000000.

Definition FIRST_COST : Z := 30.
Definition IF_COST : Z := 33.
Definition CONS_COST : Z := 50.
Definition REST_COST : Z := 30.
Definition LISTP_COST : Z := 19.
Definition EQ_BASE_COST : Z := 117.
Definition EQ_COST_PER_BYTE : Z := 1.

Definition MALLOC_COST_PER_BYTE : Z := 10.
Definition ARITH_BASE_COST : Z := 99.
Definition ARITH_COST_PER_ARG : Z := 320.
Definition ARITH_COST_PER_BYTE : Z := 3.
Definition MODPOW_BASE_COST : Z := 17000.
Definition MODPOW_COST_PER_BYTE_BASE_VALUE : Z := 38.
Definition MODPOW_COST_PER_BYTE_EXPONENT : Z := 3.
Definition MODPOW_COST_PER_BYTE_MOD : Z := 21.
Definition NEW_MODPOW_PER_ITERATION_COST : Z := 4000.
Definition NEW_MODPOW_EXPONENT_MULTIPLIER : Z := 8.
Definition NEW_DIV_BASE_COST : Z := 1000.
Definition NEW_DIV_LINEAR_COST_PER_BYTE : Z := 50.
Definition NEW_DIV_SQUARE_COST_PER_BYTE_DIVIDER : Z := 10.
Definition LOG_BASE_COST : Z := 100.
Definition LOG_COST_PER_ARG : Z := 264.
Definition LOG_COST_PER_BYTE : Z := 3.
Definition LOG_NOT_BASE_COST : Z := 331.
Definition LOG_NOT_COST_PER_BYTE : Z := 3.
Definition MUL_BASE_COST : Z := 92.
Definition MUL_COST_PER_OP : Z := 885.
Definition MUL_LINEAR_COST_PER_BYTE : Z := 6.
Definition MUL_SQUARE_COST_PER_BYTE_DIVIDER : Z := 128.
Definition GR_BASE_COST : Z := 498.
Definition GR_COST_PER_BYTE : Z := 2.
Definition GRS_BASE_COST : Z := 117.
Definition GRS_COST_PER_BYTE : Z := 1.
Definition STRLEN_BASE_COST : Z := 173.
Definition STRLEN_COST_PER_BYTE : Z := 1.
Definition CONCAT_BASE_COST : Z := 142.
Definition CONCAT_COST_PER_ARG : Z := 135.
Definition CONCAT_COST_PER_BYTE : Z := 3.
Definition DIV_MOD_BASE_COST : Z := 1116.
Definition DIV_MOD_COST_PER_BYTE : Z := 6.
Definition DIV_BASE_COST : Z := 988.
Definition DIV_COST_PER_BYTE : Z := 4.
Definition SHA256_BASE_COST : Z := 87.
Definition SHA256_COST_PER_ARG : Z := 134.
Definition SHA256_COST_PER_BYTE : Z := 2.
Definition A_SHIFT_BASE_COST : Z := 596.
Definition A_SHIFT_COST_PER_BYTE : Z := 3.
Definition LSHIFT_BASE_COST : Z := 277.
Definition LSHIFT_COST_PER_BYTE : Z := 3.
Definition BOOL_BASE_COST : Z := 200.
Definition BOOL_COST_PER_ARG : Z := 300.
Definition COIN_ID_COST : Z :=
  SHA256_BASE_COST + SHA256_COST_PER_ARG * 3 + SHA256_COST_PER_BYTE * (32 + 32 + 8) - 153.

(** [(flags & bit) != 0] *)
Definition flag (flags bit : Z) : bool := negb (Z.land flags bit =? 0).

(** [BigInt::bits] *)
Definition bits (v : Z) : Z := bit_length (Z.abs v).
Definition limbs_for_int (v : Z) : Z := div_ceil (bits v) 8.
(** [128 - unsigned_abs().leading_zeros()] is the bit length as well. *)
Definition limbs_for_num (v : SExpNumber) : Z :=
  match v with
  | BigInt int => div_ceil (bits int) 8
  | I128 i => div_ceil (128 - (128 - bit_length (Z.abs i))) 8
  end.

(** Comparison of byte slices. *)
Fixpoint bytes_gt (l r : list Z) : bool :=
  match l, r with
  | [], _ => false
  | _ :: _, [] => true
  | x :: l, y :: r => if x =? y then bytes_gt l r else y <? x
  end.

(** The bytes of ["$print$"]. *)
Definition print_kw : list Z := [36; 112; 114; 105; 110; 116; 36].

Section ops.
Context {N : Type} (v : view N) `{BigIntBytes, Sha256}.

Notation out := (clvm (Z * OpOut N)).

Definition bool_node (b : bool) : N := if b then v_ONE v else v_NIL v.

Definition new_atom_and_cost (cost : Z) (buf : list Z) : out :=
  cost ← c64 (cost + zlen buf * MALLOC_COST_PER_BYTE);
  o ← small buf;
  Ok (cost, o).
Definition malloc_number (cost : Z) (n : SExpNumber) : out := Ok (cost, Number n).
Definition malloc_bigint (cost : Z) (n : Z) : out := Ok (cost, Number (BigInt n)).

(** ** [core_ops.rs] *)
Definition op_if (args : N) (max_cost : Z) : out :=
  check_arg_count v args 3 "i";;
  '(cond, chosen_node) ← split v args;
  nil ← v_nullp v cond;
  chosen_node ← (if (nil : bool) then '(_, r) ← split v chosen_node; Ok r else Ok chosen_node);
  '(f, _) ← split v chosen_node;
  Ok (IF_COST, Same f).

Definition op_cons (args : N) (max_cost : Z) : out :=
  check_arg_count v args 2 "c";;
  '(first, rest) ← split v args;
  '(second, _) ← split v rest;
  Ok (CONS_COST, OPair first second).

Definition op_first (args : N) (max_cost : Z) : out :=
  check_arg_count v args 1 "f";;
  '(inner, _) ← split v args;
  '(f, _) ← split v inner;
  Ok (FIRST_COST, Same f).

Definition op_rest (args : N) (max_cost : Z) : out :=
  check_arg_count v args 1 "r";;
  '(inner, _) ← split v args;
  '(_, r) ← split v inner;
  Ok (REST_COST, Same r).

Definition op_listp (args : N) (max_cost : Z) : out :=
  check_arg_count v args 1 "l";;
  '(inner, _) ← split v args;
  k ← v_kind v inner;
  match k with
  | KPair _ _ => Ok (LISTP_COST, Same (v_ONE v))
  | KAtom => Ok (LISTP_COST, Same (v_NIL v))
  end.

Definition op_raise (args : N) (max_cost : Z) : out :=
  k ← v_kind v args;
  match k with
  | KAtom => Err Raise
  | KPair first rest =>
      nil ← v_nullp v rest;
      if (nil : bool) then
        a ← v_atom v first;
        match a with None => Err ExpectedAtomGotPair | Some _ => Err Raise end
      else Err Raise
  end.

Definition op_eq (args : N) (max_cost : Z) : out :=
  check_arg_count v args 2 "=";;
  '(a0, rest) ← split v args;
  '(a1, _) ← split v rest;
  s0 ← atom v a0;
  s1 ← atom v a1;
  cost ← c64 (EQ_BASE_COST + (zlen s0 + zlen s1) * EQ_COST_PER_BYTE);
  Ok (cost, Same (bool_node (bool_decide (s0 = s1)))).

(** ** [op_unknown] *)
Definition op_unknown_arith (args : N) (max_cost : Z) : clvm Z :=
  '(cost, byte_count) ← for_args v (λ '(cost, byte_count) arg,
      cost ← c64 (cost + ARITH_COST_PER_ARG);
      blob ← int_atom v arg;
      byte_count ← c64 (byte_count + zlen blob);
      c ← c64 (cost + byte_count * ARITH_COST_PER_BYTE);
      check_cost c max_cost;;
      Ok (cost, byte_count)) args (ARITH_BASE_COST, 0);
  c64 (cost + byte_count * ARITH_COST_PER_BYTE).

Definition op_unknown_mul (args : N) (max_cost : Z) : clvm Z :=
  '(cost, _, _) ← for_args v (λ '(cost, first_iter, l0) arg,
      blob ← int_atom v arg;
      if (first_iter : bool) then Ok (cost, false, zlen blob)
      else
        let l1 := zlen blob in
        cost ← c64 (cost + MUL_COST_PER_OP);
        cost ← c64 (cost + (l0 + l1) * MUL_LINEAR_COST_PER_BYTE);
        square ← c64 (l0 * l1);
        cost ← c64 (cost + square / MUL_SQUARE_COST_PER_BYTE_DIVIDER);
        l0 ← c64 (l0 + l1);
        check_cost cost max_cost;;
        Ok (cost, false, l0)) args (MUL_BASE_COST, true, 0);
  Ok cost.

Definition op_unknown_concat (args : N) (max_cost : Z) : clvm Z :=
  '(cost, total_size) ← for_args v (λ '(cost, total_size) arg,
      cost ← c64 (cost + CONCAT_COST_PER_ARG);
      blob ← atom v arg;
      total_size ← c64 (total_size + zlen blob);
      c ← c64 (cost + total_size * CONCAT_COST_PER_BYTE);
      check_cost c max_cost;;
      Ok (cost, total_size)) args (CONCAT_BASE_COST, 0);
  c64 (cost + total_size * CONCAT_COST_PER_BYTE).

(** The cost function and multiplier an unknown opcode encodes. *)
Definition unknown_price (op : list Z) : clvm (Z * Z) :=
  let reserved :=
    match op with
    | [] => true
    | b0 :: b1 :: _ => (b0 =? 0xff) && (b1 =? 0xff)
    | _ => false
    end in
  if (reserved : bool) then Err ReservedOperator
  else
    let last := default 0 (op !! (length op - 1)%nat) in
    let cost_function := Z.shiftr (Z.land last 0xc0) 6 in
    cost_multiplier ← ok_or (u32_from_slice (take (length op - 1) op)) InvalidOperator;
    Ok (cost_function, cost_multiplier).

Definition op_unknown (o args : N) (max_cost : Z) : out :=
  a ← v_atom v o;
  op ← ok_or a ExpectedAtomGotPair;
  '(cost_function, cost_multiplier) ← unknown_price op;
  cost ← (if cost_function =? 1 then op_unknown_arith args max_cost
          else if cost_function =? 2 then op_unknown_mul args max_cost
          else if cost_function =? 3 then op_unknown_concat args max_cost
          else Ok 1);
  check_cost cost max_cost;;
  cost ← c64 (cost * (cost_multiplier + 1));
  if u32_max <? cost then Err Unsupported else Ok (cost, Same (v_NIL v)).

(** ** [more_ops.rs] *)
Definition op_sha256 (args : N) (max_cost : Z) : out :=
  '(cost, byte_count, data) ← for_args v (λ '(cost, byte_count, data) arg,
      cost ← c64 (cost + SHA256_COST_PER_ARG);
      c ← c64 (cost + byte_count * SHA256_COST_PER_BYTE);
      check_cost c max_cost;;
      blob ← atom v arg;
      byte_count ← c64 (byte_count + zlen blob);
      Ok (cost, byte_count, data ++ blob)) args (SHA256_BASE_COST, 0, []);
  cost ← c64 (cost + byte_count * SHA256_COST_PER_BYTE);
  new_atom_and_cost cost (hash_256 data).

Definition op_add (args : N) (max_cost : Z) : out :=
  '(cost, byte_count, total) ← for_args v (λ '(cost, byte_count, total) blob,
      cost ← c64 (cost + ARITH_COST_PER_ARG);
      c ← c64 (cost + byte_count * ARITH_COST_PER_BYTE);
      check_cost c max_cost;;
      '(n, len) ← number_with_len v blob;
      byte_count ← c64 (byte_count + len);
      Ok (cost, byte_count, num_add total n)) args (ARITH_BASE_COST, 0, I128 0);
  cost ← c64 (cost + byte_count * ARITH_COST_PER_BYTE);
  malloc_number cost total.

Definition op_subtract (args : N) (max_cost : Z) : out :=
  '(cost, byte_count, _, total) ← for_args v (λ '(cost, byte_count, first, total) blob,
      cost ← c64 (cost + ARITH_COST_PER_ARG);
      c ← c64 (cost + byte_count * ARITH_COST_PER_BYTE);
      check_cost c max_cost;;
      '(n, len) ← number_with_len v blob;
      byte_count ← c64 (byte_count + len);
      if (first : bool) then Ok (cost, byte_count, false, n)
      else Ok (cost, byte_count, false, num_sub total n))
    args (ARITH_BASE_COST, 0, true, I128 0);
  cost ← c64 (cost + byte_count * ARITH_COST_PER_BYTE);
  malloc_number cost total.

Definition op_multiply (args : N) (max_cost : Z) : out :=
  '(_, cost, total, _) ← for_args v (λ '(first, cost, total, l0) blob,
      check_cost cost max_cost;;
      '(n, len) ← number_with_len v blob;
      if (first : bool) then Ok (false, cost, n, len)
      else
        let l1 := len in
        let total := num_mul total n in
        cost ← c64 (cost + MUL_COST_PER_OP);
        cost ← c64 (cost + (l0 + l1) * MUL_LINEAR_COST_PER_BYTE);
        square ← c64 (l0 * l1);
        cost ← c64 (cost + square / MUL_SQUARE_COST_PER_BYTE_DIVIDER);
        Ok (false, cost, total, limbs_for_num total))
    args (true, MUL_BASE_COST, I128 1, 0);
  malloc_number cost total.

Definition op_div_impl (args : N) (mempool : bool) : out :=
  '((a0, l0), (a1, l1)) ← two_ints v args "/";
  cost ← c64 (DIV_BASE_COST + (l0 + l1) * DIV_COST_PER_BYTE);
  if bool_decide (sign a1 = NoSign) then
    split v args;; Err Unsupported
  else if mempool && (bool_decide (sign a0 = Minus) || bool_decide (sign a1 = Minus)) then
    Err Unsupported
  else
    '(q, r) ← div_mod_floor a0 a1;
    let q := if num_eqb q (I128 (-1)) && negb (num_is_zero r) then num_add q (I128 1) else q in
    malloc_number cost q.
Definition op_div (args : N) (max_cost : Z) : out := op_div_impl args false.
Definition op_div_deprecated (args : N) (max_cost : Z) : out := op_div_impl args true.

Definition compute_new_div_cost (l0 l1 : Z) : clvm Z :=
  cost ← c64 (NEW_DIV_BASE_COST + (l0 + l1) * NEW_DIV_LINEAR_COST_PER_BYTE);
  square ← ok_or (checked 64 (l0 * l1)) Overflow;
  c64 (cost + square / NEW_DIV_SQUARE_COST_PER_BYTE_DIVIDER).

Definition compute_modpow_cost (bsize esize msize : Z) (new_cost_model : bool) : clvm Z :=
  let cost := MODPOW_BASE_COST in
  if new_cost_model then
    let m := msize in
    inner ← ok_or (mm ← checked 64 (m * m); checked 64 (mm + NEW_MODPOW_PER_ITERATION_COST))
              Overflow;
    exp_term ← ok_or (e ← checked 64 (esize * NEW_MODPOW_EXPONENT_MULTIPLIER);
                      checked 64 (e * inner)) Overflow;
    ok_or (c ← checked 64 (cost + exp_term); b ← checked 64 (bsize * m); checked 64 (c + b))
      Overflow
  else
    cost ← c64 (cost + bsize * MODPOW_COST_PER_BYTE_BASE_VALUE);
    cost ← c64 (cost + esize * esize * MODPOW_COST_PER_BYTE_EXPONENT);
    c64 (cost + msize * msize * MODPOW_COST_PER_BYTE_MOD).

Definition op_mod (flags : Z) (args : N) (max_cost : Z) : out :=
  let new_cost_model := flag flags NEW_COST_MODEL in
  '((a0, l0), (a1, l1)) ← two_ints v args "mod";
  if flag flags DISABLE_OP && negb new_cost_model && (2048 <? l0) then Err Unsupported
  else if flag flags LIMITS && negb new_cost_model && ((256 <? l0) || (1024 <? l1)) then
    Err Unsupported
  else
    cost ← (if new_cost_model then compute_new_div_cost l0 l1
            else c64 (DIV_BASE_COST + (l0 + l1) * DIV_COST_PER_BYTE));
    if bool_decide (sign a1 = NoSign) then split v args;; Err Unsupported
    else '(_, r) ← div_mod_floor a0 a1; malloc_number cost r.

Definition op_modpow (flags : Z) (args : N) (max_cost : Z) : out :=
  let new_cost_model := flag flags NEW_COST_MODEL in
  check_arg_count v args 3 "modpow";;
  '(first, rest) ← split v args;
  '(base, bsize) ← number_with_len v first;
  '(second, rest) ← split v rest;
  '(exponent, esize) ← number_with_len v second;
  '(third, _) ← split v rest;
  '(modulus, msize) ← number_with_len v third;
  cost ← compute_modpow_cost bsize esize msize new_cost_model;
  check_cost cost max_cost;;
  if flag flags LIMITS && negb new_cost_model &&
     ((256 <? bsize) || (256 <? esize) || (256 <? msize)) then Err Unsupported
  else if bool_decide (sign exponent = Minus) then Err Unsupported
  else if bool_decide (sign modulus = NoSign) then Err Unsupported
  else malloc_bigint cost (modpow (num_value base) (num_value exponent) (num_value modulus)).

Definition op_divmod (args : N) (max_cost : Z) : out :=
  '((a0, l0), (a1, l1)) ← two_ints v args "/";
  cost ← c64 (DIV_MOD_BASE_COST + (l0 + l1) * DIV_MOD_COST_PER_BYTE);
  if bool_decide (sign a1 = NoSign) then split v args;; Err Unsupported
  else '(q, r) ← div_mod_floor a0 a1; Ok (cost, NumberPair q r).

Definition op_gr (args : N) (max_cost : Z) : out :=
  check_arg_count v args 2 ">";;
  '(a0, rest) ← split v args;
  '(a1, _) ← split v rest;
  v0 ← int_atom v a0;
  v1 ← int_atom v a1;
  cost ← c64 (GR_BASE_COST + (zlen v0 + zlen v1) * GR_COST_PER_BYTE);
  Ok (cost, Same (bool_node (number_from_slice v1 <? number_from_slice v0))).

Definition op_gr_bytes (args : N) (max_cost : Z) : out :=
  check_arg_count v args 2 ">s";;
  '(a0, rest) ← split v args;
  '(a1, _) ← split v rest;
  v0 ← atom v a0;
  v1 ← atom v a1;
  cost ← c64 (GRS_BASE_COST + (zlen v0 + zlen v1) * GRS_COST_PER_BYTE);
  Ok (cost, Same (bool_node (bytes_gt v0 v1))).

Definition op_strlen (args : N) (max_cost : Z) : out :=
  check_arg_count v args 1 "strlen";;
  '(a0, _) ← split v args;
  a ← atom v a0;
  let size := zlen a in
  cost ← c64 (STRLEN_BASE_COST + size * STRLEN_COST_PER_BYTE);
  malloc_number cost (I128 size).

Definition op_substr (args : N) (max_cost : Z) : out :=
  ac ← arg_count v args 3;
  if negb ((2 <=? ac) && (ac <=? 3)) then Err Unsupported
  else
    '(a0, rest) ← split v args;
    a ← atom v a0;
    let size := zlen a in
    '(i1_node, rest) ← split v rest;
    i1 ← i32_atom v i1_node;
    i2 ← (if ac =? 3 then '(i2_node, _) ← split v rest; i32_atom v i2_node
          else Ok (as_i32 (wrapu 32 size)));
    if (i2 <? 0) || (i1 <? 0) || (size <? i2) || (i2 <? i1) then Err Unsupported
    else Ok (1, Substr a0 i1 i2).

Definition op_concat (args : N) (max_cost : Z) : out :=
  '(cost, total_size, terms) ← for_args v (λ '(cost, total_size, terms) arg,
      cost ← c64 (cost + CONCAT_COST_PER_ARG);
      c ← c64 (cost + total_size * CONCAT_COST_PER_BYTE);
      check_cost c max_cost;;
      len ← v_len v arg;
      match len with
      | None => Err Unsupported
      | Some len => total_size ← c64 (total_size + len); Ok (cost, total_size, terms ++ [arg])
      end) args (CONCAT_BASE_COST, 0, []);
  cost ← c64 (cost + total_size * CONCAT_COST_PER_BYTE);
  cost ← c64 (cost + total_size * MALLOC_COST_PER_BYTE);
  check_cost cost max_cost;;
  Ok (cost, Concat terms total_size).

(** [if a1 > 0 { i0 << a1 } else { i0 >> -a1 }] *)
Definition shift_by (i0 a1 : Z) : Z :=
  if 0 <? a1 then Z.shiftl i0 a1 else Z.shiftr i0 (- a1).
Definition shift_in_range (a1 : Z) : bool := (-65535 <=? a1) && (a1 <=? 65535).

Definition op_ash (args : N) (max_cost : Z) : out :=
  check_arg_count v args 2 "ash";;
  '(a0, rest) ← split v args;
  b0 ← int_atom v a0;
  '(a1_node, _) ← split v rest;
  a1 ← i32_atom v a1_node;
  if negb (shift_in_range a1) then Err Unsupported
  else
    let n := shift_by (number_from_slice b0) a1 in
    cost ← c64 (A_SHIFT_BASE_COST + (zlen b0 + limbs_for_int n) * A_SHIFT_COST_PER_BYTE);
    malloc_bigint cost n.

Definition op_lsh (args : N) (max_cost : Z) : out :=
  check_arg_count v args 2 "lsh";;
  '(a0, rest) ← split v args;
  b0 ← int_atom v a0;
  '(a1_node, _) ← split v rest;
  a1 ← i32_atom v a1_node;
  if negb (shift_in_range a1) then Err Unsupported
  else
    let n := shift_by (from_be b0) a1 in
    cost ← c64 (LSHIFT_BASE_COST + (zlen b0 + limbs_for_int n) * LSHIFT_COST_PER_BYTE);
    malloc_bigint cost n.

Definition binop_reduction (initial_value : Z) (input : N) (max_cost : Z) (op_f : Z → Z → Z) : out :=
  '(total, arg_size, cost) ← for_args v (λ '(total, arg_size, cost) arg,
      blob ← int_atom v arg;
      let total := op_f total (number_from_slice blob) in
      arg_size ← c64 (arg_size + zlen blob);
      cost ← c64 (cost + LOG_COST_PER_ARG);
      c ← c64 (cost + arg_size * LOG_COST_PER_BYTE);
      check_cost c max_cost;;
      Ok (total, arg_size, cost)) input (initial_value, 0, LOG_BASE_COST);
  cost ← c64 (cost + arg_size * LOG_COST_PER_BYTE);
  malloc_bigint cost total.
Definition op_logand (args : N) (max_cost : Z) : out := binop_reduction (-1) args max_cost Z.land.
Definition op_logior (args : N) (max_cost : Z) : out := binop_reduction 0 args max_cost Z.lor.
Definition op_logxor (args : N) (max_cost : Z) : out := binop_reduction 0 args max_cost Z.lxor.

Definition op_lognot (args : N) (max_cost : Z) : out :=
  check_arg_count v args 1 "lognot";;
  '(a0, _) ← split v args;
  v0 ← int_atom v a0;
  let n := Z.lnot (number_from_slice v0) in
  cost ← c64 (LOG_NOT_BASE_COST + zlen v0 * LOG_NOT_COST_PER_BYTE);
  malloc_bigint cost n.

Definition op_not (args : N) (max_cost : Z) : out :=
  check_arg_count v args 1 "not";;
  '(a0, _) ← split v args;
  b ← non_nil v a0;
  Ok (BOOL_BASE_COST, Same (bool_node (negb b))).

Definition op_any (args : N) (max_cost : Z) : out :=
  '(cost, is_any) ← for_args v (λ '(cost, is_any) arg,
      cost ← c64 (cost + BOOL_COST_PER_ARG);
      check_cost cost max_cost;;
      is_any ← (if (is_any : bool) then Ok true else non_nil v arg);
      Ok (cost, is_any)) args (BOOL_BASE_COST, false);
  Ok (cost, Same (bool_node is_any)).

(** The print case only collects its arguments and logs them. *)
Definition op_all (args : N) (max_cost : Z) : out :=
  k ← v_kind v args;
  match k with
  | KPair first _ =>
      a ← v_atom v first;
      if bool_decide (a = Some print_kw) then
        for_args v (λ _ _, Ok tt) args tt;;
        cost ← c64 (BOOL_BASE_COST + BOOL_COST_PER_ARG * 3);
        Ok (cost, Same (bool_node true))
      else
        '(cost, is_all) ← for_args v (λ '(cost, is_all) arg,
            cost ← c64 (cost + BOOL_COST_PER_ARG);
            check_cost cost max_cost;;
            is_all ← (if (is_all : bool) then non_nil v arg else Ok false);
            Ok (cost, is_all)) args (BOOL_BASE_COST, true);
        Ok (cost, Same (bool_node is_all))
  | KAtom => Ok (BOOL_BASE_COST, Same (bool_node true))
  end.

Definition op_softfork (flags : Z) (args : N) (max_cost : Z) : out :=
  o ← next v args;
  match o with
  | Some (first, _) =>
      buf ← int_atom v first;
      let leading_zero :=
        match buf with
        | b0 :: tl =>
            (b0 =? 0) && match tl with b1 :: _ => Z.land b1 0x80 =? 0 | [] => true end
        | [] => false
        end in
      if flag flags CANONICAL_INTS && leading_zero then Err Unsupported
      else
        let n := number_from_slice buf in
        if bool_decide (bigint_sign n = Plus) then
          if max_cost <? n then Err Unsupported
          else cost ← ok_or (checked 64 n) Unsupported; Ok (cost, Same (v_NIL v))
        else Err Unsupported
  | None => Err Unsupported
  end.

Definition op_coinid (args : N) (max_cost : Z) : out :=
  args_list ← as_atom_list v args;
  match args_list with
  | [parent_coin_info; puzzle_hash; amount] =>
      if negb (zlen parent_coin_info =? 32) then Err InvalidInputE
      else if negb (zlen puzzle_hash =? 32) then Err InvalidInputE
      else
        as_int ←
          match amount with
          | b0 :: _ =>
              let as_int := number_from_slice amount in
              if as_int <? 0 then Err InvalidInputE
              else if (9 <? zlen amount) || ((zlen amount =? 9) && negb (b0 =? 0)) then
                Err InvalidInputE
              else Ok as_int
          | [] => Ok 0
          end;
        parent ← sized_parse 32 parent_coin_info;
        puzzle ← sized_parse 32 puzzle_hash;
        amount ← from_io (u64_from_bigint as_int);
        new_atom_and_cost COIN_ID_COST
          (coin_id {| parent_coin_info := parent; puzzle_hash := puzzle; amount := amount |})
  | _ => Err InvalidArgCount
  end.
End ops.

(** * Simulation *)

(** Loops whose state holds no node. *)
Ltac sim_loop :=
  lazymatch goal with
  | |- clvm_rel _ (mbind _ (for_args _ _ _ _)) _ =>
      eapply rel_bind;
      [ apply (for_args_sim _ _ eq); [| eassumption | reflexivity];
        let s := fresh "s" in intros ? s ? ? -> ?; repeat destruct s as [s ?]; cbn beta iota zeta
      | let s := fresh "s" in intros ? s ->; repeat destruct s as [s ?]; cbn beta iota zeta ]
  end.

Section sims.
Context `{BigIntBytes, Sha256} {N : Type} (v : view N) (R : N → SExp → Prop) `{!view_sim v R}.

Lemma nil_R : R (v_NIL v) (v_NIL tree_view).
Proof. apply NIL_sim; apply _. Qed.
Lemma one_R : R (v_ONE v) (v_ONE tree_view).
Proof. apply ONE_sim; apply _. Qed.
Lemma bool_node_sim b : R (bool_node v b) (bool_node tree_view b).
Proof. destruct b; [apply one_R|apply nil_R]. Qed.
#[local] Hint Resolve nil_R one_R bool_node_sim : sim.

(** Results without nodes. *)
Lemma new_atom_and_cost_sim cost buf :
  clvm_rel (cost_out_rel R) (new_atom_and_cost cost buf) (new_atom_and_cost cost buf).
Proof.
  unfold new_atom_and_cost, small. eapply rel_bind; [apply rel_refl|]. intros ? c ->.
  destruct (96 <? zlen buf); [done|]. cbn. by split; constructor.
Qed.
Lemma malloc_number_sim cost n :
  clvm_rel (cost_out_rel R) (malloc_number cost n) (malloc_number cost n).
Proof. split; constructor. Qed.
Lemma malloc_bigint_sim cost n :
  clvm_rel (cost_out_rel R) (malloc_bigint cost n) (malloc_bigint cost n).
Proof. split; constructor. Qed.
#[local] Hint Resolve new_atom_and_cost_sim malloc_number_sim malloc_bigint_sim : sim.

Section args.
Context (n : N) (t : SExp) (max_cost : Z) (HR : R n t).

(** A bind whose first part chooses between nodes, resp. between plain values. *)
Ltac sim_choose Q := eapply (rel_bind Q); [solve [sim_auto] | intros ? ? ?; sim_destruct].

Lemma op_if_sim :
  clvm_rel (cost_out_rel R) (op_if v n max_cost) (op_if tree_view t max_cost).
Proof. unfold op_if. do 3 sim_step. sim_choose R. sim_auto. Qed.
Lemma op_cons_sim :
  clvm_rel (cost_out_rel R) (op_cons v n max_cost) (op_cons tree_view t max_cost).
Proof. unfold op_cons. sim_auto. Qed.
Lemma op_first_sim :
  clvm_rel (cost_out_rel R) (op_first v n max_cost) (op_first tree_view t max_cost).
Proof. unfold op_first. sim_auto. Qed.
Lemma op_rest_sim :
  clvm_rel (cost_out_rel R) (op_rest v n max_cost) (op_rest tree_view t max_cost).
Proof. unfold op_rest. sim_auto. Qed.
Lemma op_listp_sim :
  clvm_rel (cost_out_rel R) (op_listp v n max_cost) (op_listp tree_view t max_cost).
Proof. unfold op_listp. sim_auto. Qed.
Lemma op_raise_sim :
  clvm_rel (cost_out_rel R) (op_raise v n max_cost) (op_raise tree_view t max_cost).
Proof. unfold op_raise. sim_auto. Qed.
Lemma op_eq_sim :
  clvm_rel (cost_out_rel R) (op_eq v n max_cost) (op_eq tree_view t max_cost).
Proof. unfold op_eq. sim_auto. Qed.
Lemma op_gr_sim :
  clvm_rel (cost_out_rel R) (op_gr v n max_cost) (op_gr tree_view t max_cost).
Proof. unfold op_gr. sim_auto. Qed.
Lemma op_gr_bytes_sim :
  clvm_rel (cost_out_rel R) (op_gr_bytes v n max_cost) (op_gr_bytes tree_view t max_cost).
Proof. unfold op_gr_bytes. sim_auto. Qed.
Lemma op_strlen_sim :
  clvm_rel (cost_out_rel R) (op_strlen v n max_cost) (op_strlen tree_view t max_cost).
Proof. unfold op_strlen. sim_auto. Qed.
Lemma op_ash_sim :
  clvm_rel (cost_out_rel R) (op_ash v n max_cost) (op_ash tree_view t max_cost).
Proof. unfold op_ash. sim_auto. Qed.
Lemma op_lsh_sim :
  clvm_rel (cost_out_rel R) (op_lsh v n max_cost) (op_lsh tree_view t max_cost).
Proof. unfold op_lsh. sim_auto. Qed.
Lemma op_lognot_sim :
  clvm_rel (cost_out_rel R) (op_lognot v n max_cost) (op_lognot tree_view t max_cost).
Proof. unfold op_lognot. sim_auto. Qed.
Lemma op_not_sim :
  clvm_rel (cost_out_rel R) (op_not v n max_cost) (op_not tree_view t max_cost).
Proof. unfold op_not. sim_auto. Qed.
Lemma op_divmod_sim :
  clvm_rel (cost_out_rel R) (op_divmod v n max_cost) (op_divmod tree_view t max_cost).
Proof. unfold op_divmod. sim_auto. Qed.
Lemma op_coinid_sim :
  clvm_rel (cost_out_rel R) (op_coinid v n max_cost) (op_coinid tree_view t max_cost).
Proof. unfold op_coinid. sim_auto. Qed.
Lemma op_sha256_sim :
  clvm_rel (cost_out_rel R) (op_sha256 v n max_cost) (op_sha256 tree_view t max_cost).
Proof. unfold op_sha256. sim_loop; sim_auto. Qed.
Lemma op_add_sim :
  clvm_rel (cost_out_rel R) (op_add v n max_cost) (op_add tree_view t max_cost).
Proof. unfold op_add. sim_loop; sim_auto. Qed.
Lemma op_subtract_sim :
  clvm_rel (cost_out_rel R) (op_subtract v n max_cost) (op_subtract tree_view t max_cost).
Proof. unfold op_subtract. sim_loop; sim_auto. Qed.
Lemma op_multiply_sim :
  clvm_rel (cost_out_rel R) (op_multiply v n max_cost) (op_multiply tree_view t max_cost).
Proof. unfold op_multiply. sim_loop; sim_auto. Qed.
Lemma op_div_impl_sim mempool :
  clvm_rel (cost_out_rel R) (op_div_impl v n mempool) (op_div_impl tree_view t mempool).
Proof. unfold op_div_impl. sim_auto. Qed.
Lemma binop_reduction_sim init op_f :
  clvm_rel (cost_out_rel R) (binop_reduction v init n max_cost op_f)
    (binop_reduction tree_view init t max_cost op_f).
Proof. unfold binop_reduction. sim_loop; sim_auto. Qed.
Lemma op_mod_sim flags :
  clvm_rel (cost_out_rel R) (op_mod v flags n max_cost) (op_mod tree_view flags t max_cost).
Proof. unfold op_mod. sim_auto. Qed.
Lemma op_modpow_sim flags :
  clvm_rel (cost_out_rel R) (op_modpow v flags n max_cost) (op_modpow tree_view flags t max_cost).
Proof. unfold op_modpow. sim_auto. Qed.
Lemma op_softfork_sim flags :
  clvm_rel (cost_out_rel R) (op_softfork v flags n max_cost) (op_softfork tree_view flags t max_cost).
Proof. unfold op_softfork. sim_auto. Qed.
Lemma op_substr_sim :
  clvm_rel (cost_out_rel R) (op_substr v n max_cost) (op_substr tree_view t max_cost).
Proof. unfold op_substr. sim_auto. sim_choose (@eq Z). sim_auto. Qed.
Lemma op_any_sim :
  clvm_rel (cost_out_rel R) (op_any v n max_cost) (op_any tree_view t max_cost).
Proof. unfold op_any. sim_loop; sim_auto; sim_choose (@eq bool); sim_auto. Qed.
Lemma op_all_sim :
  clvm_rel (cost_out_rel R) (op_all v n max_cost) (op_all tree_view t max_cost).
Proof.
  unfold op_all. sim_auto.
  - eapply rel_bind; [by apply (for_args_sim v R eq)|]. intros ? ? ->. sim_auto.
  - sim_loop; sim_auto; sim_choose (@eq bool); sim_auto.
Qed.
(** The terms of [concat] are related node by node. *)
Lemma op_concat_sim :
  clvm_rel (cost_out_rel R) (op_concat v n max_cost) (op_concat tree_view t max_cost).
Proof.
  unfold op_concat.
  eapply (rel_bind (λ '(c, s, ns) '(c', s', ts), c = c' ∧ s = s' ∧ Forall2 R ns ts)).
  - apply (for_args_sim v R); [intros [[c s] ns] [[c' s'] ts] m u (-> & -> & Hns) Hu|done|done].
    sim_auto. split_and!; [done..|]. apply Forall2_app; eauto with sim.
  - intros [[c s] ns] [[c' s'] ts] (-> & -> & Hns). sim_auto.
Qed.

Lemma op_unknown_arith_sim :
  clvm_rel eq (op_unknown_arith v n max_cost) (op_unknown_arith tree_view t max_cost).
Proof. unfold op_unknown_arith. sim_loop; sim_auto. Qed.
Lemma op_unknown_mul_sim :
  clvm_rel eq (op_unknown_mul v n max_cost) (op_unknown_mul tree_view t max_cost).
Proof. unfold op_unknown_mul. sim_loop; sim_auto. Qed.
Lemma op_unknown_concat_sim :
  clvm_rel eq (op_unknown_concat v n max_cost) (op_unknown_concat tree_view t max_cost).
Proof. unfold op_unknown_concat. sim_loop; sim_auto. Qed.
#[local] Hint Resolve op_unknown_arith_sim op_unknown_mul_sim op_unknown_concat_sim : sim.
Lemma op_unknown_sim o to :
  R o to →
  clvm_rel (cost_out_rel R) (op_unknown v o n max_cost) (op_unknown tree_view to t max_cost).
Proof. intros Ho. unfold op_unknown. do 3 sim_step. sim_destruct. sim_choose (@eq Z). sim_auto. Qed.
End args.
End sims.
