(* ===== verification/ClvmBls.v ===== *)
(** * BLS operators: [bls_ops.rs] and the [bls_g1] part of [more_ops.rs]

    The [blst] library is the class [Blst]: its point types and the functions
    the code calls, as functions on values.  Everything the code does around
    them is modelled: parsing and canonicality guards, argument lists, the
    reduction of scalars, costs, the AUG message construction and the
    aggregate loops. *)
From Stdlib Require Import ZArith Lia String Ascii.
From stdpp Require Import base list numbers option strings.
From S2P Require Import Prelude Serialize ClvmNumber ClvmSexp Coin ClvmView ClvmOps.

Open Scope Z_scope.

(** The functions of [blst] the code calls; [None] is an error code other
    than [BLST_SUCCESS]. *)
Class Blst := {
  blst_p1 : Set;
  blst_p1_affine : Set;
  blst_p2 : Set;
  blst_p2_affine : Set;
  blst_scalar : Set;
  blst_fp12 : Set;
  blst_pairing : Set;
  p1_default : blst_p1;
  p1_affine_default : blst_p1_affine;
  p2_default : blst_p2;
  blst_scalar_from_be_bytes : list Z → blst_scalar;
  blst_p1_generator : blst_p1;
  blst_p1_mult : blst_p1 → blst_scalar → Z → blst_p1;
  blst_p1_uncompress : list Z → option blst_p1_affine;
  blst_p1_affine_in_g1 : blst_p1_affine → bool;
  blst_p1_add_or_double_affine : blst_p1 → blst_p1_affine → blst_p1;
  blst_p1_add_or_double : blst_p1 → blst_p1 → blst_p1;
  blst_p1_cneg : blst_p1 → bool → blst_p1;
  blst_p1_from_affine : blst_p1_affine → blst_p1;
  blst_p1_to_affine : blst_p1 → blst_p1_affine;
  blst_p1_compress : blst_p1 → list Z;
  blst_hash_to_g1 : list Z → list Z → list Z → blst_p1;
  blst_p2_mult : blst_p2 → blst_scalar → Z → blst_p2;
  blst_p2_uncompress : list Z → option blst_p2_affine;
  blst_p2_from_affine : blst_p2_affine → blst_p2;
  blst_p2_to_affine : blst_p2 → blst_p2_affine;
  blst_p2_is_inf : blst_p2 → bool;
  blst_p2_in_g2 : blst_p2 → bool;
  blst_p2_add_or_double : blst_p2 → blst_p2 → blst_p2;
  blst_p2_cneg : blst_p2 → bool → blst_p2;
  blst_p2_compress : blst_p2 → list Z;
  blst_hash_to_g2 : list Z → list Z → list Z → blst_p2;
  blst_aggregated_in_g2 : blst_p2_affine → blst_fp12;
  blst_pairing_init : bool → list Z → blst_pairing;
  blst_pairing_raw_aggregate : blst_pairing → blst_p2_affine → blst_p1_affine → blst_pairing;
  blst_pairing_aggregate_pk_in_g1 :
    blst_pairing → blst_p1_affine → option blst_p2_affine → list Z → list Z → option blst_pairing;
  blst_pairing_commit : blst_pairing → blst_pairing;
  blst_pairing_finalverify : blst_pairing → option blst_fp12 → bool;
}.

Definition POINT_ADD_BASE_COST : Z := 101094.
Definition POINT_ADD_COST_PER_ARG : Z := 1343980.
Definition PUBKEY_BASE_COST : Z := 1325730.
Definition PUBKEY_COST_PER_BYTE : Z := 38.
Definition BLS_G1_SUBTRACT_BASE_COST : Z := 101094.
Definition BLS_G1_SUBTRACT_COST_PER_ARG : Z := 1343980.
Definition BLS_G1_MULTIPLY_BASE_COST : Z := 705500.
Definition BLS_G1_MULTIPLY_COST_PER_BYTE : Z := 10.
Definition BLS_G1_NEGATE_BASE_COST : Z := 1396 - 480.
Definition BLS_G2_ADD_BASE_COST : Z := 80000.
Definition BLS_G2_ADD_COST_PER_ARG : Z := 1950000.
Definition BLS_G2_SUBTRACT_BASE_COST : Z := 80000.
Definition BLS_G2_SUBTRACT_COST_PER_ARG : Z := 1950000.
Definition BLS_G2_MULTIPLY_BASE_COST : Z := 2100000.
Definition BLS_G2_MULTIPLY_COST_PER_BYTE : Z := 5.
Definition BLS_G2_NEGATE_BASE_COST : Z := 2164 - 960.
Definition BLS_MAP_TO_G1_BASE_COST : Z := 195000.
Definition BLS_MAP_TO_G1_COST_PER_BYTE : Z := 4.
Definition BLS_MAP_TO_G1_COST_PER_DST_BYTE : Z := 4.
Definition BLS_MAP_TO_G2_BASE_COST : Z := 815000.
Definition BLS_MAP_TO_G2_COST_PER_BYTE : Z := 4.
Definition BLS_MAP_TO_G2_COST_PER_DST_BYTE : Z := 4.
Definition BLS_PAIRING_BASE_COST : Z := 3000000.
Definition BLS_PAIRING_COST_PER_ARG : Z := 1200000.

(** The bytes of an ASCII literal. *)
Fixpoint ascii_bytes (s : string) : list Z :=
  match s with
  | EmptyString => []
  | String c s => Z.of_nat (nat_of_ascii c) :: ascii_bytes s
  end.
Definition DST_G1 : list Z := ascii_bytes "BLS_SIG_BLS12381G1_XMD:SHA-256_SSWU_RO_AUG_".
Definition DST_G2 : list Z := ascii_bytes "BLS_SIG_BLS12381G2_XMD:SHA-256_SSWU_RO_AUG_".

Definition GROUP_ORDER : Z :=
  0x73eda753299d7d483339d80809a1d80553bda402fffe5bfeffffffff00000001.

Definition mod_group_order (n : Z) : Z :=
  let remainder := n mod GROUP_ORDER in
  if bool_decide (bigint_sign remainder = Minus) then remainder + GROUP_ORDER else remainder.

(** ** [bls_g1] and [bls_g2] *)
Section points.
Context `{Blst}.

(** [debug_assert!(!n_be.is_empty() && n_be.len() <= 32)] *)
Definition scalar_bytes_ok (n_be : list Z) : bool := (0 <? zlen n_be) && (zlen n_be <=? 32).

Definition generator_mul_be (n_be : list Z) : clvm blst_p1 :=
  if scalar_bytes_ok n_be then
    Ok (blst_p1_mult blst_p1_generator (blst_scalar_from_be_bytes n_be) 256)
  else Panic.

Definition parse_g1_compressed (bytes : list Z) : option blst_p1_affine :=
  match bytes with
  | [] => None
  | b0 :: tl =>
      let zeros_only := forallb (λ b, b =? 0) tl in
      if Z.land b0 0xc0 =? 0xc0 then
        if negb (b0 =? 0xc0) || negb zeros_only then None else Some p1_affine_default
      else if negb (Z.land b0 0xc0 =? 0x80) then None
      else if zeros_only && (Z.land b0 0x3f =? 0) then None
      else
        affine ← blst_p1_uncompress bytes;
        if blst_p1_affine_in_g1 affine then Some affine else None
  end.

Definition g1_sub_assign (acc p : blst_p1) : blst_p1 :=
  blst_p1_add_or_double acc (blst_p1_cneg p true).
Definition g1_scalar_multiply (p : blst_p1) (n_be : list Z) : clvm blst_p1 :=
  if scalar_bytes_ok n_be then Ok (blst_p1_mult p (blst_scalar_from_be_bytes n_be) 256)
  else Panic.

Definition g2_is_valid (p : blst_p2) : bool := blst_p2_is_inf p || blst_p2_in_g2 p.
Definition parse_g2_compressed (bytes : list Z) : option blst_p2 :=
  affine ← blst_p2_uncompress bytes;
  let p2 := blst_p2_from_affine affine in
  if g2_is_valid p2 then Some p2 else None.
Definition g2_sub_assign (acc p : blst_p2) : blst_p2 :=
  blst_p2_add_or_double acc (blst_p2_cneg p true).
Definition g2_scalar_multiply (p : blst_p2) (n_be : list Z) : clvm blst_p2 :=
  if scalar_bytes_ok n_be then Ok (blst_p2_mult p (blst_scalar_from_be_bytes n_be) 256)
  else Panic.

Definition aggregate_pairing (items : list (blst_p1 * blst_p2)) : bool :=
  match items with
  | [] => true
  | _ =>
      let ctx := foldl (λ ctx '(g1, g2),
        blst_pairing_raw_aggregate ctx (blst_p2_to_affine g2) (blst_p1_to_affine g1))
        (blst_pairing_init true DST_G2) items in
      blst_pairing_finalverify (blst_pairing_commit ctx) None
  end.

Fixpoint aggregate_loop (ctx : blst_pairing) (items : list (blst_p1 * list Z)) :
    option blst_pairing :=
  match items with
  | [] => Some ctx
  | (pk, msg) :: items =>
      let aug_msg := blst_p1_compress pk ++ msg in
      ctx ← blst_pairing_aggregate_pk_in_g1 ctx (blst_p1_to_affine pk) None aug_msg [];
      aggregate_loop ctx items
  end.
Definition aggregate_verify (sig : blst_p2) (items : list (blst_p1 * list Z)) : bool :=
  match items with
  | [] => blst_p2_is_inf sig
  | _ =>
      let sig_gt := blst_aggregated_in_g2 (blst_p2_to_affine sig) in
      match aggregate_loop (blst_pairing_init true DST_G2) items with
      | None => false
      | Some ctx => blst_pairing_finalverify (blst_pairing_commit ctx) (Some sig_gt)
      end
  end.
End points.

(** ** The operators *)
Section ops.
Context {N : Type} (v : view N) `{BigIntBytes, Blst}.

Notation out := (clvm (Z * OpOut N)).

Definition op_pubkey_for_exp (args : N) (max_cost : Z) : out :=
  check_arg_count v args 1 "pubkey_for_exp";;
  '(a0, _) ← split v args;
  v0 ← int_atom v a0;
  let exp := mod_group_order (number_from_slice v0) in
  cost ← c64 (PUBKEY_BASE_COST + zlen v0 * PUBKEY_COST_PER_BYTE);
  check_cost cost max_cost;;
  point ← generator_mul_be (magnitude_to_bytes_be exp);
  new_atom_and_cost cost (blst_p1_compress point).

Definition point_add_step (max_cost : Z) (st : Z * blst_p1) (arg : N) : clvm (Z * blst_p1) :=
  let '(cost, total) := st in
  cost ← c64 (cost + POINT_ADD_COST_PER_ARG);
  check_cost cost max_cost;;
  blob ← atom v arg;
  if zlen blob =? 48 then
    match parse_g1_compressed blob with
    | Some point => Ok (cost, blst_p1_add_or_double_affine total point)
    | None => Err InvalidInputE
    end
  else Err Unsupported.
Definition op_point_add (args : N) (max_cost : Z) : out :=
  '(cost, total) ← for_args v (point_add_step max_cost) args (POINT_ADD_BASE_COST, p1_default);
  new_atom_and_cost cost (blst_p1_compress total).

Definition g1_arg (node : N) : clvm blst_p1_affine :=
  blob ← atom v node;
  if zlen blob =? 48 then ok_or (parse_g1_compressed blob) InvalidInputE else Err InvalidInputE.
Definition g2_arg (node : N) : clvm blst_p2 :=
  blob ← atom v node;
  if zlen blob =? 96 then ok_or (parse_g2_compressed blob) InvalidInputE else Err InvalidInputE.

Fixpoint get_args_loop (n : nat) (rest : N) : clvm (list N * N) :=
  match n with
  | O => Ok ([], rest)
  | S n =>
      '(first, r) ← split v rest;
      '(l, rest) ← get_args_loop n r;
      Ok (first :: l, rest)
  end.
Definition get_args (n : nat) (args : N) (op_name : string) : clvm (list N) :=
  '(l, rest) ← get_args_loop n args;
  nil ← v_nullp v rest;
  if (nil : bool) then Ok l else Err (InvalidOperandArgs op_name (Z.of_nat n)).

(** The arguments found, at most [n] of them. *)
Definition get_varargs (n : nat) (args : N) (op_name : string) : clvm (list N) :=
  for_pairs v (λ out first,
    if (length out =? n)%nat then Err (InvalidOperandArgs op_name (Z.of_nat n))
    else Ok (out ++ [first])) args [].

Definition g1_subtract_step (max_cost : Z) (st : Z * blst_p1 * bool) (arg : N) :
    clvm (Z * blst_p1 * bool) :=
  let '(cost, total, is_first) := st in
  point ← g1_arg arg;
  cost ← c64 (cost + BLS_G1_SUBTRACT_COST_PER_ARG);
  check_cost cost max_cost;;
  let p := blst_p1_from_affine point in
  Ok (cost, (if (is_first : bool) then p else g1_sub_assign total p), false).
Definition op_bls_g1_subtract (args : N) (max_cost : Z) : out :=
  check_cost BLS_G1_SUBTRACT_BASE_COST max_cost;;
  '(cost, total, _) ← for_pairs v (g1_subtract_step max_cost) args
    (BLS_G1_SUBTRACT_BASE_COST, p1_default, true);
  new_atom_and_cost cost (blst_p1_compress total).

Definition op_bls_g1_multiply (flags : Z) (args : N) (max_cost : Z) : out :=
  l ← get_args 2 args "g1_multiply";
  match l with
  | [point; scalar] =>
      check_cost BLS_G1_MULTIPLY_BASE_COST max_cost;;
      affine ← g1_arg point;
      let total := blst_p1_from_affine affine in
      a ← int_atom v scalar;
      if flag flags LIMITS && (1024 <? zlen a) then Err InvalidInputE
      else
        cost ← c64 (BLS_G1_MULTIPLY_BASE_COST + zlen a * BLS_G1_MULTIPLY_COST_PER_BYTE);
        check_cost cost max_cost;;
        let scalar := mod_group_order (number_from_slice a) in
        total ← g1_scalar_multiply total (magnitude_to_bytes_be scalar);
        new_atom_and_cost cost (blst_p1_compress total)
  | _ => Panic
  end.

(** Flip the sign bit of a compressed point: [blob[0] ^= 0x20]. *)
Definition flip_sign (blob : list Z) : list Z :=
  match blob with b0 :: tl => Z.lxor b0 0x20 :: tl | [] => [] end.
Definition is_compressed_infinity (blob : list Z) : bool :=
  match blob with b0 :: _ => Z.land b0 0xe0 =? 0xc0 | [] => false end.

Definition op_bls_g1_negate (flags : Z) (args : N) (max_cost : Z) : out :=
  let strict := negb (flag flags RELAXED_BLS) in
  l ← get_args 1 args "g1_negate";
  match l with
  | [point] =>
      blob ← atom v point;
      if negb (zlen blob =? 48) then Err InvalidInputE
      else if strict && negb (bool_decide (is_Some (parse_g1_compressed blob))) then
        Err InvalidInputE
      else if is_compressed_infinity blob then
        Ok (BLS_G1_NEGATE_BASE_COST + 48 * MALLOC_COST_PER_BYTE, Same point)
      else new_atom_and_cost BLS_G1_NEGATE_BASE_COST (flip_sign blob)
  | _ => Panic
  end.

Definition g2_add_step (max_cost : Z) (st : Z * blst_p2) (arg : N) : clvm (Z * blst_p2) :=
  let '(cost, total) := st in
  point ← g2_arg arg;
  cost ← c64 (cost + BLS_G2_ADD_COST_PER_ARG);
  check_cost cost max_cost;;
  Ok (cost, blst_p2_add_or_double total point).
Definition op_bls_g2_add (args : N) (max_cost : Z) : out :=
  check_cost BLS_G2_ADD_BASE_COST max_cost;;
  '(cost, total) ← for_pairs v (g2_add_step max_cost) args (BLS_G2_ADD_BASE_COST, p2_default);
  new_atom_and_cost cost (blst_p2_compress total).

Definition g2_subtract_step (max_cost : Z) (st : Z * blst_p2 * bool) (arg : N) :
    clvm (Z * blst_p2 * bool) :=
  let '(cost, total, is_first) := st in
  point ← g2_arg arg;
  cost ← c64 (cost + BLS_G2_SUBTRACT_COST_PER_ARG);
  check_cost cost max_cost;;
  Ok (cost, (if (is_first : bool) then point else g2_sub_assign total point), false).
Definition op_bls_g2_subtract (args : N) (max_cost : Z) : out :=
  check_cost BLS_G2_SUBTRACT_BASE_COST max_cost;;
  '(cost, total, _) ← for_pairs v (g2_subtract_step max_cost) args
    (BLS_G2_SUBTRACT_BASE_COST, p2_default, true);
  new_atom_and_cost cost (blst_p2_compress total).

Definition op_bls_g2_multiply (flags : Z) (args : N) (max_cost : Z) : out :=
  l ← get_args 2 args "g2_multiply";
  match l with
  | [point; scalar] =>
      check_cost BLS_G2_MULTIPLY_BASE_COST max_cost;;
      total ← g2_arg point;
      a ← int_atom v scalar;
      if flag flags LIMITS && (1024 <? zlen a) then Err InvalidInputE
      else
        cost ← c64 (BLS_G2_MULTIPLY_BASE_COST + zlen a * BLS_G2_MULTIPLY_COST_PER_BYTE);
        check_cost cost max_cost;;
        let scalar := mod_group_order (number_from_slice a) in
        total ← g2_scalar_multiply total (magnitude_to_bytes_be scalar);
        new_atom_and_cost cost (blst_p2_compress total)
  | _ => Panic
  end.

Definition op_bls_g2_negate (flags : Z) (args : N) (max_cost : Z) : out :=
  let strict := negb (flag flags RELAXED_BLS) in
  l ← get_args 1 args "g2_negate";
  match l with
  | [point] =>
      blob ← atom v point;
      if negb (zlen blob =? 96) then Err InvalidInputE
      else if strict && negb (bool_decide (is_Some (parse_g2_compressed blob))) then
        Err InvalidInputE
      else if is_compressed_infinity blob then
        Ok (BLS_G2_NEGATE_BASE_COST + 96 * MALLOC_COST_PER_BYTE, Same point)
      else new_atom_and_cost BLS_G2_NEGATE_BASE_COST (flip_sign blob)
  | _ => Panic
  end.

Definition op_bls_map_to_g1 (args : N) (max_cost : Z) : out :=
  l ← get_varargs 2 args "g1_map";
  let hash msg_node (dst : clvm (list Z)) : out :=
    check_cost BLS_MAP_TO_G1_BASE_COST max_cost;;
    msg ← atom v msg_node;
    cost ← c64 (BLS_MAP_TO_G1_BASE_COST + zlen msg * BLS_MAP_TO_G1_COST_PER_BYTE);
    check_cost cost max_cost;;
    dst ← dst;
    cost ← c64 (cost + zlen dst * BLS_MAP_TO_G1_COST_PER_DST_BYTE);
    check_cost cost max_cost;;
    new_atom_and_cost cost (blst_p1_compress (blst_hash_to_g1 msg dst [])) in
  match l with
  | [msg] => hash msg (Ok DST_G1)
  | [msg; dst] => hash msg (atom v dst)
  | _ => Err InvalidArgCount
  end.

Definition op_bls_map_to_g2 (args : N) (max_cost : Z) : out :=
  l ← get_varargs 2 args "g2_map";
  let hash msg_node (dst : clvm (list Z)) : out :=
    check_cost BLS_MAP_TO_G2_BASE_COST max_cost;;
    msg ← atom v msg_node;
    cost ← c64 (BLS_MAP_TO_G2_BASE_COST + zlen msg * BLS_MAP_TO_G2_COST_PER_BYTE);
    dst ← dst;
    cost ← c64 (cost + zlen dst * BLS_MAP_TO_G2_COST_PER_DST_BYTE);
    check_cost cost max_cost;;
    new_atom_and_cost cost (blst_p2_compress (blst_hash_to_g2 msg dst [])) in
  match l with
  | [msg] => hash msg (Ok DST_G2)
  | [msg; dst] => hash msg (atom v dst)
  | _ => Err InvalidArgCount
  end.

(** [while !arena.nullp(rest)]: the body returns the next [rest]. *)
Fixpoint while_args {St : Type} (body : St → N → clvm (St * N)) (fuel : nat) (rest : N) (s : St) :
    clvm St :=
  match fuel with
  | O => Panic
  | S fuel =>
      nil ← v_nullp v rest;
      if (nil : bool) then Ok s
      else '(s, rest) ← body s rest; while_args body fuel rest s
  end.

Definition pairing_step (max_cost : Z) (st : Z * list (blst_p1 * blst_p2)) (rest : N) :
    clvm (Z * list (blst_p1 * blst_p2) * N) :=
  let '(cost, items) := st in
  cost ← c64 (cost + BLS_PAIRING_COST_PER_ARG);
  check_cost cost max_cost;;
  '(g1_node, r) ← split v rest;
  g1 ← g1_arg g1_node;
  '(g2_node, r) ← split v r;
  g2 ← g2_arg g2_node;
  Ok (cost, items ++ [(blst_p1_from_affine g1, g2)], r).
Definition op_bls_pairing_identity (args : N) (max_cost : Z) : out :=
  check_cost BLS_PAIRING_BASE_COST max_cost;;
  '(cost, items) ← while_args (pairing_step max_cost) (v_fuel v args) args
    (BLS_PAIRING_BASE_COST, []);
  if aggregate_pairing items then Ok (cost, Same (v_NIL v)) else Err InvalidInputE.

Definition verify_step (max_cost : Z) (st : Z * list (blst_p1 * list Z)) (rest : N) :
    clvm (Z * list (blst_p1 * list Z) * N) :=
  let '(cost, items) := st in
  '(pk_node, r) ← split v rest;
  pk ← g1_arg pk_node;
  '(msg_node, r) ← split v r;
  msg ← atom v msg_node;
  cost ← c64 (cost + BLS_PAIRING_COST_PER_ARG);
  cost ← c64 (cost + zlen msg * BLS_MAP_TO_G2_COST_PER_BYTE);
  cost ← c64 (cost + zlen DST_G2 * BLS_MAP_TO_G2_COST_PER_DST_BYTE);
  check_cost cost max_cost;;
  Ok (cost, items ++ [(blst_p1_from_affine pk, msg)], r).
Definition op_bls_verify (args : N) (max_cost : Z) : out :=
  check_cost BLS_PAIRING_BASE_COST max_cost;;
  '(sig_node, rest) ← split v args;
  signature ← g2_arg sig_node;
  '(cost, items) ← while_args (verify_step max_cost) (v_fuel v rest) rest
    (BLS_PAIRING_BASE_COST, []);
  if aggregate_verify signature items then Ok (cost, Same (v_NIL v)) else Err InvalidInputE.
End ops.

(** ** Dispatch: [ChiaDialect::op] *)
Section dialect.
Context {N : Type} (v : view N) `{BigIntBytes, Sha256, Blst}.

(** A single-byte opcode; [None] is the unknown-operator path. *)
Definition dialect_fn (flags opcode : Z) : option (N → Z → clvm (Z * OpOut N)) :=
  if opcode =? 3 then Some (op_if v)
  else if opcode =? 4 then Some (op_cons v)
  else if opcode =? 5 then Some (op_first v)
  else if opcode =? 6 then Some (op_rest v)
  else if opcode =? 7 then Some (op_listp v)
  else if opcode =? 8 then Some (op_raise v)
  else if opcode =? 9 then Some (op_eq v)
  else if opcode =? 10 then Some (op_gr_bytes v)
  else if opcode =? 11 then Some (op_sha256 v)
  else if opcode =? 12 then Some (op_substr v)
  else if opcode =? 13 then Some (op_strlen v)
  else if opcode =? 14 then Some (op_concat v)
  else if opcode =? 16 then Some (op_add v)
  else if opcode =? 17 then Some (op_subtract v)
  else if opcode =? 18 then Some (op_multiply v)
  else if opcode =? 19 then Some (if flag flags NO_NEG_DIV then op_div_deprecated v else op_div v)
  else if opcode =? 20 then Some (op_divmod v)
  else if opcode =? 21 then Some (op_gr v)
  else if opcode =? 22 then Some (op_ash v)
  else if opcode =? 23 then Some (op_lsh v)
  else if opcode =? 24 then Some (op_logand v)
  else if opcode =? 25 then Some (op_logior v)
  else if opcode =? 26 then Some (op_logxor v)
  else if opcode =? 27 then Some (op_lognot v)
  else if opcode =? 29 then Some (op_point_add v)
  else if opcode =? 30 then Some (op_pubkey_for_exp v)
  else if opcode =? 32 then Some (op_not v)
  else if opcode =? 33 then Some (op_any v)
  else if opcode =? 34 then Some (op_all v)
  else if opcode =? 36 then Some (op_softfork v flags)
  else if opcode =? 48 then Some (op_coinid v)
  else if opcode =? 49 then Some (op_bls_g1_subtract v)
  else if opcode =? 50 then Some (op_bls_g1_multiply v flags)
  else if opcode =? 51 then Some (op_bls_g1_negate v flags)
  else if opcode =? 52 then Some (op_bls_g2_add v)
  else if opcode =? 53 then Some (op_bls_g2_subtract v)
  else if opcode =? 54 then Some (op_bls_g2_multiply v flags)
  else if opcode =? 55 then Some (op_bls_g2_negate v flags)
  else if opcode =? 56 then Some (op_bls_map_to_g1 v)
  else if opcode =? 57 then Some (op_bls_map_to_g2 v)
  else if opcode =? 58 then Some (op_bls_pairing_identity v)
  else if opcode =? 59 then Some (op_bls_verify v)
  else if opcode =? 60 then
    Some (if flag flags DISABLE_OP && negb (flag flags NEW_COST_MODEL)
          then λ _ _, Err (Unimplemented 60) else op_modpow v flags)
  else if opcode =? 61 then Some (op_mod v flags)
  else None.

Definition dialect_op (flags : Z) (o argument_list : N) (max_cost : Z) : clvm (Z * OpOut N) :=
  a ← v_atom v o;
  match a with
  | None => Err ExpectedAtomGotPair
  | Some b =>
      let unknown (b0 : Z) :=
        if flag flags NO_UNKNOWN_OPS then Err (Unimplemented b0)
        else op_unknown v o argument_list max_cost in
      match b with
      | [opcode] =>
          match dialect_fn flags opcode with
          | Some f => f argument_list max_cost
          | None => unknown opcode
          end
      | _ => unknown (default 0 (head b))
      end
  end.
End dialect.

(** * Simulation *)
Section sims.
Context `{BigIntBytes, Sha256, Blst} {N : Type} (v : view N) (R : N → SExp → Prop) `{!view_sim v R}.

#[local] Hint Resolve new_atom_and_cost_sim : sim.

Lemma g1_arg_sim n t : R n t → clvm_rel eq (g1_arg v n) (g1_arg tree_view t).
Proof. intros HR. unfold g1_arg. sim_auto. Qed.
Lemma g2_arg_sim n t : R n t → clvm_rel eq (g2_arg v n) (g2_arg tree_view t).
Proof. intros HR. unfold g2_arg. sim_auto. Qed.
#[local] Hint Resolve g1_arg_sim g2_arg_sim : sim.

Lemma get_args_loop_sim k n t :
  R n t →
  clvm_rel (pair_rel (Forall2 R) R) (get_args_loop v k n) (get_args_loop tree_view k t).
Proof.
  revert n t. induction k as [|k IH]; intros n t HR; cbn [get_args_loop]; sim_auto.
Qed.
Lemma get_args_sim k n t name :
  R n t → clvm_rel (Forall2 R) (get_args v k n name) (get_args tree_view k t name).
Proof. intros HR. unfold get_args. pose proof get_args_loop_sim. sim_auto. Qed.

Lemma get_varargs_sim k n t name :
  R n t → clvm_rel (Forall2 R) (get_varargs v k n name) (get_varargs tree_view k t name).
Proof.
  intros HR. apply (for_pairs_sim v R); [|done|constructor].
  intros ns ts m u Hns Hu. rewrite (Forall2_length _ _ _ Hns).
  destruct (length ts =? k)%nat; [done|]. apply Forall2_app; eauto with sim.
Qed.
#[local] Hint Resolve get_args_sim get_varargs_sim : sim.

(** Case analysis on two related lists of nodes. *)
Ltac sim_list :=
  do 3 try match goal with
  | H : Forall2 _ ?l ?k |- _ => is_var l; is_var k; inversion H; clear H; subst; try done
  end.

(** Two-at-a-time loops end because every step shortens the list. *)
Lemma while_args_sim {St} (body1 : St → N → clvm (St * N)) (body2 : St → SExp → clvm (St * SExp))
    f1 f2 n t s :
  (∀ s n t, R n t → clvm_rel (pair_rel eq R) (body1 s n) (body2 s t)) →
  (∀ s t s' t', body2 s t = Ok (s', t') → (spine t' < spine t)%nat) →
  R n t → (spine t < f1)%nat → (spine t < f2)%nat →
  clvm_rel eq (while_args v body1 f1 n s) (while_args tree_view body2 f2 t s).
Proof.
  intros Hbody Hspine. revert f2 n t s. induction f1 as [|f1 IH]; intros f2 n t s HR H1' H2'; [lia|].
  destruct f2 as [|f2]; [lia|]. cbn [while_args]. rewrite (sim_nullp n t HR).
  cbn [v_nullp tree_view mbind res_bind]. destruct (sexp_nullp t); [done|].
  pose proof (Hbody s n t HR) as Hb. destruct (body2 s t) as [[s' t']| |] eqn:E2;
    destruct (body1 s n) as [[s1 n1]| |]; try done.
  destruct Hb as [Hs Hr]. cbn in Hs, Hr |- *. subst s1. apply Hspine in E2. apply IH; [done|lia..].
Qed.

Lemma pairing_step_sim max_cost s n t :
  R n t → clvm_rel (pair_rel eq R) (pairing_step v max_cost s n) (pairing_step tree_view max_cost s t).
Proof. intros HR. unfold pairing_step. sim_auto. Qed.
Lemma verify_step_sim max_cost s n t :
  R n t → clvm_rel (pair_rel eq R) (verify_step v max_cost s n) (verify_step tree_view max_cost s t).
Proof. intros HR. unfold verify_step. sim_auto. Qed.

Lemma split_tree t a b : split tree_view t = Ok (a, b) → t = Pair a b.
Proof. destruct t; cbn; naive_solver. Qed.
Lemma pairing_step_spine max_cost s t s' t' :
  pairing_step tree_view max_cost s t = Ok (s', t') → (spine t' < spine t)%nat.
Proof.
  unfold pairing_step. intros Hs. destruct s. res_inv_pairs.
  repeat match goal with HS : split _ _ = _ |- _ => apply split_tree in HS end. simplify_eq/=. lia.
Qed.
Lemma verify_step_spine max_cost s t s' t' :
  verify_step tree_view max_cost s t = Ok (s', t') → (spine t' < spine t)%nat.
Proof.
  unfold verify_step. intros Hs. destruct s. res_inv_pairs.
  repeat match goal with HS : split _ _ = _ |- _ => apply split_tree in HS end. simplify_eq/=. lia.
Qed.

Section args.
Context (n : N) (t : SExp) (max_cost : Z) (HR : R n t).

Lemma op_pubkey_for_exp_sim :
  clvm_rel (cost_out_rel R) (op_pubkey_for_exp v n max_cost) (op_pubkey_for_exp tree_view t max_cost).
Proof. unfold op_pubkey_for_exp. sim_auto. Qed.
(** An operator that is a loop over [step] and then a plain result. *)
Ltac sim_steps step :=
  eapply rel_bind;
  [ first [apply (for_args_sim v R eq) | apply (for_pairs_sim v R eq)];
    [intros ? [? ?] ? ? -> ?; unfold step; sim_auto | done | done]
  | intros ? [? ?] ->; sim_auto ].

Lemma op_point_add_sim :
  clvm_rel (cost_out_rel R) (op_point_add v n max_cost) (op_point_add tree_view t max_cost).
Proof. unfold op_point_add. sim_steps @point_add_step. Qed.
Lemma op_bls_g1_subtract_sim :
  clvm_rel (cost_out_rel R) (op_bls_g1_subtract v n max_cost) (op_bls_g1_subtract tree_view t max_cost).
Proof. unfold op_bls_g1_subtract. sim_step. sim_steps @g1_subtract_step. Qed.
Lemma op_bls_g2_add_sim :
  clvm_rel (cost_out_rel R) (op_bls_g2_add v n max_cost) (op_bls_g2_add tree_view t max_cost).
Proof. unfold op_bls_g2_add. sim_step. sim_steps @g2_add_step. Qed.
Lemma op_bls_g2_subtract_sim :
  clvm_rel (cost_out_rel R) (op_bls_g2_subtract v n max_cost) (op_bls_g2_subtract tree_view t max_cost).
Proof. unfold op_bls_g2_subtract. sim_step. sim_steps @g2_subtract_step. Qed.
Lemma op_bls_g1_multiply_sim flags :
  clvm_rel (cost_out_rel R) (op_bls_g1_multiply v flags n max_cost) (op_bls_g1_multiply tree_view flags t max_cost).
Proof. unfold op_bls_g1_multiply. sim_step. sim_list. sim_auto. Qed.
Lemma op_bls_g1_negate_sim flags :
  clvm_rel (cost_out_rel R) (op_bls_g1_negate v flags n max_cost) (op_bls_g1_negate tree_view flags t max_cost).
Proof. unfold op_bls_g1_negate. sim_step. sim_list. sim_auto. Qed.
Lemma op_bls_g2_multiply_sim flags :
  clvm_rel (cost_out_rel R) (op_bls_g2_multiply v flags n max_cost) (op_bls_g2_multiply tree_view flags t max_cost).
Proof. unfold op_bls_g2_multiply. sim_step. sim_list. sim_auto. Qed.
Lemma op_bls_g2_negate_sim flags :
  clvm_rel (cost_out_rel R) (op_bls_g2_negate v flags n max_cost) (op_bls_g2_negate tree_view flags t max_cost).
Proof. unfold op_bls_g2_negate. sim_step. sim_list. sim_auto. Qed.
Lemma op_bls_map_to_g1_sim :
  clvm_rel (cost_out_rel R) (op_bls_map_to_g1 v n max_cost) (op_bls_map_to_g1 tree_view t max_cost).
Proof. unfold op_bls_map_to_g1. sim_step. sim_list; sim_auto. Qed.
Lemma op_bls_map_to_g2_sim :
  clvm_rel (cost_out_rel R) (op_bls_map_to_g2 v n max_cost) (op_bls_map_to_g2 tree_view t max_cost).
Proof. unfold op_bls_map_to_g2. sim_step. sim_list; sim_auto. Qed.
Lemma op_bls_pairing_identity_sim :
  clvm_rel (cost_out_rel R) (op_bls_pairing_identity v n max_cost)
    (op_bls_pairing_identity tree_view t max_cost).
Proof.
  unfold op_bls_pairing_identity. pose proof (nil_R v R). sim_step.
  eapply rel_bind.
  - apply while_args_sim; [by apply pairing_step_sim|apply pairing_step_spine|done|..].
    + pose proof (sim_fuel n t HR). cbn in *. lia.
    + cbn. lia.
  - intros ? [? ?] ->. sim_auto.
Qed.
Lemma op_bls_verify_sim :
  clvm_rel (cost_out_rel R) (op_bls_verify v n max_cost) (op_bls_verify tree_view t max_cost).
Proof.
  unfold op_bls_verify. pose proof (nil_R v R). do 3 sim_step; sim_destruct.
  eapply rel_bind.
  - apply while_args_sim; [by apply verify_step_sim|apply verify_step_spine|done|..].
    + match goal with HS : R ?a ?b |- context [v_fuel v ?a] => pose proof (sim_fuel a b HS) end.
      cbn in *. lia.
    + cbn. lia.
  - intros ? [? ?] ->. sim_auto.
Qed.
End args.
End sims.

Section dialect_sim.
Context `{BigIntBytes, Sha256, Blst} {N : Type} (v : view N) (R : N → SExp → Prop) `{!view_sim v R}.

#[local] Hint Resolve op_if_sim op_cons_sim op_first_sim op_rest_sim op_listp_sim op_raise_sim
  op_eq_sim op_gr_bytes_sim op_sha256_sim op_substr_sim op_strlen_sim op_concat_sim op_add_sim
  op_subtract_sim op_multiply_sim op_div_impl_sim op_divmod_sim op_gr_sim op_ash_sim op_lsh_sim
  binop_reduction_sim op_lognot_sim op_point_add_sim op_pubkey_for_exp_sim op_not_sim op_any_sim
  op_all_sim op_softfork_sim op_coinid_sim op_bls_g1_subtract_sim op_bls_g1_multiply_sim
  op_bls_g1_negate_sim op_bls_g2_add_sim op_bls_g2_subtract_sim op_bls_g2_multiply_sim
  op_bls_g2_negate_sim op_bls_map_to_g1_sim op_bls_map_to_g2_sim op_bls_pairing_identity_sim
  op_bls_verify_sim op_modpow_sim op_mod_sim op_unknown_sim : sim.

(** Two operator tables with related behaviour. *)
Definition fn_rel (f : N → Z → clvm (Z * OpOut N)) (g : SExp → Z → clvm (Z * OpOut SExp)) : Prop :=
  ∀ n t max_cost, R n t → clvm_rel (cost_out_rel R) (f n max_cost) (g t max_cost).

Lemma dialect_fn_sim flags opcode :
  option_Forall2 fn_rel (dialect_fn v flags opcode) (dialect_fn tree_view flags opcode).
Proof.
  unfold dialect_fn.
  repeat match goal with |- option_Forall2 _ (if ?b then _ else _) _ => destruct b end;
    constructor; intros n t max_cost HR;
    repeat match goal with |- clvm_rel _ ((if ?b then _ else _) _ _) _ => destruct b end;
    try reflexivity; eauto with sim.
Qed.

Lemma dialect_op_sim flags o to n t max_cost :
  R o to → R n t →
  clvm_rel (cost_out_rel R) (dialect_op v flags o n max_cost) (dialect_op tree_view flags to t max_cost).
Proof.
  intros Ho HR. unfold dialect_op. sim_step. destruct a as [b|]; [|done].
  assert (Hu : ∀ b0, clvm_rel (cost_out_rel R)
      (if flag flags NO_UNKNOWN_OPS then Err (Unimplemented b0) else op_unknown v o n max_cost)
      (if flag flags NO_UNKNOWN_OPS then Err (Unimplemented b0) else op_unknown tree_view to t max_cost)).
  { intros b0. destruct (flag flags NO_UNKNOWN_OPS); [done|]. eauto with sim. }
  destruct b as [|opcode [|? ?]]; try apply Hu.
  destruct (dialect_fn_sim flags opcode); [auto|apply Hu].
Qed.
End dialect_sim.
