(* ===== verification/ClvmArena.v ===== *)
(** * The node arena: [core/src/clvm/arena.rs] and [OpOut::materialize]

    A node is a 32-bit handle: a tag over a 26-bit index into the pair pool or
    the atom pool, or a small integer inline.  The definitions follow the
    source: pools as lists, spans cast to [u32], handles packed by shifts, the
    ghost counters, the intern map, checkpoints.  [Panic] is an index out of
    range, a failed [debug_assert!] or an underflow.  An error ends the run
    that made it, so the operations return no arena with it.

    [den a n t] says that handle [n] denotes the tree [t] in arena [a].  The
    file shows that the arena's readers agree with the tree a node denotes,
    that every operation keeps the invariant [arena_ok], never panics and
    returns a node for the right tree, and that what a checkpoint covers
    survives a rewind. *)
From Stdlib Require Import ZArith Lia String.
From stdpp Require Import base list numbers option strings gmap.
From S2P Require Import Prelude Serialize ClvmNumber ClvmSexp Coin ClvmView ClvmOps.

Open Scope Z_scope.

Definition MAX_NUM_ATOMS : Z := 62500000.
Definition MAX_NUM_PAIRS : Z := 62500000.
Definition NODE_PTR_IDX_BITS : Z := 26.
Definition NODE_PTR_IDX_MASK : Z := Z.shiftl 1 NODE_PTR_IDX_BITS - 1.
Definition HEAP_LIMIT : Z := u32_max.
Definition INTERN_MIN_ATOM_BYTES : Z := 32.

(** ** Handles *)
Definition NodePtr : Type := Z.

Inductive ObjectType := TPair | TBytes | TSmallAtom.
Definition object_tag (t : ObjectType) : Z :=
  match t with TPair => 0 | TBytes => 1 | TSmallAtom => 2 end.

(** The handle, without the assertion on the index. *)
Definition ptr (t : ObjectType) (index : Z) : NodePtr :=
  Z.lor (Z.shiftl (object_tag t) NODE_PTR_IDX_BITS) (wrapu 32 index).
Definition NodePtr_new (t : ObjectType) (index : Z) : clvm NodePtr :=
  if NODE_PTR_IDX_MASK <? index then Panic else Ok (ptr t index).

Definition NIL : NodePtr := ptr TSmallAtom 0.
Definition ONE : NodePtr := ptr TSmallAtom 1.

Definition object_type (n : NodePtr) : clvm ObjectType :=
  let tag := Z.shiftr n NODE_PTR_IDX_BITS in
  if tag =? 0 then Ok TPair
  else if tag =? 1 then Ok TBytes
  else if tag =? 2 then Ok TSmallAtom
  else Panic.
Definition index (n : NodePtr) : Z := Z.land n NODE_PTR_IDX_MASK.

(** ** Small atoms *)
Definition fits_in_small_atom (v : list Z) : option Z :=
  let bad :=
    match v with
    | [] => false
    | b0 :: tl =>
        (4 <? zlen v) || ((zlen v =? 1) && (b0 =? 0)) || negb (Z.land b0 0x80 =? 0)
        || ((b0 =? 0) && match tl with b1 :: _ => Z.land b1 0x80 =? 0 | [] => true end)
        || ((zlen v =? 4) && (0x03 <? b0))
    end in
  if (bad : bool) then None
  else Some (foldl (λ ret b, Z.lor (wrapu 32 (Z.shiftl ret 8)) b) 0 v).

Definition len_for_value (val : Z) : Z :=
  if val =? 0 then 0
  else if val <? 0x80 then 1
  else if val <? 0x8000 then 2
  else if val <? 0x00800000 then 3
  else if val <? 0x80000000 then 4
  else 5.

(** [Atom::U32(val.to_be_bytes(), len)] as bytes: [&bytes[4 - len..]]. *)
Definition small_atom_bytes (val : Z) : clvm (list Z) :=
  start ← c64 (4 - len_for_value val);
  Ok (drop (Z.to_nat start) (to_be 4 val)).

(** ** The arena *)
Record Arena := {
  atom_intern : gmap (list Z) NodePtr;
  u8_vec : list Z;
  pair_vec : list (NodePtr * NodePtr);
  atom_vec : list (Z * Z);
  ghost_atoms : Z;
  ghost_pairs : Z;
  ghost_heap : Z;
}.

Record Checkpoint := { cp_heap : Z; cp_pairs : Z; cp_atoms : Z }.

Definition arena_reset : Arena :=
  {| atom_intern := ∅; u8_vec := []; pair_vec := []; atom_vec := [];
     ghost_atoms := 2; ghost_pairs := 0; ghost_heap := 1 |}.

Definition checkpoint (a : Arena) : Checkpoint :=
  {| cp_heap := zlen (u8_vec a); cp_pairs := zlen (pair_vec a); cp_atoms := zlen (atom_vec a) |}.

Definition restore (cp : Checkpoint) (a : Arena) : clvm Arena :=
  h ← c64 (zlen (u8_vec a) - cp_heap cp);
  p ← c64 (zlen (pair_vec a) - cp_pairs cp);
  t ← c64 (zlen (atom_vec a) - cp_atoms cp);
  Ok {| atom_intern := ∅;
        u8_vec := take (Z.to_nat (cp_heap cp)) (u8_vec a);
        pair_vec := take (Z.to_nat (cp_pairs cp)) (pair_vec a);
        atom_vec := take (Z.to_nat (cp_atoms cp)) (atom_vec a);
        ghost_atoms := ghost_atoms a + t;
        ghost_pairs := ghost_pairs a + p;
        ghost_heap := ghost_heap a + h |}.

Definition add_ghosts (atoms heap : Z) (a : Arena) : Arena :=
  {| atom_intern := atom_intern a; u8_vec := u8_vec a; pair_vec := pair_vec a;
     atom_vec := atom_vec a; ghost_atoms := ghost_atoms a + atoms;
     ghost_pairs := ghost_pairs a; ghost_heap := ghost_heap a + heap |}.

(** Append [bytes] to the heap and a span to the atom pool. *)
Definition push_atom (bytes : list Z) (span : Z * Z) (a : Arena) : Arena :=
  {| atom_intern := atom_intern a; u8_vec := u8_vec a ++ bytes; pair_vec := pair_vec a;
     atom_vec := atom_vec a ++ [span]; ghost_atoms := ghost_atoms a;
     ghost_pairs := ghost_pairs a; ghost_heap := ghost_heap a |}.
Definition push_pair (first rest : NodePtr) (a : Arena) : Arena :=
  {| atom_intern := atom_intern a; u8_vec := u8_vec a;
     pair_vec := pair_vec a ++ [(first, rest)]; atom_vec := atom_vec a;
     ghost_atoms := ghost_atoms a; ghost_pairs := ghost_pairs a; ghost_heap := ghost_heap a |}.
Definition intern_insert (v : list Z) (node : NodePtr) (a : Arena) : Arena :=
  {| atom_intern := <[v := node]> (atom_intern a); u8_vec := u8_vec a; pair_vec := pair_vec a;
     atom_vec := atom_vec a; ghost_atoms := ghost_atoms a;
     ghost_pairs := ghost_pairs a; ghost_heap := ghost_heap a |}.

Definition check_atom_limit (a : Arena) : clvm unit :=
  if zlen (atom_vec a) + ghost_atoms a =? MAX_NUM_ATOMS then Err TooManyAtoms else Ok tt.

Definition new_atom (v : list Z) (a : Arena) : clvm (NodePtr * Arena) :=
  let start := zlen (u8_vec a) in
  if HEAP_LIMIT <? start + ghost_heap a + zlen v then Err OutOfMemory
  else
    check_atom_limit a;;
    match fits_in_small_atom v with
    | Some val => n ← NodePtr_new TSmallAtom val; Ok (n, add_ghosts 1 (zlen v) a)
    | None =>
        let interned :=
          if INTERN_MIN_ATOM_BYTES <=? zlen v then atom_intern a !! v else None in
        match interned with
        | Some existing => Ok (existing, add_ghosts 1 (zlen v) a)
        | None =>
            let idx := zlen (atom_vec a) in
            let a := push_atom v (wrapu 32 start, wrapu 32 (start + zlen v)) a in
            node ← NodePtr_new TBytes idx;
            Ok (node, if INTERN_MIN_ATOM_BYTES <=? zlen v then intern_insert v node a else a)
        end
    end.

Definition new_pair (first rest : NodePtr) (a : Arena) : clvm (NodePtr * Arena) :=
  let idx := zlen (pair_vec a) in
  limit ← c64 (MAX_NUM_PAIRS - ghost_pairs a);
  if limit <=? idx then Err TooManyPairs
  else node ← NodePtr_new TPair idx; Ok (node, push_pair first rest a).

(** Slices and indices of the pools; out of range panics. *)
Definition slice (l : list Z) (s e : Z) : clvm (list Z) :=
  if (0 <=? s) && (s <=? e) && (e <=? zlen l)
  then Ok (take (Z.to_nat (e - s)) (drop (Z.to_nat s) l)) else Panic.
Definition atom_span (a : Arena) (n : NodePtr) : clvm (Z * Z) :=
  expect (atom_vec a !! Z.to_nat (index n)).
Definition span_len (span : Z * Z) : clvm Z := chk 32 (span.2 - span.1).

Definition bounds_check (start end_ len : Z) : clvm unit :=
  if len <? start then Err InvalidInputE
  else if len <? end_ then Err InvalidInputE
  else if end_ <? start then Err InvalidInputE
  else Ok tt.

Definition new_substr (node : NodePtr) (start end_ : Z) (a : Arena) : clvm (NodePtr * Arena) :=
  check_atom_limit a;;
  ty ← object_type node;
  match ty with
  | TPair => Err ExpectedAtomGotPair
  | TBytes =>
      atom ← atom_span a node;
      len ← span_len atom;
      bounds_check start end_ len;;
      let idx := zlen (atom_vec a) in
      s ← chk 32 (atom.1 + start);
      e ← chk 32 (atom.1 + end_);
      n ← NodePtr_new TBytes idx;
      Ok (n, push_atom [] (s, e) a)
  | TSmallAtom =>
      let val := index node in
      bounds_check start end_ (len_for_value val);;
      buf ← small_atom_bytes val;
      substr ← slice buf start end_;
      match fits_in_small_atom substr with
      | Some new_val => n ← NodePtr_new TSmallAtom new_val; Ok (n, add_ghosts 1 0 a)
      | None =>
          let heap_start := zlen (u8_vec a) in
          let idx := zlen (atom_vec a) in
          n ← NodePtr_new TBytes idx;
          Ok (n, push_atom substr
                   (wrapu 32 heap_start, wrapu 32 (heap_start + zlen substr)) a)
      end
  end.

(** ** Readers *)
Definition arena_atom (a : Arena) (node : NodePtr) : clvm (option (list Z)) :=
  ty ← object_type node;
  match ty with
  | TBytes => atom ← atom_span a node; b ← slice (u8_vec a) atom.1 atom.2; Ok (Some b)
  | TSmallAtom => b ← small_atom_bytes (index node); Ok (Some b)
  | TPair => Ok None
  end.

Definition atom_len (a : Arena) (node : NodePtr) : clvm (option Z) :=
  ty ← object_type node;
  match ty with
  | TBytes => atom ← atom_span a node; l ← span_len atom; Ok (Some l)
  | TSmallAtom => Ok (Some (len_for_value (index node)))
  | TPair => Ok None
  end.

Definition arena_number `{BigIntBytes} (a : Arena) (node : NodePtr) : clvm (option SExpNumber) :=
  ty ← object_type node;
  match ty with
  | TSmallAtom => Ok (Some (I128 (index node)))
  | TBytes =>
      atom ← atom_span a node;
      buf ← slice (u8_vec a) atom.1 atom.2;
      Ok (Some (
        match buf with
        | [] => I128 0
        | b0 :: _ =>
            if zlen buf <=? 16 then
              let fill := if negb (Z.land b0 0x80 =? 0) then 0xff else 0x00 in
              I128 (from_be_signed (replicate (16 - length buf) fill ++ buf))
            else BigInt (number_from_slice buf)
        end))
  | TPair => Ok None
  end.

Definition node_kind (a : Arena) (node : NodePtr) : clvm (NodeKind NodePtr) :=
  ty ← object_type node;
  match ty with
  | TPair => '(f, r) ← expect (pair_vec a !! Z.to_nat (index node)); Ok (KPair f r)
  | TBytes | TSmallAtom => Ok KAtom
  end.

Definition arena_nullp (a : Arena) (node : NodePtr) : clvm bool :=
  if node =? NIL then Ok true
  else l ← atom_len a node; Ok (bool_decide (l = Some 0)).

Definition arena_view `{BigIntBytes} (a : Arena) : view NodePtr := {|
  v_kind := node_kind a;
  v_atom := arena_atom a;
  v_len := atom_len a;
  v_number := arena_number a;
  v_nullp := arena_nullp a;
  v_NIL := NIL;
  v_ONE := ONE;
  v_fuel _ := S (S (length (pair_vec a)));
|}.

(** ** [new_concat] *)
Fixpoint concat_loop (a : Arena) (new_size : Z) (nodes : list NodePtr) (heap : list Z) (counter : Z) :
    clvm (list Z * Z) :=
  match nodes with
  | [] => Ok (heap, counter)
  | node :: nodes =>
      ty ← object_type node;
      match ty with
      | TPair => Err ExpectedAtomGotPair
      | TBytes =>
          term ← atom_span a node;
          len ← span_len term;
          if new_size <? counter + len then Err InvalidInputE
          else
            bytes ← slice heap term.1 term.2;
            concat_loop a new_size nodes (heap ++ bytes) (counter + len)
      | TSmallAtom =>
          let val := index node in
          bytes ← small_atom_bytes val;
          concat_loop a new_size nodes (heap ++ bytes) (counter + len_for_value val)
      end
  end.

Definition new_concat (new_size : Z) (nodes : list NodePtr) (a : Arena) : clvm (NodePtr * Arena) :=
  check_atom_limit a;;
  let start := zlen (u8_vec a) in
  if HEAP_LIMIT <? start + ghost_heap a + new_size then Err OutOfMemory
  else
    match nodes with
    | [] =>
        if negb (new_size =? 0) then Err InvalidInputE else Ok (NIL, add_ghosts 1 0 a)
    | [node] =>
        l ← atom_len a node;
        match l with
        | None => Err ExpectedAtomGotPair
        | Some len =>
            if negb (len =? new_size) then Err InvalidInputE
            else Ok (node, add_ghosts 1 new_size a)
        end
    | _ =>
        '(heap, counter) ← concat_loop a new_size nodes (u8_vec a) 0;
        if negb (counter =? new_size) then Err InvalidInputE
        else
          let idx := zlen (atom_vec a) in
          n ← NodePtr_new TBytes idx;
          Ok (n, push_atom (drop (length (u8_vec a)) heap)
                   (wrapu 32 start, wrapu 32 (zlen heap)) a)
    end.

Definition new_i128 (v : Z) (a : Arena) : clvm (NodePtr * Arena) :=
  if v =? 0 then new_atom [] a
  else new_atom (trim_twos_complement_be (to_be_bytes i128 v)) a.
Definition new_bigint `{BigIntBytes} (v : Z) (a : Arena) : clvm (NodePtr * Arena) :=
  new_atom (bigint_to_bytes v (bool_decide (bigint_sign v ≠ NoSign))) a.
Definition new_number `{BigIntBytes} (n : SExpNumber) (a : Arena) : clvm (NodePtr * Arena) :=
  match n with I128 v => new_i128 v a | BigInt b => new_bigint b a end.

(** ** [OpOut::materialize] *)
Definition materialize `{BigIntBytes} (o : OpOut NodePtr) (cost : Z) (a : Arena) :
    clvm (Z * NodePtr * Arena) :=
  match o with
  | Same node => Ok (cost, node, a)
  | OPair first rest => '(n, a) ← new_pair first rest a; Ok (cost, n, a)
  | Number n =>
      '(node, a) ← new_number n a;
      l ← atom_len a node;
      len ← ok_or l ExpectedAtomGotPair;
      cost ← c64 (cost + len * MALLOC_COST_PER_BYTE);
      Ok (cost, node, a)
  | Small b => '(n, a) ← new_atom b a; Ok (cost, n, a)
  | Concat nodes total => '(n, a) ← new_concat total nodes a; Ok (cost, n, a)
  | Substr node start end_ => '(n, a) ← new_substr node start end_ a; Ok (cost, n, a)
  | NumberPair q r =>
      '(q1, a) ← new_number q a;
      '(r1, a) ← new_number r a;
      lq ← atom_len a q1;
      lr ← atom_len a r1;
      cost ← c64 (cost + (default 0 lq + default 0 lr) * MALLOC_COST_PER_BYTE);
      '(n, a) ← new_pair q1 r1 a;
      Ok (cost, n, a)
  end.

(** ** [import] and [export] *)
Inductive ImportJob := IVisit (s : SExp) | IBuild.

Definition import_step (job : ImportJob) (jobs : list ImportJob) (out : list NodePtr) (a : Arena) :
    clvm (list ImportJob * list NodePtr * Arena) :=
  match job with
  | IVisit (Atom b) => '(n, a) ← new_atom b a; Ok (jobs, n :: out, a)
  | IVisit (Pair f r) => Ok (IVisit f :: IVisit r :: IBuild :: jobs, out, a)
  | IBuild =>
      match out with
      | rest :: first :: out => '(n, a) ← new_pair first rest a; Ok (jobs, n :: out, a)
      | _ => Err ValueStackEmpty
      end
  end.
Fixpoint import_loop (fuel : nat) (jobs : list ImportJob) (out : list NodePtr) (a : Arena) :
    clvm (NodePtr * Arena) :=
  match jobs with
  | [] => match out with n :: _ => Ok (n, a) | [] => Err ValueStackEmpty end
  | job :: jobs =>
      match fuel with
      | O => Panic
      | S fuel =>
          '(jobs, out, a) ← import_step job jobs out a;
          import_loop fuel jobs out a
      end
  end.
Fixpoint tree_size (s : SExp) : nat :=
  match s with Atom _ => 1 | Pair f r => S (S (tree_size f + tree_size r)) end.
(** Every pair is one visit and one build, every atom one visit. *)
Definition import (s : SExp) (a : Arena) : clvm (NodePtr * Arena) :=
  import_loop (tree_size s) [IVisit s] [] a.

Inductive ExportJob := EVisit (n : NodePtr) | EBuild.
Fixpoint export_loop (fuel : nat) (a : Arena) (jobs : list ExportJob) (out : list SExp) : clvm SExp :=
  match jobs with
  | [] => match out with s :: _ => Ok s | [] => Panic end
  | job :: jobs =>
      match fuel with
      | O => Panic
      | S fuel =>
          match job with
          | EVisit n =>
              k ← node_kind a n;
              match k with
              | KAtom =>
                  o ← arena_atom a n;
                  bytes ← expect o;
                  export_loop fuel a jobs (Atom bytes :: out)
              | KPair first rest =>
                  export_loop fuel a (EVisit first :: EVisit rest :: EBuild :: jobs) out
              end
          | EBuild =>
              match out with
              | rest :: first :: out => export_loop fuel a jobs (Pair first rest :: out)
              | _ => Panic
              end
          end
      end
  end.
Definition export (fuel : nat) (a : Arena) (n : NodePtr) : clvm SExp :=
  export_loop fuel a [EVisit n] [].

Definition counters (a : Arena) : Z * Z * Z :=
  (zlen (atom_vec a) + ghost_atoms a, zlen (pair_vec a) + ghost_pairs a,
   zlen (u8_vec a) + ghost_heap a).

(** * Lemmas *)

(** ** Handles *)
Definition idx_ok (i : Z) : Prop := 0 ≤ i < 2 ^ 26.

Lemma ptr_add t i : idx_ok i → ptr t i = object_tag t * 2 ^ 26 + i.
Proof.
  intros Hi. unfold idx_ok in Hi. unfold ptr, NODE_PTR_IDX_BITS.
  assert (wrapu 32 i = i) as -> by (unfold wrapu; apply Z.mod_small; lia).
  rewrite Z.shiftl_mul_pow2 by lia.
  assert (Hl : Z.land (object_tag t * 2 ^ 26) i = 0).
  { apply Z.bits_inj'. intros k Hk. rewrite Z.land_spec, Z.bits_0.
    destruct (Z.lt_ge_cases k 26).
    - rewrite Z.mul_pow2_bits_low by lia. done.
    - rewrite (Z.bits_above_log2 i), andb_false_r; [done|lia|].
      destruct (Z.eq_dec i 0) as [->|]; [cbn; lia|].
      apply Z.log2_lt_pow2; [lia|]. apply Z.lt_le_trans with (2 ^ 26); [lia|].
      apply Z.pow_le_mono_r; lia. }
  pose proof (Z.add_lor_land (object_tag t * 2 ^ 26) i). lia.
Qed.

Lemma object_type_ptr t i : idx_ok i → object_type (ptr t i) = Ok t.
Proof.
  intros Hi. unfold object_type. rewrite ptr_add by done. unfold idx_ok, NODE_PTR_IDX_BITS in *.
  rewrite Z.shiftr_div_pow2 by lia.
  replace ((object_tag t * 2 ^ 26 + i) / 2 ^ 26) with (object_tag t)
    by (apply (Z.div_unique _ _ _ i); lia).
  by destruct t.
Qed.

Lemma index_ptr t i : idx_ok i → index (ptr t i) = i.
Proof.
  intros Hi. unfold index. rewrite ptr_add by done. unfold idx_ok in *.
  change NODE_PTR_IDX_MASK with (Z.ones 26). rewrite Z.land_ones by lia.
  rewrite Z.add_comm, Z_mod_plus_full. apply Z.mod_small. lia.
Qed.

Lemma NodePtr_new_ok t i : idx_ok i → NodePtr_new t i = Ok (ptr t i).
Proof.
  intros Hi. unfold NodePtr_new. change NODE_PTR_IDX_MASK with (2 ^ 26 - 1).
  unfold idx_ok in Hi. destruct (Z.ltb_spec (2 ^ 26 - 1) i); [lia|done].
Qed.

Lemma idx_ok_0 : idx_ok 0.
Proof. unfold idx_ok. lia. Qed.
Lemma idx_ok_1 : idx_ok 1.
Proof. unfold idx_ok. lia. Qed.

Lemma ptr_inj t t' i j : idx_ok i → idx_ok j → ptr t i = ptr t' j → t = t' ∧ i = j.
Proof.
  intros Hi Hj Heq. pose proof (object_type_ptr t i Hi) as Ht. rewrite Heq in Ht.
  rewrite object_type_ptr in Ht by done. apply Ok_inj in Ht.
  pose proof (index_ptr t i Hi) as Hx. rewrite Heq, index_ptr in Hx by done. done.
Qed.

(** ** Small atoms *)
Definition small_bytes (val : Z) : list Z := drop (Z.to_nat (4 - len_for_value val)) (to_be 4 val).

Lemma len_for_value_bounds val : idx_ok val → 0 ≤ len_for_value val ≤ 4.
Proof. unfold idx_ok, len_for_value. intros. repeat (split_if; bool_to_prop); lia. Qed.

Lemma small_atom_bytes_ok val : idx_ok val → small_atom_bytes val = Ok (small_bytes val).
Proof.
  intros Hv. pose proof (len_for_value_bounds val Hv). unfold small_atom_bytes, c64.
  rewrite chk_ok; [done|]. unfold uok. lia.
Qed.

Lemma small_bytes_len val : idx_ok val → zlen (small_bytes val) = len_for_value val.
Proof.
  intros Hv. pose proof (len_for_value_bounds val Hv). unfold small_bytes, zlen.
  rewrite length_drop, length_to_be. lia.
Qed.

Lemma small_bytes_ok val : bytes_ok (small_bytes val).
Proof. unfold small_bytes. apply Forall_drop, to_be_ok. Qed.

(** The inline bytes are the minimal encoding of the value. *)
Lemma small_bytes_be val :
  idx_ok val → small_bytes val = to_be (Z.to_nat (len_for_value val)) val.
Proof.
  intros Hv. pose proof (len_for_value_bounds val Hv) as Hl. unfold small_bytes.
  rewrite drop_to_be; [f_equal; lia|lia|].
  replace (4 - Z.to_nat (4 - len_for_value val))%nat with (Z.to_nat (len_for_value val)) by lia.
  rewrite Z2Nat.id by lia. unfold idx_ok in Hv. split; [lia|].
  unfold len_for_value in *. repeat (split_if; bool_to_prop); cbn; lia.
Qed.

Lemma small_bytes_canon val :
  idx_ok val → canonb (small_bytes val) = true ∧ atom_value (small_bytes val) = val.
Proof.
  intros Hv. rewrite small_bytes_be by done. unfold idx_ok, len_for_value in *.
  repeat (split_if; bool_to_prop); try (subst; done); try lia; apply to_be_canonical;
    repeat match goal with
    | |- context [2 ^ ?e] => let r := eval vm_compute in (2 ^ e) in change (2 ^ e) with r
    end; lia.
Qed.

Lemma small_bytes_nil val : idx_ok val → small_bytes val = [] ↔ val = 0.
Proof.
  intros Hv. split; [|by intros ->]. intros Hn. destruct (small_bytes_canon val Hv) as [_ Hval].
  by rewrite Hn in Hval.
Qed.

(** The shift loop is the big-endian value while it stays within 32 bits. *)
Lemma be_fold acc bs :
  0 ≤ acc → bytes_ok bs → (acc + 1) * 256 ^ zlen bs ≤ 2 ^ 32 →
  foldl (λ ret b, Z.lor (wrapu 32 (Z.shiftl ret 8)) b) acc bs = acc * 256 ^ zlen bs + from_be bs.
Proof.
  revert acc. induction bs as [|b bs IH]; intros acc Ha Hb Hlim.
  { rewrite zlen_nil, from_be_nil. cbn. lia. }
  apply bytes_ok_cons in Hb as [Hb Hbs]. pose proof Hb as Hb'. unfold byte_ok in Hb'.
  rewrite zlen_cons in *. pose proof (zlen_nonneg bs) as Hl.
  rewrite Z.pow_add_r, Z.pow_1_r in * by lia.
  assert (Hpos : 1 ≤ 256 ^ zlen bs).
  { change 1 with (256 ^ 0). apply Z.pow_le_mono_r; lia. }
  cbn [foldl]. assert (Hw : wrapu 32 (Z.shiftl acc 8) = Z.shiftl acc 8).
  { unfold wrapu. rewrite Z.shiftl_mul_pow2 by lia. apply Z.mod_small. nia. }
  rewrite Hw, lor_shift_byte by done. rewrite IH; [rewrite from_be_cons; lia|nia|done|nia].
Qed.

Lemma fits_small v val :
  bytes_ok v → fits_in_small_atom v = Some val → idx_ok val ∧ small_bytes val = v.
Proof.
  intros Hv Hf. unfold fits_in_small_atom in Hf.
  destruct v as [|b0 tl]; [apply (inj Some) in Hf; subst; split; [apply idx_ok_0|done]|].
  match type of Hf with (if ?b then _ else _) = _ => destruct b eqn:Hbad; [done|] end.
  apply (inj Some) in Hf.
  rewrite !orb_false_iff in Hbad. destruct Hbad as [[[[H4 H1] Hneg] Hlead] Htop].
  apply Z.ltb_ge in H4. pose proof Hv as Hv'. apply bytes_ok_cons in Hv' as [Hb0 Htl].
  rewrite negb_false_iff, byte_msb in Hneg by done. apply Z.ltb_lt in Hneg.
  assert (Hval : val = from_be (b0 :: tl)).
  { rewrite <-Hf, be_fold; [lia|lia|done|].
    assert (256 ^ zlen (b0 :: tl) ≤ 256 ^ 4) by (apply Z.pow_le_mono_r; lia). lia. }
  pose proof (from_be_bounds tl Htl) as Htlb. rewrite from_be_cons in Hval.
  rewrite zlen_cons in *. pose proof (zlen_nonneg tl). unfold byte_ok in Hb0.
  assert (Hrange : idx_ok val).
  { unfold idx_ok. split; [lia|].
    destruct (Z.eq_dec (zlen tl) 3) as [H3|H3].
    - rewrite H3 in *. cbn in Htop. apply Z.ltb_ge in Htop. change (256 ^ 3) with 16777216 in *. lia.
    - assert (256 ^ zlen tl ≤ 256 ^ 2) by (apply Z.pow_le_mono_r; lia).
      change (256 ^ 2) with 65536 in *. nia. }
  split; [done|].
  destruct (small_bytes_canon val Hrange) as [Hc Ha].
  apply canon_unique; [apply small_bytes_ok|done|done| |].
  - destruct tl as [|b1 tl].
    + cbn in H1 |- *. by rewrite negb_true_iff.
    + apply bytes_ok_cons in Htl as [Hb1 _]. cbn. apply negb_true_iff, not_true_iff_false.
      rewrite redundant_sign_spec by done. intros [[-> Hlt]|[-> _]]; [|lia].
      rewrite byte_msb in Hlead by done. apply Z.ltb_lt in Hlt. rewrite Hlt in Hlead. done.
  - rewrite Ha. cbn [atom_value]. rewrite from_be_signed_cons by done.
    destruct (Z.ltb_spec b0 128); [done|lia].
Qed.

(** ** The tree a handle denotes *)
Inductive den (a : Arena) : NodePtr → SExp → Prop :=
  | den_small val :
      idx_ok val → den a (ptr TSmallAtom val) (Atom (small_bytes val))
  | den_bytes i s e :
      idx_ok (Z.of_nat i) → atom_vec a !! i = Some (s, e) →
      0 ≤ s ≤ e → e ≤ zlen (u8_vec a) → e < 2 ^ 32 →
      den a (ptr TBytes (Z.of_nat i)) (Atom (take (Z.to_nat (e - s)) (drop (Z.to_nat s) (u8_vec a))))
  | den_pair i f r tf tr :
      idx_ok (Z.of_nat i) → pair_vec a !! i = Some (f, r) →
      den a f tf → den a r tr → (spine tr ≤ i)%nat →
      den a (ptr TPair (Z.of_nat i)) (Pair tf tr).

(** The pools of [a] are prefixes of those of [b]. *)
Definition extends (a b : Arena) : Prop :=
  u8_vec a `prefix_of` u8_vec b ∧ pair_vec a `prefix_of` pair_vec b ∧
  atom_vec a `prefix_of` atom_vec b.

#[global] Instance extends_refl : Reflexive extends.
Proof. by intros a. Qed.
#[global] Instance extends_trans : Transitive extends.
Proof. intros a b c (? & ? & ?) (? & ? & ?). split_and!; by etrans. Qed.

Lemma den_mono a b n t : extends a b → den a n t → den b n t.
Proof.
  intros (Hh & Hp & Ht) Hd. induction Hd as [val Hv|i s e Hi Hs Hse He Hl|i f r tf tr Hi Hl Hf IHf Hr IHr Hsp].
  - by constructor.
  - destruct Hh as [k Hk].
    assert (take (Z.to_nat (e - s)) (drop (Z.to_nat s) (u8_vec a)) =
            take (Z.to_nat (e - s)) (drop (Z.to_nat s) (u8_vec b))) as ->.
    { unfold zlen in He. rewrite Hk, drop_app_le by lia.
      rewrite take_app_le by (rewrite length_drop; lia). done. }
    econstructor; eauto.
    + by eapply prefix_lookup_Some.
    + rewrite Hk, zlen_app. pose proof (zlen_nonneg k). lia.
  - econstructor; eauto. by eapply prefix_lookup_Some.
Qed.

(** ** The readers agree with the denoted tree *)
Section readers.
Context `{BigIntBytesOk}.

Lemma slice_ok l s e : 0 ≤ s ≤ e → e ≤ zlen l →
  slice l s e = Ok (take (Z.to_nat (e - s)) (drop (Z.to_nat s) l)).
Proof.
  intros Hs He. unfold slice.
  rewrite (proj2 (Z.leb_le 0 s)), (proj2 (Z.leb_le s e)), (proj2 (Z.leb_le e (zlen l))) by lia. done.
Qed.

Lemma slice_len (l : list Z) s e : 0 ≤ s ≤ e → e ≤ zlen l →
  zlen (take (Z.to_nat (e - s)) (drop (Z.to_nat s) l)) = e - s.
Proof. unfold zlen. intros Hs He. rewrite length_take, length_drop. lia. Qed.

Lemma span_lookup a i s e :
  idx_ok (Z.of_nat i) → atom_vec a !! i = Some (s, e) →
  atom_span a (ptr TBytes (Z.of_nat i)) = Ok (s, e).
Proof. intros Hi Hl. unfold atom_span. rewrite index_ptr, Nat2Z.id, Hl by done. done. Qed.

Lemma small_number val :
  idx_ok val → number_of_atom (small_bytes val) = I128 val.
Proof.
  intros Hv. destruct (small_bytes_canon val Hv) as [_ Hval].
  destruct (number_of_atom_spec (small_bytes val) (small_bytes_ok val)) as [_ Hn].
  rewrite Hval in Hn. pose proof (small_bytes_len val Hv). pose proof (len_for_value_bounds val Hv).
  destruct (small_bytes val) as [|b l] eqn:E; [by cbn in Hn |- *; subst|].
  unfold number_of_atom in *. rewrite (proj2 (Z.leb_le _ 16)) in * by lia.
  cbn [num_value] in Hn. by rewrite Hn.
Qed.

Lemma den_kind a n t :
  den a n t → clvm_rel (kind_rel (den a)) (node_kind a n) (v_kind tree_view t).
Proof.
  intros [val Hv|i s e Hi Hl Hse He|i f r tf tr Hi Hl Hf Hr Hsp]; unfold node_kind;
    rewrite object_type_ptr by done; cbn [mbind res_bind]; [constructor..|].
  rewrite index_ptr, Nat2Z.id, Hl by done. cbn. by constructor.
Qed.

Lemma den_atom a n t : den a n t → arena_atom a n = v_atom tree_view t.
Proof.
  intros [val Hv|i s e Hi Hl Hse He|i f r tf tr Hi Hl Hf Hr Hsp]; unfold arena_atom;
    rewrite object_type_ptr by done; cbn [mbind res_bind v_atom tree_view]; [| |done].
  - by rewrite index_ptr, small_atom_bytes_ok by done.
  - erewrite span_lookup by done. cbn [mbind res_bind fst snd]. by rewrite slice_ok by done.
Qed.

Lemma den_atom_len a n t :
  den a n t → atom_len a n = Ok (match t with Atom b => Some (zlen b) | Pair _ _ => None end).
Proof.
  intros [val Hv|i s e Hi Hl Hse He H32|i f r tf tr Hi Hl Hf Hr Hsp]; unfold atom_len;
    rewrite object_type_ptr by done; cbn [mbind res_bind]; [| |done].
  - by rewrite index_ptr, small_bytes_len by done.
  - erewrite span_lookup by done. unfold span_len. cbn [mbind res_bind fst snd].
    rewrite chk_ok by (unfold uok; lia). cbn. by rewrite slice_len by done.
Qed.
Lemma den_len a n t : den a n t → atom_len a n = v_len tree_view t.
Proof. apply den_atom_len. Qed.

Lemma den_number a n t : den a n t → arena_number a n = v_number tree_view t.
Proof.
  intros [val Hv|i s e Hi Hl Hse He H32|i f r tf tr Hi Hl Hf Hr Hsp]; unfold arena_number;
    rewrite object_type_ptr by done; cbn [mbind res_bind v_number tree_view]; [| |done].
  - by rewrite index_ptr, small_number by done.
  - erewrite span_lookup by done. cbn [mbind res_bind fst snd]. by rewrite slice_ok by done.
Qed.

Lemma den_nullp a n t : den a n t → arena_nullp a n = v_nullp tree_view t.
Proof.
  intros Hd. unfold arena_nullp. destruct (Z.eqb_spec n NIL) as [->|Hne].
  - inversion Hd as [val Hv Hp|i s e Hi Hl Hse He H32 Hp|i f r tf tr Hi Hl Hf Hr Hsp Hp];
      unfold NIL in Hp; apply ptr_inj in Hp as [Ht Hx]; try done; try apply idx_ok_0.
    by subst.
  - rewrite (den_len a n t Hd). cbn [v_len v_nullp tree_view mbind res_bind]. f_equal.
    destruct t as [[|b l]|]; [done| |done]. cbn. rewrite bool_decide_eq_false_2; [done|].
    by intros [=].
Qed.

Lemma den_NIL a : den a NIL NULL_SEXP.
Proof. apply (den_small a 0 idx_ok_0). Qed.
Lemma den_ONE a : den a ONE ONE_SEXP.
Proof. apply (den_small a 1 idx_ok_1). Qed.

Lemma den_spine a n t : den a n t → (spine t ≤ length (pair_vec a))%nat.
Proof.
  intros [val Hv|i s e Hi Hl Hse He H32|i f r tf tr Hi Hl Hf Hr Hsp]; cbn; [lia..|].
  apply lookup_lt_Some in Hl. lia.
Qed.

#[global] Instance arena_sim a : view_sim (arena_view a) (den a).
Proof.
  constructor; cbn [arena_view v_kind v_atom v_len v_number v_nullp v_NIL v_ONE v_fuel].
  - apply den_kind.
  - apply den_atom.
  - apply den_len.
  - apply den_number.
  - apply den_nullp.
  - apply den_NIL.
  - apply den_ONE.
  - intros n t Hd. apply den_spine in Hd. cbn. lia.
Qed.
End readers.

(** ** The arena invariant *)
Definition atoms_total (a : Arena) : Z := zlen (atom_vec a) + ghost_atoms a.
Definition pairs_total (a : Arena) : Z := zlen (pair_vec a) + ghost_pairs a.
Definition heap_total (a : Arena) : Z := zlen (u8_vec a) + ghost_heap a.

Record arena_ok (a : Arena) : Prop := {
  ok_ghosts : 0 ≤ ghost_atoms a ∧ 0 ≤ ghost_pairs a ∧ 0 ≤ ghost_heap a;
  ok_atoms : atoms_total a ≤ MAX_NUM_ATOMS;
  ok_pairs : pairs_total a ≤ MAX_NUM_PAIRS;
  ok_heap : heap_total a ≤ HEAP_LIMIT;
  ok_intern k n : atom_intern a !! k = Some n → den a n (Atom k);
}.

Definition limit_error (e : ClvmError) : Prop :=
  e = OutOfMemory ∨ e = TooManyAtoms ∨ e = TooManyPairs.

(** An allocation: it fails only at a consensus limit, else it extends the
    pools, keeps the invariant and returns a node for [t]; [bytes] bounds the
    heap it charges, besides four bytes per atom. *)
Definition alloc_ok (a : Arena) (t : SExp) (bytes : Z) (m : clvm (NodePtr * Arena)) : Prop :=
  match m with
  | Ok (n, b) =>
      extends a b ∧ arena_ok b ∧ den b n t ∧ atoms_total a ≤ atoms_total b ∧
      heap_total b - heap_total a ≤ bytes + 4 * (atoms_total b - atoms_total a)
  | Err e => limit_error e
  | Panic => False
  end.

Lemma arena_reset_ok : arena_ok arena_reset.
Proof.
  split; try (vm_compute; intuition congruence).
Qed.

(** Indices of the next slot fit a handle. *)
Lemma next_atom_idx a : arena_ok a → idx_ok (zlen (atom_vec a)).
Proof.
  intros [Hg Ha _ _ _]. unfold idx_ok, atoms_total, MAX_NUM_ATOMS in *.
  pose proof (zlen_nonneg (atom_vec a)). lia.
Qed.
Lemma next_pair_idx a : arena_ok a → idx_ok (zlen (pair_vec a)).
Proof.
  intros [Hg _ Ha _ _]. unfold idx_ok, pairs_total, MAX_NUM_PAIRS in *.
  pose proof (zlen_nonneg (pair_vec a)). lia.
Qed.
Lemma heap_len_bound a : arena_ok a → zlen (u8_vec a) < 2 ^ 32.
Proof. intros [Hg _ _ Hh _]. unfold heap_total, HEAP_LIMIT, u32_max in *. lia. Qed.

Lemma add_ghosts_ok a n h :
  arena_ok a → 0 ≤ n → 0 ≤ h → atoms_total a + n ≤ MAX_NUM_ATOMS → heap_total a + h ≤ HEAP_LIMIT →
  arena_ok (add_ghosts n h a) ∧ extends a (add_ghosts n h a).
Proof.
  intros [Hg Ha Hp Hh Hi] Hn Hh0 Han Hhh. split; [|done].
  unfold atoms_total, pairs_total, heap_total in *.
  split; cbn; try (unfold atoms_total, pairs_total, heap_total; cbn; lia).
  intros k m Hk. eapply den_mono; [|by apply Hi]. done.
Qed.

Lemma push_atom_extends a bs span : extends a (push_atom bs span a).
Proof. split_and!; cbn; [by apply prefix_app_r|done|by apply prefix_app_r]. Qed.

(** A fresh span in the atom pool. *)
Lemma push_atom_ok a bs s e :
  arena_ok a → atoms_total a < MAX_NUM_ATOMS → heap_total a + zlen bs ≤ HEAP_LIMIT →
  0 ≤ s ≤ e → e ≤ zlen (u8_vec a) + zlen bs →
  let b := push_atom bs (s, e) a in
  arena_ok b ∧ den b (ptr TBytes (zlen (atom_vec a)))
    (Atom (take (Z.to_nat (e - s)) (drop (Z.to_nat s) (u8_vec a ++ bs)))).
Proof.
  intros Hok Han Hhh Hse He b. pose proof Hok as [Hg Ha Hp Hh Hi].
  pose proof (next_atom_idx a Hok) as Hidx. pose proof (zlen_nonneg bs).
  assert (Hb : arena_ok b).
  { unfold atoms_total, pairs_total, heap_total in *.
    split; unfold atoms_total, pairs_total, heap_total; cbn -[zlen]; rewrite ?zlen_app, ?zlen_cons, ?zlen_nil;
      try lia.
    intros k m Hk. eapply den_mono; [apply push_atom_extends|]. by apply Hi. }
  split; [done|]. unfold zlen at 1. apply den_bytes; [done| |done| |].
  - cbn. by rewrite lookup_app_r, Nat.sub_diag by lia.
  - cbn. rewrite zlen_app. lia.
  - apply heap_len_bound in Hb. cbn in Hb. rewrite zlen_app in Hb. lia.
Qed.

(** A fresh atom at the end of the heap, its span cast to [u32]. *)
Lemma push_bytes_ok a bs :
  arena_ok a → atoms_total a < MAX_NUM_ATOMS → heap_total a + zlen bs ≤ HEAP_LIMIT →
  let b := push_atom bs (wrapu 32 (zlen (u8_vec a)), wrapu 32 (zlen (u8_vec a) + zlen bs)) a in
  arena_ok b ∧ den b (ptr TBytes (zlen (atom_vec a))) (Atom bs).
Proof.
  intros Hok Han Hhh. pose proof (zlen_nonneg bs). pose proof (zlen_nonneg (u8_vec a)) as Hl.
  pose proof Hok as [Hg _ _ _ _]. unfold heap_total, HEAP_LIMIT, u32_max in *.
  assert (wrapu 32 (zlen (u8_vec a)) = zlen (u8_vec a)) as -> by (apply Z.mod_small; lia).
  assert (wrapu 32 (zlen (u8_vec a) + zlen bs) = zlen (u8_vec a) + zlen bs) as ->
    by (apply Z.mod_small; lia).
  destruct (push_atom_ok a bs (zlen (u8_vec a)) (zlen (u8_vec a) + zlen bs) Hok) as [Hbok Hden];
    [done|unfold heap_total, HEAP_LIMIT, u32_max; lia|lia|lia|].
  split; [done|].
  replace (take _ _) with bs in Hden; [done|].
  unfold zlen. rewrite Nat2Z.id, drop_app_length, take_ge; [done|lia].
Qed.

Lemma intern_insert_ok a v n :
  arena_ok a → den a n (Atom v) →
  arena_ok (intern_insert v n a) ∧ extends a (intern_insert v n a).
Proof.
  intros [Hg Ha Hp Hh Hi] Hd. split; [|done].
  split; [exact Hg|exact Ha|exact Hp|exact Hh|].
  intros k m Hk. cbn in Hk. eapply (den_mono a); [done|].
  apply lookup_insert_Some in Hk as [[<- <-]|[_ Hk]]; [done|by apply Hi].
Qed.

(** The ghost-only allocations. *)
Lemma alloc_ghost a n t h :
  arena_ok a → atoms_total a < MAX_NUM_ATOMS → 0 ≤ h → heap_total a + h ≤ HEAP_LIMIT → den a n t →
  alloc_ok a t h (Ok (n, add_ghosts 1 h a)).
Proof.
  intros Hok Han Hh Hhh Hd. destruct (add_ghosts_ok a 1 h) as [Hb He]; [done|lia..|].
  cbn. split_and!; [apply He..|done|by eapply den_mono|unfold atoms_total; cbn; lia|].
  unfold heap_total, atoms_total. cbn. lia.
Qed.

(** The guard of every atom allocation. *)
Lemma check_atom_limit_cases a :
  arena_ok a →
  check_atom_limit a = Err TooManyAtoms ∨
  check_atom_limit a = Ok tt ∧ atoms_total a < MAX_NUM_ATOMS.
Proof.
  intros [_ Ha _ _ _]. unfold check_atom_limit, atoms_total in *.
  destruct (Z.eqb_spec (zlen (atom_vec a) + ghost_atoms a) MAX_NUM_ATOMS); [by left|].
  right. split; [done|lia].
Qed.

Lemma fits_bytes_ok v val :
  bytes_ok v ∨ 4 < zlen v → fits_in_small_atom v = Some val → bytes_ok v.
Proof.
  intros [|Hlong] Hfit; [done|]. exfalso. unfold fits_in_small_atom in Hfit.
  destruct v as [|b l]; [rewrite zlen_nil in Hlong; lia|].
  rewrite (proj2 (Z.ltb_lt 4 _)) in Hfit by done. done.
Qed.

Lemma new_atom_spec a v :
  arena_ok a → bytes_ok v ∨ 4 < zlen v → alloc_ok a (Atom v) (zlen v) (new_atom v a).
Proof.
  intros Hok Hv. pose proof (zlen_nonneg v) as Hvl.
  unfold new_atom. destruct (Z.ltb_spec HEAP_LIMIT (zlen (u8_vec a) + ghost_heap a + zlen v)) as [|Hheap].
  { by left. }
  assert (heap_total a + zlen v ≤ HEAP_LIMIT) by (unfold heap_total; lia).
  destruct (check_atom_limit_cases a Hok) as [->|[-> Hlim]]; [by right; left|].
  cbn [mbind res_bind]. destruct (fits_in_small_atom v) as [val|] eqn:Hfit.
  { destruct (fits_small v val) as [Hval <-]; [by eapply fits_bytes_ok|done|].
    rewrite NodePtr_new_ok by done. apply alloc_ghost; [done..|]. by constructor. }
  destruct (if INTERN_MIN_ATOM_BYTES <=? zlen v then atom_intern a !! v else None) as [existing|] eqn:Hint.
  { apply alloc_ghost; [done..|]. apply (ok_intern a Hok).
    by destruct (INTERN_MIN_ATOM_BYTES <=? zlen v). }
  rewrite NodePtr_new_ok by (by apply next_atom_idx). cbn [mbind res_bind].
  destruct (push_bytes_ok a v) as [Hb Hd]; [done..|]. set (b := push_atom _ _ a) in *.
  pose proof (push_atom_extends a v
    (wrapu 32 (zlen (u8_vec a)), wrapu 32 (zlen (u8_vec a) + zlen v))) as He. fold b in He.
  assert (Htot : atoms_total b = atoms_total a + 1 ∧ heap_total b = heap_total a + zlen v).
  { unfold atoms_total, heap_total, b. cbn [push_atom atom_vec u8_vec ghost_atoms ghost_heap].
    rewrite !zlen_app, zlen_cons, zlen_nil. lia. }
  destruct (INTERN_MIN_ATOM_BYTES <=? zlen v); cbn [alloc_ok].
  - destruct (intern_insert_ok b v _ Hb Hd) as [Hi Hie]. split_and!; [apply He..|done| | |].
    + by eapply den_mono.
    + unfold atoms_total in *. cbn in *. lia.
    + unfold atoms_total, heap_total in *. cbn in *. lia.
  - split_and!; [apply He..|done|done|lia|lia].
Qed.

Lemma new_pair_spec a f r tf tr :
  arena_ok a → den a f tf → den a r tr → alloc_ok a (Pair tf tr) 0 (new_pair f r a).
Proof.
  intros Hok Hf Hr. pose proof Hok as [Hg Ha Hp Hh Hi]. pose proof (zlen_nonneg (pair_vec a)).
  unfold new_pair, c64. unfold pairs_total, MAX_NUM_PAIRS in Hp.
  rewrite chk_ok by (unfold uok, MAX_NUM_PAIRS; lia). cbn [mbind res_bind].
  destruct (Z.leb_spec (MAX_NUM_PAIRS - ghost_pairs a) (zlen (pair_vec a))) as [|Hlt]; [by right; right|].
  rewrite NodePtr_new_ok by (by apply next_pair_idx). cbn [mbind res_bind alloc_ok].
  assert (He : extends a (push_pair f r a)).
  { split_and!; cbn; [done|by apply prefix_app_r|done]. }
  split_and!; [apply He..| | |done|unfold heap_total, atoms_total; cbn; lia].
  - split; [exact Hg|exact Ha| |exact Hh|].
    { unfold pairs_total, MAX_NUM_PAIRS in *. cbn -[zlen]. rewrite zlen_app, zlen_cons, zlen_nil. lia. }
    intros k n Hk. eapply den_mono; [done|by apply Hi].
  - unfold zlen. econstructor.
    + by apply next_pair_idx.
    + cbn. by rewrite lookup_app_r, Nat.sub_diag by lia.
    + by eapply den_mono.
    + by eapply den_mono.
    + by eapply den_spine.
Qed.

Lemma bounds_check_ok s e len : 0 ≤ s ≤ e → e ≤ len → bounds_check s e len = Ok tt.
Proof.
  intros Hs He. unfold bounds_check.
  rewrite (proj2 (Z.ltb_ge len s)), (proj2 (Z.ltb_ge len e)), (proj2 (Z.ltb_ge e s)) by lia. done.
Qed.

(** A pushed atom as an allocation. *)
Lemma alloc_push a t bs span :
  arena_ok (push_atom bs span a) → den (push_atom bs span a) (ptr TBytes (zlen (atom_vec a))) t →
  ∀ bytes, zlen bs ≤ bytes + 4 →
  alloc_ok a t bytes (Ok (ptr TBytes (zlen (atom_vec a)), push_atom bs span a)).
Proof.
  intros Hb Hd bytes Hl. cbn [alloc_ok].
  split_and!; [apply (push_atom_extends a bs span)..|done|done| |];
    unfold atoms_total, heap_total;
    cbn [push_atom atom_vec u8_vec ghost_atoms ghost_heap];
    rewrite !zlen_app, zlen_cons, zlen_nil; lia.
Qed.

Lemma new_substr_spec a n b s e :
  arena_ok a → heap_total a + 4 ≤ HEAP_LIMIT → den a n (Atom b) → 0 ≤ s ≤ e → e ≤ zlen b →
  alloc_ok a (Atom (take (Z.to_nat (e - s)) (drop (Z.to_nat s) b))) 0 (new_substr n s e a).
Proof.
  intros Hok Hheap Hd Hs He. unfold new_substr.
  destruct (check_atom_limit_cases a Hok) as [->|[-> Hlim]]; [by right; left|].
  cbn [mbind res_bind].
  inversion Hd as [val Hv Hp Hbs|i s0 e0 Hi Hl Hse He0 H32 Hp Hbs|]; subst n b.
  - rewrite object_type_ptr, index_ptr by done. cbn [mbind res_bind].
    rewrite small_bytes_len in He by done.
    rewrite bounds_check_ok, small_atom_bytes_ok by done. cbn [mbind res_bind].
    rewrite slice_ok by (rewrite ?small_bytes_len; done). cbn [mbind res_bind].
    set (sub := take _ _).
    assert (Hsub : bytes_ok sub) by (apply Forall_take, Forall_drop, small_bytes_ok).
    assert (Hsl : zlen sub ≤ 4).
    { unfold sub. rewrite slice_len by (rewrite ?small_bytes_len; done).
      pose proof (len_for_value_bounds val Hv). lia. }
    destruct (fits_in_small_atom sub) as [new_val|] eqn:Hfit.
    + destruct (fits_small sub new_val Hsub Hfit) as [Hnv <-].
      rewrite NodePtr_new_ok by done. apply alloc_ghost; [done..|lia|lia|by constructor].
    + rewrite NodePtr_new_ok by (by apply next_atom_idx). cbn [mbind res_bind].
      destruct (push_bytes_ok a sub) as [Hb Hdn]; [done|done|lia|]. apply alloc_push; [done..|lia].
  - rewrite object_type_ptr by done. cbn [mbind res_bind].
    erewrite span_lookup by done. cbn [mbind res_bind]. unfold span_len. cbn [fst snd].
    rewrite slice_len in He by done.
    rewrite (chk_ok 32 (e0 - s0)) by (unfold uok; lia). cbn [mbind res_bind].
    rewrite bounds_check_ok by lia. cbn [mbind res_bind].
    rewrite (chk_ok 32 (s0 + s)), (chk_ok 32 (s0 + e)) by (unfold uok; lia). cbn [mbind res_bind].
    rewrite NodePtr_new_ok by (by apply next_atom_idx). cbn [mbind res_bind].
    destruct (push_atom_ok a [] (s0 + s) (s0 + e) Hok) as [Hb Hdn];
      [done|rewrite zlen_nil; lia|lia|rewrite zlen_nil; lia|].
    apply alloc_push; [done| |rewrite zlen_nil; lia].
    replace (take (Z.to_nat (e - s)) _) with
      (take (Z.to_nat (s0 + e - (s0 + s))) (drop (Z.to_nat (s0 + s)) (u8_vec a ++ []))); [done|].
    rewrite app_nil_r, skipn_firstn_comm, drop_drop, take_take.
    f_equal; [lia|]. f_equal. lia.
Qed.

Definition den_atoms (a : Arena) (nodes : list NodePtr) (bs : list (list Z)) : Prop :=
  Forall2 (λ n b, den a n (Atom b)) nodes bs.

Lemma concat_loop_spec a nodes bs acc new_size counter :
  den_atoms a nodes bs → counter + zlen (List.concat bs) ≤ new_size →
  concat_loop a new_size nodes (u8_vec a ++ acc) counter =
    Ok (u8_vec a ++ acc ++ List.concat bs, counter + zlen (List.concat bs)).
Proof.
  intros Hd. revert acc counter. induction Hd as [|n b nodes bs Hn Hd IH]; intros acc counter Hsz.
  { cbn. by rewrite app_nil_r, Z.add_0_r. }
  cbn [List.concat] in *. rewrite zlen_app in *. pose proof (zlen_nonneg (List.concat bs)).
  cbn [concat_loop].
  inversion Hn as [val Hv Hp Hb|i s e Hi Hl Hse He H32 Hp Hb|]; subst n b;
    rewrite object_type_ptr by done; cbn [mbind res_bind].
  - rewrite index_ptr, small_atom_bytes_ok by done. cbn [mbind res_bind].
    rewrite small_bytes_len in * by done.
    rewrite <-app_assoc, IH by lia. rewrite <-app_assoc. do 2 f_equal. lia.
  - erewrite span_lookup by done. cbn [mbind res_bind]. unfold span_len. cbn [fst snd].
    rewrite slice_len in * by done.
    rewrite (chk_ok 32 (e - s)) by (unfold uok; lia). cbn [mbind res_bind].
    rewrite (proj2 (Z.ltb_ge new_size (counter + (e - s)))) by lia.
    rewrite slice_ok by (rewrite ?zlen_app; pose proof (zlen_nonneg acc); lia). cbn [mbind res_bind].
    unfold zlen in He. rewrite drop_app_le by lia.
    rewrite take_app_le by (rewrite length_drop; lia).
    rewrite <-app_assoc, IH by lia. rewrite <-app_assoc. do 2 f_equal. lia.
Qed.

Lemma new_concat_spec a nodes bs :
  arena_ok a → den_atoms a nodes bs →
  alloc_ok a (Atom (List.concat bs)) (zlen (List.concat bs))
    (new_concat (zlen (List.concat bs)) nodes a).
Proof.
  intros Hok Hd. set (all := List.concat bs) in *. pose proof (zlen_nonneg all). unfold new_concat.
  destruct (check_atom_limit_cases a Hok) as [->|[-> Hlim]]; [by right; left|].
  cbn [mbind res_bind].
  destruct (Z.ltb_spec HEAP_LIMIT (zlen (u8_vec a) + ghost_heap a + zlen all)) as [|Hheap]; [by left|].
  assert (heap_total a + zlen all ≤ HEAP_LIMIT) by (unfold heap_total; lia).
  destruct Hd as [|n1 b1 nodes bs Hn1 [|n2 b2 nodes' bs' Hn2 Hd]].
  - apply alloc_ghost; [done..|apply den_NIL].
  - assert (Hall : all = b1) by (unfold all; cbn; by rewrite app_nil_r).
    rewrite (den_atom_len a n1 _ Hn1). cbn [mbind res_bind].
    rewrite Hall, Z.eqb_refl. cbn [negb]. 
    apply alloc_ghost; [done|done|apply zlen_nonneg|by rewrite <-Hall|done].
  - assert (Hd' : den_atoms a (n1 :: n2 :: nodes') (b1 :: b2 :: bs')) by (by repeat constructor).
    pose proof (concat_loop_spec a _ _ [] (zlen all) 0 Hd' ltac:(fold all; lia)) as Hc.
    rewrite app_nil_r in Hc. rewrite Hc. cbn [mbind res_bind app]. fold all.
    rewrite Z.add_0_l, Z.eqb_refl. cbn [negb].
    rewrite NodePtr_new_ok by (by apply next_atom_idx). cbn [mbind res_bind].
    rewrite drop_app_length, zlen_app.
    destruct (push_bytes_ok a all) as [Hb Hdn]; [done..|]. apply alloc_push; [done..|lia].
Qed.

Section numbers.
Context `{BigIntBytesOk}.

Lemma new_number_atom n a : new_number n a = new_atom (number_to_atom n) a.
Proof.
  destruct n as [i|b]; [|done]. cbn. unfold new_i128, sexp_from_int. by destruct (i =? 0).
Qed.

Lemma trim_bytes_ok bs : bytes_ok bs → bytes_ok (trim_twos_complement_be bs).
Proof.
  induction bs as [|b0 [|b1 tl] IH]; intros Hb; [done..|]. rewrite trim_cons2.
  destruct (b0 =? _); [|done]. apply IH. by apply bytes_ok_cons in Hb as [_ ?].
Qed.

Lemma number_to_atom_bytes n : bytes_ok (number_to_atom n).
Proof.
  destruct n as [i|b]; [|by apply (number_to_atom_spec (BigInt b))].
  cbn. unfold sexp_from_int. destruct (i =? 0); [constructor|]. apply trim_bytes_ok.
  apply to_be_ok.
Qed.

Lemma new_number_spec a n :
  arena_ok a → alloc_ok a (Atom (number_to_atom n)) (zlen (number_to_atom n)) (new_number n a).
Proof. intros Hok. rewrite new_number_atom. apply new_atom_spec; [done|left; apply number_to_atom_bytes]. Qed.
End numbers.

(** ** Materialization *)

(** What an operator's result means on trees. *)
Definition tree_materialize `{BigIntBytes} (o : OpOut SExp) (cost : Z) : clvm (Z * SExp) :=
  match o with
  | Same node => Ok (cost, node)
  | OPair first rest => Ok (cost, Pair first rest)
  | Number n =>
      let a := number_to_atom n in
      cost ← c64 (cost + zlen a * MALLOC_COST_PER_BYTE);
      Ok (cost, Atom a)
  | Small b => Ok (cost, Atom b)
  | Concat nodes _ => s ← sexp_concat nodes; Ok (cost, s)
  | Substr node start end_ => s ← sexp_substr node start end_; Ok (cost, s)
  | NumberPair q r =>
      let q := number_to_atom q in
      let r := number_to_atom r in
      cost ← c64 (cost + (zlen q + zlen r) * MALLOC_COST_PER_BYTE);
      Ok (cost, Pair (Atom q) (Atom r))
  end.

(** What every operator guarantees of its cost and its result: its cost is
    not negative, it pays ten per fresh byte, and describes a result that exists. *)
Definition out_ok (cost : Z) (o : OpOut SExp) : Prop :=
  0 ≤ cost ∧
  match o with
  | Small b => 4 < zlen b ∧ 10 * zlen b ≤ cost
  | Concat ts total => ∃ bs, ts = Atom <$> bs ∧ total = zlen (List.concat bs) ∧ 10 * total ≤ cost
  | Substr t s e => ∃ b, t = Atom b ∧ 0 ≤ s ≤ e ∧ e ≤ zlen b
  | _ => True
  end.

(** The outcome of a materialization in the arena against that on trees. *)
Definition mat_rel (a : Arena) (m1 : clvm (Z * NodePtr * Arena)) (m2 : clvm (Z * SExp)) : Prop :=
  match m1, m2 with
  | Ok (c, n, b), Ok (c', t) =>
      c = c' ∧ 0 ≤ c ∧ extends a b ∧ arena_ok b ∧ den b n t ∧ atoms_total a ≤ atoms_total b ∧
      10 * (heap_total b - heap_total a) ≤ c + 40 * (atoms_total b - atoms_total a)
  | Err e, _ => limit_error e
  | Panic, Panic => True
  | _, _ => False
  end.

Lemma sexp_concat_atoms bs : sexp_concat (Atom <$> bs) = Ok (Atom (List.concat bs)).
Proof.
  unfold sexp_concat.
  assert (Hl : ∀ buf, sexp_concat_loop (Atom <$> bs) buf = Ok (buf ++ List.concat bs)).
  { induction bs as [|b bs IH]; intros buf; cbn; [by rewrite app_nil_r|]. by rewrite IH, app_assoc. }
  by rewrite Hl.
Qed.

Section materialize.
Context `{BigIntBytesOk}.

(** An allocation that is not a limit error. *)
Lemma alloc_cases a t bytes m :
  alloc_ok a t bytes m →
  (∃ e, m = Err e ∧ limit_error e) ∨
  (∃ n b, m = Ok (n, b) ∧ alloc_ok a t bytes (Ok (n, b))).
Proof. destruct m as [[n b]|e|]; cbn; [right; eauto|left; eauto|done]. Qed.

Lemma materialize_fresh a t bytes cost (m : clvm (NodePtr * Arena)) :
  alloc_ok a t bytes m → 0 ≤ cost → 10 * bytes ≤ cost →
  mat_rel a ('(n, b) ← m; Ok (cost, n, b)) (Ok (cost, t)).
Proof.
  intros Hm Hc Hb. destruct (alloc_cases _ _ _ _ Hm) as [(e & -> & He)|(n & b & -> & Hok)]; [done|].
  cbn in *. destruct Hok as (He & Hbk & Hd & Ha & Hh). split_and!; [done..|lia].
Qed.

Lemma materialize_number a n cost :
  arena_ok a → 0 ≤ cost →
  mat_rel a (materialize (Number n) cost a) (tree_materialize (Number n) cost).
Proof.
  intros Hok Hc. cbn [materialize tree_materialize].
  destruct (alloc_cases _ _ _ _ (new_number_spec a n Hok)) as [(e & -> & He)|(m & b & -> & Hb)].
  { by destruct (c64 _). }
  cbn [mbind res_bind]. cbn in Hb. destruct Hb as (He & Hbk & Hd & Ha & Hh).
  rewrite (den_atom_len b m _ Hd). cbn [mbind res_bind ok_or].
  unfold c64. destruct (chk 64 _) as [c|e|] eqn:Hchk; cbn [mbind res_bind].
  - apply chk_Ok in Hchk as [_ ->]. unfold MALLOC_COST_PER_BYTE in *. cbn. pose proof (zlen_nonneg (number_to_atom n)).
    split_and!; [done|lia|done..|lia].
  - by apply chk_not_Err in Hchk.
  - done.
Qed.

Lemma materialize_numbers a q r cost :
  arena_ok a → 0 ≤ cost →
  mat_rel a (materialize (NumberPair q r) cost a) (tree_materialize (NumberPair q r) cost).
Proof.
  intros Hok Hc. cbn [materialize tree_materialize].
  assert (Hlim : ∀ e m2, limit_error e → mat_rel a (Err e) m2) by (by intros e [[]| |]).
  destruct (alloc_cases _ _ _ _ (new_number_spec a q Hok)) as [(e & -> & He)|(m & b & -> & Hb)];
    [by apply Hlim|]. cbn in Hb. destruct Hb as (He & Hbk & Hd & Ha & Hh). cbn [mbind res_bind].
  destruct (alloc_cases _ _ _ _ (new_number_spec b r Hbk)) as [(e & -> & He2)|(m2 & b2 & -> & Hb)];
    [by apply Hlim|]. cbn in Hb. destruct Hb as (He2 & Hbk2 & Hd2 & Ha2 & Hh2). cbn [mbind res_bind].
  assert (Hd' : den b2 m (Atom (number_to_atom q))) by (by eapply den_mono).
  rewrite (den_atom_len b2 m _ Hd'), (den_atom_len b2 m2 _ Hd2). cbn [mbind res_bind default from_option id].
  unfold c64. destruct (chk 64 _) as [c|e|] eqn:Hchk; cbn [mbind res_bind].
  - apply chk_Ok in Hchk as [_ ->]. pose proof (zlen_nonneg (number_to_atom q)).
    pose proof (zlen_nonneg (number_to_atom r)).
    destruct (alloc_cases _ _ _ _ (new_pair_spec b2 m m2 _ _ Hbk2 Hd' Hd2))
      as [(e & -> & He3)|(m3 & b3 & -> & Hb)]; [by apply Hlim|]. cbn in Hb.
    destruct Hb as (He3 & Hbk3 & Hd3 & Ha3 & Hh3). cbn [mbind res_bind mat_rel].
    unfold MALLOC_COST_PER_BYTE.
    assert (Hext : extends a b3) by (etrans; [done|]; by etrans).
    split_and!; [done|lia|apply Hext..|done|done|lia|lia].
  - by apply chk_not_Err in Hchk.
  - done.
Qed.

Lemma materialize_spec a o to cost :
  arena_ok a → heap_total a + 4 ≤ HEAP_LIMIT → out_rel (den a) o to → out_ok cost to →
  mat_rel a (materialize o cost a) (tree_materialize to cost).
Proof.
  intros Hok Hheap Ho [Hc Hout].
  destruct Ho as [n t Hn|f r tf tr Hf Hr|n|b|ns ts total Hns|n t s e Hn|q r].
  - cbn. split_and!; try done. lia.
  - apply materialize_fresh with 0; [by apply new_pair_spec|done|lia].
  - by apply materialize_number.
  - destruct Hout. apply materialize_fresh with (zlen b); [|done..]. apply new_atom_spec; auto.
  - destruct Hout as (bs & -> & -> & Hpay). cbn [materialize tree_materialize].
    rewrite sexp_concat_atoms. cbn [mbind res_bind].
    apply materialize_fresh with (zlen (List.concat bs)); [|done..]. apply new_concat_spec; [done|].
    rewrite Forall2_fmap_r in Hns. exact Hns.
  - destruct Hout as (b & -> & Hs & He). cbn [materialize tree_materialize sexp_substr sexp_atom mbind res_bind].
    rewrite (proj2 (Z.ltb_ge (zlen b) s)), (proj2 (Z.ltb_ge (zlen b) e)), (proj2 (Z.ltb_ge e s)) by lia.
    cbn [mbind res_bind].
    apply materialize_fresh with 0; [by apply new_substr_spec|done|lia].
  - by apply materialize_numbers.
Qed.
End materialize.

(** ** Import and export *)
Section import_export.
Context `{BigIntBytesOk}.

(** The bytes of all atoms, each occurrence counted. *)
Fixpoint sexp_bytes (s : SExp) : Z :=
  match s with Atom b => zlen b | Pair f r => sexp_bytes f + sexp_bytes r end.

Lemma import_loop_S fuel job jobs out a :
  import_loop (S fuel) (job :: jobs) out a =
    ('(jobs, out, a) ← import_step job jobs out a; import_loop fuel jobs out a).
Proof. done. Qed.

Lemma alloc_trans a b n m c t u bytes1 bytes2 :
  alloc_ok a t bytes1 (Ok (n, b)) → alloc_ok b u bytes2 (Ok (m, c)) →
  alloc_ok a u (bytes1 + bytes2) (Ok (m, c)).
Proof.
  cbn. intros (He & _ & _ & Ha & Hh) (He' & Hok & Hd & Ha' & Hh').
  assert (extends a c) as (? & ? & ?) by (by etrans). split_and!; [done..|lia|lia].
Qed.

Lemma alloc_weaken a t bytes bytes' m : bytes ≤ bytes' → alloc_ok a t bytes m → alloc_ok a t bytes' m.
Proof. intros Hle. destruct m as [[n b]|e|]; cbn; intuition lia. Qed.

(** Importing one subtree in front of the remaining jobs. *)
Lemma import_loop_spec s fuel jobs out a :
  arena_ok a → sexp_ok s →
  (∃ e, import_loop (tree_size s + fuel) (IVisit s :: jobs) out a = Err e ∧ limit_error e) ∨
  (∃ n b, import_loop (tree_size s + fuel) (IVisit s :: jobs) out a =
            import_loop fuel jobs (n :: out) b ∧ alloc_ok a s (sexp_bytes s) (Ok (n, b))).
Proof.
  revert fuel jobs out a. induction s as [v|f IHf r IHr]; intros fuel jobs out a Hok Hs.
  - cbn [tree_size Nat.add]. rewrite import_loop_S. cbn [import_step].
    destruct (alloc_cases _ _ _ _ (new_atom_spec a v Hok (or_introl Hs))) as [(e & -> & He)|(n & b & -> & Hb)].
    + left. by exists e.
    + right. by exists n, b.
  - destruct Hs as [Hsf Hsr].
    replace (tree_size (Pair f r) + fuel)%nat with (S (tree_size f + (tree_size r + S fuel))) by (cbn; lia).
    rewrite import_loop_S. cbn [import_step mbind res_bind].
    destruct (IHf (tree_size r + S fuel)%nat (IVisit r :: IBuild :: jobs) out a Hok Hsf)
      as [(e & -> & He)|(n1 & b1 & -> & H1)]; [left; by exists e|].
    assert (Hok1 : arena_ok b1) by apply H1.
    destruct (IHr (S fuel) (IBuild :: jobs) (n1 :: out) b1 Hok1 Hsr)
      as [(e & -> & He)|(n2 & b2 & -> & H2)]; [left; by exists e|].
    pose proof (alloc_trans _ _ _ _ _ _ _ _ _ H1 H2) as H12.
    assert (Hok2 : arena_ok b2) by apply H2.
    assert (Hd1 : den b2 n1 f) by (eapply den_mono; [apply H2|apply H1]).
    assert (Hd2 : den b2 n2 r) by apply H2.
    rewrite import_loop_S. cbn [import_step].
    destruct (alloc_cases _ _ _ _ (new_pair_spec b2 n1 n2 f r Hok2 Hd1 Hd2)) as [(e & -> & He)|(n & b & -> & Hb)].
    + left. by exists e.
    + right. exists n, b. split; [done|]. eapply alloc_weaken; [|by eapply alloc_trans]. cbn; lia.
Qed.

Lemma import_spec s a : arena_ok a → sexp_ok s → alloc_ok a s (sexp_bytes s) (import s a).
Proof.
  intros Hok Hs. unfold import. rewrite <-(Nat.add_0_r (tree_size s)).
  destruct (import_loop_spec s 0 [] [] a Hok Hs) as [(e & -> & He)|(n & b & -> & Hb)]; done.
Qed.

Lemma export_loop_spec a n t fuel jobs out :
  den a n t →
  export_loop (tree_size t + fuel) a (EVisit n :: jobs) out = export_loop fuel a jobs (t :: out).
Proof.
  intros Hd. revert n fuel jobs out Hd. induction t as [b|f IHf r IHr]; intros n fuel jobs out Hd.
  - cbn [tree_size Nat.add export_loop]. pose proof (kind_cases (arena_view a) (den a) n _ Hd) as Hk.
    cbn [arena_view v_kind] in Hk. rewrite Hk. cbn [mbind res_bind].
    by rewrite (den_atom a n _ Hd).
  - replace (tree_size (Pair f r) + fuel)%nat with (S (tree_size f + (tree_size r + S fuel))) by (cbn; lia).
    cbn [export_loop]. pose proof (kind_cases (arena_view a) (den a) n _ Hd) as Hk.
    destruct Hk as (nf & nr & Hk & Hf & Hr). cbn [arena_view v_kind] in Hk. rewrite Hk. cbn [mbind res_bind].
    by rewrite IHf, IHr.
Qed.

Lemma export_spec a n t fuel : den a n t → (tree_size t ≤ fuel)%nat → export fuel a n = Ok t.
Proof.
  intros Hd Hf. unfold export. replace fuel with (tree_size t + (fuel - tree_size t))%nat by lia.
  rewrite (export_loop_spec a n t) by done. by destruct (fuel - tree_size t)%nat.
Qed.

(** A handle denotes at most one tree. *)
Lemma den_fun a n t u : den a n t → den a n u → t = u.
Proof.
  intros Ht Hu. pose proof (export_spec a n t (tree_size t + tree_size u) Ht ltac:(lia)) as E1.
  pose proof (export_spec a n u (tree_size t + tree_size u) Hu ltac:(lia)) as E2. congruence.
Qed.
End import_export.
