(* ===== verification/ClvmOutcome.v ===== *)
(** * What every operator guarantees

    [dialect_op_ok]: an operator that succeeds has a cost that is not negative,
    pays ten for every fresh byte its result will take, and describes a result that
    exists ([out_ok]).  The runtime's termination and the arena's refinement
    rest on it. *)
From Stdlib Require Import ZArith Lia String.
From stdpp Require Import base list numbers option strings.
From S2P Require Import Prelude Serialize ClvmNumber ClvmSexp Coin ClvmView ClvmOps ClvmBls ClvmArena.

Open Scope Z_scope.

(** The sizes of compressed points. *)
Class BlstOk `{Blst} : Prop := {
  p1_compress_len p : zlen (blst_p1_compress p) = 48;
  p2_compress_len p : zlen (blst_p2_compress p) = 96;
}.

(** Invert a successful operator down to its last line. *)
Ltac op_inv_step :=
  match goal with
  | H : match ?x with (_, _) => _ end = Ok _ |- _ => destruct x
  | H : (if ?b then _ else _) = Ok _ |- _ => destruct b eqn:?
  | H : match ?x with _ => _ end = Ok _ |- _ => destruct x eqn:?
  | H : c64 _ = Ok _ |- _ => apply chk_Ok in H as [? ->]
  | H : Ok _ = Ok _ |- _ => apply Ok_inj in H; try subst
  | H : (_, _) = (_, _) |- _ => injection H as; subst
  | H : ?m = Ok _ |- _ => progress cbv zeta in H
  | _ => res_inv_step
  end.
Ltac op_inv := repeat op_inv_step.

Section loops.
Context {N : Type} (v : view N) {St : Type} (P : St → Prop) (body : St → N → clvm St).
Hypothesis Hbody : ∀ s n s', P s → body s n = Ok s' → P s'.

Lemma cursor_loop_inv fuel c s s' : P s → cursor_loop v body fuel c s = Ok s' → P s'.
Proof.
  revert c s. induction fuel as [|fuel IH]; intros c s Hs Hl; [done|]. cbn in Hl. op_inv; eauto.
Qed.
Lemma for_args_inv args s s' : P s → for_args v body args s = Ok s' → P s'.
Proof. apply cursor_loop_inv. Qed.

Lemma pairs_loop_inv fuel n s s' : P s → pairs_loop v body fuel n s = Ok s' → P s'.
Proof.
  revert n s. induction fuel as [|fuel IH]; intros n s Hs Hl; [done|]. cbn in Hl. op_inv; eauto.
Qed.
Lemma for_pairs_inv args s s' : P s → for_pairs v body args s = Ok s' → P s'.
Proof. apply pairs_loop_inv. Qed.
End loops.

Lemma while_args_inv {N St : Type} (v : view N) (P : St → Prop) (body : St → N → clvm (St * N))
    fuel n s s' :
  (∀ s n s' n', P s → body s n = Ok (s', n') → P s') →
  P s → while_args v body fuel n s = Ok s' → P s'.
Proof.
  intros Hbody. revert n s. induction fuel as [|fuel IH]; intros n s Hs Hl; [done|].
  cbn in Hl. op_inv; eauto.
Qed.

Section outcomes.
Context `{BigIntBytesOk, Sha256Ok, BlstOk}.

Notation tv := tree_view.

(** A result without further conditions. *)
Lemma out_ok_same c t : 0 ≤ c → out_ok c (Same t).
Proof. by split. Qed.

Lemma malloc_number_ok c n c' o : 0 ≤ c → malloc_number c n = Ok (c', o) → out_ok c' o.
Proof. unfold malloc_number. intros Hc Ho. op_inv. by split. Qed.
Lemma malloc_bigint_ok c n c' o : 0 ≤ c → malloc_bigint c n = Ok (c', o) → out_ok c' o.
Proof. unfold malloc_bigint. intros Hc Ho. op_inv. by split. Qed.
Lemma new_atom_and_cost_ok c b c' o :
  0 ≤ c → 4 < zlen b → new_atom_and_cost c b = Ok (c', o) → out_ok c' o.
Proof.
  unfold new_atom_and_cost, small, MALLOC_COST_PER_BYTE. intros Hc Hb Ho. op_inv. split; lia.
Qed.

Lemma hash_len bs : 4 < zlen (hash_256 bs).
Proof. unfold zlen. rewrite hash_256_length. lia. Qed.
Lemma p1_len p : 4 < zlen (blst_p1_compress p).
Proof. rewrite p1_compress_len. lia. Qed.
Lemma p2_len p : 4 < zlen (blst_p2_compress p).
Proof. rewrite p2_compress_len. lia. Qed.

Lemma flip_sign_len b : zlen (flip_sign b) = zlen b.
Proof. by destruct b. Qed.

(** Side conditions on costs: sums of constants, sizes and products. *)
Ltac cost_solve :=
  repeat match goal with |- context [zlen ?l] =>
    lazymatch goal with H : 0 ≤ zlen l |- _ => fail | _ => pose proof (zlen_nonneg l) end end;
  lia.

Lemma number_with_len_nonneg x n len : number_with_len tv x = Ok (n, len) → 0 ≤ len.
Proof. destruct x as [b|]; cbn; [|done]. intros [= _ <-]. apply zlen_nonneg. Qed.
Lemma two_ints_nonneg x name a l0 b l1 :
  two_ints tv x name = Ok ((a, l0), (b, l1)) → 0 ≤ l0 ∧ 0 ≤ l1.
Proof.
  unfold two_ints. intros Ht. op_inv.
  repeat match goal with H : number_with_len _ _ = _ |- _ => apply number_with_len_nonneg in H end.
  done.
Qed.
Lemma limbs_nonneg v : 0 ≤ limbs_for_int v.
Proof.
  unfold limbs_for_int, div_ceil, bits. pose proof (bit_length_nonneg (Z.abs v)).
  apply Z.div_pos; lia.
Qed.
Lemma limbs_num_nonneg n : 0 ≤ limbs_for_num n.
Proof.
  destruct n as [i|b]; [|apply limbs_nonneg]. cbn. unfold div_ceil.
  pose proof (bit_length_nonneg (Z.abs i)). apply Z.div_pos; lia.
Qed.

Section args.
Context (t : SExp) (max_cost : Z) (c : Z) (o : OpOut SExp).

Lemma op_if_ok : op_if tv t max_cost = Ok (c, o) → out_ok c o.
Proof. unfold op_if. intros Ho. op_inv; by split. Qed.
Lemma op_cons_ok : op_cons tv t max_cost = Ok (c, o) → out_ok c o.
Proof. unfold op_cons. intros Ho. op_inv; by split. Qed.
Lemma op_first_ok : op_first tv t max_cost = Ok (c, o) → out_ok c o.
Proof. unfold op_first. intros Ho. op_inv; by split. Qed.
Lemma op_rest_ok : op_rest tv t max_cost = Ok (c, o) → out_ok c o.
Proof. unfold op_rest. intros Ho. op_inv; by split. Qed.
Lemma op_listp_ok : op_listp tv t max_cost = Ok (c, o) → out_ok c o.
Proof. unfold op_listp. intros Ho. op_inv; by split. Qed.
Lemma op_raise_ok : op_raise tv t max_cost = Ok (c, o) → out_ok c o.
Proof. unfold op_raise. intros Ho. op_inv. Qed.
Lemma op_eq_ok : op_eq tv t max_cost = Ok (c, o) → out_ok c o.
Proof. unfold op_eq, EQ_BASE_COST, EQ_COST_PER_BYTE. intros Ho. op_inv. apply out_ok_same. cost_solve. Qed.
Lemma op_gr_ok : op_gr tv t max_cost = Ok (c, o) → out_ok c o.
Proof. unfold op_gr, GR_BASE_COST, GR_COST_PER_BYTE. intros Ho. op_inv. apply out_ok_same. cost_solve. Qed.
Lemma op_gr_bytes_ok : op_gr_bytes tv t max_cost = Ok (c, o) → out_ok c o.
Proof. unfold op_gr_bytes, GRS_BASE_COST, GRS_COST_PER_BYTE. intros Ho. op_inv. apply out_ok_same. cost_solve. Qed.
Lemma op_strlen_ok : op_strlen tv t max_cost = Ok (c, o) → out_ok c o.
Proof. unfold op_strlen, STRLEN_BASE_COST, STRLEN_COST_PER_BYTE. intros Ho. op_inv. eapply malloc_number_ok; [|done]. cost_solve. Qed.
Lemma op_lognot_ok : op_lognot tv t max_cost = Ok (c, o) → out_ok c o.
Proof. unfold op_lognot, LOG_NOT_BASE_COST, LOG_NOT_COST_PER_BYTE. intros Ho. op_inv. eapply malloc_bigint_ok; [|done]. cost_solve. Qed.
Lemma op_not_ok : op_not tv t max_cost = Ok (c, o) → out_ok c o.
Proof. unfold op_not. intros Ho. op_inv. by split. Qed.

(** Loops keep the cost they start from. *)
Lemma op_add_ok : op_add tv t max_cost = Ok (c, o) → out_ok c o.
Proof.
  unfold op_add. intros Ho. apply bind_Ok_inv in Ho as ([[cost n] total] & Hl & Ho).
  apply (for_args_inv _ (λ '(cost, n, _), 0 ≤ cost ∧ 0 ≤ n)) in Hl.
  - op_inv. eapply malloc_number_ok; [|done]. unfold ARITH_COST_PER_BYTE. lia.
  - intros [[c0 n0] t0] x [[c1 n1] t1] [Hc Hn] Hb. op_inv. unfold uok, ARITH_COST_PER_ARG in *. lia.
  - unfold ARITH_BASE_COST. lia.
Qed.
Lemma op_subtract_ok : op_subtract tv t max_cost = Ok (c, o) → out_ok c o.
Proof.
  unfold op_subtract. intros Ho. apply bind_Ok_inv in Ho as ([[[cost n] f] total] & Hl & Ho).
  apply (for_args_inv _ (λ '(cost, n, _, _), 0 ≤ cost ∧ 0 ≤ n)) in Hl.
  - op_inv. eapply malloc_number_ok; [|done]. unfold ARITH_COST_PER_BYTE. lia.
  - intros [[[c0 n0] f0] t0] x [[[c1 n1] f1] t1] [Hc Hn] Hb.
    op_inv; unfold uok, ARITH_COST_PER_ARG in *; lia.
  - unfold ARITH_BASE_COST. lia.
Qed.
Lemma op_sha256_ok : op_sha256 tv t max_cost = Ok (c, o) → out_ok c o.
Proof.
  unfold op_sha256. intros Ho. apply bind_Ok_inv in Ho as ([[cost n] d] & Hl & Ho).
  apply (for_args_inv _ (λ '(cost, n, _), 0 ≤ cost ∧ 0 ≤ n)) in Hl.
  - op_inv. eapply new_atom_and_cost_ok; [|apply hash_len|done]. unfold SHA256_COST_PER_BYTE. lia.
  - intros [[c0 n0] t0] x [[c1 n1] t1] [Hc Hn] Hb. op_inv. unfold uok, SHA256_COST_PER_ARG in *. lia.
  - unfold SHA256_BASE_COST. lia.
Qed.
Lemma op_multiply_ok : op_multiply tv t max_cost = Ok (c, o) → out_ok c o.
Proof.
  unfold op_multiply. intros Ho. apply bind_Ok_inv in Ho as ([[[f cost] total] l] & Hl & Ho).
  apply (for_args_inv _ (λ '(_, cost, _, l), 0 ≤ cost ∧ 0 ≤ l)) in Hl.
  - eapply malloc_number_ok; [|done]. apply Hl.
  - intros [[[f0 c0] t0] l0] x [[[f1 c1] t1] l1] [Hc Hn] Hb. op_inv;
      repeat match goal with H : number_with_len _ _ = _ |- _ => apply number_with_len_nonneg in H end;
      [done|]. split; [|apply limbs_num_nonneg].
    unfold uok, MUL_COST_PER_OP, MUL_LINEAR_COST_PER_BYTE, MUL_SQUARE_COST_PER_BYTE_DIVIDER in *.
    match goal with |- context [?x / 128] => assert (0 ≤ x / 128) by (apply Z.div_pos; lia) end. lia.
  - unfold MUL_BASE_COST. lia.
Qed.
Lemma binop_reduction_ok init op_f :
  binop_reduction tv init t max_cost op_f = Ok (c, o) → out_ok c o.
Proof.
  unfold binop_reduction. intros Ho. apply bind_Ok_inv in Ho as ([[total n] cost] & Hl & Ho).
  apply (for_args_inv _ (λ '(_, n, cost), 0 ≤ cost ∧ 0 ≤ n)) in Hl.
  - op_inv. eapply malloc_bigint_ok; [|done]. unfold LOG_COST_PER_BYTE. lia.
  - intros [[t0 n0] c0] x [[t1 n1] c1] [Hc Hn] Hb. op_inv. unfold uok, LOG_COST_PER_ARG in *. lia.
  - unfold LOG_BASE_COST. lia.
Qed.
Lemma op_div_impl_ok mempool : op_div_impl tv t mempool = Ok (c, o) → out_ok c o.
Proof.
  unfold op_div_impl, DIV_BASE_COST, DIV_COST_PER_BYTE. intros Ho. op_inv.
  all: match goal with H : two_ints _ _ _ = _ |- _ => apply two_ints_nonneg in H end.
  all: eapply malloc_number_ok; [|done]; lia.
Qed.
Lemma op_divmod_ok : op_divmod tv t max_cost = Ok (c, o) → out_ok c o.
Proof.
  unfold op_divmod, DIV_MOD_BASE_COST, DIV_MOD_COST_PER_BYTE. intros Ho. op_inv.
  match goal with H : two_ints _ _ _ = _ |- _ => apply two_ints_nonneg in H end. split; [lia|done].
Qed.
Lemma new_div_cost_pos l0 l1 x : 0 ≤ l0 → 0 ≤ l1 → compute_new_div_cost l0 l1 = Ok x → 0 ≤ x.
Proof.
  unfold compute_new_div_cost, NEW_DIV_BASE_COST, NEW_DIV_LINEAR_COST_PER_BYTE,
    NEW_DIV_SQUARE_COST_PER_BYTE_DIVIDER. intros Hl0 Hl1 Hx. op_inv.
  match goal with H : ok_or _ _ = Ok _ |- _ => apply ok_or_Ok in H; unfold checked in H end.
  destruct (uokb 64 (l0 * l1)) eqn:Hu; simplify_eq. apply uokb_spec in Hu. unfold uok in *.
  assert (0 ≤ l0 * l1 / 10) by (apply Z.div_pos; lia). lia.
Qed.
Lemma op_mod_ok flags : op_mod tv flags t max_cost = Ok (c, o) → out_ok c o.
Proof.
  unfold op_mod, DIV_BASE_COST, DIV_COST_PER_BYTE. intros Ho. op_inv.
  all: match goal with H : two_ints _ _ _ = _ |- _ => apply two_ints_nonneg in H as [? ?] end.
  all: eapply malloc_number_ok; [|done].
  - eapply new_div_cost_pos; [| |done]; done.
  - lia.
Qed.
Lemma modpow_cost_pos b e m new x :
  0 ≤ b → 0 ≤ e → 0 ≤ m → compute_modpow_cost b e m new = Ok x → 0 ≤ x.
Proof.
  unfold compute_modpow_cost. intros Hb He Hm Hx. destruct new.
  - op_inv. repeat match goal with H : ok_or _ _ = Ok _ |- _ => apply ok_or_Ok in H end.
    unfold checked, MODPOW_BASE_COST, NEW_MODPOW_PER_ITERATION_COST, NEW_MODPOW_EXPONENT_MULTIPLIER in *.
    repeat match goal with
    | H : mbind _ _ = Some _ |- _ => apply bind_Some in H as (? & ? & ?)
    | H : (if uokb ?w ?y then _ else _) = Some _ |- _ =>
        let E := fresh in destruct (uokb w y) eqn:E; [|discriminate H];
        apply uokb_spec in E; unfold uok in E
    | H : Some _ = Some _ |- _ => injection H as <-
    end. lia.
  - op_inv. unfold MODPOW_BASE_COST, MODPOW_COST_PER_BYTE_BASE_VALUE,
      MODPOW_COST_PER_BYTE_EXPONENT, MODPOW_COST_PER_BYTE_MOD. nia.
Qed.
Lemma op_modpow_ok flags : op_modpow tv flags t max_cost = Ok (c, o) → out_ok c o.
Proof.
  unfold op_modpow. intros Ho. op_inv. eapply malloc_bigint_ok; [|done].
  repeat match goal with H : number_with_len _ _ = _ |- _ => apply number_with_len_nonneg in H end.
  eapply modpow_cost_pos; [| | |done]; done.
Qed.
Lemma op_ash_ok : op_ash tv t max_cost = Ok (c, o) → out_ok c o.
Proof.
  unfold op_ash, A_SHIFT_BASE_COST, A_SHIFT_COST_PER_BYTE. intros Ho. op_inv.
  eapply malloc_bigint_ok; [|done].
  match goal with |- context [limbs_for_int ?x] => pose proof (limbs_nonneg x) end. cost_solve.
Qed.
Lemma op_lsh_ok : op_lsh tv t max_cost = Ok (c, o) → out_ok c o.
Proof.
  unfold op_lsh, LSHIFT_BASE_COST, LSHIFT_COST_PER_BYTE. intros Ho. op_inv.
  eapply malloc_bigint_ok; [|done].
  match goal with |- context [limbs_for_int ?x] => pose proof (limbs_nonneg x) end. cost_solve.
Qed.
Lemma op_any_ok : op_any tv t max_cost = Ok (c, o) → out_ok c o.
Proof.
  unfold op_any. intros Ho. apply bind_Ok_inv in Ho as ([cost b] & Hl & Ho).
  apply (for_args_inv _ (λ '(cost, _), 0 ≤ cost)) in Hl.
  - op_inv. by apply out_ok_same.
  - intros [c0 b0] x [c1 b1] Hc Hb. op_inv; unfold BOOL_COST_PER_ARG; lia.
  - unfold BOOL_BASE_COST. lia.
Qed.
Lemma op_all_ok : op_all tv t max_cost = Ok (c, o) → out_ok c o.
Proof.
  unfold op_all. intros Ho. apply bind_Ok_inv in Ho as (k & _ & Ho).
  destruct k as [|f r]; [op_inv; by split|]. apply bind_Ok_inv in Ho as (a & _ & Ho).
  case_bool_decide; [op_inv; by split|]. apply bind_Ok_inv in Ho as ([cost b] & Hl & Ho).
  apply (for_args_inv _ (λ '(cost, _), 0 ≤ cost)) in Hl.
  - op_inv. by apply out_ok_same.
  - intros [c0 b0] x [c1 b1] Hc Hb. op_inv; unfold BOOL_COST_PER_ARG; lia.
  - unfold BOOL_BASE_COST. lia.
Qed.
Lemma bigint_sign_plus n : bigint_sign n = Plus → 0 < n.
Proof.
  unfold bigint_sign. destruct (Z.eqb_spec n 0); [done|]. destruct (Z.ltb_spec 0 n); [lia|done].
Qed.
Lemma op_softfork_ok flags : op_softfork tv flags t max_cost = Ok (c, o) → out_ok c o.
Proof.
  unfold op_softfork. intros Ho. op_inv. split; [|done].
  match goal with H : ok_or _ _ = Ok _ |- _ => apply ok_or_Ok in H; unfold checked in H end.
  match goal with H : bool_decide _ = true |- _ => apply bool_decide_eq_true, bigint_sign_plus in H end.
  destruct (uokb 64 _); simplify_eq. lia.
Qed.
Lemma op_coinid_ok : op_coinid tv t max_cost = Ok (c, o) → out_ok c o.
Proof.
  unfold op_coinid. intros Ho. op_inv; (eapply new_atom_and_cost_ok; [|apply hash_len|done]); done.
Qed.
Lemma op_substr_ok : op_substr tv t max_cost = Ok (c, o) → out_ok c o.
Proof.
  unfold op_substr. intros Ho. op_inv.
  all: split; [lia|].
  all: match goal with H : atom _ ?s = Ok ?a |- ∃ b, ?s = _ ∧ _ => exists a end.
  all: match goal with H : atom _ ?s = Ok ?a |- _ => assert (s = Atom a) as ->; [|clear H] end;
    [match goal with H : atom _ ?s = Ok ?a |- _ => by destruct s; cbn in H; simplify_eq end|].
  all: split; [done|].
  all: repeat match goal with H : _ || _ = false |- _ => apply orb_false_iff in H as [? ?] end; bool_to_prop.
  all: lia.
Qed.
Lemma op_concat_ok : op_concat tv t max_cost = Ok (c, o) → out_ok c o.
Proof.
  unfold op_concat. intros Ho. apply bind_Ok_inv in Ho as ([[cost total] terms] & Hl & Ho).
  apply (for_args_inv _ (λ '(cost, total, terms), 0 ≤ cost ∧
    ∃ bs, terms = Atom <$> bs ∧ total = zlen (List.concat bs))) in Hl.
  - destruct Hl as [Hc (bs & -> & ->)]. op_inv. pose proof (zlen_nonneg (List.concat bs)).
    unfold CONCAT_COST_PER_BYTE, MALLOC_COST_PER_BYTE. split; [lia|]. exists bs. split_and!; [done..|lia].
  - intros [[c0 n0] t0] x [[c1 n1] t1] [Hc (bs & -> & ->)] Hb. op_inv.
    unfold CONCAT_COST_PER_ARG. split; [lia|]. destruct x as [b|]; simplify_eq/=.
    exists (bs ++ [b]). rewrite fmap_app, concat_app, zlen_app. cbn. by rewrite app_nil_r.
  - unfold CONCAT_BASE_COST. split; [lia|]. by exists [].
Qed.
Lemma op_unknown_ok x : op_unknown tv x t max_cost = Ok (c, o) → out_ok c o.
Proof. unfold op_unknown. intros Ho. op_inv; unfold uok in *; apply out_ok_same; lia. Qed.

(** BLS operators: every result is a compressed point. *)
Lemma op_pubkey_for_exp_ok : op_pubkey_for_exp tv t max_cost = Ok (c, o) → out_ok c o.
Proof.
  unfold op_pubkey_for_exp. intros Ho. op_inv. unfold uok in *.
  eapply new_atom_and_cost_ok; [|apply p1_len|done]. lia.
Qed.
Lemma op_point_add_ok : op_point_add tv t max_cost = Ok (c, o) → out_ok c o.
Proof.
  unfold op_point_add. intros Ho. apply bind_Ok_inv in Ho as ([cost p] & Hl & Ho).
  apply (for_args_inv _ (λ '(cost, _), 0 ≤ cost)) in Hl.
  - eapply new_atom_and_cost_ok; [done|apply p1_len|done].
  - intros [c0 p0] x [cost1 p1] Hc Hb. unfold point_add_step in Hb. op_inv; unfold uok in *; lia.
  - unfold POINT_ADD_BASE_COST. lia.
Qed.
Lemma op_bls_g1_subtract_ok : op_bls_g1_subtract tv t max_cost = Ok (c, o) → out_ok c o.
Proof.
  unfold op_bls_g1_subtract. intros Ho. apply bind_Ok_inv in Ho as (u & _ & Ho).
  apply bind_Ok_inv in Ho as ([[cost p] f] & Hl & Ho).
  apply (for_pairs_inv _ (λ '(cost, _, _), 0 ≤ cost)) in Hl.
  - eapply new_atom_and_cost_ok; [done|apply p1_len|done].
  - intros [[c0 p0] f0] x [[cost1 p1] f1] Hc Hb. unfold g1_subtract_step in Hb. op_inv; unfold uok in *; lia.
  - unfold BLS_G1_SUBTRACT_BASE_COST. lia.
Qed.
Lemma op_bls_g2_add_ok : op_bls_g2_add tv t max_cost = Ok (c, o) → out_ok c o.
Proof.
  unfold op_bls_g2_add. intros Ho. apply bind_Ok_inv in Ho as (u & _ & Ho).
  apply bind_Ok_inv in Ho as ([cost p] & Hl & Ho).
  apply (for_pairs_inv _ (λ '(cost, _), 0 ≤ cost)) in Hl.
  - eapply new_atom_and_cost_ok; [done|apply p2_len|done].
  - intros [c0 p0] x [cost1 p1] Hc Hb. unfold g2_add_step in Hb. op_inv; unfold uok in *; lia.
  - unfold BLS_G2_ADD_BASE_COST. lia.
Qed.
Lemma op_bls_g2_subtract_ok : op_bls_g2_subtract tv t max_cost = Ok (c, o) → out_ok c o.
Proof.
  unfold op_bls_g2_subtract. intros Ho. apply bind_Ok_inv in Ho as (u & _ & Ho).
  apply bind_Ok_inv in Ho as ([[cost p] f] & Hl & Ho).
  apply (for_pairs_inv _ (λ '(cost, _, _), 0 ≤ cost)) in Hl.
  - eapply new_atom_and_cost_ok; [done|apply p2_len|done].
  - intros [[c0 p0] f0] x [[cost1 p1] f1] Hc Hb. unfold g2_subtract_step in Hb. op_inv; unfold uok in *; lia.
  - unfold BLS_G2_SUBTRACT_BASE_COST. lia.
Qed.
Lemma op_bls_g1_multiply_ok flags : op_bls_g1_multiply tv flags t max_cost = Ok (c, o) → out_ok c o.
Proof.
  unfold op_bls_g1_multiply. intros Ho. op_inv. unfold uok in *.
  eapply new_atom_and_cost_ok; [|apply p1_len|done]. lia.
Qed.
Lemma op_bls_g1_negate_ok flags : op_bls_g1_negate tv flags t max_cost = Ok (c, o) → out_ok c o.
Proof.
  unfold op_bls_g1_negate. intros Ho. op_inv; [by split|].
  apply new_atom_and_cost_ok in Ho; [done|done|]. rewrite flip_sign_len.
  match goal with H : negb (zlen _ =? _) = false |- _ => apply negb_false_iff, Z.eqb_eq in H end. lia.
Qed.
Lemma op_bls_map_to_g1_ok : op_bls_map_to_g1 tv t max_cost = Ok (c, o) → out_ok c o.
Proof.
  unfold op_bls_map_to_g1. intros Ho. op_inv; unfold uok in *;
    (eapply new_atom_and_cost_ok; [|apply p1_len|done]; lia).
Qed.
Lemma op_bls_g2_multiply_ok flags : op_bls_g2_multiply tv flags t max_cost = Ok (c, o) → out_ok c o.
Proof.
  unfold op_bls_g2_multiply. intros Ho. op_inv. unfold uok in *.
  eapply new_atom_and_cost_ok; [|apply p2_len|done]. lia.
Qed.
Lemma op_bls_g2_negate_ok flags : op_bls_g2_negate tv flags t max_cost = Ok (c, o) → out_ok c o.
Proof.
  unfold op_bls_g2_negate. intros Ho. op_inv; [by split|].
  apply new_atom_and_cost_ok in Ho; [done|done|]. rewrite flip_sign_len.
  match goal with H : negb (zlen _ =? _) = false |- _ => apply negb_false_iff, Z.eqb_eq in H end. lia.
Qed.
Lemma op_bls_map_to_g2_ok : op_bls_map_to_g2 tv t max_cost = Ok (c, o) → out_ok c o.
Proof.
  unfold op_bls_map_to_g2. intros Ho. op_inv; unfold uok in *;
    (eapply new_atom_and_cost_ok; [|apply p2_len|done]; lia).
Qed.
Lemma op_bls_pairing_identity_ok : op_bls_pairing_identity tv t max_cost = Ok (c, o) → out_ok c o.
Proof.
  unfold op_bls_pairing_identity. intros Ho. apply bind_Ok_inv in Ho as (u & _ & Ho).
  apply bind_Ok_inv in Ho as ([cost items] & Hl & Ho). op_inv.
  apply (while_args_inv _ (λ '(cost, _), 0 ≤ cost)) in Hl.
  - by apply out_ok_same.
  - intros [c0 i0] x [c1 i1] x' Hc Hb. unfold pairing_step in Hb. op_inv. unfold uok in *. lia.
  - unfold BLS_PAIRING_BASE_COST. lia.
Qed.
Lemma op_bls_verify_ok : op_bls_verify tv t max_cost = Ok (c, o) → out_ok c o.
Proof.
  unfold op_bls_verify. intros Ho. apply bind_Ok_inv in Ho as (u & _ & Ho).
  apply bind_Ok_inv in Ho as ([sn rest] & _ & Ho). apply bind_Ok_inv in Ho as (sig & _ & Ho).
  apply bind_Ok_inv in Ho as ([cost items] & Hl & Ho). op_inv.
  apply (while_args_inv _ (λ '(cost, _), 0 ≤ cost)) in Hl.
  - by apply out_ok_same.
  - intros [c0 i0] x [c1 i1] x' Hc Hb. unfold verify_step in Hb. op_inv. unfold uok in *. lia.
  - unfold BLS_PAIRING_BASE_COST. lia.
Qed.
End args.

#[local] Hint Resolve op_if_ok op_cons_ok op_first_ok op_rest_ok op_listp_ok op_raise_ok
  op_eq_ok op_gr_bytes_ok op_sha256_ok op_substr_ok op_strlen_ok op_concat_ok op_add_ok
  op_subtract_ok op_multiply_ok op_div_impl_ok op_divmod_ok op_gr_ok op_ash_ok op_lsh_ok
  binop_reduction_ok op_lognot_ok op_point_add_ok op_pubkey_for_exp_ok op_not_ok op_any_ok
  op_all_ok op_softfork_ok op_coinid_ok op_bls_g1_subtract_ok op_bls_g1_multiply_ok
  op_bls_g1_negate_ok op_bls_g2_add_ok op_bls_g2_subtract_ok op_bls_g2_multiply_ok
  op_bls_g2_negate_ok op_bls_map_to_g1_ok op_bls_map_to_g2_ok op_bls_pairing_identity_ok
  op_bls_verify_ok op_modpow_ok op_mod_ok op_unknown_ok : core.

Lemma dialect_fn_ok flags opcode f t max_cost c o :
  dialect_fn tv flags opcode = Some f → f t max_cost = Ok (c, o) → out_ok c o.
Proof.
  unfold dialect_fn. intros Hf Ho.
  repeat match type of Hf with
  | (if ?b then _ else _) = Some _ => destruct b; [injection Hf as <-|]
  end; try discriminate;
  repeat match type of Ho with (if ?b then _ else _) _ _ = _ => destruct b end;
  try discriminate; eauto.
Qed.

Lemma dialect_op_ok flags op t max_cost c o :
  dialect_op tv flags op t max_cost = Ok (c, o) → out_ok c o.
Proof.
  unfold dialect_op. intros Ho. apply bind_Ok_inv in Ho as ([b|] & _ & Ho); [|done].
  assert (Hu : ∀ b0, (if flag flags NO_UNKNOWN_OPS then Err (Unimplemented b0)
      else op_unknown tv op t max_cost) = Ok (c, o) → out_ok c o).
  { intros b0. destruct (flag flags NO_UNKNOWN_OPS); [done|]. eauto. }
  destruct b as [|opcode [|? ?]]; eauto.
  destruct (dialect_fn tv flags opcode) as [f|] eqn:Hf; [by eapply dialect_fn_ok|eauto].
Qed.
End outcomes.
