(* ===== verification/ClvmRuntime.v ===== *)
(** * The evaluator: [core/src/clvm/runtime.rs]

    The runtime is a stack machine: a value stack of nodes, a stack of pending
    operations and one checkpoint per pending application, to which the arena
    is rewound when an operator returns a fresh value.  The machine is defined
    once over a [store] (what it needs of the node memory); the arena is one
    store, plain trees are another, where nothing is ever allocated or
    rewound.  [None] is a run that needs more rounds than its fuel. *)
From Stdlib Require Import ZArith Lia String.
From stdpp Require Import base list numbers option strings gmap.
From S2P Require Import Prelude Serialize ClvmNumber ClvmSexp ClvmPath Coin ClvmView ClvmOps ClvmBls ClvmArena.

Open Scope Z_scope.

Definition QUOTE_COST : Z := 20.
Definition APPLY_COST : Z := 90.
Definition OP_COST : Z := 1.
Definition TRAVERSE_BASE_COST : Z := 40.
Definition TRAVERSE_COST_PER_ZERO_BYTE : Z := 4.
Definition TRAVERSE_COST_PER_BIT : Z := 4.

Inductive Operation := OApply | OCons | OEval | OSwapEval.

Definition quote_kw : list Z := [1].
Definition apply_kw : list Z := [2].

(** ** What the machine needs of the node memory *)
Record store (N Mem CP : Type) := {
  st_view : Mem → view N;
  st_pair : N → N → Mem → clvm (N * Mem);
  st_materialize : OpOut N → Z → Mem → clvm (Z * N * Mem);
  st_checkpoint : Mem → CP;
  st_restore : CP → Mem → clvm Mem;
}.
Arguments st_view {N Mem CP}.
Arguments st_pair {N Mem CP}.
Arguments st_materialize {N Mem CP}.
Arguments st_checkpoint {N Mem CP}.
Arguments st_restore {N Mem CP}.

Definition arena_store `{BigIntBytes} : store NodePtr Arena Checkpoint := {|
  st_view := arena_view;
  st_pair := new_pair;
  st_materialize := materialize;
  st_checkpoint := checkpoint;
  st_restore := restore;
|}.

Definition tree_store `{BigIntBytes} : store SExp unit unit := {|
  st_view _ := tree_view;
  st_pair f r _ := Ok (Pair f r, tt);
  st_materialize o c _ := '(c, t) ← tree_materialize o c; Ok (c, t, tt);
  st_checkpoint _ := tt;
  st_restore _ _ := Ok tt;
|}.

Definition traverse_step {N} (v : view N) (is_bit_set : bool) (s : Z * N) : clvm (Z * N) :=
  let '(cost, arg_list) := s in
  k ← v_kind v arg_list;
  match k with
  | KPair first rest =>
      cost ← c64 (cost + TRAVERSE_COST_PER_BIT);
      Ok (cost, if is_bit_set then rest else first)
  | KAtom => Err ExpectedPairGotAtom
  end.
Definition traverse_path {N} (v : view N) (node_index : list Z) (args : N) : clvm (Z * N) :=
  let first_bit_byte_index := first_non_zero node_index in
  cost ← c64 (TRAVERSE_BASE_COST + Z.of_nat first_bit_byte_index * TRAVERSE_COST_PER_ZERO_BYTE
              + TRAVERSE_COST_PER_BIT);
  match node_index !! first_bit_byte_index with
  | None => Ok (cost, v_NIL v)
  | Some byte =>
      let last_bitmask := msb_mask byte in
      path_walk (traverse_step v) (8 * length node_index) node_index first_bit_byte_index
        last_bitmask (length node_index - 1) 0x01 (cost, args)
  end.

Record state (N Mem CP : Type) := State {
  mem : Mem;
  value_stack : list N;
  op_stack : list Operation;
  checkpoint_stack : list CP;
}.
Arguments State {N Mem CP}.
Arguments mem {N Mem CP}.
Arguments value_stack {N Mem CP}.
Arguments op_stack {N Mem CP}.
Arguments checkpoint_stack {N Mem CP}.

Section machine.
Context {N Mem CP : Type} (S : store N Mem CP) `{BigIntBytes, Sha256, Blst} (flags : Z).

Notation st := (state N Mem CP).

Definition cons_op (s : st) : clvm (Z * st) :=
  match value_stack s with
  | first :: rest :: vals =>
      '(p, m) ← st_pair S first rest (mem s);
      Ok (0, State m (p :: vals) (op_stack s) (checkpoint_stack s))
  | _ => Err ValueStackEmpty
  end.

(** The loop of [eval_op_atom]: queue every operand for evaluation. *)
Fixpoint queue_operands (v : view N) (args : N) (fuel : nat) (operands : N) (vals : list N)
    (ops : list Operation) : clvm (list N * list Operation) :=
  match fuel with
  | O => Panic
  | Datatypes.S fuel =>
      k ← v_kind v operands;
      match k with
      | KAtom =>
          nil ← v_nullp v operands;
          if (nil : bool) then Ok (vals, ops) else Err InvalidOperandList
      | KPair first rest =>
          queue_operands v args fuel rest (first :: args :: vals) (OSwapEval :: ops)
      end
  end.

Definition eval_op_atom (operator_node operand_list args : N) (s : st) : clvm (Z * st) :=
  let v := st_view S (mem s) in
  a ← v_atom v operator_node;
  op_atom ← ok_or a ExpectedAtomGotPair;
  if bool_decide (op_atom = quote_kw) then
    Ok (QUOTE_COST, State (mem s) (operand_list :: value_stack s) (op_stack s) (checkpoint_stack s))
  else
    '(vals, ops) ← queue_operands v args (v_fuel v operand_list) operand_list
      (operator_node :: value_stack s) (OApply :: op_stack s);
    Ok (OP_COST,
        State (mem s) (v_NIL v :: vals) ops (st_checkpoint S (mem s) :: checkpoint_stack s)).

Definition eval_pair (program args : N) (s : st) : clvm (Z * st) :=
  let v := st_view S (mem s) in
  k ← v_kind v program;
  match k with
  | KAtom =>
      a ← v_atom v program;
      path ← expect a;
      '(cost, r) ← traverse_path v path args;
      Ok (cost, State (mem s) (r :: value_stack s) (op_stack s) (checkpoint_stack s))
  | KPair op_node op_list =>
      k ← v_kind v op_node;
      match k with
      | KPair inner_first inner_rest =>
          k1 ← v_kind v inner_first;
          lone ← match k1 with KAtom => v_nullp v inner_rest | KPair _ _ => Ok false end;
          if (lone : bool) then
            Ok (APPLY_COST,
                State (mem s) (op_list :: inner_first :: value_stack s) (OApply :: op_stack s)
                  (st_checkpoint S (mem s) :: checkpoint_stack s))
          else Err InvalidSyntax
      | KAtom => eval_op_atom op_node op_list args s
      end
  end.

Definition swap_eval_op (s : st) : clvm (Z * st) :=
  match value_stack s with
  | v2 :: program :: args :: vals =>
      eval_pair program args
        (State (mem s) (v2 :: vals) (OCons :: op_stack s) (checkpoint_stack s))
  | _ => Err ValueStackEmpty
  end.

Definition eval_op (s : st) : clvm (Z * st) :=
  match value_stack s with
  | args :: program :: vals =>
      eval_pair program args (State (mem s) vals (op_stack s) (checkpoint_stack s))
  | _ => Err ValueStackEmpty
  end.

(** The rewind of [apply_op]: only for a result that borrows no node. *)
Definition release (o : OpOut N) (cps : list CP) (m : Mem) : clvm Mem :=
  match cps with
  | cp :: _ => if is_self_contained o then st_restore S cp m else Ok m
  | [] => Ok m
  end.

Definition apply_op (max_cost : Z) (s : st) : clvm (Z * st) :=
  let v := st_view S (mem s) in
  match value_stack s with
  | operand_list :: operator :: vals =>
      a ← v_atom v operator;
      op_atom ← ok_or a ExpectedAtomGotPair;
      if bool_decide (op_atom = apply_kw) then
        two ← arg_count_is v operand_list 2;
        if (two : bool) then
          o1 ← next v operand_list;
          '(new_program, arg_wrap) ← ok_or o1 ExpectedPairGotAtom;
          o2 ← next v arg_wrap;
          '(new_args, _) ← ok_or o2 ExpectedPairGotAtom;
          '(c, s) ← eval_pair new_program new_args
            (State (mem s) vals (op_stack s) (tail (checkpoint_stack s)));
          c ← c64 (c + APPLY_COST);
          Ok (c, s)
        else Err InvalidApplyArgs
      else
        '(cost, out) ← dialect_op v flags operator operand_list max_cost;
        m ← release out (checkpoint_stack s) (mem s);
        '(cost, result, m) ← st_materialize S out cost m;
        Ok (cost, State m (result :: vals) (op_stack s) (tail (checkpoint_stack s)))
  | _ => Err ValueStackEmpty
  end.

Definition step (max_cost current_cost : Z) (op : Operation) (s : st) : clvm (Z * st) :=
  match op with
  | OApply => left ← c64 (max_cost - current_cost); apply_op left s
  | OCons => cons_op s
  | OEval => eval_op s
  | OSwapEval => swap_eval_op s
  end.

(** [declared] is the [max_cost] field, reported in the error. *)
Fixpoint run_loop (fuel : nat) (declared max_cost current_cost : Z) (s : st) :
    option (clvm (Z * N * Mem)) :=
  match op_stack s with
  | [] =>
      Some (match value_stack s with
            | n :: _ => Ok (current_cost, n, mem s)
            | [] => Err ValueStackEmpty
            end)
  | op :: ops =>
      match fuel with
      | O => None
      | Datatypes.S fuel =>
          match
            '(c, s') ← step max_cost current_cost op
                         (State (mem s) (value_stack s) ops (checkpoint_stack s));
            c ← c64 (current_cost + c);
            if max_cost <? c then Err (CostExceeded c declared) else Ok (c, s')
          with
          | Ok (c, s') => run_loop fuel declared max_cost c s'
          | Err e => Some (Err e)
          | Panic => Some Panic
          end
      end
  end.
End machine.

Definition effective_max_cost (max_cost : Z) : Z := if max_cost =? 0 then u64_max else max_cost.

(** [run_in_arena] *)
Definition run_in_arena `{BigIntBytes, Sha256, Blst} (flags : Z) (fuel : nat) (max_cost : Z)
    (program args : SExp) : option (clvm (Z * NodePtr * Arena)) :=
  match
    '(program, a) ← import program arena_reset;
    '(args, a) ← import args a;
    Ok (program, args, a)
  with
  | Ok (program, args, a) =>
      run_loop arena_store flags fuel max_cost (effective_max_cost max_cost) 0
        (State a [args; program] [OEval] [])
  | Err e => Some (Err e)
  | Panic => Some Panic
  end.

(** [ClvmRuntime::run]: the result as a tree. *)
Definition run `{BigIntBytes, Sha256, Blst} (flags : Z) (fuel export_fuel : nat) (max_cost : Z)
    (program args : SExp) : option (clvm (Z * SExp)) :=
  r ← run_in_arena flags fuel max_cost program args;
  Some ('(cost, n, a) ← r; t ← export export_fuel a n; Ok (cost, t)).

(** ** Environment lookup *)

(** The cost of a path: its leading zero bytes and its binary digits. *)
Definition path_cost (path : list Z) : Z :=
  TRAVERSE_BASE_COST + Z.of_nat (first_non_zero path) * TRAVERSE_COST_PER_ZERO_BYTE
  + TRAVERSE_COST_PER_BIT + Z.log2 (from_be path) * TRAVERSE_COST_PER_BIT.

Lemma log2_xO p : Z.log2 (Zpos (xO p)) = Z.log2 (Zpos p) + 1.
Proof. rewrite Pos2Z.inj_xO, Z.log2_double by lia. lia. Qed.
Lemma log2_xI p : Z.log2 (Zpos (xI p)) = Z.log2 (Zpos p) + 1.
Proof. rewrite Pos2Z.inj_xI, Z.log2_succ_double by lia. lia. Qed.

Lemma walk_follow `{BigIntBytes} p c env :
  0 ≤ c → c + 4 * Z.log2 (Zpos p) < 2 ^ 64 →
  walk_pos (traverse_step tree_view) p (c, env) =
    match follow p env with
    | Some t => Ok (c + 4 * Z.log2 (Zpos p), t)
    | None => Err ExpectedPairGotAtom
    end.
Proof.
  revert c env. induction p as [p IH|p IH|]; intros c env Hc Hlim; cbn [walk_pos follow].
  - rewrite log2_xI in *. pose proof (Z.log2_nonneg (Zpos p)).
    destruct env as [a|f r]; cbn [traverse_step v_kind tree_view mbind res_bind]; [done|].
    unfold c64, TRAVERSE_COST_PER_BIT. rewrite chk_ok by (unfold uok; lia). cbn [mbind res_bind].
    rewrite IH by lia. destruct (follow p r); [|done]. do 2 f_equal. lia.
  - rewrite log2_xO in *. pose proof (Z.log2_nonneg (Zpos p)).
    destruct env as [a|f r]; cbn [traverse_step v_kind tree_view mbind res_bind]; [done|].
    unfold c64, TRAVERSE_COST_PER_BIT. rewrite chk_ok by (unfold uok; lia). cbn [mbind res_bind].
    rewrite IH by lia. destruct (follow p f); [|done]. do 2 f_equal. lia.
  - by rewrite Z.mul_0_r, Z.add_0_r.
Qed.

(** environment lookup.  Walking a path atom with a byte index and a bit
    mask finds the node its integer denotes (nil for zero), costs 44 and four
    per leading zero byte and per binary digit, and fails exactly when the
    path runs into an atom. *)
Theorem traverse_path_correct `{BigIntBytes} path env :
  bytes_ok path → zlen path ≤ HEAP_LIMIT →
  traverse_path tree_view path env =
    match path_lookup (from_be path) env with
    | Some t => Ok (path_cost path, t)
    | None => Err ExpectedPairGotAtom
    end.
Proof.
  intros Hok Hlen. unfold traverse_path, path_cost, TRAVERSE_BASE_COST, TRAVERSE_COST_PER_ZERO_BYTE,
    TRAVERSE_COST_PER_BIT. cbv zeta.
  pose proof (first_non_zero_le path) as Hfz. unfold HEAP_LIMIT, u32_max, zlen in Hlen.
  unfold c64. rewrite chk_ok by (unfold uok; lia). cbn [mbind res_bind].
  pose proof (from_be_bounds path Hok) as Hb. unfold zlen in Hb. rewrite pow256 in Hb.
  destruct (decide (first_non_zero path = length path)) as [He|Hne].
  - rewrite He, lookup_ge_None_2 by lia. pose proof (proj1 (first_non_zero_all path Hok) He) as ->.
    cbn. do 2 f_equal. lia.
  - assert (Hlt : (first_non_zero path < length path)%nat) by lia.
    apply lookup_lt_is_Some_2 in Hlt as [byte Hbyte]. rewrite Hbyte.
    assert (Hbok : byte_ok byte) by (eapply Forall_lookup_1; [exact Hok|exact Hbyte]).
    assert (Hnz : byte ≠ 0).
    { destruct (from_be_first path Hne) as (b & _ & Hb' & Hb0 & _). congruence. }
    rewrite path_walk_start; [|done|done|].
    2: { intros b Hb'. assert (b = byte) as -> by congruence. by apply msb_mask_spec. }
    assert (Hpos : 0 < from_be path).
    { destruct (Z.eq_dec (from_be path) 0) as [H0|]; [|lia]. by apply first_non_zero_all in H0. }
    destruct (from_be path) as [|p|p] eqn:Hfb; [lia| |lia]. cbn [Z.to_pos path_lookup].
    assert (Hlog : Z.log2 (Zpos p) < 8 * Z.of_nat (length path)) by (apply Z.log2_lt_pow2; lia).
    rewrite walk_follow by lia. destruct (follow p env); [|done]. do 2 f_equal. lia.
Qed.

Lemma traverse_path_correct_witness :
  @traverse_path _ (@tree_view bigint_ref) [0; 2; 1] (Pair (Atom []) (Atom [])) =
  Err ExpectedPairGotAtom ∧
  @traverse_path _ (@tree_view bigint_ref) [0; 6] (Pair (Pair (Atom [7]) (Atom [8])) (Atom [9])) =
    match path_lookup (from_be [0; 6]) (Pair (Pair (Atom [7]) (Atom [8])) (Atom [9])) with
    | Some t => Ok (path_cost [0; 6], t)
    | None => Err ExpectedPairGotAtom
    end.
Proof.
  split; [vm_compute; reflexivity|].
  apply (@traverse_path_correct bigint_ref); [apply bytes_okb_spec; reflexivity|vm_compute; discriminate].
Defined.
