(* ===== verification/ClvmRefine.v ===== *)
(** * The arena runtime refines the tree machine

    The stacks of the runtime hold handles into an arena that is rewound while
    it runs.  [frames] is the invariant of the pending operations: what each
    of them will pop denotes the right tree, and what lies below an
    application survives a rewind to its checkpoint.  [step_sim] shows that
    every step keeps it, that the arena stays within its limits and that a
    step computes what it computes on trees; [run_loop_sim] and
    [run_loop_total] carry this to whole runs, which end. *)
From Stdlib Require Import ZArith Lia String.
From stdpp Require Import base list numbers option strings gmap.
From S2P Require Import Prelude Serialize ClvmNumber ClvmSexp ClvmPath Coin ClvmView ClvmOps ClvmBls ClvmArena ClvmOutcome ClvmRuntime.

Open Scope Z_scope.

(** ** Rewinding *)
Lemma restore_spec a0 a :
  extends a0 a → arena_ok a →
  ∃ b, restore (checkpoint a0) a = Ok b ∧ extends a0 b ∧ arena_ok b ∧
    atoms_total b = atoms_total a ∧ pairs_total b = pairs_total a ∧ heap_total b = heap_total a.
Proof.
  intros ((h & Hh) & (p & Hp) & (t & Ht)) [Hg Ha Hpl Hhl Hi].
  unfold atoms_total, pairs_total, heap_total in *.
  rewrite Ht, zlen_app in Ha. rewrite Hp, zlen_app in Hpl. rewrite Hh, zlen_app in Hhl.
  pose proof (zlen_nonneg h). pose proof (zlen_nonneg p). pose proof (zlen_nonneg t).
  pose proof (zlen_nonneg (u8_vec a0)). pose proof (zlen_nonneg (pair_vec a0)).
  pose proof (zlen_nonneg (atom_vec a0)).
  unfold MAX_NUM_ATOMS, MAX_NUM_PAIRS, HEAP_LIMIT, u32_max in *.
  unfold restore, checkpoint, c64. cbn [cp_heap cp_pairs cp_atoms].
  rewrite Hh, Hp, Ht, !zlen_app.
  replace (zlen (u8_vec a0) + zlen h - zlen (u8_vec a0)) with (zlen h) by lia.
  replace (zlen (pair_vec a0) + zlen p - zlen (pair_vec a0)) with (zlen p) by lia.
  replace (zlen (atom_vec a0) + zlen t - zlen (atom_vec a0)) with (zlen t) by lia.
  rewrite (chk_ok 64 (zlen h)) by (unfold uok; lia). cbn [mbind res_bind].
  rewrite (chk_ok 64 (zlen p)) by (unfold uok; lia). cbn [mbind res_bind].
  rewrite (chk_ok 64 (zlen t)) by (unfold uok; lia). cbn [mbind res_bind].
  unfold zlen at 1 2 3. rewrite !Nat2Z.id, !take_app_length.
  eexists. split; [done|]. cbn [u8_vec pair_vec atom_vec ghost_atoms ghost_pairs ghost_heap].
  split_and!; [done..| |lia|lia|lia].
  split; unfold atoms_total, pairs_total, heap_total, MAX_NUM_ATOMS, MAX_NUM_PAIRS, HEAP_LIMIT, u32_max;
    cbn [u8_vec pair_vec atom_vec ghost_atoms ghost_pairs ghost_heap atom_intern]; try lia.
  intros k n Hk. by rewrite lookup_empty in Hk.
Qed.

(** ** Pending operations *)
Inductive frames : Arena → list Operation → list NodePtr → list Checkpoint → list SExp → Prop :=
  | frames_nil a : frames a [] [] [] []
  | frames_cons a v t ops vals cps tvals :
      den a v t → frames a ops vals cps tvals →
      frames a (OCons :: ops) (v :: vals) cps (t :: tvals)
  | frames_swap a prog args tp ta ops vals cps tvals :
      den a prog tp → den a args ta → frames a ops vals cps tvals →
      frames a (OSwapEval :: ops) (prog :: args :: vals) cps (tp :: ta :: tvals)
  | frames_apply a0 a oper t ops vals cps tvals :
      extends a0 a → den a0 oper t → frames a0 ops vals cps tvals →
      frames a (OApply :: ops) (oper :: vals) (checkpoint a0 :: cps) (t :: tvals).

Lemma frames_mono a b ops vals cps tvals :
  extends a b → frames a ops vals cps tvals → frames b ops vals cps tvals.
Proof.
  intros He Hf. revert b He. induction Hf as [a|a v t ops vals cps tvals Hd Hf IH|
    a prog args tp ta ops vals cps tvals Hp Ha Hf IH|a0 a oper t ops vals cps tvals He0 Hd Hf IH];
    intros b He.
  - constructor.
  - constructor; [by eapply den_mono|auto].
  - constructor; [by eapply den_mono..|auto].
  - constructor; [by etrans|done|done].
Qed.

(** A machine state and its tree counterpart. *)
Inductive st_rel : state NodePtr Arena Checkpoint → state SExp unit unit → Prop :=
  | st_start a prog args tp ta :
      arena_ok a → den a prog tp → den a args ta →
      st_rel (State a [args; prog] [OEval] []) (State tt [ta; tp] [OEval] [])
  | st_top a v t ops vals cps tvals tcps :
      arena_ok a → den a v t → frames a ops vals cps tvals →
      st_rel (State a (v :: vals) ops cps) (State tt (t :: tvals) ops tcps).

(** Potential of the pending operations: a round of the loop costs one of it
    or a unit of cost. *)
Definition op_weight (o : Operation) : Z := match o with OApply | OCons => 1 | OEval | OSwapEval => 0 end.
Fixpoint weight (ops : list Operation) : Z :=
  match ops with [] => 0 | o :: ops => op_weight o + weight ops end.

Lemma weight_nonneg ops : 0 ≤ weight ops.
Proof. induction ops as [|[]]; cbn; lia. Qed.

Section refine.
Context `{BigIntBytesOk, Sha256Ok, BlstOk} (flags : Z).

(** ** Path traversal *)
Lemma path_walk_sim {A B} (Q : A → B → Prop) body1 body2 fuel path first last i m a b :
  (∀ bit a b, Q a b → clvm_rel Q (body1 bit a) (body2 bit b)) → Q a b →
  clvm_rel Q (path_walk body1 fuel path first last i m a) (path_walk body2 fuel path first last i m b).
Proof.
  intros Hbody. revert i m a b. induction fuel as [|fuel IH]; intros i m a b HQ; [done|].
  cbn [path_walk]. destruct (path_continues first last i m); [|done].
  eapply rel_bind; [by apply Hbody|]. intros a' b' HQ'. destruct (path_next i m). by apply IH.
Qed.

Lemma path_walk_inv {A} (P : A → Prop) body fuel path first last i m (a a' : A) :
  (∀ bit a a', P a → body bit a = Ok a' → P a') → P a →
  path_walk body fuel path first last i m a = Ok a' → P a'.
Proof.
  intros Hbody. revert i m a. induction fuel as [|fuel IH]; intros i m a HP Hw; [done|].
  cbn [path_walk] in Hw. destruct (path_continues first last i m); op_inv; [|done].
  destruct (path_next i m). eauto.
Qed.

Definition cost_node_rel (R : NodePtr → SExp → Prop) (x : Z * NodePtr) (y : Z * SExp) : Prop :=
  x.1 = y.1 ∧ R x.2 y.2 ∧ 1 ≤ x.1.

Lemma traverse_path_sim a path n t :
  den a n t →
  clvm_rel (cost_node_rel (den a)) (traverse_path (arena_view a) path n)
    (traverse_path tree_view path t).
Proof.
  intros Hd. unfold traverse_path. cbv zeta.
  set (c0 := TRAVERSE_BASE_COST + _ + _).
  assert (Hc0 : 1 ≤ c0) by (unfold c0, TRAVERSE_BASE_COST, TRAVERSE_COST_PER_ZERO_BYTE, TRAVERSE_COST_PER_BIT; lia).
  unfold c64. destruct (chk 64 c0) as [c|e|] eqn:Hc; cbn [mbind res_bind]; [|done..].
  apply chk_Ok in Hc as [_ ->].
  destruct (path !! _) as [byte|]; [|split_and!; [done|apply den_NIL|done]].
  apply path_walk_sim; [|by split_and!].
  intros bit [c1 n1] [c2 t2] (Heq & Hn & Hc1). cbn in Heq, Hn, Hc1. subst c2.
  unfold traverse_step, c64. eapply rel_bind; [by apply den_kind|]. intros k tk Hk.
  destruct Hk as [|f r tf tr Hf Hr]; [done|].
  destruct (chk 64 _) as [c|e|] eqn:Hc; cbn [mbind res_bind]; [|done..].
  apply chk_Ok in Hc as [_ ->]. unfold TRAVERSE_COST_PER_BIT. split_and!; cbn; [done|by destruct bit|lia].
Qed.

(** ** One evaluation *)
Definition eval_rel (a : Arena) (w : Z) (x : Z * state NodePtr Arena Checkpoint)
    (y : Z * state SExp unit unit) : Prop :=
  x.1 = y.1 ∧ 1 ≤ x.1 ∧ st_rel x.2 y.2 ∧ mem x.2 = a ∧ weight (op_stack x.2) ≤ w + 1.

Lemma queue_operands_sim a args ta f1 f2 n t vals cps tvals ops :
  den a args ta → den a n t → (spine t < f1)%nat → (spine t < f2)%nat → frames a ops vals cps tvals →
  clvm_rel (λ '(vals, ops') '(tvals, tops), ops' = tops ∧ frames a ops' vals cps tvals ∧
      weight ops' = weight ops)
    (queue_operands (arena_view a) args f1 n vals ops)
    (queue_operands tree_view ta f2 t tvals ops).
Proof.
  intros Hargs. revert f1 f2 n vals tvals ops.
  induction t as [b|tf _ tr IH]; intros f1 f2 n vals tvals ops Hd H1' H2' Hf;
    (destruct f1; [cbn in H1'; lia|]); (destruct f2; [cbn in H2'; lia|]); cbn [queue_operands];
    pose proof (kind_cases (arena_view a) (den a) n _ Hd) as Hk; cbn [v_kind tree_view].
  - rewrite Hk. cbn [mbind res_bind]. rewrite (sim_nullp n _ Hd).
    cbn [v_nullp tree_view mbind res_bind]. by destruct (sexp_nullp (Atom b)).
  - destruct Hk as (f & r & Hk & Hdf & Hdr). rewrite Hk. cbn [mbind res_bind].
    eapply rel_mono; [apply IH; [done|cbn in *; lia..|by constructor]|].
    intros [vs os] [tvs tos] (-> & Hfr & Hw). split_and!; [done..|]. by rewrite Hw.
Qed.

Lemma eval_op_atom_sim a op top l tl args ta ops vals cps tvals tcps :
  arena_ok a → den a op top → den a l tl → den a args ta → frames a ops vals cps tvals →
  clvm_rel (eval_rel a (weight ops))
    (eval_op_atom arena_store op l args (State a vals ops cps))
    (eval_op_atom tree_store top tl ta (State tt tvals ops tcps)).
Proof.
  intros Hok Hop Hl Hargs Hf. unfold eval_op_atom. cbn [st_view arena_store tree_store mem].
  eapply rel_bind; [by apply (atom_read_sim _ (den a))|]. intros ? oa ->.
  eapply rel_bind; [apply rel_refl|]. intros ? b ->.
  case_bool_decide.
  { split_and!; cbn; [done|done|by constructor|done|lia]. }
  cbn [value_stack op_stack checkpoint_stack st_checkpoint].
  eapply rel_bind.
  { apply (queue_operands_sim a args ta _ _ l tl _ (checkpoint a :: cps) _ (OApply :: ops)); try done.
    - pose proof (den_spine a l tl Hl). cbn. lia.
    - cbn. lia.
    - by constructor. }
  intros [vs os] [tvs tos] (-> & Hfr & Hw). split_and!; cbn; [done|done| |done|].
  - constructor; [done|apply den_NIL|done].
  - cbn in Hw. lia.
Qed.

Lemma eval_pair_sim a prog tp args ta ops vals cps tvals tcps :
  arena_ok a → den a prog tp → den a args ta → frames a ops vals cps tvals →
  clvm_rel (eval_rel a (weight ops))
    (eval_pair arena_store prog args (State a vals ops cps))
    (eval_pair tree_store tp ta (State tt tvals ops tcps)).
Proof.
  intros Hok Hp Hargs Hf. unfold eval_pair. cbn [st_view arena_store tree_store mem].
  eapply rel_bind; [by apply (kind_sim _ (den a))|]. intros k tk Hk.
  destruct Hk as [|op l top tl Hop Hl].
  - eapply rel_bind; [by apply (atom_read_sim _ (den a))|]. intros ? oa ->.
    eapply rel_bind; [apply rel_refl|]. intros ? path ->.
    eapply rel_bind; [by apply traverse_path_sim|]. intros [c n] [c' t] (Hc & Hn & H1').
    cbn in Hc, Hn, H1'. subst c'. split_and!; cbn; [done|done|by constructor|done|lia].
  - eapply rel_bind; [by apply (kind_sim _ (den a))|]. intros k tk Hk.
    destruct Hk as [|f r tf tr Hfi Hri]; [by apply eval_op_atom_sim|].
    eapply rel_bind; [by apply (kind_sim _ (den a))|]. intros k1 tk1 Hk1.
    eapply (rel_bind eq).
    { destruct Hk1; [by apply (nullp_sim _ (den a))|done]. }
    intros ? lone ->. destruct lone; [|done].
    split_and!; cbn; [done|done| |done|lia]. constructor; [done..|]. by constructor.
Qed.

(** ** One step *)

(** The heap a run may have charged: its inputs' bytes [T0], a tenth of the
    cost so far, and four bytes per atom. *)
Definition budget (T0 : Z) (a : Arena) (cost : Z) : Prop :=
  10 * heap_total a ≤ 10 * T0 + cost + 40 * atoms_total a.

(** The same outcome, up to the consensus limits. *)
Definition limit_rel {A B} (Q : A → B → Prop) (m1 : clvm A) (m2 : clvm B) : Prop :=
  (∃ e, m1 = Err e ∧ limit_error e) ∨ clvm_rel Q m1 m2.

Lemma limit_of {A B} (Q : A → B → Prop) m1 m2 : clvm_rel Q m1 m2 → limit_rel Q m1 m2.
Proof. by right. Qed.

Lemma limit_bind {A B C D} (Q : A → B → Prop) (P : C → D → Prop) m1 m2 k1 k2 :
  limit_rel Q m1 m2 → (∀ a b, Q a b → limit_rel P (k1 a) (k2 b)) →
  limit_rel P (m1 ≫= k1) (m2 ≫= k2).
Proof.
  intros [(e & -> & He)|Hm] Hk; [left; by exists e|].
  destruct m1, m2; cbn in Hm |- *; try done; [by apply Hk|by right..].
Qed.

Lemma limit_mono {A B} (Q P : A → B → Prop) m1 m2 :
  limit_rel Q m1 m2 → (∀ a b, Q a b → P a b) → limit_rel P m1 m2.
Proof. intros [?|Hm] HQ; [by left|right]. by eapply rel_mono. Qed.

Definition step_rel (T0 cost w : Z) (x : Z * state NodePtr Arena Checkpoint)
    (y : Z * state SExp unit unit) : Prop :=
  x.1 = y.1 ∧ 0 ≤ x.1 ∧ st_rel x.2 y.2 ∧ budget T0 (mem x.2) (cost + x.1) ∧
  weight (op_stack x.2) + 1 ≤ 4 * x.1 + w.

Lemma eval_step_rel T0 cost w w' a x y :
  budget T0 a cost → w + 2 ≤ w' + 4 → eval_rel a w x y → step_rel T0 cost w' x y.
Proof.
  intros Hb Hw (Heq & H1' & Hst & Hm & Hwt). split_and!; [done|lia|done| |lia].
  rewrite Hm. unfold budget in *. lia.
Qed.

(** The node memory after a result's operands are released. *)
Lemma release_sim a0 a o to cps :
  extends a0 a → arena_ok a → out_rel (den a) o to →
  ∃ b, release arena_store o (checkpoint a0 :: cps) a = Ok b ∧ extends a0 b ∧ arena_ok b ∧
    atoms_total b = atoms_total a ∧ heap_total b = heap_total a ∧ out_rel (den b) o to.
Proof.
  intros He Hok Ho. unfold release.
  destruct (is_self_contained o) eqn:Hs; [|by exists a].
  destruct (restore_spec a0 a He Hok) as (b & Hr & Heb & Hbok & Hat & _ & Hht).
  exists b. split_and!; try done; try apply Heb.
  destruct Ho; try discriminate Hs; constructor.
Qed.

(** An operator, the release of its operands and its result. *)
Lemma apply_dialect_sim T0 cost limit a v t a0 oper toper ops vals cps tvals tcps :
  arena_ok a → den a v t → extends a0 a → den a oper toper → frames a0 ops vals cps tvals →
  budget T0 a cost → heap_total a + 4 ≤ HEAP_LIMIT →
  limit_rel (step_rel T0 cost (1 + weight ops))
    ('(c, out) ← dialect_op (arena_view a) flags oper v limit;
     m ← release arena_store out (checkpoint a0 :: cps) a;
     '(c, result, m) ← materialize out c m;
     Ok (c, State m (result :: vals) ops cps))
    ('(c, out) ← dialect_op tree_view flags toper t limit;
     m ← release tree_store out tcps tt;
     '(c, result, m) ← st_materialize tree_store out c m;
     Ok (c, State m (result :: tvals) ops (tail tcps))).
Proof.
  intros Hok Hv He Hop Hf Hb Hheap.
  pose proof (dialect_op_sim (arena_view a) (den a) flags oper toper v t limit Hop Hv) as Hs.
  destruct (dialect_op tree_view flags toper t limit) as [[c to]|e|] eqn:Et;
    destruct (dialect_op (arena_view a) flags oper v limit) as [[c' o]|e'|]; try done;
    cbn [mbind res_bind]; [|right; done..].
  destruct Hs as [Hc Ho]. cbn in Hc, Ho. subst c'. apply dialect_op_ok in Et.
  destruct (release_sim a0 a o to cps He Hok Ho) as (b & Hr & Heb & Hbok & Hat & Hht & Hob).
  rewrite Hr. cbn [mbind res_bind].
  assert (release tree_store to tcps tt = Ok tt) as ->.
  { unfold release. destruct tcps; [done|]. by destruct (is_self_contained to). }
  cbn [mbind res_bind st_materialize tree_store].
  pose proof (materialize_spec b o to c Hbok ltac:(lia) Hob Et) as Hm.
  destruct (materialize o c b) as [[[c1 n] b1]|e|]; cbn [mbind res_bind].
  - destruct (tree_materialize to c) as [[c2 t2]|e|]; try done.
    cbn in Hm. destruct Hm as (<- & Hc1 & Heb1 & Hok1 & Hdn & Hat1 & Hht1).
    right. cbn. split_and!; cbn; [done|done| | |lia].
    + constructor; [done..|]. eapply frames_mono; [|done]. by etrans.
    + unfold budget in *. lia.
  - left. exists e. split; [done|]. by destruct (tree_materialize to c) as [[]| |].
  - destruct (tree_materialize to c) as [[]| |]; try done. by right.
Qed.

Lemma apply_op_sim T0 cost limit a v t a0 oper toper ops vals cps tvals tcps :
  arena_ok a → den a v t → extends a0 a → den a0 oper toper → frames a0 ops vals cps tvals →
  budget T0 a cost → heap_total a + 4 ≤ HEAP_LIMIT →
  limit_rel (step_rel T0 cost (1 + weight ops))
    (apply_op arena_store flags limit (State a (v :: oper :: vals) ops (checkpoint a0 :: cps)))
    (apply_op tree_store flags limit (State tt (t :: toper :: tvals) ops tcps)).
Proof.
  intros Hok Hv He Hoper Hf Hb Hheap. unfold apply_op.
  cbn [st_view arena_store tree_store mem value_stack op_stack checkpoint_stack tail].
  assert (Hop : den a oper toper) by (by eapply den_mono).
  eapply limit_bind; [apply limit_of; by apply (atom_read_sim _ (den a))|]. intros ? oa ->.
  eapply limit_bind; [apply limit_of; apply rel_refl|]. intros ? b ->.
  case_bool_decide.
  - apply limit_of. eapply rel_bind; [by apply (arg_count_is_sim _ (den a))|]. intros ? two ->.
    destruct two; [|done].
    eapply rel_bind; [by apply (next_sim _ (den a))|]. intros o1 to1 Ho1.
    destruct Ho1 as [[p w] [tp tw] [Hp Hw]|]; [|done]. cbn in Hp, Hw. cbn [mbind res_bind ok_or].
    eapply rel_bind; [by apply (next_sim _ (den a))|]. intros o2 to2 Ho2.
    destruct Ho2 as [[na x] [tna tx] [Hna _]|]; [|done]. cbn in Hna. cbn [mbind res_bind ok_or].
    eapply rel_bind.
    { apply eval_pair_sim; try done. by eapply frames_mono. }
    intros [c s] [c' ts] (Heq & H1' & Hst & Hm & Hwt). cbn in Heq, H1', Hst, Hm, Hwt. subst c'.
    unfold c64. destruct (chk 64 _) as [c'|e|] eqn:Hc; cbn [mbind res_bind]; [|done..].
    apply chk_Ok in Hc as [_ ->]. unfold APPLY_COST. split_and!; cbn; [done|lia|done| |lia].
    rewrite Hm. unfold budget in *. lia.
  - by apply apply_dialect_sim.
Qed.

Lemma step_sim T0 max_cost cost op a vals ops cps tvals tcps :
  st_rel (State a vals (op :: ops) cps) (State tt tvals (op :: ops) tcps) →
  budget T0 a cost → heap_total a + 4 ≤ HEAP_LIMIT →
  limit_rel (step_rel T0 cost (weight (op :: ops)))
    (step arena_store flags max_cost cost op (State a vals ops cps))
    (step tree_store flags max_cost cost op (State tt tvals ops tcps)).
Proof.
  intros Hst Hb Hheap.
  inversion Hst as [? prog args tp ta Hok Hp Hargs|? v t ? vals' ? tvals' ? Hok Hv Hf]; subst.
  { cbn [step]. unfold eval_op. cbn [value_stack mem op_stack checkpoint_stack].
    apply limit_of. eapply rel_mono; [apply eval_pair_sim; try done; constructor|].
    intros x y. apply eval_step_rel; [done|cbn; lia]. }
  inversion Hf as [|? v1 t1 ? vals1 ? tvals1 Hv1 Hf1|? prog args tp ta ? vals1 ? tvals1 Hp Hargs Hf1|
    a0 ? oper toper ? vals1 cps1 tvals1 He Hoper Hf1]; subst; cbn [step].
  - unfold cons_op. cbn [value_stack mem op_stack checkpoint_stack st_pair arena_store tree_store].
    destruct (alloc_cases _ _ _ _ (new_pair_spec a v v1 t t1 Hok Hv Hv1)) as [(e & -> & He)|(n & b & -> & Hn)].
    { left. by exists e. }
    destruct Hn as (He & Hbok & Hdn & Hat & Hht). right. cbn. split_and!; cbn; [done|done| | |lia].
    + constructor; [done..|]. by eapply frames_mono.
    + unfold budget in *. lia.
  - unfold swap_eval_op. cbn [value_stack mem op_stack checkpoint_stack].
    apply limit_of. eapply rel_mono; [apply eval_pair_sim; try done; by constructor|].
    intros x y. apply eval_step_rel; [done|cbn; lia].
  - eapply limit_bind; [apply limit_of, rel_refl|]. intros ? limit ->. by apply apply_op_sim.
Qed.

(** ** Whole runs *)
Definition run_result (x : Z * NodePtr * Arena) (y : Z * SExp * unit) : Prop :=
  let '(c, n, a) := x in let '(c', t, _) := y in c = c' ∧ arena_ok a ∧ den a n t.

Definition run_rel (r1 : option (clvm (Z * NodePtr * Arena))) (r2 : option (clvm (Z * SExp * unit))) : Prop :=
  match r1, r2 with
  | Some m1, Some m2 => limit_rel run_result m1 m2
  | Some m1, None => ∃ e, m1 = Err e ∧ limit_error e
  | None, None => True
  | None, Some _ => False
  end.

(** Enough room for everything a run within [max_cost] can allocate. *)
Definition room (T0 max_cost : Z) : Prop :=
  10 * T0 + max_cost + 40 * MAX_NUM_ATOMS + 40 ≤ 10 * HEAP_LIMIT.

Lemma room_heap T0 max_cost a cost :
  room T0 max_cost → arena_ok a → budget T0 a cost → cost ≤ max_cost → heap_total a + 4 ≤ HEAP_LIMIT.
Proof. intros Hr [_ Ha _ _ _] Hb Hc. unfold room, budget in *. lia. Qed.

Lemma st_rel_mem s ts : st_rel s ts → arena_ok (mem s) ∧ op_stack s = op_stack ts.
Proof. by intros []. Qed.

(** The charge of one round. *)
Definition charge {A} (declared max_cost cost : Z) (x : Z * A) : clvm (Z * A) :=
  let '(c, s) := x in
  c ← c64 (cost + c);
  if max_cost <? c then Err (CostExceeded c declared) else Ok (c, s).

Lemma round_sim T0 declared max_cost cost op a vals ops cps tvals tcps :
  room T0 max_cost → st_rel (State a vals (op :: ops) cps) (State tt tvals (op :: ops) tcps) →
  budget T0 a cost → cost ≤ max_cost →
  limit_rel (λ x y, x.1 = y.1 ∧ st_rel x.2 y.2 ∧ budget T0 (mem x.2) x.1 ∧ x.1 ≤ max_cost ∧
      4 * (max_cost - x.1) + weight (op_stack x.2) < 4 * (max_cost - cost) + weight (op :: ops))
    (step arena_store flags max_cost cost op (State a vals ops cps) ≫= charge declared max_cost cost)
    (step tree_store flags max_cost cost op (State tt tvals ops tcps) ≫= charge declared max_cost cost).
Proof.
  intros Hroom Hst Hb Hc. assert (Hok : arena_ok a) by apply (st_rel_mem _ _ Hst).
  assert (Hheap : heap_total a + 4 ≤ HEAP_LIMIT) by exact (room_heap T0 max_cost a cost Hroom Hok Hb Hc).
  eapply limit_bind; [by apply step_sim|].
  intros [c s] [c' ts] (Heq & H0' & Hst' & Hb' & Hw). cbn [fst snd] in *. subst c'.
  apply limit_of. unfold charge, c64. destruct (chk 64 _) as [c'|e|] eqn:Hchk; cbn [mbind res_bind]; [|done..].
  apply chk_Ok in Hchk as [_ ->]. destruct (Z.ltb_spec max_cost (cost + c)); [done|].
  cbn [clvm_rel fst snd]. split_and!; [done|done|done|lia|lia].
Qed.

Lemma run_loop_op {N Mem CP} (St : store N Mem CP) fuel declared max_cost cost m vals op ops cps :
  run_loop St flags (S fuel) declared max_cost cost (State m vals (op :: ops) cps) =
    match step St flags max_cost cost op (State m vals ops cps) ≫= charge declared max_cost cost with
    | Ok (c, s) => run_loop St flags fuel declared max_cost c s
    | Err e => Some (Err e)
    | Panic => Some Panic
    end.
Proof. done. Qed.

Lemma run_loop_sim T0 declared max_cost fuel cost s ts :
  room T0 max_cost → st_rel s ts → budget T0 (mem s) cost → cost ≤ max_cost →
  run_rel (run_loop arena_store flags fuel declared max_cost cost s)
    (run_loop tree_store flags fuel declared max_cost cost ts).
Proof.
  intros Hroom. revert cost s ts. induction fuel as [|fuel IH]; intros cost s ts Hst Hb Hc;
    destruct s as [a vals [|op ops] cps], ts as [[] tvals tops tcps];
    pose proof (st_rel_mem _ _ Hst) as [Hok Heq]; cbn [op_stack mem] in Heq, Hok, Hb; subst tops.
  1, 3: inversion Hst as [|? v t ? vals' ? tvals' ? _ Hv Hf]; subst; by right.
  - done.
  - rewrite !run_loop_op.
    destruct (round_sim T0 declared max_cost cost op a vals ops cps tvals tcps Hroom Hst Hb Hc)
      as [(e & -> & He)|Hr].
    + destruct (_ ≫= _) as [[c ts]|e'|]; cbn.
      * destruct (run_loop _ _ _ _ _ _ _); [by left; exists e|by exists e].
      * by left; exists e.
      * by left; exists e.
    + destruct (_ ≫= _) as [[c s]|e|]; destruct (_ ≫= _) as [[c' ts]|e'|]; try done; cbn in Hr.
      * destruct Hr as (<- & Hst' & Hb' & Hc' & _). by apply IH.
      * subst. by right.
      * by right.
Qed.

(** Every run ends: the potential falls in every round. *)
Lemma run_loop_total T0 declared max_cost fuel cost s ts :
  room T0 max_cost → st_rel s ts → budget T0 (mem s) cost → cost ≤ max_cost →
  4 * (max_cost - cost) + weight (op_stack s) < Z.of_nat fuel →
  ∃ r, run_loop arena_store flags fuel declared max_cost cost s = Some r.
Proof.
  intros Hroom. revert cost s ts. induction fuel as [|fuel IH]; intros cost s ts Hst Hb Hc Hfuel;
    destruct s as [a vals [|op ops] cps], ts as [[] tvals tops tcps];
    pose proof (st_rel_mem _ _ Hst) as [Hok Heq]; cbn [op_stack mem] in Heq, Hok, Hb, Hfuel; subst tops;
    try (by eexists).
  { pose proof (weight_nonneg (op :: ops)). lia. }
  rewrite run_loop_op.
  destruct (round_sim T0 declared max_cost cost op a vals ops cps tvals tcps Hroom Hst Hb Hc)
    as [(e & -> & He)|Hr]; [by eexists|].
  destruct (_ ≫= _) as [[c s]|e|]; [|by eexists..].
  destruct (_ ≫= _) as [[c' ts]|e'|]; try done. cbn [clvm_rel fst snd] in Hr.
  destruct Hr as (_ & Hst' & Hb' & Hc' & Hw). eapply IH; [done..|]. lia.
Qed.
End refine.
