(* ===== verification/ClvmEval.v ===== *)
(** * A reference semantics of CLVM and its agreement with the runtime

    [eval] is a recursive evaluator on trees, without stacks, arena or
    checkpoints: a path looks up the environment, [(q . x)] is [x], any other
    pair evaluates its operands from the last to the first and applies the
    operator; every step is charged and checked against the budget.  The
    runtime of [runtime.rs] computes the same result and the same cost on
    every program, unless it stops at a consensus limit of the arena. *)
From Stdlib Require Import ZArith Lia String.
From stdpp Require Import base list numbers option strings gmap.
From S2P Require Import Prelude Serialize ClvmNumber ClvmSexp ClvmPath Coin ClvmView ClvmOps ClvmBls ClvmArena ClvmOutcome ClvmRuntime ClvmRefine.

Open Scope Z_scope.

(** A computation that may need more fuel ([None]) or fail. *)
Definition obind {E A B} (m : option (res E A)) (f : A → option (res E B)) : option (res E B) :=
  match m with
  | Some (Ok a) => f a
  | Some (Err e) => Some (Err e)
  | Some Panic => Some Panic
  | None => None
  end.

(** A list that ends in nil. *)
Fixpoint proper_list (s : SExp) : bool :=
  match s with Atom b => sexp_nullp (Atom b) | Pair _ r => proper_list r end.

Section eval.
Context `{BigIntBytes, Sha256, Blst} (flags declared max_cost : Z).

(** The program of an application pays for the application as well. *)
Definition surcharge (applied : bool) (c : Z) : clvm Z :=
  if applied then c64 (c + APPLY_COST) else Ok c.

Definition pay {A} (applied : bool) (cost c : Z) (x : A) : clvm (Z * A) :=
  c ← surcharge applied c; charge declared max_cost cost (c, x).

(** Operands are evaluated from the last to the first. *)
Fixpoint eval_operands (ev : Z → SExp → option (clvm (Z * SExp))) (operands : SExp) (cost : Z) :
    option (clvm (Z * SExp)) :=
  match operands with
  | Atom _ => Some (Ok (cost, NULL_SEXP))
  | Pair f r =>
      obind (eval_operands ev r cost) (λ '(cost, l),
      obind (ev cost f) (λ '(cost, v), Some (Ok (cost, Pair v l))))
  end.

Definition apply (ev : Z → SExp → SExp → option (clvm (Z * SExp))) (op : list Z)
    (operands : SExp) (cost : Z) : option (clvm (Z * SExp)) :=
  if bool_decide (op = apply_kw) then
    match operands with
    | Pair program (Pair args rest) =>
        if sexp_nullp rest then ev cost program args else Some (Err InvalidApplyArgs)
    | _ => Some (Err InvalidApplyArgs)
    end
  else
    Some ('(c, out) ← dialect_op tree_view flags (Atom op) operands (max_cost - cost);
          '(c, t) ← tree_materialize out c;
          charge declared max_cost cost (c, t)).

(** The value and the total cost of [program] in [env], starting from [cost]. *)
Fixpoint eval (fuel : nat) (applied : bool) (cost : Z) (program env : SExp) :
    option (clvm (Z * SExp)) :=
  match fuel with
  | O => None
  | S fuel =>
      match program with
      | Atom path => Some ('(c, t) ← traverse_path tree_view path env; pay applied cost c t)
      | Pair (Pair (Atom op) rest) operands =>
          if sexp_nullp rest then
            obind (Some (pay applied cost APPLY_COST tt)) (λ '(cost, _),
            apply (eval fuel true) op operands cost)
          else Some (Err InvalidSyntax)
      | Pair (Pair (Pair _ _) _) _ => Some (Err InvalidSyntax)
      | Pair (Atom op) operands =>
          if bool_decide (op = quote_kw) then Some (pay applied cost QUOTE_COST operands)
          else if proper_list operands then
            obind (Some (pay applied cost OP_COST tt)) (λ '(cost, _),
            obind (eval_operands (λ cost p, eval fuel false cost p env) operands cost)
              (λ '(cost, l), apply (eval fuel true) op l cost))
          else Some (Err InvalidOperandList)
      end
  end.
End eval.

Section agree.
Context `{BigIntBytes, Sha256, Blst} (flags declared max_cost : Z).
Hypothesis Hmax : max_cost < 2 ^ 64.

Notation tstate := (state SExp unit unit).
Notation loop fuel cost s := (run_loop tree_store flags fuel declared max_cost cost s).
Notation ev := (eval flags declared max_cost).

(** Continue the machine after a round. *)
Definition go (fuel : nat) (m : clvm (Z * tstate)) : option (clvm (Z * SExp * unit)) :=
  match m with
  | Ok (c, s) => loop fuel c s
  | Err e => Some (Err e)
  | Panic => Some Panic
  end.

Lemma loop_go fuel cost vals op ops cps :
  loop (S fuel) cost (State tt vals (op :: ops) cps) =
    go fuel (step tree_store flags max_cost cost op (State tt vals ops cps) ≫=
             charge declared max_cost cost).
Proof. rewrite run_loop_op. by destruct (_ ≫= _) as [[c s]| |]. Qed.

(** What an evaluation leaves on the stacks. *)
Definition push (vals : list SExp) (ops : list Operation) (cps : list unit) (r : clvm (Z * SExp)) :
    clvm (Z * tstate) :=
  '(c, t) ← r; Ok (c, State tt (t :: vals) ops cps).

Definition cost_ok (c : Z) : Prop := 0 ≤ c ≤ max_cost.

Lemma charge_ok {A} cost c (x y : A) d : charge declared max_cost cost (c, x) = Ok (d, y) → cost_ok d ∧ d = cost + c ∧ y = x.
Proof using Type.
  unfold charge. intros Hc. op_inv. unfold uok in *. unfold cost_ok.
  match goal with H : (_ <? _) = false |- _ => apply Z.ltb_ge in H end.
  split_and!; [lia..|done].
Qed.

Lemma charge_0 {A} cost (x : A) : cost_ok cost → charge declared max_cost cost (0, x) = Ok (cost, x).
Proof.
  unfold cost_ok, charge, c64. intros Hc. rewrite chk_ok by (unfold uok; lia). cbn [mbind res_bind].
  rewrite Z.add_0_r, (proj2 (Z.ltb_ge max_cost cost)) by lia. done.
Qed.

(** The machine's version of [pay]. *)
Definition machine_pay (applied : bool) (cost : Z) (m : clvm (Z * tstate)) : clvm (Z * tstate) :=
  '(c, s) ← m; c ← surcharge applied c; charge declared max_cost cost (c, s).

(** [eval] at [fuel] is what the machine does from [eval_pair] on. *)
Definition eval_agrees (fuel : nat) : Prop :=
  ∀ applied cost program env r,
    ev fuel applied cost program env = Some r →
    ∀ vals ops cps, ∃ n, ∀ k,
      go (n + k) (machine_pay applied cost
        (eval_pair tree_store program env (State tt vals ops cps))) =
      go k (push vals ops cps r).

Lemma queue_operands_proper env operands fuel vals ops :
  (spine operands < fuel)%nat →
  if proper_list operands
  then ∃ q, queue_operands tree_view env fuel operands vals ops = Ok q
  else queue_operands tree_view env fuel operands vals ops = Err InvalidOperandList.
Proof.
  revert fuel vals ops. induction operands as [b|f _ r IH]; intros fuel vals ops Hf;
    (destruct fuel; [cbn in Hf; lia|]).
  - cbn. destruct b; cbn; [by eexists|done].
  - cbn in Hf |- *. apply IH. lia.
Qed.

(** Every cost the evaluator returns is within the budget. *)
Lemma obind_Ok {E A B} (m : option (res E A)) (f : A → option (res E B)) b :
  obind m f = Some (Ok b) ↔ ∃ a, m = Some (Ok a) ∧ f a = Some (Ok b).
Proof.
  split; [|by intros (a & -> & Hf)]. destruct m as [[a|e|]|]; cbn; [|done..]. by exists a.
Qed.

Lemma pay_ok {A} applied cost c (x y : A) d : pay declared max_cost applied cost c x = Ok (d, y) → cost_ok d ∧ y = x.
Proof. unfold pay. intros Hp. op_inv. by apply charge_ok in Hp as (? & _ & ->). Qed.

Lemma eval_operands_cost e operands cost c t :
  (∀ cost p c t, e cost p = Some (Ok (c, t)) → cost_ok c) → cost_ok cost →
  eval_operands e operands cost = Some (Ok (c, t)) → cost_ok c.
Proof.
  intros He. revert c t. induction operands as [b|f _ r IH]; intros c t Hc Hr; cbn in Hr; [by simplify_eq|].
  apply obind_Ok in Hr as ([c1 l] & Hr & Hf). apply obind_Ok in Hf as ([c2 v] & Hf & Hx).
  simplify_eq. by eapply He.
Qed.

Lemma apply_cost e op operands cost c t :
  (∀ cost p env c t, e cost p env = Some (Ok (c, t)) → cost_ok c) →
  apply flags declared max_cost e op operands cost = Some (Ok (c, t)) → cost_ok c.
Proof.
  intros He Ha. unfold apply in Ha. case_bool_decide.
  - destruct operands as [|p [|args rest]]; try done. destruct (sexp_nullp rest); [by eapply He|done].
  - apply (inj Some) in Ha. op_inv. by apply charge_ok in Ha as [? _].
Qed.

Lemma eval_cost fuel applied cost program env c t :
  ev fuel applied cost program env = Some (Ok (c, t)) → cost_ok c.
Proof.
  revert applied cost program env c t. induction fuel as [|fuel IH]; intros applied cost program env c t He; [done|].
  cbn [eval] in He. destruct program as [path|[op|[op|? ?] rest] operands]; [| | |done].
  - apply (inj Some) in He. op_inv. by apply pay_ok in He as [? _].
  - case_bool_decide; [by apply (inj Some), pay_ok in He as [? _]|].
    destruct (proper_list operands); [|done].
    apply obind_Ok in He as ([c1 []] & Hp & He). apply (inj Some), pay_ok in Hp as [Hc1 _].
    apply obind_Ok in He as ([c2 l] & Hl & Ha).
    eapply apply_cost; [|exact Ha]. intros *. apply IH.
  - destruct (sexp_nullp rest); [|done]. apply obind_Ok in He as ([c1 []] & Hp & He).
    eapply apply_cost; [|exact He]. intros *. apply IH.
Qed.

Lemma machine_pay_false cost m : machine_pay false cost m = m ≫= charge declared max_cost cost.
Proof. by destruct m as [[c s]| |]. Qed.

Lemma eval_operands_agrees fuel env operands cost r qfuel vals ops cps q :
  eval_agrees fuel → cost_ok cost →
  eval_operands (λ cost p, ev fuel false cost p env) operands cost = Some r →
  queue_operands tree_view env qfuel operands vals ops = Ok q →
  ∃ n, ∀ k, loop (n + k) cost (State tt (NULL_SEXP :: q.1) q.2 cps) = go k (push vals ops cps r).
Proof.
  intros Hev Hcost. revert r qfuel vals ops.
  induction operands as [b|f _ rest IH]; intros r qfuel vals ops Hr Hq;
    (destruct qfuel as [|qfuel]; [done|]); cbn in Hr, Hq.
  - apply (inj Some) in Hr. subst r. exists 0%nat. intros k. destruct b; [|done]. cbn in Hq.
    apply Ok_inj in Hq. by subst q.
  - destruct (eval_operands _ rest cost) as [[[c1 l]|e|]|] eqn:Hrest; try done; cbn in Hr.
    2, 3: apply (inj Some) in Hr; subst r;
      destruct (IH _ qfuel (f :: env :: vals) (OSwapEval :: ops) eq_refl Hq) as [n Hn];
      exists n; intros k; apply Hn.
    destruct (IH _ qfuel (f :: env :: vals) (OSwapEval :: ops) eq_refl Hq) as [n Hn].
    destruct (ev fuel false c1 f env) as [r1|] eqn:He; [|done].
    destruct (Hev false c1 f env r1 He (l :: vals) (OCons :: ops) cps) as [n1 Hn1].
    exists (n + S (n1 + 1))%nat. intros k. rewrite <-Nat.add_assoc, Hn. cbn [push mbind res_bind go Nat.add].
    rewrite loop_go. cbn [step]. unfold swap_eval_op. cbn [value_stack mem op_stack checkpoint_stack].
    rewrite <-Nat.add_assoc, <-machine_pay_false, Hn1. destruct r1 as [[c2 v]|e|]; cbn in Hr;
      apply (inj Some) in Hr; subst r; [|done..].
    cbn [push mbind res_bind go Nat.add]. rewrite loop_go.
    cbn [step cons_op value_stack mem op_stack checkpoint_stack st_pair tree_store mbind res_bind].
    by rewrite charge_0 by (by eapply eval_cost).
Qed.

(** An application on top of the stacks. *)
Lemma apply_agrees fuel op operands cost r vals ops cps :
  eval_agrees fuel → cost_ok cost →
  apply flags declared max_cost (ev fuel true) op operands cost = Some r →
  ∃ n, ∀ k, loop (n + k) cost (State tt (operands :: Atom op :: vals) (OApply :: ops) (tt :: cps)) =
    go k (push vals ops cps r).
Proof.
  intros Hev Hc Ha. unfold cost_ok in Hc.
  assert (Hleft : c64 (max_cost - cost) = Ok (max_cost - cost)) by (apply chk_ok; unfold uok; lia).
  unfold apply in Ha.
  assert (Hround : ∀ k, loop (S k) cost (State tt (operands :: Atom op :: vals) (OApply :: ops) (tt :: cps)) =
    go k (apply_op tree_store flags (max_cost - cost)
            (State tt (operands :: Atom op :: vals) ops (tt :: cps)) ≫= charge declared max_cost cost)).
  { intros k. rewrite loop_go. cbn [step]. by rewrite Hleft. }
  unfold apply_op in Hround.
  cbn [st_view tree_store mem value_stack op_stack checkpoint_stack v_atom tree_view mbind res_bind ok_or tail] in Hround.
  case_bool_decide.
  - destruct operands as [b|p [b|args rest]].
    1, 2: apply (inj Some) in Ha; subst r; exists 1%nat; intros k; apply Hround.
    cbn [arg_count_is next v_kind v_nullp tree_view mbind res_bind ok_or] in Hround.
    destruct (sexp_nullp rest).
    2: { apply (inj Some) in Ha; subst r; exists 1%nat; intros k; apply Hround. }
    destruct (Hev true cost p args r Ha vals ops cps) as [n Hn]. exists (S n). intros k.
    cbn [Nat.add]. rewrite Hround, <-Hn. unfold machine_pay, surcharge.
    destruct (eval_pair _ _ _ _) as [[c s]|e|]; cbn [mbind res_bind]; [|done..].
    by rewrite res_bind_assoc.
  - apply (inj Some) in Ha. subst r. exists 1%nat. intros k. cbn [Nat.add]. rewrite Hround. f_equal.
    destruct (dialect_op _ _ _ _ _) as [[c out]|e|]; cbn [mbind res_bind push]; [|done..].
    assert (release tree_store out (tt :: cps) tt = Ok tt) as ->.
    { unfold release. by destruct (is_self_contained out). }
    cbn [mbind res_bind st_materialize tree_store]. unfold push.
    destruct (tree_materialize out c) as [[c1 t]|e|]; cbn [mbind res_bind]; [|done..].
    unfold charge. destruct (c64 (cost + c1)) as [c2|e|]; cbn [mbind res_bind]; [|done..].
    by destruct (max_cost <? c2).
Qed.

(** ** The evaluator and the machine agree *)
Lemma machine_pay_Ok applied cost c s :
  machine_pay applied cost (Ok (c, s)) =
    ('(d, _) ← pay declared max_cost applied cost c tt; Ok (d, s)).
Proof.
  unfold machine_pay, pay, charge. cbn [mbind res_bind].
  destruct (surcharge applied c) as [c1|e|]; cbn [mbind res_bind]; [|done..].
  destruct (c64 _) as [c2|e|]; cbn [mbind res_bind]; [|done..]. by destruct (max_cost <? c2).
Qed.

Lemma push_pay applied cost c t vals ops cps :
  push vals ops cps (pay declared max_cost applied cost c t) =
    machine_pay applied cost (Ok (c, State tt (t :: vals) ops cps)).
Proof.
  unfold machine_pay, pay, charge, push. cbn [mbind res_bind].
  destruct (surcharge applied c) as [c1|e|]; cbn [mbind res_bind]; [|done..].
  destruct (c64 _) as [c2|e|]; cbn [mbind res_bind]; [|done..]. by destruct (max_cost <? c2).
Qed.

(** Operands, then the application. *)
Lemma operands_apply_agrees fuel op operands env cost r vals ops cps q :
  eval_agrees fuel → cost_ok cost →
  queue_operands tree_view env (S (S (spine operands))) operands (Atom op :: vals) (OApply :: ops) = Ok q →
  obind (eval_operands (λ cost p, ev fuel false cost p env) operands cost)
    (λ '(cost, l), apply flags declared max_cost (ev fuel true) op l cost) = Some r →
  ∃ n, ∀ k, loop (n + k) cost (State tt (NULL_SEXP :: q.1) q.2 (tt :: cps)) = go k (push vals ops cps r).
Proof.
  intros Hev Hc Hq Hr. destruct (eval_operands _ operands cost) as [r1|] eqn:Hl; [|done].
  destruct (eval_operands_agrees fuel env operands cost r1 _ _ _ (tt :: cps) q Hev Hc Hl Hq) as [n Hn].
  destruct r1 as [[c1 l]|e|]; cbn [obind] in Hr.
  - assert (Hc1 : cost_ok c1) by (eapply eval_operands_cost; [|done..]; intros *; apply eval_cost).
    destruct (apply_agrees fuel op l c1 r vals ops cps Hev Hc1 Hr) as [n1 Hn1].
    exists (n + n1)%nat. intros k. by rewrite <-Nat.add_assoc, Hn, <-Hn1.
  - apply (inj Some) in Hr. subst r. by exists n.
  - apply (inj Some) in Hr. subst r. by exists n.
Qed.

Lemma eval_agrees_all fuel : eval_agrees fuel.
Proof.
  induction fuel as [|fuel IH]; intros applied cost program env r Hr vals ops cps; [done|].
  cbn [eval] in Hr. unfold eval_pair. cbn [st_view tree_store mem v_kind tree_view mbind res_bind].
  destruct program as [path|[op|[op|? ?] rest] operands].
  - apply (inj Some) in Hr. subst r. exists 0%nat. intros k. cbn [Nat.add v_atom tree_view expect mbind res_bind value_stack op_stack checkpoint_stack]. f_equal.
    destruct (traverse_path tree_view path env) as [[c t]|e|]; [|done..].
    cbn [mbind res_bind]. by rewrite push_pay.
  - unfold eval_op_atom. cbn [st_view tree_store mem v_atom tree_view mbind res_bind ok_or value_stack op_stack checkpoint_stack st_checkpoint v_fuel].
    case_bool_decide.
    { apply (inj Some) in Hr. subst r. exists 0%nat. intros k. cbn [Nat.add]. by rewrite push_pay. }
    pose proof (queue_operands_proper env operands (S (S (spine operands))) (Atom op :: vals) (OApply :: ops) ltac:(lia)) as Hq.
    destruct (proper_list operands).
    2: { apply (inj Some) in Hr. subst r. exists 0%nat. intros k. cbn [Nat.add]. by rewrite Hq. }
    destruct Hq as [[vals' ops'] Hq]. fold tree_view. rewrite Hq. cbn [mbind res_bind]. rewrite machine_pay_Ok.
    destruct (pay declared max_cost applied cost OP_COST tt) as [[c1 []]|e|] eqn:Hp; cbn [mbind res_bind obind] in *.
    2, 3: apply (inj Some) in Hr; subst r; by exists 0%nat.
    apply pay_ok in Hp as [Hc1 _].
    exact (operands_apply_agrees fuel op operands env c1 r vals ops cps (vals', ops') IH Hc1 Hq Hr).
  - cbn [v_kind v_nullp tree_view mbind res_bind]. destruct (sexp_nullp rest).
    2: { apply (inj Some) in Hr. subst r. by exists 0%nat. }
    rewrite machine_pay_Ok.
    destruct (pay declared max_cost applied cost APPLY_COST tt) as [[c1 []]|e|] eqn:Hp; cbn [mbind res_bind obind] in *.
    2, 3: apply (inj Some) in Hr; subst r; by exists 0%nat.
    apply pay_ok in Hp as [Hc1 _]. by apply (apply_agrees fuel).
  - apply (inj Some) in Hr. subst r. by exists 0%nat.
Qed.
End agree.

(** ** The evaluator is total *)
Section total.
Context `{BigIntBytesOk, Sha256Ok, BlstOk} (flags declared max_cost : Z).

Notation ev := (eval flags declared max_cost).

Lemma tree_materialize_nonneg c o d t :
  out_ok c o → tree_materialize o c = Ok (d, t) → 0 ≤ d.
Proof.
  intros [Hc _] Hm. destruct o; cbn [tree_materialize] in Hm; op_inv; unfold uok in *; lia.
Qed.

Lemma traverse_path_pos path env c t : traverse_path tree_view path env = Ok (c, t) → 1 ≤ c.
Proof.
  unfold traverse_path. cbv zeta. set (c0 := TRAVERSE_BASE_COST + _ + _). intros Ht.
  assert (Hc0 : 1 ≤ c0) by (unfold c0, TRAVERSE_BASE_COST, TRAVERSE_COST_PER_ZERO_BYTE, TRAVERSE_COST_PER_BIT; lia).
  op_inv; [|done].
  apply (path_walk_inv (λ x : Z * SExp, 1 ≤ x.1)) in Ht; [done| |done].
  intros bit [c1 t1] [c2 t2] Hc Hs. unfold traverse_step in Hs. op_inv.
  unfold TRAVERSE_COST_PER_BIT. cbn in *. lia.
Qed.

Lemma pay_more {A} applied cost c (x y : A) d :
  1 ≤ c → pay declared max_cost applied cost c x = Ok (d, y) → cost + 1 ≤ d ≤ max_cost.
Proof.
  unfold pay, surcharge. intros Hc Hp. apply bind_Ok_inv in Hp as (c1 & Hs & Hp).
  assert (1 ≤ c1) by (destruct applied; op_inv; unfold APPLY_COST; lia).
  apply (charge_ok declared max_cost) in Hp as (Hd & -> & _). unfold cost_ok in Hd. lia.
Qed.

Lemma apply_more e op operands cost c t :
  (∀ cost p env c t, e cost p env = Some (Ok (c, t)) → cost ≤ c) →
  apply flags declared max_cost e op operands cost = Some (Ok (c, t)) → cost ≤ c.
Proof.
  intros He Ha. unfold apply in Ha. case_bool_decide.
  - destruct operands as [|p [|args rest]]; try done. destruct (sexp_nullp rest); [by eapply He|done].
  - apply (inj Some) in Ha. apply bind_Ok_inv in Ha as ([c1 o] & Hd & Ha).
    apply bind_Ok_inv in Ha as ([c2 t2] & Hm & Ha). apply dialect_op_ok in Hd.
    apply tree_materialize_nonneg in Hm; [|done]. apply (charge_ok declared max_cost) in Ha as (_ & -> & _). lia.
Qed.

Lemma eval_operands_more e operands cost c t :
  (∀ cost p c t, e cost p = Some (Ok (c, t)) → cost ≤ c) →
  eval_operands e operands cost = Some (Ok (c, t)) → cost ≤ c.
Proof.
  intros He. revert c t. induction operands as [b|f _ r IH]; intros c t Hr; cbn in Hr.
  - by simplify_eq.
  - apply obind_Ok in Hr as ([c1 l] & Hr & Hf). apply obind_Ok in Hf as ([c2 v] & Hf & Hx).
    simplify_eq. apply IH in Hr. apply He in Hf. lia.
Qed.

(** Evaluation only adds to the cost. *)
Lemma eval_more fuel applied cost program env c t :
  ev fuel applied cost program env = Some (Ok (c, t)) → cost ≤ c.
Proof.
  revert applied cost program env c t. induction fuel as [|fuel IH]; intros applied cost program env c t He; [done|].
  cbn [eval] in He. destruct program as [path|[op|[op|? ?] rest] operands]; [| | |done].
  - apply (inj Some) in He. apply bind_Ok_inv in He as ([c1 t1] & Ht & He).
    apply traverse_path_pos in Ht. apply pay_more in He; lia.
  - case_bool_decide; [apply (inj Some), pay_more in He; [lia|done]|].
    destruct (proper_list operands); [|done].
    apply obind_Ok in He as ([c1 []] & Hp & He). apply (inj Some), pay_more in Hp; [|done].
    apply obind_Ok in He as ([c2 l] & Hl & Ha). apply apply_more in Ha; [|intros *; apply IH].
    apply eval_operands_more in Hl; [lia|]. intros *. apply IH.
  - destruct (sexp_nullp rest); [|done]. apply obind_Ok in He as ([c1 []] & Hp & He).
    apply (inj Some), pay_more in Hp; [|done]. apply apply_more in He; [lia|]. intros *. apply IH.
Qed.

Lemma apply_total e op operands cost :
  (∀ p env, ∃ r, e cost p env = Some r) → ∃ r, apply flags declared max_cost e op operands cost = Some r.
Proof.
  intros He. unfold apply. case_bool_decide; [|by eexists].
  destruct operands as [|p [|args rest]]; [by eexists..|]. destruct (sexp_nullp rest); [done|by eexists].
Qed.

Lemma eval_operands_total e operands cost :
  (∀ c p, cost ≤ c ≤ max_cost → ∃ r, e c p = Some r) →
  (∀ c p d t, e c p = Some (Ok (d, t)) → c ≤ d ≤ max_cost) → cost ≤ max_cost →
  ∃ r, eval_operands e operands cost = Some r ∧ ∀ d t, r = Ok (d, t) → cost ≤ d ≤ max_cost.
Proof.
  intros He Hm Hc. induction operands as [b|f _ r IH]; cbn.
  { eexists. split; [done|]. intros d t [= <- _]. lia. }
  destruct IH as (r1 & Hr & Hb). rewrite Hr. destruct r1 as [[c l]|er|]; cbn; [|by eexists..].
  specialize (Hb c l eq_refl). destruct (He c f Hb) as [r2 H2']. rewrite H2'.
  destruct r2 as [[c2 v]|er|]; cbn; [|by eexists..]. apply Hm in H2'.
  eexists. split; [done|]. intros d t [= <- _]. lia.
Qed.

(** Fuel beyond the remaining budget is enough. *)
Lemma eval_total fuel applied cost program env :
  cost ≤ max_cost → max_cost - cost < Z.of_nat fuel → ∃ r, ev fuel applied cost program env = Some r.
Proof.
  revert applied cost program env.
  induction fuel as [|fuel IH]; intros applied cost program env Hc Hf; [lia|].
  cbn [eval]. destruct program as [path|[op|[op|? ?] rest] operands]; [by eexists| | |by eexists].
  - case_bool_decide; [by eexists|]. destruct (proper_list operands); [|by eexists].
    destruct (pay declared max_cost applied cost OP_COST tt) as [[c1 []]|er|] eqn:Hp; cbn [obind]; [|by eexists..].
    apply pay_more in Hp; [|done].
    destruct (eval_operands_total (λ cost p, ev fuel false cost p env) operands c1) as (r & Hr & Hb).
    { intros c p Hle. apply IH; lia. }
    { intros c p d t Hd. pose proof (eval_more _ _ _ _ _ _ _ Hd). apply eval_cost in Hd.
      unfold cost_ok in Hd. lia. }
    { lia. }
    rewrite Hr. destruct r as [[c2 l]|er|]; cbn [obind]; [|by eexists..].
    specialize (Hb c2 l eq_refl). apply apply_total. intros p env'. apply IH; lia.
  - destruct (sexp_nullp rest); [|by eexists].
    destruct (pay declared max_cost applied cost APPLY_COST tt) as [[c1 []]|er|] eqn:Hp; cbn [obind]; [|by eexists..].
    apply pay_more in Hp; [|done]. apply apply_total. intros p env'. apply IH; lia.
Qed.
End total.

(** ** The runtime computes the reference semantics *)
Section run.
Context `{BigIntBytesOk, Sha256Ok, BlstOk}.

Lemma run_loop_more flags fuel k declared max_cost cost s r :
  run_loop tree_store flags fuel declared max_cost cost s = Some r →
  run_loop tree_store flags (fuel + k) declared max_cost cost s = Some r.
Proof.
  revert cost s. induction fuel as [|fuel IH]; intros cost [[] vals [|op ops] cps] Hr.
  1, 3: by destruct k.
  - done.
  - cbn [Nat.add]. rewrite run_loop_op in Hr |- *.
    destruct (_ ≫= _) as [[c s]|e|]; [by apply IH|done..].
Qed.

(** The tree machine, run with any fuel that is enough, is the evaluator. *)
Lemma machine_eval flags declared max_cost fuel efuel program env m r :
  max_cost < 2 ^ 64 →
  run_loop tree_store flags fuel declared max_cost 0 (State tt [env; program] [OEval] []) = Some m →
  eval flags declared max_cost efuel false 0 program env = Some r →
  m = ('(c, t) ← r; Ok (c, t, tt)).
Proof.
  intros Hmax Hm Hr.
  destruct (eval_agrees_all flags declared max_cost Hmax efuel false 0 program env r Hr [] [] []) as [n Hn].
  apply (run_loop_more flags fuel (S n)) in Hm.
  replace (fuel + S n)%nat with (S (n + fuel))%nat in Hm by lia.
  rewrite loop_go in Hm. cbn [step] in Hm. unfold eval_op in Hm.
  cbn [value_stack mem op_stack checkpoint_stack] in Hm.
  rewrite <-machine_pay_false, Hn in Hm. destruct r as [[c t]|e|]; cbn in Hm |- *; [|congruence..].
  destruct fuel; cbn in Hm; congruence.
Qed.

(** The heap a program and its arguments take. *)
Definition input_bytes (program args : SExp) : Z := 1 + sexp_bytes program + sexp_bytes args.

(** The node and the arena of a run against the value of the program. *)
Definition run_node_rel (x : Z * NodePtr * Arena) (y : Z * SExp) : Prop :=
  let '(c, n, a) := x in c = y.1 ∧ arena_ok a ∧ den a n y.2.

(** The start of a run: both trees imported, or a limit reached. *)
Lemma import_both program args :
  sexp_ok program → sexp_ok args →
  (∃ e, ('(p, a) ← import program arena_reset; '(n, a) ← import args a; Ok (p, n, a)) = Err e ∧
     limit_error e) ∨
  (∃ p n a, ('(p, a) ← import program arena_reset; '(n, a) ← import args a; Ok (p, n, a)) = Ok (p, n, a) ∧
     arena_ok a ∧ den a p program ∧ den a n args ∧ budget (input_bytes program args) a 0).
Proof.
  intros Hp Ha.
  destruct (alloc_cases _ _ _ _ (import_spec program arena_reset arena_reset_ok Hp))
    as [(e & -> & He)|(p & a & -> & Hpa)]; [left; by exists e|]. cbn in Hpa.
  destruct Hpa as (_ & Hok & Hd & Hat & Hht). cbn [mbind res_bind].
  destruct (alloc_cases _ _ _ _ (import_spec args a Hok Ha)) as [(e & -> & He)|(n & b & -> & Hnb)];
    [left; by exists e|]. cbn in Hnb. destruct Hnb as (He & Hbok & Hdn & Hbat & Hbht).
  right. exists p, n, b. split_and!; [done|done|by eapply den_mono|done|].
  unfold budget, input_bytes. change (heap_total arena_reset) with 1 in Hht.
  change (atoms_total arena_reset) with 2 in *. lia.
Qed.

Lemma run_in_arena_spec flags fuel max_cost program args :
  let mc := effective_max_cost max_cost in
  0 ≤ max_cost < 2 ^ 64 → sexp_ok program → sexp_ok args →
  room (input_bytes program args) mc → 4 * mc < Z.of_nat fuel →
  ∃ m r, run_in_arena flags fuel max_cost program args = Some m ∧
    eval flags max_cost mc (S (Z.to_nat mc)) false 0 program args = Some r ∧
    limit_rel run_node_rel m r.
Proof.
  intros mc Hmax Hp Ha Hroom Hfuel.
  assert (Hmc : 0 ≤ mc < 2 ^ 64).
  { unfold mc, effective_max_cost, u64_max. destruct (max_cost =? 0); lia. }
  destruct (eval_total flags max_cost mc (S (Z.to_nat mc)) false 0 program args) as [r Hr]; [lia..|].
  unfold run_in_arena. fold mc.
  destruct (import_both program args Hp Ha) as [(e & -> & He)|(p & n & a & -> & Hok & Hdp & Hdn & Hb)].
  { exists (Err e), r. split_and!; [done..|]. left. by exists e. }
  assert (Hst : st_rel (State a [n; p] [OEval] []) (State tt [args; program] [OEval] [])) by (by constructor).
  destruct (run_loop_total flags (input_bytes program args) max_cost mc fuel 0 _ _ Hroom Hst Hb) as [m Hm];
    [lia|cbn [weight op_weight op_stack]; lia|].
  exists m, r. split_and!; [done..|].
  pose proof (run_loop_sim flags (input_bytes program args) max_cost mc fuel 0 _ _ Hroom Hst Hb ltac:(lia)) as Hs.
  rewrite Hm in Hs. unfold run_rel in Hs.
  destruct (run_loop tree_store flags fuel max_cost mc 0 _) as [m2|] eqn:Hm2; [|by left].
  pose proof (machine_eval flags max_cost mc fuel _ _ _ _ _ (proj2 Hmc) Hm2 Hr) as ->.
  destruct Hs as [Hs|Hs]; [by left|right].
  destruct m as [[[c node] b]|e|], r as [[c' t]|e'|]; try done.
Qed.
End run.

(** C1: [ClvmRuntime::run_in_arena] implements the reference semantics.  On
    any program and arguments, within a budget whose allocations fit the
    arena, the machine ends within four rounds per unit of cost; unless it
    stops at a consensus limit of the arena it returns the cost and the error
    or value of the recursive evaluator, never panics where that does not, and
    leaves an arena within its limits in which the result denotes the value. *)
Theorem run_in_arena_refines `{BigIntBytesOk, Sha256Ok, BlstOk} flags fuel max_cost program args :
  let mc := effective_max_cost max_cost in
  0 ≤ max_cost < 2 ^ 64 → sexp_ok program → sexp_ok args →
  room (input_bytes program args) mc → 4 * mc < Z.of_nat fuel →
  ∃ m r, run_in_arena flags fuel max_cost program args = Some m ∧
    eval flags max_cost mc (S (Z.to_nat mc)) false 0 program args = Some r ∧
    limit_rel run_node_rel m r.
Proof. apply run_in_arena_spec. Qed.

Lemma run_spec `{BigIntBytesOk, Sha256Ok, BlstOk} flags fuel export_fuel max_cost program args :
  let mc := effective_max_cost max_cost in
  0 ≤ max_cost < 2 ^ 64 → sexp_ok program → sexp_ok args →
  room (input_bytes program args) mc → 4 * mc < Z.of_nat fuel →
  ∃ r, eval flags max_cost mc (S (Z.to_nat mc)) false 0 program args = Some r ∧
    ((∀ c t, r = Ok (c, t) → (tree_size t ≤ export_fuel)%nat) →
     ∃ m, run flags fuel export_fuel max_cost program args = Some m ∧ limit_rel eq m r).
Proof.
  intros mc Hmax Hp Ha Hroom Hfuel.
  destruct (run_in_arena_spec flags fuel max_cost program args Hmax Hp Ha Hroom Hfuel) as (m & r & Hm & Hr & Hrel).
  exists r. split; [done|]. intros Hex. unfold run. rewrite Hm. cbn [mbind option_bind].
  eexists. split; [done|]. destruct Hrel as [(e & -> & He)|Hrel]; [left; by exists e|right].
  destruct m as [[[c n] a]|e|], r as [[c' t]|e'|]; try done.
  destruct Hrel as (Hc & _ & Hd). cbn in Hc, Hd |- *. subst c'.
  by rewrite (export_spec a n t) by eauto.
Qed.


Definition test_program : SExp :=
  Pair (Atom [16]) (Pair (Pair (Atom [1]) (Atom [2])) (Pair (Atom [1]) (Atom []))).

(** A concrete [blst]: points are their encodings, every check passes. *)
Definition toy_blst : Blst := {|
  blst_p1 := list Z; blst_p1_affine := list Z; blst_p2 := list Z; blst_p2_affine := list Z;
  blst_scalar := list Z; blst_fp12 := unit; blst_pairing := unit;
  p1_default := []; p1_affine_default := []; p2_default := [];
  blst_scalar_from_be_bytes := id; blst_p1_generator := [];
  blst_p1_mult p _ _ := p; blst_p1_uncompress b := Some b; blst_p1_affine_in_g1 _ := true;
  blst_p1_add_or_double_affine p _ := p; blst_p1_add_or_double p _ := p; blst_p1_cneg p _ := p;
  blst_p1_from_affine := id; blst_p1_to_affine := id;
  blst_p1_compress _ := replicate 48 0; blst_hash_to_g1 m _ _ := m;
  blst_p2_mult p _ _ := p; blst_p2_uncompress b := Some b; blst_p2_from_affine := id;
  blst_p2_to_affine := id; blst_p2_is_inf _ := false; blst_p2_in_g2 _ := true;
  blst_p2_add_or_double p _ := p; blst_p2_cneg p _ := p; blst_p2_compress _ := replicate 96 0;
  blst_hash_to_g2 m _ _ := m; blst_aggregated_in_g2 _ := tt; blst_pairing_init _ _ := tt;
  blst_pairing_raw_aggregate _ _ _ := tt; blst_pairing_aggregate_pk_in_g1 _ _ _ _ _ := Some tt;
  blst_pairing_commit _ := tt; blst_pairing_finalverify _ _ := true;
|}.
#[global] Instance toy_blst_ok : @BlstOk toy_blst.
Proof. by split. Qed.

(** [(+ (q . 2) 1)] in the environment 3 is 5, and costs what the machine
    charges for it. *)
Lemma run_in_arena_refines_witness :
  (∃ m r,
    @run_in_arena bigint_ref toy_hash toy_blst 0 4001 1000 test_program (Atom [3]) = Some m ∧
    @eval bigint_ref toy_hash toy_blst 0 1000 1000 (S (Z.to_nat 1000)) false 0 test_program (Atom [3]) = Some r ∧
    limit_rel run_node_rel m r).
Proof.
  apply (@run_in_arena_refines bigint_ref bigint_ref_ok toy_hash toy_hash_ok toy_blst toy_blst_ok
    0 4001 1000 test_program (Atom [3])).
  - lia.
  - cbn. repeat split; apply bytes_okb_spec; reflexivity.
  - apply bytes_okb_spec. reflexivity.
  - vm_compute. discriminate.
  - vm_compute. reflexivity.
Defined.

