(* ===== verification/ClvmCurry.v ===== *)
(** * Running curried programs

    [curry] of [core/src/clvm/curry_utils.rs] against the evaluator: a curried
    program runs the module with the curried arguments put before the
    environment, at a fixed price per argument. *)
From Stdlib Require Import ZArith Lia.
From stdpp Require Import base list numbers option.
From S2P Require Import Prelude Serialize ClvmNumber ClvmSexp ClvmPath Coin ClvmView ClvmOps ClvmBls ClvmArena ClvmOutcome ClvmRuntime ClvmRefine ClvmEval.

Open Scope Z_scope.

(** The argument expression [curry] builds. *)
Fixpoint curried_args (args : list SExp) : SExp :=
  match args with
  | [] => Atom [1]
  | arg :: args =>
      Pair (Atom [4]) (Pair (Pair (Atom [1]) arg) (Pair (curried_args args) NULL_SEXP))
  end.

Lemma curry_shape program args :
  curry program args =
    Pair (Atom [2]) (Pair (Pair (Atom [1]) program) (Pair (curried_args args) NULL_SEXP)).
Proof.
  unfold curry. cbn zeta.
  assert (foldl (λ fixed_args arg, sexp_from_list [sexp_int 4; sexp_cons (sexp_int 1) arg; fixed_args])
    (sexp_int 1) (rev args) = curried_args args) as ->; [|done].
  induction args as [|arg args IH]; [done|].
  cbn [rev curried_args]. rewrite foldl_app. cbn [foldl]. by rewrite IH.
Qed.

(** The price of building the environment of [n] curried arguments. *)
Definition curried_args_cost (n : nat) : Z := 44 + 71 * Z.of_nat n.
Definition curry_cost (n : nat) : Z := OP_COST + curried_args_cost n + QUOTE_COST.

Section curry.
Context `{BigIntBytes, Sha256, Blst} (flags declared max_cost : Z).
Hypothesis Hmax : max_cost < 2 ^ 64.
Notation ev := (eval flags declared max_cost).

Lemma pay_within {A} cost c (x : A) :
  0 ≤ cost → 0 ≤ c → cost + c ≤ max_cost → pay declared max_cost false cost c x = Ok (cost + c, x).
Proof.
  intros Hcost Hc Hle. unfold pay, surcharge, charge. cbn [mbind res_bind].
  unfold c64. rewrite chk_ok by (unfold uok; lia). cbn [mbind res_bind].
  by rewrite (proj2 (Z.ltb_ge max_cost _)) by lia.
Qed.

Lemma eval_quote fuel cost x env :
  0 ≤ cost → cost + QUOTE_COST ≤ max_cost →
  ev (S fuel) false cost (Pair (Atom [1]) x) env = Some (Ok (cost + QUOTE_COST, x)).
Proof.
  intros Hcost Hle. cbn [eval]. rewrite bool_decide_eq_true_2 by done.
  by rewrite pay_within by (done || unfold QUOTE_COST; lia).
Qed.

Lemma eval_curried_args fuel cost args env :
  0 ≤ cost → cost + curried_args_cost (length args) ≤ max_cost → (length args < fuel)%nat →
  ev fuel false cost (curried_args args) env =
    Some (Ok (cost + curried_args_cost (length args), foldr Pair env args)).
Proof.
  revert fuel cost. induction args as [|arg args IH]; intros fuel cost Hcost Hle Hf;
    (destruct fuel as [|fuel]; [cbn in Hf; lia|]); unfold curried_args_cost in *; cbn [length] in *.
  - cbn [eval curried_args]. change (traverse_path tree_view [1] env) with (@Ok ClvmError _ (44, env)).
    cbn [mbind res_bind]. rewrite pay_within by lia. do 3 f_equal.
  - cbn [eval curried_args]. rewrite bool_decide_eq_false_2 by done. cbn [proper_list sexp_nullp].
    change (sexp_nullp NULL_SEXP) with true. cbn iota. unfold OP_COST.
    rewrite pay_within by lia. cbn [obind eval_operands NULL_SEXP].
    rewrite IH by lia. cbn [obind].
    destruct fuel as [|fuel]; [lia|].
    rewrite eval_quote by (unfold QUOTE_COST; lia). cbn [obind]. unfold apply.
    rewrite bool_decide_eq_false_2 by done.
    change (dialect_op tree_view flags (Atom [4]) (Pair arg (Pair (foldr Pair env args) NULL_SEXP))
      (max_cost - (cost + 1 + (44 + 71 * Z.of_nat (length args)) + QUOTE_COST)))
      with (@Ok ClvmError _ (CONS_COST, @OPair SExp arg (foldr Pair env args))).
    cbn [mbind res_bind tree_materialize]. unfold charge. unfold CONS_COST, QUOTE_COST, c64.
    rewrite chk_ok by (unfold uok; lia). cbn [mbind res_bind].
    rewrite (proj2 (Z.ltb_ge max_cost _)) by lia. cbn [foldr]. do 3 f_equal. lia.
Qed.

(** running a curried program within the budget runs the module in the
    environment with the curried arguments before the given one, after paying
    65 and 71 per argument. *)
Theorem curry_eval fuel cost program args env :
  0 ≤ cost → cost + curry_cost (length args) ≤ max_cost → (length args < fuel)%nat →
  ev (S fuel) false cost (curry program args) env =
    ev fuel true (cost + curry_cost (length args)) program (foldr Pair env args).
Proof.
  intros Hcost Hle Hf. rewrite curry_shape. unfold curry_cost, OP_COST, QUOTE_COST in *.
  assert (0 ≤ curried_args_cost (length args)) by (unfold curried_args_cost; lia).
  cbn [eval]. rewrite bool_decide_eq_false_2 by done. cbn [proper_list].
  change (sexp_nullp NULL_SEXP) with true. cbn iota. unfold OP_COST.
  rewrite pay_within by lia. cbn [obind eval_operands NULL_SEXP].
  rewrite eval_curried_args by lia. cbn [obind]. destruct fuel as [|fuel]; [lia|].
  rewrite eval_quote by (unfold QUOTE_COST; lia). cbn [obind]. unfold apply.
  rewrite bool_decide_eq_true_2 by done. change (sexp_nullp NULL_SEXP) with true. cbn iota.
  unfold QUOTE_COST. f_equal. lia.
Qed.
End curry.

(** The module [2] (its first argument) with [5] curried in. *)
Lemma curry_eval_witness :
  @eval bigint_ref toy_hash toy_blst 0 1000 1000 10 false 0 (curry (Atom [2]) [Atom [5]]) NULL_SEXP =
  @eval bigint_ref toy_hash toy_blst 0 1000 1000 9 true (curry_cost 1) (Atom [2]) (Pair (Atom [5]) NULL_SEXP).
Proof.
  apply (@curry_eval bigint_ref toy_hash toy_blst 0 1000 1000 eq_refl 9 0 (Atom [2]) [Atom [5]] NULL_SEXP);
    [lia|vm_compute; congruence|cbn; lia].
Defined.
