(* ===== verification/ClvmSpecs.v ===== *)
(** * What the operators compute

    The operators on lists of atoms, against the integers and byte strings
    they stand for: sums, products, floored division and its documented
    exception, substrings and concatenation, the boolean operators with the
    print convention of [op_all], and the price of unknown operators. *)
From Stdlib Require Import ZArith Lia String.
From stdpp Require Import base list numbers option strings.
From S2P Require Import Prelude Serialize ClvmNumber ClvmSexp Coin ClvmView ClvmOps ClvmBls ClvmArena ClvmOutcome.

Open Scope Z_scope.

(** ** Argument lists *)
Fixpoint foldm {A St} (body : St → A → clvm St) (l : list A) (s : St) : clvm St :=
  match l with
  | [] => Ok s
  | x :: l => s ← body s x; foldm body l s
  end.

Lemma cursor_loop_iter `{BigIntBytes} {St} (body : St → SExp → clvm St) args fuel s :
  (S (spine args) < fuel)%nat →
  cursor_loop tree_view body fuel (ArgCursor_new args) s = foldm body (sexp_iter args) s.
Proof.
  revert fuel s. induction args as [b|f _ r IH]; intros fuel s Hf; (destruct fuel as [|fuel]; [cbn in Hf; lia|]);
    cbn [cursor_loop]; unfold cursor_next; cbn [cursor_done ArgCursor_new cur v_kind tree_view mbind res_bind].
  - unfold non_nil. cbn [v_nullp tree_view mbind res_bind]. destruct b as [|x b]; cbn; [done|].
    destruct (body s (Atom (x :: b))); cbn; [|done..]. by destruct fuel; [cbn in Hf; lia|].
  - cbn [sexp_iter foldm spine] in *. destruct (body s f); cbn; [|done..]. apply IH. lia.
Qed.

Lemma for_args_iter `{BigIntBytes} {St} (body : St → SExp → clvm St) args s :
  for_args tree_view body args s = foldm body (sexp_iter args) s.
Proof. apply cursor_loop_iter. cbn. lia. Qed.

(** the cursor over an argument list in the arena visits exactly the
    trees the iterator [SExpIter] yields on the list it denotes, improper
    tails included: a loop over the cursor is the fold over the iterator. *)
Theorem arg_cursor_iter `{BigIntBytesOk} {St} (a : Arena) (n : NodePtr) (t : SExp)
    (body : St → NodePtr → clvm St) (tbody : St → SExp → clvm St) (s : St) :
  den a n t → (∀ s m u, den a m u → body s m = tbody s u) →
  for_args (arena_view a) body n s = foldm tbody (sexp_iter t) s.
Proof.
  intros Hd Hbody. rewrite <-for_args_iter.
  assert (Hr : clvm_rel eq (for_args (arena_view a) body n s) (for_args tree_view tbody t s)).
  { apply (for_args_sim _ (den a) eq); [|done|done]. intros s1 s2 m u -> Hu.
    rewrite (Hbody s2 m u Hu). apply rel_refl. }
  destruct (for_args (arena_view a) body n s), (for_args tree_view tbody t s); cbn in Hr; try done; congruence.
Qed.

Lemma arg_cursor_iter_witness :
  for_args (@arena_view bigint_ref arena_reset) (λ s m, Ok (s + 1)) ONE 0 =
  foldm (λ s u, Ok (s + 1)) (sexp_iter ONE_SEXP) 0.
Proof.
  apply (@arg_cursor_iter bigint_ref bigint_ref_ok Z arena_reset ONE ONE_SEXP).
  - apply den_ONE.
  - intros s m u _. reflexivity.
Defined.

(** ** Arithmetic *)
Definition sum_values (bs : list (list Z)) : Z := foldr (λ b n, atom_value b + n) 0 bs.
(** The first integer less the others. *)
Definition diff_values (bs : list (list Z)) : Z :=
  match bs with [] => 0 | b :: bs => atom_value b - sum_values bs end.
Definition product_values (bs : list (list Z)) : Z := foldr (λ b n, atom_value b * n) 1 bs.

Section arith.
Context `{BigIntBytesOk}.

Lemma number_with_len_atom b : number_with_len tree_view (Atom b) = Ok (number_of_atom b, zlen b).
Proof. done. Qed.

(** The cost of [+] and [-] on a list of atoms. *)
Definition arith_cost (bs : list (list Z)) : Z :=
  ARITH_BASE_COST + ARITH_COST_PER_ARG * zlen bs + ARITH_COST_PER_BYTE * zlen (List.concat bs).

(** One argument of [+] or [-]: the charges and the new total [f total n]. *)
Definition arith_step {St} (max_cost : Z) (f : St → SExpNumber → St) (s : Z * Z * St) (x : SExp) :
    clvm (Z * Z * St) :=
  let '(cost, byte_count, total) := s in
  cost ← c64 (cost + ARITH_COST_PER_ARG);
  c ← c64 (cost + byte_count * ARITH_COST_PER_BYTE);
  check_cost c max_cost;;
  '(n, len) ← number_with_len tree_view x;
  byte_count ← c64 (byte_count + len);
  Ok (cost, byte_count, f total n).

Lemma arith_step_ok {St} max_cost (f : St → SExpNumber → St) cost n total b :
  0 ≤ cost → 0 ≤ n → max_cost < 2 ^ 64 →
  cost + ARITH_COST_PER_ARG + ARITH_COST_PER_BYTE * (n + zlen b) ≤ max_cost →
  arith_step max_cost f (cost, n, total) (Atom b) =
    Ok (cost + ARITH_COST_PER_ARG, n + zlen b, f total (number_of_atom b)).
Proof.
  unfold arith_step, c64, ARITH_COST_PER_ARG, ARITH_COST_PER_BYTE. intros Hc Hn Hmax Hlim.
  pose proof (zlen_nonneg b).
  rewrite (chk_ok 64 (cost + 320)) by (unfold uok; lia). cbn [mbind res_bind].
  rewrite (chk_ok 64 (cost + 320 + n * 3)) by (unfold uok; lia). cbn [mbind res_bind].
  unfold check_cost. rewrite (proj2 (Z.ltb_ge max_cost _)) by lia. cbn [mbind res_bind].
  rewrite number_with_len_atom. cbn [mbind res_bind].
  by rewrite (chk_ok 64 (n + zlen b)) by (unfold uok; lia).
Qed.

Lemma arith_fold {St} max_cost (f : St → SExpNumber → St) bs cost n total :
  0 ≤ cost → 0 ≤ n → max_cost < 2 ^ 64 →
  cost + ARITH_COST_PER_ARG * zlen bs + ARITH_COST_PER_BYTE * (n + zlen (List.concat bs)) ≤ max_cost →
  foldm (arith_step max_cost f) (Atom <$> bs) (cost, n, total) =
    Ok (cost + ARITH_COST_PER_ARG * zlen bs, n + zlen (List.concat bs),
        foldl (λ t b, f t (number_of_atom b)) total bs).
Proof.
  revert cost n total.
  induction bs as [|b bs IH]; intros cost n total Hc Hn Hmax Hlim.
  { cbn. by rewrite !Z.add_0_r. }
  cbn [List.concat] in *. rewrite zlen_cons, zlen_app in *.
  pose proof (zlen_nonneg b). pose proof (zlen_nonneg bs). pose proof (zlen_nonneg (List.concat bs)).
  cbn [fmap list_fmap foldm foldl].
  rewrite arith_step_ok by (unfold ARITH_COST_PER_ARG, ARITH_COST_PER_BYTE in *; lia). cbn [mbind res_bind].
  rewrite IH by (unfold ARITH_COST_PER_ARG, ARITH_COST_PER_BYTE in *; lia). do 3 f_equal; lia.
Qed.

Lemma foldm_ext {A St} (f g : St → A → clvm St) l s :
  (∀ s x, f s x = g s x) → foldm f l s = foldm g l s.
Proof.
  intros Hfg. revert s. induction l as [|x l IH]; intros s; [done|]. cbn. rewrite Hfg.
  destruct (g s x); cbn; [apply IH|done..].
Qed.

Lemma foldm_map {A St St'} (h : St → St') (f : St → A → clvm St) (g : St' → A → clvm St') l s :
  (∀ s x, g (h s) x = s' ← f s x; Ok (h s')) → foldm g l (h s) = s' ← foldm f l s; Ok (h s').
Proof.
  intros Hfg. revert s. induction l as [|x l IH]; intros s; [done|]. cbn. rewrite Hfg.
  destruct (f s x); cbn; [apply IH|done..].
Qed.

Lemma fold_values op bs total :
  let num_op l r := num_binop op (λ l r, i128_checked (op l r)) l r in
  number_ok total → Forall bytes_ok bs →
  number_ok (foldl (λ t b, num_op t (number_of_atom b)) total bs) ∧
  num_value (foldl (λ t b, num_op t (number_of_atom b)) total bs) =
    foldl op (num_value total) (atom_value <$> bs).
Proof.
  intros num_op. revert total. induction bs as [|b bs IH]; intros total Ht Hbs; [done|].
  apply Forall_cons in Hbs as [Hb Hbs]. destruct (number_of_atom_spec b Hb) as [Hno Hnv].
  destruct (num_binop_spec op total (number_of_atom b)) as [Hv Ho].
  destruct (IH (num_op total (number_of_atom b)) Ho Hbs) as [Hio Hiv].
  split; [exact Hio|]. cbn [foldl fmap list_fmap]. etrans; [exact Hiv|].
  f_equal. etrans; [exact Hv|]. by rewrite Hnv.
Qed.

Lemma foldl_sum z bs : foldl Z.add z (atom_value <$> bs) = z + sum_values bs.
Proof.
  unfold sum_values. revert z. induction bs as [|b bs IH]; intros z; cbn [fmap list_fmap foldl foldr]; [lia|].
  rewrite IH. lia.
Qed.

Lemma foldl_diff z bs : foldl Z.sub z (atom_value <$> bs) = z - sum_values bs.
Proof.
  unfold sum_values. revert z. induction bs as [|b bs IH]; intros z; cbn [fmap list_fmap foldl foldr]; [lia|].
  rewrite IH. lia.
Qed.

(** [Number n] is written as the canonical atom of the integer [z]. *)
Definition writes (n : SExpNumber) (z : Z) : Prop :=
  bytes_ok (number_to_atom n) ∧ canonb (number_to_atom n) = true ∧ atom_value (number_to_atom n) = z.

Lemma writes_ok n z : number_ok n → num_value n = z → writes n z.
Proof. intros Hok <-. by apply number_to_atom_spec. Qed.

Lemma arith_finish bs max_cost (n : SExpNumber) :
  arith_cost bs ≤ max_cost < 2 ^ 64 →
  (cost ← c64 (ARITH_BASE_COST + ARITH_COST_PER_ARG * zlen bs +
               (0 + zlen (List.concat bs)) * ARITH_COST_PER_BYTE); malloc_number (N:=SExp) cost n) =
    Ok (arith_cost bs, Number n).
Proof.
  unfold arith_cost, ARITH_BASE_COST, ARITH_COST_PER_ARG, ARITH_COST_PER_BYTE. intros Hmax.
  pose proof (zlen_nonneg (List.concat bs)). pose proof (zlen_nonneg bs).
  unfold c64. rewrite chk_ok by (unfold uok; lia). cbn [mbind res_bind]. unfold malloc_number.
  do 2 f_equal. lia.
Qed.

Lemma arith_fold_base {St} max_cost (f : St → SExpNumber → St) bs total :
  arith_cost bs ≤ max_cost < 2 ^ 64 →
  foldm (arith_step max_cost f) (Atom <$> bs) (ARITH_BASE_COST, 0, total) =
    Ok (ARITH_BASE_COST + ARITH_COST_PER_ARG * zlen bs, 0 + zlen (List.concat bs),
        foldl (λ t b, f t (number_of_atom b)) total bs).
Proof.
  unfold arith_cost. intros Hmax. apply arith_fold; [done|done|lia|lia].
Qed.

(** [op_add] on a list of atoms within the budget costs 99, 320 per
    argument and three per byte, and its result is written as the canonical
    atom of the sum of the arguments' integers. *)
Theorem op_add_correct bs args max_cost :
  Forall bytes_ok bs → sexp_iter args = Atom <$> bs → arith_cost bs ≤ max_cost < 2 ^ 64 →
  ∃ n, op_add tree_view args max_cost = Ok (arith_cost bs, Number n) ∧ writes n (sum_values bs).
Proof.
  intros Hbs Hit Hmax. unfold op_add. rewrite for_args_iter, Hit.
  destruct (fold_values Z.add bs (I128 0)) as [Hok Hv]; [vm_compute; intuition congruence|done|].
  eexists. split; [|apply writes_ok; [exact Hok|rewrite Hv; apply foldl_sum]].
  rewrite (foldm_ext _ (arith_step max_cost num_add)) by by intros [[c k] t] x.
  rewrite arith_fold_base by done. cbn [mbind res_bind]. by rewrite (arith_finish bs max_cost).
Qed.

Definition sub_step (s : bool * SExpNumber) (n : SExpNumber) : bool * SExpNumber :=
  (false, if s.1 then n else num_sub s.2 n).

Lemma sub_fold bs total :
  foldl (λ t b, sub_step t (number_of_atom b)) (false, total) bs =
    (false, foldl (λ t b, num_sub t (number_of_atom b)) total bs).
Proof. revert total. induction bs as [|b bs IH]; intros total; [done|]. apply IH. Qed.

(** [op_subtract] costs what [op_add] does, and its result is written as
    the canonical atom of the first argument's integer less the others' (zero
    for no argument). *)
Theorem op_subtract_correct bs args max_cost :
  Forall bytes_ok bs → sexp_iter args = Atom <$> bs → arith_cost bs ≤ max_cost < 2 ^ 64 →
  ∃ n, op_subtract tree_view args max_cost = Ok (arith_cost bs, Number n) ∧ writes n (diff_values bs).
Proof.
  intros Hbs Hit Hmax. unfold op_subtract. rewrite for_args_iter, Hit.
  set (h := λ '(c, k, (fi, t)), (c, k, fi, t) : Z * Z * bool * SExpNumber).
  change (ARITH_BASE_COST, 0, true, I128 0) with (h (ARITH_BASE_COST, 0, (true, I128 0))).
  rewrite (foldm_map h (arith_step max_cost sub_step)); cycle 1.
  { intros [[c k] [fi t]] x. unfold arith_step. cbn [h mbind res_bind].
    destruct (c64 (c + _)) as [c1| |]; cbn [mbind res_bind]; [|done..].
    destruct (c64 _) as [c2| |]; cbn [mbind res_bind]; [|done..].
    destruct (check_cost _ _); cbn [mbind res_bind]; [|done..].
    destruct (number_with_len tree_view x) as [[n l]| |]; cbn [mbind res_bind]; [|done..].
    by destruct (c64 (k + l)); cbn; [destruct fi|..]. }
  rewrite arith_fold_base by done. cbn [mbind res_bind].
  destruct bs as [|b bs].
  - eexists. split; [apply (arith_finish [] max_cost (I128 0)); exact Hmax|].
    apply writes_ok; [vm_compute; intuition congruence|done].
  - apply Forall_cons in Hbs as [Hb Hbs]. destruct (number_of_atom_spec b Hb) as [Hno Hnv].
    destruct (fold_values Z.sub bs (number_of_atom b) Hno Hbs) as [Hok Hv].
    cbn [foldl]. unfold sub_step at 2. cbn [fst]. rewrite sub_fold. cbn [h].
    eexists. split; [by apply (arith_finish (b :: bs) max_cost)|].
    apply writes_ok; [exact Hok|]. etrans; [exact Hv|]. by rewrite foldl_diff, Hnv.
Qed.

(** The arguments [(a b)] of a binary operator. *)
Definition two_args (a b : list Z) : SExp := Pair (Atom a) (Pair (Atom b) NULL_SEXP).

Lemma two_ints_args a b name :
  two_ints tree_view (two_args a b) name =
    Ok ((number_of_atom a, zlen a), (number_of_atom b, zlen b)).
Proof. done. Qed.

Lemma bigint_sign_zero z : bool_decide (bigint_sign z = NoSign) = (z =? 0).
Proof. unfold bigint_sign. destruct (Z.eqb_spec z 0), (0 <? z); by apply bool_decide_ext || done. Qed.

(** What [op_div] returns: the floor, but zero where the floor of an inexact
    quotient is [-1]. *)
Definition div_result (x y : Z) : Z :=
  if (x / y =? -1) && negb (x mod y =? 0) then 0 else x / y.

Lemma div_fixup q r x y :
  number_ok q → number_ok r → num_value q = x / y → num_value r = x mod y →
  writes (if num_eqb q (I128 (-1)) && negb (num_is_zero r) then num_add q (I128 1) else q)
    (div_result x y).
Proof.
  intros Hqo Hro Hq Hr. assert (Hz : num_is_zero r = (x mod y =? 0)) by (rewrite <-Hr; by destruct r).
  unfold div_result, num_eqb. rewrite Hz, Hq. cbn [num_value].
  destruct (Z.eqb_spec (x / y) (-1)) as [Hm|_]; cbn [andb]; [|by apply writes_ok].
  destruct (x mod y =? 0); cbn [negb]; [by apply writes_ok|].
  destruct (num_binop_spec Z.add q (I128 1)) as [Hv Ho]. apply writes_ok; [exact Ho|].
  etrans; [exact Hv|]. cbn [num_value]. lia.
Qed.

(** the division operators on two integers with a non-zero divisor:
    [op_divmod] returns floored quotient and remainder, [op_mod] the floored
    remainder, and [op_div] the floored quotient except that an inexact
    quotient of [-1] becomes zero; each at its linear cost. *)
Theorem division_correct a b max_cost :
  bytes_ok a → bytes_ok b → atom_value b ≠ 0 → zlen a + zlen b < 2 ^ 32 →
  let len := zlen a + zlen b in
  let x := atom_value a in let y := atom_value b in
  (∃ q, op_div tree_view (two_args a b) max_cost = Ok (DIV_BASE_COST + len * DIV_COST_PER_BYTE, Number q)
        ∧ writes q (div_result x y)) ∧
  (∃ q r, op_divmod tree_view (two_args a b) max_cost =
            Ok (DIV_MOD_BASE_COST + len * DIV_MOD_COST_PER_BYTE, NumberPair q r)
        ∧ writes q (x / y) ∧ writes r (x mod y)) ∧
  (∃ r, op_mod tree_view 0 (two_args a b) max_cost =
            Ok (DIV_BASE_COST + len * DIV_COST_PER_BYTE, Number r) ∧ writes r (x mod y)).
Proof.
  intros Ha Hb Hy Hlen len x y. subst len. pose proof (zlen_nonneg a). pose proof (zlen_nonneg b).
  destruct (number_of_atom_spec a Ha) as [Hao Hav]. destruct (number_of_atom_spec b Hb) as [Hbo Hbv].
  destruct (div_mod_floor_spec _ _ Hao Hbo) as (q & r & Hd & Hqo & Hro & Hq & Hr); [congruence|].
  rewrite Hav, Hbv in Hq, Hr. fold x y in Hq, Hr.
  assert (Hs : bool_decide (sign (number_of_atom b) = NoSign) = false).
  { rewrite num_sign_value, bigint_sign_zero, Hbv. by apply Z.eqb_neq. }
  split_and!.
  - unfold op_div, op_div_impl. rewrite two_ints_args. cbn [mbind res_bind]. unfold c64, DIV_BASE_COST, DIV_COST_PER_BYTE.
    rewrite chk_ok by (unfold uok; lia). cbn [mbind res_bind]. rewrite Hs. cbn [andb]. rewrite Hd.
    cbn [mbind res_bind]. eexists. split; [done|].
    by apply div_fixup.
  - unfold op_divmod. rewrite two_ints_args. cbn [mbind res_bind]. unfold c64, DIV_MOD_BASE_COST, DIV_MOD_COST_PER_BYTE.
    rewrite chk_ok by (unfold uok; lia). cbn [mbind res_bind]. rewrite Hs, Hd.
    cbn [mbind res_bind]. eexists _, _. split; [done|]. split; by apply writes_ok.
  - unfold op_mod. rewrite two_ints_args. cbn [mbind res_bind]. change (flag 0 _) with false. cbn [andb]. unfold c64, DIV_BASE_COST, DIV_COST_PER_BYTE.
    rewrite chk_ok by (unfold uok; lia). cbn [mbind res_bind]. rewrite Hs, Hd.
    cbn [mbind res_bind]. eexists. split; [done|]. by apply writes_ok.
Qed.

(** ** Unknown operators *)
Definition unknown_arith_step (max_cost : Z) (s : Z * Z) (x : SExp) : clvm (Z * Z) :=
  let '(cost, byte_count) := s in
  cost ← c64 (cost + ARITH_COST_PER_ARG);
  blob ← int_atom tree_view x;
  byte_count ← c64 (byte_count + zlen blob);
  c ← c64 (cost + byte_count * ARITH_COST_PER_BYTE);
  check_cost c max_cost;;
  Ok (cost, byte_count).

Lemma unknown_arith_fold max_cost bs cost n :
  0 ≤ cost → 0 ≤ n → max_cost < 2 ^ 64 →
  cost + ARITH_COST_PER_ARG * zlen bs + ARITH_COST_PER_BYTE * (n + zlen (List.concat bs)) ≤ max_cost →
  foldm (unknown_arith_step max_cost) (Atom <$> bs) (cost, n) =
    Ok (cost + ARITH_COST_PER_ARG * zlen bs, n + zlen (List.concat bs)).
Proof.
  unfold ARITH_COST_PER_ARG, ARITH_COST_PER_BYTE. revert cost n.
  induction bs as [|b bs IH]; intros cost n Hc Hn Hmax Hlim.
  { cbn. by rewrite !Z.add_0_r. }
  cbn [List.concat] in *. rewrite zlen_cons, zlen_app in *.
  pose proof (zlen_nonneg b). pose proof (zlen_nonneg bs). pose proof (zlen_nonneg (List.concat bs)).
  cbn [fmap list_fmap foldm].
  assert (unknown_arith_step max_cost (cost, n) (Atom b) = Ok (cost + 320, n + zlen b)) as ->.
  { unfold unknown_arith_step, c64, ARITH_COST_PER_ARG, ARITH_COST_PER_BYTE.
    rewrite (chk_ok 64 (cost + 320)) by (unfold uok; lia). cbn [mbind res_bind].
    change (int_atom tree_view (Atom b)) with (@Ok ClvmError _ b). cbn [mbind res_bind].
    rewrite (chk_ok 64 (n + zlen b)) by (unfold uok; lia). cbn [mbind res_bind].
    rewrite (chk_ok 64 (cost + 320 + _)) by (unfold uok; lia). cbn [mbind res_bind].
    unfold check_cost. by rewrite (proj2 (Z.ltb_ge max_cost _)) by lia. }
  cbn [mbind res_bind]. rewrite IH by lia. do 2 f_equal; lia.
Qed.

Lemma op_unknown_arith_cost bs args max_cost :
  sexp_iter args = Atom <$> bs → arith_cost bs ≤ max_cost < 2 ^ 64 →
  op_unknown_arith tree_view args max_cost = Ok (arith_cost bs).
Proof.
  intros Hit Hmax. unfold op_unknown_arith. rewrite for_args_iter, Hit.
  rewrite (foldm_ext _ (unknown_arith_step max_cost)) by by intros [c k] x.
  unfold arith_cost, ARITH_BASE_COST, ARITH_COST_PER_ARG, ARITH_COST_PER_BYTE in *.
  pose proof (zlen_nonneg (List.concat bs)). pose proof (zlen_nonneg bs).
  rewrite unknown_arith_fold; unfold ARITH_COST_PER_ARG, ARITH_COST_PER_BYTE; [|lia..].
  cbn [mbind res_bind]. unfold c64. rewrite chk_ok by (unfold uok; lia). f_equal. lia.
Qed.

(** an unknown operator of the arithmetic price class is nil at the
    price [(multiplier + 1) * arith_cost], and an error where that price
    exceeds [u32::MAX]; but the product is computed before it is compared, and
    overflows [u64] for multipliers and argument lists within the budget. *)
Theorem op_unknown_arith_price op m bs args max_cost :
  unknown_price op = Ok (1, m) → sexp_iter args = Atom <$> bs → arith_cost bs ≤ max_cost < 2 ^ 64 →
  op_unknown tree_view (Atom op) args max_cost =
    let price := arith_cost bs * (m + 1) in
    if negb (uokb 64 price) then Panic
    else if u32_max <? price then Err Unsupported
    else Ok (price, Same NULL_SEXP).
Proof.
  intros Hp Hit Hmax. unfold op_unknown. cbn [v_atom tree_view mbind res_bind ok_or]. rewrite Hp.
  cbn [mbind res_bind Z.eqb Pos.eqb]. rewrite (op_unknown_arith_cost bs) by done. cbn [mbind res_bind].
  unfold check_cost. rewrite (proj2 (Z.ltb_ge max_cost _)) by lia. cbn [mbind res_bind].
  unfold c64, chk. by destruct (uokb 64 _).
Qed.

(** ** The boolean operators *)
Definition bool_cost (xs : list SExp) : Z := BOOL_BASE_COST + BOOL_COST_PER_ARG * zlen xs.
Definition bool_sexp (b : bool) : SExp := if b then ONE_SEXP else NULL_SEXP.

(** One argument of [any] ([stop = true]) or [all] ([stop = false]). *)
Definition bool_step (stop : bool) (max_cost : Z) (s : Z * bool) (x : SExp) : clvm (Z * bool) :=
  let '(cost, acc) := s in
  cost ← c64 (cost + BOOL_COST_PER_ARG);
  check_cost cost max_cost;;
  acc ← (if Bool.eqb acc stop then Ok stop else non_nil tree_view x);
  Ok (cost, acc).

Lemma bool_fold stop max_cost xs cost acc :
  0 ≤ cost → max_cost < 2 ^ 64 → cost + BOOL_COST_PER_ARG * zlen xs ≤ max_cost →
  foldm (bool_step stop max_cost) xs (cost, acc) =
    Ok (cost + BOOL_COST_PER_ARG * zlen xs,
        if stop then acc || existsb sexp_non_nil xs else acc && forallb sexp_non_nil xs).
Proof.
  unfold BOOL_COST_PER_ARG. revert cost acc.
  induction xs as [|x xs IH]; intros cost acc Hc Hmax Hlim.
  { cbn. rewrite Z.add_0_r. by destruct stop, acc. }
  rewrite zlen_cons in *. pose proof (zlen_nonneg xs). cbn [foldm existsb forallb].
  assert (bool_step stop max_cost (cost, acc) x =
    Ok (cost + 300, if stop then acc || sexp_non_nil x else acc && sexp_non_nil x)) as ->.
  { unfold bool_step, c64, BOOL_COST_PER_ARG.
    rewrite (chk_ok 64 (cost + 300)) by (unfold uok; lia). cbn [mbind res_bind].
    unfold check_cost. rewrite (proj2 (Z.ltb_ge max_cost _)) by lia. cbn [mbind res_bind].
    by destruct stop, acc, x. }
  cbn [mbind res_bind]. rewrite IH by lia.
  do 2 f_equal; [lia|]. by destruct stop, acc, (sexp_non_nil x).
Qed.

(** [any] and [all] are the disjunction and conjunction of their
    arguments at 200 plus 300 per argument, unless the first argument of [all]
    is the print keyword: then the other arguments are not looked at, the
    result is true, and the cost is 1100 whatever their number. *)
Theorem op_all_any_correct first rest max_cost :
  let args := Pair first rest in
  let xs := sexp_iter args in
  bool_cost xs ≤ max_cost < 2 ^ 64 →
  op_any tree_view args max_cost = Ok (bool_cost xs, Same (bool_sexp (existsb sexp_non_nil xs))) ∧
  op_all tree_view args max_cost =
    if bool_decide (first = Atom print_kw) then Ok (1100, Same ONE_SEXP)
    else Ok (bool_cost xs, Same (bool_sexp (forallb sexp_non_nil xs))).
Proof.
  intros args xs Hmax. unfold bool_cost in *. split.
  - unfold op_any. rewrite for_args_iter. fold xs.
    rewrite (foldm_ext _ (bool_step true max_cost)) by by intros [c []] x.
    rewrite bool_fold by (unfold BOOL_BASE_COST in *; lia). done.
  - unfold op_all. unfold args at 1. cbn [v_kind v_atom tree_view mbind res_bind]. rewrite !for_args_iter. fold xs.
    rewrite (foldm_ext _ (bool_step false max_cost)) by by intros [c []] x.
    rewrite bool_fold by (unfold BOOL_BASE_COST in *; lia).
    assert (∀ l : list SExp, foldm (λ (_ : unit) (_ : SExp), @Ok ClvmError _ tt) l tt = Ok tt) as Hl.
    { intros l. by induction l. }
    rewrite Hl. subst args. cbn beta iota.
    case_bool_decide as H1; case_bool_decide as H2; [done| |..|done]; by destruct first; simplify_eq.
Qed.
End arith.

(** ** Witnesses *)
Definition args_of (xs : list SExp) : SExp := foldr Pair NULL_SEXP xs.

Lemma sexp_iter_args_of xs : sexp_iter (args_of xs) = xs.
Proof. induction xs as [|x xs IH]; [done|]. cbn. by f_equal. Qed.

Lemma op_add_correct_witness :
  ∃ n, op_add (@tree_view bigint_ref) (args_of (Atom <$> [[0x7f]; [0x01]])) 1000 =
    Ok (arith_cost [[0x7f]; [0x01]], Number n) ∧ @writes bigint_ref n 128.
Proof.
  apply (@op_add_correct bigint_ref bigint_ref_ok [[0x7f]; [0x01]]); [|apply sexp_iter_args_of|vm_compute; intuition congruence].
  repeat constructor; lia.
Defined.

Lemma op_subtract_correct_witness :
  ∃ n, op_subtract (@tree_view bigint_ref) (args_of (Atom <$> [[0x01]; [0x7f]; [0x02]])) 2000 =
    Ok (arith_cost [[0x01]; [0x7f]; [0x02]], Number n) ∧ @writes bigint_ref n (-128).
Proof.
  apply (@op_subtract_correct bigint_ref bigint_ref_ok [[0x01]; [0x7f]; [0x02]]);
    [|apply sexp_iter_args_of|vm_compute; intuition congruence].
  repeat constructor; lia.
Defined.

Lemma division_correct_witness :
  (∃ q, op_div (@tree_view bigint_ref) (two_args [0xff] [0x02]) 5000 = Ok (996, Number q) ∧
    @writes bigint_ref q 0).
Proof.
  refine (proj1 (@division_correct bigint_ref bigint_ref_ok [0xff] [0x02] 5000 _ _ _ _));
    [repeat constructor; lia..|vm_compute; congruence|reflexivity].
Defined.

Lemma op_all_any_correct_witness :
  op_all (@tree_view bigint_ref) (args_of [Atom print_kw; NULL_SEXP]) 5000 = Ok (1100, Same ONE_SEXP).
Proof.
  refine (proj2 (@op_all_any_correct bigint_ref (Atom print_kw) (args_of [NULL_SEXP]) 5000 _)).
  vm_compute. intuition congruence.
Defined.

Lemma arith_cost_replicate k l :
  0 ≤ k → 0 ≤ l → arith_cost (replicate (Z.to_nat k) (replicate (Z.to_nat l) 0)) = 99 + 320 * k + 3 * (k * l).
Proof.
  intros Hk Hl. assert (∀ n, zlen (List.concat (replicate n (replicate (Z.to_nat l) 0))) = Z.of_nat n * l) as Hc.
  { intros n. induction n as [|n IH]; [done|]. cbn [replicate List.concat]. rewrite zlen_app, IH.
    unfold zlen. rewrite length_replicate. lia. }
  unfold arith_cost, ARITH_BASE_COST, ARITH_COST_PER_ARG, ARITH_COST_PER_BYTE. rewrite Hc. unfold zlen.
  rewrite length_replicate. lia.
Qed.

(** Two thousand references to an atom of a million bytes, priced with the
    multiplier [0xfffeffff], overflow within the block budget. *)
Lemma op_unknown_arith_price_witness :
  op_unknown (@tree_view bigint_ref) (Atom [0xff; 0xfe; 0xff; 0xff; 0x40])
    (args_of (Atom <$> replicate (Z.to_nat 2000) (replicate (Z.to_nat 1000000) 0))) 11000000000 = Panic.
Proof.
  rewrite (@op_unknown_arith_price bigint_ref _ 0xfffeffff (replicate (Z.to_nat 2000) (replicate (Z.to_nat 1000000) 0)));
    [|reflexivity|apply sexp_iter_args_of|].
  - rewrite arith_cost_replicate by done. reflexivity.
  - rewrite arith_cost_replicate by done. lia.
Defined.
