(* ===== verification/PotIterations.v ===== *)
(** * Proof-of-time iterations, rewards, deficits and coinbase coins

    [core/src/consensus/pot_iterations.rs], [block_rewards.rs], [deficit.rs],
    [coinbase.rs] and the iteration methods of [BlockRecord]
    ([core/src/blockchain/block_record.rs]).  Integers are kept at their width;
    the constants of a network are the record [ConsensusConstants]. *)
From Stdlib Require Import ZArith Lia String.
From stdpp Require Import base list numbers option gmap strings.
From S2P Require Import Prelude Serialize ClvmNumber ClvmSexp Coin.

Open Scope Z_scope.

(** ** [ConsensusConstants] *)
Record ConsensusConstants := {
  slot_blocks_target : Z;
  min_blocks_per_challenge_block : Z;
  max_sub_slot_blocks : Z;
  num_sps_sub_slot : Z;
  sub_slot_iters_starting : Z;
  difficulty_constant_factor : Z;
  difficulty_starting : Z;
  difficulty_change_max_factor : Z;
  sub_epoch_blocks : Z;
  epoch_blocks : Z;
  significant_bits : Z;
  discriminant_size_bits : Z;
  number_zero_bits_plot_filter : Z;
  min_plot_size : Z;
  max_plot_size : Z;
  sub_slot_time_target : Z;
  num_sp_intervals_extra : Z;
  max_future_time : Z;
  max_future_time2 : Z;
  number_of_timestamps : Z;
  genesis_challenge : list Z;
  agg_sig_me_additional_data : list Z;
  genesis_pre_farm_pool_puzzle_hash : list Z;
  genesis_pre_farm_farmer_puzzle_hash : list Z;
  max_vdf_witness_size : Z;
  mempool_block_buffer : Z;
  max_coin_amount : Z;
  max_block_cost_clvm : Z;
  cost_per_byte : Z;
  weight_proof_threshold : Z;
  weight_proof_recent_blocks : Z;
  max_block_count_per_requests : Z;
  blocks_cache_size : Z;
  max_generator_size : Z;
  max_generator_ref_list_size : Z;
  pool_sub_slot_iters : Z;
  soft_fork2_height : Z;
  soft_fork3_height : Z;
  hard_fork_height : Z;
  hard_fork_fix_height : Z;
  soft_fork8_height : Z;
  soft_fork9_height : Z;
  hard_fork2_height : Z;
  plot_filter_128_height : Z;
  plot_filter_64_height : Z;
  plot_filter_32_height : Z;
  number_zero_bits_plot_filter_v2 : Z;
  plot_size_v2 : Z;
  min_plot_strength : Z;
  max_plot_strength : Z;
  plot_v1_phase_out_epoch_bits : Z;
  plot_filter_v2_first_adjustment_height : Z;
  plot_filter_v2_second_adjustment_height : Z;
  plot_filter_v2_third_adjustment_height : Z;
  bech32_prefix : string;
  is_testnet : bool;
  simulated : bool;
}.

#[global] Instance constants_settable : Settable ConsensusConstants :=
  settable! Build_ConsensusConstants <
    slot_blocks_target; min_blocks_per_challenge_block; max_sub_slot_blocks; num_sps_sub_slot;
    sub_slot_iters_starting; difficulty_constant_factor; difficulty_starting;
    difficulty_change_max_factor; sub_epoch_blocks; epoch_blocks; significant_bits;
    discriminant_size_bits; number_zero_bits_plot_filter; min_plot_size; max_plot_size;
    sub_slot_time_target; num_sp_intervals_extra; max_future_time; max_future_time2;
    number_of_timestamps; genesis_challenge; agg_sig_me_additional_data;
    genesis_pre_farm_pool_puzzle_hash; genesis_pre_farm_farmer_puzzle_hash; max_vdf_witness_size;
    mempool_block_buffer; max_coin_amount; max_block_cost_clvm; cost_per_byte;
    weight_proof_threshold; weight_proof_recent_blocks; max_block_count_per_requests;
    blocks_cache_size; max_generator_size; max_generator_ref_list_size; pool_sub_slot_iters;
    soft_fork2_height; soft_fork3_height; hard_fork_height; hard_fork_fix_height; soft_fork8_height;
    soft_fork9_height; hard_fork2_height; plot_filter_128_height; plot_filter_64_height;
    plot_filter_32_height; number_zero_bits_plot_filter_v2; plot_size_v2; min_plot_strength;
    max_plot_strength; plot_v1_phase_out_epoch_bits; plot_filter_v2_first_adjustment_height;
    plot_filter_v2_second_adjustment_height; plot_filter_v2_third_adjustment_height; bech32_prefix;
    is_testnet; simulated>.

Definition MAINNET : ConsensusConstants := {|
  slot_blocks_target := 32;
  min_blocks_per_challenge_block := 16;
  max_sub_slot_blocks := 128;
  num_sps_sub_slot := 64;
  sub_slot_iters_starting := 2 ^ 27;
  difficulty_constant_factor := 2 ^ 67;
  difficulty_starting := 7;
  difficulty_change_max_factor := 3;
  sub_epoch_blocks := 384;
  epoch_blocks := 4608;
  significant_bits := 8;
  discriminant_size_bits := 1024;
  number_zero_bits_plot_filter := 9;
  min_plot_size := 32;
  max_plot_size := 50;
  sub_slot_time_target := 600;
  num_sp_intervals_extra := 3;
  max_future_time := 5 * 60;
  max_future_time2 := 2 * 60;
  number_of_timestamps := 11;
  genesis_challenge := to_be 32 0xccd5bb71183532bff220ba46c268991a3ff07eb358e8255a65c30a2dce0e5fbb;
  agg_sig_me_additional_data := to_be 32 0xccd5bb71183532bff220ba46c268991a3ff07eb358e8255a65c30a2dce0e5fbb;
  genesis_pre_farm_pool_puzzle_hash := to_be 32 0xd23da14695a188ae5708dd152263c4db883eb27edeb936178d4d988b8f3ce5fc;
  genesis_pre_farm_farmer_puzzle_hash := to_be 32 0x3d8765d3a597ec1d99663f6c9816d915b9f68613ac94009884c4addaefcce6af;
  max_vdf_witness_size := 64;
  mempool_block_buffer := 10;
  max_coin_amount := u64_max;
  max_block_cost_clvm := 11000000000;
  cost_per_byte := 12000;
  weight_proof_threshold := 2;
  weight_proof_recent_blocks := 1000;
  max_block_count_per_requests := 32;
  blocks_cache_size := 4608 + (128 * 4);
  max_generator_size := 1000000;
  max_generator_ref_list_size := 512;
  pool_sub_slot_iters := 37600000000;
  soft_fork2_height := 0;
  soft_fork3_height := 4510000;
  hard_fork_height := 5496000;
  hard_fork_fix_height := 5496000;
  soft_fork8_height := 8655000;
  soft_fork9_height := 8655000;
  hard_fork2_height := 0xFFFFFFFA;
  plot_filter_128_height := 10542000;
  plot_filter_64_height := 15592000;
  plot_filter_32_height := 20643000;
  number_zero_bits_plot_filter_v2 := 5;
  plot_size_v2 := 28;
  min_plot_strength := 2;
  max_plot_strength := 32;
  plot_v1_phase_out_epoch_bits := 8;
  plot_filter_v2_first_adjustment_height := 0xFFFFFFFB;
  plot_filter_v2_second_adjustment_height := 0xFFFFFFFC;
  plot_filter_v2_third_adjustment_height := 0xFFFFFFFD;
  bech32_prefix := "xch";
  is_testnet := false;
  simulated := false;
|}.

(** ** [BlockRecord] *)
Record SubEpochSummary := {
  prev_subepoch_summary_hash : list Z;
  reward_chain_hash : list Z;
  num_blocks_overflow : Z;
  new_difficulty : option Z;
  new_sub_slot_iters : option Z;
}.

Record BlockRecord := {
  header_hash : list Z;
  prev_hash : list Z;
  height : Z;
  weight : Z;
  total_iters : Z;
  signage_point_index : Z;
  challenge_vdf_output : list Z;
  infused_challenge_vdf_output : option (list Z);
  reward_infusion_new_challenge : list Z;
  challenge_block_info_hash : list Z;
  sub_slot_iters : Z;
  pool_puzzle_hash : list Z;
  farmer_puzzle_hash : list Z;
  required_iters : Z;
  deficit : Z;
  overflow : bool;
  prev_transaction_block_height : Z;
  timestamp : option Z;
  prev_transaction_block_hash : option (list Z);
  fees : option Z;
  reward_claims_incorporated : option (list Coin);
  finished_challenge_slot_hashes : option (list (list Z));
  finished_infused_challenge_slot_hashes : option (list (list Z));
  finished_reward_slot_hashes : option (list (list Z));
  sub_epoch_summary_included : option SubEpochSummary;
}.

(** ** [pot_iterations.rs] *)

(** [is_multiple_of], and the division operators, which panic on zero. *)
Definition is_multiple_of (x y : Z) : bool := if y =? 0 then x =? 0 else x mod y =? 0.
Definition div_u (x y : Z) : io Z := if y =? 0 then Panic else Ok (x / y).
Definition rem_u (x y : Z) : io Z := if y =? 0 then Panic else Ok (x mod y).

Definition is_overflow_block (c : ConsensusConstants) (sp_index : Z) : io bool :=
  if num_sps_sub_slot c <=? sp_index then Err InvalidData
  else
    first_overflow ← chk 64 (num_sps_sub_slot c - num_sp_intervals_extra c);
    Ok (first_overflow <=? sp_index).

Definition calculate_sp_interval_iters (c : ConsensusConstants) (ssi : Z) : io Z :=
  if negb (is_multiple_of ssi (num_sps_sub_slot c)) then Err InvalidData
  else div_u ssi (num_sps_sub_slot c).

Definition calculate_sp_iters (c : ConsensusConstants) (ssi sp_index : Z) : io Z :=
  if num_sps_sub_slot c <=? sp_index then Err InvalidData
  else
    interval ← calculate_sp_interval_iters c ssi;
    chk 64 (interval * sp_index).

Definition calculate_ip_iters (c : ConsensusConstants) (ssi sp_index required : Z) : io Z :=
  sp_iters ← calculate_sp_iters c ssi sp_index;
  sp_interval_iters ← calculate_sp_interval_iters c ssi;
  r ← rem_u sp_iters sp_interval_iters;
  if negb (r =? 0) || (ssi <=? sp_iters) then Err InvalidData
  else if (sp_interval_iters <=? required) || (required =? 0) then Err InvalidData
  else
    extra ← chk 64 (num_sp_intervals_extra c * sp_interval_iters);
    s ← chk 64 (sp_iters + extra);
    s ← chk 64 (s + required);
    rem_u s ssi.

Definition expected_plot_size (k : Z) : io Z :=
  e ← chk 32 (k - 1);
  p ← chk 64 (2 ^ e);
  chk 64 ((2 * k + 1) * p).

Definition calculate_iterations_quality `{Sha256} (factor : Z) (quality_string : list Z)
    (size difficulty : Z) (cc_sp_output_hash : list Z) : io Z :=
  let quality_int := from_be (hash_256 (quality_string ++ cc_sp_output_hash)) in
  let top := difficulty * factor * quality_int in
  plot ← expected_plot_size size;
  bigint ← div_u top (2 ^ 256 * plot);
  if u64_max <? bigint then Ok u64_max else Ok (Z.max 1 bigint).

(** ** The methods of [BlockRecord] *)
Definition first_in_sub_slot (b : BlockRecord) : bool :=
  bool_decide (is_Some (finished_challenge_slot_hashes b)).
Definition is_transaction_block (b : BlockRecord) : bool := bool_decide (is_Some (timestamp b)).
Definition is_challenge_block (b : BlockRecord) (min_blocks : Z) : io bool :=
  m ← chk 8 (min_blocks - 1); Ok (deficit b =? m).

Definition ip_iters (c : ConsensusConstants) (b : BlockRecord) : io Z :=
  calculate_ip_iters c (sub_slot_iters b) (signage_point_index b) (required_iters b).
Definition sp_iters (c : ConsensusConstants) (b : BlockRecord) : io Z :=
  calculate_sp_iters c (sub_slot_iters b) (signage_point_index b).
Definition ip_sub_slot_total_iters (c : ConsensusConstants) (b : BlockRecord) : io Z :=
  ip ← ip_iters c b; ok_or (checked 128 (total_iters b - ip)) InvalidData.
Definition sp_sub_slot_total_iters (c : ConsensusConstants) (b : BlockRecord) : io Z :=
  ret ← ip_sub_slot_total_iters c b;
  if overflow b then ok_or (checked 128 (ret - sub_slot_iters b)) InvalidData else Ok ret.
Definition sp_total_iters (c : ConsensusConstants) (b : BlockRecord) : io Z :=
  s ← sp_sub_slot_total_iters c b; sp ← sp_iters c b;
  ok_or (checked 128 (s + sp)) InvalidData.

(** ** [deficit.rs] *)
Definition calculate_deficit (c : ConsensusConstants) (block_height : Z) (prev_b : option BlockRecord)
    (is_overflow : bool) (num_finished_sub_slots : Z) : io Z :=
  let m := min_blocks_per_challenge_block c in
  if block_height =? 0 then chk 8 (m - 1)
  else
    let prev_deficit := match prev_b with Some p => deficit p | None => m end in
    if prev_deficit =? m then
      if is_overflow then
        if 0 <? num_finished_sub_slots then chk 8 (prev_deficit - 1) else Ok prev_deficit
      else chk 8 (prev_deficit - 1)
    else if prev_deficit =? 0 then
      if num_finished_sub_slots =? 0 then Ok 0
      else if num_finished_sub_slots =? 1 then if is_overflow then Ok m else chk 8 (m - 1)
      else chk 8 (m - 1)
    else chk 8 (prev_deficit - 1).

(** ** [block_rewards.rs] *)
Definition MOJO_PER_CHIA : Z := 1000000000000.
Definition BLOCKS_PER_YEAR : Z := 1681920.

Definition calculate_pool_reward (h : Z) : Z :=
  if h =? 0 then (7000000000000 / 8) * 21000000
  else if h <? 3 * BLOCKS_PER_YEAR then 7000000000000 / 4
  else if h <? 6 * BLOCKS_PER_YEAR then 7000000000000 / 8
  else if h <? 9 * BLOCKS_PER_YEAR then 7000000000000 / 16
  else if h <? 12 * BLOCKS_PER_YEAR then 7000000000000 / 32
  else 7000000000000 / 64.

Definition calculate_base_farmer_reward (h : Z) : Z :=
  if h =? 0 then (1000000000000 / 8) * 21000000
  else if h <? 3 * BLOCKS_PER_YEAR then 1000000000000 / 4
  else if h <? 6 * BLOCKS_PER_YEAR then 1000000000000 / 8
  else if h <? 9 * BLOCKS_PER_YEAR then 1000000000000 / 16
  else if h <? 12 * BLOCKS_PER_YEAR then 1000000000000 / 32
  else 1000000000000 / 64.

(** ** [coinbase.rs] *)
Definition pool_parent_id (block_height : Z) (genesis_challenge : list Z) : list Z :=
  take 16 genesis_challenge ++ replicate 12 0 ++ to_be 4 block_height.
Definition farmer_parent_id (block_height : Z) (genesis_challenge : list Z) : list Z :=
  take 16 (drop 16 genesis_challenge) ++ replicate 12 0 ++ to_be 4 block_height.

Definition create_pool_coin (block_height : Z) (puzzle_hash : list Z) (amount : Z)
    (genesis_challenge : list Z) : Coin :=
  {| parent_coin_info := pool_parent_id block_height genesis_challenge;
     Coin.puzzle_hash := puzzle_hash; Coin.amount := amount |}.
Definition create_farmer_coin (block_height : Z) (puzzle_hash : list Z) (amount : Z)
    (genesis_challenge : list Z) : Coin :=
  {| parent_coin_info := farmer_parent_id block_height genesis_challenge;
     Coin.puzzle_hash := puzzle_hash; Coin.amount := amount |}.

(** * Iterations *)

(** Constants a network can run with: the infusion point is at most a sub-slot
    after the signage point. *)
Record iters_constants_ok (c : ConsensusConstants) : Prop := {
  sps_range : 0 < num_sps_sub_slot c < 2 ^ 32;
  extra_range : 0 ≤ num_sp_intervals_extra c ≤ num_sps_sub_slot c;
}.

Lemma mainnet_iters_ok : iters_constants_ok MAINNET.
Proof. split; cbn; lia. Qed.

(** The signage point interval and the distance from the signage point to the
    infusion point. *)
Definition interval (c : ConsensusConstants) (ssi : Z) : Z := ssi / num_sps_sub_slot c.
Definition sp_to_ip (c : ConsensusConstants) (ssi required : Z) : Z :=
  num_sp_intervals_extra c * interval c ssi + required.
Definition iters_valid (c : ConsensusConstants) (ssi sp_index required : Z) : bool :=
  (sp_index <? num_sps_sub_slot c) && (ssi mod num_sps_sub_slot c =? 0) &&
  (0 <? required) && (required <? interval c ssi).
Definition overflows (c : ConsensusConstants) (sp_index : Z) : bool :=
  num_sps_sub_slot c - num_sp_intervals_extra c <=? sp_index.

Section iters.
Context (c : ConsensusConstants) (Hc : iters_constants_ok c).

Lemma interval_eq ssi : ssi mod num_sps_sub_slot c = 0 → ssi = num_sps_sub_slot c * interval c ssi.
Proof.
  intros Hm. destruct Hc. unfold interval.
  pose proof (Z.div_mod ssi (num_sps_sub_slot c)). lia.
Qed.

Lemma sp_interval_iters_spec ssi :
  calculate_sp_interval_iters c ssi =
    if ssi mod num_sps_sub_slot c =? 0 then Ok (interval c ssi) else Err InvalidData.
Proof.
  destruct Hc. unfold calculate_sp_interval_iters, is_multiple_of, div_u.
  rewrite (proj2 (Z.eqb_neq (num_sps_sub_slot c) 0)) by lia. by destruct (_ =? 0).
Qed.

Lemma sp_iters_spec ssi sp_index :
  0 ≤ ssi < 2 ^ 64 → 0 ≤ sp_index →
  calculate_sp_iters c ssi sp_index =
    if (sp_index <? num_sps_sub_slot c) && (ssi mod num_sps_sub_slot c =? 0)
    then Ok (interval c ssi * sp_index) else Err InvalidData.
Proof.
  intros Hssi Hi. unfold calculate_sp_iters. rewrite sp_interval_iters_spec.
  rewrite Z.leb_antisym. destruct (Z.ltb_spec sp_index (num_sps_sub_slot c)); cbn [negb andb]; [|done].
  destruct (Z.eqb_spec (ssi mod num_sps_sub_slot c) 0) as [Hm|]; [|done].
  cbn [mbind res_bind]. apply chk_ok. apply interval_eq in Hm.
  assert (0 ≤ interval c ssi) by (destruct Hc; apply Z.div_pos; lia). unfold uok. nia.
Qed.

Lemma ip_sum_split ssi sp_index required :
  0 ≤ sp_index → iters_valid c ssi sp_index required = true →
  let t := interval c ssi * sp_index + sp_to_ip c ssi required in
  if overflows c sp_index then ssi ≤ t < 2 * ssi else 0 ≤ t < ssi.
Proof.
  intros Hi Hv t. destruct Hc. unfold iters_valid in Hv.
  rewrite !andb_true_iff, !Z.ltb_lt, Z.eqb_eq in Hv. destruct Hv as [[[Hi' Hm] Hr] Hr'].
  apply interval_eq in Hm. unfold t, sp_to_ip, overflows in *.
  set (I := interval c ssi) in *. rewrite Hm.
  destruct (Z.leb_spec (num_sps_sub_slot c - num_sp_intervals_extra c) sp_index); nia.
Qed.

Lemma ip_iters_eq ssi sp_index required :
  0 < ssi → 2 * ssi ≤ 2 ^ 64 → 0 ≤ sp_index → 0 ≤ required →
  calculate_ip_iters c ssi sp_index required =
    if iters_valid c ssi sp_index required then
      Ok (interval c ssi * sp_index + sp_to_ip c ssi required -
          (if overflows c sp_index then ssi else 0))
    else Err InvalidData.
Proof.
  intros Hssi Hmax Hi Hr. pose proof (ip_sum_split ssi sp_index required Hi) as Hsplit.
  destruct Hc. unfold calculate_ip_iters. rewrite sp_iters_spec by lia. unfold iters_valid in *.
  destruct (Z.ltb_spec sp_index (num_sps_sub_slot c)) as [Hlt|]; cbn [andb mbind res_bind]; [|done].
  destruct (Z.eqb_spec (ssi mod num_sps_sub_slot c) 0) as [Hm|]; cbn [andb mbind res_bind]; [|done].
  rewrite sp_interval_iters_spec, (proj2 (Z.eqb_eq _ 0) Hm). cbn [mbind res_bind].
  apply interval_eq in Hm. set (I := interval c ssi) in *.
  assert (HI : 0 < I) by nia. unfold rem_u. rewrite (proj2 (Z.eqb_neq I 0)) by lia. cbn [mbind res_bind].
  rewrite Z.mul_comm, Z.mod_mul by lia. rewrite Z.mul_comm. cbn [Z.eqb negb orb].
  rewrite (proj2 (Z.leb_gt ssi _)) by nia.
  destruct (Z.ltb_spec 0 required) as [Hr0|Hr0], (Z.ltb_spec required I) as [Hr1|Hr1]; cbn [andb].
  2-4: rewrite ?(proj2 (Z.leb_le I required)) by lia; rewrite ?orb_true_l; try done;
    rewrite (proj2 (Z.eqb_eq required 0)) by lia; by rewrite orb_true_r.
  rewrite (proj2 (Z.leb_gt I required)) by lia. rewrite (proj2 (Z.eqb_neq required 0)) by lia. cbn [orb].
  specialize (Hsplit eq_refl). unfold sp_to_ip in *. fold I in Hsplit |- *.
  assert (Ht : 0 ≤ I * sp_index + (num_sp_intervals_extra c * I + required) < 2 ^ 64)
    by (destruct (overflows c sp_index); lia).
  assert (0 ≤ num_sp_intervals_extra c * I) by nia. assert (0 ≤ I * sp_index) by nia.
  rewrite (chk_ok 64 (num_sp_intervals_extra c * I)) by (unfold uok; lia). cbn [mbind res_bind].
  rewrite (chk_ok 64 (I * sp_index + _)) by (unfold uok; lia). cbn [mbind res_bind].
  rewrite (chk_ok 64 (_ + required)) by (unfold uok; lia). cbn [mbind res_bind].
  rewrite (proj2 (Z.eqb_neq ssi 0)) by lia. f_equal. rewrite <-Z.add_assoc.
  destruct (overflows c sp_index).
  - symmetry. apply Z.mod_unique with 1; lia.
  - rewrite Z.mod_small by lia. lia.
Qed.
End iters.

(** the infusion point of a block.  With a valid signage point index and
    required iterations below the interval, [calculate_ip_iters] returns the
    signage point plus the extra intervals plus the required iterations, less
    one sub-slot exactly for the blocks [is_overflow_block] reports, always
    inside the sub-slot; every other input is an error, except that zero
    sub-slot iterations divide by zero. *)
Theorem calculate_ip_iters_correct c ssi sp_index required :
  iters_constants_ok c → 2 * ssi ≤ 2 ^ 64 → 0 ≤ sp_index → 0 ≤ required →
  (0 < ssi →
   calculate_ip_iters c ssi sp_index required =
     if iters_valid c ssi sp_index required then
       Ok (interval c ssi * sp_index + sp_to_ip c ssi required -
           (if overflows c sp_index then ssi else 0))
     else Err InvalidData) ∧
  (0 < ssi → ∀ ip, calculate_ip_iters c ssi sp_index required = Ok ip →
     0 ≤ ip < ssi ∧ is_overflow_block c sp_index = Ok (overflows c sp_index)) ∧
  (ssi = 0 → sp_index < num_sps_sub_slot c → calculate_ip_iters c ssi sp_index required = Panic).
Proof.
  intros Hc Hmax Hi Hr. split; [intros Hssi; by apply ip_iters_eq|]. split.
  - intros Hssi ip. rewrite ip_iters_eq by done. pose proof (ip_sum_split c Hc ssi sp_index required Hi) as Hs.
    destruct (iters_valid c ssi sp_index required) eqn:Hv; [|done]. intros <-%Ok_inj.
    specialize (Hs eq_refl). cbv zeta in Hs. destruct Hc as [Hsp Hex]. unfold iters_valid in Hv.
    rewrite !andb_true_iff, Z.ltb_lt in Hv. destruct Hv as [[[Hlt _] _] _].
    split; [destruct (overflows c sp_index); lia|]. unfold is_overflow_block.
    rewrite (proj2 (Z.leb_gt _ sp_index)) by done.
    by rewrite chk_ok by (unfold uok; lia).
  - intros -> Hlt. destruct Hc as [Hsp Hex]. unfold calculate_ip_iters.
    rewrite sp_iters_spec by (by split || lia). rewrite (proj2 (Z.ltb_lt _ _) Hlt), Z.mod_0_l by lia.
    cbn [Z.eqb andb mbind res_bind]. rewrite sp_interval_iters_spec by by split. rewrite Z.mod_0_l by lia.
    unfold interval. by rewrite Z.div_0_l by lia.
Qed.

Lemma calculate_ip_iters_correct_witness :
  calculate_ip_iters MAINNET (2 ^ 27) 62 1000 = Ok (62 * 2 ^ 21 + (3 * 2 ^ 21 + 1000) - 2 ^ 27).
Proof.
  refine (proj1 (calculate_ip_iters_correct MAINNET (2 ^ 27) 62 1000 mainnet_iters_ok _ _ _) _); lia.
Defined.

(** the total iterations at a block's signage point.  For a record whose
    overflow flag is the one of its index, [sp_total_iters] is the total at the
    infusion point less the distance between the two points, whether or not
    the infusion point lies in the next sub-slot. *)
Theorem sp_total_iters_correct c b :
  iters_constants_ok c → 0 < sub_slot_iters b → 2 * sub_slot_iters b ≤ 2 ^ 64 →
  0 ≤ signage_point_index b →
  iters_valid c (sub_slot_iters b) (signage_point_index b) (required_iters b) = true →
  is_overflow_block c (signage_point_index b) = Ok (overflow b) →
  interval c (sub_slot_iters b) * signage_point_index b +
    sp_to_ip c (sub_slot_iters b) (required_iters b) ≤ total_iters b < 2 ^ 128 →
  sp_total_iters c b = Ok (total_iters b - sp_to_ip c (sub_slot_iters b) (required_iters b)).
Proof.
  intros Hc Hssi Hmax Hi Hv Hov Ht.
  pose proof (ip_sum_split c Hc _ _ _ Hi Hv) as Hs. cbv zeta in Hs.
  unfold sp_total_iters, sp_sub_slot_total_iters, ip_sub_slot_total_iters, ip_iters, sp_iters.
  pose proof Hv as Hv'. unfold iters_valid in Hv'. rewrite !andb_true_iff, !Z.ltb_lt in Hv'.
  destruct Hv' as [[[Hlt Hm] Hr] _].
  rewrite ip_iters_eq, Hv by (done || lia). cbn [mbind res_bind].
  assert (Hoverflow : overflow b = overflows c (signage_point_index b)).
  { unfold is_overflow_block in Hov. rewrite (proj2 (Z.leb_gt _ _)) in Hov by done. destruct Hc.
    rewrite chk_ok in Hov by (unfold uok; lia). by apply Ok_inj in Hov as <-. }
  rewrite Hoverflow. set (x := interval c (sub_slot_iters b) * signage_point_index b) in *.
  assert (0 ≤ x) by (destruct Hc; apply Z.mul_nonneg_nonneg; [apply Z.div_pos|]; lia).
  assert (0 ≤ sp_to_ip c (sub_slot_iters b) (required_iters b)).
  { destruct Hc. unfold sp_to_ip. assert (0 ≤ interval c (sub_slot_iters b)) by (apply Z.div_pos; lia). nia. }
  set (d := sp_to_ip c _ _) in *.
  unfold checked. assert (Hu : ∀ z, 0 ≤ z < 2 ^ 128 → uokb 128 z = true) by (intros z ?; by apply uokb_spec).
  destruct (overflows c (signage_point_index b)).
  - rewrite (Hu (total_iters b - _)) by lia. cbn [ok_or mbind res_bind].
    rewrite (Hu (_ - sub_slot_iters b)) by lia. cbn [ok_or mbind res_bind].
    rewrite sp_iters_spec by (done || lia). rewrite (proj2 (Z.ltb_lt _ _) Hlt), Hm. cbn [andb mbind res_bind]. fold x.
    rewrite (Hu (_ + x)) by lia. cbn [ok_or]. f_equal. lia.
  - rewrite (Hu (total_iters b - _)) by lia. cbn [ok_or mbind res_bind].
    rewrite sp_iters_spec by (done || lia). rewrite (proj2 (Z.ltb_lt _ _) Hlt), Hm. cbn [andb mbind res_bind]. fold x.
    rewrite (Hu (_ + x)) by lia. cbn [ok_or]. f_equal. lia.
Qed.

Definition sample_record : BlockRecord := {|
  header_hash := replicate 32 1; prev_hash := replicate 32 0; height := 1; weight := 14;
  total_iters := 2 ^ 28; signage_point_index := 62; challenge_vdf_output := [];
  infused_challenge_vdf_output := None; reward_infusion_new_challenge := [];
  challenge_block_info_hash := []; sub_slot_iters := 2 ^ 27; pool_puzzle_hash := [];
  farmer_puzzle_hash := []; required_iters := 1000; deficit := 15; overflow := true;
  prev_transaction_block_height := 0; timestamp := Some 0; prev_transaction_block_hash := None;
  fees := None; reward_claims_incorporated := None; finished_challenge_slot_hashes := None;
  finished_infused_challenge_slot_hashes := None; finished_reward_slot_hashes := None;
  sub_epoch_summary_included := None |}.

Lemma sp_total_iters_correct_witness :
  sp_total_iters MAINNET sample_record = Ok (2 ^ 28 - (3 * 2 ^ 21 + 1000)).
Proof.
  apply (sp_total_iters_correct MAINNET sample_record mainnet_iters_ok);
    solve [reflexivity | vm_compute; congruence | vm_compute; intuition congruence].
Defined.

(** required iterations.  For plots of sizes 1 to 58 the quality lottery
    never panics and returns the quality's share of the difficulty, at least
    one and saturated at [u64::MAX]; larger sizes overflow. *)
Theorem iterations_quality_correct `{Sha256} factor quality k difficulty sp_hash :
  let q := from_be (hash_256 (quality ++ sp_hash)) in
  let plot := (2 * k + 1) * 2 ^ (k - 1) in
  (1 ≤ k ≤ 58 →
   calculate_iterations_quality factor quality k difficulty sp_hash =
     Ok (Z.min u64_max (Z.max 1 (difficulty * factor * q / (2 ^ 256 * plot))))) ∧
  (k = 0 ∨ 59 ≤ k ≤ 255 → calculate_iterations_quality factor quality k difficulty sp_hash = Panic).
Proof.
  intros q plot. unfold calculate_iterations_quality, expected_plot_size. fold q. split; intros Hk.
  - rewrite (chk_ok 32 (k - 1)) by (unfold uok; lia). cbn [mbind res_bind].
    assert (H57 : 1 ≤ 2 ^ (k - 1) ≤ 2 ^ 57)
      by (split; [change 1 with (2 ^ 0)|]; apply Z.pow_le_mono_r; lia).
    rewrite (chk_ok 64 (2 ^ (k - 1))) by (unfold uok; lia). cbn [mbind res_bind].
    rewrite chk_ok by (unfold uok; nia). cbn [mbind res_bind]. fold plot.
    assert (Hp : 0 < plot) by (unfold plot; nia). unfold div_u.
    rewrite (proj2 (Z.eqb_neq (2 ^ 256 * plot) 0)) by lia. cbn [mbind res_bind].
    destruct (Z.ltb_spec u64_max (difficulty * factor * q / (2 ^ 256 * plot))) as [Hlt|Hge]; f_equal;
      unfold u64_max in *; lia.
  - destruct Hk as [->|Hk]; [done|].
    rewrite (chk_ok 32 (k - 1)) by (unfold uok; lia). cbn [mbind res_bind].
    assert (H58 : 2 ^ 58 ≤ 2 ^ (k - 1)) by (apply Z.pow_le_mono_r; lia).
    destruct (chk 64 (2 ^ (k - 1))) as [p|e|] eqn:E; [|by apply chk_not_Err in E|done].
    apply chk_Ok in E as [_ ->]. cbn [mbind res_bind].
    unfold chk. assert (uokb 64 ((2 * k + 1) * 2 ^ (k - 1)) = false) as ->; [|done].
    unfold uokb. apply andb_false_iff. right. apply Z.ltb_ge. nia.
Qed.

Lemma iterations_quality_correct_witness :
  @calculate_iterations_quality toy_hash (2 ^ 67) [] 32 7 [] =
    Ok (Z.min u64_max (Z.max 1 (7 * 2 ^ 67 * from_be (@hash_256 toy_hash []) / (2 ^ 256 * (65 * 2 ^ 31))))).
Proof. apply (@iterations_quality_correct toy_hash (2 ^ 67) [] 32 7 []). lia. Defined.

(** * Deficits *)
Definition with_deficit (b : BlockRecord) (d : Z) : BlockRecord := {|
  header_hash := header_hash b; prev_hash := prev_hash b; height := height b; weight := weight b;
  total_iters := total_iters b; signage_point_index := signage_point_index b;
  challenge_vdf_output := challenge_vdf_output b;
  infused_challenge_vdf_output := infused_challenge_vdf_output b;
  reward_infusion_new_challenge := reward_infusion_new_challenge b;
  challenge_block_info_hash := challenge_block_info_hash b; sub_slot_iters := sub_slot_iters b;
  pool_puzzle_hash := pool_puzzle_hash b; farmer_puzzle_hash := farmer_puzzle_hash b;
  required_iters := required_iters b; deficit := d; overflow := overflow b;
  prev_transaction_block_height := prev_transaction_block_height b; timestamp := timestamp b;
  prev_transaction_block_hash := prev_transaction_block_hash b; fees := fees b;
  reward_claims_incorporated := reward_claims_incorporated b;
  finished_challenge_slot_hashes := finished_challenge_slot_hashes b;
  finished_infused_challenge_slot_hashes := finished_infused_challenge_slot_hashes b;
  finished_reward_slot_hashes := finished_reward_slot_hashes b;
  sub_epoch_summary_included := sub_epoch_summary_included b |}.

(** The deficit after further blocks: their overflow flags and numbers of
    finished sub-slots. *)
Fixpoint run_deficits (c : ConsensusConstants) (b : BlockRecord) (blocks : list (bool * Z)) : io Z :=
  match blocks with
  | [] => Ok (deficit b)
  | (is_overflow, slots) :: blocks =>
      d ← calculate_deficit c 1 (Some b) is_overflow slots;
      run_deficits c (with_deficit b d) blocks
  end.

Definition deficit_ok (c : ConsensusConstants) (d : Z) : Prop := 0 ≤ d ≤ min_blocks_per_challenge_block c.

Lemma deficit_step c b is_overflow slots :
  1 ≤ min_blocks_per_challenge_block c < 2 ^ 8 → deficit_ok c (deficit b) →
  ∃ d, calculate_deficit c 1 (Some b) is_overflow slots = Ok d ∧ deficit_ok c d ∧
    (d = min_blocks_per_challenge_block c → is_overflow = true) ∧
    (0 < deficit b < min_blocks_per_challenge_block c → d = deficit b - 1).
Proof.
  unfold deficit_ok. intros Hm Hd. unfold calculate_deficit. cbn [Z.eqb Pos.eqb].
  set (m := min_blocks_per_challenge_block c) in *.
  assert (Hchk : ∀ z, 0 ≤ z ≤ m → chk (E:=IoErrorKind) 8 z = Ok z) by (intros z ?; apply chk_ok; unfold uok; lia).
  destruct (Z.eqb_spec (deficit b) m), (Z.eqb_spec (deficit b) 0), (Z.eqb_spec slots 0),
    (Z.eqb_spec slots 1), (Z.ltb_spec 0 slots), is_overflow; try rewrite Hchk by lia;
    eexists; (split; [reflexivity|]); split_and!; first [done | lia].
Qed.

(** the deficit of a chain.  Whatever blocks follow, the computation
    never underflows, the deficit stays between zero and the minimum [m] of
    blocks per challenge block and is [m] only after an overflow block; and
    after a challenge block (deficit [m - 1]) it falls by exactly one with
    each of the next [m - 1] blocks, so no challenge block comes earlier. *)
Theorem deficit_countdown c b blocks :
  1 ≤ min_blocks_per_challenge_block c < 2 ^ 8 → deficit_ok c (deficit b) →
  (∃ d, run_deficits c b blocks = Ok d ∧ deficit_ok c d ∧
    ∀ o s rest, blocks = rest ++ [(o, s)] → d = min_blocks_per_challenge_block c → o = true) ∧
  (deficit b = min_blocks_per_challenge_block c - 1 → zlen blocks ≤ deficit b →
   run_deficits c b blocks = Ok (deficit b - zlen blocks)).
Proof.
  intros Hm Hd. split.
  - revert b Hd. induction blocks as [|[o s] blocks IH]; intros b Hd.
    { exists (deficit b). split_and!; [done..|]. intros o s [|] ?; done. }
    cbn [run_deficits]. destruct (deficit_step c b o s Hm Hd) as (d & -> & Hd' & Ho & _). cbn [mbind res_bind].
    destruct (IH (with_deficit b d) Hd') as (d' & Hr & Hok & Hlast). exists d'. split_and!; [done..|].
    intros o' s' rest Heq Hmin. destruct rest as [|x rest].
    + simplify_eq/=. auto.
    + simplify_eq/=. eauto.
  - intros Hb. assert (Hlt : deficit b < min_blocks_per_challenge_block c) by lia. clear Hb.
    revert b Hd Hlt. induction blocks as [|[o s] blocks IH]; intros b Hd Hlt Hlen.
    { cbn. f_equal. rewrite zlen_nil. lia. }
    rewrite zlen_cons in *. pose proof (zlen_nonneg blocks). cbn [run_deficits].
    destruct (deficit_step c b o s Hm Hd) as (d & -> & Hd' & _ & Hdec). cbn [mbind res_bind].
    rewrite (Hdec ltac:(lia)) in *. rewrite IH; cbn [deficit with_deficit]; [f_equal; lia|done|lia|lia].
Qed.

Lemma deficit_countdown_witness :
  run_deficits MAINNET sample_record (replicate 15 (true, 1)) = Ok (15 - 15).
Proof.
  refine (proj2 (deficit_countdown MAINNET sample_record (replicate 15 (true, 1)) _ _) _ _);
    vm_compute; intuition congruence.
Defined.

(** * Rewards *)

(** The coins created by the first [n] blocks. *)
Fixpoint issuance (n : nat) : Z :=
  match n with
  | O => 0
  | S n => issuance n + calculate_pool_reward (Z.of_nat n) + calculate_base_farmer_reward (Z.of_nat n)
  end.

(** The tiers: 21 million chia before the first halving period, then two chia
    a block, halving every three years down to an eighth. *)
Definition tier_blocks (n tier : Z) : Z :=
  Z.max 0 (Z.min n (3 * (tier + 1) * BLOCKS_PER_YEAR) - 3 * tier * BLOCKS_PER_YEAR).
Definition issuance_closed (n : Z) : Z :=
  MOJO_PER_CHIA * 21000000 +
  (MOJO_PER_CHIA * 2) * (tier_blocks n 0 - 1) + MOJO_PER_CHIA * tier_blocks n 1 +
  (MOJO_PER_CHIA / 2) * tier_blocks n 2 + (MOJO_PER_CHIA / 4) * tier_blocks n 3 +
  (MOJO_PER_CHIA / 8) * Z.max 0 (n - 12 * BLOCKS_PER_YEAR).

(** rewards.  The pool's share is seven times the farmer's at every
    height, both fit in 64 bits, and the first [n] blocks create the 21
    million chia of the prefarm, two chia a block for three years, and half as
    much in each of the next three periods, an eighth of it ever after. *)
Theorem rewards_correct n :
  (∀ h, calculate_pool_reward h = 7 * calculate_base_farmer_reward h ∧
        0 < calculate_base_farmer_reward h ∧ calculate_pool_reward h < 2 ^ 64) ∧
  ((1 ≤ n)%nat → issuance n = issuance_closed (Z.of_nat n)).
Proof.
  split.
  { intros h. unfold calculate_pool_reward, calculate_base_farmer_reward. repeat case_match; by vm_compute. }
  induction n as [|n IH]; [lia|]. intros _. cbn [issuance].
  destruct (decide (n = 0%nat)) as [->|Hn]; [by vm_compute|]. rewrite IH by lia.
  unfold issuance_closed, tier_blocks, calculate_pool_reward, calculate_base_farmer_reward, MOJO_PER_CHIA, BLOCKS_PER_YEAR.
  rewrite (proj2 (Z.eqb_neq (Z.of_nat n) 0)) by lia.
  repeat match goal with |- context [?x / ?y] => let q := eval vm_compute in (x / y) in change (x / y) with q end.
  repeat match goal with |- context [?x <? ?y] => destruct (Z.ltb_spec x y) end; lia.
Qed.

Lemma rewards_correct_witness : issuance 1000 = issuance_closed (Z.of_nat 1000).
Proof. apply (rewards_correct 1000). lia. Defined.

(** * Coinbase coins *)

Lemma to_be_height h h' : 0 ≤ h < 2 ^ 32 → 0 ≤ h' < 2 ^ 32 → to_be 4 h = to_be 4 h' → h = h'.
Proof.
  intros Hh Hh' He. apply (f_equal from_be) in He. rewrite !from_be_to_be in He.
  change (256 ^ Z.of_nat 4) with (2 ^ 32) in He. rewrite !Z.mod_small in He by lia. done.
Qed.

(** reward coins never share a parent id: the pool (or farmer) parents of
    two heights differ, and a pool parent equals a farmer parent only at the
    same height of a network whose genesis challenge has two equal halves. *)
Theorem parent_ids_distinct h h' genesis :
  0 ≤ h < 2 ^ 32 → 0 ≤ h' < 2 ^ 32 → length genesis = 32%nat →
  (pool_parent_id h genesis = pool_parent_id h' genesis ↔ h = h') ∧
  (farmer_parent_id h genesis = farmer_parent_id h' genesis ↔ h = h') ∧
  (pool_parent_id h genesis = farmer_parent_id h' genesis ↔
   h = h' ∧ take 16 genesis = drop 16 genesis) ∧
  length (pool_parent_id h genesis) = 32%nat ∧ length (farmer_parent_id h genesis) = 32%nat.
Proof.
  intros Hh Hh' Hg. unfold pool_parent_id, farmer_parent_id.
  rewrite (take_ge (drop 16 genesis)) by (rewrite length_drop; lia).
  assert (Hl1 : length (take 16 genesis) = 16%nat) by (rewrite length_take; lia).
  assert (Hl2 : length (drop 16 genesis) = 16%nat) by (rewrite length_drop; lia).
  split_and!.
  - split; [|by intros ->]. intros [_ [_ He]%app_inj_1]%app_inj_1; [|done..]. by apply to_be_height.
  - split; [|by intros ->]. intros [_ [_ He]%app_inj_1]%app_inj_1; [|done..]. by apply to_be_height.
  - split; [|by intros [-> ->]]. intros [Ht [_ He]%app_inj_1]%app_inj_1; [|done|by rewrite Hl1, Hl2].
    split; [by apply to_be_height|done].
  - rewrite !length_app, length_replicate, length_to_be, Hl1. done.
  - rewrite !length_app, length_replicate, length_to_be, Hl2. done.
Qed.

Lemma parent_ids_distinct_witness :
  pool_parent_id 5 (replicate 32 7) = farmer_parent_id 5 (replicate 32 7) ↔
  5 = 5 ∧ take 16 (replicate 32 7) = drop 16 (replicate 32 7).
Proof.
  refine (proj1 (proj2 (proj2 (parent_ids_distinct 5 5 (replicate 32 7) _ _ _)))); [lia..|reflexivity].
Defined.
