(* ===== verification/Difficulty.v ===== *)
(** * Difficulty and sub-slot-iteration retargeting

    [core/src/consensus/difficulty_adjustment.rs]: the walks over the block
    records and the retargeting arithmetic.  The record map is a finite map
    from header hashes; every loop that follows [prev_hash] is a fuelled walk
    ([None] when the fuel is out), and in a map whose heights decrease along
    [prev_hash] the height of the first record bounds the rounds. *)
From Stdlib Require Import ZArith Lia.
From stdpp Require Import base list numbers option gmap.
From S2P Require Import Prelude Serialize ClvmNumber ClvmSexp Coin PotIterations.

Open Scope Z_scope.

(** ** Significant bits *)
Definition truncate_to_significant_bits (value num_significant_bits : Z) : Z :=
  let bits := bit_length value in
  if bits <=? num_significant_bits then value
  else let lower := bits - num_significant_bits in Z.shiftl (Z.shiftr value lower) lower.

(** [u128::trailing_zeros] of a non-zero value. *)
Fixpoint trailing_zeros_pos (p : positive) : Z :=
  match p with xO p => 1 + trailing_zeros_pos p | _ => 0 end.
Definition trailing_zeros (value : Z) : Z :=
  match value with Zpos p => trailing_zeros_pos p | _ => 128 end.
Definition count_significant_bits (value : Z) : Z :=
  if value =? 0 then 0 else bit_length value - trailing_zeros value.

Definition height_can_be_first_in_epoch (c : ConsensusConstants) (h : Z) : io bool :=
  r ← rem_u h (sub_epoch_blocks c); Ok (is_multiple_of (h - r) (epoch_blocks c)).

(** ** Walks *)

(** [obind] for computations that may run out of fuel. *)
Definition fbind {A B} (m : option (io A)) (f : A → option (io B)) : option (io B) :=
  match m with
  | Some (Ok a) => f a
  | Some (Err e) => Some (Err e)
  | Some Panic => Some Panic
  | None => None
  end.
Definition ret {A} (a : A) : option (io A) := Some (Ok a).

Section walks.
Context (c : ConsensusConstants) (blocks : gmap (list Z) BlockRecord).

Definition get (h : list Z) : io BlockRecord := ok_or (blocks !! h) NotFound.

(** [while !stop(curr) { curr = blocks.get(&curr.prev_hash)? }] *)
Fixpoint walk (fuel : nat) (stop : BlockRecord → bool) (curr : BlockRecord) : option (io BlockRecord) :=
  if stop curr then ret curr
  else
    match fuel with
    | O => None
    | S fuel => fbind (Some (get (prev_hash curr))) (walk fuel stop)
    end.

(** The walk of [can_finish_sub_and_full_epoch]: is there a summary between
    [curr] and the last sub-epoch boundary? *)
Fixpoint ses_in_sub_epoch (fuel : nat) (curr : BlockRecord) : option (io bool) :=
  match rem_u (height curr) (sub_epoch_blocks c) with
  | Ok r =>
      if 0 <? r then
        if bool_decide (is_Some (sub_epoch_summary_included curr)) then ret true
        else
          match fuel with
          | O => None
          | S fuel => fbind (Some (get (prev_hash curr))) (ses_in_sub_epoch fuel)
          end
      else ret (bool_decide (is_Some (sub_epoch_summary_included curr)))
  | Err e => Some (Err e)
  | Panic => Some Panic
  end.

Definition can_finish_sub_and_full_epoch (fuel : nat) (h : Z) (prev_header_hash : list Z)
    (block_deficit : Z) (block_at_height_included_ses : bool) : option (io (bool * bool)) :=
  fbind (Some (chk 32 (sub_epoch_blocks c - 1))) (λ last,
  if h <? last then ret (false, false)
  else if 0 <? block_deficit then ret (false, false)
  else if block_at_height_included_ses then ret (false, false)
  else
    fbind (Some (chk 32 (h + 1))) (λ next,
    fbind (Some (rem_u next (sub_epoch_blocks c))) (λ r,
    fbind (if 1 <? r then fbind (Some (get prev_header_hash)) (ses_in_sub_epoch fuel) else ret false)
      (λ included : bool,
    if included then ret (false, false)
    else
      fbind (Some (height_can_be_first_in_epoch c next)) (λ epoch, ret (true, epoch)))))).

(** [by_height]: the records from [curr] down to the first one below [floor]. *)
Fixpoint collect_by_height (fuel : nat) (floor : Z) (curr : BlockRecord) (by_height : gmap Z BlockRecord) :
    option (io (gmap Z BlockRecord)) :=
  let by_height := <[height curr := curr]> by_height in
  if height curr <? floor then ret by_height
  else
    match fuel with
    | O => None
    | S fuel => fbind (Some (get (prev_hash curr))) (λ curr, collect_by_height fuel floor curr by_height)
    end.

Fixpoint find_summary (fuel : nat) (by_height : gmap Z BlockRecord) (next_height : Z) : option (io Z) :=
  fbind (Some (ok_or (by_height !! next_height) InvalidData)) (λ next_b,
  if bool_decide (is_Some (sub_epoch_summary_included next_b)) then ret next_height
  else
    match fuel with
    | O => None
    | S fuel => fbind (Some (chk 32 (next_height + 1))) (find_summary fuel by_height)
    end).

(** [while found_tx_block < 2] *)
Fixpoint second_tx_block (fuel : nat) (found : Z) (curr_b : BlockRecord) : option (io BlockRecord) :=
  if 2 <=? found then ret curr_b
  else
    match fuel with
    | O => None
    | S fuel =>
        fbind (Some (get (prev_hash curr_b))) (λ curr_b,
        second_tx_block fuel (if is_transaction_block curr_b then found + 1 else found) curr_b)
    end.

Definition height_in_next_epoch (h : Z) : io Z :=
  m2 ← chk 32 (2 * max_sub_slot_blocks c);
  x ← chk 32 (h + m2);
  x ← chk 32 (x + min_blocks_per_challenge_block c);
  chk 32 (x + 5).

Definition get_second_to_last_transaction_block_in_previous_epoch (fuel : nat) (last_b : BlockRecord) :
    option (io BlockRecord) :=
  fbind (Some (height_in_next_epoch (height last_b))) (λ h_next,
  fbind (Some (rem_u h_next (epoch_blocks c))) (λ r,
  let height_epoch_surpass := h_next - r in
  fbind (Some (chk 32 (height_epoch_surpass - epoch_blocks c))) (λ height_prev_epoch_surpass,
  fbind (Some (chk 32 (5 * max_sub_slot_blocks c))) (λ m5,
  if m5 <=? h_next - height_epoch_surpass then Some (Err InvalidData)
  else if height_prev_epoch_surpass =? 0 then walk fuel (λ b, negb (0 <? height b)) last_b
  else
    fbind (collect_by_height fuel height_prev_epoch_surpass last_b ∅) (λ by_height,
    fbind (find_summary fuel by_height height_prev_epoch_surpass) (λ next_height,
    fbind (Some (i ← chk 32 (next_height - 1); ok_or (by_height !! i) InvalidData)) (λ curr_b,
    second_tx_block fuel (if is_transaction_block curr_b then 1 else 0) curr_b))))))).

(** The last transaction block at or before the signage point. *)
Definition last_tx_before (fuel : nat) (sp_total : Z) (prev_b : BlockRecord) : option (io BlockRecord) :=
  walk fuel (λ b, negb ((sp_total <? total_iters b) || negb (is_transaction_block b))) prev_b.

Definition elapsed (curr prev : BlockRecord) : io Z :=
  curr_ts ← ok_or (timestamp curr) InvalidData;
  prev_ts ← ok_or (timestamp prev) InvalidData;
  t ← ok_or (checked 64 (curr_ts - prev_ts)) InvalidData;
  if 0 <? t then Ok t else Err InvalidData.

(** ** Retargeting arithmetic *)

(** Limit [new] to a factor of [old], never below [floor]. *)
Definition clamp_change (old new floor : Z) : io Z :=
  max_diff ← chk 128 (difficulty_change_max_factor c * old);
  min_diff ← div_u old (difficulty_change_max_factor c);
  if old <=? new then Ok (Z.min new max_diff)
  else Ok (Z.max (Z.max new floor) min_diff).

Definition retarget_difficulty (old weight_diff time : Z) : io Z :=
  numerator ← chk 128 (weight_diff * sub_slot_time_target c);
  denominator ← chk 128 (slot_blocks_target c * time);
  precise ← div_u numerator denominator;
  d ← clamp_change old precise 1;
  ok_or (checked 64 (truncate_to_significant_bits d (significant_bits c))) InvalidData.

Definition retarget_ssi (curr_ssi iters_diff time : Z) : io Z :=
  numerator ← chk 128 (sub_slot_time_target c * iters_diff);
  precise ← div_u numerator time;
  s ← clamp_change curr_ssi precise (num_sps_sub_slot c);
  let truncated := truncate_to_significant_bits s (significant_bits c) in
  r ← rem_u truncated (num_sps_sub_slot c);
  ok_or (checked 64 (truncated - r)) InvalidData.

(** ** The entry points *)
Definition get_next_difficulty (fuel : nat) (prev_header_hash : list Z) (h current_difficulty block_deficit : Z)
    (block_at_height_included_ses new_slot : bool) (signage_point_total_iters : Z) : option (io Z) :=
  fbind (Some (chk 32 (h + 1))) (λ next_height,
  fbind (Some (m3 ← chk 32 (3 * max_sub_slot_blocks c); chk 32 (epoch_blocks c - m3))) (λ first,
  if next_height <? first then ret (difficulty_starting c)
  else
    fbind (Some (get prev_header_hash)) (λ prev_b,
    fbind (can_finish_sub_and_full_epoch fuel h prev_header_hash block_deficit block_at_height_included_ses)
      (λ '(_, can_finish_epoch),
    if negb new_slot || negb can_finish_epoch then ret current_difficulty
    else
      fbind (get_second_to_last_transaction_block_in_previous_epoch fuel prev_b) (λ last_block_prev,
      fbind (last_tx_before fuel signage_point_total_iters prev_b) (λ last_block_curr,
      Some (
        actual_epoch_time ← elapsed last_block_curr last_block_prev;
        prev_prev ← get (prev_hash prev_b);
        w ← chk 128 (weight prev_b - weight prev_prev);
        old_difficulty ← ok_or (checked 64 w) InvalidData;
        weight_diff ← chk 128 (weight last_block_curr - weight last_block_prev);
        retarget_difficulty old_difficulty weight_diff actual_epoch_time))))))).

Definition get_next_sub_slot_iters (fuel : nat) (prev_header_hash : list Z) (h curr_sub_slot_iters block_deficit : Z)
    (block_at_height_included_ses new_slot : bool) (signage_point_total_iters : Z) : option (io Z) :=
  fbind (Some (chk 32 (h + 1))) (λ next_height,
  if next_height <? epoch_blocks c then ret (sub_slot_iters_starting c)
  else
    fbind (Some (get prev_header_hash)) (λ prev_b,
    fbind (can_finish_sub_and_full_epoch fuel h prev_header_hash block_deficit block_at_height_included_ses)
      (λ '(_, can_finish_epoch),
    if negb new_slot || negb can_finish_epoch then ret curr_sub_slot_iters
    else
      fbind (get_second_to_last_transaction_block_in_previous_epoch fuel prev_b) (λ last_block_prev,
      fbind (last_tx_before fuel signage_point_total_iters prev_b) (λ last_block_curr,
      Some (
        block_time ← elapsed last_block_curr last_block_prev;
        iters_diff ← chk 128 (total_iters last_block_curr - total_iters last_block_prev);
        retarget_ssi (sub_slot_iters last_block_curr) iters_diff block_time)))))).

Definition get_next_sub_slot_iters_and_difficulty (fuel : nat) (is_first_in_sub_slot : bool)
    (prev_b : option BlockRecord) : option (io (Z * Z)) :=
  match prev_b with
  | None => ret (sub_slot_iters_starting c, difficulty_starting c)
  | Some prev_b =>
      fbind (Some (
        if negb (height prev_b =? 0) then
          prev_prev ← get (prev_hash prev_b);
          w ← chk 128 (weight prev_b - weight prev_prev);
          ok_or (checked 64 w) InvalidData
        else ok_or (checked 64 (weight prev_b)) InvalidData)) (λ prev_difficulty,
      if bool_decide (is_Some (sub_epoch_summary_included prev_b))
      then ret (sub_slot_iters prev_b, prev_difficulty)
      else
        fbind (Some (sp_total_iters c prev_b)) (λ sp_total,
        fbind (get_next_difficulty fuel (prev_hash prev_b) (height prev_b) prev_difficulty (deficit prev_b)
                 false is_first_in_sub_slot sp_total) (λ difficulty,
        fbind (get_next_sub_slot_iters fuel (prev_hash prev_b) (height prev_b) (sub_slot_iters prev_b)
                 (deficit prev_b) false is_first_in_sub_slot sp_total) (λ ssi,
        ret (ssi, difficulty)))))
  end.
End walks.

(** * Significant bits *)

Lemma trailing_zeros_divide p : (2 ^ trailing_zeros (Zpos p) | Zpos p).
Proof.
  cbn [trailing_zeros]. induction p as [p IH|p [k Hk]|]; cbn [trailing_zeros_pos]; try apply Z.divide_1_l.
  exists k. assert (0 ≤ trailing_zeros_pos p) by (clear; induction p; cbn; lia).
  rewrite Z.pow_add_r by lia. rewrite Pos2Z.inj_xO, Hk. lia.
Qed.

Lemma trailing_zeros_max p k : 0 ≤ k → (2 ^ k | Zpos p) → k ≤ trailing_zeros (Zpos p).
Proof.
  cbn [trailing_zeros]. revert k. induction p as [p IH|p IH|]; intros k Hk [x Hx]; cbn [trailing_zeros_pos].
  - destruct (Z.eq_dec k 0) as [->|]; [lia|]. exfalso.
    replace k with (1 + (k - 1)) in Hx by lia. rewrite Z.pow_add_r in Hx by lia.
    rewrite Pos2Z.inj_xI in Hx. lia.
  - destruct (Z.eq_dec k 0) as [->|].
    { assert (0 ≤ trailing_zeros_pos p) by (clear; induction p; cbn; lia). lia. }
    specialize (IH (k - 1)). rewrite Z.add_comm. enough (k - 1 ≤ trailing_zeros_pos p) by lia.
    apply IH; [lia|]. exists x. replace k with (1 + (k - 1)) in Hx by lia.
    rewrite Z.pow_add_r in Hx by lia. rewrite Pos2Z.inj_xO in Hx. lia.
  - destruct (Z.eq_dec k 0) as [->|]; [lia|]. exfalso.
    replace k with (1 + (k - 1)) in Hx by lia. rewrite Z.pow_add_r in Hx by lia. lia.
Qed.

(** A positive value has at most [n] significant bits when it is a multiple of
    the power of two that leaves [n] bits. *)
Lemma count_bits_le v n :
  0 < v → count_significant_bits v ≤ n ↔ (2 ^ Z.max 0 (bit_length v - n) | v).
Proof.
  intros Hv. unfold count_significant_bits. rewrite (proj2 (Z.eqb_neq v 0)) by lia.
  destruct v as [|p|p]; [lia| |lia]. split; intros Hle.
  - apply Z.divide_trans with (2 ^ trailing_zeros (Zpos p)); [|apply trailing_zeros_divide].
    assert (0 ≤ trailing_zeros (Zpos p)) by (cbn [trailing_zeros]; clear; induction p; cbn; lia).
    exists (2 ^ (trailing_zeros (Zpos p) - Z.max 0 (bit_length (Zpos p) - n))).
    rewrite <-Z.pow_add_r by lia. f_equal. lia.
  - apply trailing_zeros_max in Hle; lia.
Qed.

Lemma bit_length_unique v k : 0 < k → 2 ^ (k - 1) ≤ v < 2 ^ k → bit_length v = k.
Proof.
  intros Hk Hv. assert (0 < v) by (pose proof (Z.pow_pos_nonneg 2 (k - 1)); lia).
  pose proof (bit_length_bounds v H) as Hb. pose proof (bit_length_nonneg v).
  assert (2 ^ (k - 1) < 2 ^ bit_length v ∧ 2 ^ (bit_length v - 1) < 2 ^ k) as [H1 H2] by lia.
  apply Z.pow_lt_mono_r_iff in H1; [|lia..]. apply Z.pow_lt_mono_r_iff in H2; lia.
Qed.

Section truncate.
Context (v n : Z) (Hn : 1 ≤ n) (Hv : 0 ≤ v).
Let t := truncate_to_significant_bits v n.

Lemma truncate_cases :
  t = v ∧ bit_length v ≤ n ∨
  n < bit_length v ∧ t = v / 2 ^ (bit_length v - n) * 2 ^ (bit_length v - n) ∧
  2 ^ (bit_length v - 1) ≤ t ≤ v ∧ v < t + 2 ^ (bit_length v - n).
Proof.
  unfold t, truncate_to_significant_bits. destruct (Z.leb_spec (bit_length v) n) as [Hle|Hgt]; [by left|right].
  assert (Hpos : 0 < v).
  { destruct (Z.eq_dec v 0) as [->|]; [rewrite bit_length_0 in Hgt; lia|lia]. }
  pose proof (bit_length_bounds v Hpos) as Hb.
  rewrite Z.shiftr_div_pow2, Z.shiftl_mul_pow2 by lia. set (l := bit_length v - n) in *.
  assert (Hl : 0 < 2 ^ l) by (apply Z.pow_pos_nonneg; lia).
  pose proof (Z.div_mod v (2 ^ l)). pose proof (Z.mod_pos_bound v (2 ^ l)).
  split_and!; [done|done| |lia|lia].
  replace (bit_length v - 1) with ((n - 1) + l) by lia. rewrite Z.pow_add_r by lia.
  apply Z.mul_le_mono_nonneg_r; [lia|]. apply Z.div_le_lower_bound; [lia|].
  rewrite Z.mul_comm, <-Z.pow_add_r by lia. replace (n - 1 + l) with (bit_length v - 1) by lia. lia.
Qed.

Lemma truncate_le : 0 ≤ t ≤ v.
Proof.
  destruct truncate_cases as [[-> _]|(Hgt & _ & Hb & _)]; [lia|].
  pose proof (Z.pow_nonneg 2 (bit_length v - 1)). lia.
Qed.

Lemma truncate_bits : count_significant_bits t ≤ n.
Proof.
  destruct (Z.eq_dec t 0) as [->|Ht]; [cbn; lia|]. pose proof truncate_le.
  apply count_bits_le; [lia|].
  destruct truncate_cases as [[-> Hle]|(Hgt & Heq & Hb & _)].
  - rewrite Z.max_l by lia. apply Z.divide_1_l.
  - assert (Hbl : bit_length t = bit_length v).
    { apply bit_length_unique; [lia|]. assert (0 < v) by lia.
      pose proof (bit_length_bounds v ltac:(lia)). lia. }
    rewrite Hbl, Z.max_r, Heq by lia. apply Z.divide_factor_r.
Qed.

Lemma truncate_greatest w : w ≤ v → count_significant_bits w ≤ n → w ≤ t.
Proof.
  intros Hw Hc. pose proof truncate_le. destruct (Z.le_gt_cases w 0); [lia|].
  destruct truncate_cases as [[-> _]|(Hgt & Heq & Hb & Hlt)]; [done|].
  apply count_bits_le in Hc; [|lia].
  pose proof (bit_length_bounds w ltac:(lia)) as Hwb. pose proof (bit_length_bounds v ltac:(lia)) as Hvb.
  destruct (Z.lt_trichotomy (bit_length w) (bit_length v)) as [Hl|[He|Hg]].
  - assert (2 ^ bit_length w ≤ 2 ^ (bit_length v - 1)) by (apply Z.pow_le_mono_r; lia). lia.
  - rewrite He, Z.max_r in Hc by lia. destruct Hc as [x Hx]. rewrite Heq, Hx.
    apply Z.mul_le_mono_nonneg_r; [apply Z.pow_nonneg; lia|].
    apply Z.div_le_lower_bound; [apply Z.pow_pos_nonneg; lia|]. lia.
  - assert (2 ^ bit_length v ≤ 2 ^ (bit_length w - 1)) by (apply Z.pow_le_mono_r; lia). lia.
Qed.
End truncate.

(** [truncate_to_significant_bits] rounds down to the greatest value with
    at most [n] significant bits, as [count_significant_bits] counts them; it
    loses less than one part in [2^(n-1)]. *)
Theorem truncate_correct v n :
  1 ≤ n → 0 ≤ v →
  let t := truncate_to_significant_bits v n in
  0 ≤ t ≤ v ∧ count_significant_bits t ≤ n ∧
  (∀ w, w ≤ v → count_significant_bits w ≤ n → w ≤ t) ∧ (v - t) * 2 ^ (n - 1) ≤ v.
Proof.
  intros Hn Hv t. split_and!;
    [by apply truncate_le..|by apply truncate_bits|by apply truncate_greatest|].
  unfold t. destruct (truncate_cases v n Hn Hv) as [[Ht _]|(Hgt & _ & Hb & Hlt)].
  - rewrite Ht. lia.
  - assert (2 ^ (bit_length v - n) * 2 ^ (n - 1) = 2 ^ (bit_length v - 1))
      by (rewrite <-Z.pow_add_r by lia; f_equal; lia).
    pose proof (Z.pow_pos_nonneg 2 (n - 1) ltac:(lia) ltac:(lia)). nia.
Qed.

Lemma truncate_correct_witness :
  count_significant_bits (truncate_to_significant_bits 123456789 8) ≤ 8.
Proof. refine (proj1 (proj2 (truncate_correct 123456789 8 _ _))); lia. Defined.

(** * Retargeting *)
Record retarget_constants_ok (c : ConsensusConstants) : Prop := {
  factor_range : 1 ≤ difficulty_change_max_factor c < 2 ^ 32;
  bits_range : 1 ≤ significant_bits c;
  target_range : 0 < slot_blocks_target c < 2 ^ 32;
  time_range : 0 ≤ sub_slot_time_target c < 2 ^ 64;
  sps_positive : 0 < num_sps_sub_slot c < 2 ^ 32;
  sps_bits : count_significant_bits (num_sps_sub_slot c) ≤ significant_bits c;
}.

Lemma mainnet_retarget_ok : retarget_constants_ok MAINNET.
Proof. split; vm_compute; intuition congruence. Qed.

(** The new value, limited to a factor of the old one and never below [floor]. *)
Definition clamped (c : ConsensusConstants) (old new floor : Z) : Z :=
  let f := difficulty_change_max_factor c in
  if old <=? new then Z.min new (f * old) else Z.max (Z.max new floor) (old / f).

Section retarget.
Context (c : ConsensusConstants) (Hc : retarget_constants_ok c).

Lemma clamp_change_eq old new floor :
  0 ≤ old < 2 ^ 64 → clamp_change c old new floor = Ok (clamped c old new floor).
Proof.
  intros Hold. destruct Hc. unfold clamp_change, clamped, div_u.
  rewrite chk_ok by (unfold uok; nia). cbn [mbind res_bind].
  rewrite (proj2 (Z.eqb_neq _ 0)) by lia. cbn [mbind res_bind]. by destruct (old <=? new).
Qed.

Lemma clamped_bounds old new floor :
  1 ≤ floor ≤ old → 0 ≤ new →
  let f := difficulty_change_max_factor c in
  floor ≤ clamped c old new floor ≤ f * old ∧ old / f ≤ clamped c old new floor ∧
  (Z.max floor (old / f) ≤ new ≤ f * old → clamped c old new floor = new).
Proof.
  intros Hfl Hnew f. destruct Hc. unfold clamped. fold f.
  assert (Hdiv : 0 ≤ old / f ≤ old).
  { split; [apply Z.div_pos; unfold f; lia|]. apply Z.div_le_upper_bound; unfold f; nia. }
  assert (old ≤ f * old) by (unfold f; nia).
  destruct (Z.leb_spec old new); lia.
Qed.
End retarget.

(** the difficulty of the next epoch.  From a positive old difficulty the
    new one is the measured difficulty (weight gained against time elapsed),
    limited to a factor of the old one in either direction and rounded down to
    the significant bits; it is at least one, no intermediate product
    overflows, and a result beyond 64 bits is an error. *)
Theorem retarget_difficulty_correct c old weight_diff time :
  retarget_constants_ok c → 1 ≤ old < 2 ^ 64 → 0 < time < 2 ^ 64 →
  0 ≤ weight_diff → weight_diff * sub_slot_time_target c < 2 ^ 128 →
  let f := difficulty_change_max_factor c in
  let measured := weight_diff * sub_slot_time_target c / (slot_blocks_target c * time) in
  let d := truncate_to_significant_bits (clamped c old measured 1) (significant_bits c) in
  retarget_difficulty c old weight_diff time = (if d <? 2 ^ 64 then Ok d else Err InvalidData) ∧
  1 ≤ d ≤ f * old ∧ count_significant_bits d ≤ significant_bits c ∧
  truncate_to_significant_bits (old / f) (significant_bits c) ≤ d ∧
  (Z.max 1 (old / f) ≤ measured ≤ f * old → d = truncate_to_significant_bits measured (significant_bits c)).
Proof.
  intros Hc Hold Htime Hw Hprod f measured d. pose proof Hc as []. subst f.
  set (f := difficulty_change_max_factor c) in *.
  assert (Hden : 0 < slot_blocks_target c * time < 2 ^ 128) by nia.
  assert (Hm : 0 ≤ measured) by (apply Z.div_pos; [apply Z.mul_nonneg_nonneg|]; lia).
  destruct (clamped_bounds c Hc old measured 1) as (Hb & Hlow & Hid); [lia..|]. fold f in Hb, Hlow, Hid.
  assert (Hof : 0 ≤ old / f) by (apply Z.div_pos; unfold f; lia).
  destruct (truncate_le (clamped c old measured 1) (significant_bits c)) as [Ht0 Ht]; [lia..|]. fold d in Ht0, Ht.
  split_and!.
  - unfold retarget_difficulty. rewrite chk_ok by (unfold uok; split; [apply Z.mul_nonneg_nonneg|]; lia).
    cbn [mbind res_bind]. rewrite chk_ok by (unfold uok; lia). cbn [mbind res_bind].
    unfold div_u. rewrite (proj2 (Z.eqb_neq _ 0)) by lia. cbn [mbind res_bind]. fold measured.
    rewrite (clamp_change_eq c Hc) by lia. cbn [mbind res_bind]. fold d.
    unfold checked, uokb. rewrite (proj2 (Z.leb_le 0 d)) by lia. by destruct (d <? 2 ^ 64).
  - apply (truncate_greatest (clamped c old measured 1) (significant_bits c)); [lia..|]. cbn. lia.
  - lia.
  - apply truncate_bits; lia.
  - apply (truncate_greatest (clamped c old measured 1) (significant_bits c)); [lia..| |].
    + destruct (truncate_le (old / f) (significant_bits c)); lia.
    + by apply truncate_bits.
  - intros Hr. unfold d. by rewrite Hid.
Qed.

Lemma retarget_difficulty_correct_witness :
  retarget_difficulty MAINNET 1000 (4608 * 1100) 86400 = Ok 1096.
Proof.
  refine (proj1 (retarget_difficulty_correct MAINNET 1000 (4608 * 1100) 86400 mainnet_retarget_ok _ _ _ _));
    vm_compute; intuition congruence.
Defined.

(** the sub-slot iterations of the next epoch.  From iterations of at
    least one per signage point, the new value is the measured speed, limited
    to a factor of the old one and rounded down to the significant bits and to
    a multiple of the signage points: it is positive, divides evenly into
    signage point intervals, and never grows by more than the factor. *)
Theorem retarget_ssi_correct c curr_ssi iters_diff time s :
  retarget_constants_ok c → num_sps_sub_slot c ≤ curr_ssi < 2 ^ 64 → 0 < time →
  0 ≤ iters_diff → sub_slot_time_target c * iters_diff < 2 ^ 128 →
  let measured := sub_slot_time_target c * iters_diff / time in
  let t := truncate_to_significant_bits (clamped c curr_ssi measured (num_sps_sub_slot c)) (significant_bits c) in
  retarget_ssi c curr_ssi iters_diff time =
    (if t - t mod num_sps_sub_slot c <? 2 ^ 64 then Ok (t - t mod num_sps_sub_slot c) else Err InvalidData) ∧
  (retarget_ssi c curr_ssi iters_diff time = Ok s →
   0 < s ≤ difficulty_change_max_factor c * curr_ssi ∧
   calculate_sp_interval_iters c s = Ok (s / num_sps_sub_slot c)).
Proof.
  intros Hc Hssi Htime Hit Hprod measured t. pose proof Hc as [].
  assert (Hm : 0 ≤ measured) by (apply Z.div_pos; [apply Z.mul_nonneg_nonneg|]; lia).
  destruct (clamped_bounds c Hc curr_ssi measured (num_sps_sub_slot c)) as (Hb & _ & _); [lia..|].
  set (x := clamped c curr_ssi measured (num_sps_sub_slot c)) in *.
  destruct (truncate_le x (significant_bits c)) as [Ht0 Ht]; [lia..|].
  assert (Hsps : num_sps_sub_slot c ≤ t) by (apply truncate_greatest; lia || done).
  pose proof (Z.mod_pos_bound t (num_sps_sub_slot c) ltac:(lia)) as Hmod.
  assert (Heq : retarget_ssi c curr_ssi iters_diff time =
    if t - t mod num_sps_sub_slot c <? 2 ^ 64 then Ok (t - t mod num_sps_sub_slot c) else Err InvalidData).
  { unfold retarget_ssi. rewrite chk_ok by (unfold uok; split; [apply Z.mul_nonneg_nonneg|]; lia).
    cbn [mbind res_bind]. unfold div_u. rewrite (proj2 (Z.eqb_neq time 0)) by lia. cbn [mbind res_bind].
    fold measured. rewrite (clamp_change_eq c Hc) by lia. cbn [mbind res_bind]. fold x. fold t.
    unfold rem_u. rewrite (proj2 (Z.eqb_neq (num_sps_sub_slot c) 0)) by lia. cbn [mbind res_bind].
    unfold checked, uokb. rewrite (proj2 (Z.leb_le 0 _)) by lia. by destruct (_ <? 2 ^ 64). }
  split; [exact Heq|]. rewrite Heq. destruct (_ <? _); [|done]. intros <-%Ok_inj.
  assert (Hdm : t - t mod num_sps_sub_slot c = num_sps_sub_slot c * (t / num_sps_sub_slot c))
    by (pose proof (Z.div_mod t (num_sps_sub_slot c)); lia).
  assert (1 ≤ t / num_sps_sub_slot c) by (apply Z.div_le_lower_bound; lia).
  split; [nia|]. unfold calculate_sp_interval_iters, is_multiple_of, div_u.
  rewrite !(proj2 (Z.eqb_neq (num_sps_sub_slot c) 0)) by lia.
  by rewrite Hdm, Z.mul_comm, Z.mod_mul by lia.
Qed.

Lemma retarget_ssi_correct_witness :
  retarget_ssi MAINNET (2 ^ 27) (2 ^ 34) 86400 = Ok 119013376 ∧
  0 < 119013376 ≤ 3 * 2 ^ 27 ∧ calculate_sp_interval_iters MAINNET 119013376 = Ok (119013376 / 64).
Proof.
  split; [reflexivity|].
  apply (proj2 (retarget_ssi_correct MAINNET (2 ^ 27) (2 ^ 34) 86400 119013376 mainnet_retarget_ok
    ltac:(vm_compute; intuition congruence) ltac:(lia) ltac:(lia) ltac:(vm_compute; congruence))).
  reflexivity.
Defined.

(** * Walks *)
Section chain.
Context (c : ConsensusConstants) (blocks : gmap (list Z) BlockRecord).

(** Heights fall along [prev_hash]. *)
Definition descends (b : BlockRecord) : Prop :=
  0 ≤ height b ∧ ∀ p, blocks !! prev_hash b = Some p → height p < height b.
Definition chain_ok : Prop := ∀ h b, blocks !! h = Some b → descends b.
Hypothesis Hchain : chain_ok.

(** [b] is [n] steps before [a]. *)
Inductive ancestor : nat → BlockRecord → BlockRecord → Prop :=
  | ancestor_self b : ancestor 0 b b
  | ancestor_prev n a p b : blocks !! prev_hash a = Some p → ancestor n p b → ancestor (S n) a b.

Lemma get_Ok h b : get blocks h = Ok b → blocks !! h = Some b.
Proof. unfold get. by intros ?%ok_or_Ok. Qed.

(** One step of a walk: an error, or a record with a smaller height. *)
Lemma get_prev b :
  descends b →
  get blocks (prev_hash b) = Err NotFound ∨
  ∃ p, get blocks (prev_hash b) = Ok p ∧ descends p ∧ 0 ≤ height p < height b.
Proof.
  intros [_ Hb]. unfold get. destruct (blocks !! prev_hash b) as [p|] eqn:Hp; [right|by left].
  exists p. split; [done|]. pose proof (Hchain _ _ Hp) as Hd. split; [done|].
  split; [apply Hd|]. by apply Hb.
Qed.

(** A walk ends within the height of its start: at a record that meets the
    condition, or with the error for a record that is not there. *)
Lemma walk_total fuel stop b :
  descends b → height b < Z.of_nat fuel →
  walk blocks fuel stop b = Some (Err NotFound) ∨
  ∃ n a, walk blocks fuel stop b = Some (Ok a) ∧ ancestor n b a ∧ stop a = true ∧ descends a ∧
    height a ≤ height b.
Proof.
  revert b. induction fuel as [|fuel IH]; intros b Hb Hf; [destruct Hb; lia|].
  cbn [walk]. destruct (stop b) eqn:Hs.
  { right. exists 0%nat, b. split_and!; try done; try lia. constructor. }
  destruct (get_prev b Hb) as [->|(p & Hp & Hd & Hlt)]; [by left|]. rewrite Hp. cbn [fbind].
  destruct (IH p Hd) as [?|(n & a & Hw & Ha & Hst & Hda & Hle)]; [lia|by left|right].
  exists (S n), a. split_and!; try done; [|lia]. eapply ancestor_prev; [by apply get_Ok|done].
Qed.

(** The sub-epoch walk answers whether a record from [b] down to the first one
    at a sub-epoch boundary includes a summary. *)
Lemma ses_walk fuel b :
  0 < sub_epoch_blocks c → descends b → height b < Z.of_nat fuel →
  ses_in_sub_epoch c blocks fuel b = Some (Err NotFound) ∨
  ∃ r : bool, ses_in_sub_epoch c blocks fuel b = Some (Ok r) ∧
    (r = true ↔ ∃ n a, ancestor n b a ∧ is_Some (sub_epoch_summary_included a) ∧
       ∀ m d, (m < n)%nat → ancestor m b d → height d mod sub_epoch_blocks c ≠ 0).
Proof.
  intros Hseb. revert b. induction fuel as [|fuel IH]; intros b Hb Hf; [destruct Hb; lia|].
  cbn [ses_in_sub_epoch]. unfold rem_u. rewrite (proj2 (Z.eqb_neq _ 0)) by lia.
  pose proof (Z.mod_pos_bound (height b) (sub_epoch_blocks c) Hseb) as Hmod.
  destruct (bool_decide (is_Some (sub_epoch_summary_included b))) eqn:Hses.
  { right. exists true. split; [by destruct (0 <? _)|]. split; [intros _|done].
    apply bool_decide_eq_true in Hses. exists 0%nat, b. split_and!; [constructor|done|lia]. }
  apply bool_decide_eq_false in Hses.
  assert (Hself : ∀ a, ancestor 0 b a → a = b) by (intros a Ha; by inversion Ha).
  destruct (Z.ltb_spec 0 (height b mod sub_epoch_blocks c)) as [Hpos|Hz].
  2:{ right. exists false. split; [done|]. split; [done|]. intros (n & a & Ha & Hs & Hbound).
      destruct n as [|n]; [by apply Hself in Ha as ->|].
      specialize (Hbound 0%nat b ltac:(lia) (ancestor_self b)). lia. }
  destruct (get_prev b Hb) as [->|(p & Hp & Hd & Hlt)]; [by left|]. rewrite Hp. cbn [fbind].
  destruct (IH p Hd) as [?|(r & Hw & Hr)]; [lia|by left|right]. exists r. split; [done|]. rewrite Hr.
  apply get_Ok in Hp. split.
  - intros (n & a & Ha & Hs & Hbound). exists (S n), a. split_and!; [eapply ancestor_prev; eassumption|done|].
    intros [|m] d Hm Had; [apply Hself in Had as ->; lia|]. inversion Had; subst.
    simplify_eq. eapply (Hbound m); [lia|done].
  - intros (n & a & Ha & Hs & Hbound). destruct n as [|n]; [by apply Hself in Ha as ->|].
    inversion Ha; subst. simplify_eq. exists n, a. split_and!; [done|done|].
    intros m d Hm Had. apply (Hbound (S m) d); [lia|]. eapply ancestor_prev; eassumption.
Qed.

Lemma collect_total fuel floor b m bound :
  descends b → height b < Z.of_nat fuel → height b ≤ bound →
  (∀ k v, m !! k = Some v → k ≤ bound) →
  ∃ r, collect_by_height blocks fuel floor b m = Some r ∧
    ∀ m', r = Ok m' → ∀ k v, m' !! k = Some v → k ≤ bound.
Proof.
  revert b m. induction fuel as [|fuel IH]; intros b m Hb Hf Hle Hm; [destruct Hb; lia|].
  assert (Hm' : ∀ k v, <[height b := b]> m !! k = Some v → k ≤ bound).
  { intros k v [[<- _]|[_ ?]]%lookup_insert_Some; eauto. }
  cbn [collect_by_height]. destruct (height b <? floor).
  { eexists. split; [done|]. by intros m' [= <-]. }
  destruct (get_prev b Hb) as [->|(p & Hp & Hd & Hlt)].
  { eexists. split; [done|]. done. }
  rewrite Hp. cbn [fbind]. apply IH; [done|lia|lia|done].
Qed.

Lemma find_summary_total fuel m k bound :
  (∀ k v, m !! k = Some v → k ≤ bound) → bound - k < Z.of_nat fuel →
  ∃ r, find_summary fuel m k = Some r.
Proof.
  intros Hm. revert k. induction fuel as [|fuel IH]; intros k Hf; cbn [find_summary].
  all: destruct (m !! k) as [b|] eqn:Hk; cbn [ok_or fbind]; [|by eexists].
  all: apply Hm in Hk; destruct (bool_decide _); [by eexists|]; try lia.
  destruct (chk 32 (k + 1)) as [k'|e|] eqn:Hc; cbn [fbind]; [|by eexists..].
  apply chk_Ok in Hc as [_ ->]. apply IH. lia.
Qed.

Lemma second_tx_total fuel found b :
  descends b → height b < Z.of_nat fuel → ∃ r, second_tx_block blocks fuel found b = Some r.
Proof.
  revert found b. induction fuel as [|fuel IH]; intros found b Hb Hf; [destruct Hb; lia|].
  cbn [second_tx_block]. destruct (2 <=? found); [by eexists|].
  destruct (get_prev b Hb) as [->|(p & Hp & Hd & Hlt)]; [by eexists|]. rewrite Hp. cbn [fbind].
  apply IH; [done|lia].
Qed.

Lemma collect_descends fuel floor b m :
  descends b → (∀ k v, m !! k = Some v → descends v ∧ height v = k) →
  ∀ m', collect_by_height blocks fuel floor b m = Some (Ok m') →
  ∀ k v, m' !! k = Some v → descends v ∧ height v = k.
Proof.
  revert b m. induction fuel as [|fuel IH]; intros b m Hb Hm m'.
  all: assert (Hm' : ∀ k v, <[height b := b]> m !! k = Some v → descends v ∧ height v = k)
    by (intros k v [[<- <-]|[_ ?]]%lookup_insert_Some; eauto).
  all: cbn [collect_by_height]; destruct (height b <? floor); [by intros [= <-]|].
  - done.
  - destruct (get_prev b Hb) as [->|(p & Hp & Hd & Hlt)]; [done|]. rewrite Hp. cbn [fbind]. by apply IH.
Qed.

Lemma fbind_total {A B} (m : option (io A)) (f : A → option (io B)) :
  (∃ r, m = Some r) → (∀ a, m = Some (Ok a) → ∃ r, f a = Some r) → ∃ r, fbind m f = Some r.
Proof. intros [[a|e|] ->] Hf; cbn; eauto. Qed.

Lemma second_to_last_total fuel b :
  descends b → height b < Z.of_nat fuel →
  ∃ r, get_second_to_last_transaction_block_in_previous_epoch c blocks fuel b = Some r.
Proof.
  intros Hb Hf. unfold get_second_to_last_transaction_block_in_previous_epoch.
  apply fbind_total; [by eexists|]. intros h_next _. apply fbind_total; [by eexists|]. intros r _.
  apply fbind_total; [by eexists|]. intros floor Hfl. apply (inj Some), chk_Ok in Hfl as [[Hfl _] ->].
  apply fbind_total; [by eexists|]. intros m5 _. destruct (m5 <=? _); [by eexists|].
  destruct (_ =? 0).
  { destruct (walk_total fuel (λ b, negb (0 <? height b)) b Hb Hf) as [->|(n & a & -> & _)]; by eexists. }
  set (floor := h_next - r - epoch_blocks c) in *.
  destruct (collect_total fuel floor b ∅ (height b) Hb Hf) as (rm & Hr & Hbound); [lia|done|].
  apply fbind_total; [eauto|]. intros m Hm. rewrite Hm in Hr. injection Hr as <-.
  apply fbind_total; [eapply find_summary_total; [by apply Hbound|lia]|]. intros next _.
  apply fbind_total; [by eexists|]. intros curr Hcurr. apply (inj Some) in Hcurr.
  apply bind_Ok_inv in Hcurr as (i & _ & Hi%ok_or_Ok).
  pose proof (Hbound m eq_refl i curr Hi) as Hle.
  destruct (collect_descends fuel floor b ∅ Hb) with (m' := m) (k := i) (v := curr) as [Hd Hh]; [done..|].
  apply second_tx_total; [done|lia].
Qed.

Lemma can_finish_total fuel h prev d ses :
  0 < sub_epoch_blocks c → (∀ p, blocks !! prev = Some p → height p < Z.of_nat fuel) →
  ∃ r, can_finish_sub_and_full_epoch c blocks fuel h prev d ses = Some r.
Proof.
  intros Hseb Hp. unfold can_finish_sub_and_full_epoch.
  apply fbind_total; [by eexists|]. intros last _. repeat (case_match; [by eexists|]).
  do 2 (apply fbind_total; [by eexists|]; intros ? _).
  apply fbind_total.
  - case_match; [|by eexists]. apply fbind_total; [by eexists|]. intros p Hg%(inj Some)%get_Ok.
    destruct (ses_walk fuel p Hseb (Hchain _ _ Hg) (Hp p Hg)) as [->|(r & -> & _)]; by eexists.
  - intros included _. destruct included; [by eexists|]. apply fbind_total; by eexists.
Qed.
End chain.


