(* ===== verification/Conditions.v ===== *)
(** * Conditions: [core/src/blockchain/condition_opcode.rs] and
    [condition_with_args.rs]

    A puzzle's output is a list of conditions, each an opcode with arguments.
    The file models the opcodes, the decoder from CLVM trees
    ([op_code_with_args_from_sexp], [from_opcode_with_args]), the encoder
    ([op_code_with_args]), the wire codec, and the messages that [AGG_SIG]
    conditions sign ([blockchain/utils.rs], [clvm/condition_utils.rs]).

    The theorems: what decoding an encoded condition gives, for every
    condition (with the four kinds that do not come back as they were); and
    which signed messages an [AGG_SIG_UNSAFE] message cannot imitate. *)
From Stdlib Require Import ZArith Lia.
From stdpp Require Import base list numbers option.
From S2P Require Import Prelude Serialize ClvmNumber ClvmSexp Coin ClvmPath ClvmParser.

Open Scope Z_scope.

(** ** Opcodes *)
Module Opcode.
Inductive ConditionOpcode :=
  | Unknown
  | Remark
  | AggSigParent
  | AggSigPuzzle
  | AggSigAmount
  | AggSigPuzzleAmount
  | AggSigParentAmount
  | AggSigParentPuzzle
  | AggSigUnsafe
  | AggSigMe
  | CreateCoin
  | ReserveFee
  | CreateCoinAnnouncement
  | AssertCoinAnnouncement
  | CreatePuzzleAnnouncement
  | AssertPuzzleAnnouncement
  | AssertConcurrentSpend
  | AssertConcurrentPuzzle
  | SendMessage
  | ReceiveMessage
  | AssertMyCoinId
  | AssertMyParentId
  | AssertMyPuzzlehash
  | AssertMyAmount
  | AssertMyBirthSeconds
  | AssertMyBirthHeight
  | AssertEphemeral
  | AssertSecondsRelative
  | AssertSecondsAbsolute
  | AssertHeightRelative
  | AssertHeightAbsolute
  | AssertBeforeSecondsRelative
  | AssertBeforeSecondsAbsolute
  | AssertBeforeHeightRelative
  | AssertBeforeHeightAbsolute
  | SoftFork.

#[global] Instance condition_opcode_dec : EqDecision ConditionOpcode.
Proof. solve_decision. Defined.
End Opcode.
Notation ConditionOpcode := Opcode.ConditionOpcode.

(** The discriminants. *)
Definition opcode_u8 (op : ConditionOpcode) : Z :=
  match op with
  | Opcode.Unknown => 0
  | Opcode.Remark => 1
  | Opcode.AggSigParent => 43
  | Opcode.AggSigPuzzle => 44
  | Opcode.AggSigAmount => 45
  | Opcode.AggSigPuzzleAmount => 46
  | Opcode.AggSigParentAmount => 47
  | Opcode.AggSigParentPuzzle => 48
  | Opcode.AggSigUnsafe => 49
  | Opcode.AggSigMe => 50
  | Opcode.CreateCoin => 51
  | Opcode.ReserveFee => 52
  | Opcode.CreateCoinAnnouncement => 60
  | Opcode.AssertCoinAnnouncement => 61
  | Opcode.CreatePuzzleAnnouncement => 62
  | Opcode.AssertPuzzleAnnouncement => 63
  | Opcode.AssertConcurrentSpend => 64
  | Opcode.AssertConcurrentPuzzle => 65
  | Opcode.SendMessage => 66
  | Opcode.ReceiveMessage => 67
  | Opcode.AssertMyCoinId => 70
  | Opcode.AssertMyParentId => 71
  | Opcode.AssertMyPuzzlehash => 72
  | Opcode.AssertMyAmount => 73
  | Opcode.AssertMyBirthSeconds => 74
  | Opcode.AssertMyBirthHeight => 75
  | Opcode.AssertEphemeral => 76
  | Opcode.AssertSecondsRelative => 80
  | Opcode.AssertSecondsAbsolute => 81
  | Opcode.AssertHeightRelative => 82
  | Opcode.AssertHeightAbsolute => 83
  | Opcode.AssertBeforeSecondsRelative => 84
  | Opcode.AssertBeforeSecondsAbsolute => 85
  | Opcode.AssertBeforeHeightRelative => 86
  | Opcode.AssertBeforeHeightAbsolute => 87
  | Opcode.SoftFork => 90
  end.

(** [From<u8> for ConditionOpcode] *)
Definition opcode_from_u8 (value : Z) : ConditionOpcode :=
  match value with
  | 1 => Opcode.Remark
  | 43 => Opcode.AggSigParent
  | 44 => Opcode.AggSigPuzzle
  | 45 => Opcode.AggSigAmount
  | 46 => Opcode.AggSigPuzzleAmount
  | 47 => Opcode.AggSigParentAmount
  | 48 => Opcode.AggSigParentPuzzle
  | 49 => Opcode.AggSigUnsafe
  | 50 => Opcode.AggSigMe
  | 51 => Opcode.CreateCoin
  | 52 => Opcode.ReserveFee
  | 60 => Opcode.CreateCoinAnnouncement
  | 61 => Opcode.AssertCoinAnnouncement
  | 62 => Opcode.CreatePuzzleAnnouncement
  | 63 => Opcode.AssertPuzzleAnnouncement
  | 64 => Opcode.AssertConcurrentSpend
  | 65 => Opcode.AssertConcurrentPuzzle
  | 66 => Opcode.SendMessage
  | 67 => Opcode.ReceiveMessage
  | 70 => Opcode.AssertMyCoinId
  | 71 => Opcode.AssertMyParentId
  | 72 => Opcode.AssertMyPuzzlehash
  | 73 => Opcode.AssertMyAmount
  | 74 => Opcode.AssertMyBirthSeconds
  | 75 => Opcode.AssertMyBirthHeight
  | 76 => Opcode.AssertEphemeral
  | 80 => Opcode.AssertSecondsRelative
  | 81 => Opcode.AssertSecondsAbsolute
  | 82 => Opcode.AssertHeightRelative
  | 83 => Opcode.AssertHeightAbsolute
  | 84 => Opcode.AssertBeforeSecondsRelative
  | 85 => Opcode.AssertBeforeSecondsAbsolute
  | 86 => Opcode.AssertBeforeHeightRelative
  | 87 => Opcode.AssertBeforeHeightAbsolute
  | 90 => Opcode.SoftFork
  | _ => Opcode.Unknown
  end.

(** [From<&SExp> for ConditionOpcode] *)
Definition opcode_from_sexp (value : SExp) : ConditionOpcode :=
  match value with
  | Atom (v :: _) => opcode_from_u8 v
  | _ => Opcode.Unknown
  end.

(** ** Arguments *)
Module ArgsType.
Inductive MessageArgsType :=
  None | CoinId | Parent | Puzzle | Amount | ParentPuzzle | ParentAmount | PuzzleAmount.
End ArgsType.
Notation MessageArgsType := ArgsType.MessageArgsType.

Module Args.
Inductive MessageArgs :=
  | None
  | CoinId (coin_id : list Z)
  | Parent (parent : list Z)
  | Puzzle (puzzle_hash : list Z)
  | Amount (amount : Z)
  | ParentPuzzle (parent puzzle_hash : list Z)
  | ParentAmount (parent : list Z) (amount : Z)
  | PuzzleAmount (puzzle_hash : list Z) (amount : Z).

#[global] Instance message_args_dec : EqDecision MessageArgs.
Proof. solve_decision. Defined.
End Args.
Notation MessageArgs := Args.MessageArgs.

(** [Message] is a length and a buffer of 1024 bytes, zero past the length:
    the list of its [data]. *)
Definition message_new (msg : list Z) : clvm (list Z) :=
  if 1024 <? zlen msg then Err InvalidInputE else Ok msg.

(** [From<Vec<u8>> for SizedBytesImpl]: longer inputs are cut, shorter ones
    padded on the right. *)
Definition sized_from (SIZE : nat) (vec : list Z) : list Z :=
  take SIZE vec ++ replicate (SIZE - length vec) 0.

(** ** Conditions *)
Inductive ConditionWithArgs :=
  | Unknown
  | Remark (msg : list Z)
  | AggSigParent (key msg : list Z)
  | AggSigPuzzle (key msg : list Z)
  | AggSigAmount (key msg : list Z)
  | AggSigPuzzleAmount (key msg : list Z)
  | AggSigParentAmount (key msg : list Z)
  | AggSigParentPuzzle (key msg : list Z)
  | AggSigUnsafe (key msg : list Z)
  | AggSigMe (key msg : list Z)
  | CreateCoin (puzzle_hash : list Z) (amount : Z) (memos : list (list Z))
  | ReserveFee (fee : Z)
  | CreateCoinAnnouncement (msg : list Z)
  | AssertCoinAnnouncement (h : list Z)
  | CreatePuzzleAnnouncement (msg : list Z)
  | AssertPuzzleAnnouncement (h : list Z)
  | AssertConcurrentSpend (h : list Z)
  | AssertConcurrentPuzzle (h : list Z)
  | SendMessage (mode : Z) (msg : list Z) (args : Args.MessageArgs)
  | ReceiveMessage (mode : Z) (msg : list Z) (args : Args.MessageArgs)
  | AssertMyCoinId (h : list Z)
  | AssertMyParentId (h : list Z)
  | AssertMyPuzzlehash (h : list Z)
  | AssertMyAmount (amount : Z)
  | AssertMyBirthSeconds (seconds : Z)
  | AssertMyBirthHeight (height : Z)
  | AssertEphemeral
  | AssertSecondsRelative (seconds : Z)
  | AssertSecondsAbsolute (seconds : Z)
  | AssertHeightRelative (height : Z)
  | AssertHeightAbsolute (height : Z)
  | AssertBeforeSecondsRelative (seconds : Z)
  | AssertBeforeSecondsAbsolute (seconds : Z)
  | AssertBeforeHeightRelative (height : Z)
  | AssertBeforeHeightAbsolute (height : Z)
  | SoftFork (cost : Z).

#[global] Instance condition_with_args_dec : EqDecision ConditionWithArgs.
Proof. solve_decision. Defined.

(** [From<u8>], [From<u64>] and [From<u32>] for [SExp] *)
Definition sexp_u8 (u : Z) : SExp := if u =? 0 then NULL_SEXP else Atom [u].
Definition sexp_u64 (v : Z) : SExp := Atom (sexp_from_int u64 v).
Definition sexp_u32 (v : Z) : SExp := Atom (sexp_from_int u32 v).

Definition msg_args_sexp_ary (msg_args : MessageArgs) : list SExp :=
  match msg_args with
  | Args.None => []
  | Args.CoinId coin_id => [Atom coin_id]
  | Args.Parent parent => [Atom parent]
  | Args.Puzzle puzzle_hash => [Atom puzzle_hash]
  | Args.Amount amount => [sexp_u64 amount]
  | Args.ParentPuzzle parent puzzle_hash => [Atom parent; Atom puzzle_hash]
  | Args.ParentAmount parent amount => [Atom parent; sexp_u64 amount]
  | Args.PuzzleAmount puzzle_hash amount => [Atom puzzle_hash; sexp_u64 amount]
  end.

Definition memos_to_sexp (memos : list (list Z)) : SExp := sexp_from_list (map Atom memos).

Definition op_code_with_args (c : ConditionWithArgs) : ConditionOpcode * list SExp :=
  match c with
  | Unknown => (Opcode.Unknown, [])
  | Remark msg => (Opcode.Remark, [Atom msg])
  | AggSigParent key msg => (Opcode.AggSigParent, [Atom key; Atom msg])
  | AggSigPuzzle key msg => (Opcode.AggSigPuzzle, [Atom key; Atom msg])
  | AggSigAmount key msg => (Opcode.AggSigAmount, [Atom key; Atom msg])
  | AggSigPuzzleAmount key msg => (Opcode.AggSigPuzzleAmount, [Atom key; Atom msg])
  | AggSigParentAmount key msg => (Opcode.AggSigParentAmount, [Atom key; Atom msg])
  | AggSigParentPuzzle key msg => (Opcode.AggSigParentPuzzle, [Atom key; Atom msg])
  | AggSigUnsafe key msg => (Opcode.AggSigUnsafe, [Atom key; Atom msg])
  | AggSigMe key msg => (Opcode.AggSigMe, [Atom key; Atom msg])
  | CreateCoin puzzle_hash amount memos =>
      (Opcode.CreateCoin, [Atom puzzle_hash; sexp_u64 amount; memos_to_sexp memos])
  | ReserveFee fee => (Opcode.ReserveFee, [sexp_u64 fee])
  | CreateCoinAnnouncement msg => (Opcode.CreateCoinAnnouncement, [Atom msg])
  | AssertCoinAnnouncement h => (Opcode.AssertCoinAnnouncement, [Atom h])
  | CreatePuzzleAnnouncement msg => (Opcode.CreatePuzzleAnnouncement, [Atom msg])
  | AssertPuzzleAnnouncement h => (Opcode.AssertPuzzleAnnouncement, [Atom h])
  | AssertConcurrentSpend h => (Opcode.AssertConcurrentSpend, [Atom h])
  | AssertConcurrentPuzzle h => (Opcode.AssertConcurrentPuzzle, [Atom h])
  | SendMessage mode msg msg_args =>
      (Opcode.SendMessage, [sexp_u8 mode; Atom msg] ++ msg_args_sexp_ary msg_args)
  | ReceiveMessage mode msg msg_args =>
      (Opcode.ReceiveMessage, [sexp_u8 mode; Atom msg] ++ msg_args_sexp_ary msg_args)
  | AssertMyCoinId h => (Opcode.AssertMyCoinId, [Atom h])
  | AssertMyParentId h => (Opcode.AssertMyParentId, [Atom h])
  | AssertMyPuzzlehash h => (Opcode.AssertMyPuzzlehash, [Atom h])
  | AssertMyAmount amount => (Opcode.AssertMyAmount, [sexp_u64 amount])
  | AssertMyBirthSeconds seconds => (Opcode.AssertMyBirthSeconds, [sexp_u64 seconds])
  | AssertMyBirthHeight height => (Opcode.AssertMyBirthHeight, [sexp_u32 height])
  | AssertEphemeral => (Opcode.AssertEphemeral, [])
  | AssertSecondsRelative seconds => (Opcode.AssertSecondsRelative, [sexp_u64 seconds])
  | AssertSecondsAbsolute seconds => (Opcode.AssertSecondsAbsolute, [sexp_u64 seconds])
  | AssertHeightRelative height => (Opcode.AssertHeightRelative, [sexp_u32 height])
  | AssertHeightAbsolute height => (Opcode.AssertHeightAbsolute, [sexp_u32 height])
  | AssertBeforeSecondsRelative seconds => (Opcode.AssertBeforeSecondsRelative, [sexp_u64 seconds])
  | AssertBeforeSecondsAbsolute seconds => (Opcode.AssertBeforeSecondsAbsolute, [sexp_u64 seconds])
  | AssertBeforeHeightRelative height => (Opcode.AssertBeforeHeightRelative, [sexp_u32 height])
  | AssertBeforeHeightAbsolute height => (Opcode.AssertBeforeHeightAbsolute, [sexp_u32 height])
  | SoftFork cost => (Opcode.SoftFork, [sexp_u64 cost])
  end.

Definition op_code (c : ConditionWithArgs) : ConditionOpcode :=
  match c with
  | Unknown => Opcode.Unknown
  | Remark _ => Opcode.Remark
  | AggSigParent _ _ => Opcode.AggSigParent
  | AggSigPuzzle _ _ => Opcode.AggSigPuzzle
  | AggSigAmount _ _ => Opcode.AggSigAmount
  | AggSigPuzzleAmount _ _ => Opcode.AggSigPuzzleAmount
  | AggSigParentAmount _ _ => Opcode.AggSigParentAmount
  | AggSigParentPuzzle _ _ => Opcode.AggSigParentPuzzle
  | AggSigUnsafe _ _ => Opcode.AggSigUnsafe
  | AggSigMe _ _ => Opcode.AggSigMe
  | CreateCoin _ _ _ => Opcode.CreateCoin
  | ReserveFee _ => Opcode.ReserveFee
  | CreateCoinAnnouncement _ => Opcode.CreateCoinAnnouncement
  | AssertCoinAnnouncement _ => Opcode.AssertCoinAnnouncement
  | CreatePuzzleAnnouncement _ => Opcode.CreatePuzzleAnnouncement
  | AssertPuzzleAnnouncement _ => Opcode.AssertPuzzleAnnouncement
  | AssertConcurrentSpend _ => Opcode.AssertConcurrentSpend
  | AssertConcurrentPuzzle _ => Opcode.AssertConcurrentPuzzle
  | SendMessage _ _ _ => Opcode.SendMessage
  | ReceiveMessage _ _ _ => Opcode.ReceiveMessage
  | AssertMyCoinId _ => Opcode.AssertMyCoinId
  | AssertMyParentId _ => Opcode.AssertMyParentId
  | AssertMyPuzzlehash _ => Opcode.AssertMyPuzzlehash
  | AssertMyAmount _ => Opcode.AssertMyAmount
  | AssertMyBirthSeconds _ => Opcode.AssertMyBirthSeconds
  | AssertMyBirthHeight _ => Opcode.AssertMyBirthHeight
  | AssertEphemeral => Opcode.AssertEphemeral
  | AssertSecondsRelative _ => Opcode.AssertSecondsRelative
  | AssertSecondsAbsolute _ => Opcode.AssertSecondsAbsolute
  | AssertHeightRelative _ => Opcode.AssertHeightRelative
  | AssertHeightAbsolute _ => Opcode.AssertHeightAbsolute
  | AssertBeforeSecondsRelative _ => Opcode.AssertBeforeSecondsRelative
  | AssertBeforeSecondsAbsolute _ => Opcode.AssertBeforeSecondsAbsolute
  | AssertBeforeHeightRelative _ => Opcode.AssertBeforeHeightRelative
  | AssertBeforeHeightAbsolute _ => Opcode.AssertBeforeHeightAbsolute
  | SoftFork _ => Opcode.SoftFork
  end.

(** [From<&ConditionWithArgs> for SExp] *)
Definition condition_to_sexp (c : ConditionWithArgs) : SExp :=
  let '(op, vars) := op_code_with_args c in
  Pair (sexp_u8 (opcode_u8 op)) (foldr Pair NULL_SEXP vars).

(** BLS12-381 G1 identity, compressed. *)
Definition BLS_G1_INFINITY : list Z := 0xc0 :: replicate 47 0.

Definition agg_sig_infinity_pubkey (c : ConditionWithArgs) : option (list Z) :=
  match c with
  | AggSigParent public_key _
  | AggSigPuzzle public_key _
  | AggSigAmount public_key _
  | AggSigPuzzleAmount public_key _
  | AggSigParentAmount public_key _
  | AggSigParentPuzzle public_key _
  | AggSigUnsafe public_key _
  | AggSigMe public_key _ =>
      if bool_decide (public_key = BLS_G1_INFINITY) then Some public_key else None
  | _ => None
  end.

(** ** Decoding *)
Definition message_mode (bits : Z) : MessageArgsType :=
  match Z.land bits 7 with
  | 0 => ArgsType.None
  | 1 => ArgsType.Amount
  | 2 => ArgsType.Puzzle
  | 3 => ArgsType.PuzzleAmount
  | 4 => ArgsType.Parent
  | 5 => ArgsType.ParentAmount
  | 6 => ArgsType.ParentPuzzle
  | _ => ArgsType.CoinId
  end.
Definition send_message_mode (mode : Z) : MessageArgsType := message_mode (Z.land mode 7).
Definition receive_message_mode (mode : Z) : MessageArgsType :=
  message_mode (Z.land (Z.shiftr mode 3) 7).

Section decode.
Context `{BigIntBytes}.

(** An error of the CLVM inside a decoder that returns [std::io::Error]. *)
Definition to_io {A} (m : clvm A) : io A :=
  match m with Ok a => Ok a | Err _ => Err Other | Panic => Panic end.

Definition memos_from_sexp (sexp : SExp) : io (list (list Z)) :=
  mapM (λ memo, match memo with Atom a => Ok a | Pair _ _ => Err InvalidData end) (ref_list sexp).

Definition memos_from_bytes (blob : list Z) : io (list (list Z)) :=
  match sexp_from_bytes (Cursor blob 0) with
  | Ok (sexp, cursor) =>
      if decide (position cursor = length blob) then memos_from_sexp sexp else Err InvalidData
  | Err _ => Err InvalidData
  | Panic => Panic
  end.

(** [args] in the order they are popped: the counterpart's commitment. *)
Definition message_args (mode : MessageArgsType) (args : list (list Z)) : clvm MessageArgs :=
  let pop (args : list (list Z)) : clvm (list Z * list (list Z)) :=
    match args with a :: args => Ok (a, args) | [] => Err (IoError InvalidData) end in
  let amount (a : list Z) : clvm Z := from_io (u64_from_bigint (number_from_slice a)) in
  match mode with
  | ArgsType.None => Ok Args.None
  | ArgsType.CoinId => '(a, _) ← pop args; Ok (Args.CoinId (sized_from 32 a))
  | ArgsType.Parent => '(a, _) ← pop args; Ok (Args.Parent (sized_from 32 a))
  | ArgsType.Puzzle => '(a, _) ← pop args; Ok (Args.Puzzle (sized_from 32 a))
  | ArgsType.Amount => '(a, _) ← pop args; v ← amount a; Ok (Args.Amount v)
  | ArgsType.ParentPuzzle =>
      '(a, args) ← pop args; '(b, _) ← pop args;
      Ok (Args.ParentPuzzle (sized_from 32 a) (sized_from 32 b))
  | ArgsType.ParentAmount =>
      '(a, args) ← pop args; '(b, _) ← pop args; v ← amount b;
      Ok (Args.ParentAmount (sized_from 32 a) v)
  | ArgsType.PuzzleAmount =>
      '(a, args) ← pop args; '(b, _) ← pop args; v ← amount b;
      Ok (Args.PuzzleAmount (sized_from 32 a) v)
  end.

(** The branches of [from_opcode_with_args] that share a shape. *)
Definition agg_sig_arg (k : list Z → list Z → ConditionWithArgs) (args : list (list Z)) :
    io ConditionWithArgs :=
  match args with
  | [key; msg] => message ← to_io (message_new msg); Ok (k (sized_from 48 key) message)
  | _ => Err InvalidData
  end.
Definition one_arg {A} (f : list Z → io A) (args : list (list Z)) : io A :=
  match args with [a] => f a | _ => Err InvalidData end.
Definition hash_arg (k : list Z → ConditionWithArgs) : list (list Z) → io ConditionWithArgs :=
  one_arg (λ a, Ok (k (sized_from 32 a))).
Definition message_arg (k : list Z → ConditionWithArgs) : list (list Z) → io ConditionWithArgs :=
  one_arg (λ a, message ← to_io (message_new a); Ok (k message)).
Definition u64_arg (k : Z → ConditionWithArgs) : list (list Z) → io ConditionWithArgs :=
  one_arg (λ a, v ← u64_from_bigint (number_from_slice a); Ok (k v)).
Definition seconds_arg (k : Z → ConditionWithArgs) : list (list Z) → io ConditionWithArgs :=
  one_arg (λ a, Ok (k (saturating_u64_from_bigint (number_from_slice a)))).
Definition height_arg (k : Z → ConditionWithArgs) : list (list Z) → io ConditionWithArgs :=
  one_arg (λ a, Ok (k (saturating_u32_from_bigint (number_from_slice a)))).

Definition create_coin_args (args : list (list Z)) : io ConditionWithArgs :=
  match args with
  | puzzle_hash :: amount_bytes :: rest =>
      amount ← u64_from_bigint (number_from_slice amount_bytes);
      memos ← match rest with
              | [] => Ok []
              | [memo_bytes] =>
                  match memos_from_bytes memo_bytes with
                  | Ok memos => Ok memos
                  | Err _ => Ok [memo_bytes]
                  | Panic => Panic
                  end
              | _ => Ok rest
              end;
      Ok (CreateCoin (sized_from 32 puzzle_hash) amount memos)
  | _ => Err InvalidData
  end.

Definition message_condition (k : Z → list Z → MessageArgs → ConditionWithArgs)
    (args_mode : Z → MessageArgsType) (args : list (list Z)) : io ConditionWithArgs :=
  match args with
  | mode_atom :: msg :: args =>
      match mode_atom with
      | [mode] =>
          if negb (Z.land mode 0xc0 =? 0) then Err InvalidData
          else
            message ← to_io (message_new msg);
            msg_args ← to_io (message_args (args_mode mode) args);
            Ok (k mode message msg_args)
      | _ => Err InvalidData
      end
  | _ => Err InvalidData
  end.

Definition from_opcode_with_args (op : ConditionOpcode) (args : list (list Z)) : io ConditionWithArgs :=
  match op with
  | Opcode.Unknown => Ok Unknown
  | Opcode.Remark => message ← to_io (message_new []); Ok (Remark message)
  | Opcode.AggSigParent => agg_sig_arg AggSigParent args
  | Opcode.AggSigPuzzle => agg_sig_arg AggSigPuzzle args
  | Opcode.AggSigAmount => agg_sig_arg AggSigAmount args
  | Opcode.AggSigPuzzleAmount => agg_sig_arg AggSigPuzzleAmount args
  | Opcode.AggSigParentAmount => agg_sig_arg AggSigParentAmount args
  | Opcode.AggSigParentPuzzle => agg_sig_arg AggSigParentPuzzle args
  | Opcode.AggSigUnsafe => agg_sig_arg AggSigUnsafe args
  | Opcode.AggSigMe => agg_sig_arg AggSigMe args
  | Opcode.CreateCoin => create_coin_args args
  | Opcode.ReserveFee => u64_arg ReserveFee args
  | Opcode.CreateCoinAnnouncement => message_arg CreateCoinAnnouncement args
  | Opcode.AssertCoinAnnouncement => hash_arg AssertCoinAnnouncement args
  | Opcode.CreatePuzzleAnnouncement => message_arg CreatePuzzleAnnouncement args
  | Opcode.AssertPuzzleAnnouncement => hash_arg AssertPuzzleAnnouncement args
  | Opcode.AssertConcurrentSpend => hash_arg AssertConcurrentSpend args
  | Opcode.AssertConcurrentPuzzle => hash_arg AssertConcurrentPuzzle args
  | Opcode.SendMessage => message_condition SendMessage send_message_mode args
  | Opcode.ReceiveMessage => message_condition ReceiveMessage receive_message_mode args
  | Opcode.AssertMyCoinId => hash_arg AssertMyCoinId args
  | Opcode.AssertMyParentId => hash_arg AssertMyParentId args
  | Opcode.AssertMyPuzzlehash => hash_arg AssertMyPuzzlehash args
  | Opcode.AssertMyAmount => u64_arg AssertMyAmount args
  | Opcode.AssertMyBirthSeconds => u64_arg AssertMyBirthSeconds args
  | Opcode.AssertMyBirthHeight => one_arg (λ a, h ← ok_or (u32_from_slice a) InvalidData; Ok (AssertMyBirthHeight h)) args
  | Opcode.AssertEphemeral => match args with [] => Ok AssertEphemeral | _ => Err InvalidData end
  | Opcode.AssertSecondsRelative => seconds_arg AssertSecondsRelative args
  | Opcode.AssertSecondsAbsolute => seconds_arg AssertSecondsAbsolute args
  | Opcode.AssertHeightRelative => height_arg AssertHeightRelative args
  | Opcode.AssertHeightAbsolute => height_arg AssertHeightAbsolute args
  | Opcode.AssertBeforeSecondsRelative => seconds_arg AssertBeforeSecondsRelative args
  | Opcode.AssertBeforeSecondsAbsolute => seconds_arg AssertBeforeSecondsAbsolute args
  | Opcode.AssertBeforeHeightRelative => height_arg AssertBeforeHeightRelative args
  | Opcode.AssertBeforeHeightAbsolute => height_arg AssertBeforeHeightAbsolute args
  | Opcode.SoftFork =>
      one_arg (λ a, cost ← u64_from_bigint (number_from_slice a);
                    cost ← chk 64 (cost * 10000); Ok (SoftFork cost)) args
  end.

(** The loop of [op_code_with_args_from_sexp]; a pair that is not allowed
    ends it. *)
Fixpoint scan_args (args : list SExp) (index : nat) (first : bool) (op : ConditionOpcode)
    (vars : list (list Z)) : io (ConditionOpcode * list (list Z)) :=
  match args with
  | [] => Ok (op, vars)
  | Atom arg :: args =>
      if first then
        match arg with
        | [b] => scan_args args (S index) false (opcode_from_u8 b) vars
        | _ => Err InvalidData
        end
      else scan_args args (S index) false op (vars ++ [arg])
  | (Pair _ _ as arg) :: args =>
      if bool_decide (op = Opcode.Remark) ||
         (bool_decide (index = 3%nat) && bool_decide (op = Opcode.CreateCoin))
      then bs ← sexp_to_bytes arg; scan_args args (S index) first op (vars ++ [bs])
      else Ok (op, vars)
  end.

Definition op_code_with_args_from_sexp (sexp : SExp) : io (ConditionOpcode * list (list Z)) :=
  '(op, vars) ← scan_args (sexp_iter sexp) 0 true Opcode.Unknown [];
  if bool_decide (vars = []) &&
     negb (bool_decide (op = Opcode.AssertEphemeral) || bool_decide (op = Opcode.Remark) ||
           bool_decide (op = Opcode.Unknown))
  then Err InvalidData
  else Ok (op, vars).

(** [TryFrom<&SExp> for ConditionWithArgs] and for [Vec<ConditionWithArgs>] *)
Definition condition_try_from (sexp : SExp) : clvm ConditionWithArgs :=
  from_io ('(op, args) ← op_code_with_args_from_sexp sexp; from_opcode_with_args op args).
Definition conditions_try_from (sexp : SExp) : clvm (list ConditionWithArgs) :=
  mapM condition_try_from (sexp_iter sexp).
End decode.

(** ** Signed messages: [agg_sig_additional_data_for_opcode] and
    [pkm_pairs_for_conditions] *)
Section signing.
Context `{Sha256}.

Definition agg_sig_additional_data_for_opcode (agg_sig_data : list Z) (op : ConditionOpcode) : list Z :=
  match op with
  | Opcode.AggSigParent | Opcode.AggSigPuzzle | Opcode.AggSigAmount
  | Opcode.AggSigPuzzleAmount | Opcode.AggSigParentAmount | Opcode.AggSigParentPuzzle =>
      hash_256 (agg_sig_data ++ [opcode_u8 op])
  | _ => agg_sig_data
  end.

(** What a condition appends to its message, or [None] for a condition that
    signs nothing. *)
Definition signed_suffix (c : ConditionWithArgs) (coin : Coin) : option (list Z * list Z * list Z) :=
  match c with
  | AggSigParent key msg => Some (key, msg, parent_coin_info coin)
  | AggSigPuzzle key msg => Some (key, msg, puzzle_hash coin)
  | AggSigAmount key msg => Some (key, msg, u64_to_bytes (amount coin))
  | AggSigPuzzleAmount key msg => Some (key, msg, puzzle_hash coin ++ u64_to_bytes (amount coin))
  | AggSigParentAmount key msg => Some (key, msg, parent_coin_info coin ++ u64_to_bytes (amount coin))
  | AggSigParentPuzzle key msg => Some (key, msg, parent_coin_info coin ++ puzzle_hash coin)
  | AggSigMe key msg => Some (key, msg, coin_id coin)
  | _ => None
  end.

Fixpoint pkm_pairs (conditions : list ConditionWithArgs) (coin : Coin) (additional_data : list Z) :
    clvm (list (ConditionOpcode * list Z * list Z)) :=
  match conditions with
  | [] => Ok []
  | c :: conditions =>
      ret ← match c, signed_suffix c coin with
            | AggSigUnsafe key msg, _ => Ok [(op_code c, key, msg)]
            | _, Some (key, msg, suffix) =>
                m ← message_new (msg ++ suffix ++ agg_sig_additional_data_for_opcode additional_data (op_code c));
                Ok [(op_code c, key, m)]
            | _, None => Ok []
            end;
      rest ← pkm_pairs conditions coin additional_data;
      Ok (ret ++ rest)
  end.
Definition pkm_pairs_for_conditions (conditions : list ConditionWithArgs) (coin : Coin)
    (additional_data : list Z) : clvm (list (ConditionOpcode * list Z * list Z)) :=
  additional_data ← sized_parse 32 additional_data;
  pkm_pairs conditions coin additional_data.

(** [data.ends_with(suffix)] *)
Definition ends_with (data suffix : list Z) : bool :=
  bool_decide (length suffix ≤ length data)%nat &&
  bool_decide (drop (length data - length suffix) data = suffix).

Definition forbidden_codes : list ConditionOpcode :=
  [Opcode.AggSigParent; Opcode.AggSigPuzzle; Opcode.AggSigAmount; Opcode.AggSigPuzzleAmount;
   Opcode.AggSigParentAmount; Opcode.AggSigParentPuzzle].

Fixpoint forbidden_loop (codes : list ConditionOpcode) (agg_sig_data message : list Z) : clvm unit :=
  match codes with
  | [] => Ok tt
  | code :: codes =>
      if ends_with message (hash_256 (agg_sig_data ++ [opcode_u8 code])) then Err InvalidSyntax
      else forbidden_loop codes agg_sig_data message
  end.
Definition verify_agg_sig_unsafe_message (message agg_sig_data : list Z) : clvm unit :=
  forbidden_loop forbidden_codes agg_sig_data message.

(** [created_outputs_for_conditions] *)
Definition created_outputs_for_conditions (conditions : list ConditionWithArgs) (name : list Z) : list Coin :=
  omap (λ c, match c with
             | CreateCoin ph a _ => Some {| parent_coin_info := name; puzzle_hash := ph; amount := a |}
             | _ => None
             end) conditions.
End signing.

(** ** The wire codec: [ChiaSerialize for ConditionWithArgs] *)
Section wire.
Context `{BigIntBytes}.

(** [ChiaSerialize::to_bytes] of a [Message], that is of a [Vec<u8>] *)
Definition u8s (data : list Z) : list (num u8) := map Num data.
Definition message_to_bytes (ver : ChiaProtocolVersion) (msg : list Z) : io (list Z) :=
  to_bytes ver (u8s msg).

Definition message_args_bytes (msg_args : MessageArgs) : list (list Z) :=
  match msg_args with
  | Args.None => []
  | Args.CoinId h | Args.Parent h | Args.Puzzle h => [h]
  | Args.Amount amount => [to_be_bytes u64 amount]
  | Args.ParentPuzzle parent puzzle_hash => [parent; puzzle_hash]
  | Args.ParentAmount h amount | Args.PuzzleAmount h amount => [h; to_be_bytes u64 amount]
  end.

(** The vector [vars] of each branch of [to_bytes]. *)
Definition wire_args (ver : ChiaProtocolVersion) (c : ConditionWithArgs) : io (list (list Z)) :=
  match c with
  | Unknown | AssertEphemeral => Ok []
  | Remark msg | CreateCoinAnnouncement msg | CreatePuzzleAnnouncement msg =>
      m ← message_to_bytes ver msg; Ok [m]
  | AggSigParent key msg | AggSigPuzzle key msg | AggSigAmount key msg
  | AggSigPuzzleAmount key msg | AggSigParentAmount key msg | AggSigParentPuzzle key msg
  | AggSigUnsafe key msg | AggSigMe key msg => m ← message_to_bytes ver msg; Ok [key; m]
  | CreateCoin ph v memos =>
      blob ← sexp_to_bytes (memos_to_sexp memos); Ok [ph; to_be_bytes u64 v; blob]
  | AssertCoinAnnouncement h | AssertPuzzleAnnouncement h | AssertConcurrentSpend h
  | AssertConcurrentPuzzle h | AssertMyCoinId h | AssertMyParentId h | AssertMyPuzzlehash h => Ok [h]
  | SendMessage mode msg args | ReceiveMessage mode msg args =>
      m ← message_to_bytes ver msg; Ok ([[mode]; m] ++ message_args_bytes args)
  | ReserveFee v | AssertMyAmount v | AssertMyBirthSeconds v | AssertSecondsRelative v
  | AssertSecondsAbsolute v | AssertBeforeSecondsRelative v | AssertBeforeSecondsAbsolute v
  | SoftFork v => Ok [to_be_bytes u64 v]
  | AssertMyBirthHeight v | AssertHeightRelative v | AssertHeightAbsolute v
  | AssertBeforeHeightRelative v | AssertBeforeHeightAbsolute v => Ok [to_be_bytes u32 v]
  end.

Definition condition_to_bytes (ver : ChiaProtocolVersion) (c : ConditionWithArgs) : io (list Z) :=
  match c with
  | Unknown => Ok [opcode_u8 Opcode.Unknown]
  | _ => vars ← wire_args ver c; bs ← to_bytes ver (map u8s vars); Ok (opcode_u8 (op_code c) :: bs)
  end.

Definition condition_from_bytes (ver : ChiaProtocolVersion) (c : cursor) : io (ConditionWithArgs * cursor) :=
  '(enum_buf, c) ← read_exact 1 c;
  '(args, c) ← from_bytes (T := list (list (num u8))) ver c;
  d ← from_opcode_with_args (opcode_from_u8 (hd 0 enum_buf)) (map (map num_val) args);
  Ok (d, c).
End wire.

#[local] Arguments u64_from_bigint : simpl never.
#[local] Arguments number_from_slice : simpl never.
#[local] Arguments saturating_u64_from_bigint : simpl never.
#[local] Arguments saturating_u32_from_bigint : simpl never.
#[local] Arguments u32_from_slice : simpl never.
#[local] Arguments sexp_from_int : simpl never.
#[local] Arguments sized_from : simpl never.
#[local] Arguments message_new : simpl never.
#[local] Arguments zlen : simpl never.

(** * Theorems *)

Lemma opcode_roundtrip op : opcode_from_u8 (opcode_u8 op) = op.
Proof. by destruct op. Qed.

Lemma op_code_fst c : op_code c = (op_code_with_args c).1.
Proof. by destruct c. Qed.

Lemma sized_from_id n h : length h = n → sized_from n h = h.
Proof. intros <-. unfold sized_from. by rewrite firstn_all, Nat.sub_diag, app_nil_r. Qed.

Lemma message_new_ok msg : zlen msg ≤ 1024 → message_new msg = Ok msg.
Proof. intros Hm. unfold message_new. by rewrite (proj2 (Z.ltb_ge _ _)) by lia. Qed.

Lemma sexp_iter_list l : sexp_iter (foldr Pair NULL_SEXP l) = l.
Proof. induction l as [|s l IH]; [done|]. cbn. by rewrite IH. Qed.

Lemma scan_atoms vars index op acc :
  scan_args (map Atom vars) index false op acc = Ok (op, acc ++ vars).
Proof.
  revert index acc. induction vars as [|a vars IH]; intros index acc; cbn; [by rewrite app_nil_r|].
  by rewrite IH, <-app_assoc.
Qed.

(** ** What decoding an encoded condition gives *)
Section roundtrip.
Context `{BigIntBytesOk}.

Lemma scan_opcode op args :
  op ≠ Opcode.Unknown →
  scan_args (sexp_iter (Pair (sexp_u8 (opcode_u8 op)) (foldr Pair NULL_SEXP args))) 0 true Opcode.Unknown [] =
  scan_args args 1 false op [].
Proof.
  intros Hop. cbn [sexp_iter]. rewrite sexp_iter_list. cbn [scan_args].
  assert (Hu : sexp_u8 (opcode_u8 op) = Atom [opcode_u8 op]) by by destruct op.
  rewrite Hu. cbn. by rewrite opcode_roundtrip.
Qed.

(** No arguments are needed by these. *)
Definition nullary (op : ConditionOpcode) : bool :=
  bool_decide (op = Opcode.AssertEphemeral) || bool_decide (op = Opcode.Remark) ||
  bool_decide (op = Opcode.Unknown).

Lemma try_from_vars op args vars :
  op ≠ Opcode.Unknown → scan_args args 1 false op [] = Ok (op, vars) →
  (vars = [] → nullary op = true) →
  condition_try_from (Pair (sexp_u8 (opcode_u8 op)) (foldr Pair NULL_SEXP args)) =
  from_io (from_opcode_with_args op vars).
Proof.
  intros Hop Hs Hv. unfold condition_try_from, op_code_with_args_from_sexp.
  rewrite scan_opcode, Hs by done. cbn [mbind res_bind]. fold (nullary op).
  destruct (bool_decide_reflect (vars = [])) as [E|E]; [rewrite Hv by done|]; done.
Qed.

Lemma try_from_atoms op vars :
  op ≠ Opcode.Unknown → (vars = [] → nullary op = true) →
  condition_try_from (Pair (sexp_u8 (opcode_u8 op)) (foldr Pair NULL_SEXP (map Atom vars))) =
  from_io (from_opcode_with_args op vars).
Proof. intros Hop Hv. apply try_from_vars; [done|by rewrite scan_atoms|done]. Qed.

Definition amount_fits (v : Z) : Prop := 0 ≤ v < 2 ^ 63.
Definition height_fits (v : Z) : Prop := 0 ≤ v < 2 ^ 31.

Lemma number_sexp_u64 v : amount_fits v → number_from_slice (sexp_from_int u64 v) = v.
Proof.
  intros Hv. rewrite number_from_slice_value.
  apply (sexp_from_int_spec u64 v); [simpl; lia|unfold amount_fits in Hv; cbn; lia].
Qed.

Lemma number_sexp_u32 v : height_fits v → number_from_slice (sexp_from_int u32 v) = v.
Proof.
  intros Hv. rewrite number_from_slice_value.
  apply (sexp_from_int_spec u32 v); [simpl; lia|unfold height_fits in Hv; cbn; lia].
Qed.

Lemma u64_from_bigint_ok v : 0 ≤ v < 2 ^ 64 → u64_from_bigint v = Ok v.
Proof.
  intros Hv. unfold u64_from_bigint. rewrite (proj2 (Z.ltb_ge _ _)) by lia.
  by rewrite checked_ok by (unfold uok; lia).
Qed.

Lemma saturating_u64_ok v : 0 ≤ v < 2 ^ 64 → saturating_u64_from_bigint v = v.
Proof.
  intros Hv. unfold saturating_u64_from_bigint. rewrite (proj2 (Z.ltb_ge _ _)) by lia.
  by rewrite checked_ok by (unfold uok; lia).
Qed.

Lemma saturating_u32_ok v : 0 ≤ v < 2 ^ 32 → saturating_u32_from_bigint v = v.
Proof.
  intros Hv. unfold saturating_u32_from_bigint. rewrite (proj2 (Z.ltb_ge _ _)) by lia.
  by rewrite checked_ok by (unfold uok; lia).
Qed.

Lemma length_trim_twos bs : (length (trim_twos_complement_be bs) ≤ length bs)%nat.
Proof.
  induction bs as [|b bs IH]; [done|]. cbn [trim_twos_complement_be].
  destruct bs as [|b1 bs]; [done|]. destruct (_ =? _); cbn [length] in *; lia.
Qed.

Lemma u32_from_slice_sexp v : height_fits v → u32_from_slice (sexp_from_int u32 v) = Some v.
Proof.
  intros Hv. unfold height_fits in Hv.
  destruct (sexp_from_int_spec u32 v) as (Hb & _ & Hval); [simpl; lia|cbn; lia|].
  assert (Hlen : zlen (sexp_from_int u32 v) ≤ 4).
  { unfold sexp_from_int, to_be_bytes, zlen. destruct (v =? 0); [cbn [length]; lia|].
    pose proof (length_trim_twos (to_be (nbytes u32) v)) as Hl. rewrite length_to_be in Hl. cbn in *. lia. }
  destruct (sexp_from_int u32 v) as [|b0 bs]; cbn [atom_value] in Hval; [by rewrite <-Hval|].
  unfold u32_from_slice, u32_from_slice_impl. rewrite (proj2 (Z.ltb_ge _ _)) by lia. cbn [andb].
  assert (Hbe : from_be (b0 :: bs) = v).
  { unfold from_be_signed in Hval. pose proof (from_be_bounds _ Hb).
    destruct (_ <=? _) in Hval; [|done].
    exfalso. rewrite Z.pow_mul_r in Hval by (pose proof (zlen_nonneg (b0 :: bs)); lia).
    change (2 ^ 8) with 256 in Hval. lia. }
  rewrite (fold_bytes_from_be 32); [by rewrite Hbe|done|lia|]. rewrite Hbe. lia.
Qed.

(** Commitments of the kind the mode's bits ask for. *)
Definition args_ok (t : MessageArgsType) (a : MessageArgs) : Prop :=
  match t, a with
  | ArgsType.None, Args.None => True
  | ArgsType.CoinId, Args.CoinId h | ArgsType.Parent, Args.Parent h
  | ArgsType.Puzzle, Args.Puzzle h => length h = 32%nat
  | ArgsType.Amount, Args.Amount v => amount_fits v
  | ArgsType.ParentPuzzle, Args.ParentPuzzle h h' => length h = 32%nat ∧ length h' = 32%nat
  | ArgsType.ParentAmount, Args.ParentAmount h v
  | ArgsType.PuzzleAmount, Args.PuzzleAmount h v => length h = 32%nat ∧ amount_fits v
  | _, _ => False
  end.

(** The values the encoder is given: sized fields, integers whose encoding is
    not read as negative, memos that can be written. *)
Definition condition_ok (c : ConditionWithArgs) : Prop :=
  match c with
  | Unknown | AssertEphemeral => True
  | AggSigParent key msg | AggSigPuzzle key msg | AggSigAmount key msg
  | AggSigPuzzleAmount key msg | AggSigParentAmount key msg | AggSigParentPuzzle key msg
  | AggSigUnsafe key msg | AggSigMe key msg => length key = 48%nat ∧ zlen msg ≤ 1024
  | Remark msg | CreateCoinAnnouncement msg | CreatePuzzleAnnouncement msg => zlen msg ≤ 1024
  | CreateCoin ph v memos =>
      length ph = 32%nat ∧ amount_fits v ∧ Forall bytes_ok memos ∧
      ∃ bs, sexp_to_bytes (memos_to_sexp memos) = Ok bs
  | AssertCoinAnnouncement h | AssertPuzzleAnnouncement h | AssertConcurrentSpend h
  | AssertConcurrentPuzzle h | AssertMyCoinId h | AssertMyParentId h | AssertMyPuzzlehash h =>
      length h = 32%nat
  | SendMessage mode msg args => 0 ≤ mode < 64 ∧ zlen msg ≤ 1024 ∧ args_ok (send_message_mode mode) args
  | ReceiveMessage mode msg args =>
      0 ≤ mode < 64 ∧ zlen msg ≤ 1024 ∧ args_ok (receive_message_mode mode) args
  | ReserveFee v | AssertMyAmount v | AssertMyBirthSeconds v | AssertSecondsRelative v
  | AssertSecondsAbsolute v | AssertBeforeSecondsRelative v | AssertBeforeSecondsAbsolute v
  | SoftFork v => amount_fits v
  | AssertMyBirthHeight v | AssertHeightRelative v | AssertHeightAbsolute v
  | AssertBeforeHeightRelative v | AssertBeforeHeightAbsolute v => height_fits v
  end.

(** What comes back.  [REMARK] drops its argument; the zero byte of an unknown
    opcode or of the mode 0 is written as nil and then refused; the cost of
    [SOFTFORK] is multiplied by 10000 when it is read only. *)
Definition decoded (c : ConditionWithArgs) : clvm ConditionWithArgs :=
  match c with
  | Remark _ => Ok (Remark [])
  | Unknown | SendMessage 0 _ _ | ReceiveMessage 0 _ _ => Err (IoError InvalidData)
  | SoftFork cost => if cost * 10000 <? 2 ^ 64 then Ok (SoftFork (cost * 10000)) else Panic
  | c => Ok c
  end.

Definition payload (s : SExp) : list Z := match s with Atom a => a | Pair _ _ => [] end.

Lemma decode_encode c :
  (op_code_with_args c).2 = map Atom (map payload (op_code_with_args c).2) →
  op_code c ≠ Opcode.Unknown → ((op_code_with_args c).2 = [] → nullary (op_code c) = true) →
  condition_try_from (condition_to_sexp c) =
  from_io (from_opcode_with_args (op_code c) (map payload (op_code_with_args c).2)).
Proof.
  intros Hp Hop Hn. unfold condition_to_sexp. rewrite op_code_fst in *.
  destruct (op_code_with_args c) as [op vars]. cbn [fst snd] in *. rewrite Hp at 1.
  apply try_from_atoms; [done|]. intros Hv. apply Hn. by destruct vars.
Qed.

Lemma message_args_roundtrip t a :
  args_ok t a → message_args t (map payload (msg_args_sexp_ary a)) = Ok a.
Proof.
  intros Ha. destruct t, a; cbn in Ha; try done; cbn; destruct_and?;
    rewrite ?sized_from_id, ?number_sexp_u64, ?u64_from_bigint_ok by (done || (unfold amount_fits in *; lia)); done.
Qed.

Lemma mode_bits mode : 0 ≤ mode < 64 → Z.land mode 0xc0 = 0.
Proof.
  intros Hm. change 0xc0 with (Z.shiftl 3 6). apply Z.bits_inj'. intros k Hk.
  rewrite Z.land_spec, Z.bits_0. destruct (Z.lt_ge_cases k 6).
  - rewrite Z.shiftl_spec_low by lia. by rewrite andb_false_r.
  - rewrite <-(Z.mod_small mode (2 ^ 6)) by (cbn; lia). by rewrite Z.mod_pow2_bits_high by lia.
Qed.

Lemma sexp_from_list_foldr l : sexp_from_list l = foldr Pair NULL_SEXP l.
Proof. by destruct l. Qed.

Lemma message_condition_roundtrip k args_mode mode msg a :
  0 < mode < 64 → zlen msg ≤ 1024 → args_ok (args_mode mode) a →
  message_condition k args_mode (map payload ([sexp_u8 mode; Atom msg] ++ msg_args_sexp_ary a)) = Ok (k mode msg a).
Proof.
  intros Hm Hl Ha. cbn [map app payload]. unfold sexp_u8. rewrite (proj2 (Z.eqb_neq mode 0)) by lia.
  cbn [payload message_condition]. rewrite mode_bits by lia. cbn [negb Z.eqb].
  rewrite message_new_ok by done. cbn [to_io mbind res_bind]. by rewrite message_args_roundtrip.
Qed.

Lemma message_vars_atoms mode msg a :
  [sexp_u8 mode; Atom msg] ++ msg_args_sexp_ary a =
  map Atom (map payload ([sexp_u8 mode; Atom msg] ++ msg_args_sexp_ary a)).
Proof. unfold sexp_u8. by destruct (mode =? 0), a. Qed.

Lemma message_zero_refused k args_mode msg rest :
  message_condition k args_mode (map payload ([sexp_u8 0; Atom msg] ++ rest)) = Err InvalidData.
Proof. done. Qed.

Lemma memos_roundtrip memos bs :
  Forall bytes_ok memos → sexp_to_bytes (memos_to_sexp memos) = Ok bs → memos_from_bytes bs = Ok memos.
Proof.
  intros Hm Hb. unfold memos_from_bytes.
  assert (Hok : sexp_ok (memos_to_sexp memos)).
  { unfold memos_to_sexp. rewrite sexp_from_list_foldr. clear Hb.
    induction Hm as [|m memos Hm0 Hm IH]; cbn; [constructor|done]. }
  assert (Hc : canon_enc (memos_to_sexp memos) bs) by (rewrite sexp_to_bytes_enc in Hb; by apply enc_canon).
  rewrite (parse_canon (memos_to_sexp memos) bs [] (Cursor bs 0));
    [|done..|by unfold remaining; cbn; rewrite drop_0, app_nil_r].
  cbn [advance position]. rewrite decide_True by done.
  unfold memos_from_sexp, memos_to_sexp. rewrite sexp_from_list_foldr. clear.
  induction memos as [|m memos IH]; [done|]. cbn. rewrite IH. done.
Qed.

Lemma create_coin_roundtrip ph v memos :
  condition_ok (CreateCoin ph v memos) →
  condition_try_from (condition_to_sexp (CreateCoin ph v memos)) = Ok (CreateCoin ph v memos).
Proof.
  intros (Hph & Hv & Hm & bs & Hb). unfold condition_to_sexp. cbn [op_code_with_args].
  destruct memos as [|m memos].
  - etransitivity; [by apply (try_from_atoms Opcode.CreateCoin [ph; sexp_from_int u64 v; []])|].
    cbn. rewrite number_sexp_u64, u64_from_bigint_ok by (done || (unfold amount_fits in Hv; lia)).
    cbn. by rewrite sized_from_id.
  - rewrite (try_from_vars Opcode.CreateCoin _ [ph; sexp_from_int u64 v; bs]); [|done| |done].
    + cbn [from_opcode_with_args create_coin_args].
      rewrite number_sexp_u64, u64_from_bigint_ok by (done || (unfold amount_fits in Hv; lia)).
      cbn [mbind res_bind]. rewrite (memos_roundtrip (m :: memos)) by done. cbn. by rewrite sized_from_id.
    + cbn -[sexp_to_bytes memos_to_sexp] in Hb |- *. unfold memos_to_sexp in *.
      rewrite sexp_from_list_foldr in *. cbn [map foldr] in *. cbn -[sexp_to_bytes]. by rewrite Hb.
Qed.

(** decoding the CLVM encoding of a condition gives the condition back,
    except that a remark loses its message, the unknown condition and messages
    of mode 0 are refused, and [SOFTFORK]'s cost comes back multiplied by
    10000, which overflows from [2^64 / 10000] on. *)
Theorem condition_roundtrip c :
  condition_ok c → condition_try_from (condition_to_sexp c) = decoded c.
Proof.
  intros Hc. destruct c; try (by apply create_coin_roundtrip); try done.
  all: rewrite decode_encode; [|done || apply message_vars_atoms|done|done].
  all: cbn [condition_ok] in Hc; destruct_and?; cbn [op_code op_code_with_args snd].
  all: try (destruct (decide (mode = 0)) as [->|Hmode];
    [by cbn [from_opcode_with_args]; rewrite message_zero_refused|
     cbn [from_opcode_with_args]; rewrite message_condition_roundtrip by (done || lia);
     destruct mode; done || lia]).
  all: unfold amount_fits, height_fits in *; cbn;
    rewrite ?sized_from_id, ?message_new_ok, ?number_sexp_u64, ?number_sexp_u32, ?u32_from_slice_sexp,
      ?u64_from_bigint_ok, ?saturating_u64_ok, ?saturating_u32_ok by (done || lia); cbn; try done.
  unfold chk, uokb. rewrite (proj2 (Z.leb_le _ _)) by lia. cbn [andb]. by destruct (_ <? _).
Qed.
End roundtrip.

Definition sample_condition : ConditionWithArgs :=
  CreateCoin (replicate 32 7) 1000 [replicate 32 9; [1; 2; 3]].

Lemma condition_roundtrip_witness :
  @condition_try_from bigint_ref (condition_to_sexp sample_condition) = decoded sample_condition.
Proof.
  apply (@condition_roundtrip bigint_ref bigint_ref_ok sample_condition). unfold sample_condition. cbn [condition_ok].
  split_and!; [reflexivity|unfold amount_fits; lia| |eexists; vm_compute; reflexivity].
  repeat constructor; unfold byte_ok; lia.
Defined.

(** ** What an unsafe message cannot imitate *)
Section separation.
Context `{Sha256Ok}.

Lemma ends_with_app l s t : length s = length t → ends_with (l ++ s) t = bool_decide (s = t).
Proof.
  intros Hl. unfold ends_with. rewrite length_app, bool_decide_eq_true_2 by lia. cbn [andb].
  replace (length l + length s - length t)%nat with (length l) by lia. by rewrite drop_app_length.
Qed.

Lemma forbidden_loop_ok codes data msg :
  forbidden_loop codes data msg = Ok tt ↔
  Forall (λ code, ends_with msg (hash_256 (data ++ [opcode_u8 code])) = false) codes.
Proof.
  induction codes as [|code codes IH]; cbn; [by split|]. rewrite Forall_cons_iff, <-IH.
  destruct (ends_with _ _); split; [done|by intros [??]|done|by intros [_ ?]].
Qed.

(** an [AGG_SIG_UNSAFE] message that passes the check is not the signed
    message of any condition that commits to a parent, puzzle hash or amount,
    whatever the coin; but the signed message of an [AGG_SIG_ME] condition
    passes it, as long as the network's data is not one of the six derived
    suffixes. *)
Theorem agg_sig_unsafe_scope data msg c coin op key m :
  length data = 32%nat →
  (verify_agg_sig_unsafe_message msg data = Ok tt → op_code c ∈ forbidden_codes →
   pkm_pairs_for_conditions [c] coin data = Ok [(op, key, m)] → m ≠ msg) ∧
  (op_code c = Opcode.AggSigMe →
   Forall (λ code, hash_256 (data ++ [opcode_u8 code]) ≠ data) forbidden_codes →
   pkm_pairs_for_conditions [c] coin data = Ok [(op, key, m)] →
   verify_agg_sig_unsafe_message m data = Ok tt).
Proof.
  intros Hd. unfold verify_agg_sig_unsafe_message, pkm_pairs_for_conditions, sized_parse.
  rewrite bool_decide_eq_false_2 by lia. rewrite Hd, Nat.sub_diag. cbn [replicate app mbind res_bind pkm_pairs].
  assert (Hm : ∀ k msg0 suffix tail, (x ← message_new (msg0 ++ suffix ++ tail); Ok [(op_code c, k, x)]) ≫=
      (λ ret, Ok (ret ++ [])) = Ok [(op, key, m)] → m = (msg0 ++ suffix) ++ tail).
  { intros k msg0 suffix tail. unfold message_new. destruct (_ <? _); [done|]. cbn.
    intros E. apply Ok_inj in E. simplify_eq. by rewrite app_assoc. }
  split.
  - intros Hv%forbidden_loop_ok Hc Hp.
    assert (Hs : m = msg → ends_with msg (hash_256 (data ++ [opcode_u8 (op_code c)])) = true).
    { intros <-. destruct c; try (by repeat (apply elem_of_cons in Hc as [Hc|Hc]); [..|by apply elem_of_nil in Hc]);
        apply Hm in Hp as ->; cbn [op_code agg_sig_additional_data_for_opcode];
        rewrite ends_with_app by done; by apply bool_decide_eq_true_2. }
    intros Heq. specialize (Hs Heq). rewrite Forall_forall in Hv.
    by rewrite (Hv _ (proj1 (list_elem_of_In _ _) Hc)) in Hs.
  - intros Hc Hne Hp. apply forbidden_loop_ok. destruct c; try done. apply Hm in Hp as ->.
    cbn [op_code agg_sig_additional_data_for_opcode]. eapply Forall_impl; [|exact Hne]. cbn. intros code Hcode.
    rewrite ends_with_app by (by rewrite hash_256_length). by apply bool_decide_eq_false_2.
Qed.
End separation.

Definition sample_data : list Z := replicate 32 5.
Lemma agg_sig_unsafe_scope_witness :
  @verify_agg_sig_unsafe_message toy_hash
    ([1; 2] ++ @coin_id toy_hash sample_coin ++ sample_data) sample_data = Ok tt.
Proof.
  refine (proj2 (@agg_sig_unsafe_scope toy_hash toy_hash_ok sample_data [] (AggSigMe (replicate 48 3) [1; 2]) sample_coin
    Opcode.AggSigMe (replicate 48 3) ([1; 2] ++ @coin_id toy_hash sample_coin ++ sample_data) _) _ _ _);
    [reflexivity|reflexivity| |vm_compute; reflexivity].
  apply (bool_decide_unpack _). vm_compute. exact I.
Defined.

(** ** The wire codec *)
Section wire_roundtrip.
Context `{BigIntBytesOk}.

(** What a message written as [Vec<u8>] is read back as. *)
Definition prefixed (msg : list Z) : list Z := len_prefix msg ++ msg.
Definition read_message (k : list Z → ConditionWithArgs) (msg : list Z) : io ConditionWithArgs :=
  m ← to_io (message_new (prefixed msg)); Ok (k m).

(** What comes back from the wire: a message keeps the length it was written
    with in front. *)
Definition wire_decoded (c : ConditionWithArgs) : io ConditionWithArgs :=
  match c with
  | Remark _ => Ok (Remark [])
  | AggSigParent key msg => read_message (AggSigParent key) msg
  | AggSigPuzzle key msg => read_message (AggSigPuzzle key) msg
  | AggSigAmount key msg => read_message (AggSigAmount key) msg
  | AggSigPuzzleAmount key msg => read_message (AggSigPuzzleAmount key) msg
  | AggSigParentAmount key msg => read_message (AggSigParentAmount key) msg
  | AggSigParentPuzzle key msg => read_message (AggSigParentPuzzle key) msg
  | AggSigUnsafe key msg => read_message (AggSigUnsafe key) msg
  | AggSigMe key msg => read_message (AggSigMe key) msg
  | CreateCoinAnnouncement msg => read_message CreateCoinAnnouncement msg
  | CreatePuzzleAnnouncement msg => read_message CreatePuzzleAnnouncement msg
  | SendMessage mode msg args => read_message (λ m, SendMessage mode m args) msg
  | ReceiveMessage mode msg args => read_message (λ m, ReceiveMessage mode m args) msg
  | SoftFork cost => if cost * 10000 <? 2 ^ 64 then Ok (SoftFork (cost * 10000)) else Panic
  | c => Ok c
  end.

Definition message_of (c : ConditionWithArgs) : list Z :=
  match c with
  | Remark msg | CreateCoinAnnouncement msg | CreatePuzzleAnnouncement msg
  | AggSigParent _ msg | AggSigPuzzle _ msg | AggSigAmount _ msg | AggSigPuzzleAmount _ msg
  | AggSigParentAmount _ msg | AggSigParentPuzzle _ msg | AggSigUnsafe _ msg | AggSigMe _ msg
  | SendMessage _ msg _ | ReceiveMessage _ msg _ => msg
  | _ => []
  end.

Lemma message_to_bytes_prefixed ver msg : bytes_ok msg → message_to_bytes ver msg = Ok (prefixed msg).
Proof.
  intros Hm. unfold message_to_bytes, prefixed. cbn [to_bytes vec_serialize].
  assert (Henc : encode_all ver (u8s msg) = Ok msg).
  { induction Hm as [|b msg Hb Hm IH]; [done|].
    change (u8s (b :: msg)) with (Num (t:=u8) b :: u8s msg). cbn [encode_all]. rewrite IH. cbn -[Z.modulo].
    by rewrite Z.mod_small. }
  rewrite Henc. cbn. unfold len_prefix, u8s, zlen. by rewrite length_map.
Qed.

Lemma u8s_val vars : map (map num_val) (map u8s vars) = vars.
Proof.
  rewrite map_map. rewrite <-(map_id vars) at 2. apply map_ext. intros l. unfold u8s.
  rewrite map_map. apply map_id.
Qed.

Lemma condition_wire_vars ver c vars bs suf cur :
  c ≠ Unknown → wire_args ver c = Ok vars → wire_ok (map u8s vars) →
  condition_to_bytes ver c = Ok bs → remaining cur = bs ++ suf →
  condition_from_bytes ver cur =
    (d ← from_opcode_with_args (op_code c) vars; Ok (d, advance (length bs) cur)).
Proof.
  intros Hc Hv Hw Hb Hr.
  assert (Hb' : (bs ← to_bytes ver (map u8s vars); Ok (opcode_u8 (op_code c) :: bs)) = Ok bs)
    by (destruct c; try done; unfold condition_to_bytes in Hb; by rewrite Hv in Hb).
  destruct (to_bytes ver (map u8s vars)) as [body| |] eqn:Hbody; [|done|done].
  apply Ok_inj in Hb'. subst bs. unfold condition_from_bytes, read_exact.
  rewrite decide_True by (rewrite Hr; cbn; lia). cbn [mbind res_bind]. rewrite Hr. cbn [take app hd].
  rewrite (from_to ver (map u8s vars) body suf (advance 1 cur)); [|done|done|by rewrite remaining_advance, Hr].
  cbn [mbind res_bind]. rewrite u8s_val, opcode_roundtrip, advance_advance. done.
Qed.

Lemma number_be n v :
  (0 < n)%nat → 0 ≤ v < 2 ^ (8 * Z.of_nat n - 1) → number_from_slice (to_be n v) = v.
Proof.
  intros Hn Hv. rewrite number_from_slice_value. pose proof (length_to_be n v) as Hl.
  rewrite <-(from_be_signed_to_be n v) at 2 by lia. destruct (to_be n v); [cbn in Hl; lia|done].
Qed.

Lemma u32_from_slice_be v : 0 ≤ v < 2 ^ 32 → u32_from_slice (to_be 4 v) = Some v.
Proof.
  intros Hv. assert (Hb : from_be (to_be 4 v) = v) by (rewrite from_be_to_be; apply Z.mod_small; cbn; lia).
  unfold u32_from_slice, u32_from_slice_impl. pose proof (length_to_be 4 v) as Hl.
  pose proof (to_be_ok 4 v) as Hok. destruct (to_be 4 v) as [|b0 bs] eqn:E; [done|].
  rewrite (proj2 (Z.ltb_ge _ _)) by (unfold zlen; rewrite Hl; lia). cbn [andb].
  rewrite (fold_bytes_from_be 32); [by rewrite Hb|done|lia|rewrite Hb; lia].
Qed.

Lemma message_args_wire t a : args_ok t a → message_args t (message_args_bytes a) = Ok a.
Proof.
  intros Ha. unfold amount_fits in *.
  destruct t, a; cbn in Ha; try done; cbn -[to_be]; unfold to_be_bytes; destruct_and?;
    rewrite ?sized_from_id, ?(number_be 8), ?u64_from_bigint_ok by (done || (cbn; unfold amount_fits in *; lia)); done.
Qed.

Lemma message_condition_wire k args_mode mode msg a :
  0 ≤ mode < 64 → args_ok (args_mode mode) a →
  message_condition k args_mode ([[mode]; prefixed msg] ++ message_args_bytes a) = read_message (λ m, k mode m a) msg.
Proof.
  intros Hm Ha. cbn [app message_condition]. rewrite mode_bits by lia. cbn [negb Z.eqb].
  unfold read_message. destruct (to_io (message_new (prefixed msg))); cbn; [|done..].
  by rewrite message_args_wire.
Qed.

(** what the wire codec reads back from the bytes of a condition: the
    condition, except that the message of every condition that has one comes
    back with its four length bytes in front (and is refused when it was
    longer than 1020 bytes), a remark loses its message and [SOFTFORK]'s cost
    is multiplied by 10000. *)
Theorem condition_wire ver c vars bs suf cur :
  condition_ok c → c ≠ Unknown → bytes_ok (message_of c) →
  wire_args ver c = Ok vars → wire_ok (map u8s vars) →
  condition_to_bytes ver c = Ok bs → remaining cur = bs ++ suf →
  condition_from_bytes ver cur = (d ← wire_decoded c; Ok (d, advance (length bs) cur)).
Proof.
  intros Hc Hu Hm Hv Hw Hb Hr. rewrite (condition_wire_vars ver c vars bs suf) by done.
  enough (He : from_opcode_with_args (op_code c) vars = wire_decoded c) by by rewrite He.
  clear Hw Hb Hr bs suf cur. destruct c; try done; cbn [message_of] in Hm; cbn [wire_args] in Hv;
    rewrite ?message_to_bytes_prefixed in Hv by done; cbn [mbind res_bind] in Hv;
    try (apply Ok_inj in Hv; subst vars); cbn [condition_ok] in Hc; destruct_and?.
  all: try (by cbn [op_code from_opcode_with_args wire_decoded]; rewrite message_condition_wire by done).
  all: unfold amount_fits, height_fits in *.
  all: try (by unfold read_message; cbn; rewrite ?sized_from_id by done).
  all: try (unfold to_be_bytes; cbn -[to_be];
    rewrite ?u32_from_slice_be, ?(number_be 8), ?(number_be 4), ?u64_from_bigint_ok, ?saturating_u64_ok,
      ?saturating_u32_ok by (done || (cbn; lia)); cbn; done).
  - destruct (sexp_to_bytes _) as [blob| |] eqn:Hblob; [|done|done]. apply Ok_inj in Hv. subst vars.
    cbn -[to_be sexp_to_bytes]. unfold to_be_bytes. cbn [nbytes u64].
    rewrite (number_be 8), u64_from_bigint_ok by (cbn; lia). cbn [mbind res_bind].
    by rewrite (memos_roundtrip memos), sized_from_id.
  - unfold to_be_bytes. cbn -[to_be]. rewrite (number_be 8), u64_from_bigint_ok by (cbn; lia). cbn [mbind res_bind].
    unfold chk, uokb. rewrite (proj2 (Z.leb_le _ _)) by lia. cbn [andb]. by destruct (_ <? _).
Qed.
End wire_roundtrip.

Definition signed_condition : ConditionWithArgs := AggSigMe (replicate 48 3) [1; 2].
Definition signed_bytes : list Z := [50; 0; 0; 0; 2; 0; 0; 0; 48] ++ replicate 48 3 ++ [0; 0; 0; 6; 0; 0; 0; 2; 1; 2].
Lemma condition_wire_witness :
  @condition_from_bytes bigint_ref Chia0_0_37 (Cursor signed_bytes 0) =
  Ok (AggSigMe (replicate 48 3) [0; 0; 0; 2; 1; 2], Cursor signed_bytes 67).
Proof.
  apply (@condition_wire bigint_ref bigint_ref_ok Chia0_0_37 signed_condition
    [replicate 48 3; [0; 0; 0; 2; 1; 2]] signed_bytes [] (Cursor signed_bytes 0)); try reflexivity; try done.
  - apply bytes_okb_spec. reflexivity.
  - split; [reflexivity|]. repeat constructor; vm_compute; done || lia.
Defined.
