(* ===== verification/SpendConditions.v ===== *)
(** * Spends and their conditions: [core/src/consensus/block_generator.rs]

    A block's generator yields spends; each spend's puzzle yields conditions.
    This file models how they are accumulated: the records [Spend] and
    [SpendBundleConditions], the effect of one condition
    ([apply_parsed_condition]), the bounded reading of conditions out of the
    run arena ([arena_condition] and its parts), and the two loops over a
    spend's conditions: streaming ([parse_and_apply_spend_from_arena]) and
    over a decoded list ([spend_from_conditions]).

    The streaming reader is defined over any node view, like the operators:
    [ClvmArena] gives the arena's, [ClvmView] the one of plain trees, and
    [parse_spend_refines] says that the two agree.  A [HashSet] is the list of
    its elements in the order they were added. *)
From Stdlib Require Import ZArith Lia.
From stdpp Require Import base list numbers option gmap.
From S2P Require Import Prelude Serialize ClvmNumber ClvmSexp Coin ClvmPath ClvmParser ClvmView ClvmArena PotIterations Conditions.

Open Scope Z_scope.

(** ** [blockchain/spend.rs] and [spend_bundle_conditions.rs] *)
Definition ELIGIBLE_FOR_DEDUP : Z := 1.
Definition ELIGIBLE_FOR_FF : Z := 4.

Record NewCoin := { nc_puzzle_hash : list Z; nc_amount : Z; nc_hint : option (list Z) }.
#[global] Instance new_coin_dec : EqDecision NewCoin.
Proof. solve_decision. Defined.

Record SpendMessage := { sm_mode : Z; sm_message : list Z; sm_args : MessageArgs }.

Record Spend := mkSpend {
  parent_id : list Z;
  coin_amount : Z;
  spend_puzzle_hash : list Z;
  spend_coin_id : list Z;
  height_relative : option Z;
  seconds_relative : option Z;
  before_height_relative : option Z;
  before_seconds_relative : option Z;
  birth_height : option Z;
  birth_seconds : option Z;
  create_coin : list NewCoin;
  agg_sig_me : list (list Z * list Z);
  agg_sig_parent : list (list Z * list Z);
  agg_sig_puzzle : list (list Z * list Z);
  agg_sig_amount : list (list Z * list Z);
  agg_sig_puzzle_amount : list (list Z * list Z);
  agg_sig_parent_amount : list (list Z * list Z);
  agg_sig_parent_puzzle : list (list Z * list Z);
  create_coin_announcements : list (list Z);
  assert_coin_announcements : list (list Z);
  create_puzzle_announcements : list (list Z);
  assert_puzzle_announcements : list (list Z);
  assert_concurrent_spend : list (list Z);
  assert_concurrent_puzzle : list (list Z);
  assert_ephemeral : bool;
  sent_messages : list SpendMessage;
  received_messages : list SpendMessage;
  flags : Z;
  condition_cost : Z;
  execution_cost : Z;
}.
#[global] Instance spend_settable : Settable Spend :=
  settable! mkSpend <parent_id; coin_amount; spend_puzzle_hash; spend_coin_id; height_relative;
    seconds_relative; before_height_relative; before_seconds_relative; birth_height; birth_seconds;
    create_coin; agg_sig_me; agg_sig_parent; agg_sig_puzzle; agg_sig_amount; agg_sig_puzzle_amount;
    agg_sig_parent_amount; agg_sig_parent_puzzle; create_coin_announcements; assert_coin_announcements;
    create_puzzle_announcements; assert_puzzle_announcements; assert_concurrent_spend;
    assert_concurrent_puzzle; assert_ephemeral; sent_messages; received_messages; flags;
    condition_cost; execution_cost>.

Record SpendBundleConditions := mkConds {
  spends : list Spend;
  reserve_fee : Z;
  height_absolute : Z;
  seconds_absolute : Z;
  before_height_absolute : option Z;
  before_seconds_absolute : option Z;
  agg_sig_unsafe : list (list Z * list Z);
  conds_cost : Z;
  removal_amount : Z;
  addition_amount : Z;
}.
#[global] Instance conds_settable : Settable SpendBundleConditions :=
  settable! mkConds <spends; reserve_fee; height_absolute; seconds_absolute; before_height_absolute;
    before_seconds_absolute; agg_sig_unsafe; conds_cost; removal_amount; addition_amount>.

(** What the code passes by mutable reference: the spend, the bundle and the
    accumulated condition cost. *)
Record accum := mkAccum { acc_spend : Spend; acc_conds : SpendBundleConditions; extra_cost : Z }.
#[global] Instance accum_settable : Settable accum := settable! mkAccum <acc_spend; acc_conds; extra_cost>.

Definition CREATE_COIN_COST : Z := 1800000.
Definition AGG_SIG_COST : Z := 1200000.

(** [*flags &= !mask], for the eligibility bits *)
Definition clear (mask flags : Z) : Z := Z.ldiff flags mask.

Section spends.
Context `{BigIntBytes, Sha256}.

Definition new_spend (coin : Coin) (mempool : bool) : Spend := {|
  parent_id := parent_coin_info coin;
  coin_amount := amount coin;
  spend_puzzle_hash := puzzle_hash coin;
  spend_coin_id := coin_id coin;
  height_relative := None; seconds_relative := None;
  before_height_relative := None; before_seconds_relative := None;
  birth_height := None; birth_seconds := None;
  create_coin := [];
  agg_sig_me := []; agg_sig_parent := []; agg_sig_puzzle := []; agg_sig_amount := [];
  agg_sig_puzzle_amount := []; agg_sig_parent_amount := []; agg_sig_parent_puzzle := [];
  create_coin_announcements := []; assert_coin_announcements := [];
  create_puzzle_announcements := []; assert_puzzle_announcements := [];
  assert_concurrent_spend := []; assert_concurrent_puzzle := [];
  assert_ephemeral := false;
  sent_messages := []; received_messages := [];
  flags :=
    if mempool then
      Z.lor ELIGIBLE_FOR_DEDUP (if Z.land (amount coin) 1 =? 1 then ELIGIBLE_FOR_FF else 0)
    else 0;
  condition_cost := 0; execution_cost := 0;
|}.

Definition clear_eligibility_for_condition (fl : Z) (condition : ConditionWithArgs) (index : nat) : Z :=
  match condition with
  | AssertMyCoinId _ | AssertHeightRelative _ | AssertSecondsRelative _ | AssertBeforeHeightRelative _
  | AssertBeforeSecondsRelative _ | AssertMyBirthHeight _ | AssertMyBirthSeconds _ | AssertEphemeral =>
      clear ELIGIBLE_FOR_FF fl
  | AssertMyParentId _ => if bool_decide (index ≠ 1%nat) then clear ELIGIBLE_FOR_FF fl else fl
  | AggSigMe _ _ | AggSigParent _ _ | AggSigParentAmount _ _ | AggSigParentPuzzle _ _ =>
      clear (Z.lor ELIGIBLE_FOR_DEDUP ELIGIBLE_FOR_FF) fl
  | AggSigPuzzle _ _ | AggSigAmount _ _ | AggSigPuzzleAmount _ _ | AggSigUnsafe _ _ =>
      clear ELIGIBLE_FOR_DEDUP fl
  | SendMessage mode _ _ =>
      clear ELIGIBLE_FOR_DEDUP
        (if negb (Z.land (Z.shiftr mode 3) 4 =? 0) then clear ELIGIBLE_FOR_FF fl else fl)
  | ReceiveMessage mode _ _ =>
      clear ELIGIBLE_FOR_DEDUP (if negb (Z.land mode 4 =? 0) then clear ELIGIBLE_FOR_FF fl else fl)
  | CreateCoinAnnouncement _ => clear ELIGIBLE_FOR_FF fl
  | _ => fl
  end.

(** ** The effect of one condition *)

(** [extra_cost.checked_add(c)] *)
Definition charge (c : Z) (a : accum) : clvm accum :=
  total ← ok_or (checked 64 (extra_cost a + c)) Overflow; Ok (a <| extra_cost := total |>).

Definition snoc {A} (x : A) (l : list A) : list A := l ++ [x].
Definition opt_max (o : option Z) (v : Z) : option Z := Some (Z.max (default 0 o) v).
Definition opt_min (o : option Z) (v : Z) : option Z :=
  Some (match o with Some e => Z.min e v | None => v end).

Definition apply_condition (c : ConsensusConstants) (coin : Coin) (condition : ConditionWithArgs) (a : accum) :
    clvm accum :=
  match condition with
  | CreateCoin ph amt memos =>
      a ← charge CREATE_COIN_COST a;
      total ← ok_or (checked 128 (addition_amount (acc_conds a) + amt)) Overflow;
      let new_coin := {| nc_puzzle_hash := ph; nc_amount := amt; nc_hint := head memos |} in
      if bool_decide (new_coin ∈ create_coin (acc_spend a)) then Err DuplicateCreate
      else Ok (set acc_spend (set create_coin (snoc new_coin))
                 (set acc_conds (λ cs, cs <| addition_amount := total |>) a))
  | ReserveFee fee =>
      total ← ok_or (checked 64 (reserve_fee (acc_conds a) + fee)) Overflow;
      Ok (set acc_conds (λ cs, cs <| reserve_fee := total |>) a)
  | AssertHeightAbsolute h => Ok (set acc_conds (set height_absolute (Z.max h)) a)
  | AssertSecondsAbsolute s => Ok (set acc_conds (set seconds_absolute (Z.max s)) a)
  | AssertBeforeHeightAbsolute h => Ok (set acc_conds (set before_height_absolute (λ o, opt_min o h)) a)
  | AssertBeforeSecondsAbsolute s => Ok (set acc_conds (set before_seconds_absolute (λ o, opt_min o s)) a)
  | AssertHeightRelative h => Ok (set acc_spend (set height_relative (λ o, opt_max o h)) a)
  | AssertSecondsRelative s => Ok (set acc_spend (set seconds_relative (λ o, opt_max o s)) a)
  | AssertBeforeHeightRelative h => Ok (set acc_spend (set before_height_relative (λ o, opt_min o h)) a)
  | AssertBeforeSecondsRelative s => Ok (set acc_spend (set before_seconds_relative (λ o, opt_min o s)) a)
  | AssertMyBirthHeight h => Ok (set acc_spend (λ s, s <| birth_height := Some h |>) a)
  | AssertMyBirthSeconds t => Ok (set acc_spend (λ s, s <| birth_seconds := Some t |>) a)
  | AggSigMe pk msg =>
      a ← charge AGG_SIG_COST a; Ok (set acc_spend (set agg_sig_me (snoc (pk, msg))) a)
  | AggSigParent pk msg =>
      a ← charge AGG_SIG_COST a; Ok (set acc_spend (set agg_sig_parent (snoc (pk, msg))) a)
  | AggSigPuzzle pk msg =>
      a ← charge AGG_SIG_COST a; Ok (set acc_spend (set agg_sig_puzzle (snoc (pk, msg))) a)
  | AggSigAmount pk msg =>
      a ← charge AGG_SIG_COST a; Ok (set acc_spend (set agg_sig_amount (snoc (pk, msg))) a)
  | AggSigPuzzleAmount pk msg =>
      a ← charge AGG_SIG_COST a; Ok (set acc_spend (set agg_sig_puzzle_amount (snoc (pk, msg))) a)
  | AggSigParentAmount pk msg =>
      a ← charge AGG_SIG_COST a; Ok (set acc_spend (set agg_sig_parent_amount (snoc (pk, msg))) a)
  | AggSigParentPuzzle pk msg =>
      a ← charge AGG_SIG_COST a; Ok (set acc_spend (set agg_sig_parent_puzzle (snoc (pk, msg))) a)
  | AggSigUnsafe pk msg =>
      a ← charge AGG_SIG_COST a;
      _ ← verify_agg_sig_unsafe_message msg (agg_sig_me_additional_data c);
      Ok (set acc_conds (set agg_sig_unsafe (snoc (pk, msg))) a)
  | CreateCoinAnnouncement msg => Ok (set acc_spend (set create_coin_announcements (snoc msg)) a)
  | AssertCoinAnnouncement h => Ok (set acc_spend (set assert_coin_announcements (snoc h)) a)
  | CreatePuzzleAnnouncement msg => Ok (set acc_spend (set create_puzzle_announcements (snoc msg)) a)
  | AssertPuzzleAnnouncement h => Ok (set acc_spend (set assert_puzzle_announcements (snoc h)) a)
  | AssertMyCoinId h => if bool_decide (h ≠ coin_id coin) then Err InvalidSpendbundle else Ok a
  | AssertMyParentId h => if bool_decide (h ≠ parent_coin_info coin) then Err InvalidSpendbundle else Ok a
  | AssertMyPuzzlehash h => if bool_decide (h ≠ puzzle_hash coin) then Err InvalidSpendbundle else Ok a
  | AssertMyAmount v => if bool_decide (v ≠ amount coin) then Err InvalidSpendbundle else Ok a
  | SoftFork cost => charge cost a
  | AssertConcurrentSpend h => Ok (set acc_spend (set assert_concurrent_spend (snoc h)) a)
  | AssertConcurrentPuzzle h => Ok (set acc_spend (set assert_concurrent_puzzle (snoc h)) a)
  | AssertEphemeral => Ok (set acc_spend (λ s, s <| assert_ephemeral := true |>) a)
  | SendMessage mode msg args =>
      Ok (set acc_spend (set sent_messages (snoc {| sm_mode := mode; sm_message := msg; sm_args := args |})) a)
  | ReceiveMessage mode msg args =>
      Ok (set acc_spend (set received_messages (snoc {| sm_mode := mode; sm_message := msg; sm_args := args |})) a)
  | Unknown | Remark _ => Ok a
  end.

Definition apply_parsed_condition (c : ConsensusConstants) (mempool : bool) (coin : Coin)
    (condition : ConditionWithArgs) (index : nat) (a : accum) : clvm accum :=
  let a := if mempool
           then set acc_spend (set flags (λ fl, clear_eligibility_for_condition fl condition index)) a
           else a in
  match agg_sig_infinity_pubkey condition with
  | Some public_key => Err (InvalidPublicKey public_key)
  | None => apply_condition c coin condition a
  end.

Definition sum_amounts (l : list NewCoin) : Z := foldr (λ nc acc, nc_amount nc + acc) 0 l.

Definition finalize_spend (spend : Spend) (extra start : Z) (mempool : bool) : clvm Spend :=
  let spend := spend <| condition_cost := sat_sub extra start |> in
  if mempool then
    let spend :=
      if negb (Z.land (flags spend) ELIGIBLE_FOR_FF =? 0) &&
         negb (existsb (λ nc, bool_decide (nc_puzzle_hash nc = spend_puzzle_hash spend) &&
                              (nc_amount nc =? coin_amount spend)) (create_coin spend))
      then set flags (clear ELIGIBLE_FOR_FF) spend else spend in
    if negb (Z.land (flags spend) ELIGIBLE_FOR_DEDUP =? 0) then
      spend_additions ← chk 128 (sum_amounts (create_coin spend));
      Ok (if spend_additions <? coin_amount spend
          then set flags (clear ELIGIBLE_FOR_DEDUP) spend else spend)
    else Ok spend
  else Ok spend.

(** [conds.removal_amount.checked_add(coin.amount)] *)
Definition remove_coin (coin : Coin) (cs : SpendBundleConditions) : clvm SpendBundleConditions :=
  total ← ok_or (checked 128 (removal_amount cs + amount coin)) Overflow;
  Ok (cs <| removal_amount := total |>).

Fixpoint apply_conditions (c : ConsensusConstants) (mempool : bool) (coin : Coin)
    (conditions : list ConditionWithArgs) (index : nat) (a : accum) : clvm accum :=
  match conditions with
  | [] => Ok a
  | condition :: conditions =>
      a ← apply_parsed_condition c mempool coin condition index a;
      apply_conditions c mempool coin conditions (S index) a
  end.

Definition spend_from_conditions (c : ConsensusConstants) (mempool : bool) (coin : Coin)
    (conditions : list ConditionWithArgs) (cs : SpendBundleConditions) (extra : Z) :
    clvm (Spend * SpendBundleConditions * Z) :=
  cs ← remove_coin coin cs;
  a ← apply_conditions c mempool coin conditions 0
        {| acc_spend := new_spend coin mempool; acc_conds := cs; extra_cost := extra |};
  spend ← finalize_spend (acc_spend a) (extra_cost a) extra mempool;
  Ok (spend, acc_conds a, extra_cost a).

(** ** Reading conditions from the run arena *)
Inductive SanitizedUint := SOk (value : Z) | PositiveOverflow | NegativeOverflow | LeadingZero.

Definition MAX_CONDITION_ATOM : Z := 1024.
Definition MAX_CONDITION_NODES : Z := 2 ^ 16.

Definition saturating_assert_u64 (verdict : SanitizedUint) : option Z :=
  match verdict with
  | SOk value => Some value
  | NegativeOverflow => None
  | PositiveOverflow | LeadingZero => Some u64_max
  end.
Definition saturating_assert_u32 (verdict : SanitizedUint) : option Z :=
  (λ value, default u32_max (checked 32 value)) <$> saturating_assert_u64 verdict.
Definition saturating_before_u64 (verdict : SanitizedUint) : option Z :=
  match verdict with
  | SOk value => Some value
  | PositiveOverflow => None
  | NegativeOverflow | LeadingZero => Some 0
  end.
Definition saturating_before_u32 (verdict : SanitizedUint) : option Z :=
  (λ value, default u32_max (checked 32 value)) <$> saturating_before_u64 verdict.

(** The classification of an atom's bytes. *)
Definition sanitize_bytes (buf : list Z) (max_size : Z) : SanitizedUint :=
  match buf with
  | [] => SOk 0
  | b0 :: rest =>
      if negb (Z.land b0 0x80 =? 0) then NegativeOverflow
      else if match rest with
              | [] => b0 =? 0
              | b1 :: _ => (b0 =? 0) && (Z.land b1 0x80 =? 0)
              end
      then LeadingZero
      else if (if b0 =? 0 then max_size + 1 else max_size) <? zlen buf then PositiveOverflow
      else SOk (foldl (λ value b, Z.lor (wrapu 64 (Z.shiftl value 8)) b) 0 buf)
  end.

Section streaming.
Context {N : Type} (v : view N) (export_node : N → clvm SExp).

Definition sanitize_uint_from_arena (node : N) (max_size : Z) : clvm SanitizedUint :=
  atom ← v_atom v node;
  buf ← ok_or atom ExpectedAtomGotPair;
  Ok (sanitize_bytes buf max_size).

Definition arena_uint_condition (opcode : ConditionOpcode) (args : N) : clvm (option ConditionWithArgs) :=
  o ← next v args;
  '(arg_node, _) ← ok_or o InvalidSpendbundle;
  match opcode with
  | Opcode.ReserveFee =>
      s ← sanitize_uint_from_arena arg_node 8;
      match s with
      | SOk fee => Ok (Some (ReserveFee fee))
      | _ => Err (ConditionFailure ReserveFeeConditionFailed)
      end
  | Opcode.AssertHeightAbsolute =>
      s ← sanitize_uint_from_arena arg_node 4; Ok (AssertHeightAbsolute <$> saturating_assert_u32 s)
  | Opcode.AssertHeightRelative =>
      s ← sanitize_uint_from_arena arg_node 4; Ok (AssertHeightRelative <$> saturating_assert_u32 s)
  | Opcode.AssertSecondsAbsolute =>
      s ← sanitize_uint_from_arena arg_node 8; Ok (AssertSecondsAbsolute <$> saturating_assert_u64 s)
  | Opcode.AssertSecondsRelative =>
      s ← sanitize_uint_from_arena arg_node 8; Ok (AssertSecondsRelative <$> saturating_assert_u64 s)
  | Opcode.AssertBeforeHeightAbsolute =>
      s ← sanitize_uint_from_arena arg_node 4; Ok (AssertBeforeHeightAbsolute <$> saturating_before_u32 s)
  | Opcode.AssertBeforeHeightRelative =>
      s ← sanitize_uint_from_arena arg_node 4; Ok (AssertBeforeHeightRelative <$> saturating_before_u32 s)
  | Opcode.AssertBeforeSecondsAbsolute =>
      s ← sanitize_uint_from_arena arg_node 8; Ok (AssertBeforeSecondsAbsolute <$> saturating_before_u64 s)
  | Opcode.AssertBeforeSecondsRelative =>
      s ← sanitize_uint_from_arena arg_node 8; Ok (AssertBeforeSecondsRelative <$> saturating_before_u64 s)
  | _ => Panic
  end.

(** The first memo, when it is an atom of at most 32 bytes. *)
Definition first_memo (after_amount : N) : clvm (list (list Z)) :=
  o ← next v after_amount;
  match o with
  | Some (memo_list, _) =>
      o ← next v memo_list;
      match o with
      | Some (memo, _) =>
          atom ← v_atom v memo;
          match atom with
          | Some bytes => Ok (if zlen bytes <=? 32 then [bytes] else [])
          | None => Ok []
          end
      | None => Ok []
      end
  | None => Ok []
  end.

Definition arena_create_coin (args : N) : clvm (option ConditionWithArgs) :=
  o ← next v args;
  '(ph_node, after_ph) ← ok_or o InvalidSpendbundle;
  atom ← v_atom v ph_node;
  ph ← match atom with
       | Some bytes => if bool_decide (length bytes = 32%nat) then Ok (sized_from 32 bytes) else Err InvalidSpendbundle
       | None => Err InvalidSpendbundle
       end;
  o ← next v after_ph;
  '(amount_node, after_amount) ← ok_or o InvalidSpendbundle;
  s ← sanitize_uint_from_arena amount_node 8;
  amt ← match s with
        | SOk value => Ok value
        | NegativeOverflow => Err (ConditionFailure CoinAmountNegative)
        | PositiveOverflow | LeadingZero => Err (ConditionFailure CoinAmountExceedsMaximum)
        end;
  memos ← first_memo after_amount;
  Ok (Some (CreateCoin ph amt memos)).

(** The bounded walk before the export: [nodes] counts down from the bound,
    so that many rounds are enough. *)
Fixpoint bounded_walk (nodes : nat) (stack : list N) : clvm unit :=
  match stack with
  | [] => Ok tt
  | node :: stack =>
      match nodes with
      | O => Err InvalidSpendbundle
      | S nodes =>
          k ← v_kind v node;
          match k with
          | KAtom =>
              len ← v_len v node;
              if match len with Some len => MAX_CONDITION_ATOM <? len | None => false end
              then Err InvalidSpendbundle
              else bounded_walk nodes stack
          | KPair first rest => bounded_walk nodes (rest :: first :: stack)
          end
      end
  end.
Definition export_bounded_condition (cond : N) : clvm SExp :=
  _ ← bounded_walk (Z.to_nat MAX_CONDITION_NODES) [cond];
  export_node cond.

Definition arena_condition (cond : N) : clvm (option ConditionWithArgs) :=
  o ← next v cond;
  '(op_node, args) ← ok_or o InvalidSpendbundle;
  atom ← v_atom v op_node;
  let generic :=
    bounded ← export_bounded_condition cond;
    condition ← condition_try_from bounded;
    Ok (Some condition) in
  match atom with
  | Some [b] =>
      match opcode_from_u8 b with
      | Opcode.AssertHeightAbsolute | Opcode.AssertHeightRelative | Opcode.AssertSecondsAbsolute
      | Opcode.AssertSecondsRelative | Opcode.AssertBeforeHeightAbsolute
      | Opcode.AssertBeforeHeightRelative | Opcode.AssertBeforeSecondsAbsolute
      | Opcode.AssertBeforeSecondsRelative | Opcode.ReserveFee => arena_uint_condition (opcode_from_u8 b) args
      | Opcode.CreateCoin => arena_create_coin args
      | Opcode.Remark => message ← message_new []; Ok (Some (Remark message))
      | Opcode.Unknown => Ok (Some Unknown)
      | _ => generic
      end
  | _ => generic
  end.

(** The loop of [parse_and_apply_spend_from_arena]; a list has at most
    [v_fuel] pairs. *)
Fixpoint stream_conditions (fuel : nat) (c : ConsensusConstants) (max_cost : Z) (mempool : bool)
    (coin : Coin) (cursor : N) (index : nat) (a : accum) : clvm accum :=
  match fuel with
  | O => Panic
  | S fuel =>
      o ← next v cursor;
      match o with
      | None => Ok a
      | Some (cond, rest) =>
          condition ← arena_condition cond;
          match condition with
          | None => stream_conditions fuel c max_cost mempool coin rest index a
          | Some condition =>
              a ← apply_parsed_condition c mempool coin condition index a;
              running ← ok_or (checked 64 (conds_cost (acc_conds a) + extra_cost a)) Overflow;
              if max_cost <? running then Err (CostExceeded max_cost running)
              else stream_conditions fuel c max_cost mempool coin rest (S index) a
          end
      end
  end.

Definition parse_and_apply_spend_from_arena (c : ConsensusConstants) (max_cost : Z) (mempool : bool)
    (output : N) (coin : Coin) (cs : SpendBundleConditions) (extra : Z) :
    clvm (Spend * SpendBundleConditions * Z) :=
  cs ← remove_coin coin cs;
  a ← stream_conditions (v_fuel v output) c max_cost mempool coin output 0
        {| acc_spend := new_spend coin mempool; acc_conds := cs; extra_cost := extra |};
  spend ← finalize_spend (acc_spend a) (extra_cost a) extra mempool;
  Ok (spend, acc_conds a, extra_cost a).
End streaming.
End spends.

(** * The streaming reader reads the tree its node denotes *)
Lemma rel_eq {A} (m1 m2 : clvm A) : clvm_rel eq m1 m2 → m1 = m2.
Proof. destruct m1, m2; cbn; naive_solver. Qed.

(** Fuel for the export of a condition that passed the bounded walk. *)
Definition arena_export (a : Arena) : NodePtr → clvm SExp := export (Z.to_nat (2 * MAX_CONDITION_NODES)) a.

Section streaming_sim.
Context `{BigIntBytes, Sha256} {N : Type} (v : view N) (R : N → SExp → Prop) `{!view_sim v R}.
Context (export_node : N → clvm SExp).
Hypothesis export_ok : ∀ n t, R n t → (sexp_size t ≤ Z.to_nat MAX_CONDITION_NODES)%nat → export_node n = Ok t.

Lemma sanitize_sim n t max_size :
  R n t → clvm_rel eq (sanitize_uint_from_arena v n max_size) (sanitize_uint_from_arena tree_view t max_size).
Proof. intros HR. unfold sanitize_uint_from_arena. rewrite (sim_atom n t HR). apply rel_refl. Qed.
#[local] Hint Resolve sanitize_sim : sim.

Lemma uint_condition_sim op n t :
  R n t → clvm_rel eq (arena_uint_condition v op n) (arena_uint_condition tree_view op t).
Proof.
  intros HR. unfold arena_uint_condition. eapply rel_bind; [by apply next_sim|].
  intros o1 o2 Ho. sim_destruct; [|done]. cbn [ok_or mbind res_bind].
  destruct op; try done; (eapply rel_bind; [by apply sanitize_sim|]); intros ? verdict ->; sim_auto.
Qed.

Lemma first_memo_sim n t : R n t → clvm_rel eq (first_memo v n) (first_memo tree_view t).
Proof.
  intros HR. unfold first_memo. eapply rel_bind; [by apply next_sim|].
  intros o1 o2 Ho. sim_destruct; [|done].
  eapply rel_bind; [by apply next_sim|]. intros o1 o2 Ho. sim_destruct; [|done].
  match goal with Hm : R ?m ?tm |- context [v_atom v ?m] => rewrite (sim_atom m tm Hm) end. apply rel_refl.
Qed.

Lemma create_coin_sim n t : R n t → clvm_rel eq (arena_create_coin v n) (arena_create_coin tree_view t).
Proof.
  intros HR. unfold arena_create_coin. eapply rel_bind; [by apply next_sim|].
  intros o1 o2 Ho. sim_destruct; [|done]. cbn [ok_or mbind res_bind].
  match goal with Hm : R ?m ?tm |- context [v_atom v ?m] => rewrite (sim_atom m tm Hm) end.
  eapply rel_bind; [apply rel_refl|]. intros ? at' ->.
  eapply rel_bind; [apply rel_refl|]. intros ? ph ->.
  eapply rel_bind; [by apply next_sim|]. intros o1 o2 Ho. sim_destruct; [|done]. cbn [ok_or mbind res_bind].
  eapply rel_bind; [by apply sanitize_sim|]. intros ? verdict ->.
  eapply rel_bind; [apply rel_refl|]. intros ? amt ->.
  eapply rel_bind; [by apply first_memo_sim|]. intros ? memos ->. done.
Qed.

Lemma bounded_walk_sim nodes ns ts :
  Forall2 R ns ts → clvm_rel eq (bounded_walk v nodes ns) (bounded_walk tree_view nodes ts).
Proof.
  revert ns ts. induction nodes as [|nodes IH]; intros ns ts Hs; destruct Hs as [|n t ns ts Hn Hs]; try done.
  cbn [bounded_walk]. eapply rel_bind; [by apply sim_kind|]. intros k1 k2 Hk.
  inversion Hk; subst; [|apply IH; by repeat constructor].
  rewrite (sim_len n t Hn). eapply rel_bind; [apply rel_refl|]. intros ? len ->.
  destruct (match len with Some _ => _ | None => _ end); [done|by apply IH].
Qed.

Lemma bounded_walk_size nodes ts :
  bounded_walk tree_view nodes ts = Ok tt → (sum_list_with sexp_size ts ≤ nodes)%nat.
Proof.
  revert ts. induction nodes as [|nodes IH]; intros [|t ts]; cbn; try done; [lia|].
  destruct t as [b|tf tr]; cbn.
  - destruct (_ <? _); [done|]. intros Hw%IH. lia.
  - intros Hw%IH. cbn in Hw. lia.
Qed.

Lemma export_bounded_sim n t :
  R n t → clvm_rel eq (export_bounded_condition v export_node n) (export_bounded_condition tree_view Ok t).
Proof.
  intros HR. unfold export_bounded_condition.
  pose proof (bounded_walk_sim (Z.to_nat MAX_CONDITION_NODES) [n] [t]) as Hw.
  rewrite (rel_eq _ _ (Hw ltac:(by repeat constructor))).
  destruct (bounded_walk tree_view _ [t]) as [[]|e|] eqn:Hb; cbn [mbind res_bind]; [|done..].
  apply bounded_walk_size in Hb. cbn in Hb. rewrite (export_ok n t HR) by lia. done.
Qed.

Lemma arena_condition_sim n t :
  R n t → arena_condition v export_node n = arena_condition tree_view Ok t.
Proof.
  intros HR. apply rel_eq. unfold arena_condition. eapply rel_bind; [by apply next_sim|].
  intros o1 o2 Ho. sim_destruct; [|done]. cbn [ok_or mbind res_bind].
  match goal with Hm : R ?m ?tm |- context [v_atom v ?m] => rewrite (sim_atom m tm Hm) end.
  eapply rel_bind; [apply rel_refl|]. intros ? at' ->. cbv zeta.
  assert (Hg : clvm_rel eq
    (b ← export_bounded_condition v export_node n; c ← condition_try_from b; Ok (Some c))
    (b ← export_bounded_condition tree_view Ok t; c ← condition_try_from b; Ok (Some c))).
  { eapply rel_bind; [by apply export_bounded_sim|]. intros ? bs ->. apply rel_refl. }
  destruct at' as [[|b0 [|]]|]; try exact Hg.
  destruct (opcode_from_u8 b0); try exact Hg;
    first [by apply uint_condition_sim | by apply create_coin_sim | apply rel_refl].
Qed.

Lemma stream_conditions_sim f1 f2 c max_cost mempool coin n t index a :
  R n t → (spine t < f1)%nat → (spine t < f2)%nat →
  stream_conditions v export_node f1 c max_cost mempool coin n index a =
  stream_conditions tree_view Ok f2 c max_cost mempool coin t index a.
Proof.
  revert f1 f2 n index a. induction t as [b|tf _ tr IH]; intros f1 f2 n index a HR H1 H2;
    (destruct f1; [cbn in H1; lia|]); (destruct f2; [cbn in H2; lia|]);
    cbn [stream_conditions]; pose proof (next_cases v R n _ HR) as Hn.
  - by rewrite Hn.
  - destruct Hn as (f & r & -> & Hf & Hr). cbn [mbind res_bind next tree_view v_kind].
    rewrite (arena_condition_sim f tf Hf).
    destruct (arena_condition tree_view Ok tf) as [[condition|]|e|]; cbn [mbind res_bind]; try done.
    + destruct (apply_parsed_condition _ _ _ _ _ _) as [a'|e|]; cbn [mbind res_bind]; try done.
      destruct (ok_or _ _) as [running|e|]; cbn [mbind res_bind]; try done.
      destruct (_ <? _); [done|]. apply IH; [done|cbn in *; lia..].
    + apply IH; [done|cbn in *; lia..].
Qed.

Lemma parse_spend_sim c max_cost mempool n t coin cs extra :
  R n t →
  parse_and_apply_spend_from_arena v export_node c max_cost mempool n coin cs extra =
  parse_and_apply_spend_from_arena tree_view Ok c max_cost mempool t coin cs extra.
Proof.
  intros HR. unfold parse_and_apply_spend_from_arena.
  destruct (remove_coin coin cs) as [cs'|e|]; cbn [mbind res_bind]; try done.
  rewrite (stream_conditions_sim (v_fuel v n) (v_fuel tree_view t) c max_cost mempool coin n t); [done|done|..].
  - pose proof (sim_fuel n t HR). cbn in *. lia.
  - cbn. lia.
Qed.
End streaming_sim.

Lemma parse_spend_den `{BigIntBytesOk, Sha256} a n t c max_cost mempool coin cs extra :
  den a n t →
  parse_and_apply_spend_from_arena (arena_view a) (arena_export a) c max_cost mempool n coin cs extra =
  parse_and_apply_spend_from_arena tree_view Ok c max_cost mempool t coin cs extra.
Proof.
  intros Hd. apply (parse_spend_sim (arena_view a) (den a)); [|done].
  intros m s Hm Hs. apply export_spec; [done|].
  assert (Hts : (tree_size s ≤ 2 * sexp_size s)%nat) by (clear; induction s; cbn; lia).
  unfold MAX_CONDITION_NODES in *. rewrite Z2Nat.inj_mul by lia. change (Z.to_nat 2) with 2%nat. lia.
Qed.


(** ** Integer arguments *)

(** The four verdicts, by the integer the atom encodes. *)
Definition sanitize_spec (buf : list Z) (max_size : Z) : SanitizedUint :=
  if atom_value buf <? 0 then NegativeOverflow
  else if negb (canonb buf) then LeadingZero
  else if atom_value buf <? 2 ^ (8 * max_size) then SOk (atom_value buf)
  else PositiveOverflow.

(** A leading digit bounds the value from both sides. *)
Lemma from_be_lead b l : bytes_ok (b :: l) → b * 256 ^ zlen l ≤ from_be (b :: l) < (b + 1) * 256 ^ zlen l.
Proof. intros [_ Hl]%Forall_cons_iff. rewrite from_be_cons. pose proof (from_be_bounds l Hl). nia. Qed.

(** [n] bytes with a positive first digit [d] against a limit of [m] bytes. *)
Lemma size_limit b l m :
  bytes_ok (b :: l) → 0 ≤ m → 0 < b →
  (from_be (b :: l) <? 2 ^ (8 * m)) = negb (m <? zlen (b :: l)).
Proof.
  intros Hb Hm Hpos. pose proof (from_be_lead b l Hb) as Hlead. pose proof (zlen_nonneg l).
  apply Forall_cons_iff in Hb as [Hb _]. unfold byte_ok in Hb.
  rewrite zlen_cons, Z.pow_mul_r by lia. change (2 ^ 8) with 256.
  destruct (Z.ltb_spec m (zlen l + 1)) as [Hlt|Hge]; cbn [negb].
  - apply Z.ltb_ge. assert (256 ^ m ≤ 256 ^ zlen l) by (apply Z.pow_le_mono_r; lia). nia.
  - apply Z.ltb_lt. assert (256 ^ (zlen l + 1) ≤ 256 ^ m) by (apply Z.pow_le_mono_r; lia).
    rewrite Z.pow_add_r in * by lia. nia.
Qed.

Lemma sanitize_bytes_spec buf max_size :
  bytes_ok buf → 0 < max_size ≤ 8 → sanitize_bytes buf max_size = sanitize_spec buf max_size.
Proof.
  intros Hb Hm. unfold sanitize_bytes, sanitize_spec. destruct buf as [|b0 rest].
  { cbn. rewrite (proj2 (Z.ltb_lt _ _)) by (apply Z.pow_pos_nonneg; lia). done. }
  cbn [atom_value]. rewrite from_be_signed_cons by done.
  pose proof Hb as [Hb0 Hr]%Forall_cons_iff. rewrite byte_msb by done.
  pose proof (from_be_bounds rest Hr) as Hrest. pose proof (zlen_nonneg rest).
  pose proof (Z.pow_pos_nonneg 256 (zlen rest)). unfold byte_ok in Hb0.
  destruct (Z.ltb_spec b0 128) as [Hlt|Hge]; cbn [negb].
  2: { rewrite (proj2 (Z.ltb_lt _ _)); [done|].
       assert ((b0 - 256) * 256 ^ zlen rest ≤ -1 * 256 ^ zlen rest) by (apply Z.mul_le_mono_nonneg_r; lia). lia. }
  rewrite <-from_be_cons. pose proof (from_be_bounds _ Hb) as Hall.
  rewrite (proj2 (Z.ltb_ge (from_be _) 0)) by lia.
  assert (Hz : match rest with [] => b0 =? 0 | b1 :: _ => (b0 =? 0) && (Z.land b1 0x80 =? 0) end
               = negb (canonb (b0 :: rest))).
  { destruct rest as [|b1 rest]; cbn [canonb]; rewrite negb_involutive; [done|].
    unfold redundant_sign. rewrite (proj2 (Z.eqb_neq b0 0xFF)) by lia. cbn [andb]. by rewrite orb_false_r. }
  rewrite Hz. destruct (canonb (b0 :: rest)) eqn:Hcanon; cbn [negb]; [|done].
  assert (Hsize : (from_be (b0 :: rest) <? 2 ^ (8 * max_size)) =
                  negb ((if b0 =? 0 then max_size + 1 else max_size) <? zlen (b0 :: rest))).
  { destruct (Z.eqb_spec b0 0) as [->|Hne]; [|apply size_limit; [done|lia..]].
    destruct rest as [|b1 rest]; [done|]. pose proof Hr as [Hb1 _]%Forall_cons_iff.
    cbn [canonb] in Hcanon. apply negb_true_iff, not_true_iff_false in Hcanon.
    rewrite redundant_sign_spec in Hcanon by done.
    rewrite from_be_cons, Z.mul_0_l, Z.add_0_l, size_limit by (done || lia).
    f_equal. rewrite !zlen_cons. destruct (Z.ltb_spec max_size (zlen rest + 1)); symmetry;
      [apply Z.ltb_lt|apply Z.ltb_ge]; lia. }
  rewrite Hsize. destruct (_ <? zlen _) eqn:Hlim; cbn [negb]; [done|].
  rewrite (fold_bytes_from_be 64); [f_equal; lia|done|lia|]. rewrite Z.mul_0_l, Z.add_0_l.
  cbn [negb] in Hsize. apply Z.ltb_lt in Hsize.
  assert (2 ^ (8 * max_size) ≤ 2 ^ 64) by (apply Z.pow_le_mono_r; lia). lia.
Qed.

(** ** The two decoders

    Blocks are read by the streaming decoder, bundles for the mempool by
    [condition_try_from]. *)
Definition fee_condition (fee : list Z) : SExp := Pair (Atom [52]) (Pair (Atom fee) NULL_SEXP).
Definition coin_condition (ph amt : list Z) : SExp :=
  Pair (Atom [51]) (Pair (Atom ph) (Pair (Atom amt) NULL_SEXP)).

(** on [RESERVE_FEE] and [CREATE_COIN] with an amount that fits in 64
    bits the decoder of bundles always accepts, cutting or padding the puzzle
    hash to 32 bytes; the decoder of blocks reads the same condition exactly
    when the amount is in its shortest form and the hash has 32 bytes, and
    refuses it otherwise. *)
Theorem bundle_decoder_laxer `{BigIntBytesOk, Sha256} ph amt :
  bytes_ok amt → 0 ≤ atom_value amt < 2 ^ 64 →
  condition_try_from (fee_condition amt) = Ok (ReserveFee (atom_value amt)) ∧
  condition_try_from (coin_condition ph amt) = Ok (CreateCoin (sized_from 32 ph) (atom_value amt) []) ∧
  arena_condition tree_view Ok (fee_condition amt) =
    (if canonb amt then Ok (Some (ReserveFee (atom_value amt)))
     else Err (ConditionFailure ReserveFeeConditionFailed)) ∧
  arena_condition tree_view Ok (coin_condition ph amt) =
    (if bool_decide (length ph = 32%nat) then
       if canonb amt then Ok (Some (CreateCoin (sized_from 32 ph) (atom_value amt) []))
       else Err (ConditionFailure CoinAmountExceedsMaximum)
     else Err InvalidSpendbundle).
Proof.
  intros Hb Hv.
  assert (Hn : u64_from_bigint (number_from_slice amt) = Ok (atom_value amt))
    by (rewrite number_from_slice_value; by apply u64_from_bigint_ok).
  assert (Hs : sanitize_bytes amt 8 = if canonb amt then SOk (atom_value amt) else LeadingZero).
  { rewrite sanitize_bytes_spec by (done || lia). unfold sanitize_spec.
    rewrite (proj2 (Z.ltb_ge _ _)) by lia. change (2 ^ (8 * 8)) with (2 ^ 64).
    rewrite (proj2 (Z.ltb_lt _ _)) by lia. by destruct (canonb amt). }
  split_and!.
  - etransitivity; [by apply (try_from_atoms Opcode.ReserveFee [amt])|]. cbn -[u64_from_bigint number_from_slice].
    by rewrite Hn.
  - etransitivity; [by apply (try_from_atoms Opcode.CreateCoin [ph; amt])|].
    cbn -[u64_from_bigint number_from_slice sized_from]. by rewrite Hn.
  - cbn -[sanitize_bytes]. rewrite Hs. by destruct (canonb amt).
  - cbn -[sanitize_bytes sized_from]. destruct (bool_decide _); [|done]. cbn -[sanitize_bytes sized_from].
    rewrite Hs. by destruct (canonb amt).
Qed.

Lemma bundle_decoder_laxer_witness :
  @condition_try_from bigint_ref (fee_condition [0; 5]) = Ok (ReserveFee 5) ∧
  @arena_condition bigint_ref SExp (@tree_view bigint_ref) Ok (fee_condition [0; 5]) =
    Err (ConditionFailure ReserveFeeConditionFailed).
Proof.
  destruct (@bundle_decoder_laxer bigint_ref bigint_ref_ok toy_hash [1] [0; 5]) as (H1 & _ & H2 & _);
    [apply bytes_okb_spec; reflexivity|vm_compute; done|]. split; [exact H1|exact H2].
Defined.

(** ** What a condition changes *)
Section effects.
Context `{BigIntBytes, Sha256}.

Definition condition_price (cd : ConditionWithArgs) : Z :=
  match cd with
  | CreateCoin _ _ _ => CREATE_COIN_COST
  | AggSigMe _ _ | AggSigParent _ _ | AggSigPuzzle _ _ | AggSigAmount _ _ | AggSigPuzzleAmount _ _
  | AggSigParentAmount _ _ | AggSigParentPuzzle _ _ | AggSigUnsafe _ _ => AGG_SIG_COST
  | SoftFork cost => cost
  | _ => 0
  end.
Definition condition_creates (cd : ConditionWithArgs) : list NewCoin :=
  match cd with
  | CreateCoin ph amt memos => [{| nc_puzzle_hash := ph; nc_amount := amt; nc_hint := head memos |}]
  | _ => []
  end.
Definition condition_fee (cd : ConditionWithArgs) : Z := match cd with ReserveFee fee => fee | _ => 0 end.

Definition sum_prices (l : list ConditionWithArgs) : Z := foldr (λ cd acc, condition_price cd + acc) 0 l.
Definition sum_fees (l : list ConditionWithArgs) : Z := foldr (λ cd acc, condition_fee cd + acc) 0 l.

(** The parts of the accumulators no condition touches. *)
Definition same_frame (a b : accum) : Prop :=
  parent_id (acc_spend b) = parent_id (acc_spend a) ∧
  coin_amount (acc_spend b) = coin_amount (acc_spend a) ∧
  spend_puzzle_hash (acc_spend b) = spend_puzzle_hash (acc_spend a) ∧
  spend_coin_id (acc_spend b) = spend_coin_id (acc_spend a) ∧
  spends (acc_conds b) = spends (acc_conds a) ∧
  conds_cost (acc_conds b) = conds_cost (acc_conds a) ∧
  removal_amount (acc_conds b) = removal_amount (acc_conds a) ∧
  execution_cost (acc_spend b) = execution_cost (acc_spend a).

(** The accumulators after conditions of the given price, coins and fees. *)
Record grown (a b : accum) (price fee : Z) (coins : list NewCoin) : Prop := {
  grown_frame : same_frame a b;
  grown_cost : extra_cost b = extra_cost a + price;
  grown_additions : addition_amount (acc_conds b) = addition_amount (acc_conds a) + sum_amounts coins;
  grown_fee : reserve_fee (acc_conds b) = reserve_fee (acc_conds a) + fee;
  grown_coins : create_coin (acc_spend b) = create_coin (acc_spend a) ++ coins;
  grown_nodup : NoDup (create_coin (acc_spend a)) → NoDup (create_coin (acc_spend b));
}.

Lemma grown_refl a : grown a a 0 0 [].
Proof. split; [by repeat split|cbn; lia..|by rewrite app_nil_r|done]. Qed.

Lemma sum_amounts_app l k : sum_amounts (l ++ k) = sum_amounts l + sum_amounts k.
Proof. unfold sum_amounts. induction l as [|x l IH]; cbn; [done|]. rewrite IH. lia. Qed.

Lemma grown_trans a b d p p' f f' l l' :
  grown a b p f l → grown b d p' f' l' → grown a d (p + p') (f + f') (l ++ l').
Proof.
  intros [F1 E1 A1 R1 C1 N1] [F2 E2 A2 R2 C2 N2]. unfold same_frame in *. destruct_and?.
  split; [unfold same_frame; split_and!; congruence|lia|rewrite sum_amounts_app; lia|lia| |auto].
  by rewrite C2, C1, app_assoc.
Qed.

Lemma add_cost_ok c a b : charge c a = Ok b → b = a <| extra_cost := extra_cost a + c |>.
Proof.
  unfold charge. destruct (ok_or _ _) as [t|e|] eqn:E; cbn; [|done|done].
  apply ok_or_checked in E as [-> _]. by intros [= <-].
Qed.

Lemma apply_condition_grown c coin cd a b :
  apply_condition c coin cd a = Ok b → grown a b (condition_price cd) (condition_fee cd) (condition_creates cd).
Proof.
  intros Hok. destruct cd; cbn [apply_condition] in Hok.
  all: cbn [condition_price condition_fee condition_creates].
  all: try (injection Hok as <-; split; [by repeat split|cbn; lia..|by cbn; rewrite app_nil_r|done]).
  all: try (destruct (bool_decide _) in Hok; [done|]; injection Hok as <-; apply grown_refl).
  all: try (destruct (charge _ a) as [a'|e|] eqn:Ha; cbn [mbind res_bind] in Hok; [|done|done];
    apply add_cost_ok in Ha as ->).
  all: try (injection Hok as <-; split; [by repeat split|cbn; lia..|by cbn; rewrite app_nil_r|done]).
  - destruct (verify_agg_sig_unsafe_message _ _); cbn [mbind res_bind] in Hok; [|done|done].
    injection Hok as <-. split; [by repeat split|cbn; lia..|by cbn; rewrite app_nil_r|done].
  - destruct (ok_or _ _) as [total|e|] eqn:E; cbn [mbind res_bind] in Hok; [|done|done].
    apply ok_or_checked in E as [-> _]. cbv zeta in Hok.
    destruct (bool_decide _) eqn:Hnew in Hok; [done|]. apply bool_decide_eq_false in Hnew. injection Hok as <-.
    split; [by repeat split|cbn; lia..|done|]. intros Hnd. cbn. unfold snoc.
    apply NoDup_app. split_and!; [done| |by apply NoDup_singleton].
    intros x Hx ->%list_elem_of_singleton. by apply Hnew.
  - destruct (ok_or _ _) as [total|e|] eqn:E; cbn [mbind res_bind] in Hok; [|done|done].
    apply ok_or_checked in E as [-> _]. injection Hok as <-.
    split; [by repeat split|cbn; lia..|by cbn; rewrite app_nil_r|done].
Qed.

Lemma apply_parsed_grown c mempool coin cd index a b :
  apply_parsed_condition c mempool coin cd index a = Ok b →
  grown a b (condition_price cd) (condition_fee cd) (condition_creates cd).
Proof.
  unfold apply_parsed_condition. cbv zeta. destruct (agg_sig_infinity_pubkey cd); [done|].
  intros Hok%apply_condition_grown. destruct mempool; [|done].
  destruct Hok as [F E A R C D]. by split.
Qed.

Lemma apply_conditions_grown c mempool coin cds index a b :
  apply_conditions c mempool coin cds index a = Ok b →
  grown a b (sum_prices cds) (sum_fees cds) (cds ≫= condition_creates).
Proof.
  revert index a. induction cds as [|cd cds IH]; intros index a; cbn [apply_conditions].
  { intros [= <-]. apply grown_refl. }
  destruct (apply_parsed_condition _ _ _ _ _ _) as [a'|e|] eqn:E; cbn [mbind res_bind]; [|done|done].
  intros Hok%IH. apply apply_parsed_grown in E. exact (grown_trans _ _ _ _ _ _ _ _ _ E Hok).
Qed.
End effects.

(** ** Time locks *)
Section locks.
Context `{BigIntBytes, Sha256}.
(** The height and time of a block, and how long ago the coin was created. *)
Context (height seconds : Z) (height_passed seconds_passed : Z).

Definition at_least (o : option Z) (v : Z) : Prop := ∀ r, o = Some r → r ≤ v.
Definition before (o : option Z) (v : Z) : Prop := ∀ r, o = Some r → v < r.

(** The locks accumulated in the bundle and the spend hold. *)
Definition locks_hold (a : accum) : Prop :=
  (height_absolute (acc_conds a) ≤ height ∧ before (before_height_absolute (acc_conds a)) height ∧
   seconds_absolute (acc_conds a) ≤ seconds ∧ before (before_seconds_absolute (acc_conds a)) seconds) ∧
  (at_least (height_relative (acc_spend a)) height_passed ∧
   before (before_height_relative (acc_spend a)) height_passed ∧
   at_least (seconds_relative (acc_spend a)) seconds_passed ∧
   before (before_seconds_relative (acc_spend a)) seconds_passed).

(** What one condition asks for. *)
Definition condition_holds (cd : ConditionWithArgs) : Prop :=
  match cd with
  | AssertHeightAbsolute h => h ≤ height
  | AssertBeforeHeightAbsolute h => height < h
  | AssertSecondsAbsolute s => s ≤ seconds
  | AssertBeforeSecondsAbsolute s => seconds < s
  | AssertHeightRelative h => h ≤ height_passed
  | AssertBeforeHeightRelative h => height_passed < h
  | AssertSecondsRelative s => s ≤ seconds_passed
  | AssertBeforeSecondsRelative s => seconds_passed < s
  | _ => True
  end.

Lemma before_opt_min o v x : before (opt_min o v) x ↔ before o x ∧ x < v.
Proof.
  unfold before, opt_min. destruct o as [e|]; split.
  - intros Hb. specialize (Hb _ eq_refl). split; [|lia]. intros r [= <-]. lia.
  - intros [Hb Hv] r [= <-]. specialize (Hb _ eq_refl). lia.
  - intros Hb. specialize (Hb _ eq_refl). by split.
  - by intros [_ Hv] r [= <-].
Qed.

Lemma at_least_opt_max o v x : 0 ≤ x → at_least (opt_max o v) x ↔ at_least o x ∧ v ≤ x.
Proof.
  intros Hx. unfold at_least, opt_max. destruct o as [e|]; cbn; split.
  - intros Hb. specialize (Hb _ eq_refl). split; [|lia]. intros r [= <-]. lia.
  - intros [Hb Hv] r [= <-]. specialize (Hb _ eq_refl). lia.
  - intros Hb. specialize (Hb _ eq_refl). split; [done|lia].
  - intros [_ Hv] r [= <-]. lia.
Qed.

Lemma apply_condition_locks c coin cd a b :
  0 ≤ height_passed → 0 ≤ seconds_passed → apply_condition c coin cd a = Ok b →
  locks_hold b ↔ locks_hold a ∧ condition_holds cd.
Proof.
  intros Hh Hs Hok. destruct cd; cbn [apply_condition] in Hok; cbn [condition_holds].
  all: try (injection Hok as <-; unfold locks_hold; cbn;
    rewrite ?Z.max_lub_iff, ?before_opt_min, ?at_least_opt_max by done; tauto).
  all: try (destruct (bool_decide _) in Hok; [done|]; injection Hok as <-; tauto).
  all: try (destruct (charge _ a) as [a'|e|] eqn:Ha; cbn [mbind res_bind] in Hok; [|done|done];
    apply add_cost_ok in Ha as ->; try (injection Hok as <-; unfold locks_hold; cbn; tauto)).
  - destruct (verify_agg_sig_unsafe_message _ _); cbn [mbind res_bind] in Hok; [|done|done].
    injection Hok as <-. unfold locks_hold. cbn. tauto.
  - destruct (ok_or _ _) as [total|e|]; cbn [mbind res_bind] in Hok; [|done|done].
    cbv zeta in Hok. destruct (bool_decide _) in Hok; [done|]. injection Hok as <-. unfold locks_hold. cbn. tauto.
  - destruct (ok_or _ _) as [total|e|]; cbn [mbind res_bind] in Hok; [|done|done].
    injection Hok as <-. unfold locks_hold. cbn. tauto.
Qed.

Lemma apply_parsed_locks c mempool coin cd index a b :
  0 ≤ height_passed → 0 ≤ seconds_passed → apply_parsed_condition c mempool coin cd index a = Ok b →
  locks_hold b ↔ locks_hold a ∧ condition_holds cd.
Proof.
  intros Hh Hs. unfold apply_parsed_condition. cbv zeta. destruct (agg_sig_infinity_pubkey cd); [done|].
  intros Hok. rewrite (apply_condition_locks c coin cd _ b Hh Hs Hok). by destruct mempool.
Qed.

(** one bound per kind of lock is enough: after a spend's conditions the
    accumulated locks hold of a block exactly when those accumulated before
    hold and every height and time condition of the spend holds. *)
Theorem locks_strictest c mempool coin cds index a b :
  0 ≤ height_passed → 0 ≤ seconds_passed →
  apply_conditions c mempool coin cds index a = Ok b →
  locks_hold b ↔ locks_hold a ∧ Forall condition_holds cds.
Proof.
  intros Hh Hs. revert index a. induction cds as [|cd cds IH]; intros index a; cbn [apply_conditions].
  { intros [= <-]. split; [done|by intros [? _]]. }
  destruct (apply_parsed_condition _ _ _ _ _ _) as [a'|e|] eqn:E; cbn [mbind res_bind]; [|done|done].
  intros Hok. rewrite (IH _ _ Hok), (apply_parsed_locks _ _ _ _ _ _ _ Hh Hs E), Forall_cons_iff. tauto.
Qed.
End locks.

(** ** Streaming and collecting *)
Section streaming_list.
Context `{BigIntBytes, Sha256}.

(** The elements of a list, whatever ends it. *)
Fixpoint heads (t : SExp) : list SExp := match t with Pair f r => f :: heads r | Atom _ => [] end.

(** The conditions of an output, the skipped ones left out. *)
Definition read_conditions (t : SExp) : clvm (list ConditionWithArgs) :=
  l ← mapM (arena_condition tree_view Ok) (heads t); Ok (omap id l).

Lemma read_conditions_pair f r :
  read_conditions (Pair f r) =
    (o ← arena_condition tree_view Ok f; l ← read_conditions r;
     Ok (match o with Some cd => cd :: l | None => l end)).
Proof.
  unfold read_conditions. cbn [heads mapM]. destruct (arena_condition tree_view Ok f) as [o|e|]; cbn; [|done..].
  destruct (mapM _ (heads r)) as [l|e|]; cbn; [|done..]. by destruct o.
Qed.

Lemma apply_parsed_cost c mempool coin cd index a b :
  apply_parsed_condition c mempool coin cd index a = Ok b →
  conds_cost (acc_conds b) + extra_cost b = conds_cost (acc_conds a) + extra_cost a + condition_price cd.
Proof.
  intros Hg%apply_parsed_grown. destruct Hg as [(_ & _ & _ & _ & _ & Hc & _) He _ _ _ _]. lia.
Qed.

(** Streaming with a running cost check is collecting all conditions,
    applying them, and checking the cost once. *)
Lemma stream_read fuel c max_cost mempool coin t index a b :
  stream_conditions tree_view Ok fuel c max_cost mempool coin t index a = Ok b →
  ∃ cds, read_conditions t = Ok cds ∧ apply_conditions c mempool coin cds index a = Ok b ∧
    (cds = [] ∨ conds_cost (acc_conds b) + extra_cost b ≤ max_cost).
Proof.
  revert fuel index a. induction t as [x|tf _ tr IH]; intros fuel index a;
    (destruct fuel as [|fuel]; [done|]); cbn [stream_conditions next tree_view v_kind mbind res_bind].
  { intros [= <-]. exists []. split_and!; [done..|by left]. }
  rewrite read_conditions_pair.
  destruct (arena_condition tree_view Ok tf) as [[cd|]|e|]; cbn [mbind res_bind]; [| |done|done].
  - destruct (apply_parsed_condition _ _ _ _ _ _) as [a'|e|] eqn:E; cbn [mbind res_bind]; [|done|done].
    destruct (ok_or _ _) as [running|e|] eqn:Er; cbn [mbind res_bind]; [|done|done].
    apply ok_or_checked in Er as [-> _]. destruct (Z.ltb_spec max_cost (conds_cost (acc_conds a') + extra_cost a')); [done|].
    intros (cds & -> & Ha & Hc)%IH. cbn [mbind res_bind]. eexists. split; [done|]. cbn [apply_conditions].
    rewrite E. cbn [mbind res_bind]. split; [done|right]. destruct Hc as [->|Hc]; [|done].
    cbn in Ha. by injection Ha as <-.
  - intros (cds & -> & Ha & Hc)%IH. cbn [mbind res_bind]. eauto.
Qed.

Lemma read_stream fuel c max_cost mempool coin t index a b cds :
  (spine t < fuel)%nat → max_cost < 2 ^ 64 → 0 ≤ conds_cost (acc_conds a) + extra_cost a →
  Forall (λ cd, 0 ≤ condition_price cd) cds →
  read_conditions t = Ok cds → apply_conditions c mempool coin cds index a = Ok b →
  (cds = [] ∨ conds_cost (acc_conds b) + extra_cost b ≤ max_cost) →
  stream_conditions tree_view Ok fuel c max_cost mempool coin t index a = Ok b.
Proof.
  intros Hf Hmax. revert fuel Hf index a cds. induction t as [x|tf _ tr IH]; intros fuel Hf index a cds Ha Hp Hr Hap Hc;
    (destruct fuel as [|fuel]; [cbn in Hf; lia|]); cbn [stream_conditions next tree_view v_kind mbind res_bind].
  { cbn in Hr. injection Hr as <-. done. }
  rewrite read_conditions_pair in Hr.
  destruct (arena_condition tree_view Ok tf) as [o|e|]; cbn [mbind res_bind] in *; [|done|done].
  destruct (read_conditions tr) as [l|e|]; cbn [mbind res_bind] in *; [|done|done].
  injection Hr as <-. cbn [spine] in Hf. destruct o as [cd|]; [|by apply (IH fuel ltac:(lia) _ _ l)].
  apply Forall_cons_iff in Hp as [Hp0 Hp]. cbn [apply_conditions] in Hap.
  destruct (apply_parsed_condition _ _ _ _ _ _) as [a'|e|] eqn:E; cbn [mbind res_bind] in Hap |- *; [|done|done].
  pose proof (apply_parsed_cost _ _ _ _ _ _ _ E) as Hcost.
  destruct Hc as [|Hc]; [done|].
  assert (Hle : conds_cost (acc_conds a') + extra_cost a' ≤ conds_cost (acc_conds b) + extra_cost b).
  { apply apply_conditions_grown in Hap. destruct Hap as [(_ & _ & _ & _ & _ & Hcc & _) He _ _ _ _].
    assert (0 ≤ sum_prices l) by (unfold sum_prices; clear -Hp; induction Hp; cbn; lia). lia. }
  rewrite checked_ok by (unfold uok; lia). cbn [ok_or mbind res_bind].
  rewrite (proj2 (Z.ltb_ge _ _)) by lia.
  apply (IH fuel ltac:(lia) _ _ l); [lia|done..|by right].
Qed.
End streaming_list.

(** ** Instances *)

(** A spend that reserves a fee of 5 and is locked until height 300. *)
Definition sample_output : SExp :=
  Pair (fee_condition [5]) (Pair (Pair (Atom [83]) (Pair (Atom [1; 44]) NULL_SEXP)) NULL_SEXP).
Definition sample_spent_coin : Coin :=
  {| parent_coin_info := repeat 1 32; puzzle_hash := repeat 7 32; amount := 1000 |}.
Definition no_conditions : SpendBundleConditions := mkConds [] 0 0 0 None None [] 0 0 0.


(** Two height locks, of which the later one counts. *)
Definition sample_accum : accum :=
  mkAccum (new_spend (H0 := toy_hash) sample_spent_coin false) no_conditions 0.

Lemma locks_strictest_witness :
  match @apply_conditions toy_hash MAINNET false sample_spent_coin
          [AssertHeightAbsolute 300; AssertHeightAbsolute 200] 0 sample_accum with
  | Ok b => locks_hold 250 0 0 0 b ↔
      locks_hold 250 0 0 0 sample_accum ∧
      Forall (condition_holds 250 0 0 0) [AssertHeightAbsolute 300; AssertHeightAbsolute 200]
  | _ => False
  end.
Proof.
  destruct (apply_conditions _ _ _ _ _ _) as [b|e|] eqn:E; [|vm_compute in E; discriminate E..].
  eapply locks_strictest; [done|done|exact E].
Defined.
