(* ===== verification/BlockConditions.v ===== *)
(** * Conditions across a block: [validate_block_conditions]

    [core/src/consensus/block_generator.rs]: once all spends of a block are
    collected, the conditions that relate them to each other and to the chain
    are checked: time locks, double spends, announcements, concurrent spends,
    ephemeral coins and messages.  [validate_block_conditions_iff] says which
    blocks pass; [message_ids_unambiguous] that a message matches only the
    commitments it was sent under; [relative_lock_overflow] that a relative
    lock whose sum with the coin's height or time overflows is dropped. *)
From Stdlib Require Import ZArith Lia.
From stdpp Require Import base list numbers option gmap sets.
From S2P Require Import Prelude Serialize ClvmNumber ClvmSexp Coin ClvmView PotIterations Conditions SpendConditions.

Open Scope Z_scope.

Notation chia := (res ChiaError).

Record CoinSpendContext := mkCoinContext {
  ctx_birth_height : option Z;
  ctx_birth_seconds : option Z;
  spent_height : option Z;
  spent_seconds : option Z;
}.
Record ConditionValidationContext := mkContext {
  block_height : Z;
  previous_transaction_block_timestamp : option Z;
  coin_context : gmap (list Z) CoinSpendContext;
}.

Definition guard_err (b : bool) (e : ChiaError) : chia unit := if b then Err e else Ok tt.

(** [context.and_then(|x| x.checked_add(relative)).is_some_and(test)] *)
Definition sum_test (w : Z) (context relative : option Z) (test : Z → bool) : bool :=
  match relative with
  | Some relative =>
      match context with
      | Some x => match checked w (x + relative) with Some total => test total | None => false end
      | None => false
      end
  | None => false
  end.

Definition validate_spend_context (spend : Spend) (context : CoinSpendContext)
    (block : ConditionValidationContext) : chia unit :=
  let differs (expected actual : option Z) :=
    match expected with Some _ => bool_decide (actual ≠ expected) | None => false end in
  _ ← guard_err (differs (birth_height spend) (ctx_birth_height context)) InvalidCondition;
  _ ← guard_err (differs (birth_seconds spend) (ctx_birth_seconds context)) InvalidCondition;
  _ ← guard_err (sum_test 32 (spent_height context) (height_relative spend) (λ required, block_height block <? required))
        AssertHeightRelativeFailed;
  _ ← guard_err (sum_test 32 (spent_height context) (before_height_relative spend) (λ before, before <=? block_height block))
        AssertHeightRelativeFailed;
  match previous_transaction_block_timestamp block with
  | Some timestamp =>
      _ ← guard_err (sum_test 64 (spent_seconds context) (seconds_relative spend) (λ required, timestamp <? required))
            AssertSecondsRelativeFailed;
      guard_err (sum_test 64 (spent_seconds context) (before_seconds_relative spend) (λ before, before <=? timestamp))
        AssertSecondsRelativeFailed
  | None => Ok tt
  end.

Definition own_message_id (bits : Z) (spend : Spend) : list Z :=
  match Z.land bits 7 with
  | 0 => [0]
  | 1 => [1] ++ to_be 8 (coin_amount spend)
  | 2 => [2] ++ spend_puzzle_hash spend
  | 3 => [3] ++ spend_puzzle_hash spend ++ to_be 8 (coin_amount spend)
  | 4 => [4] ++ parent_id spend
  | 5 => [5] ++ parent_id spend ++ to_be 8 (coin_amount spend)
  | 6 => [6] ++ parent_id spend ++ spend_puzzle_hash spend
  | _ => [7] ++ spend_coin_id spend
  end.

Definition args_message_id (args : MessageArgs) : list Z :=
  match args with
  | Args.None => [0]
  | Args.Amount amount => [1] ++ to_be 8 amount
  | Args.Puzzle puzzle_hash => [2] ++ puzzle_hash
  | Args.PuzzleAmount puzzle_hash amount => [3] ++ puzzle_hash ++ to_be 8 amount
  | Args.Parent parent => [4] ++ parent
  | Args.ParentAmount parent amount => [5] ++ parent ++ to_be 8 amount
  | Args.ParentPuzzle parent puzzle_hash => [6] ++ parent ++ puzzle_hash
  | Args.CoinId coin_id => [7] ++ coin_id
  end.

Definition sent_key (spend : Spend) (m : SpendMessage) : list Z :=
  own_message_id (Z.shiftr (sm_mode m) 3) spend ++ args_message_id (sm_args m) ++ sm_message m.
Definition received_key (spend : Spend) (m : SpendMessage) : list Z :=
  args_message_id (sm_args m) ++ own_message_id (sm_mode m) spend ++ sm_message m.

(** [*counts.entry(key).or_insert(0) += d] *)
Definition bump (d : Z) (counts : gmap (list Z) Z) (key : list Z) : gmap (list Z) Z :=
  <[key := default 0 (counts !! key) + d]> counts.

Section validate.
Context `{Sha256}.

(** The coins a spend creates. *)
Definition created_coin (spend : Spend) (nc : NewCoin) : Coin :=
  {| parent_coin_info := spend_coin_id spend; puzzle_hash := nc_puzzle_hash nc; amount := nc_amount nc |}.
Definition created_ids (spend : Spend) : list (list Z) :=
  map (λ nc, coin_id (created_coin spend nc)) (create_coin spend).

Fixpoint insert_all (ids : list (list Z)) (created : gset (list Z)) : option (gset (list Z)) :=
  match ids with
  | [] => Some created
  | id :: ids => if bool_decide (id ∈ created) then None else insert_all ids ({[id]} ∪ created)
  end.

(** What the first loop collects. *)
Record collected := mkCollected {
  spent : gset (list Z);
  spent_puzzles : gset (list Z);
  coin_index : gmap (list Z) nat;
  created : gset (list Z);
  coin_announcements : gset (list Z);
  puzzle_announcements : gset (list Z);
  asserted_coin_announcements : list (list Z);
  asserted_puzzle_announcements : list (list Z);
}.
Definition nothing_collected : collected := mkCollected ∅ ∅ ∅ ∅ ∅ ∅ [] [].

(** [collect_announcements] *)
Definition coin_announcement_ids (spend : Spend) : list (list Z) :=
  map (λ msg, hash_256 (spend_coin_id spend ++ msg)) (create_coin_announcements spend).
Definition puzzle_announcement_ids (spend : Spend) : list (list Z) :=
  map (λ msg, hash_256 (spend_puzzle_hash spend ++ msg)) (create_puzzle_announcements spend).

Definition collect_spend (ctx : ConditionValidationContext) (index : nat) (spend : Spend) (s : collected) :
    chia collected :=
  _ ← guard_err (bool_decide (spend_coin_id spend ∈ spent s)) DoubleSpend;
  _ ← match coin_context ctx !! spend_coin_id spend with
      | Some context => validate_spend_context spend context ctx
      | None => Ok tt
      end;
  created ← ok_or (insert_all (created_ids spend) (created s)) DuplicateOutput;
  Ok {| spent := {[spend_coin_id spend]} ∪ spent s;
        spent_puzzles := {[spend_puzzle_hash spend]} ∪ spent_puzzles s;
        coin_index := <[spend_coin_id spend := index]> (coin_index s);
        created := created;
        coin_announcements := coin_announcements s ∪ list_to_set (coin_announcement_ids spend);
        puzzle_announcements := puzzle_announcements s ∪ list_to_set (puzzle_announcement_ids spend);
        asserted_coin_announcements := asserted_coin_announcements s ++ assert_coin_announcements spend;
        asserted_puzzle_announcements := asserted_puzzle_announcements s ++ assert_puzzle_announcements spend |}.

Fixpoint collect_spends (ctx : ConditionValidationContext) (index : nat) (l : list Spend) (s : collected) :
    chia collected :=
  match l with
  | [] => Ok s
  | spend :: l => s ← collect_spend ctx index spend s; collect_spends ctx (S index) l s
  end.

(** [is_ephemeral] *)
Definition is_ephemeral (all : list Spend) (index : gmap (list Z) nat) (spend : Spend) : chia bool :=
  match index !! parent_id spend with
  | None => Ok false
  | Some idx =>
      parent ← expect (all !! idx);
      Ok (existsb (λ nc, bool_decide (nc_puzzle_hash nc = spend_puzzle_hash spend) &&
                         (nc_amount nc =? coin_amount spend)) (create_coin parent))
  end.

Fixpoint check_spends (all : list Spend) (s : collected) (l : list Spend) (counts : gmap (list Z) Z) :
    chia (gmap (list Z) Z) :=
  match l with
  | [] => Ok counts
  | spend :: l =>
      _ ← guard_err (negb (forallb (λ id, bool_decide (id ∈ spent s)) (assert_concurrent_spend spend)))
            AssertConcurrentSpendFailed;
      _ ← guard_err (negb (forallb (λ ph, bool_decide (ph ∈ spent_puzzles s)) (assert_concurrent_puzzle spend)))
            AssertConcurrentPuzzleFailed;
      ephemeral ← (if assert_ephemeral spend then is_ephemeral all (coin_index s) spend else Ok true);
      _ ← guard_err (negb ephemeral) AssertEphemeralFailed;
      let counts := foldl (bump 1) counts (map (sent_key spend) (sent_messages spend)) in
      let counts := foldl (bump (-1)) counts (map (received_key spend) (received_messages spend)) in
      check_spends all s l counts
  end.

Definition validate_block_conditions (conds : SpendBundleConditions) (ctx : ConditionValidationContext) : chia unit :=
  let before_passed (bound : option Z) (now : Z) := match bound with Some b => b <=? now | None => false end in
  _ ← guard_err (block_height ctx <? height_absolute conds) AssertHeightAbsoluteFailed;
  _ ← guard_err (before_passed (before_height_absolute conds) (block_height ctx)) AssertHeightAbsoluteFailed;
  _ ← match previous_transaction_block_timestamp ctx with
      | Some timestamp =>
          _ ← guard_err (timestamp <? seconds_absolute conds) AssertSecondsAbsoluteFailed;
          guard_err (before_passed (before_seconds_absolute conds) timestamp) AssertSecondsAbsoluteFailed
      | None => Ok tt
      end;
  s ← collect_spends ctx 0 (spends conds) nothing_collected;
  _ ← guard_err (negb (forallb (λ x, bool_decide (x ∈ coin_announcements s)) (asserted_coin_announcements s)))
        AssertAnnounceConsumedFailed;
  _ ← guard_err (negb (forallb (λ x, bool_decide (x ∈ puzzle_announcements s)) (asserted_puzzle_announcements s)))
        AssertAnnounceConsumedFailed;
  counts ← check_spends (spends conds) s (spends conds) ∅;
  guard_err (negb (forallb (λ kv, snd kv =? 0) (map_to_list counts))) MessageNotSentOrReceived.
End validate.

(** ** What a block must satisfy *)

(** A relative bound, where its sum with the coin's height or time fits. *)
Definition relative_after (w : Z) (context relative : option Z) (now : Z) : Prop :=
  ∀ x r, context = Some x → relative = Some r → uok w (x + r) → x + r ≤ now.
Definition relative_before (w : Z) (context relative : option Z) (now : Z) : Prop :=
  ∀ x r, context = Some x → relative = Some r → uok w (x + r) → now < x + r.
Definition asserted_is (expected actual : option Z) : Prop := ∀ x, expected = Some x → actual = Some x.

Record context_holds (spend : Spend) (context : CoinSpendContext) (block : ConditionValidationContext) : Prop := {
  born_at : asserted_is (birth_height spend) (ctx_birth_height context);
  born_when : asserted_is (birth_seconds spend) (ctx_birth_seconds context);
  after_height : relative_after 32 (spent_height context) (height_relative spend) (block_height block);
  before_height : relative_before 32 (spent_height context) (before_height_relative spend) (block_height block);
  after_seconds : ∀ now, previous_transaction_block_timestamp block = Some now →
    relative_after 64 (spent_seconds context) (seconds_relative spend) now ∧
    relative_before 64 (spent_seconds context) (before_seconds_relative spend) now;
}.

Section block_valid.
Context `{Sha256}.

Record block_valid (conds : SpendBundleConditions) (ctx : ConditionValidationContext) : Prop := {
  bv_height : height_absolute conds ≤ block_height ctx;
  bv_before_height : before (before_height_absolute conds) (block_height ctx);
  bv_seconds : ∀ now, previous_transaction_block_timestamp ctx = Some now →
    seconds_absolute conds ≤ now ∧ before (before_seconds_absolute conds) now;
  (** every coin is spent once and created once *)
  bv_spent_once : NoDup (map spend_coin_id (spends conds));
  bv_created_once : NoDup (concat (map created_ids (spends conds)));
  bv_context : ∀ s context, s ∈ spends conds → coin_context ctx !! spend_coin_id s = Some context →
    context_holds s context ctx;
  (** an asserted announcement is one a spend of the block makes *)
  bv_coin_announcements : ∀ s h, s ∈ spends conds → h ∈ assert_coin_announcements s →
    ∃ s' msg, s' ∈ spends conds ∧ msg ∈ create_coin_announcements s' ∧ h = hash_256 (spend_coin_id s' ++ msg);
  bv_puzzle_announcements : ∀ s h, s ∈ spends conds → h ∈ assert_puzzle_announcements s →
    ∃ s' msg, s' ∈ spends conds ∧ msg ∈ create_puzzle_announcements s' ∧ h = hash_256 (spend_puzzle_hash s' ++ msg);
  bv_concurrent_spend : ∀ s id, s ∈ spends conds → id ∈ assert_concurrent_spend s →
    ∃ s', s' ∈ spends conds ∧ spend_coin_id s' = id;
  bv_concurrent_puzzle : ∀ s ph, s ∈ spends conds → ph ∈ assert_concurrent_puzzle s →
    ∃ s', s' ∈ spends conds ∧ spend_puzzle_hash s' = ph;
  (** an ephemeral coin is created by a spend of the block *)
  bv_ephemeral : ∀ s, s ∈ spends conds → assert_ephemeral s = true →
    ∃ s' nc, s' ∈ spends conds ∧ spend_coin_id s' = parent_id s ∧ nc ∈ create_coin s' ∧
      nc_puzzle_hash nc = spend_puzzle_hash s ∧ nc_amount nc = coin_amount s;
  (** messages pair up *)
  bv_messages : concat (map (λ s, map (sent_key s) (sent_messages s)) (spends conds)) ≡ₚ
    concat (map (λ s, map (received_key s) (received_messages s)) (spends conds));
}.
End block_valid.

(** ** Guards *)
Lemma guard_err_ok b e u : guard_err b e = Ok u ↔ b = false.
Proof. destruct b, u; cbn; split; congruence. Qed.

Lemma guard_err_then {A} b e (m : chia A) y : (_ ← guard_err b e; m) = Ok y ↔ b = false ∧ m = Ok y.
Proof. destruct b; cbn; naive_solver. Qed.

Lemma guard_err_not_panic b e : guard_err b e ≠ Panic.
Proof. by destruct b. Qed.

Lemma bind_ok_iff {A B} (m : chia A) (f : A → chia B) y : (x ← m; f x) = Ok y ↔ ∃ x, m = Ok x ∧ f x = Ok y.
Proof. destruct m; cbn; naive_solver. Qed.

Lemma bind_not_panic {A B} (m : chia A) (f : A → chia B) :
  m ≠ Panic → (∀ x, m = Ok x → f x ≠ Panic) → (x ← m; f x) ≠ Panic.
Proof. destruct m; cbn; naive_solver. Qed.

Lemma all_in_set (s : gset (list Z)) `{∀ x, Decision (x ∈ s)} l :
  negb (forallb (λ x, bool_decide (x ∈ s)) l) = false ↔ ∀ x, x ∈ l → x ∈ s.
Proof.
  rewrite negb_false_iff, forallb_forall. split; intros Hx x Hin.
  - eapply bool_decide_eq_true_1, Hx, list_elem_of_In, Hin.
  - apply bool_decide_eq_true_2, Hx, list_elem_of_In, Hin.
Qed.

(** ** One spend against its coin's context *)
Lemma sum_test_after w c r now : sum_test w c r (λ x, now <? x) = false ↔ relative_after w c r now.
Proof.
  unfold sum_test, relative_after, checked. destruct r as [r|], c as [c|]; [|naive_solver..].
  destruct (uokb w (c + r)) eqn:E.
  - apply uokb_spec in E. rewrite Z.ltb_ge. split; [by intros ? ? ? [= ->] [= ->] _|eauto].
  - split; [|done]. intros _ ? ? [= <-] [= <-] Ho. apply uokb_spec in Ho. congruence.
Qed.

Lemma sum_test_before w c r now : sum_test w c r (λ x, x <=? now) = false ↔ relative_before w c r now.
Proof.
  unfold sum_test, relative_before, checked. destruct r as [r|], c as [c|]; [|naive_solver..].
  destruct (uokb w (c + r)) eqn:E.
  - apply uokb_spec in E. rewrite Z.leb_gt. split; [by intros ? ? ? [= ->] [= ->] _|eauto].
  - split; [|done]. intros _ ? ? [= <-] [= <-] Ho. apply uokb_spec in Ho. congruence.
Qed.

Lemma asserted_spec (expected actual : option Z) :
  match expected with Some _ => bool_decide (actual ≠ expected) | None => false end = false ↔ asserted_is expected actual.
Proof.
  unfold asserted_is. destruct expected as [x|]; [|naive_solver]. rewrite bool_decide_eq_false. split.
  - intros Hn y [= <-]. destruct (decide (actual = Some x)); [done|tauto].
  - intros Ha Hn. by apply Hn, Ha.
Qed.

Lemma validate_spend_context_ok s c b : validate_spend_context s c b = Ok tt ↔ context_holds s c b.
Proof.
  unfold validate_spend_context. cbv zeta. rewrite !guard_err_then, !asserted_spec, sum_test_after, sum_test_before.
  destruct (previous_transaction_block_timestamp b) as [now|] eqn:Et.
  - rewrite guard_err_then, guard_err_ok, sum_test_after, sum_test_before. split.
    + intros (? & ? & ? & ? & ? & ?). split; try done. intros now' Hn'. assert (now' = now) as -> by congruence. done.
    + intros [? ? ? ? Hs]. specialize (Hs now Et). tauto.
  - split; [intros (? & ? & ? & ? & _); split; try done; intros; congruence|intros []; naive_solver].
Qed.

Lemma validate_spend_context_not_panic s c b : validate_spend_context s c b ≠ Panic.
Proof.
  unfold validate_spend_context. cbv zeta.
  repeat (apply bind_not_panic; [apply guard_err_not_panic|intros _ _]).
  destruct (previous_transaction_block_timestamp b); [|done].
  apply bind_not_panic; [apply guard_err_not_panic|intros _ _; apply guard_err_not_panic].
Qed.

(** ** The first loop *)
Section collect.
Context `{Sha256}.

Lemma insert_all_spec ids cr :
  match insert_all ids cr with
  | Some cr' => NoDup ids ∧ (∀ x, x ∈ ids → x ∉ cr) ∧ cr' = list_to_set ids ∪ cr
  | None => ¬ (NoDup ids ∧ ∀ x, x ∈ ids → x ∉ cr)
  end.
Proof.
  revert cr. induction ids as [|id ids IH]; intros cr; cbn [insert_all].
  { split; [constructor|]. split; [set_solver|]. by rewrite list_to_set_nil, (left_id_L ∅ union). }
  case_bool_decide as Hin; [set_solver|].
  specialize (IH ({[id]} ∪ cr)). destruct (insert_all ids _) as [cr'|].
  - destruct IH as (Hnd & Hd & ->). rewrite NoDup_cons. split; [split; [|done]; intros ?; by apply (Hd id); set_solver|].
    split; [|rewrite list_to_set_cons; set_solver].
    intros x [->|Hx]%elem_of_cons; [done|]. specialize (Hd x Hx). set_solver.
  - rewrite NoDup_cons. intros [[Hni Hnd] Hd]. apply IH. split; [done|]. intros x Hx.
    specialize (Hd x (list_elem_of_further _ _ _ Hx)). set_solver.
Qed.

Definition context_ok (ctx : ConditionValidationContext) (s : Spend) : Prop :=
  ∀ context, coin_context ctx !! spend_coin_id s = Some context → context_holds s context ctx.

(** The spends [l] pass the first loop. *)
Record spends_good (ctx : ConditionValidationContext) (l : list Spend) : Prop := {
  good_spent : NoDup (map spend_coin_id l);
  good_created : NoDup (concat (map created_ids l));
  good_context : Forall (context_ok ctx) l;
}.

(** [s] is what the first loop collects from [l]. *)
Record collects (l : list Spend) (s : collected) : Prop := {
  c_spent : ∀ id, id ∈ spent s ↔ id ∈ map spend_coin_id l;
  c_puzzles : ∀ ph, ph ∈ spent_puzzles s ↔ ph ∈ map spend_puzzle_hash l;
  c_index : ∀ id k, coin_index s !! id = Some k → ∃ sp, l !! k = Some sp ∧ spend_coin_id sp = id;
  c_index_some : ∀ sp, sp ∈ l → is_Some (coin_index s !! spend_coin_id sp);
  c_created : ∀ id, id ∈ created s ↔ id ∈ concat (map created_ids l);
  c_coin_announcements : ∀ h, h ∈ coin_announcements s ↔ h ∈ concat (map coin_announcement_ids l);
  c_puzzle_announcements : ∀ h, h ∈ puzzle_announcements s ↔ h ∈ concat (map puzzle_announcement_ids l);
  c_asserted_coin : asserted_coin_announcements s = concat (map assert_coin_announcements l);
  c_asserted_puzzle : asserted_puzzle_announcements s = concat (map assert_puzzle_announcements l);
}.

Lemma collects_nil : collects [] nothing_collected.
Proof. split; try done; set_solver. Qed.

Lemma spends_good_app ctx l k : spends_good ctx (l ++ k) → spends_good ctx l.
Proof.
  intros [H1 H2 H3]. rewrite map_app in H1. rewrite map_app, concat_app in H2. apply Forall_app in H3 as [H3 _].
  apply NoDup_app in H1 as (? & _). apply NoDup_app in H2 as (? & _). by split.
Qed.

Lemma elem_of_concat_snoc {A B} (f : A → list B) l a x :
  x ∈ concat (map f (l ++ [a])) ↔ x ∈ concat (map f l) ∨ x ∈ f a.
Proof. rewrite map_app, concat_app. cbn. rewrite (right_id_L [] (++)), elem_of_app. done. Qed.

Lemma collect_spend_spec ctx l sp s :
  collects l s → spends_good ctx l →
  match collect_spend ctx (length l) sp s with
  | Ok s' => collects (l ++ [sp]) s' ∧ spends_good ctx (l ++ [sp])
  | Err _ => ¬ spends_good ctx (l ++ [sp])
  | Panic => False
  end.
Proof.
  intros Hc Hg. unfold collect_spend, guard_err. case_bool_decide as Hs; cbn [mbind res_bind].
  { intros [Hnd _ _]. rewrite map_app in Hnd. apply NoDup_app in Hnd as (_ & Hnd & _).
    apply (Hnd (spend_coin_id sp)); [by apply (c_spent _ _ Hc)|set_solver]. }
  destruct (match coin_context ctx !! _ with Some _ => _ | None => _ end) as [[]|e|] eqn:Ec; cbn [mbind res_bind].
  2: { intros [_ _ Hf]. apply Forall_app in Hf as [_ Hf]. rewrite Forall_singleton in Hf.
       destruct (coin_context ctx !! _) as [context|] eqn:El; [|done].
       apply Hf, validate_spend_context_ok in El. congruence. }
  2: { destruct (coin_context ctx !! _) eqn:El; [|done]. by apply validate_spend_context_not_panic in Ec. }
  pose proof (insert_all_spec (created_ids sp) (created s)) as Hi.
  destruct (insert_all _ _) as [cr|]; cbn [ok_or mbind res_bind].
  2: { intros [_ Hnd _]. rewrite map_app, concat_app in Hnd. cbn in Hnd. rewrite (right_id_L [] (++)) in Hnd.
       apply NoDup_app in Hnd as (_ & Hd & Hn). apply Hi. split; [done|]. intros x Hx Hin.
       apply (c_created _ _ Hc) in Hin. by apply (Hd x). }
  destruct Hi as (Hnd & Hd & ->). split.
  - destruct Hc. split; cbn.
    + intros id. rewrite map_app, elem_of_app, <- c_spent0. set_solver.
    + intros id. rewrite map_app, elem_of_app, <- c_puzzles0. set_solver.
    + intros id k. rewrite lookup_insert_Some. intros [[<- <-]|[_ Hk]].
      * exists sp. by rewrite list_lookup_middle.
      * destruct (c_index0 _ _ Hk) as (sp' & Hl & <-). exists sp'. split; [|done]. by apply lookup_app_l_Some.
    + intros sp' Hin. destruct (decide (spend_coin_id sp' = spend_coin_id sp)) as [->|Hne].
      * rewrite lookup_insert_eq. eauto.
      * rewrite lookup_insert_ne by done. apply elem_of_app in Hin as [?|Hin]; [by apply c_index_some0|].
        apply list_elem_of_singleton in Hin as ->. done.
    + intros id. rewrite elem_of_concat_snoc, <- c_created0. set_solver.
    + intros id. rewrite elem_of_concat_snoc, <- c_coin_announcements0. set_solver.
    + intros id. rewrite elem_of_concat_snoc, <- c_puzzle_announcements0. set_solver.
    + rewrite c_asserted_coin0, map_app, concat_app. cbn. by rewrite (right_id_L [] (++)).
    + rewrite c_asserted_puzzle0, map_app, concat_app. cbn. by rewrite (right_id_L [] (++)).
  - destruct Hg as [Hg1 Hg2 Hg3]. split.
    + rewrite map_app. apply NoDup_app. split; [done|]. split; [|cbn; repeat constructor; set_solver].
      intros x Hx Hin. apply list_elem_of_singleton in Hin as ->. by apply Hs, (c_spent _ _ Hc).
    + rewrite map_app, concat_app. cbn. rewrite (right_id_L [] (++)). apply NoDup_app. split; [done|]. split; [|done].
      intros x Hx Hin. apply (Hd x Hin). by apply (c_created _ _ Hc).
    + apply Forall_app. split; [done|]. apply Forall_singleton. intros context Hl. rewrite Hl in Ec.
      by apply validate_spend_context_ok.
Qed.

Lemma collect_spends_spec ctx k l s :
  collects l s → spends_good ctx l →
  match collect_spends ctx (length l) k s with
  | Ok s' => collects (l ++ k) s' ∧ spends_good ctx (l ++ k)
  | Err _ => ¬ spends_good ctx (l ++ k)
  | Panic => False
  end.
Proof.
  revert l s. induction k as [|sp k IH]; intros l s Hc Hg; cbn [collect_spends].
  { by rewrite (right_id_L [] (++)). }
  pose proof (collect_spend_spec ctx l sp s Hc Hg) as Hone.
  rewrite (cons_middle sp), (assoc_L (++)). destruct (collect_spend _ _ _ _) as [s'|e|]; cbn [mbind res_bind].
  - destruct Hone as [Hc' Hg']. specialize (IH (l ++ [sp]) s' Hc' Hg').
    by rewrite length_app, Nat.add_comm in IH.
  - intros Hg'. by apply Hone, (spends_good_app _ _ k).
  - done.
Qed.

(** ** The second loop *)
Definition ephemeral_ok (all : list Spend) (s : Spend) : Prop :=
  assert_ephemeral s = true →
  ∃ s' nc, s' ∈ all ∧ spend_coin_id s' = parent_id s ∧ nc ∈ create_coin s' ∧
    nc_puzzle_hash nc = spend_puzzle_hash s ∧ nc_amount nc = coin_amount s.

Lemma same_coin_spec p sp :
  existsb (λ nc, bool_decide (nc_puzzle_hash nc = spend_puzzle_hash sp) && (nc_amount nc =? coin_amount sp)) (create_coin p)
    = true ↔
  ∃ nc, nc ∈ create_coin p ∧ nc_puzzle_hash nc = spend_puzzle_hash sp ∧ nc_amount nc = coin_amount sp.
Proof.
  rewrite existsb_exists. setoid_rewrite andb_true_iff. setoid_rewrite bool_decide_eq_true. setoid_rewrite Z.eqb_eq.
  setoid_rewrite list_elem_of_In. done.
Qed.

Lemma is_ephemeral_spec all s sp :
  collects all s → NoDup (map spend_coin_id all) →
  ∃ b, is_ephemeral all (coin_index s) sp = Ok b ∧ (b = true ↔
    ∃ s' nc, s' ∈ all ∧ spend_coin_id s' = parent_id sp ∧ nc ∈ create_coin s' ∧
      nc_puzzle_hash nc = spend_puzzle_hash sp ∧ nc_amount nc = coin_amount sp).
Proof.
  intros Hc Hnd. unfold is_ephemeral. destruct (coin_index s !! parent_id sp) as [k|] eqn:Ek.
  - destruct (c_index _ _ Hc _ _ Ek) as (p & Hp & Hid). rewrite Hp. cbn [expect mbind res_bind].
    eexists. split; [done|]. rewrite same_coin_spec. split.
    + intros (nc & ?). exists p, nc. split; [by eapply list_elem_of_lookup_2|]. done.
    + intros (s' & nc & Hin & Hid' & ?). exists nc. apply list_elem_of_lookup_1 in Hin as [j Hj].
      assert (j = k) as ->; [|congruence]. eapply (NoDup_lookup _ j k (parent_id sp) Hnd).
      * rewrite list_lookup_fmap, Hj. cbn. by f_equal.
      * rewrite list_lookup_fmap, Hp. cbn. by f_equal.
  - exists false. split; [done|]. split; [done|]. intros (s' & nc & Hin & Hid & _).
    destruct (c_index_some _ _ Hc s' Hin) as [j Hj]. congruence.
Qed.

Lemma bump_count d keys counts key :
  default 0 (foldl (bump d) counts keys !! key) = default 0 (counts !! key) + d * Z.of_nat (count_occ (decide_rel eq) keys key).
Proof.
  revert counts. induction keys as [|k keys IH]; intros counts; cbn [foldl count_occ]; [lia|].
  rewrite IH. unfold bump. destruct (decide_rel eq k key) as [->|Hne].
  - rewrite lookup_insert_eq. cbn. lia.
  - by rewrite lookup_insert_ne by done.
Qed.

Lemma all_zero (counts : gmap (list Z) Z) :
  negb (forallb (λ kv, snd kv =? 0) (map_to_list counts)) = false ↔ ∀ key, default 0 (counts !! key) = 0.
Proof.
  rewrite negb_false_iff, forallb_forall. split.
  - intros Hall key. destruct (counts !! key) as [n|] eqn:E; [|done]. cbn.
    apply Z.eqb_eq, (Hall (key, n)), list_elem_of_In, elem_of_map_to_list, E.
  - intros Hall [key n] Hin%list_elem_of_In%elem_of_map_to_list. specialize (Hall key). rewrite Hin in Hall.
    by apply Z.eqb_eq.
Qed.

Definition sent_keys (l : list Spend) : list (list Z) := concat (map (λ s, map (sent_key s) (sent_messages s)) l).
Definition received_keys (l : list Spend) : list (list Z) :=
  concat (map (λ s, map (received_key s) (received_messages s)) l).

Lemma check_spends_spec all s l counts :
  collects all s → NoDup (map spend_coin_id all) →
  match check_spends all s l counts with
  | Ok counts' =>
      Forall (λ sp, (∀ id, id ∈ assert_concurrent_spend sp → id ∈ spent s) ∧
                    (∀ ph, ph ∈ assert_concurrent_puzzle sp → ph ∈ spent_puzzles s) ∧ ephemeral_ok all sp) l ∧
      ∀ key, default 0 (counts' !! key) = default 0 (counts !! key) +
        Z.of_nat (count_occ (decide_rel eq) (sent_keys l) key) - Z.of_nat (count_occ (decide_rel eq) (received_keys l) key)
  | Err _ =>
      ¬ Forall (λ sp, (∀ id, id ∈ assert_concurrent_spend sp → id ∈ spent s) ∧
                      (∀ ph, ph ∈ assert_concurrent_puzzle sp → ph ∈ spent_puzzles s) ∧ ephemeral_ok all sp) l
  | Panic => False
  end.
Proof.
  intros Hc Hnd. revert counts. induction l as [|sp l IH]; intros counts; cbn [check_spends].
  { split; [constructor|]. intros key. cbn. lia. }
  unfold guard_err. destruct (negb (forallb _ (assert_concurrent_spend sp))) eqn:E1; cbn [mbind res_bind].
  { intros [(Hx & _) _]%Forall_cons_1. apply not_false_iff_true in E1. by apply E1, all_in_set. }
  rewrite all_in_set in E1.
  destruct (negb (forallb _ (assert_concurrent_puzzle sp))) eqn:E2; cbn [mbind res_bind].
  { intros [(_ & Hx & _) _]%Forall_cons_1. apply not_false_iff_true in E2. by apply E2, all_in_set. }
  rewrite all_in_set in E2.
  destruct (is_ephemeral_spec all s sp Hc Hnd) as (b & Hb & Hiff).
  assert (Heph : ∃ b', (if assert_ephemeral sp then is_ephemeral all (coin_index s) sp else Ok true) = Ok b' ∧
                       (b' = true ↔ ephemeral_ok all sp)).
  { unfold ephemeral_ok. destruct (assert_ephemeral sp); [exists b|exists true]; (split; [done|]); naive_solver. }
  destruct Heph as (b' & -> & Hb'). cbn [mbind res_bind].
  destruct b'; cbn [negb mbind res_bind].
  2: { intros [(_ & _ & Hx) _]%Forall_cons_1. apply Hb' in Hx. done. }
  specialize (IH (foldl (bump (-1)) (foldl (bump 1) counts (map (sent_key sp) (sent_messages sp)))
                    (map (received_key sp) (received_messages sp)))).
  destruct (check_spends _ _ _ _) as [counts'|e|].
  - destruct IH as [Hf Hk]. split; [constructor; naive_solver|]. intros key. rewrite Hk, !bump_count.
    unfold sent_keys, received_keys. cbn [map concat]. rewrite !count_occ_app. lia.
  - by intros [_ Hx]%Forall_cons_1.
  - done.
Qed.

Lemma announced l (f : Spend → list Z) (g : Spend → list (list Z)) h :
  h ∈ concat (map (λ s, map (λ msg, hash_256 (f s ++ msg)) (g s)) l) ↔
  ∃ s msg, s ∈ l ∧ msg ∈ g s ∧ h = hash_256 (f s ++ msg).
Proof.
  setoid_rewrite list_elem_of_In. rewrite in_concat. setoid_rewrite in_map_iff. split.
  - intros (? & (s & <- & Hs) & (msg & <- & Hm)%in_map_iff). eauto.
  - intros (s & msg & Hs & Hm & ->). eexists. split; [eauto|]. apply in_map_iff. eauto.
Qed.

Lemma elem_of_concat_map {A B} (f : A → list B) l x : x ∈ concat (map f l) ↔ ∃ a, a ∈ l ∧ x ∈ f a.
Proof. setoid_rewrite list_elem_of_In. rewrite in_concat. setoid_rewrite in_map_iff. naive_solver. Qed.

Lemma asserted_announced (l : list Spend) (f : Spend → list Z) (g : Spend → list (list Z)) (asserted : Spend → list (list Z)) (made : gset (list Z)) :
  (∀ h, h ∈ made ↔ h ∈ concat (map (λ s, map (λ msg, hash_256 (f s ++ msg)) (g s)) l)) →
  (∀ x, x ∈ concat (map asserted l) → x ∈ made) ↔
  ∀ s h, s ∈ l → h ∈ asserted s → ∃ s' msg, s' ∈ l ∧ msg ∈ g s' ∧ h = hash_256 (f s' ++ msg).
Proof.
  intros Hmade. setoid_rewrite Hmade. setoid_rewrite announced. setoid_rewrite elem_of_concat_map. naive_solver.
Qed.
End collect.

(** ** The whole validation *)
Section block.
Context `{Sha256}.

Lemma before_guard (o : option Z) now :
  match o with Some b => b <=? now | None => false end = false ↔ before o now.
Proof. unfold before. destruct o as [b|]; [rewrite Z.leb_gt|]; naive_solver. Qed.

Lemma absolute_seconds_guard conds ctx :
  match previous_transaction_block_timestamp ctx with
  | Some timestamp =>
      _ ← guard_err (timestamp <? seconds_absolute conds) AssertSecondsAbsoluteFailed;
      guard_err match before_seconds_absolute conds with Some b => b <=? timestamp | None => false end
        AssertSecondsAbsoluteFailed
  | None => Ok tt
  end = Ok tt ↔
  ∀ now, previous_transaction_block_timestamp ctx = Some now →
    seconds_absolute conds ≤ now ∧ before (before_seconds_absolute conds) now.
Proof.
  destruct (previous_transaction_block_timestamp ctx) as [t|]; [|naive_solver].
  rewrite guard_err_then, guard_err_ok, before_guard, Z.ltb_ge. naive_solver.
Qed.

(** What the second loop checks of the collected sets, said of the spends. *)
Lemma second_loop_spec l s :
  collects l s →
  Forall (λ sp, (∀ id, id ∈ assert_concurrent_spend sp → id ∈ spent s) ∧
                (∀ ph, ph ∈ assert_concurrent_puzzle sp → ph ∈ spent_puzzles s) ∧ ephemeral_ok l sp) l ↔
  (∀ sp id, sp ∈ l → id ∈ assert_concurrent_spend sp → ∃ s', s' ∈ l ∧ spend_coin_id s' = id) ∧
  (∀ sp ph, sp ∈ l → ph ∈ assert_concurrent_puzzle sp → ∃ s', s' ∈ l ∧ spend_puzzle_hash s' = ph) ∧
  (∀ sp, sp ∈ l → ephemeral_ok l sp).
Proof.
  intros Hc. rewrite Forall_forall. setoid_rewrite (c_spent _ _ Hc). setoid_rewrite (c_puzzles _ _ Hc).
  setoid_rewrite list_elem_of_In. setoid_rewrite in_map_iff. naive_solver.
Qed.

Lemma messages_net (sent received : list (list Z)) :
  (∀ key, 0 + Z.of_nat (count_occ (decide_rel eq) sent key) - Z.of_nat (count_occ (decide_rel eq) received key) = 0) ↔
  sent ≡ₚ received.
Proof. rewrite (Permutation_count_occ (decide_rel eq)). split; intros Hk key; specialize (Hk key); lia. Qed.

Lemma first_loop conds ctx :
  match collect_spends ctx 0 (spends conds) nothing_collected with
  | Ok s => collects (spends conds) s ∧ spends_good ctx (spends conds)
  | Err _ => ¬ spends_good ctx (spends conds)
  | Panic => False
  end.
Proof. apply (collect_spends_spec ctx (spends conds) [] _ collects_nil). split; constructor. Qed.

Lemma accepted_valid conds ctx : validate_block_conditions conds ctx = Ok tt → block_valid conds ctx.
Proof.
  pose proof (first_loop conds ctx) as Hloop. unfold validate_block_conditions. cbv zeta.
  rewrite !guard_err_then, bind_ok_iff, before_guard, Z.ltb_ge.
  intros (Hh & Hbh & [] & Hsec & (s & Hs & Hrest)%bind_ok_iff). rewrite Hs in Hloop.
  destruct Hloop as [Hc [Hg1 Hg2 Hg3]]. pose proof (proj1 (absolute_seconds_guard conds ctx) Hsec).
  rewrite !guard_err_then, !all_in_set, (c_asserted_coin _ _ Hc), (c_asserted_puzzle _ _ Hc) in Hrest.
  destruct Hrest as (Hca & Hpa & (counts & Hcs & Hz%guard_err_ok)%bind_ok_iff).
  pose proof (check_spends_spec (spends conds) s (spends conds) ∅ Hc Hg1) as Hchk. rewrite Hcs in Hchk.
  destruct Hchk as [(? & ? & ?)%(second_loop_spec _ _ Hc) Hk]. rewrite all_zero in Hz. rewrite Forall_forall in Hg3.
  split; try done.
  - intros sp context Hin. by apply (Hg3 sp).
  - exact (proj1 (asserted_announced _ _ _ _ _ (c_coin_announcements _ _ Hc)) Hca).
  - exact (proj1 (asserted_announced _ _ _ _ _ (c_puzzle_announcements _ _ Hc)) Hpa).
  - apply messages_net. intros key. specialize (Hk key). rewrite Hz, lookup_empty in Hk. by symmetry.
Qed.

Lemma valid_accepted conds ctx : block_valid conds ctx → validate_block_conditions conds ctx = Ok tt.
Proof.
  pose proof (first_loop conds ctx) as Hloop. unfold validate_block_conditions. cbv zeta.
  rewrite !guard_err_then, bind_ok_iff, before_guard, Z.ltb_ge.
  intros []. split; [done|]. split; [done|]. exists tt. split; [by apply absolute_seconds_guard|].
  assert (Hg : spends_good ctx (spends conds)).
  { split; [done..|]. apply Forall_forall. intros sp Hin context. eauto. }
  destruct (collect_spends _ _ _ _) as [s|e|]; [|done|done]. destruct Hloop as [Hc _]. cbn [mbind res_bind].
  rewrite !guard_err_then, !all_in_set, (c_asserted_coin _ _ Hc), (c_asserted_puzzle _ _ Hc).
  split; [exact (proj2 (asserted_announced _ _ _ _ _ (c_coin_announcements _ _ Hc)) bv_coin_announcements0)|].
  split; [exact (proj2 (asserted_announced _ _ _ _ _ (c_puzzle_announcements _ _ Hc)) bv_puzzle_announcements0)|].
  pose proof (check_spends_spec (spends conds) s (spends conds) ∅ Hc bv_spent_once0) as Hchk.
  destruct (check_spends _ _ _ _) as [counts|e|]; [|exfalso; by apply Hchk, second_loop_spec|done].
  cbn [mbind res_bind]. apply guard_err_ok, all_zero. intros key. rewrite (proj2 Hchk). revert key. by apply messages_net.
Qed.

Lemma validate_not_panic conds ctx : validate_block_conditions conds ctx ≠ Panic.
Proof.
  pose proof (first_loop conds ctx) as Hloop. unfold validate_block_conditions. cbv zeta.
  repeat (apply bind_not_panic; [apply guard_err_not_panic|intros _ _]). apply bind_not_panic.
  { destruct (previous_transaction_block_timestamp ctx); [|done].
    apply bind_not_panic; [apply guard_err_not_panic|intros _ _; apply guard_err_not_panic]. }
  intros _ _. destruct (collect_spends _ _ _ _) as [s|e|]; [|done|done]. destruct Hloop as [Hc Hg].
  cbn [mbind res_bind]. repeat (apply bind_not_panic; [apply guard_err_not_panic|intros _ _]).
  pose proof (check_spends_spec (spends conds) s (spends conds) ∅ Hc (good_spent _ _ Hg)) as Hchk.
  destruct (check_spends _ _ _ _); [apply guard_err_not_panic|done|done].
Qed.

End block.

(** ** Messages *)

(** The commitment a spend makes to itself under three mode bits. *)
Definition own_args (bits : Z) (s : Spend) : MessageArgs :=
  match Z.land bits 7 with
  | 0 => Args.None
  | 1 => Args.Amount (coin_amount s)
  | 2 => Args.Puzzle (spend_puzzle_hash s)
  | 3 => Args.PuzzleAmount (spend_puzzle_hash s) (coin_amount s)
  | 4 => Args.Parent (parent_id s)
  | 5 => Args.ParentAmount (parent_id s) (coin_amount s)
  | 6 => Args.ParentPuzzle (parent_id s) (spend_puzzle_hash s)
  | _ => Args.CoinId (spend_coin_id s)
  end.

Definition args_sized (a : MessageArgs) : Prop :=
  match a with
  | Args.None => True
  | Args.Amount v => uok 64 v
  | Args.Puzzle h | Args.Parent h | Args.CoinId h => length h = 32%nat
  | Args.PuzzleAmount h v | Args.ParentAmount h v => length h = 32%nat ∧ uok 64 v
  | Args.ParentPuzzle p h => length p = 32%nat ∧ length h = 32%nat
  end.
Definition spend_sized (s : Spend) : Prop :=
  length (parent_id s) = 32%nat ∧ length (spend_puzzle_hash s) = 32%nat ∧ length (spend_coin_id s) = 32%nat ∧
  uok 64 (coin_amount s).

Lemma own_id_args bits s : own_message_id bits s = args_message_id (own_args bits s).
Proof. unfold own_message_id, own_args. by destruct (Z.land bits 7) as [|[[[]|[]|]|[[]|[]|]|]|]. Qed.

Lemma own_args_sized bits s : spend_sized s → args_sized (own_args bits s).
Proof.
  intros (? & ? & ? & ?). unfold own_args. destruct (Z.land bits 7) as [|[[[]|[]|]|[[]|[]|]|]|]; cbn; done.
Qed.

Lemma to_be8_app_inj v w k1 k2 : uok 64 v → uok 64 w → to_be 8 v ++ k1 = to_be 8 w ++ k2 → v = w ∧ k1 = k2.
Proof.
  intros Hv Hw [Ht ->]%app_inj_1; [|by rewrite !length_to_be]. split; [|done].
  apply (to_be_inj 8); [exact Hv|exact Hw|done].
Qed.

(** An id ends where its tag says. *)
Lemma args_id_prefix_free a b k1 k2 :
  args_sized a → args_sized b → args_message_id a ++ k1 = args_message_id b ++ k2 → a = b ∧ k1 = k2.
Proof.
  assert (Hcons : ∀ (t u : Z) l k, t :: l = u :: k → l = k) by (intros; by simplify_eq).
  destruct a, b; cbn [args_sized args_message_id app]; intros Ha Hb Heq; try discriminate Heq;
    apply Hcons in Heq; rewrite <- ?(assoc_L (++)) in Heq;
    repeat match goal with
      | H : _ ∧ _ |- _ => destruct H
      | H : to_be 8 _ ++ _ = to_be 8 _ ++ _ |- _ => apply to_be8_app_inj in H as [-> ->]; [|done..]
      | H : _ ++ _ = _ ++ _ |- _ => apply app_inj_1 in H as [-> ?]; [|congruence]
      end; by subst.
Qed.

(** C33: a message that was sent and one that was received count against each
    other exactly when the sender's own commitment is the one the receiver
    names, the receiver's own commitment is the one the sender names, and the
    messages are the same: the concatenated keys cannot be read in two ways. *)
Theorem message_ids_unambiguous s m s' m' :
  spend_sized s → spend_sized s' → args_sized (sm_args m) → args_sized (sm_args m') →
  sent_key s m = received_key s' m' ↔
  own_args (Z.shiftr (sm_mode m) 3) s = sm_args m' ∧ sm_args m = own_args (sm_mode m') s' ∧ sm_message m = sm_message m'.
Proof.
  intros Hs Hs' Ha Ha'. unfold sent_key, received_key. rewrite !own_id_args. split.
  - intros [-> Heq]%args_id_prefix_free; [|by apply own_args_sized|done].
    apply args_id_prefix_free in Heq as [-> ->]; [done|done|by apply own_args_sized].
  - intros (-> & -> & ->). done.
Qed.

(** ** Relative locks whose sum overflows *)

(** a relative height or time lock whose sum with the coin's own height
    or time does not fit its type is not enforced: validation goes as if the
    spend did not have it.  The saturated value the decoder gives for every
    larger argument, the largest of the type, is such a lock for any coin
    with a positive height or time. *)
Theorem relative_lock_overflow s c b h t :
  spent_height c = Some h → 1 ≤ h → spent_seconds c = Some t → 1 ≤ t →
  validate_spend_context
    (s <| height_relative := Some u32_max |> <| seconds_relative := Some u64_max |>) c b =
  validate_spend_context (s <| height_relative := None |> <| seconds_relative := None |>) c b.
Proof.
  intros Hc Hh Ht Hs. unfold validate_spend_context. cbv zeta. rewrite Hc, Ht. cbn.
  unfold checked, uokb. rewrite !(proj2 (Z.ltb_ge _ _)) by (unfold u32_max, u64_max; lia).
  by rewrite !andb_false_r.
Qed.

(** ** Instances *)
Definition mailbox_coin (p : Z) : Coin :=
  {| parent_coin_info := repeat p 32; puzzle_hash := repeat 7 32; amount := 1000 |}.
Definition sample_message (mode : Z) (args : MessageArgs) : SpendMessage :=
  {| sm_mode := mode; sm_message := [104; 105]; sm_args := args |}.

(** The sender commits to its puzzle hash (010) and to the receiver's parent
    and amount (101). *)
Lemma message_ids_witness :
  let s := new_spend (H0 := toy_hash) (mailbox_coin 1) false in
  let r := new_spend (H0 := toy_hash) (mailbox_coin 2) false in
  sent_key s (sample_message 21 (Args.ParentAmount (repeat 2 32) 1000)) =
  received_key r (sample_message 21 (Args.Puzzle (repeat 7 32))).
Proof.
  cbv zeta. apply message_ids_unambiguous; try (vm_compute; done).
Defined.

(** A coin created at height 1 with an absurdly late relative lock. *)
Lemma relative_lock_overflow_witness :
  let s := new_spend (H0 := toy_hash) (mailbox_coin 1) false in
  let c := {| ctx_birth_height := Some 1; ctx_birth_seconds := Some 1; spent_height := Some 1; spent_seconds := Some 1 |} in
  validate_spend_context
    (s <| height_relative := Some u32_max |> <| seconds_relative := Some u64_max |>) c (mkContext 2 (Some 2) ∅) =
  validate_spend_context (s <| height_relative := None |> <| seconds_relative := None |>) c (mkContext 2 (Some 2) ∅).
Proof. cbv zeta. apply (relative_lock_overflow _ _ _ 1 1); done. Defined.
