(* ===== verification/BlockGenerator.v ===== *)
(** * From spends to a bundle: the loops of [core/src/consensus/block_generator.rs]

    The output of a block's generator is a list of spends.  Each puzzle is run
    against its solution within what is left of the block's cost, its
    conditions are applied, and coins spent or created twice are refused.
    Three loops do this: [conditions_from_generator_output] (puzzles run in
    the arena, conditions streamed), [conditions_from_processed_generator_output]
    (the generator has run them) and [conditions_from_spend_bundle] (mempool).

    [generator_output_refines] relates the first to a specification that
    evaluates each puzzle, reads all its conditions and checks the cost once;
    [conditions_accounted] says what the amounts, the cost and the coin ids of
    an accepted block are, for all three. *)
From Stdlib Require Import ZArith Lia.
From stdpp Require Import base list numbers option gmap sets.
From S2P Require Import Prelude Serialize ClvmNumber ClvmSexp Coin ClvmPath ClvmParser ClvmView ClvmOps ClvmBls ClvmArena ClvmOutcome ClvmRuntime ClvmRefine ClvmEval PotIterations Conditions SpendConditions BlockConditions.

Open Scope Z_scope.

(** ** Flags by height *)
Record BlockGeneratorFlags := { clvm_flags : Z; simple_generator : bool }.

Definition COST_CONDITIONS : Z := 0x00800000.
Definition ENABLE_KECCAK_OPS_OUTSIDE_FORK : Z := 0x0100.
Definition MEMPOOL_MODE : Z := Z.lor 0x0002 0x0004.

Definition for_height (c : ConsensusConstants) (height : Z) : BlockGeneratorFlags :=
  let clvm_flags := 0 in
  let clvm_flags :=
    if hard_fork2_height c <=? height then
      Z.lor clvm_flags (Z.lor (Z.lor (Z.lor ENABLE_KECCAK_OPS_OUTSIDE_FORK COST_CONDITIONS) NEW_COST_MODEL) RELAXED_BLS)
    else if soft_fork8_height c <=? height then Z.lor clvm_flags DISABLE_OP
    else clvm_flags in
  let clvm_flags :=
    if soft_fork9_height c <=? height then
      let clvm_flags := Z.lor clvm_flags CANONICAL_INTS in
      if height <? hard_fork2_height c then Z.lor clvm_flags LIMITS else clvm_flags
    else clvm_flags in
  {| clvm_flags := clvm_flags; simple_generator := hard_fork_height c <=? height |}.

(** ** The state of a loop *)
Record gen_state := mkGen {
  g_conds : SpendBundleConditions;
  g_spent : gset (list Z);
  g_created : gset (list Z);
  conditions_cost : Z;
}.
#[global] Instance gen_settable : Settable gen_state := settable! mkGen <g_conds; g_spent; g_created; conditions_cost>.

Definition start (cost : Z) : gen_state := mkGen (mkConds [] 0 0 0 None None [] cost 0 0) ∅ ∅ 0.

(** [ParseAtomBytes32] *)
Definition parse_atom (s : SExp) : clvm (list Z) :=
  match s with Atom a => sized_parse 32 a | Pair _ _ => Err ExpectedAtomGotPair end.

Section loops.
Context `{BigIntBytes, Sha256}.

(** [spend_sexp.ref_list()] with at least four parts *)
Definition spend_parts (spend_sexp : SExp) : clvm (SExp * SExp * SExp * SExp) :=
  match ref_list spend_sexp with
  | parent :: puzzle :: amount :: solution :: _ => Ok (parent, puzzle, amount, solution)
  | _ => Err InvalidSpendbundle
  end.
Definition parse_amount (s : SExp) : clvm Z :=
  n ← sexp_as_int s;
  ok_or (to_u64 n) AtomNotValidU64.

(** [if !spent.insert(coin.name())] *)
Definition spend_coin (coin : Coin) (st : gen_state) : clvm gen_state :=
  if bool_decide (coin_id coin ∈ g_spent st) then Err DoubleSpendE
  else Ok (set g_spent (union {[coin_id coin]}) st).

(** The coins a spend creates, and [conds.spends.push(spend)]. *)
Definition push_spend (spend : Spend) (cs : SpendBundleConditions) (extra : Z) (st : gen_state) : clvm gen_state :=
  created ← ok_or (insert_all (created_ids spend) (g_created st)) DuplicateCreate;
  Ok {| g_conds := cs <| spends := spends cs ++ [spend] |>; g_spent := g_spent st; g_created := created;
        conditions_cost := extra |}.

(** The total at the end of a loop. *)
Definition finish (max_cost : Z) (overflow : ClvmError) (st : gen_state) : clvm SpendBundleConditions :=
  cost ← ok_or (checked 64 (conds_cost (g_conds st) + conditions_cost st)) overflow;
  if max_cost <? cost then Err (CostExceeded max_cost cost)
  else Ok ((g_conds st) <| conds_cost := cost |>).

(** What running a puzzle leaves: its cost, and the reading of its output. *)
Definition reader : Type := Coin → SpendBundleConditions → Z → clvm (Spend * SpendBundleConditions * Z).
Definition runner : Type := Z → SExp → SExp → option (clvm (Z * reader)).

(** ** [conditions_from_generator_output] *)
Definition generator_spend (run_puzzle : runner) (max_cost : Z) (reveal_hashes : option (list (list Z)))
    (index : nat) (spend_sexp : SExp) (st : gen_state) : option (clvm gen_state) :=
  obind (Some (
    '(parent, puzzle, amount, solution) ← spend_parts spend_sexp;
    parent_id ← parse_atom parent;
    let puzzle_hash := match reveal_hashes ≫= (.!! index) with Some hash => hash | None => tree_hash puzzle end in
    amount ← parse_amount amount;
    let coin := {| parent_coin_info := parent_id; puzzle_hash := puzzle_hash; amount := amount |} in
    st ← spend_coin coin st;
    cost_left ← ok_or (checked 64 (max_cost - conds_cost (g_conds st))) (CostExceeded max_cost (conds_cost (g_conds st)));
    Ok (coin, puzzle, solution, st, cost_left)))
  (λ '(coin, puzzle, solution, st, cost_left),
    obind (run_puzzle cost_left puzzle solution) (λ '(puzzle_cost, read), Some (
      cost ← ok_or (checked 64 (conds_cost (g_conds st) + puzzle_cost)) Overflow;
      '(spend, cs, extra) ← read coin ((g_conds st) <| conds_cost := cost |>) (conditions_cost st);
      push_spend (spend <| execution_cost := puzzle_cost |>) cs extra st))).

Fixpoint generator_spends (run_puzzle : runner) (max_cost : Z) (reveal_hashes : option (list (list Z)))
    (index : nat) (l : list SExp) (st : gen_state) : option (clvm gen_state) :=
  match l with
  | [] => Some (Ok st)
  | spend_sexp :: l =>
      obind (generator_spend run_puzzle max_cost reveal_hashes index spend_sexp st)
        (generator_spends run_puzzle max_cost reveal_hashes (S index) l)
  end.

Definition generator_output (run_puzzle : runner) (output : SExp) (cost max_cost : Z)
    (reveal_hashes : option (list (list Z))) : option (clvm SpendBundleConditions) :=
  obind (Some (sexp_first output)) (λ all_spends,
    obind (generator_spends run_puzzle max_cost reveal_hashes 0 (ref_list all_spends) (start cost))
      (λ st, Some (finish max_cost Overflow st))).

(** The code's runner: the puzzle runs in a fresh arena, and its conditions
    are streamed from there. *)
Definition arena_runner `{Blst} (flags : Z) (fuel : nat) (c : ConsensusConstants) (max_cost : Z) : runner :=
  λ cost_left puzzle solution,
    obind (run_in_arena flags fuel cost_left puzzle solution) (λ '(cost, output, a), Some (Ok
      (cost, parse_and_apply_spend_from_arena (arena_view a) (arena_export a) c max_cost false output))).

Definition conditions_from_generator_output `{Blst} (fuel : nat) (output : SExp) (cost max_cost flags : Z)
    (c : ConsensusConstants) (reveal_hashes : option (list (list Z))) : option (clvm SpendBundleConditions) :=
  generator_output (arena_runner flags fuel c max_cost) output cost max_cost reveal_hashes.

(** ** [conditions_from_processed_generator_output] *)
Definition processed_spend (c : ConsensusConstants) (spend_sexp : SExp) (st : gen_state) : clvm gen_state :=
  '(parent, puzzle, amount, output) ← spend_parts spend_sexp;
  parent_id ← parse_atom parent;
  puzzle_hash ← parse_atom puzzle;
  amount ← parse_amount amount;
  let coin := {| parent_coin_info := parent_id; puzzle_hash := puzzle_hash; amount := amount |} in
  st ← spend_coin coin st;
  conditions ← conditions_try_from output;
  '(spend, cs, extra) ← spend_from_conditions c false coin conditions (g_conds st) (conditions_cost st);
  push_spend spend cs extra st.

Fixpoint processed_spends (c : ConsensusConstants) (l : list SExp) (st : gen_state) : clvm gen_state :=
  match l with
  | [] => Ok st
  | spend_sexp :: l => st ← processed_spend c spend_sexp st; processed_spends c l st
  end.

Definition conditions_from_processed_generator_output (output : SExp) (cost max_cost : Z) (c : ConsensusConstants) :
    clvm SpendBundleConditions :=
  all_spends ← sexp_first output;
  st ← processed_spends c (ref_list all_spends) (start cost);
  finish max_cost Overflow st.

(** ** [conditions_from_spend_bundle] *)
Record CoinSpend := { cs_coin : Coin; puzzle_reveal : list Z; solution : list Z }.

(** [Program::from_serial] *)
Definition from_serial (bytes : list Z) : clvm SExp := '(s, _) ← sexp_from_bytes (Cursor bytes 0); Ok s.

Definition clvm_bytes_len (val : Z) : Z :=
  if val <? 0x80 then 1
  else if val <? 0x8000 then 3
  else if val <? 0x800000 then 4
  else if val <? 0x80000000 then 5
  else if val <? 0x8000000000 then 6
  else if val <? 0x800000000000 then 7
  else if val <? 0x80000000000000 then 8
  else if val <? 0x8000000000000000 then 9
  else 10.

Definition spend_bundle_generator_length (l : list CoinSpend) : Z :=
  foldl (λ size s, size + (39 + zlen (puzzle_reveal s) + clvm_bytes_len (amount (cs_coin s)) + zlen (solution s))) 5 l.

Definition map_condition_error (error : ClvmError) : ChiaError :=
  match error with
  | InvalidPublicKey _ => InvalidCondition
  | CostExceeded _ _ => BlockCostExceedsMax
  | DoubleSpendE => DoubleSpend
  | DuplicateCreate => DuplicateOutput
  | ConditionFailure err => err
  | _ => InvalidBlockSolution
  end.
Definition map_err {A} (f : ClvmError → ChiaError) (m : clvm A) : chia A :=
  match m with Ok a => Ok a | Err e => Err (f e) | Panic => Panic end.

Definition bundle_spend `{Blst} (flags : Z) (fuel export_fuel : nat) (c : ConsensusConstants) (max_cost : Z)
    (coin_spend : CoinSpend) (s : gmap (list Z) (list Z) * gen_state) :
    option (chia (gmap (list Z) (list Z) * gen_state)) :=
  let '(reveal_hash_cache, st) := s in
  let coin := cs_coin coin_spend in
  obind (Some (
    puzzle ← map_err map_condition_error (from_serial (puzzle_reveal coin_spend));
    sol ← map_err map_condition_error (from_serial (solution coin_spend));
    let '(reveal_hash, cache) :=
      match reveal_hash_cache !! puzzle_reveal coin_spend with
      | Some hash => (hash, reveal_hash_cache)
      | None => (tree_hash puzzle, <[puzzle_reveal coin_spend := tree_hash puzzle]> reveal_hash_cache)
      end in
    if negb (bool_decide (reveal_hash = puzzle_hash coin)) then Err WrongPuzzleHash
    else
      st ← map_err map_condition_error (spend_coin coin st);
      cost_left ← ok_or (checked 64 (max_cost - conds_cost (g_conds st))) BlockCostExceedsMax;
      Ok (puzzle, sol, cache, st, cost_left)))
  (λ '(puzzle, sol, cache, st, cost_left),
    obind (map_err map_condition_error <$> run flags fuel export_fuel cost_left puzzle sol) (λ '(puzzle_cost, output), Some (
      cost ← ok_or (checked 64 (conds_cost (g_conds st) + puzzle_cost)) BlockCostExceedsMax;
      conditions ← map_err map_condition_error (conditions_try_from output);
      '(spend, cs, extra) ← map_err map_condition_error
        (spend_from_conditions c true coin conditions ((g_conds st) <| conds_cost := cost |>) (conditions_cost st));
      st ← map_err map_condition_error (push_spend (spend <| execution_cost := puzzle_cost |>) cs extra st);
      Ok (cache, st)))).

Fixpoint bundle_spends `{Blst} (flags : Z) (fuel export_fuel : nat) (c : ConsensusConstants) (max_cost : Z)
    (l : list CoinSpend) (s : gmap (list Z) (list Z) * gen_state) :
    option (chia (gmap (list Z) (list Z) * gen_state)) :=
  match l with
  | [] => Some (Ok s)
  | coin_spend :: l =>
      obind (bundle_spend flags fuel export_fuel c max_cost coin_spend s)
        (bundle_spends flags fuel export_fuel c max_cost l)
  end.

(** [clear_ff_for_bundle_commitments] *)
Definition clear_ff (s : Spend) : Spend := set flags (clear ELIGIBLE_FOR_FF) s.
Definition spent_coins (l : list Spend) : gmap (list Z) nat :=
  foldl (λ m '(i, s), <[spend_coin_id s := i]> m) ∅ (imap pair l).
Definition committed (l : list Spend) : list nat :=
  s ← l; omap (λ id, spent_coins l !! id) (assert_concurrent_spend s).
Definition child_spent (m : gmap (list Z) nat) (s : Spend) : bool :=
  existsb (λ id, bool_decide (is_Some (m !! id))) (created_ids s).
Definition clear_ff_for_bundle_commitments (conds : SpendBundleConditions) : SpendBundleConditions :=
  let m := spent_coins (spends conds) in
  let l := foldl (λ l i, alter clear_ff i l) (spends conds) (committed (spends conds)) in
  conds <| spends :=
    map (λ s, if negb (Z.land (flags s) ELIGIBLE_FOR_FF =? 0) && child_spent m s then clear_ff s else s) l |>.

Definition conditions_from_spend_bundle `{Blst} (fuel export_fuel : nat) (coin_spends : list CoinSpend)
    (height : Z) (c : ConsensusConstants) : option (chia SpendBundleConditions) :=
  let flags := Z.lor (clvm_flags (for_height c height)) MEMPOOL_MODE in
  let max_cost := max_block_cost_clvm c in
  let QUOTE_BYTES := 2 in
  obind (Some (chk 64 ((spend_bundle_generator_length coin_spends - QUOTE_BYTES) * cost_per_byte c))) (λ byte_cost,
    obind (bundle_spends flags fuel export_fuel c max_cost coin_spends (∅, start byte_cost)) (λ '(_, st), Some (
      cost ← ok_or (checked 64 (conds_cost (g_conds st) + conditions_cost st)) BlockCostExceedsMax;
      if max_cost <? cost then Err BlockCostExceedsMax
      else Ok (clear_ff_for_bundle_commitments ((g_conds st) <| conds_cost := cost |>))))).
End loops.

(** ** What a reader promises the loops

    The loops are proved against this interface; the streaming reader and
    the collecting one are its instances. *)
Record spend_read `{Sha256} (coin : Coin) (cs : SpendBundleConditions) (extra : Z)
    (spend : Spend) (cs' : SpendBundleConditions) (extra' : Z) : Prop := {
  read_parent : parent_id spend = parent_coin_info coin;
  read_puzzle : spend_puzzle_hash spend = puzzle_hash coin;
  read_amount : coin_amount spend = amount coin;
  read_id : spend_coin_id spend = coin_id coin;
  read_spends : spends cs' = spends cs;
  read_cost : conds_cost cs' = conds_cost cs;
  read_removal : removal_amount cs' = removal_amount cs + amount coin;
  read_addition : addition_amount cs' = addition_amount cs + sum_amounts (create_coin spend);
  read_extra : extra' = extra + condition_cost spend;
  read_price : 0 ≤ condition_cost spend;
  read_execution : execution_cost spend = 0;
}.
Class SpendReader `{Sha256} (read : reader) : Prop :=
  reads coin cs extra spend cs' extra' :
    read coin cs extra = Ok (spend, cs', extra') → spend_read coin cs extra spend cs' extra'.

Section readers.
Context `{BigIntBytes, Sha256}.

Lemma from_opcode_price op args cd : from_opcode_with_args op args = Ok cd → 0 ≤ condition_price cd.
Proof.
  destruct op; cbn [from_opcode_with_args];
    unfold agg_sig_arg, hash_arg, message_arg, u64_arg, seconds_arg, height_arg, one_arg, create_coin_args,
      message_condition; intros Ha; op_inv; try done.
  all: match goal with H : chk _ _ = Ok _ |- _ => apply chk_Ok in H as [[? ?] ->] end; done.
Qed.

Lemma condition_try_from_price t cd : condition_try_from t = Ok cd → 0 ≤ condition_price cd.
Proof.
  unfold condition_try_from, from_io. intros Hc. op_inv. by eapply from_opcode_price.
Qed.

Lemma arena_condition_price {N} (v : view N) export_node n cd :
  arena_condition v export_node n = Ok (Some cd) → 0 ≤ condition_price cd.
Proof.
  intros Hc. unfold arena_condition, arena_uint_condition, arena_create_coin in Hc. op_inv.
  all: try (injection Hc as <-; (by eapply condition_try_from_price) || done).
  all: by apply fmap_Some_1 in Hc as (? & _ & ->).
Qed.

Lemma finalize_frame s extra start mempool s' :
  finalize_spend s extra start mempool = Ok s' →
  parent_id s' = parent_id s ∧ spend_puzzle_hash s' = spend_puzzle_hash s ∧ coin_amount s' = coin_amount s ∧
  spend_coin_id s' = spend_coin_id s ∧ create_coin s' = create_coin s ∧ condition_cost s' = sat_sub extra start ∧
  execution_cost s' = execution_cost s.
Proof.
  unfold finalize_spend. cbv zeta. destruct mempool; [|by intros [= <-]].
  intros Hf. op_inv; repeat case_match; done.
Qed.

Lemma spend_read_grown coin cs extra mempool a price fee coins s total :
  grown (mkAccum (new_spend coin mempool) (cs <| removal_amount := total |>) extra) a price fee coins →
  total = removal_amount cs + amount coin → 0 ≤ price →
  finalize_spend (acc_spend a) (extra_cost a) extra mempool = Ok s →
  spend_read coin cs extra s (acc_conds a) (extra_cost a).
Proof.
  intros [(F1 & F2 & F3 & F4 & F5 & F6 & F7 & F8) E A R C _] -> Hp (P1 & P2 & P3 & P4 & P5 & P6 & P7)%finalize_frame.
  cbn in *. unfold sat_sub in P6.
  split; [congruence..|by rewrite P5, C|lia|lia|congruence].
Qed.

Lemma remove_coin_ok coin cs cs' :
  remove_coin coin cs = Ok cs' → cs' = cs <| removal_amount := removal_amount cs + amount coin |>.
Proof. unfold remove_coin. intros Hr. op_inv. by match goal with H : ok_or _ _ = Ok _ |- _ => apply ok_or_checked in H as [-> _] end. Qed.

(** Conditions streamed from any view change the accumulators as collected
    ones do. *)
Lemma stream_grown {N} (v : view N) export_node fuel c max_cost mempool coin n index a b :
  stream_conditions v export_node fuel c max_cost mempool coin n index a = Ok b →
  ∃ price fee coins, grown a b price fee coins ∧ 0 ≤ price.
Proof.
  revert n index a. induction fuel as [|fuel IH]; intros n index a; cbn [stream_conditions]; [done|].
  destruct (next v n) as [[[cond rest]|]|e|]; cbn [mbind res_bind]; [| |done|done].
  2: { intros [= <-]. exists 0, 0, []. split; [apply grown_refl|done]. }
  destruct (arena_condition v export_node cond) as [[cd|]|e|] eqn:Ec; cbn [mbind res_bind]; [|apply IH|done|done].
  destruct (apply_parsed_condition _ _ _ _ _ _) as [a'|e|] eqn:E; cbn [mbind res_bind]; [|done|done].
  destruct (ok_or _ _) as [running|e|]; cbn [mbind res_bind]; [|done|done]. destruct (max_cost <? running); [done|].
  intros (price & fee & coins & Hg & Hp)%IH. apply apply_parsed_grown in E. apply arena_condition_price in Ec.
  eexists _, _, _. split; [exact (grown_trans _ _ _ _ _ _ _ _ _ E Hg)|lia].
Qed.

#[export] Instance streaming_reader {N} (v : view N) export_node c max_cost mempool n :
  SpendReader (parse_and_apply_spend_from_arena v export_node c max_cost mempool n).
Proof.
  intros coin cs extra spend cs' extra' Hr. unfold parse_and_apply_spend_from_arena in Hr.
  apply bind_Ok_inv in Hr as (cs1 & ->%remove_coin_ok & Hr).
  apply bind_Ok_inv in Hr as (a & (price & fee & coins & Hg & Hp)%stream_grown & Hr).
  apply bind_Ok_inv in Hr as (s & Hf & [= <- <- <-]). by eapply spend_read_grown.
Qed.

Lemma sum_prices_nonneg cds : Forall (λ cd, 0 ≤ condition_price cd) cds → 0 ≤ sum_prices cds.
Proof. unfold sum_prices. induction 1; cbn; lia. Qed.

Lemma spend_from_conditions_read c mempool coin cds cs extra spend cs' extra' :
  Forall (λ cd, 0 ≤ condition_price cd) cds →
  spend_from_conditions c mempool coin cds cs extra = Ok (spend, cs', extra') →
  spend_read coin cs extra spend cs' extra'.
Proof.
  intros Hp Hr. unfold spend_from_conditions in Hr.
  apply bind_Ok_inv in Hr as (cs1 & ->%remove_coin_ok & Hr).
  apply bind_Ok_inv in Hr as (a & Hg%apply_conditions_grown & Hr).
  apply bind_Ok_inv in Hr as (s & Hf & [= <- <- <-]).
  eapply spend_read_grown; [done|done|by apply sum_prices_nonneg|done].
Qed.

Lemma conditions_try_from_price t cds :
  conditions_try_from t = Ok cds → Forall (λ cd, 0 ≤ condition_price cd) cds.
Proof.
  unfold conditions_try_from. revert cds. induction (sexp_iter t) as [|x l IH]; intros cds Hc; cbn in Hc.
  { injection Hc as <-. constructor. }
  apply bind_Ok_inv in Hc as (cd & Hcd%condition_try_from_price & Hc).
  apply bind_Ok_inv in Hc as (cds' & Hl & [= <-]). constructor; [done|by apply IH].
Qed.

Lemma read_conditions_price t cds : read_conditions t = Ok cds → Forall (λ cd, 0 ≤ condition_price cd) cds.
Proof.
  revert cds. induction t as [x|f _ r IH]; intros cds Hr.
  { cbn in Hr. injection Hr as <-. constructor. }
  rewrite read_conditions_pair in Hr. apply bind_Ok_inv in Hr as (o & Ho & Hr).
  apply bind_Ok_inv in Hr as (l & Hl & [= <-]). destruct o as [cd|]; [|by apply IH].
  constructor; [by eapply arena_condition_price|by apply IH].
Qed.
End readers.

(** ** Accounting *)
Definition sum_of {A} (f : A → Z) (l : list A) : Z := foldr (λ x acc, f x + acc) 0 l.
#[local] Arguments sum_of : simpl never.
#[local] Arguments sum_amounts : simpl never.

Lemma sum_of_snoc {A} (f : A → Z) l x : sum_of f (l ++ [x]) = sum_of f l + f x.
Proof. unfold sum_of. induction l as [|y l IH]; cbn; [lia|]. rewrite IH. lia. Qed.

Section accounting.
Context `{BigIntBytes, Sha256}.

Definition spent_coin (s : Spend) : Coin :=
  {| parent_coin_info := parent_id s; puzzle_hash := spend_puzzle_hash s; amount := coin_amount s |}.

(** The totals of a bundle are those of its spends. *)
Record totals (cs : SpendBundleConditions) : Prop := {
  t_removal : removal_amount cs = sum_of coin_amount (spends cs);
  t_addition : addition_amount cs = sum_of (λ s, sum_amounts (create_coin s)) (spends cs);
  t_ids : Forall (λ s, spend_coin_id s = coin_id (spent_coin s)) (spends cs);
  t_spent_once : NoDup (map spend_coin_id (spends cs));
  t_created_once : NoDup (concat (map created_ids (spends cs)));
}.

Record gen_ok (base : Z) (st : gen_state) : Prop := {
  g_totals : totals (g_conds st);
  g_base : conds_cost (g_conds st) = base + sum_of execution_cost (spends (g_conds st));
  g_extra : conditions_cost st = sum_of condition_cost (spends (g_conds st));
  g_extra_pos : 0 ≤ conditions_cost st;
  g_spent_ids : ∀ id, id ∈ g_spent st ↔ id ∈ map spend_coin_id (spends (g_conds st));
  g_created_ids : ∀ id, id ∈ g_created st ↔ id ∈ concat (map created_ids (spends (g_conds st)));
}.

Lemma start_ok base : gen_ok base (start base).
Proof. split; [split; try done; apply NoDup_nil_2|unfold sum_of; cbn; lia|done|done|set_solver|set_solver]. Qed.

(** One spend: the coin is marked, the reader reads it, the spend is pushed. *)
Lemma spend_step base st st1 coin spend cs extra st2 exec :
  gen_ok base st → spend_coin coin st = Ok st1 →
  spend_read coin ((g_conds st1) <| conds_cost := conds_cost (g_conds st1) + exec |>) (conditions_cost st1) spend cs extra →
  push_spend (spend <| execution_cost := exec |>) cs extra st1 = Ok st2 → gen_ok base st2.
Proof.
  intros [[T1 T2 T3 T4 T5] Gb Ge Gp Gs Gc] Hs [P1 P2 P3 P4 P5 P6 P7 P8 P9 P10 _] Hp.
  unfold spend_coin in Hs. case_bool_decide as Hnew; [done|]. injection Hs as <-.
  unfold push_spend in Hp. apply bind_Ok_inv in Hp as (cr & Hcr & [= <-]).
  pose proof (insert_all_spec (created_ids (spend <| execution_cost := exec |>)) (g_created st)) as Hi. cbn in Hcr.
  destruct (insert_all _ _) as [cr'|] in Hcr, Hi; [|done]. injection Hcr as <-. destruct Hi as (Hnd & Hd & ->).
  cbn in P5, P6, P7, P8, P9. split; cbn; [split; cbn|..].
  - rewrite P5, sum_of_snoc, P7, T1. cbn. lia.
  - rewrite P5, sum_of_snoc, P8, T2. cbn. lia.
  - rewrite P5. apply Forall_app. split; [done|]. apply Forall_singleton. unfold spent_coin. cbn.
    rewrite P4, P1, P2, P3. by destruct coin.
  - rewrite P5, map_app. apply NoDup_app. split; [done|]. split; [|apply NoDup_singleton].
    intros x Hx Hin. apply list_elem_of_singleton in Hin as ->. cbn in Hx. rewrite P4 in Hx. by apply Hnew, Gs.
  - rewrite P5, map_app, concat_app. cbn. rewrite (right_id_L [] (++)). apply NoDup_app. split; [done|].
    split; [|done]. intros x Hx Hin. apply (Hd x Hin). by apply Gc.
  - rewrite P5, sum_of_snoc. cbn. lia.
  - rewrite P5, sum_of_snoc. cbn. lia.
  - lia.
  - intros id. rewrite P5, map_app, elem_of_app, <- Gs. cbn. rewrite P4. set_solver.
  - intros id. rewrite P5, elem_of_concat_snoc, <- Gc. set_solver.
Qed.

(** A runner whose readers keep the promise. *)
Class RunnerOk (run_puzzle : runner) : Prop :=
  runs cost_left puzzle sol cost read : run_puzzle cost_left puzzle sol = Some (Ok (cost, read)) → SpendReader read.

Lemma generator_spend_ok run_puzzle `{!RunnerOk run_puzzle} base max_cost hashes index t st st' :
  gen_ok base st → generator_spend run_puzzle max_cost hashes index t st = Some (Ok st') → gen_ok base st'.
Proof.
  intros Hok Hg. unfold generator_spend in Hg.
  apply obind_Ok in Hg as ([[[[coin puzzle] sol] st1] cost_left] & Hpre & Hg).
  injection Hpre as Hpre. apply bind_Ok_inv in Hpre as ([[[parent pz] amt] sl] & _ & Hpre).
  apply bind_Ok_inv in Hpre as (pid & _ & Hpre). apply bind_Ok_inv in Hpre as (am & _ & Hpre).
  apply bind_Ok_inv in Hpre as (st1' & Hs & Hpre). apply bind_Ok_inv in Hpre as (cl & _ & Hpre).
  injection Hpre as <- <- <- <- <-. apply obind_Ok in Hg as ([puzzle_cost read] & Hrun & Hg).
  injection Hg as Hg. apply bind_Ok_inv in Hg as (cost & [-> _]%ok_or_checked & Hg).
  apply bind_Ok_inv in Hg as ([[spend cs] extra] & Hread & Hpush).
  apply (runs _ _ _ _ _ Hrun) in Hread. by eapply spend_step.
Qed.

Lemma generator_spends_ok run_puzzle `{!RunnerOk run_puzzle} base max_cost hashes index l st st' :
  gen_ok base st → generator_spends run_puzzle max_cost hashes index l st = Some (Ok st') → gen_ok base st'.
Proof.
  revert index st. induction l as [|t l IH]; intros index st Hok Hg; cbn in Hg; [by injection Hg as <-|].
  apply obind_Ok in Hg as (st1 & H1 & Hg). eapply IH; [|exact Hg]. by eapply generator_spend_ok.
Qed.

Lemma execution_cost_0 (s : Spend) : execution_cost s = 0 → s <| execution_cost := 0 |> = s.
Proof. destruct s. cbn. by intros ->. Qed.

Lemma conds_cost_0 (cs : SpendBundleConditions) : cs <| conds_cost := conds_cost cs + 0 |> = cs.
Proof. destruct cs. cbn. by rewrite Z.add_0_r. Qed.

Lemma processed_spends_ok base c l st st' :
  gen_ok base st → processed_spends c l st = Ok st' → gen_ok base st'.
Proof.
  revert st. induction l as [|t l IH]; intros st Hok Hg; cbn in Hg; [by injection Hg as <-|].
  apply bind_Ok_inv in Hg as (st2 & Hp & Hg). apply (IH st2); [|done]. clear IH Hg.
  unfold processed_spend in Hp. apply bind_Ok_inv in Hp as ([[[parent pz] amt] sl] & _ & Hp).
  apply bind_Ok_inv in Hp as (pid & _ & Hp). apply bind_Ok_inv in Hp as (ph & _ & Hp).
  apply bind_Ok_inv in Hp as (am & _ & Hp). apply bind_Ok_inv in Hp as (st1 & Hs & Hp).
  apply bind_Ok_inv in Hp as (cds & Hprice%conditions_try_from_price & Hp).
  apply bind_Ok_inv in Hp as ([[spend cs] extra] & Hread & Hpush).
  apply (spend_from_conditions_read _ _ _ _ _ _ _ _ _ Hprice) in Hread.
  rewrite <- (execution_cost_0 spend (read_execution _ _ _ _ _ _ Hread)) in Hpush.
  rewrite <- (conds_cost_0 (g_conds st1)) in Hread. by eapply spend_step.
Qed.

(** What an accepted bundle adds up to. *)
Record accounted (base max_cost : Z) (r : SpendBundleConditions) : Prop := {
  a_totals : totals r;
  a_cost : conds_cost r = base + sum_of (λ s, execution_cost s + condition_cost s) (spends r);
  a_max : conds_cost r ≤ max_cost;
}.

Lemma sum_of_add {A} (f g : A → Z) l : sum_of (λ x, f x + g x) l = sum_of f l + sum_of g l.
Proof. unfold sum_of. induction l; cbn; lia. Qed.

Lemma finish_accounted base max_cost e st r :
  gen_ok base st → finish max_cost e st = Ok r → accounted base max_cost r.
Proof.
  intros [[T1 T2 T3 T4 T5] Gb Ge Gp Gs Gc] Hf. unfold finish in Hf.
  apply bind_Ok_inv in Hf as (cost & [-> _]%ok_or_checked & Hf). destruct (Z.ltb_spec max_cost (conds_cost (g_conds st) + conditions_cost st)); [done|].
  injection Hf as <-. split; cbn; [by split|rewrite sum_of_add; lia|done].
Qed.

Lemma map_err_Ok {A} f (m : clvm A) a : map_err f m = Ok a → m = Ok a.
Proof. destruct m; cbn; congruence. Qed.

Lemma bundle_spends_ok `{Blst} base flags fuel export_fuel c max_cost l cache st cache' st' :
  gen_ok base st →
  bundle_spends flags fuel export_fuel c max_cost l (cache, st) = Some (Ok (cache', st')) → gen_ok base st'.
Proof.
  revert cache st. induction l as [|t l IH]; intros cache st Hok Hg; cbn [bundle_spends] in Hg; [by injection Hg as <- <-|].
  apply obind_Ok in Hg as ([cache2 st2] & Hp & Hg). apply (IH cache2 st2); [|done]. clear IH Hg.
  unfold bundle_spend in Hp. apply obind_Ok in Hp as ([[[[puzzle sol] cch] st1] cost_left] & Hpre & Hp).
  injection Hpre as Hpre. apply bind_Ok_inv in Hpre as (pz & _ & Hpre). apply bind_Ok_inv in Hpre as (sl & _ & Hpre).
  destruct (match cache !! _ with Some _ => _ | None => _ end) as [hash cch'].
  destruct (negb _); [done|]. apply bind_Ok_inv in Hpre as (st1' & Hs%map_err_Ok & Hpre).
  apply bind_Ok_inv in Hpre as (cl & _ & Hpre). injection Hpre as <- <- <- <- <-.
  apply obind_Ok in Hp as ([puzzle_cost output] & _ & Hp). injection Hp as Hp.
  apply bind_Ok_inv in Hp as (cost & [-> _]%ok_or_checked & Hp).
  apply bind_Ok_inv in Hp as (cds & Hprice%map_err_Ok%conditions_try_from_price & Hp).
  apply bind_Ok_inv in Hp as ([[spend cs] extra] & Hread%map_err_Ok & Hp).
  apply bind_Ok_inv in Hp as (st3 & Hpush%map_err_Ok & [= <- <-]).
  apply (spend_from_conditions_read _ _ _ _ _ _ _ _ _ Hprice) in Hread. by eapply spend_step.
Qed.

(** ** Fast-forward eligibility *)
Lemma clear_twice s : clear_ff (clear_ff s) = clear_ff s.
Proof.
  destruct s. unfold clear_ff, clear, set. cbn. f_equal. apply Z.bits_inj'. intros n Hn.
  rewrite !Z.ldiff_spec. by destruct (Z.testbit _ n), (Z.testbit _ n).
Qed.

Lemma clear_unset s : Z.land (flags s) ELIGIBLE_FOR_FF = 0 → clear_ff s = s.
Proof.
  destruct s. unfold clear_ff, clear, set. cbn. intros Hz. f_equal. apply Z.bits_inj'. intros n Hn.
  rewrite Z.ldiff_spec. apply (f_equal (λ z, Z.testbit z n)) in Hz. rewrite Z.land_spec, Z.bits_0 in Hz.
  by destruct (Z.testbit _ n), (Z.testbit _ n).
Qed.

Lemma foldl_alter_lookup (l : list Spend) idx j :
  foldl (λ l i, alter clear_ff i l) l idx !! j =
  (λ s, if bool_decide (j ∈ idx) then clear_ff s else s) <$> l !! j.
Proof.
  revert l. induction idx as [|i idx IH]; intros l; cbn [foldl].
  { destruct (l !! j); cbn; [|done]. by rewrite bool_decide_eq_false_2 by set_solver. }
  rewrite IH. destruct (decide (i = j)) as [->|Hne].
  - rewrite list_lookup_alter_eq, (bool_decide_eq_true_2 (j ∈ j :: idx)) by set_solver. destruct (l !! j) as [s|]; cbn; [|done].
    case_bool_decide; [by rewrite clear_twice|done].
  - rewrite list_lookup_alter_ne by done. destruct (l !! j) as [s|]; cbn; [|done].
    f_equal. by rewrite (bool_decide_ext (j ∈ i :: idx) (j ∈ idx)) by set_solver.
Qed.

Lemma imap_snoc {A B} (f : nat → A → B) l x : imap f (l ++ [x]) = imap f l ++ [f (length l) x].
Proof. rewrite imap_app. cbn. by rewrite Nat.add_0_r. Qed.

Lemma spent_coins_spec l id i :
  NoDup (map spend_coin_id l) → spent_coins l !! id = Some i ↔ ∃ s, l !! i = Some s ∧ spend_coin_id s = id.
Proof.
  unfold spent_coins. induction l as [|s l IH] using rev_ind; intros Hnd.
  { cbn. rewrite lookup_empty. split; [done|]. by intros (s & ? & _). }
  rewrite map_app in Hnd. apply NoDup_app in Hnd as (Hnd & Hd & _). specialize (IH Hnd).
  rewrite imap_snoc, foldl_app. cbn [foldl]. rewrite lookup_insert_Some, IH. split.
  - intros [[<- <-]|[_ (s' & Hl & <-)]]; [exists s; by rewrite list_lookup_middle|].
    exists s'. split; [by apply lookup_app_l_Some|done].
  - intros (s' & Hl & <-). apply lookup_app_Some in Hl as [Hl|[Hge Hl]].
    + right. split; [|eauto]. intros Heq. apply (Hd (spend_coin_id s)); [|set_solver].
      rewrite Heq. apply list_elem_of_fmap_2. by eapply list_elem_of_lookup_2.
    + apply list_lookup_singleton_Some in Hl as [Hz <-]. left. split; [done|lia].
Qed.

(** A coin the bundle commits to: asserted as a concurrent spend, or with a
    child that the bundle spends. *)
Definition commits_to (l : list Spend) (s : Spend) : bool :=
  existsb (λ s2, bool_decide (spend_coin_id s ∈ assert_concurrent_spend s2)) l ||
  existsb (λ id, bool_decide (id ∈ map spend_coin_id l)) (created_ids s).

Lemma committed_spec l i s :
  NoDup (map spend_coin_id l) → l !! i = Some s →
  i ∈ committed l ↔ ∃ s2, s2 ∈ l ∧ spend_coin_id s ∈ assert_concurrent_spend s2.
Proof.
  intros Hnd Hi. unfold committed. rewrite list_elem_of_bind. split.
  - intros (s2 & Hin & Hs2). apply list_elem_of_omap in Hin as (id & Hid & Hl).
    apply (spent_coins_spec _ _ _ Hnd) in Hl as (s' & Hl & <-). rewrite Hi in Hl. injection Hl as <-. eauto.
  - intros (s2 & Hs2 & Hid). exists s2. split; [|done]. apply list_elem_of_omap. exists (spend_coin_id s).
    split; [done|]. apply spent_coins_spec; eauto.
Qed.

Lemma child_spent_spec l s :
  NoDup (map spend_coin_id l) →
  child_spent (spent_coins l) s = existsb (λ id, bool_decide (id ∈ map spend_coin_id l)) (created_ids s).
Proof.
  intros Hnd. unfold child_spent. induction (created_ids s) as [|id ids IH]; cbn; [done|]. f_equal; [|done].
  apply bool_decide_ext. split.
  - intros [i (s' & Hl & <-)%(spent_coins_spec _ _ _ Hnd)]. apply list_elem_of_fmap_2. by eapply list_elem_of_lookup_2.
  - intros (s' & -> & [i Hi]%list_elem_of_lookup_1)%list_elem_of_fmap_1. exists i. apply spent_coins_spec; eauto.
Qed.

(** A spend loses its fast-forward eligibility exactly when the bundle
    commits to it; nothing else of any spend changes. *)
Lemma ff_commitments conds :
  NoDup (map spend_coin_id (spends conds)) →
  clear_ff_for_bundle_commitments conds =
  conds <| spends := map (λ s, if commits_to (spends conds) s then clear_ff s else s) (spends conds) |>.
Proof.
  intros Hnd. unfold clear_ff_for_bundle_commitments. cbv zeta.
  match goal with |- set _ (λ _, ?x) _ = set _ (λ _, ?y) _ => assert (Heq : x = y); [|by rewrite Heq] end.
  apply list_eq. intros i. rewrite !list_lookup_fmap, foldl_alter_lookup.
  destruct (spends conds !! i) as [s|] eqn:Hi; cbn [fmap option_fmap option_map]; [|done]. f_equal.
  assert (Hc : bool_decide (i ∈ committed (spends conds)) =
    existsb (λ s2, bool_decide (spend_coin_id s ∈ assert_concurrent_spend s2)) (spends conds)).
  { apply Bool.eq_iff_eq_true. rewrite bool_decide_eq_true, (committed_spec _ _ _ Hnd Hi), existsb_exists.
    setoid_rewrite bool_decide_eq_true. setoid_rewrite list_elem_of_In. done. }
  unfold commits_to. rewrite Hc, <- (child_spent_spec _ s Hnd).
  destruct (existsb _ (spends conds)); cbn [orb].
  - rewrite clear_twice. by destruct (negb _ && _).
  - destruct (Z.eqb_spec (Z.land (flags s) ELIGIBLE_FOR_FF) 0) as [Hz|]; [|done]. rewrite (clear_unset _ Hz).
    by destruct (child_spent _ _).
Qed.

Lemma sum_of_map {A} (f : A → Z) (g : A → A) l : (∀ x, f (g x) = f x) → sum_of f (map g l) = sum_of f l.
Proof. intros Hfg. unfold sum_of. induction l as [|x l IH]; cbn; [done|]. by rewrite Hfg, IH. Qed.

Lemma map_stable {A B} (f : A → B) (g : A → A) l : (∀ x, f (g x) = f x) → map f (map g l) = map f l.
Proof. intros Hfg. rewrite map_map. by apply map_ext. Qed.

Lemma clear_accounted base max_cost r :
  accounted base max_cost r → accounted base max_cost (clear_ff_for_bundle_commitments r).
Proof.
  intros [[T1 T2 T3 T4 T5] Hc Hm]. rewrite ff_commitments by done.
  set (g := λ s, if commits_to (spends r) s then clear_ff s else s).
  assert (Hg : ∀ s, g s = s ∨ g s = clear_ff s) by (intros s; unfold g; destruct (commits_to _ s); auto).
  assert (Hsum : ∀ f, (∀ s, f (clear_ff s) = f s) → sum_of f (map g (spends r)) = sum_of f (spends r)).
  { intros f Hf. apply sum_of_map. intros s. destruct (Hg s) as [->| ->]; [done|apply Hf]. }
  assert (Hmap : ∀ B (f : Spend → B), (∀ s, f (clear_ff s) = f s) → map f (map g (spends r)) = map f (spends r)).
  { intros B f Hf. apply map_stable. intros s. destruct (Hg s) as [->| ->]; [done|apply Hf]. }
  split; [split|..]; cbn.
  - by rewrite Hsum by by intros [].
  - by rewrite (Hsum (λ s, sum_amounts (create_coin s))) by by intros [].
  - apply Forall_fmap. eapply Forall_impl; [exact T3|]. intros s Hs. cbn in Hs |- *.
    destruct (Hg s) as [->| ->]; by destruct s.
  - by rewrite Hmap by by intros [].
  - by rewrite Hmap by by intros [].
  - by rewrite (Hsum (λ s, execution_cost s + condition_cost s)) by by intros [].
  - done.
Qed.

#[export] Instance arena_runner_ok `{Blst} flags fuel c max_cost : RunnerOk (arena_runner flags fuel c max_cost).
Proof.
  intros cost_left puzzle sol cost read Hr. unfold arena_runner in Hr.
  apply obind_Ok in Hr as ([[c0 n] a] & _ & [= <- <-]). apply _.
Qed.
End accounting.

Lemma generator_output_accounted `{BigIntBytes, Sha256, Blst} fuel output cost max_cost flags c hashes r :
  conditions_from_generator_output fuel output cost max_cost flags c hashes = Some (Ok r) → accounted cost max_cost r.
Proof.
  intros Hr. unfold conditions_from_generator_output, generator_output in Hr.
  apply obind_Ok in Hr as (all & _ & Hr). apply obind_Ok in Hr as (st & Hl & [= Hf]).
  eapply finish_accounted; [|exact Hf]. eapply generator_spends_ok; [apply _|apply start_ok|exact Hl].
Qed.

Lemma processed_output_accounted `{BigIntBytes, Sha256} output cost max_cost c r :
  conditions_from_processed_generator_output output cost max_cost c = Ok r → accounted cost max_cost r.
Proof.
  intros Hr. unfold conditions_from_processed_generator_output in Hr.
  apply bind_Ok_inv in Hr as (all & _ & Hr). apply bind_Ok_inv in Hr as (st & Hl & Hf).
  eapply finish_accounted; [|exact Hf]. eapply processed_spends_ok; [apply start_ok|exact Hl].
Qed.

(** C18: in a bundle of conditions that any of the three loops returns, every
    coin id is the hash of its coin, no coin is spent twice and none created
    twice, the removed and the added amounts are the sums over the spends,
    and the cost is the initial cost plus what each spend's puzzle and its
    conditions cost, within the maximum. *)
Theorem conditions_accounted `{BigIntBytes, Sha256, Blst} fuel export_fuel c r :
  (∀ output cost max_cost flags hashes,
    conditions_from_generator_output fuel output cost max_cost flags c hashes = Some (Ok r) →
    accounted cost max_cost r) ∧
  (∀ output cost max_cost,
    conditions_from_processed_generator_output output cost max_cost c = Ok r → accounted cost max_cost r) ∧
  (∀ coin_spends height,
    conditions_from_spend_bundle fuel export_fuel coin_spends height c = Some (Ok r) →
    accounted ((spend_bundle_generator_length coin_spends - 2) * cost_per_byte c) (max_block_cost_clvm c) r).
Proof.
  split_and!.
  - intros output cost max_cost flags hashes. apply generator_output_accounted.
  - intros output cost max_cost. apply processed_output_accounted.
  - intros coin_spends height Hr. unfold conditions_from_spend_bundle in Hr. cbv zeta in Hr.
    apply obind_Ok in Hr as (byte_cost & [= [_ ->]%chk_Ok] & Hr).
    apply obind_Ok in Hr as ([cache st] & Hl & [= Hr]).
    apply bind_Ok_inv in Hr as (cost & Hcost & Hr). destruct (max_block_cost_clvm c <? cost) eqn:Em; [done|].
    injection Hr as <-. apply clear_accounted. eapply (finish_accounted _ _ Overflow st).
    + eapply bundle_spends_ok; [apply start_ok|exact Hl].
    + unfold finish. apply ok_or_Ok in Hcost. rewrite Hcost. cbn [ok_or mbind res_bind]. by rewrite Em.
Qed.

(** ** The specification of a block's conditions

    Each puzzle is evaluated within the cost that is left (a puzzle that
    starts with nothing left is refused), all its conditions are read and
    then applied, and the total cost is checked once, at the end. *)
Section specification.
Context `{BigIntBytes, Sha256, Blst}.

Definition spec_runner (flags : Z) (c : ConsensusConstants) (max_cost : Z) : runner :=
  λ cost_left puzzle sol,
    if cost_left =? 0 then Some (Err (CostExceeded max_cost max_cost))
    else obind (eval flags cost_left cost_left (S (Z.to_nat cost_left)) false 0 puzzle sol) (λ '(cost, output), Some (Ok
      (cost, λ coin cs extra, conditions ← read_conditions output; spend_from_conditions c false coin conditions cs extra))).

Definition block_conditions (flags : Z) (c : ConsensusConstants) (max_cost cost : Z)
    (hashes : option (list (list Z))) (output : SExp) : option (clvm SpendBundleConditions) :=
  generator_output (spec_runner flags c max_cost) output cost max_cost hashes.

#[export] Instance spec_runner_ok flags c max_cost : RunnerOk (spec_runner flags c max_cost).
Proof.
  intros cost_left puzzle sol cost read Hr. unfold spec_runner in Hr. destruct (cost_left =? 0); [done|].
  apply obind_Ok in Hr as ([c0 t] & _ & [= <- <-]). intros coin cs extra spend cs' extra' Hread.
  apply bind_Ok_inv in Hread as (cds & Hp%read_conditions_price & Hread). by eapply spend_from_conditions_read.
Qed.
End specification.

Section refinement.
Context `{BigIntBytesOk, Sha256Ok, BlstOk}.
Context (flags : Z) (fuel : nat) (c : ConsensusConstants) (max_cost : Z).
Hypothesis Hmax : 0 ≤ max_cost < 2 ^ 64.
Hypothesis Hfuel : 4 * max_cost < Z.of_nat fuel.

(** A puzzle and its solution that fit the arena. *)
Definition fits (puzzle sol : SExp) : Prop :=
  sexp_ok puzzle ∧ sexp_ok sol ∧ room (input_bytes puzzle sol) max_cost.

(** The run of one puzzle, with the reading of its output, against the
    specification's. *)
Lemma run_puzzle_rel cost_left puzzle sol :
  fits puzzle sol → 0 < cost_left ≤ max_cost →
  ∃ m r, run_in_arena flags fuel cost_left puzzle sol = Some m ∧
    eval flags cost_left cost_left (S (Z.to_nat cost_left)) false 0 puzzle sol = Some r ∧ limit_rel run_node_rel m r.
Proof.
  intros (Hp & Hs & Hr) Hc. pose proof (run_in_arena_spec flags fuel cost_left puzzle sol) as Hrun.
  unfold effective_max_cost in Hrun. rewrite (proj2 (Z.eqb_neq cost_left 0)) in Hrun by lia.
  apply Hrun; [lia|done|done| |lia]. unfold room in *. lia.
Qed.

(** What a pair of readers has in common: reading the arena succeeds only as
    the specification does, and as it does within the cost. *)
Lemma reader_sound a n t coin cs extra res :
  den a n t →
  parse_and_apply_spend_from_arena (arena_view a) (arena_export a) c max_cost false n coin cs extra = Ok res →
  (conditions ← read_conditions t; spend_from_conditions c false coin conditions cs extra) = Ok res.
Proof.
  intros Hd. rewrite (parse_spend_den _ _ _ _ _ _ _ _ _ Hd). unfold parse_and_apply_spend_from_arena, spend_from_conditions.
  intros Hr. apply bind_Ok_inv in Hr as (cs1 & Hrm & Hr).
  apply bind_Ok_inv in Hr as (b & (cds & Hcds & Hap & _)%stream_read & Hr).
  rewrite Hcds. cbn [mbind res_bind]. rewrite Hrm. cbn [mbind res_bind]. rewrite Hap. exact Hr.
Qed.

Lemma reader_complete a n t coin cs extra spend cs' extra' :
  den a n t → 0 ≤ conds_cost cs + extra →
  (conditions ← read_conditions t; spend_from_conditions c false coin conditions cs extra) = Ok (spend, cs', extra') →
  conds_cost cs' + extra' ≤ max_cost →
  parse_and_apply_spend_from_arena (arena_view a) (arena_export a) c max_cost false n coin cs extra = Ok (spend, cs', extra').
Proof.
  intros Hd Hz Hr Hle. rewrite (parse_spend_den _ _ _ _ _ _ _ _ _ Hd). unfold parse_and_apply_spend_from_arena, spend_from_conditions in *.
  apply bind_Ok_inv in Hr as (cds & Hcds & Hr). apply bind_Ok_inv in Hr as (cs1 & Hrm & Hr).
  apply bind_Ok_inv in Hr as (b & Hap & Hr). apply bind_Ok_inv in Hr as (s & Hf & [= <- <- <-]).
  rewrite Hrm. cbn [mbind res_bind]. apply remove_coin_ok in Hrm as ->.
  rewrite (read_stream _ c max_cost false coin t 0 _ b cds); [cbn [mbind res_bind]; by rewrite Hf|..].
  - cbn. lia.
  - lia.
  - cbn. lia.
  - by eapply read_conditions_price.
  - done.
  - done.
  - by right.
Qed.

(** One spend. *)
Definition spend_fits (t : SExp) : Prop :=
  ∀ parent puzzle amount sol, spend_parts t = Ok (parent, puzzle, amount, sol) → fits puzzle sol.

Lemma generator_spend_sound hashes index t st st' :
  spend_fits t → 0 ≤ conds_cost (g_conds st) →
  generator_spend (arena_runner flags fuel c max_cost) max_cost hashes index t st = Some (Ok st') →
  generator_spend (spec_runner flags c max_cost) max_cost hashes index t st = Some (Ok st') ∨
  generator_spend (spec_runner flags c max_cost) max_cost hashes index t st = Some (Err (CostExceeded max_cost max_cost)).
Proof.
  intros Hfit Hpos Hg. unfold generator_spend in *. apply obind_Ok in Hg as ([[[[coin puzzle] sol] st1] cost_left] & Hpre & Hg).
  rewrite Hpre. cbn [obind]. injection Hpre as Hpre.
  apply bind_Ok_inv in Hpre as ([[[parent pz] amt] sl] & Hparts & Hpre). apply Hfit in Hparts.
  apply bind_Ok_inv in Hpre as (pid & _ & Hpre). apply bind_Ok_inv in Hpre as (am & _ & Hpre).
  apply bind_Ok_inv in Hpre as (st1' & Hs & Hpre). apply bind_Ok_inv in Hpre as (cl & [-> Hcl]%ok_or_checked & Hpre).
  injection Hpre as <- <- <- <- <-. unfold spec_runner.
  destruct (Z.eqb_spec (max_cost - conds_cost (g_conds st1')) 0) as [|Hne]; [by right|left].
  apply obind_Ok in Hg as ([puzzle_cost read] & Hrun & Hg). unfold arena_runner in Hrun.
  apply obind_Ok in Hrun as ([[c0 n] a] & Hrun & [= <- <-]).
  assert (g_conds st1' = g_conds st) as Hc.
  { unfold spend_coin in Hs. case_bool_decide; [done|]. by injection Hs as <-. }
  destruct (run_puzzle_rel (max_cost - conds_cost (g_conds st1')) pz sl Hparts) as (m & r & Hm & Hr & Hrel).
  { unfold uok in Hcl. rewrite Hc in *. lia. }
  rewrite Hrun in Hm. injection Hm as <-. rewrite Hr. destruct Hrel as [(e & ? & _)|Hrel]; [done|].
  destruct r as [[c1 t1]|e|]; [|done|done]. destruct Hrel as (Hcc & _ & Hd). cbn in Hcc, Hd. subst c1. cbn [obind].
  injection Hg as Hg. apply bind_Ok_inv in Hg as (total & Htot & Hg). rewrite Htot. cbn [mbind res_bind].
  apply bind_Ok_inv in Hg as (res & Hread & Hg). rewrite (reader_sound _ _ _ _ _ _ _ Hd Hread).
  cbn [mbind res_bind]. by rewrite Hg.
Qed.

(** The costs only grow. *)
Definition grows (st st' : gen_state) : Prop :=
  0 ≤ conds_cost (g_conds st) ≤ conds_cost (g_conds st') ∧ 0 ≤ conditions_cost st ≤ conditions_cost st'.

Lemma spec_spend_grows hashes index t st st' :
  0 ≤ conds_cost (g_conds st) → 0 ≤ conditions_cost st →
  generator_spend (spec_runner flags c max_cost) max_cost hashes index t st = Some (Ok st') → grows st st'.
Proof.
  intros Hp Hq Hg. unfold generator_spend in Hg. apply obind_Ok in Hg as ([[[[coin puzzle] sol] st1] cost_left] & Hpre & Hg).
  injection Hpre as Hpre. apply bind_Ok_inv in Hpre as ([[[parent pz] amt] sl] & _ & Hpre).
  apply bind_Ok_inv in Hpre as (pid & _ & Hpre). apply bind_Ok_inv in Hpre as (am & _ & Hpre).
  apply bind_Ok_inv in Hpre as (st1' & Hs & Hpre). apply bind_Ok_inv in Hpre as (cl & _ & Hpre).
  injection Hpre as <- <- <- <- <-. apply obind_Ok in Hg as ([puzzle_cost read] & Hrun & [= Hg]).
  apply bind_Ok_inv in Hg as (total & [-> _]%ok_or_checked & Hg).
  apply bind_Ok_inv in Hg as ([[spend cs] extra] & Hread & Hg).
  apply (runs _ _ _ _ _ Hrun) in Hread as [_ _ _ _ _ Hc _ _ He Hpr _]. cbn in Hc.
  unfold push_spend in Hg. apply bind_Ok_inv in Hg as (cr & _ & [= <-]). unfold grows. cbn.
  unfold spec_runner in Hrun. destruct (cl =? 0); [done|]. apply obind_Ok in Hrun as ([c0 t0] & Hev & [= <- _]).
  apply eval_more in Hev. unfold spend_coin in Hs. case_bool_decide; [done|]. injection Hs as <-. cbn in *. lia.
Qed.

Lemma spec_spends_grows hashes index l st st' :
  0 ≤ conds_cost (g_conds st) → 0 ≤ conditions_cost st →
  generator_spends (spec_runner flags c max_cost) max_cost hashes index l st = Some (Ok st') → grows st st'.
Proof.
  revert index st. induction l as [|t l IH]; intros index st Hp Hq Hg; cbn [generator_spends] in Hg.
  { injection Hg as <-. unfold grows. lia. }
  apply obind_Ok in Hg as (st1 & Hst1 & Hg). apply spec_spend_grows in Hst1 as [? ?]; [|done..].
  apply IH in Hg as [? ?]; [|lia..]. unfold grows. lia.
Qed.

(** The outcome is a value, or a limit of the arena. *)
Definition unless_limit {A} (x : option (clvm A)) (r : A) : Prop :=
  x = Some (Ok r) ∨ ∃ e, x = Some (Err e) ∧ limit_error e.

Lemma generator_spend_complete hashes index t st st' :
  spend_fits t → 0 ≤ conds_cost (g_conds st) → 0 ≤ conditions_cost st →
  generator_spend (spec_runner flags c max_cost) max_cost hashes index t st = Some (Ok st') →
  conds_cost (g_conds st') + conditions_cost st' ≤ max_cost →
  unless_limit (generator_spend (arena_runner flags fuel c max_cost) max_cost hashes index t st) st'.
Proof.
  intros Hfit Hp Hq Hg Hle. unfold generator_spend in *. apply obind_Ok in Hg as ([[[[coin puzzle] sol] st1] cost_left] & Hpre & Hg).
  rewrite Hpre. cbn [obind]. injection Hpre as Hpre.
  apply bind_Ok_inv in Hpre as ([[[parent pz] amt] sl] & Hparts & Hpre). apply Hfit in Hparts.
  apply bind_Ok_inv in Hpre as (pid & _ & Hpre). apply bind_Ok_inv in Hpre as (am & _ & Hpre).
  apply bind_Ok_inv in Hpre as (st1' & Hs & Hpre). apply bind_Ok_inv in Hpre as (cl & [-> Hcl]%ok_or_checked & Hpre).
  injection Hpre as <- <- <- <- <-. apply obind_Ok in Hg as ([puzzle_cost read] & Hrun & [= Hg]).
  unfold spec_runner in Hrun. destruct (Z.eqb_spec (max_cost - conds_cost (g_conds st1')) 0) as [|Hne]; [done|].
  apply obind_Ok in Hrun as ([c0 t0] & Hev & [= <- <-]).
  assert (g_conds st1' = g_conds st ∧ conditions_cost st1' = conditions_cost st) as [Hc Hx].
  { unfold spend_coin in Hs. case_bool_decide; [done|]. by injection Hs as <-. }
  destruct (run_puzzle_rel (max_cost - conds_cost (g_conds st1')) pz sl Hparts) as (m & r & Hm & Hr & Hrel).
  { unfold uok in Hcl. rewrite Hc in *. lia. }
  unfold arena_runner. rewrite Hm. rewrite Hev in Hr. injection Hr as <-.
  destruct Hrel as [(e & -> & He)|Hrel]; [right; by exists e|left].
  destruct m as [[[c1 n] a]|e|]; [|done|done]. destruct Hrel as (Hcc & _ & Hd). cbn in Hcc, Hd. subst c1. cbn [obind].
  apply eval_more in Hev. apply bind_Ok_inv in Hg as (total & Htot & Hg). rewrite Htot. cbn [mbind res_bind].
  apply ok_or_checked in Htot as [-> _].
  apply bind_Ok_inv in Hg as ([[spend cs] extra] & Hread & Hg). f_equal.
  erewrite reader_complete; [exact Hg|exact Hd| |exact Hread|].
  - cbn. rewrite Hc, Hx. lia.
  - unfold push_spend in Hg. apply bind_Ok_inv in Hg as (cr & _ & [= <-]). exact Hle.
Qed.

Lemma generator_spends_sound hashes index l st st' :
  Forall spend_fits l → 0 ≤ conds_cost (g_conds st) → 0 ≤ conditions_cost st →
  generator_spends (arena_runner flags fuel c max_cost) max_cost hashes index l st = Some (Ok st') →
  generator_spends (spec_runner flags c max_cost) max_cost hashes index l st = Some (Ok st') ∨
  generator_spends (spec_runner flags c max_cost) max_cost hashes index l st = Some (Err (CostExceeded max_cost max_cost)).
Proof.
  intros Hf. revert index st. induction Hf as [|t l Ht Hf IH]; intros index st Hp Hq Hg; cbn [generator_spends] in *; [by left|].
  apply obind_Ok in Hg as (st1 & Hst1 & Hg). apply generator_spend_sound in Hst1 as [Hst1|Hst1]; [|by right; rewrite Hst1|done|done].
  rewrite Hst1. cbn [obind]. apply spec_spend_grows in Hst1 as [? ?]; [|done..]. apply IH; [lia|lia|done].
Qed.

Lemma generator_spends_complete hashes index l st st' :
  Forall spend_fits l → 0 ≤ conds_cost (g_conds st) → 0 ≤ conditions_cost st →
  generator_spends (spec_runner flags c max_cost) max_cost hashes index l st = Some (Ok st') →
  conds_cost (g_conds st') + conditions_cost st' ≤ max_cost →
  unless_limit (generator_spends (arena_runner flags fuel c max_cost) max_cost hashes index l st) st'.
Proof.
  intros Hf. revert index st. induction Hf as [|t l Ht Hf IH]; intros index st Hp Hq Hg Hle; cbn [generator_spends] in *.
  { injection Hg as <-. by left. }
  apply obind_Ok in Hg as (st1 & Hst1 & Hg). pose proof (spec_spend_grows _ _ _ _ _ Hp Hq Hst1) as [? ?].
  pose proof (spec_spends_grows hashes (S index) l st1 st' ltac:(lia) ltac:(lia) Hg) as [? ?].
  destruct (generator_spend_complete hashes index t st st1 Ht Hp Hq Hst1 ltac:(lia)) as [->|(e & -> & He)]; [|right; by exists e].
  cbn [obind]. apply IH; [lia|lia|done|done].
Qed.
End refinement.

(** ** Inputs that fit *)
Lemma sexp_bytes_nonneg s : 0 ≤ sexp_bytes s.
Proof. induction s; cbn; [apply zlen_nonneg|lia]. Qed.

Lemma ref_list_ok s : sexp_ok s → Forall sexp_ok (ref_list s).
Proof.
  induction s as [a|f _ r IH]; cbn [ref_list].
  - intros Ha. destruct (sexp_non_nil _); repeat constructor. exact Ha.
  - intros [Hf Hr]. constructor; auto.
Qed.

Lemma ref_list_bytes s : sum_of sexp_bytes (ref_list s) = sexp_bytes s.
Proof.
  unfold sum_of. induction s as [a|f _ r IH]; cbn [ref_list sexp_bytes].
  - cbn. case_bool_decide as Ha; cbn; [by subst|lia].
  - cbn. lia.
Qed.

Lemma sum_of_elem {A} (f : A → Z) l x : (∀ y, 0 ≤ f y) → x ∈ l → f x ≤ sum_of f l.
Proof.
  intros Hf. unfold sum_of. induction 1 as [x l|x y l Hin IH]; cbn.
  - assert (0 ≤ foldr (λ x acc, f x + acc) 0 l); [|lia]. induction l as [|z l IHl]; cbn; [lia|]. specialize (Hf z). lia.
  - specialize (Hf y). lia.
Qed.

(** A spend in an output that fits the arena fits it. *)
Lemma spend_fits_output max_cost t s :
  sexp_ok s → room (1 + sexp_bytes s) max_cost → t ∈ ref_list s → spend_fits max_cost t.
Proof.
  intros Hs Hr Hin parent puzzle amount sol Hp. pose proof (ref_list_ok s Hs) as Hok. rewrite Forall_forall in Hok.
  specialize (Hok t Hin). pose proof (sum_of_elem sexp_bytes (ref_list s) t sexp_bytes_nonneg Hin) as Hb.
  rewrite ref_list_bytes in Hb. unfold spend_parts in Hp. pose proof (ref_list_ok t Hok) as Hf.
  pose proof (ref_list_bytes t) as Hsum. destruct (ref_list t) as [|x1 [|x2 [|x3 [|x4 l]]]]; try done.
  injection Hp as -> -> -> ->. rewrite !Forall_cons in Hf. destruct Hf as (_ & Hpz & _ & Hsl & _).
  split_and!; [done|done|]. unfold room, input_bytes, sum_of in *. cbn in Hsum.
  pose proof (sexp_bytes_nonneg parent). pose proof (sexp_bytes_nonneg amount).
  assert (0 ≤ foldr (λ x acc, sexp_bytes x + acc) 0 l); [|lia].
  clear. induction l as [|z l IHl]; cbn; [lia|]. pose proof (sexp_bytes_nonneg z). lia.
Qed.

Lemma generator_output_spec `{BigIntBytesOk, Sha256Ok, BlstOk} fuel output cost max_cost flags c hashes :
  0 ≤ cost → 0 ≤ max_cost < 2 ^ 64 → 4 * max_cost < Z.of_nat fuel →
  sexp_ok output → room (1 + sexp_bytes output) max_cost →
  (∀ r, block_conditions flags c max_cost cost hashes output = Some (Ok r) →
     unless_limit (conditions_from_generator_output fuel output cost max_cost flags c hashes) r) ∧
  (∀ r, conditions_from_generator_output fuel output cost max_cost flags c hashes = Some (Ok r) →
     block_conditions flags c max_cost cost hashes output = Some (Ok r) ∨
     block_conditions flags c max_cost cost hashes output = Some (Err (CostExceeded max_cost max_cost))).
Proof.
  intros Hc Hm Hfuel Hok Hroom. unfold block_conditions, conditions_from_generator_output, generator_output.
  destruct output as [x|all rest]; cbn [sexp_first obind]; [done|]. destruct Hok as [Hok _].
  assert (Hfit : Forall (spend_fits max_cost) (ref_list all)).
  { apply Forall_forall. intros t Ht. apply (spend_fits_output max_cost t all Hok); [|done].
    unfold room in *. cbn in Hroom. pose proof (sexp_bytes_nonneg rest). lia. }
  split; intros r Hr; apply obind_Ok in Hr as (st & Hst & [= Hfin]).
  - pose proof Hfin as Hle. unfold finish in Hle. apply bind_Ok_inv in Hle as (total & [-> _]%ok_or_checked & Hle).
    destruct (Z.ltb_spec max_cost (conds_cost (g_conds st) + conditions_cost st)); [done|].
    apply (generator_spends_complete _ fuel _ _ Hm Hfuel) in Hst as [->|(e & -> & He)]; try done; [|right; by exists e].
    left. cbn. by rewrite Hfin.
  - apply (generator_spends_sound _ _ _ _ Hm Hfuel) in Hst as [->| ->]; try done; [|by right].
    left. cbn. by rewrite Hfin.
Qed.

(** C9: the arena implements the specification of a block's conditions.  A
    result the specification gives, the code gives too, or it stops at one of
    the arena's limits; a result the code gives is the specification's,
    unless some spend starts when the cost is used up exactly, for which the
    code runs the puzzle without a limit and the specification refuses. *)
Theorem generator_output_refines `{BigIntBytesOk, Sha256Ok, BlstOk} fuel output cost max_cost flags c hashes :
  0 ≤ cost → 0 ≤ max_cost < 2 ^ 64 → 4 * max_cost < Z.of_nat fuel →
  sexp_ok output → room (1 + sexp_bytes output) max_cost →
  (∀ r, block_conditions flags c max_cost cost hashes output = Some (Ok r) →
     unless_limit (conditions_from_generator_output fuel output cost max_cost flags c hashes) r) ∧
  (∀ r, conditions_from_generator_output fuel output cost max_cost flags c hashes = Some (Ok r) →
     block_conditions flags c max_cost cost hashes output = Some (Ok r) ∨
     block_conditions flags c max_cost cost hashes output = Some (Err (CostExceeded max_cost max_cost))).
Proof. apply generator_output_spec. Qed.

(** ** Spends in another form *)

(** a spend is accepted in forms other than a list of four or more parts
    with a 32-byte parent: a solution that is a non-empty atom may end an
    improper list of three parts, and a shorter parent id is padded with
    zeros on the left.  Both are read as the spend in the usual form. *)
Theorem spend_form_lax `{BigIntBytes, Sha256} run_puzzle max_cost hashes index st parent puzzle amt sol :
  sol ≠ [] → (length parent ≤ 32)%nat →
  let usual := Pair (Atom (replicate (32 - length parent) 0 ++ parent))
    (Pair puzzle (Pair amt (Pair (Atom sol) NULL_SEXP))) in
  generator_spend run_puzzle max_cost hashes index
    (Pair (Atom parent) (Pair puzzle (Pair amt (Atom sol)))) st =
  generator_spend run_puzzle max_cost hashes index usual st.
Proof.
  intros Hsol Hlen. cbv zeta. unfold generator_spend, spend_parts. cbn [ref_list sexp_non_nil sexp_nullp NULL_SEXP negb].
  rewrite (bool_decide_eq_false_2 (sol = [])) by done. cbn [negb mbind res_bind parse_atom].
  unfold sized_parse. rewrite !bool_decide_eq_false_2; [|rewrite length_app, length_replicate; lia|lia].
  rewrite length_app, length_replicate. replace (32 - (32 - length parent + length parent))%nat with 0%nat by lia. done.
Qed.

(** ** Instances *)


(** A spend of a coin of 5 without conditions. *)
Definition quiet_output : SExp :=
  Pair (Pair (Pair (Atom [1]) (Pair (Pair (Atom [1]) NULL_SEXP) (Pair (Atom [5]) (Pair NULL_SEXP NULL_SEXP)))) NULL_SEXP)
    NULL_SEXP.

(** A spend of a coin of 1000 that creates a coin of 900, already run. *)
Definition paying_output : SExp :=
  Pair (Pair (Pair (Atom (repeat 1 32)) (Pair (Atom (repeat 2 32)) (Pair (Atom [3; 232])
    (Pair (Pair (coin_condition (repeat 9 32) [3; 132]) NULL_SEXP) NULL_SEXP)))) NULL_SEXP) NULL_SEXP.

Lemma spend_form_lax_witness :
  @generator_spend bigint_ref toy_hash (@spec_runner bigint_ref toy_hash toy_blst 0 MAINNET 100) 100 None 0
    (Pair (Atom (repeat 1 31)) (Pair (Atom [1]) (Pair (Atom [5]) (Atom [7])))) (start 0) =
  @generator_spend bigint_ref toy_hash (@spec_runner bigint_ref toy_hash toy_blst 0 MAINNET 100) 100 None 0
    (Pair (Atom (0 :: repeat 1 31)) (Pair (Atom [1]) (Pair (Atom [5]) (Pair (Atom [7]) NULL_SEXP)))) (start 0).
Proof.
  exact (@spend_form_lax bigint_ref toy_hash _ 100 None 0 (start 0) (repeat 1 31) (Atom [1]) (Atom [5]) [7]
    ltac:(discriminate) ltac:(cbn; lia)).
Defined.

Lemma generator_output_refines_witness :
  ∃ r, @block_conditions bigint_ref toy_hash toy_blst 0 MAINNET 100 0 None quiet_output = Some (Ok r) ∧
    unless_limit (@conditions_from_generator_output bigint_ref toy_hash toy_blst 401 quiet_output 0 100 0 MAINNET None) r.
Proof.
  eexists. split; [vm_compute; reflexivity|].
  apply (@generator_output_refines bigint_ref bigint_ref_ok toy_hash toy_hash_ok toy_blst toy_blst_ok
    401 quiet_output 0 100 0 MAINNET None).
  - lia.
  - lia.
  - vm_compute. reflexivity.
  - cbn. repeat split; apply bytes_okb_spec; reflexivity.
  - vm_compute. discriminate.
  - vm_compute. reflexivity.
Defined.

Lemma conditions_accounted_witness :
  ∃ r, @conditions_from_processed_generator_output bigint_ref toy_hash paying_output 20 2000000 MAINNET = Ok r ∧
    @accounted toy_hash 20 2000000 r ∧ removal_amount r - addition_amount r = 100.
Proof.
  eexists. split; [vm_compute; reflexivity|]. split; [|reflexivity].
  apply (proj1 (proj2 (@conditions_accounted bigint_ref toy_hash toy_blst 0 0 MAINNET _)) paying_output).
  vm_compute. reflexivity.
Defined.
