(* ===== verification/GeneratorProgram.v ===== *)
(** * Generator programs: [core/src/consensus/block_generator.rs]

    A block carries one serialized CLVM program, the generator, whose output
    is the list of the block's spends.  The producer's side builds it from
    coin spends ([simple_solution_generator], plain, and
    [compressed_solution_generator_from_coin_spends], with back-references);
    the validator's side decodes it, runs it and collects the conditions
    ([execute_block_generator_result]), and the query side runs it to give the
    spends back ([coin_spend_from_generator], [run_simple_generator_spends]).

    [producer_length] says that the predicted size of a generator is its size,
    [producer_accepted] that the validator accepts what the producer builds,
    plain or compressed, with the conditions that the specification of
    [BlockGenerator] gives the spends, [producer_roundtrip] that the query side
    returns the spends, and [reveal_hashes_sound] that hashing puzzles through
    the shared-subtree cache changes nothing. *)
From Stdlib Require Import ZArith Lia.
From stdpp Require Import base list numbers option gmap sets.
From S2P Require Import Prelude Serialize ClvmNumber ClvmSexp Coin ClvmPath ClvmParser BackrefWriter ClvmView ClvmOps ClvmBls ClvmArena ClvmOutcome ClvmRuntime ClvmRefine ClvmEval PotIterations Conditions SpendConditions BlockConditions BlockGenerator.

Open Scope Z_scope.

(** ** Inputs *)
Record GeneratorReference := { ref_height : Z; ref_generator : list Z }.

Record BlockGeneratorInput := {
  transactions_generator : list Z;
  generator_refs : list GeneratorReference;
  constants : ConsensusConstants;
  input_height : Z;
  input_flags : BlockGeneratorFlags;
}.

(** [ROM_BOOTSTRAP_GENERATOR_HEX] of [generator_puzzles.rs]: the program that
    runs the puzzles of blocks before the hard fork. *)
Definition ROM_BOOTSTRAP_GENERATOR : list Z := to_be 737
  0xff02ffff01ff02ff0cffff04ff02ffff04ffff02ff05ffff04ff08ffff04ff13ff80808080ff80808080ffff04ffff01ffffff02ffff01ff05ffff02ff3effff04ff02ffff04ff05ff8080808080ffff04ffff01ffffff81ff7fff81df81bfffffff02ffff03ffff09ff0bffff01818080ffff01ff04ff80ffff04ff05ff808080ffff01ff02ffff03ffff0aff0bff1880ffff01ff02ff1affff04ff02ffff04ffff02ffff03ffff0aff0bff1c80ffff01ff02ffff03ffff0aff0bff1480ffff01ff0880ffff01ff04ffff0effff18ffff011fff0b80ffff0cff05ff80ffff01018080ffff04ffff0cff05ffff010180ff80808080ff0180ffff01ff04ffff18ffff013fff0b80ffff04ff05ff80808080ff0180ff80808080ffff01ff04ff0bffff04ff05ff80808080ff018080ff0180ff04ffff0cff15ff80ff0980ffff04ffff0cff15ff0980ff808080ffff04ffff04ff05ff1380ffff04ff2bff808080ffff02ff16ffff04ff02ffff04ff09ffff04ffff02ff3effff04ff02ffff04ff15ff80808080ff8080808080ff02ffff03ffff09ffff0cff05ff80ffff010180ff1080ffff01ff02ff2effff04ff02ffff04ffff02ff3effff04ff02ffff04ffff0cff05ffff010180ff80808080ff80808080ffff01ff02ff12ffff04ff02ffff04ffff0cff05ffff010180ffff04ffff0cff05ff80ffff010180ff808080808080ff0180ff018080ff04ffff02ff16ffff04ff02ffff04ff09ff80808080ff0d80ffff04ff09ffff04ffff02ff1effff04ff02ffff04ff15ff80808080ffff04ff2dffff04ffff02ff15ff5d80ff7d80808080ffff02ffff03ff05ffff01ff04ffff02ff0affff04ff02ffff04ff09ff80808080ffff02ff16ffff04ff02ffff04ff0dff8080808080ff8080ff0180ff02ffff03ffff07ff0580ffff01ff0bffff0102ffff02ff1effff04ff02ffff04ff09ff80808080ffff02ff1effff04ff02ffff04ff0dff8080808080ffff01ff0bffff0101ff058080ff0180ff018080.

(** ** Addresses

    Two routines remember the address of a node.  Where the allocator puts
    the nodes of a tree is not the program's business; what they rely on is
    that nodes with equal addresses are the same node. *)
Class Memory := {
  place : SExp → node;
  live : SExp → lnode;
}.
Class MemoryOk `{Memory} : Prop := {
  place_erase t : erase (place t) = t;
  place_coherent t : ∃ env, coherent env (place t);
  live_tree t : tree (live t) = t;
  live_placed t : ∃ env, placed env (live t);
}.

(** ** Decoding and checking a generator *)
Definition to_program_backrefs (bytes : list Z) : clvm SExp :=
  '(s, _) ← sexp_from_bytes_backrefs (Cursor bytes 0); Ok s.

Definition generator_run_error (error : ClvmError) : ChiaError :=
  match error with CostExceeded _ _ => BlockCostExceedsMax | _ => GeneratorRuntimeError end.

Definition check_simple_generator (serialized : list Z) (generator : SExp) : chia unit :=
  if negb (bool_decide (take 2 serialized = [0xff; 0x01])) then Err ComplexGeneratorReceived
  else
    match generator with
    | Pair operator _ => if bool_decide (operator = Atom [1]) then Ok tt else Err ComplexGeneratorReceived
    | Atom _ => Err ComplexGeneratorReceived
    end.

Fixpoint check_refs (height : Z) (refs : list GeneratorReference) : chia unit :=
  match refs with
  | [] => Ok tt
  | r :: refs =>
      if height <=? ref_height r then Err FutureGeneratorRefs
      else
        _ ← map_err (λ _, GeneratorRefHasNoGenerator) (to_program_backrefs (ref_generator r));
        check_refs height refs
  end.

Definition generator_ref_atoms (input : BlockGeneratorInput) : SExp :=
  sexp_from_list (map (λ r, Atom (ref_generator r)) (generator_refs input)).

(** The byte cost of a generator and what it leaves of the block's budget. *)
Definition byte_budget (input : BlockGeneratorInput) : chia (Z * Z) :=
  byte_cost ← ok_or (checked 64 (zlen (transactions_generator input) * cost_per_byte (constants input))) InvalidCostResult;
  cost_left ← ok_or (checked 64 (max_block_cost_clvm (constants input) - byte_cost)) BlockCostExceedsMax;
  Ok (byte_cost, cost_left).

(** ** [simple_generator_reveal_hashes] *)
Fixpoint node_ref_list (n : node) : list node :=
  match n with
  | NAtom a => if sexp_non_nil (Atom a) then [NAtom a] else []
  | NPair _ f r => f :: node_ref_list r
  end.

Fixpoint reveals (spends : list node) : list node :=
  match spends with
  | [] => []
  | spend :: spends =>
      match node_ref_list spend with
      | _ :: puzzle :: _ :: _ :: _ => puzzle :: reveals spends
      | _ => []
      end
  end.

Fixpoint visit_all (l : list node) (c : TreeHashCache) : clvm TreeHashCache :=
  match l with
  | [] => Ok c
  | n :: l => c ← expect (visit_tree (S (node_size n)) c n); visit_all l c
  end.

Fixpoint hash_all `{Sha256} (l : list node) (c : TreeHashCache) : clvm (list (list Z)) :=
  match l with
  | [] => Ok []
  | n :: l =>
      match cache_tree_hash (S (3 * node_size n)) c n with
      | Some r => '(c, h) ← r; hs ← hash_all l c; Ok (h :: hs)
      | None => Panic
      end
  end.

(** [TreeHashCache::default()] *)
Definition cache_default : TreeHashCache := {| counts := ∅; hashes := ∅ |}.

Definition simple_generator_reveal_hashes `{Sha256} (generator : node) : clvm (option (list (list Z))) :=
  match generator with
  | NPair _ _ (NPair _ all_spends _) =>
      let l := reveals (node_ref_list all_spends) in
      c ← visit_all l cache_default;
      hs ← hash_all l c;
      Ok (Some hs)
  | _ => Ok None
  end.

Section execute.
Context `{BigIntBytes, Sha256, Blst, Memory}.

(** ** [execute_block_generator_result] *)
Definition generator_guards (input : BlockGeneratorInput) : chia (SExp * Z * Z) :=
  if max_generator_size (constants input) <? zlen (transactions_generator input) then Err InvalidTransactionsGeneratorHash
  else if max_generator_ref_list_size (constants input) <? zlen (generator_refs input) then Err TooManyGeneratorRefs
  else
    _ ← check_refs (input_height input) (generator_refs input);
    if simple_generator (input_flags input) && negb (bool_decide (generator_refs input = [])) then Err TooManyGeneratorRefs
    else
      generator ← map_err (λ _, InvalidBlockSolution) (to_program_backrefs (transactions_generator input));
      _ ← (if simple_generator (input_flags input) then check_simple_generator (transactions_generator input) generator else Ok tt);
      '(byte_cost, cost_left) ← byte_budget input;
      Ok (generator, byte_cost, cost_left).

Definition rom_args (input : BlockGeneratorInput) (generator : SExp) : SExp :=
  sexp_from_list [generator; sexp_from_list [generator_ref_atoms input]].

Definition execute_block_generator_result (fuel export_fuel : nat) (input : BlockGeneratorInput) :
    option (chia SpendBundleConditions) :=
  let flags := clvm_flags (input_flags input) in
  let max_cost := max_block_cost_clvm (constants input) in
  obind (Some (generator_guards input)) (λ '(generator, byte_cost, cost_left),
    if simple_generator (input_flags input) then
      obind (map_err generator_run_error <$> run flags fuel export_fuel cost_left generator NULL_SEXP) (λ '(cost, output),
        obind (Some (ok_or (checked 64 (byte_cost + cost)) InvalidCostResult)) (λ cost,
          obind (Some (map_err map_condition_error (simple_generator_reveal_hashes (place generator)))) (λ reveal_hashes,
            map_err map_condition_error <$>
              conditions_from_generator_output fuel output cost max_cost flags (constants input) reveal_hashes)))
    else
      obind (Some (map_err (λ _, GeneratorRuntimeError) (from_serial ROM_BOOTSTRAP_GENERATOR))) (λ rom,
        obind (map_err generator_run_error <$> run flags fuel export_fuel cost_left rom (rom_args input generator)) (λ '(cost, output),
          Some (
            cost ← ok_or (checked 64 (byte_cost + cost)) InvalidCostResult;
            map_err map_condition_error
              (conditions_from_processed_generator_output output cost max_cost (constants input)))))).

(** ** [execute_block_generator] *)
Record NPCResult := { npc_error : option Z; npc_conds : option SpendBundleConditions }.

Definition chia_error_code (error : ChiaError) : Z :=
  match error with
  | InvalidBlockSolution => 2
  | DuplicateOutput => 4
  | DoubleSpend => 5
  | BadAggregateSignature => 7
  | InvalidCondition => 10
  | AssertAnnounceConsumedFailed => 12
  | AssertHeightRelativeFailed => 13
  | AssertHeightAbsoluteFailed => 14
  | AssertSecondsAbsoluteFailed => 15
  | CoinAmountExceedsMaximum => 16
  | BlockCostExceedsMax => 23
  | BadAdditionRoot => 24
  | BadRemovalRoot => 25
  | ReserveFeeConditionFailed => 48
  | TooManyGeneratorRefs => 113
  | GeneratorRuntimeError => 117
  | InvalidCostResult => 118
  | FutureGeneratorRefs => 120
  | GeneratorRefHasNoGenerator => 121
  | CoinAmountNegative => 124
  | AssertConcurrentSpendFailed => 132
  | AssertConcurrentPuzzleFailed => 133
  | AssertEphemeralFailed => 140
  | MessageNotSentOrReceived => 147
  | ComplexGeneratorReceived => 148
  | _ => 1
  end.

Definition execute_block_generator (fuel export_fuel : nat) (input : BlockGeneratorInput) : option (chia NPCResult) :=
  r ← execute_block_generator_result fuel export_fuel input;
  Some (match r with
        | Ok conds => Ok {| npc_error := None; npc_conds := Some conds |}
        | Err error => Ok {| npc_error := Some (chia_error_code error); npc_conds := None |}
        | Panic => Panic
        end).

(** ** The spends of a generator, for queries *)
Definition serialized (s : SExp) : chia (list Z) :=
  match sexp_to_bytes s with Ok bs => Ok bs | Err _ => Err InvalidBlockSolution | Panic => Panic end.

(** The output of a simple generator, and the budget it was run with. *)
Definition simple_output (fuel export_fuel : nat) (input : BlockGeneratorInput) : option (chia (Z * SExp)) :=
  obind (Some (
    if negb (simple_generator (input_flags input)) then Err GeneratorRuntimeError
    else if max_generator_size (constants input) <? zlen (transactions_generator input) then Err InvalidTransactionsGeneratorHash
    else
      generator ← map_err (λ _, InvalidBlockSolution) (to_program_backrefs (transactions_generator input));
      _ ← check_simple_generator (transactions_generator input) generator;
      '(_, cost_left) ← byte_budget input;
      Ok (generator, cost_left))) (λ '(generator, cost_left),
    obind (map_err generator_run_error <$> run (clvm_flags (input_flags input)) fuel export_fuel cost_left generator NULL_SEXP)
      (λ '(_, output), Some (
        all_spends ← map_err (λ _, InvalidBlockSolution) (sexp_first output);
        Ok (cost_left, all_spends)))).

Definition query_spend (spend_sexp : SExp) : chia (Coin * SExp * SExp) :=
  map_err (λ _, InvalidBlockSolution) (
    '(parent, puzzle, amount, solution) ← spend_parts spend_sexp;
    parent_id ← parse_atom parent;
    amount ← parse_amount amount;
    Ok ({| parent_coin_info := parent_id; puzzle_hash := tree_hash puzzle; amount := amount |}, puzzle, solution)).

Definition spend_of (x : Coin * SExp * SExp) : chia CoinSpend :=
  let '(coin, puzzle, sol) := x in
  reveal ← serialized puzzle;
  sol ← serialized sol;
  Ok {| cs_coin := coin; puzzle_reveal := reveal; solution := sol |}.

Fixpoint find_spend (id : list Z) (l : list SExp) : chia (option CoinSpend) :=
  match l with
  | [] => Ok None
  | spend_sexp :: l =>
      x ← query_spend spend_sexp;
      if bool_decide (coin_id x.1.1 = id) then s ← spend_of x; Ok (Some s) else find_spend id l
  end.

Definition coin_spend_from_generator (fuel export_fuel : nat) (input : BlockGeneratorInput) (id : list Z) :
    option (chia (option CoinSpend)) :=
  obind (simple_output fuel export_fuel input) (λ '(_, all_spends), Some (find_spend id (ref_list all_spends))).

Record RawCondition := { raw_opcode : list Z; raw_vars : list (list Z) }.

Fixpoint leading_atoms (l : list SExp) : list (list Z) :=
  match l with Atom a :: l => a :: leading_atoms l | _ => [] end.

Fixpoint raw_conditions (l : list SExp) : chia (list RawCondition) :=
  match l with
  | [] => Ok []
  | cond_sexp :: l =>
      match ref_list cond_sexp with
      | Atom opcode :: vars =>
          rest ← raw_conditions l; Ok ({| raw_opcode := opcode; raw_vars := leading_atoms vars |} :: rest)
      | _ => Err InvalidBlockSolution
      end
  end.
Definition parse_raw_conditions (output : SExp) : chia (list RawCondition) := raw_conditions (ref_list output).

Fixpoint query_spends (fuel export_fuel : nat) (flags cost_left : Z) (with_conditions : bool) (l : list SExp) :
    option (chia (list (CoinSpend * list RawCondition))) :=
  match l with
  | [] => Some (Ok [])
  | spend_sexp :: l =>
      obind (Some (query_spend spend_sexp)) (λ x,
        obind (if with_conditions then
                 obind (map_err generator_run_error <$> run flags fuel export_fuel cost_left x.1.2 x.2)
                   (λ '(_, cond_out), Some (parse_raw_conditions cond_out))
               else Some (Ok [])) (λ conditions,
          obind (Some (spend_of x)) (λ s,
            obind (query_spends fuel export_fuel flags cost_left with_conditions l) (λ rest,
              Some (Ok ((s, conditions) :: rest))))))
  end.

Definition run_simple_generator_spends (fuel export_fuel : nat) (input : BlockGeneratorInput) (with_conditions : bool) :
    option (chia (list (CoinSpend * list RawCondition))) :=
  obind (simple_output fuel export_fuel input) (λ '(cost_left, all_spends),
    query_spends fuel export_fuel (clvm_flags (input_flags input)) cost_left with_conditions (ref_list all_spends)).

Definition coin_spends_from_generator (fuel export_fuel : nat) (input : BlockGeneratorInput) : option (chia (list CoinSpend)) :=
  obind (run_simple_generator_spends fuel export_fuel input false) (λ l, Some (Ok l.*1)).
Definition coin_spends_with_conditions_from_generator (fuel export_fuel : nat) (input : BlockGeneratorInput) :=
  run_simple_generator_spends fuel export_fuel input true.

(** ** The producer *)
Definition sexp_of_bigint (v : Z) : SExp := Atom (bigint_to_bytes v (bool_decide (bigint_sign v ≠ NoSign))).

Fixpoint generator_items (l : list CoinSpend) : clvm (list SExp) :=
  match l with
  | [] => Ok []
  | s :: l =>
      puzzle ← from_serial (puzzle_reveal s);
      sol ← from_serial (solution s);
      rest ← generator_items l;
      Ok (sexp_from_list [Atom (parent_coin_info (cs_coin s)); puzzle; sexp_of_bigint (amount (cs_coin s)); sol] :: rest)
  end.

Definition build_generator_tree (l : list CoinSpend) : clvm SExp :=
  items ← generator_items l;
  Ok (Pair (Atom [1]) (sexp_from_list [sexp_from_list items])).

Definition simple_solution_generator (l : list CoinSpend) : clvm (list Z) :=
  t ← build_generator_tree l; from_io (sexp_to_bytes t).

Definition solution_generator_from_coin_spends (l : list CoinSpend) : clvm (list Z) :=
  simple_solution_generator (rev l).

Definition compressed_solution_generator_from_coin_spends (l : list CoinSpend) : clvm (list Z) :=
  t ← build_generator_tree (rev l);
  match sexp_to_bytes_backrefs (live t) with Ok bs => Ok bs | Err _ => Err SerializationError | Panic => Panic end.
End execute.

(** * Theorems *)

(** ** Puzzle hashes through the cache *)
Lemma node_ref_list_erase n : map erase (node_ref_list n) = ref_list (erase n).
Proof. induction n as [a|k f IHf r IHr]; cbn [node_ref_list erase ref_list]; [by destruct (sexp_non_nil (Atom a))|]. cbn. by rewrite IHr. Qed.

Lemma node_ref_list_coherent env n : coherent env n → Forall (coherent env) (node_ref_list n).
Proof.
  induction n as [a|k f IHf r IHr]; cbn [node_ref_list]; intros Hn.
  - destruct (sexp_non_nil (Atom a)); by repeat constructor.
  - destruct Hn as (_ & Hf & Hr). constructor; auto.
Qed.

Fixpoint puzzles (l : list SExp) : list SExp :=
  match l with
  | [] => []
  | s :: l => match ref_list s with _ :: puzzle :: _ :: _ :: _ => puzzle :: puzzles l | _ => [] end
  end.

Lemma reveals_erase l : map erase (reveals l) = puzzles (map erase l).
Proof.
  induction l as [|n l IH]; [done|]. cbn [reveals puzzles map]. rewrite <- node_ref_list_erase.
  destruct (node_ref_list n) as [|a [|b [|c [|d tl]]]]; cbn; try done. by rewrite IH.
Qed.

Lemma reveals_coherent env l : Forall (coherent env) l → Forall (coherent env) (reveals l).
Proof.
  induction 1 as [|n l Hn Hl IH]; cbn [reveals]; [constructor|]. apply node_ref_list_coherent in Hn.
  destruct (node_ref_list n) as [|a [|b [|c [|d tl]]]]; try constructor; [|done].
  apply Forall_cons in Hn as [_ Hn]. apply Forall_cons in Hn as [Hn _]. done.
Qed.

Definition stack_size (l : list node) : nat := foldr (λ n acc, node_size n + acc)%nat 0%nat l.

Lemma visit_loop_total fuel counts stack : (stack_size stack < fuel)%nat → is_Some (visit_loop fuel counts stack).
Proof.
  revert counts stack. induction fuel as [|fuel IH]; intros cs stack Hf; [lia|]. cbn [visit_loop].
  destruct stack as [|[a|k f r] stack]; unfold stack_size in *; cbn [foldr node_size] in Hf; [done|apply IH; lia|].
  destruct (1 <=? _); apply IH; cbn [foldr]; lia.
Qed.

Lemma visit_all_ok l c : hashes c = ∅ → ∃ c', visit_all l c = Ok c' ∧ hashes c' = ∅.
Proof.
  revert c. induction l as [|n l IH]; intros c Hc; cbn [visit_all]; [by exists c|].
  unfold visit_tree. destruct (visit_loop_total (S (node_size n)) (counts c) [n]) as [m Hm]; [cbn; lia|].
  rewrite Hm. cbn [mbind option_bind expect res_bind]. by apply IH.
Qed.

Lemma hash_all_ok `{Sha256} env l c :
  Forall (coherent env) l → cache_ok env c → hash_all l c = Ok (map (λ n, tree_hash (erase n)) l).
Proof.
  intros Hl. revert c. induction Hl as [|n l Hn Hl IH]; intros c Hc; cbn [hash_all map]; [done|].
  destruct (cache_tree_hash_spec env n c (S (3 * node_size n)) Hn Hc ltac:(lia)) as (c' & Hh & Hc').
  rewrite Hh. cbn [mbind res_bind]. by rewrite (IH c' Hc').
Qed.

Lemma reveal_hashes_ok `{Sha256} env g :
  coherent env g →
  simple_generator_reveal_hashes g =
    Ok (match erase g with Pair _ (Pair all _) => Some (map tree_hash (puzzles (ref_list all))) | _ => None end).
Proof.
  intros Hg. destruct g as [a|k q [a|k' all tl]]; [done|done|]. cbn [simple_generator_reveal_hashes erase].
  destruct Hg as (_ & _ & _ & Hall & _).
  destruct (visit_all_ok (reveals (node_ref_list all)) cache_default eq_refl) as (c & Hv & Hc).
  cbv zeta. rewrite Hv. cbn [mbind res_bind]. rewrite (hash_all_ok env).
  - cbn [mbind res_bind]. do 2 f_equal. rewrite <- node_ref_list_erase, <- reveals_erase, map_map. done.
  - by apply reveals_coherent, node_ref_list_coherent.
  - intros a h. by rewrite Hc, lookup_empty.
Qed.

Section hashes.
Context `{BigIntBytes, Sha256}.

Lemma spend_parts_puzzle t parent puzzle amount solution :
  spend_parts t = Ok (parent, puzzle, amount, solution) → ∃ tl, ref_list t = parent :: puzzle :: amount :: solution :: tl.
Proof. unfold spend_parts. destruct (ref_list t) as [|a [|b [|c [|d tl]]]]; try done. intros [= -> -> -> ->]. eauto. Qed.

(** Precomputed hashes of the leading spends change nothing. *)
Lemma generator_spends_hashes run_puzzle max_cost hs l index st :
  (∀ i, hs !! (index + i)%nat = tree_hash <$> puzzles l !! i) →
  generator_spends run_puzzle max_cost (Some hs) index l st = generator_spends run_puzzle max_cost None index l st.
Proof.
  revert index st. induction l as [|t l IH]; intros index st Hh; [done|]. cbn [generator_spends].
  assert (Hone : generator_spend run_puzzle max_cost (Some hs) index t st = generator_spend run_puzzle max_cost None index t st).
  { unfold generator_spend. destruct (spend_parts t) as [[[[parent puzzle] amt] sol]| |] eqn:Hp; [|done|done].
    apply spend_parts_puzzle in Hp as [tl Hp]. cbn [mbind res_bind option_bind]. specialize (Hh 0%nat).
    rewrite Nat.add_0_r in Hh. cbn [puzzles] in Hh. rewrite Hp in Hh. cbn in Hh. rewrite Hh. done. }
  rewrite Hone. destruct (generator_spend run_puzzle max_cost None index t st) as [[st'|e|]|] eqn:Hg; [|done..].
  cbn [obind]. apply IH. intros i. specialize (Hh (S i)). rewrite Nat.add_succ_r in Hh. cbn [Nat.add]. rewrite Hh.
  cbn [puzzles]. unfold generator_spend in Hg. apply obind_Ok in Hg as (x & Hx & _). injection Hx as Hx.
  apply bind_Ok_inv in Hx as ([[[parent puzzle] amt] sol] & [tl ->]%spend_parts_puzzle & _). done.
Qed.
End hashes.

(** ** Lists and numbers in a generator *)
Lemma ref_list_from_list l : ref_list (sexp_from_list l) = l.
Proof. rewrite sexp_from_list_foldr. induction l as [|t l IH]; cbn; [done|]. by rewrite IH. Qed.

Lemma sexp_ok_from_list l : Forall sexp_ok l → sexp_ok (sexp_from_list l).
Proof. rewrite sexp_from_list_foldr. induction 1; cbn; [by constructor|done]. Qed.

(** The bytes of a list, given those of its elements. *)
Definition list_bytes (bss : list (list Z)) : list Z := concat (map (cons CONS_BOX_MARKER) bss) ++ [0x80].

Lemma enc_from_list l bss : Forall2 (λ t bs, enc t = Ok bs) l bss → enc (sexp_from_list l) = Ok (list_bytes bss).
Proof.
  rewrite sexp_from_list_foldr. unfold list_bytes. induction 1 as [|t bs l bss Ht Hl IH]; cbn; [done|].
  rewrite Ht. cbn [mbind res_bind]. rewrite IH. cbn [mbind res_bind]. by rewrite (assoc_L (++)).
Qed.

Lemma zlen_list_bytes bss : zlen (list_bytes bss) = 1 + sum_of (λ bs, 1 + zlen bs) bss.
Proof.
  unfold list_bytes, sum_of. rewrite zlen_app. change (zlen [0x80]) with 1.
  induction bss as [|bs bss IH]; cbn [map concat foldr]; [done|].
  rewrite zlen_app, zlen_cons. lia.
Qed.

Lemma from_serial_enc t bs : sexp_ok t → sexp_to_bytes t = Ok bs → from_serial bs = Ok t.
Proof.
  rewrite sexp_to_bytes_enc. intros Ht Hbs. unfold from_serial.
  rewrite (parse_canon t bs [] (Cursor bs 0)); [done|by apply enc_canon|by rewrite app_nil_r].
Qed.

Section amounts.
Context `{BigIntBytesOk}.

Lemma sexp_of_bigint_eq v : sexp_of_bigint v = Atom (bigint_to_bytes v true).
Proof. unfold sexp_of_bigint, bigint_sign, bigint_to_bytes. destruct (Z.eqb_spec v 0); [done|]. by destruct (0 <? v). Qed.

Lemma parse_amount_bigint v : uok 64 v → parse_amount (Atom (bigint_to_bytes v true)) = Ok v.
Proof.
  intros Hv. destruct (bigint_to_bytes_spec v) as (Hb & _ & Hval). unfold parse_amount. cbn [sexp_as_int mbind res_bind].
  destruct (number_of_atom_spec _ Hb) as [_ Hn]. rewrite Hval in Hn.
  assert (to_u64 (number_of_atom (bigint_to_bytes v true)) = Some v) as ->; [|done].
  unfold to_u64. destruct (number_of_atom _) as [i|b]; cbn in Hn; subst; by apply checked_ok.
Qed.

(** The length the producer predicts for an amount. *)
Lemma amount_bytes_len v :
  uok 64 v → ∃ bs, atom_to_bytes (bigint_to_bytes v true) = Ok bs ∧ zlen bs = clvm_bytes_len v.
Proof.
  intros Hv. destruct (bigint_to_bytes_spec v) as (Hb & Hc & Hval). set (a := bigint_to_bytes v true) in *.
  assert (Hlen : serialized_length_atom a = clvm_bytes_len v ∧ zlen a < 0x40).
  { unfold uok in Hv. destruct a as [|b [|b1 l]].
    - cbn in Hval. subst v. done.
    - cbn [atom_value] in Hval. rewrite from_be_signed_cons in Hval by done. change (zlen (@nil Z)) with 0 in Hval.
      change (from_be []) with 0 in Hval. rewrite Z.pow_0_r, Z.mul_1_r, Z.add_0_r in Hval. apply bytes_ok_cons in Hb as [Hb _]. unfold byte_ok in Hb. cbn in Hc.
      destruct (Z.ltb_spec b 128) as [Hlt|Hge]; [|lia]. assert (v = b) as -> by lia. unfold serialized_length_atom, clvm_bytes_len.
      cbn. by rewrite (proj2 (Z.ltb_lt b 128)).
    - cbn [atom_value] in Hval. pose proof (from_be_signed_bounds _ Hb ltac:(done)) as Hup. rewrite Hval in Hup.
      pose proof (canon_lower _ b (b1 :: l) eq_refl Hb Hc ltac:(done)) as Hlo. rewrite Hval in Hlo.
      rewrite zlen_cons in Hup. set (k := zlen (b1 :: l)) in *. assert (1 ≤ k) by (subst k; rewrite zlen_cons; pose proof (zlen_nonneg l); lia).
      assert (k ≤ 8).
      { destruct (Z.le_gt_cases k 8) as [|Hk]; [done|]. exfalso. apply Hlo.
        pose proof (Z.pow_le_mono_r 2 71 (8 * k - 1) ltac:(lia) ltac:(lia)). lia. }
      assert (Hk1 : zlen (b :: b1 :: l) = 1 + k) by (subst k; rewrite (zlen_cons b); lia).
      unfold serialized_length_atom, clvm_bytes_len. cbv zeta. rewrite !Hk1.
      rewrite (proj2 (Z.eqb_neq (1 + k) 0)), (proj2 (Z.eqb_neq (1 + k) 1)), (proj2 (Z.ltb_lt (1 + k) 64)) by lia. cbn [orb andb].
      split; [|lia]. assert (k = 1 ∨ k = 2 ∨ k = 3 ∨ k = 4 ∨ k = 5 ∨ k = 6 ∨ k = 7 ∨ k = 8) as Hk by lia.
      clear Hb Hc Hval. clearbody k.
      destruct Hk as [->|[->|[->|[->|[->|[->|[->| ->]]]]]]]; cbn in Hup, Hlo;
        repeat (match goal with |- context [?x <? ?y] => destruct (Z.ltb_spec x y); try lia end). }
  destruct Hlen as [Hlen Hsmall].
  assert (∃ bs, atom_to_bytes a = Ok bs) as [bs Hbs].
  { destruct (encode_size_ok (zlen a)) as [sz Hsz]; [pose proof (zlen_nonneg a); lia|]. unfold atom_to_bytes.
    destruct a as [|x [|y l]]; [eexists; reflexivity| |]; [destruct (x <=? _); [eexists; reflexivity|]|]; rewrite Hsz; eexists; reflexivity. }
  exists bs. split; [done|]. by rewrite <- (atom_bytes_length _ _ Hbs).
Qed.
End amounts.

(** ** The producer's tree *)
Section producer.
Context `{BigIntBytesOk, Sha256Ok}.

(** A spend as a wallet submits it: the serialized puzzle and solution are
    those of the trees [x], and the coin's puzzle hash is the puzzle's. *)
Record good_spend (s : CoinSpend) (x : SExp * SExp) : Prop := {
  good_puzzle : sexp_ok x.1;
  good_reveal : sexp_to_bytes x.1 = Ok (puzzle_reveal s);
  good_solution : sexp_ok x.2;
  good_bytes : sexp_to_bytes x.2 = Ok (solution s);
  good_parent : length (parent_coin_info (cs_coin s)) = 32%nat;
  good_parent_ok : bytes_ok (parent_coin_info (cs_coin s));
  good_amount : uok 64 (amount (cs_coin s));
  good_hash : puzzle_hash (cs_coin s) = tree_hash x.1;
}.

Definition spend_tree (s : CoinSpend) (x : SExp * SExp) : SExp :=
  sexp_from_list [Atom (parent_coin_info (cs_coin s)); x.1; Atom (bigint_to_bytes (amount (cs_coin s)) true); x.2].
(** What the generator quotes, and the generator. *)
Definition output_tree (l : list CoinSpend) (xs : list (SExp * SExp)) : SExp :=
  Pair (sexp_from_list (zip_with spend_tree l xs)) NULL_SEXP.
Definition generator_tree (l : list CoinSpend) (xs : list (SExp * SExp)) : SExp := Pair (Atom [1]) (output_tree l xs).

Lemma build_ok l xs : Forall2 good_spend l xs → build_generator_tree l = Ok (generator_tree l xs).
Proof.
  intros Hl. unfold build_generator_tree.
  assert (generator_items l = Ok (zip_with spend_tree l xs)) as ->; [|done].
  induction Hl as [|s x l xs Hs Hl IH]; cbn [generator_items zip_with]; [done|].
  rewrite (from_serial_enc x.1 (puzzle_reveal s)), (from_serial_enc x.2 (solution s)) by apply Hs. cbn [mbind res_bind]. rewrite IH. cbn [mbind res_bind].
  by rewrite sexp_of_bigint_eq.
Qed.

Lemma good_spend_ok s x : good_spend s x → sexp_ok (spend_tree s x).
Proof.
  intros Hs. apply sexp_ok_from_list. repeat constructor; try apply Hs. cbn. apply bigint_to_bytes_spec.
Qed.

Lemma output_ok l xs : Forall2 good_spend l xs → sexp_ok (output_tree l xs).
Proof.
  intros Hl. split; [|by constructor]. apply sexp_ok_from_list.
  induction Hl; cbn; constructor; [by apply good_spend_ok|done].
Qed.

Lemma generator_ok l xs : Forall2 good_spend l xs → sexp_ok (generator_tree l xs).
Proof. intros Hl. split; [by repeat constructor|by apply output_ok]. Qed.

(** The bytes of a spend. *)
Lemma spend_enc s x :
  good_spend s x →
  ∃ bs, enc (spend_tree s x) = Ok bs ∧
    zlen bs = 38 + zlen (puzzle_reveal s) + clvm_bytes_len (amount (cs_coin s)) + zlen (solution s).
Proof.
  intros [_ Hp _ Hsol Hpar _ Ham _]. rewrite sexp_to_bytes_enc in Hp, Hsol.
  destruct (amount_bytes_len _ Ham) as (ba & Hba & Hlen).
  assert (Hparent : ∃ bp, atom_to_bytes (parent_coin_info (cs_coin s)) = Ok bp ∧ zlen bp = 33).
  { exists (0xa0 :: parent_coin_info (cs_coin s)). unfold zlen. cbn [length]. rewrite Hpar.
    split; [|done]. unfold atom_to_bytes, zlen. rewrite Hpar.
    destruct (parent_coin_info (cs_coin s)) as [|a [|b l]]; [done|done|]. done. }
  destruct Hparent as (bp & Hbp & Hbl).
  exists (list_bytes [bp; puzzle_reveal s; ba; solution s]). split.
  - apply enc_from_list. repeat constructor; done.
  - rewrite zlen_list_bytes. unfold sum_of. cbn [foldr]. lia.
Qed.

(** The predicted length is the length of the plain generator. *)
Lemma generator_enc l xs :
  Forall2 good_spend l xs →
  ∃ tl, enc (generator_tree l xs) = Ok (CONS_BOX_MARKER :: 1 :: tl) ∧
    zlen (CONS_BOX_MARKER :: 1 :: tl) = spend_bundle_generator_length l.
Proof.
  intros Hl.
  assert (∃ bss, Forall2 (λ t bs, enc t = Ok bs) (zip_with spend_tree l xs) bss ∧
    sum_of (λ bs, 1 + zlen bs) bss =
    sum_of (λ s, 39 + zlen (puzzle_reveal s) + clvm_bytes_len (amount (cs_coin s)) + zlen (solution s)) l) as (bss & Hbss & Hsum).
  { induction Hl as [|s x l xs Hs Hl (bss & IH & Hsum)]; [exists []; split; [constructor|done]|].
    destruct (spend_enc s x Hs) as (bs & Hbs & Hlen). exists (bs :: bss). split; [by constructor|].
    unfold sum_of in *. cbn [foldr]. lia. }
  exists (CONS_BOX_MARKER :: list_bytes bss ++ [0x80]). split.
  - unfold generator_tree, output_tree. cbn [enc]. rewrite (enc_from_list _ _ Hbss). done.
  - rewrite !zlen_cons, zlen_app, zlen_list_bytes, Hsum. change (zlen [0x80]) with 1.
    assert (Hf : ∀ n, foldl (λ size s, size + (39 + zlen (puzzle_reveal s) + clvm_bytes_len (amount (cs_coin s)) + zlen (solution s))) n l =
      n + sum_of (λ s, 39 + zlen (puzzle_reveal s) + clvm_bytes_len (amount (cs_coin s)) + zlen (solution s)) l).
    { clear. unfold sum_of. induction l as [|s l IH]; intros n; cbn [foldl foldr]; [lia|]. rewrite IH. lia. }
    unfold spend_bundle_generator_length. rewrite Hf. lia.
Qed.

(** ** What the producer can have built from spends in the block's order *)
Context `{!Memory, !MemoryOk}.

Inductive produced (l : list CoinSpend) (xs : list (SExp * SExp)) (g : list Z) : Prop :=
  | produced_plain : simple_solution_generator l = Ok g → produced l xs g
  | produced_reversed : solution_generator_from_coin_spends (rev l) = Ok g → produced l xs g
  | produced_compressed :
      compressed_solution_generator_from_coin_spends (rev l) = Ok g →
      4 * Z.of_nat (sexp_size (generator_tree l xs)) + 1 < 2 ^ 32 →
      collision_free (writer_strings (generator_tree l xs)) → produced l xs g.

Lemma simple_ok l xs : Forall2 good_spend l xs → simple_solution_generator l = from_io (enc (generator_tree l xs)).
Proof. intros Hl. unfold simple_solution_generator. rewrite (build_ok l xs Hl). cbn [mbind res_bind]. by rewrite sexp_to_bytes_enc. Qed.

Lemma live_quote l xs : ∃ k k1 r, live (generator_tree l xs) = LPair k (LAtom k1 [1]) r.
Proof.
  pose proof (live_tree (generator_tree l xs)) as Ht. destruct (live _) as [k a|k [k1 a|k1 f r'] r]; try discriminate.
  injection Ht as -> _. eauto.
Qed.

Lemma compressed_ok l xs :
  Forall2 good_spend l xs → 4 * Z.of_nat (sexp_size (generator_tree l xs)) + 1 < 2 ^ 32 →
  collision_free (writer_strings (generator_tree l xs)) →
  ∃ tl, compressed_solution_generator_from_coin_spends (rev l) = Ok (CONS_BOX_MARKER :: 1 :: tl) ∧
    zlen (CONS_BOX_MARKER :: 1 :: tl) ≤ spend_bundle_generator_length l ∧
    to_program_backrefs (CONS_BOX_MARKER :: 1 :: tl) = Ok (generator_tree l xs).
Proof.
  intros Hl Hsize Hcf. unfold compressed_solution_generator_from_coin_spends. rewrite rev_involutive, (build_ok l xs Hl).
  cbn [mbind res_bind]. destruct (generator_enc l xs Hl) as (tl & Henc & Hlen). rewrite <- sexp_to_bytes_enc in Henc.
  destruct (live_placed (generator_tree l xs)) as [env Hp]. pose proof (live_tree (generator_tree l xs)) as Ht.
  rewrite <- Ht in Hsize, Hcf, Henc. pose proof (generator_ok l xs Hl) as Hok. rewrite <- Ht in Hok.
  destruct (backref_writer_spec env _ _ Hp Hok Hsize Hcf Henc) as (bs & Hbs & Hle & Hparse).
  destruct (live_quote l xs) as (k & k1 & r & Hq). rewrite Hq in Hp, Hcf, Hbs.
  destruct (backref_writer_head env k k1 [1] r [1] bs Hp Hcf ltac:(done) eq_refl Hbs) as [tl' Htl].
  cbn [app] in Htl. rewrite Hq, Hbs. subst bs. exists tl'. split; [done|]. split; [by rewrite <- Hlen|]. unfold to_program_backrefs.
  rewrite (Hparse (Cursor (CONS_BOX_MARKER :: 1 :: tl') 0) []) by (cbn; by rewrite app_nil_r). cbn [mbind res_bind]. by rewrite Ht.
Qed.

(** However it was written, the validator decodes the tree and sees a
    quotation. *)
Lemma produced_decodes l xs g :
  Forall2 good_spend l xs → produced l xs g →
  to_program_backrefs g = Ok (generator_tree l xs) ∧ check_simple_generator g (generator_tree l xs) = Ok tt.
Proof.
  intros Hl Hg. assert (to_program_backrefs g = Ok (generator_tree l xs) ∧ ∃ tl, g = CONS_BOX_MARKER :: 1 :: tl) as [Hd [tl ->]]; [|done].
  assert (Hplain : simple_solution_generator l = Ok g →
    to_program_backrefs g = Ok (generator_tree l xs) ∧ ∃ tl, g = CONS_BOX_MARKER :: 1 :: tl).
  { rewrite (simple_ok l xs Hl). destruct (generator_enc l xs Hl) as (tl & Henc & _). rewrite Henc. intros [= <-].
    split; [|by exists tl]. unfold to_program_backrefs.
    rewrite (decodes_parse (CONS_BOX_MARKER :: 1 :: tl) (generator_tree l xs) (Cursor (CONS_BOX_MARKER :: 1 :: tl) 0) []);
      [done| |cbn; by rewrite app_nil_r].
    apply decodes_enc; [by apply generator_ok|done]. }
  destruct Hg as [Hg|Hg|Hg Hsize Hcf]; [by apply Hplain| |].
  - apply Hplain. unfold solution_generator_from_coin_spends in Hg. by rewrite rev_involutive in Hg.
  - destruct (compressed_ok l xs Hl Hsize Hcf) as (tl & Hc & _ & Hd). rewrite Hc in Hg. injection Hg as <-. eauto.
Qed.
End producer.

(** ** Running a quotation *)
Section validator.
Context `{BigIntBytesOk, Sha256Ok, BlstOk, !Memory, !MemoryOk}.

(** The machine stopped at a limit of the arena. *)
Definition stopped {A} (x : option (clvm A)) : Prop := ∃ e, x = Some (Err e) ∧ limit_error e.

Lemma run_quote flags fuel export_fuel max_cost t :
  QUOTE_COST ≤ max_cost < 2 ^ 64 → sexp_ok t → room (2 + sexp_bytes t) max_cost →
  4 * max_cost < Z.of_nat fuel → (tree_size t ≤ export_fuel)%nat →
  run flags fuel export_fuel max_cost (Pair (Atom [1]) t) NULL_SEXP = Some (Ok (QUOTE_COST, t)) ∨
  stopped (run flags fuel export_fuel max_cost (Pair (Atom [1]) t) NULL_SEXP).
Proof.
  intros Hc Ht Hr Hf Hex. assert (0 < QUOTE_COST) by done.
  pose proof (run_spec flags fuel export_fuel max_cost (Pair (Atom [1]) t) NULL_SEXP) as Hrun. cbv zeta in Hrun.
  unfold effective_max_cost in Hrun. rewrite (proj2 (Z.eqb_neq max_cost 0)) in Hrun by lia.
  destruct Hrun as (r & Hev & Hrun); [lia|split; [by repeat constructor|done]|by constructor| |done|].
  { unfold room, input_bytes in *. cbn [sexp_bytes NULL_SEXP]. change (zlen [1]) with 1. change (zlen (@nil Z)) with 0. lia. }
  cbn [eval] in Hev. rewrite bool_decide_eq_true_2 in Hev by done. injection Hev as <-.
  assert (Hpay : pay max_cost max_cost false 0 QUOTE_COST t = Ok (QUOTE_COST, t)).
  { transitivity (if max_cost <? QUOTE_COST then Err (CostExceeded QUOTE_COST max_cost) else Ok (QUOTE_COST, t)); [reflexivity|].
    by rewrite (proj2 (Z.ltb_ge _ _)) by lia. }
  rewrite Hpay in Hrun. destruct Hrun as (m & Hm & Hrel); [intros c t' Heq; injection Heq as _ <-; exact Hex|].
  rewrite Hm. destruct Hrel as [(e & -> & He)|Hrel]; [right; by exists e|left].
  destruct m as [m|e|]; [|done|done]. cbn in Hrel. by subst m.
Qed.

(** ** The query side *)
Lemma query_ok s x : good_spend s x → query_spend (spend_tree s x) = Ok (cs_coin s, x.1, x.2) ∧ spend_of (cs_coin s, x.1, x.2) = Ok s.
Proof.
  intros [_ Hp _ Hs Hpar _ Ham Hh]. unfold query_spend, spend_parts, spend_of, serialized. split.
  - unfold spend_tree. rewrite ref_list_from_list. cbn [mbind res_bind parse_atom]. unfold sized_parse.
    rewrite bool_decide_eq_false_2 by lia. rewrite Hpar, Nat.sub_diag. cbn [replicate app mbind res_bind].
    rewrite parse_amount_bigint by done. cbn [mbind res_bind map_err]. rewrite <- Hh. by destruct s as [[]].
  - rewrite Hp, Hs. by destruct s.
Qed.

Lemma query_spends_ok l xs f ef fl cost :
  Forall2 good_spend l xs → query_spends f ef fl cost false (zip_with spend_tree l xs) = Some (Ok (map (λ s, (s, [])) l)).
Proof.
  induction 1 as [|s x l' xs' Hs Hl IH]; cbn [query_spends zip_with map]; [done|].
  destruct (query_ok s x Hs) as [-> Hsp]. cbn [obind]. rewrite Hsp. cbn [obind]. by rewrite IH.
Qed.

Lemma find_spend_ok l xs id :
  Forall2 good_spend l xs → find_spend id (zip_with spend_tree l xs) = Ok (snd <$> list_find (λ s, coin_id (cs_coin s) = id) l).
Proof.
  induction 1 as [|s x l' xs' Hs Hl IH]; cbn [find_spend zip_with list_find]; [done|].
  destruct (query_ok s x Hs) as [-> Hsp]. cbn [mbind res_bind fst]. case_bool_decide as Hid.
  - rewrite decide_True by done. by rewrite Hsp.
  - rewrite decide_False by done. rewrite IH. by destruct (list_find _ l') as [[]|].
Qed.

(** A block that carries the generator [g] alone, within its limits. *)
Record simple_input (input : BlockGeneratorInput) (g : list Z) : Prop := {
  in_generator : transactions_generator input = g;
  in_refs : generator_refs input = [];
  in_simple : simple_generator (input_flags input) = true;
  in_size : zlen g ≤ max_generator_size (constants input);
  in_ref_limit : 0 ≤ max_generator_ref_list_size (constants input);
  in_byte_cost : 0 ≤ cost_per_byte (constants input);
  in_max : max_block_cost_clvm (constants input) < 2 ^ 64;
  in_budget : zlen g * cost_per_byte (constants input) + QUOTE_COST ≤ max_block_cost_clvm (constants input);
}.

Context (l : list CoinSpend) (xs : list (SExp * SExp)) (g : list Z) (input : BlockGeneratorInput) (fuel export_fuel : nat).
Hypothesis Hgood : Forall2 good_spend l xs.
Hypothesis Hproduced : produced l xs g.
Hypothesis Hinput : simple_input input g.
Notation max_cost := (max_block_cost_clvm (constants input)).
Notation byte_cost := (zlen g * cost_per_byte (constants input)).
Notation flags := (clvm_flags (input_flags input)).
Hypothesis Hfuel : 4 * max_cost < Z.of_nat fuel.
Hypothesis Hexport : (tree_size (output_tree l xs) ≤ export_fuel)%nat.
Hypothesis Hroom : room (2 + sexp_bytes (output_tree l xs)) max_cost.

Lemma byte_cost_nonneg : 0 ≤ byte_cost.
Proof. pose proof (zlen_nonneg g). pose proof (in_byte_cost _ _ Hinput). nia. Qed.

Lemma byte_budget_ok : byte_budget input = Ok (byte_cost, max_cost - byte_cost).
Proof.
  destruct Hinput as [Hg _ _ _ _ _ Hm Hb]. pose proof byte_cost_nonneg. assert (0 < QUOTE_COST) by done.
  unfold byte_budget. rewrite Hg, checked_ok by (unfold uok; lia). cbn [ok_or mbind res_bind].
  by rewrite checked_ok by (unfold uok; lia).
Qed.

Lemma generator_guards_ok : generator_guards input = Ok (generator_tree l xs, byte_cost, max_cost - byte_cost).
Proof.
  pose proof byte_budget_ok as Hbb. destruct (produced_decodes l xs g Hgood Hproduced) as [Hd Hc].
  destruct Hinput as [Hg Hr Hs Hz Hl _ _ _]. unfold generator_guards. rewrite Hg, Hr, Hs.
  rewrite (proj2 (Z.ltb_ge _ _)) by done. change (zlen (@nil GeneratorReference)) with 0. rewrite (proj2 (Z.ltb_ge _ _)) by done.
  cbn [check_refs mbind res_bind andb negb]. rewrite bool_decide_eq_true_2 by done. cbn [negb].
  rewrite Hd. cbn [map_err mbind res_bind]. rewrite Hc. cbn [mbind res_bind]. rewrite Hbb. done.
Qed.

Notation quoted := (run flags fuel export_fuel (max_cost - byte_cost) (generator_tree l xs) NULL_SEXP).

Lemma quoted_ok : quoted = Some (Ok (QUOTE_COST, output_tree l xs)) ∨ stopped quoted.
Proof.
  pose proof byte_cost_nonneg. destruct Hinput as [_ _ _ _ _ _ Hm Hb].
  apply run_quote; [lia|by apply output_ok| |lia|done]. unfold room in *. lia.
Qed.

(** The hashes the validator precomputes are those of the puzzles. *)
Lemma hashes_generator : ∃ hs, simple_generator_reveal_hashes (place (generator_tree l xs)) = Ok (Some hs) ∧
  hs = map tree_hash (puzzles (zip_with spend_tree l xs)).
Proof.
  destruct (place_coherent (generator_tree l xs)) as [env Hc]. rewrite (reveal_hashes_ok env _ Hc), place_erase.
  unfold generator_tree, output_tree. rewrite ref_list_from_list. eauto.
Qed.

Lemma hashed_output run_puzzle cost :
  generator_output run_puzzle (output_tree l xs) cost max_cost (Some (map tree_hash (puzzles (zip_with spend_tree l xs)))) =
  generator_output run_puzzle (output_tree l xs) cost max_cost None.
Proof.
  unfold generator_output, output_tree. cbn [sexp_first obind]. rewrite ref_list_from_list, generator_spends_hashes; [done|].
  intros i. cbn [Nat.add]. apply list_lookup_fmap.
Qed.

Lemma produced_executes r :
  block_conditions flags (constants input) max_cost (byte_cost + QUOTE_COST) None (output_tree l xs) = Some (Ok r) →
  execute_block_generator_result fuel export_fuel input = Some (Ok r) ∨ stopped quoted ∨
  stopped (conditions_from_generator_output fuel (output_tree l xs) (byte_cost + QUOTE_COST) max_cost flags (constants input) None).
Proof.
  intros Hr. pose proof byte_cost_nonneg. pose proof (in_max _ _ Hinput). pose proof (in_budget _ _ Hinput). assert (0 < QUOTE_COST) by done.
  destruct quoted_ok as [Hq|Hq]; [|by right; left].
  destruct hashes_generator as (hs & Hh & Hhs).
  destruct (generator_output_spec fuel (output_tree l xs) (byte_cost + QUOTE_COST) max_cost flags (constants input) None) as [Hspec _];
    [lia|lia|done|by apply output_ok|unfold room in *; lia|].
  specialize (Hspec r Hr). destruct Hspec as [Hok|Hstop]; [left|by right; right].
  unfold execute_block_generator_result. rewrite generator_guards_ok. cbn [obind]. rewrite (in_simple _ _ Hinput), Hq.
  cbn [fmap option_fmap option_map map_err obind]. rewrite checked_ok by (unfold uok; lia). cbn [ok_or obind].
  rewrite Hh. cbn [map_err obind]. unfold conditions_from_generator_output in *. rewrite Hhs, hashed_output, Hok. done.
Qed.

Lemma simple_output_ok :
  simple_output fuel export_fuel input = Some (Ok (max_cost - byte_cost, sexp_from_list (zip_with spend_tree l xs))) ∨ stopped quoted.
Proof.
  destruct quoted_ok as [Hq|Hq]; [left|by right]. pose proof byte_budget_ok as Hbb.
  destruct (produced_decodes l xs g Hgood Hproduced) as [Hd Hc].
  destruct Hinput as [Hg Hr Hs Hz Hl _ _ _]. unfold simple_output. rewrite Hg, Hs. cbn [negb].
  rewrite (proj2 (Z.ltb_ge _ _)) by done. rewrite Hd. cbn [map_err mbind res_bind]. rewrite Hc. cbn [mbind res_bind]. rewrite Hbb.
  cbn [mbind res_bind obind]. rewrite Hq. done.
Qed.
End validator.

(** ** The theorems *)
Section theorems.
Context `{BigIntBytesOk, Sha256Ok, BlstOk, !Memory, !MemoryOk}.

(** Hashing the puzzles of a simple generator through the shared-subtree
    cache never fails and changes nothing: the conditions of the block are
    those collected with every puzzle hashed on its own. *)
Theorem reveal_hashes_sound q rest :
  ∃ hashes, simple_generator_reveal_hashes (place (Pair q rest)) = Ok hashes ∧
    ∀ fuel cost max_cost flags c,
      conditions_from_generator_output fuel rest cost max_cost flags c hashes =
      conditions_from_generator_output fuel rest cost max_cost flags c None.
Proof.
  destruct (place_coherent (Pair q rest)) as [env Hc]. rewrite (reveal_hashes_ok env _ Hc), place_erase.
  eexists. split; [done|]. intros fuel cost max_cost flags c. destruct rest as [a|all tl]; [done|].
  unfold conditions_from_generator_output, generator_output. cbn [sexp_first obind]. rewrite generator_spends_hashes; [done|].
  intros i. cbn [Nat.add]. apply list_lookup_fmap.
Qed.

(** The producer succeeds on well-formed spends.  The plain generator has
    exactly the length that [spend_bundle_generator_length] predicts for the
    mempool's cost, and the compressed one is not longer. *)
Theorem producer_length l xs :
  Forall2 good_spend l xs → 4 * Z.of_nat (sexp_size (generator_tree l xs)) + 1 < 2 ^ 32 →
  collision_free (writer_strings (generator_tree l xs)) →
  ∃ plain compressed,
    simple_solution_generator l = Ok plain ∧ zlen plain = spend_bundle_generator_length l ∧
    compressed_solution_generator_from_coin_spends (rev l) = Ok compressed ∧ zlen compressed ≤ zlen plain.
Proof.
  intros Hl Hsize Hcf. destruct (generator_enc l xs Hl) as (tl & Henc & Hlen).
  destruct (compressed_ok l xs Hl Hsize Hcf) as (tl' & Hc & Hle & _).
  eexists _, _. rewrite (simple_ok l xs Hl), Henc. split; [done|]. split; [done|]. split; [done|]. lia.
Qed.

(** C8: What the producer builds, the validator accepts.  Let [g] be a generator
    built from well-formed spends, plain or compressed, in a block within its
    limits.  If the specification gives the spends conditions [r] within the
    block's cost, executing the block returns [r], unless a run stopped at a
    limit of the arena. *)
Theorem producer_accepted l xs g input fuel export_fuel r :
  let c := constants input in let max_cost := max_block_cost_clvm c in
  let flags := clvm_flags (input_flags input) in let byte_cost := zlen g * cost_per_byte c in
  Forall2 good_spend l xs → produced l xs g → simple_input input g →
  4 * max_cost < Z.of_nat fuel → (tree_size (output_tree l xs) ≤ export_fuel)%nat →
  room (2 + sexp_bytes (output_tree l xs)) max_cost →
  block_conditions flags c max_cost (byte_cost + QUOTE_COST) None (output_tree l xs) = Some (Ok r) →
  execute_block_generator_result fuel export_fuel input = Some (Ok r) ∨
  stopped (run flags fuel export_fuel (max_cost - byte_cost) (generator_tree l xs) NULL_SEXP) ∨
  stopped (conditions_from_generator_output fuel (output_tree l xs) (byte_cost + QUOTE_COST) max_cost flags c None).
Proof. cbv zeta. intros Hl Hg Hi Hf He Hr. by apply (produced_executes l xs g input fuel export_fuel). Qed.

(** The query side returns what the producer was given: all the spends, in
    the block's order, and for a coin id the first spend of that coin. *)
Theorem producer_roundtrip l xs g input fuel export_fuel :
  let c := constants input in let max_cost := max_block_cost_clvm c in
  Forall2 good_spend l xs → produced l xs g → simple_input input g →
  4 * max_cost < Z.of_nat fuel → (tree_size (output_tree l xs) ≤ export_fuel)%nat →
  room (2 + sexp_bytes (output_tree l xs)) max_cost →
  (coin_spends_from_generator fuel export_fuel input = Some (Ok l) ∧
   ∀ id, coin_spend_from_generator fuel export_fuel input id =
     Some (Ok (snd <$> list_find (λ s, coin_id (cs_coin s) = id) l))) ∨
  stopped (run (clvm_flags (input_flags input)) fuel export_fuel (max_cost - zlen g * cost_per_byte c) (generator_tree l xs) NULL_SEXP).
Proof.
  cbv zeta. intros Hl Hg Hi Hf He Hr.
  destruct (simple_output_ok l xs g input fuel export_fuel) as [Ho|Ho]; [done..|left|by right].
  unfold coin_spends_from_generator, run_simple_generator_spends, coin_spend_from_generator. rewrite Ho. cbn [obind].
  rewrite ref_list_from_list, (query_spends_ok l xs) by done. cbn [obind]. split.
  - do 2 f_equal. clear. induction l as [|s l IH]; cbn; [done|]. f_equal. exact IH.
  - intros id. by rewrite (find_spend_ok l xs).
Qed.
End theorems.

(** ** An allocator

    Equal trees share their address, as if every node were interned. *)
Fixpoint sexp_gen (t : SExp) : gen_tree (list Z) :=
  match t with Atom a => GenLeaf a | Pair f r => GenNode 0 [sexp_gen f; sexp_gen r] end.
Definition tree_key (t : SExp) : Z := Zpos (encode (sexp_gen t)).

Lemma tree_key_inj t t' : tree_key t = tree_key t' → t = t'.
Proof.
  unfold tree_key. intros [= Hk]. apply (inj encode) in Hk. revert t' Hk.
  induction t as [a|f IHf r IHr]; intros [a'|f' r']; cbn; intros [= ->] || intros [= Hf Hr] || intros; try done.
  f_equal; auto.
Qed.

Fixpoint intern (t : SExp) : node :=
  match t with Atom a => NAtom a | Pair f r => NPair (tree_key t) (intern f) (intern r) end.
Fixpoint intern_live (t : SExp) : lnode :=
  match t with Atom a => LAtom (tree_key t) a | Pair f r => LPair (tree_key t) (intern_live f) (intern_live r) end.
#[export] Instance interned : Memory := {| place := intern; live := intern_live |}.

Fixpoint subtrees (t : SExp) : list SExp :=
  t :: match t with Atom _ => [] | Pair f r => subtrees f ++ subtrees r end.
Definition intern_env (l : list SExp) : gmap Z SExp := foldr (λ s m, <[tree_key s := s]> m) ∅ l.

Lemma intern_env_lookup l s : s ∈ l → intern_env l !! tree_key s = Some s.
Proof.
  induction 1 as [s l|s x l Hs IH]; cbn; [by rewrite lookup_insert_eq|].
  destruct (decide (tree_key x = tree_key s)) as [Hk|Hk]; [|by rewrite lookup_insert_ne].
  rewrite Hk, lookup_insert_eq. by apply tree_key_inj in Hk as ->.
Qed.

Lemma intern_erase t : erase (intern t) = t.
Proof. induction t; cbn; by congruence. Qed.
Lemma intern_live_tree t : tree (intern_live t) = t.
Proof. induction t; cbn; by congruence. Qed.

Lemma intern_coherent l t : (∀ s, s ∈ subtrees t → s ∈ l) → coherent (intern_env l) (intern t).
Proof.
  induction t as [a|f IHf r IHr]; intros Hl; cbn [intern coherent]; [done|]. cbn [subtrees] in Hl. split_and!.
  - cbn [erase]. rewrite !intern_erase. apply intern_env_lookup, Hl, list_elem_of_here.
  - apply IHf. intros s Hs. apply Hl, list_elem_of_further, elem_of_app. auto.
  - apply IHr. intros s Hs. apply Hl, list_elem_of_further, elem_of_app. auto.
Qed.

Lemma intern_placed l t : (∀ s, s ∈ subtrees t → s ∈ l) → placed (intern_live <$> intern_env l) (intern_live t).
Proof.
  induction t as [a|f IHf r IHr]; intros Hl; (split; [cbn [intern_live addr]; rewrite lookup_fmap, intern_env_lookup; [done|apply Hl, list_elem_of_here]|]); [done|].
  cbn [subtrees] in Hl. split.
  - apply IHf. intros s Hs. apply Hl, list_elem_of_further, elem_of_app. auto.
  - apply IHr. intros s Hs. apply Hl, list_elem_of_further, elem_of_app. auto.
Qed.

#[export] Instance interned_ok : MemoryOk.
Proof.
  split; intros t; cbn.
  - apply intern_erase.
  - eexists. by apply (intern_coherent (subtrees t)).
  - apply intern_live_tree.
  - eexists. by apply (intern_placed (subtrees t)).
Qed.

(** ** Instances *)

(** A coin of 5 whose puzzle returns no conditions. *)
Definition quiet_puzzle : SExp := Pair (Atom [1]) NULL_SEXP.
Definition quiet_spend : CoinSpend := {|
  cs_coin := {| parent_coin_info := repeat 7 32; puzzle_hash := @tree_hash toy_hash quiet_puzzle; amount := 5 |};
  puzzle_reveal := [0xff; 0x01; 0x80];
  solution := [0x80];
|}.
Definition quiet_generator : list Z :=
  [0xff; 0x01; 0xff; 0xff; 0xff; 0xa0] ++ repeat 7 32 ++ [0xff; 0xff; 0x01; 0x80; 0xff; 0x05; 0xff; 0x80; 0x80; 0x80; 0x80].
(** A network of small blocks. *)
Definition small_net : ConsensusConstants := MAINNET <| max_block_cost_clvm := 1000 |> <| cost_per_byte := 1 |>.
Definition quiet_block : BlockGeneratorInput := {|
  transactions_generator := quiet_generator; generator_refs := []; constants := small_net; input_height := 6000000;
  input_flags := {| simple_generator := true; clvm_flags := 0 |};
|}.

Lemma quiet_good : Forall2 (@good_spend toy_hash) [quiet_spend] [(quiet_puzzle, NULL_SEXP)].
Proof.
  repeat constructor; try (apply bytes_okb_spec; reflexivity); try reflexivity; try lia. all: done.
Qed.
Lemma quiet_input : simple_input quiet_block quiet_generator.
Proof. by split. Qed.

Lemma reveal_hashes_sound_witness :
  ∃ hashes, @simple_generator_reveal_hashes toy_hash (place (Pair (Atom [1]) quiet_output)) = Ok hashes ∧
    ∀ fuel cost max_cost flags c,
      @conditions_from_generator_output bigint_ref toy_hash toy_blst fuel quiet_output cost max_cost flags c hashes =
      @conditions_from_generator_output bigint_ref toy_hash toy_blst fuel quiet_output cost max_cost flags c None.
Proof. apply (@reveal_hashes_sound bigint_ref toy_hash toy_blst interned interned_ok (Atom [1]) quiet_output). Defined.

Lemma producer_length_witness :
  ∃ plain compressed,
    @simple_solution_generator bigint_ref [quiet_spend] = Ok plain ∧ zlen plain = spend_bundle_generator_length [quiet_spend] ∧
    @compressed_solution_generator_from_coin_spends bigint_ref toy_hash interned [quiet_spend] = Ok compressed ∧
    zlen compressed ≤ zlen plain.
Proof.
  apply (@producer_length bigint_ref bigint_ref_ok toy_hash toy_hash_ok interned interned_ok [quiet_spend] [(quiet_puzzle, NULL_SEXP)]).
  - exact quiet_good.
  - vm_compute. reflexivity.
  - apply collision_free_strings. vm_compute. reflexivity.
Defined.

Lemma quiet_produced : @produced bigint_ref toy_hash interned [quiet_spend] [(quiet_puzzle, NULL_SEXP)] quiet_generator.
Proof. apply produced_plain. vm_compute. reflexivity. Qed.

Lemma producer_accepted_witness :
  ∃ r, let fuel := 4001%nat in
    @block_conditions bigint_ref toy_hash toy_blst 0 small_net 1000 (zlen quiet_generator * 1 + QUOTE_COST) None
      (@output_tree bigint_ref [quiet_spend] [(quiet_puzzle, NULL_SEXP)]) = Some (Ok r) ∧
    (@execute_block_generator_result bigint_ref toy_hash toy_blst interned fuel 100 quiet_block = Some (Ok r) ∨
     stopped (@run bigint_ref toy_hash toy_blst 0 fuel 100 (1000 - zlen quiet_generator * 1)
       (@generator_tree bigint_ref [quiet_spend] [(quiet_puzzle, NULL_SEXP)]) NULL_SEXP) ∨
     stopped (@conditions_from_generator_output bigint_ref toy_hash toy_blst fuel
       (@output_tree bigint_ref [quiet_spend] [(quiet_puzzle, NULL_SEXP)])
       (zlen quiet_generator * 1 + QUOTE_COST) 1000 0 small_net None)).
Proof.
  eexists. cbv zeta. split; [vm_compute; reflexivity|].
  apply (@producer_accepted bigint_ref bigint_ref_ok toy_hash toy_hash_ok toy_blst toy_blst_ok interned interned_ok
    [quiet_spend] [(quiet_puzzle, NULL_SEXP)] quiet_generator quiet_block (4001%nat) 100).
  - exact quiet_good.
  - exact quiet_produced.
  - exact quiet_input.
  - reflexivity.
  - vm_compute. lia.
  - vm_compute. discriminate.
  - vm_compute. reflexivity.
Defined.

Lemma producer_roundtrip_witness :
  let fuel := 4001%nat in
  (@coin_spends_from_generator bigint_ref toy_hash toy_blst fuel 100 quiet_block = Some (Ok [quiet_spend]) ∧
   ∀ id, @coin_spend_from_generator bigint_ref toy_hash toy_blst fuel 100 quiet_block id =
     Some (Ok (snd <$> list_find (λ s, @coin_id toy_hash (cs_coin s) = id) [quiet_spend]))) ∨
  stopped (@run bigint_ref toy_hash toy_blst 0 fuel 100 (1000 - zlen quiet_generator * 1)
    (@generator_tree bigint_ref [quiet_spend] [(quiet_puzzle, NULL_SEXP)]) NULL_SEXP).
Proof.
  apply (@producer_roundtrip bigint_ref bigint_ref_ok toy_hash toy_hash_ok toy_blst toy_blst_ok interned interned_ok
    [quiet_spend] [(quiet_puzzle, NULL_SEXP)] quiet_generator quiet_block (4001%nat) 100).
  - exact quiet_good.
  - exact quiet_produced.
  - exact quiet_input.
  - reflexivity.
  - vm_compute. lia.
  - vm_compute. discriminate.
Defined.
