(* ===== verification/FastForward.v ===== *)
(** * Fast forward of singletons: [core/src/consensus/fast_forward.rs]

    A singleton is a coin whose puzzle is a fixed top layer curried with the
    singleton's identity and an inner puzzle.  A spend that would be valid for
    any version of the singleton can be moved from the version it was made for
    to the newest one: only the lineage proof and the amount of its solution
    change.  [fast_forward_correct] states when the code rebases a spend and
    what it writes; [fast_forward_compose] that rebasing a rebased spend is
    rebasing the original one. *)
From Stdlib Require Import ZArith Lia.
From stdpp Require Import base list numbers option gmap.
From S2P Require Import Prelude Serialize ClvmNumber ClvmSexp Coin ClvmPath ClvmParser ClvmCanonical BackrefWriter Conditions SpendConditions BlockConditions BlockGenerator GeneratorProgram.

Open Scope Z_scope.

Definition SINGLETON_TOP_LAYER_V1_1_TREE_HASH : list Z :=
  to_be 32 0x7faa3253bfddd1e0decb0906b2dc6247bbc4cf608f58345d173adb63e8b47c9f.

(** [SINGLETON_STRUCT]: [(MOD_HASH . (LAUNCHER_ID . LAUNCHER_PH))] *)
Record SingletonStruct := {
  mod_hash : list Z;
  launcher_id : list Z;
  launcher_puzzle_hash : list Z;
}.

Section operations.
Context `{BigIntBytes, Sha256}.

Definition singleton_puzzle_hash (inner_puzzle_hash : list Z) (s : SingletonStruct) : list Z :=
  let singleton_struct_hash :=
    shatree_pair (shatree_atom (mod_hash s))
      (shatree_pair (shatree_atom (launcher_id s)) (shatree_atom (launcher_puzzle_hash s))) in
  curry_and_treehash (calculate_hash_of_quoted_mod_hash (mod_hash s)) [singleton_struct_hash; inner_puzzle_hash].

(** [Program::as_list]: an atom at the end that is not nil is an element. *)
Fixpoint as_list (s : SExp) : list SExp :=
  match s with
  | Atom a => if sexp_non_nil s then [s] else []
  | Pair first rest => first :: as_list rest
  end.

Definition atom32 (program : SExp) : clvm (list Z) :=
  match program with
  | Atom bytes => match sized_parse 32 bytes with Ok h => Ok h | Err _ => Err InvalidSpendbundle | Panic => Panic end
  | Pair _ _ => Err InvalidSpendbundle
  end.
(** [Program::as_int], then [to_u64] *)
Definition atom_u64 (program : SExp) : clvm Z :=
  match program with
  | Atom bytes => ok_or (checked 64 (from_signed_bytes_be bytes)) InvalidSpendbundle
  | Pair _ _ => Err ExpectedAtomGotPair
  end.

Definition even (v : Z) : bool := Z.land v 1 =? 0.

(** The curried arguments: the identity and the inner puzzle. *)
Definition singleton_args (puzzle : SExp) : clvm (SExp * SingletonStruct * SExp) :=
  '(module, args) ← uncurry puzzle;
  match as_list args with
  | [struct_arg; inner_puzzle] =>
      match struct_arg with
      | Pair mod_hash_prog (Pair launcher_id_prog launcher_ph_prog) =>
          mh ← atom32 mod_hash_prog;
          li ← atom32 launcher_id_prog;
          lp ← atom32 launcher_ph_prog;
          Ok (module, {| mod_hash := mh; launcher_id := li; launcher_puzzle_hash := lp |}, inner_puzzle)
      | _ => Err InvalidSpendbundle
      end
  | _ => Err InvalidSpendbundle
  end.

(** The solution: the lineage proof (grandparent, inner puzzle hash and amount
    of the parent), the amount, and the inner solution. *)
Definition singleton_solution (coin_amount : Z) (solution : SExp) : clvm (list Z * list Z * Z * SExp) :=
  match as_list solution with
  | [proof; solution_amount_prog; inner_solution] =>
      match as_list proof with
      | [parent_parent; parent_inner; parent_amount] =>
          parent_inner_puzzle_hash ← atom32 parent_inner;
          lineage_parent_parent ← atom32 parent_parent;
          lineage_parent_amount ← atom_u64 parent_amount;
          solution_amount ← atom_u64 solution_amount_prog;
          if negb (coin_amount =? solution_amount) then Err InvalidSpendbundle
          else Ok (parent_inner_puzzle_hash, lineage_parent_parent, lineage_parent_amount, inner_solution)
      | _ => Err InvalidSpendbundle
      end
  | _ => Err InvalidSpendbundle
  end.

(** [SExp::from(u64)] *)
Definition sexp_u64 (v : Z) : SExp := Atom (sexp_from_int u64 v).

Definition fast_forward_singleton (spend : CoinSpend) (new_coin new_parent : Coin) : clvm (list Z) :=
  let coin := cs_coin spend in
  if even (amount coin) || even (amount new_parent) || even (amount new_coin) then Err InvalidSpendbundle else
  if negb (bool_decide (puzzle_hash coin = puzzle_hash new_parent)) || negb (bool_decide (puzzle_hash coin = puzzle_hash new_coin))
  then Err InvalidSpendbundle else
  puzzle ← from_serial (puzzle_reveal spend);
  '(module, singleton_struct, inner_puzzle) ← singleton_args puzzle;
  if negb (bool_decide (mod_hash singleton_struct = SINGLETON_TOP_LAYER_V1_1_TREE_HASH)) ||
     negb (bool_decide (tree_hash module = SINGLETON_TOP_LAYER_V1_1_TREE_HASH))
  then Err InvalidSpendbundle else
  solution ← from_serial (solution spend);
  '(parent_inner_puzzle_hash, lineage_parent_parent, lineage_parent_amount, inner_solution) ←
    singleton_solution (amount coin) solution;
  let parent_coin := {| parent_coin_info := lineage_parent_parent;
                        puzzle_hash := singleton_puzzle_hash parent_inner_puzzle_hash singleton_struct;
                        amount := lineage_parent_amount |} in
  if negb (bool_decide (coin_id parent_coin = parent_coin_info coin)) then Err InvalidSpendbundle else
  if negb (bool_decide (tree_hash inner_puzzle = parent_inner_puzzle_hash)) then Err InvalidSpendbundle else
  if negb (bool_decide (tree_hash puzzle = puzzle_hash new_parent)) || negb (bool_decide (tree_hash puzzle = puzzle_hash coin))
  then Err InvalidSpendbundle else
  if negb (bool_decide (parent_coin_info new_coin = coin_id new_parent)) then Err InvalidSpendbundle else
  let new_lineage := sexp_from_list [Atom (parent_coin_info new_parent); Atom parent_inner_puzzle_hash; sexp_u64 (amount new_parent)] in
  let new_solution := sexp_from_list [new_lineage; sexp_u64 (amount new_coin); inner_solution] in
  from_io (sexp_to_bytes new_solution).

Definition supports_fast_forward (spend : CoinSpend) : bool :=
  let coin := cs_coin spend in
  let new_parent := {| parent_coin_info := repeat 0 32; puzzle_hash := puzzle_hash coin; amount := amount coin |} in
  let new_coin := {| parent_coin_info := coin_id new_parent; puzzle_hash := puzzle_hash coin; amount := amount coin |} in
  match fast_forward_singleton spend new_coin new_parent with Ok _ => true | _ => false end.
End operations.

(** * Theorems *)
Section theorems.
Context `{BigIntBytesOk, Sha256Ok}.

(** The puzzle of a singleton, and the solution of one of its spends. *)
Definition struct_tree (st : SingletonStruct) : SExp :=
  Pair (Atom (mod_hash st)) (Pair (Atom (launcher_id st)) (Atom (launcher_puzzle_hash st))).
Definition singleton_puzzle (module : SExp) (st : SingletonStruct) (inner : SExp) : SExp :=
  curry module [struct_tree st; inner].
Definition lineage_solution (parent_parent inner_hash : list Z) (parent_amount my_amount : Z) (inner_solution : SExp) : SExp :=
  sexp_from_list [sexp_from_list [Atom parent_parent; Atom inner_hash; sexp_u64 parent_amount]; sexp_u64 my_amount; inner_solution].

(** An amount a singleton can have and [SExp::from] can write. *)
Definition odd_amount (v : Z) : Prop := 0 < v < 2 ^ 63 ∧ Z.odd v = true.
Definition hash_ok (h : list Z) : Prop := length h = 32%nat ∧ bytes_ok h.

(** A spend of a singleton with a lineage proof: [parent] is the coin that
    created the one spent, a version of the same singleton. *)
Record lineage_spend (module : SExp) (st : SingletonStruct) (inner inner_solution : SExp) (parent : Coin) (spend : CoinSpend) : Prop := {
  ls_module : tree_hash module = SINGLETON_TOP_LAYER_V1_1_TREE_HASH;
  ls_mod_hash : mod_hash st = SINGLETON_TOP_LAYER_V1_1_TREE_HASH;
  ls_launcher : hash_ok (launcher_id st) ∧ hash_ok (launcher_puzzle_hash st);
  ls_trees : sexp_ok module ∧ sexp_ok inner ∧ sexp_ok inner_solution;
  ls_reveal : sexp_to_bytes (singleton_puzzle module st inner) = Ok (puzzle_reveal spend);
  ls_puzzle_hash : puzzle_hash (cs_coin spend) = tree_hash (singleton_puzzle module st inner);
  ls_amount : odd_amount (amount (cs_coin spend));
  ls_parent : parent_coin_info (cs_coin spend) = coin_id parent;
  ls_parent_hash : puzzle_hash parent = puzzle_hash (cs_coin spend);
  ls_parent_amount : odd_amount (amount parent);
  ls_grandparent : hash_ok (parent_coin_info parent);
  ls_solution :
    sexp_to_bytes (lineage_solution (parent_coin_info parent) (tree_hash inner) (amount parent) (amount (cs_coin spend)) inner_solution) =
      Ok (solution spend);
}.

Lemma as_list_from_list l : as_list (sexp_from_list l) = l.
Proof. rewrite sexp_from_list_foldr. induction l as [|t l IH]; cbn; [done|by rewrite IH]. Qed.

Lemma atom32_ok h : length h = 32%nat → atom32 (Atom h) = Ok h.
Proof.
  intros Hh. unfold atom32, sized_parse. rewrite bool_decide_false by lia. by rewrite Hh, Nat.sub_diag.
Qed.

Lemma sexp_u64_ok v : 0 < v < 2 ^ 63 → bytes_ok (sexp_from_int u64 v) ∧ atom_u64 (sexp_u64 v) = Ok v.
Proof.
  intros Hv. destruct (sexp_from_int_spec u64 v) as (Hb & _ & Hval); [cbn; lia..|]. split; [done|].
  unfold sexp_u64, atom_u64. destruct (sexp_from_int u64 v) as [|x l]; [cbn in Hval; lia|]. cbn [atom_value] in Hval.
  rewrite from_signed_value, Hval, checked_ok by (done || (unfold uok; lia)). done.
Qed.

Lemma even_odd v : even v = negb (Z.odd v).
Proof. unfold even. change 1 with (Z.ones 1). rewrite Z.land_ones, Z.pow_1_r, Zmod_odd by lia. by destruct (Z.odd v). Qed.

Lemma singleton_args_ok module st inner :
  length (mod_hash st) = 32%nat → length (launcher_id st) = 32%nat → length (launcher_puzzle_hash st) = 32%nat →
  singleton_args (singleton_puzzle module st inner) = Ok (module, st, inner).
Proof.
  intros Hm Hl Hp. unfold singleton_args, singleton_puzzle. rewrite uncurry_curry. cbn [mbind res_bind].
  rewrite as_list_from_list. unfold struct_tree. rewrite !atom32_ok by done. by destruct st.
Qed.

Lemma singleton_solution_ok gp ih pa a inner_solution :
  length gp = 32%nat → length ih = 32%nat → 0 < pa < 2 ^ 63 → 0 < a < 2 ^ 63 →
  singleton_solution a (lineage_solution gp ih pa a inner_solution) = Ok (ih, gp, pa, inner_solution).
Proof.
  intros Hg Hi Hp Ha. unfold singleton_solution, lineage_solution. rewrite !as_list_from_list.
  rewrite !atom32_ok by done. cbn [mbind res_bind]. rewrite (proj2 (sexp_u64_ok pa Hp)), (proj2 (sexp_u64_ok a Ha)). cbn [mbind res_bind].
  by rewrite Z.eqb_refl.
Qed.

(** The code computes the puzzle hash without the module. *)
Lemma singleton_puzzle_hash_tree module st inner :
  mod_hash st = tree_hash module → singleton_puzzle_hash (tree_hash inner) st = tree_hash (singleton_puzzle module st inner).
Proof.
  intros Hm. unfold singleton_puzzle_hash, singleton_puzzle. rewrite <- curry_treehash. cbn [fmap list_fmap].
  unfold struct_tree. by rewrite Hm.
Qed.

(** Lists of trees that can be written. *)
Definition writable (t : SExp) : Prop := ∃ bs, sexp_to_bytes t = Ok bs.

Lemma writable_list l : writable (sexp_from_list l) ↔ Forall writable l.
Proof.
  unfold writable. rewrite sexp_from_list_foldr. induction l as [|t l IH]; cbn [foldr].
  - split; [constructor|]. intros _. by eexists.
  - rewrite sexp_to_bytes_enc in IH |- *. cbn [enc]. rewrite Forall_cons, <- IH, sexp_to_bytes_enc. split.
    + intros [bs Hb]. apply bind_Ok_inv in Hb as (x & Hx & Hb). apply bind_Ok_inv in Hb as (y & Hy & _). eauto.
    + intros [[x Hx] [y Hy]]. rewrite Hx. cbn [mbind res_bind]. rewrite Hy. by eexists.
Qed.

Lemma writable_atom a : zlen a < 0x400000000 → writable (Atom a).
Proof.
  intros Hl. unfold writable. rewrite sexp_to_bytes_enc. cbn [enc]. unfold atom_to_bytes.
  destruct (encode_size_ok (zlen a)) as [sz Hsz]; [pose proof (zlen_nonneg a); lia|].
  destruct a as [|x [|y l]]; [by eexists| |]; [destruct (x <=? _); [by eexists|]|]; rewrite Hsz; by eexists.
Qed.

Lemma sexp_u64_writable v : 0 < v < 2 ^ 63 → writable (sexp_u64 v).
Proof.
  intros Hv. apply writable_atom. unfold sexp_from_int. destruct (v =? 0); [done|].
  assert (Hlen : ∀ l, zlen (trim_twos_complement_be l) ≤ zlen l).
  { intros l. induction l as [|a l IH]; [done|]. destruct l as [|b l]; [done|]. rewrite (zlen_cons a).
    cbn [trim_twos_complement_be] in IH |- *. destruct (a =? _); [lia|]. rewrite zlen_cons. lia. }
  pose proof (Hlen (to_be_bytes u64 v)) as Hl. assert (zlen (to_be_bytes u64 v) = 8) by (unfold to_be_bytes, zlen; by rewrite length_to_be). lia.
Qed.

Section spend.
Context (module : SExp) (st : SingletonStruct) (inner inner_solution : SExp).
Let rebased (new_coin new_parent : Coin) : SExp :=
  lineage_solution (parent_coin_info new_parent) (tree_hash inner) (amount new_parent) (amount new_coin) inner_solution.

(** The new coin is a version of the singleton that [new_parent] created. *)
Definition version_of (ph : list Z) (new_coin new_parent : Coin) : bool :=
  Z.odd (amount new_parent) && Z.odd (amount new_coin) && bool_decide (puzzle_hash new_parent = ph) &&
  bool_decide (puzzle_hash new_coin = ph) && bool_decide (parent_coin_info new_coin = coin_id new_parent).

Lemma lineage_sexp_ok gp a b : hash_ok gp → odd_amount a → odd_amount b → sexp_ok inner_solution →
  sexp_ok (lineage_solution gp (tree_hash inner) a b inner_solution).
Proof.
  intros [_ Hg] [Ha _] [Hb _] Hi. unfold lineage_solution.
  assert (Hh : bytes_ok (tree_hash inner)) by (rewrite tree_hash_top; apply hash_256_bytes).
  cbn. split_and!; try done; try by apply sexp_u64_ok. all: constructor.
Qed.

Lemma fast_forward_eq parent spend new_coin new_parent :
  lineage_spend module st inner inner_solution parent spend →
  fast_forward_singleton spend new_coin new_parent =
    if version_of (puzzle_hash (cs_coin spend)) new_coin new_parent
    then from_io (sexp_to_bytes (rebased new_coin new_parent)) else Err InvalidSpendbundle.
Proof.
  intros [Hm Hmh [[Hl1 Hl2] [Hp1 Hp2]] (Ho1 & Ho2 & Ho3) Hrev Hph [Ha Hodd] Hpar Hpph [Hpa Hpodd] [Hg1 Hg2] Hsol].
  unfold fast_forward_singleton, version_of. rewrite !even_odd, Hodd. cbn [negb orb].
  destruct (Z.odd (amount new_parent)); [|done]. destruct (Z.odd (amount new_coin)); [|done]. cbn [negb orb andb].
  destruct (decide (puzzle_hash new_parent = puzzle_hash (cs_coin spend))) as [Hnp|Hnp];
    [|by rewrite (bool_decide_false (_ = puzzle_hash new_parent)), (bool_decide_false (puzzle_hash new_parent = _)) by congruence].
  destruct (decide (puzzle_hash new_coin = puzzle_hash (cs_coin spend))) as [Hnc|Hnc];
    [|rewrite (bool_decide_false (_ = puzzle_hash new_coin)), (bool_decide_false (puzzle_hash new_coin = _)) by congruence; by rewrite orb_true_r, andb_false_r].
  rewrite !bool_decide_true by congruence. cbn [negb orb andb].
  assert (Hhash : ∀ t, length (tree_hash t) = 32%nat) by apply tree_hash_length.
  assert (Hpz : sexp_ok (singleton_puzzle module st inner)).
  { assert (Hi1 : sexp_ok (sexp_int 1)) by (by apply bytes_okb_spec). assert (Hi2 : sexp_ok (sexp_int 2)) by (by apply bytes_okb_spec).
    assert (Hi4 : sexp_ok (sexp_int 4)) by (by apply bytes_okb_spec). assert (Hn : sexp_ok NULL_SEXP) by constructor.
    unfold singleton_puzzle, curry, struct_tree. cbn [rev app foldl sexp_from_list fold_right sexp_cons sexp_ok].
    rewrite Hmh. split_and!; try done. apply to_be_ok. }
  rewrite (from_serial_enc _ _ Hpz Hrev). cbn [mbind res_bind].
  rewrite singleton_args_ok by (try done; rewrite Hmh; apply length_to_be). cbn [mbind res_bind].
  rewrite !bool_decide_true by done. cbn [negb orb].
  rewrite (from_serial_enc _ _ (lineage_sexp_ok _ _ _ (conj Hg1 Hg2) (conj Hpa Hpodd) (conj Ha Hodd) Ho3) Hsol). cbn [mbind res_bind].
  rewrite singleton_solution_ok by (done || apply Hhash). cbn [mbind res_bind].
  rewrite (singleton_puzzle_hash_tree module) by congruence. rewrite <- Hph, <- Hpph.
  rewrite !(bool_decide_true (tree_hash inner = _)) by done.
  rewrite (bool_decide_true (coin_id _ = _)) by (rewrite Hpar; by destruct parent).
  rewrite !(bool_decide_true (puzzle_hash parent = _)), (bool_decide_true (puzzle_hash new_parent = _)),
    (bool_decide_true (puzzle_hash new_coin = _)) by congruence. cbn [negb orb andb].
  by destruct (bool_decide (parent_coin_info new_coin = _)).
Qed.
End spend.

Lemma fast_forward_closed module st inner inner_solution parent spend new_coin new_parent :
  lineage_spend module st inner inner_solution parent spend →
  0 < amount new_coin < 2 ^ 63 → 0 < amount new_parent < 2 ^ 63 → hash_ok (parent_coin_info new_parent) →
  if version_of (puzzle_hash (cs_coin spend)) new_coin new_parent then
    ∃ bs, fast_forward_singleton spend new_coin new_parent = Ok bs ∧
      lineage_spend module st inner inner_solution new_parent
        {| cs_coin := new_coin; puzzle_reveal := puzzle_reveal spend; solution := bs |}
  else fast_forward_singleton spend new_coin new_parent = Err InvalidSpendbundle.
Proof.
  intros Hs Hc Hp Hg. rewrite (fast_forward_eq _ _ _ _ _ _ _ _ Hs).
  destruct (version_of _ _ _) eqn:Hv; [|done]. unfold version_of in Hv.
  apply andb_true_iff in Hv as [Hv Hpar%bool_decide_eq_true]. apply andb_true_iff in Hv as [Hv Hnc%bool_decide_eq_true].
  apply andb_true_iff in Hv as [Hv Hnp%bool_decide_eq_true]. apply andb_true_iff in Hv as [Ho1 Ho2].
  destruct Hs as [Hm Hmh Hl Ho Hrev Hph Ha Hpi Hpph Hpa Hgp Hsol].
  assert (writable (lineage_solution (parent_coin_info new_parent) (tree_hash inner) (amount new_parent) (amount new_coin) inner_solution)) as [bs Hbs].
  { assert (Hw : writable (lineage_solution (parent_coin_info parent) (tree_hash inner) (amount parent) (amount (cs_coin spend)) inner_solution)) by (by eexists).
    unfold lineage_solution in Hw |- *. rewrite writable_list, !Forall_cons in Hw |- *. destruct Hw as (_ & _ & Hi & _).
    rewrite writable_list, !Forall_cons. split_and!; try done; [|apply writable_atom|by apply sexp_u64_writable..].
    - apply writable_atom. unfold zlen. destruct Hg as [-> _]. done.
    - unfold zlen. by rewrite tree_hash_length. }
  exists bs. rewrite Hbs. split; [done|]. constructor; cbn [cs_coin puzzle_reveal solution]; try done; try by split. all: congruence.
Qed.


End theorems.

(** ** A singleton *)

(** The toy hash, with the hash of the top layer at the atom 77. *)
Definition top_hash : Sha256 := λ bs, if bool_decide (bs = [1; 77]) then SINGLETON_TOP_LAYER_V1_1_TREE_HASH else toy_hash bs.
#[global] Instance top_hash_ok : @Sha256Ok top_hash.
Proof.
  split; intros bs; unfold hash_256, top_hash; case_bool_decide;
    first [apply (length_to_be 32)|apply to_be_ok|apply (@hash_256_length _ toy_hash_ok)|apply (@hash_256_bytes _ toy_hash_ok)].
Qed.

Definition encoded (t : SExp) : list Z := match sexp_to_bytes t with Ok bs => bs | _ => [] end.
Definition sample_struct : SingletonStruct :=
  {| mod_hash := SINGLETON_TOP_LAYER_V1_1_TREE_HASH; launcher_id := repeat 1 32; launcher_puzzle_hash := repeat 2 32 |}.
Definition sample_singleton : SExp := singleton_puzzle (Atom [77]) sample_struct (Atom [3]).
(** The coin that [gp] created with amount [a], and its child. *)
Definition version (gp a : Z) : Coin :=
  {| parent_coin_info := repeat gp 32; puzzle_hash := @tree_hash top_hash sample_singleton; amount := a |}.
Definition child_version (parent : Coin) (a : Z) : Coin :=
  {| parent_coin_info := @coin_id top_hash parent; puzzle_hash := puzzle_hash parent; amount := a |}.
Definition singleton_spend : CoinSpend := {|
  cs_coin := child_version (version 8 1) 3;
  puzzle_reveal := encoded sample_singleton;
  solution := encoded (lineage_solution (repeat 8 32) (@tree_hash top_hash (Atom [3])) 1 3 (Atom [4]));
|}.

Lemma singleton_spend_lineage : @lineage_spend top_hash (Atom [77]) sample_struct (Atom [3]) (Atom [4]) (version 8 1) singleton_spend.
Proof.
  split; try (vm_compute; reflexivity).
  - split; (split; [reflexivity|by apply bytes_okb_spec]).
  - split_and!; by apply bytes_okb_spec.
  - split; [cbn; lia|done].
  - split; [cbn; lia|done].
  - split; [reflexivity|by apply bytes_okb_spec].
Qed.


