(* ===== verification/ConditionSizes.v ===== *)
(** * The types of a block's conditions

    The records of [SpendConditions] hold byte strings and integers where the
    code has arrays of a fixed size ([Bytes32], [Bytes48], the 1024 bytes of
    [Message]) and machine words.  [conditions_sized] shows that every bundle
    of conditions the code returns keeps to them, on the streaming path, on
    the path through the bootstrap program and on the mempool's. *)
From Stdlib Require Import ZArith Lia.
From stdpp Require Import base list numbers option gmap sets.
From S2P Require Import Prelude Serialize ClvmNumber ClvmSexp Coin ClvmPath ClvmParser BackrefWriter ClvmView ClvmOps ClvmBls ClvmArena ClvmOutcome ClvmRuntime ClvmRefine ClvmEval PotIterations Conditions SpendConditions BlockConditions BlockGenerator GeneratorProgram.

Open Scope Z_scope.

Definition bytes32 (h : list Z) : Prop := length h = 32%nat.
Definition message_sized (m : list Z) : Prop := zlen m ≤ 1024.

(** A public key and a message. *)
Definition pair_sized (p : list Z * list Z) : Prop := length p.1 = 48%nat ∧ message_sized p.2.

Definition condition_sized (c : ConditionWithArgs) : Prop :=
  match c with
  | AggSigParent k m | AggSigPuzzle k m | AggSigAmount k m | AggSigPuzzleAmount k m | AggSigParentAmount k m
  | AggSigParentPuzzle k m | AggSigUnsafe k m | AggSigMe k m => pair_sized (k, m)
  | CreateCoin h _ _ | AssertCoinAnnouncement h | AssertPuzzleAnnouncement h | AssertConcurrentSpend h
  | AssertConcurrentPuzzle h | AssertMyCoinId h | AssertMyParentId h | AssertMyPuzzlehash h => bytes32 h
  | CreateCoinAnnouncement m | CreatePuzzleAnnouncement m => message_sized m
  | SendMessage _ m args | ReceiveMessage _ m args => message_sized m ∧ args_sized args
  | _ => True
  end.

Definition sent_sized (m : SpendMessage) : Prop := message_sized (sm_message m) ∧ args_sized (sm_args m).

Record spend_typed (s : Spend) : Prop := {
  st_spend : spend_sized s;
  st_created : Forall (λ nc, bytes32 (nc_puzzle_hash nc)) (create_coin s);
  st_me : Forall pair_sized (agg_sig_me s);
  st_parent : Forall pair_sized (agg_sig_parent s);
  st_puzzle : Forall pair_sized (agg_sig_puzzle s);
  st_amount : Forall pair_sized (agg_sig_amount s);
  st_puzzle_amount : Forall pair_sized (agg_sig_puzzle_amount s);
  st_parent_amount : Forall pair_sized (agg_sig_parent_amount s);
  st_parent_puzzle : Forall pair_sized (agg_sig_parent_puzzle s);
  st_create_coin_ann : Forall message_sized (create_coin_announcements s);
  st_assert_coin_ann : Forall bytes32 (assert_coin_announcements s);
  st_create_puzzle_ann : Forall message_sized (create_puzzle_announcements s);
  st_assert_puzzle_ann : Forall bytes32 (assert_puzzle_announcements s);
  st_concurrent_spend : Forall bytes32 (assert_concurrent_spend s);
  st_concurrent_puzzle : Forall bytes32 (assert_concurrent_puzzle s);
  st_sent : Forall sent_sized (sent_messages s);
  st_received : Forall sent_sized (received_messages s);
}.

Record totals_typed (cs : SpendBundleConditions) : Prop := {
  ct_fee : uok 64 (reserve_fee cs);
  ct_unsafe : Forall pair_sized (agg_sig_unsafe cs);
  ct_cost : uok 64 (conds_cost cs);
  ct_removal : uok 128 (removal_amount cs);
  ct_addition : uok 128 (addition_amount cs);
}.
Definition conds_typed (cs : SpendBundleConditions) : Prop := totals_typed cs ∧ Forall spend_typed (spends cs).

(** ** Decoded conditions *)
Lemma sized_from_length n v : length (sized_from n v) = n.
Proof. unfold sized_from. rewrite length_app, length_take, length_replicate. lia. Qed.

Lemma message_new_sized m x : message_new m = Ok x → message_sized x.
Proof. unfold message_new, message_sized. destruct (Z.ltb_spec 1024 (zlen m)); [done|]. by intros [= <-]. Qed.

Lemma to_io_Ok {A} (m : clvm A) x : to_io m = Ok x → m = Ok x.
Proof. destruct m; cbn; congruence. Qed.

Section decoded.
Context `{BigIntBytes}.

Lemma u64_from_bigint_uok v x : u64_from_bigint v = Ok x → uok 64 x.
Proof. unfold u64_from_bigint. destruct (v <? 0); [done|]. by intros [-> ?]%ok_or_checked. Qed.

Lemma message_args_sized mode args x : message_args mode args = Ok x → args_sized x.
Proof.
  unfold message_args, from_io. intros Hm. destruct mode, args as [|a [|b args]]; op_inv; cbn [args_sized];
    repeat match goal with H : u64_from_bigint _ = Ok _ |- _ => apply u64_from_bigint_uok in H end;
    auto using sized_from_length.
Qed.

Lemma from_opcode_sized op args cd : from_opcode_with_args op args = Ok cd → condition_sized cd.
Proof.
  destruct op; cbn [from_opcode_with_args];
    unfold agg_sig_arg, hash_arg, message_arg, u64_arg, seconds_arg, height_arg, one_arg, create_coin_args,
      message_condition; intros Ha; op_inv; cbn [condition_sized]; try done;
    repeat match goal with
      | H : to_io _ = Ok _ |- _ => apply to_io_Ok in H
      | H : message_new _ = Ok _ |- _ => apply message_new_sized in H
      | H : message_args _ _ = Ok _ |- _ => apply message_args_sized in H end;
    unfold bytes32, pair_sized; cbn [fst snd]; auto using sized_from_length.
Qed.

Lemma condition_try_from_sized t cd : condition_try_from t = Ok cd → condition_sized cd.
Proof. unfold condition_try_from, from_io. intros Hc. op_inv. by eapply from_opcode_sized. Qed.

Lemma conditions_try_from_sized t cds : conditions_try_from t = Ok cds → Forall condition_sized cds.
Proof.
  unfold conditions_try_from. revert cds. induction (sexp_iter t) as [|x l IH]; intros cds Hc; cbn in Hc.
  { injection Hc as <-. constructor. }
  apply bind_Ok_inv in Hc as (cd & Hcd%condition_try_from_sized & Hc).
  apply bind_Ok_inv in Hc as (cds' & Hl & [= <-]). constructor; [done|by apply IH].
Qed.

Lemma arena_condition_sized {N} (v : view N) export_node n cd :
  arena_condition v export_node n = Ok (Some cd) → condition_sized cd.
Proof.
  intros Hc. unfold arena_condition, arena_uint_condition, arena_create_coin in Hc. op_inv.
  all: try (injection Hc as <-; (by eapply condition_try_from_sized) || done || apply sized_from_length).
  all: by apply fmap_Some_1 in Hc as (? & _ & ->).
Qed.
End decoded.

(** ** Accumulated conditions *)
Section accumulated.
Context `{BigIntBytes, Sha256}.

Record accum_typed (a : accum) : Prop := {
  at_spend : spend_typed (acc_spend a);
  at_conds : totals_typed (acc_conds a);
  at_extra : uok 64 (extra_cost a);
}.

Lemma Forall_snoc_2 {A} (P : A → Prop) l x : Forall P l → P x → Forall P (snoc x l).
Proof. intros. apply Forall_app. auto using Forall_singleton. Qed.

Lemma charge_typed c a b : charge c a = Ok b → b = a <| extra_cost := extra_cost b |> ∧ uok 64 (extra_cost b).
Proof. unfold charge. intros Hc. apply bind_Ok_inv in Hc as (t & [-> Ht]%ok_or_checked & [= <-]). by destruct a. Qed.

Lemma apply_condition_typed c coin cd a b :
  condition_sized cd → accum_typed a → apply_condition c coin cd a = Ok b → accum_typed b.
Proof.
  intros Hcd [[] [] ?] Ha. destruct cd; cbn [apply_condition condition_sized] in *; op_inv;
    repeat match goal with
      | H : charge _ _ = Ok _ |- _ => apply charge_typed in H as [-> ?]
      | H : ok_or (checked _ _) _ = Ok _ |- _ => apply ok_or_checked in H as [-> ?] end;
    (split; [split|split|]); cbn in *; try done; try (by apply Forall_snoc_2); try (apply Forall_snoc_2; [done|]; naive_solver).
Qed.

Lemma apply_parsed_typed c mempool coin cd index a b :
  condition_sized cd → accum_typed a → apply_parsed_condition c mempool coin cd index a = Ok b → accum_typed b.
Proof.
  intros Hcd Ha Hb. unfold apply_parsed_condition in Hb. cbv zeta in Hb. destruct (agg_sig_infinity_pubkey cd); [done|].
  eapply apply_condition_typed; [done| |exact Hb]. destruct mempool; [|done]. destruct Ha as [[] ? ?]. split; [by split|done..].
Qed.

Lemma apply_conditions_typed c mempool coin cds index a b :
  Forall condition_sized cds → accum_typed a → apply_conditions c mempool coin cds index a = Ok b → accum_typed b.
Proof.
  intros Hcds. revert index a. induction Hcds as [|cd cds Hcd Hcds IH]; intros index a Ha Hb; cbn in Hb; [by injection Hb as <-|].
  apply bind_Ok_inv in Hb as (a1 & Ha1 & Hb). eapply IH; [|exact Hb]. by eapply apply_parsed_typed.
Qed.

Lemma stream_typed {N} (v : view N) export_node fuel c max_cost mempool coin n index a b :
  accum_typed a → stream_conditions v export_node fuel c max_cost mempool coin n index a = Ok b → accum_typed b.
Proof.
  revert n index a. induction fuel as [|fuel IH]; intros n index a Ha; cbn [stream_conditions]; [done|].
  destruct (next v n) as [[[cond rest]|]|e|]; cbn [mbind res_bind]; [|by intros [= <-]|done|done].
  destruct (arena_condition v export_node cond) as [[cd|]|e|] eqn:Ec; cbn [mbind res_bind]; [|by apply IH|done|done].
  destruct (apply_parsed_condition _ _ _ _ _ _) as [a'|e|] eqn:E; cbn [mbind res_bind]; [|done|done].
  destruct (ok_or _ _) as [running|e|]; cbn [mbind res_bind]; [|done|done]. destruct (max_cost <? running); [done|].
  apply IH. eapply apply_parsed_typed; [|done|exact E]. by eapply arena_condition_sized.
Qed.

Lemma finalize_typed s extra start mempool s' : spend_typed s → finalize_spend s extra start mempool = Ok s' → spend_typed s'.
Proof.
  intros [] Hf. unfold finalize_spend in Hf. cbv zeta in Hf. destruct mempool; [|injection Hf as <-; by split].
  op_inv; repeat case_match; by split.
Qed.
End accumulated.

(** ** What a reader keeps, and the loops *)
Definition coin_typed (coin : Coin) : Prop := bytes32 (parent_coin_info coin) ∧ bytes32 (puzzle_hash coin) ∧ uok 64 (amount coin).

Class TypedReader (read : reader) : Prop :=
  reads_typed coin cs extra spend cs' extra' :
    coin_typed coin → totals_typed cs → uok 64 extra →
    read coin cs extra = Ok (spend, cs', extra') → spend_typed spend ∧ totals_typed cs' ∧ uok 64 extra' ∧ spends cs' = spends cs.
Class TypedRunner (run_puzzle : runner) : Prop :=
  runs_typed cost_left puzzle sol cost read : run_puzzle cost_left puzzle sol = Some (Ok (cost, read)) → TypedReader read.

Section loops.
Context `{BigIntBytes, Sha256Ok}.

Lemma new_spend_typed coin mempool : coin_typed coin → spend_typed (new_spend coin mempool).
Proof. intros (? & ? & ?). split; cbn; try constructor; try done. cbn. split_and!; try done. apply hash_256_length. Qed.

Lemma remove_coin_typed coin cs cs' :
  totals_typed cs → remove_coin coin cs = Ok cs' → totals_typed cs' ∧ spends cs' = spends cs.
Proof.
  intros [] Hr. unfold remove_coin in Hr. apply bind_Ok_inv in Hr as (t & [-> Ht]%ok_or_checked & [= <-]). split; [by split|done].
Qed.

Lemma read_end coin cs cs1 extra mempool a s :
  coin_typed coin → totals_typed cs → uok 64 extra → remove_coin coin cs = Ok cs1 →
  (accum_typed (mkAccum (new_spend coin mempool) cs1 extra) → accum_typed a) → spends (acc_conds a) = spends cs1 →
  finalize_spend (acc_spend a) (extra_cost a) extra mempool = Ok s →
  spend_typed s ∧ totals_typed (acc_conds a) ∧ uok 64 (extra_cost a) ∧ spends (acc_conds a) = spends cs.
Proof.
  intros Hc Hcs He [Hr1 Hr2]%remove_coin_typed Ha Hs Hf; [|done].
  destruct Ha as [Ha1 Ha2 Ha3]; [split; [by apply new_spend_typed|done|done]|]. split_and!; [by eapply finalize_typed|done|done|congruence].
Qed.

#[export] Instance streaming_typed {N} (v : view N) export_node c max_cost mempool n :
  TypedReader (parse_and_apply_spend_from_arena v export_node c max_cost mempool n).
Proof.
  intros coin cs extra spend cs' extra' Hc Hcs He Hr. unfold parse_and_apply_spend_from_arena in Hr.
  apply bind_Ok_inv in Hr as (cs1 & Hrm & Hr). apply bind_Ok_inv in Hr as (a & Hst & Hr).
  apply bind_Ok_inv in Hr as (s & Hf & [= <- <- <-]). eapply read_end; [done..| | |exact Hf].
  - intros Ha. by eapply stream_typed.
  - apply stream_grown in Hst as (p & fee & coins & Hg & _). by destruct Hg as [(_ & _ & _ & _ & F5 & _) _ _ _ _ _].
Qed.

Lemma collecting_typed c mempool cds : Forall condition_sized cds →
  TypedReader (λ coin cs extra, spend_from_conditions c mempool coin cds cs extra).
Proof.
  intros Hcds coin cs extra spend cs' extra' Hc Hcs He Hr. unfold spend_from_conditions in Hr.
  apply bind_Ok_inv in Hr as (cs1 & Hrm & Hr). apply bind_Ok_inv in Hr as (a & Hst & Hr).
  apply bind_Ok_inv in Hr as (s & Hf & [= <- <- <-]). eapply read_end; [done..| | |exact Hf].
  - intros Ha. by eapply apply_conditions_typed.
  - apply apply_conditions_grown in Hst. by destruct Hst as [(_ & _ & _ & _ & F5 & _) _ _ _ _ _].
Qed.

Definition gen_typed (st : gen_state) : Prop := conds_typed (g_conds st) ∧ uok 64 (conditions_cost st).

Lemma start_typed cost : uok 64 cost → gen_typed (start cost).
Proof. intros Hc. split; [split; [split; cbn; try done; unfold uok; lia|constructor]|cbn; unfold uok; lia]. Qed.

Lemma spend_coin_frame coin st st1 :
  spend_coin coin st = Ok st1 → g_conds st1 = g_conds st ∧ conditions_cost st1 = conditions_cost st.
Proof. unfold spend_coin. case_bool_decide; [done|]. by intros [= <-]. Qed.

Lemma push_typed spend exec cs extra st st' :
  spend_typed spend → totals_typed cs → uok 64 extra → Forall spend_typed (spends cs) →
  push_spend (spend <| execution_cost := exec |>) cs extra st = Ok st' → gen_typed st'.
Proof.
  intros [] [] He Hss Hp. unfold push_spend in Hp. apply bind_Ok_inv in Hp as (cr & _ & [= <-]). split; [split; [by split|]|done].
  cbn. apply Forall_app. split; [done|]. apply Forall_singleton. by split.
Qed.

Lemma spend_step_typed read `{!TypedReader read} coin st st1 cost exec spend cs extra st2 :
  coin_typed coin → gen_typed st → spend_coin coin st = Ok st1 → uok 64 cost →
  read coin ((g_conds st1) <| conds_cost := cost |>) (conditions_cost st1) = Ok (spend, cs, extra) →
  push_spend (spend <| execution_cost := exec |>) cs extra st1 = Ok st2 → gen_typed st2.
Proof.
  intros Hc [[[] Hsp] He] [Hg Hx]%spend_coin_frame Hcost Hr Hp. rewrite Hg, Hx in Hr.
  apply reads_typed in Hr as (Hs & Ht & Hex & Hss); [|done|by split|done].
  eapply push_typed; [exact Hs|exact Ht|exact Hex| |exact Hp]. by rewrite Hss.
Qed.

Lemma parse_atom_sized s x : parse_atom s = Ok x → bytes32 x.
Proof.
  unfold parse_atom, sized_parse, bytes32. destruct s as [a|]; [|done]. case_bool_decide; [done|]. intros [= <-].
  rewrite length_app, length_replicate. lia.
Qed.
Lemma parse_amount_uok s x : parse_amount s = Ok x → uok 64 x.
Proof.
  unfold parse_amount, to_u64. intros Hp. apply bind_Ok_inv in Hp as (n & _ & Hp).
  by destruct n; apply ok_or_checked in Hp as [-> ?].
Qed.

Lemma generator_spends_typed run_puzzle `{!TypedRunner run_puzzle} max_cost hashes index l st st' :
  Forall bytes32 (default [] hashes) → gen_typed st →
  generator_spends run_puzzle max_cost hashes index l st = Some (Ok st') → gen_typed st'.
Proof.
  intros Hh. revert index st. induction l as [|t l IH]; intros index st Hok Hg; cbn [generator_spends] in Hg; [by injection Hg as <-|].
  apply obind_Ok in Hg as (st2 & Hg2 & Hg). eapply IH; [|exact Hg]. clear IH Hg. unfold generator_spend in Hg2.
  apply obind_Ok in Hg2 as ([[[[coin puzzle] sol] st1] cost_left] & Hpre & Hg).
  injection Hpre as Hpre. apply bind_Ok_inv in Hpre as ([[[parent pz] amt] sl] & _ & Hpre).
  apply bind_Ok_inv in Hpre as (pid & Hpid%parse_atom_sized & Hpre). apply bind_Ok_inv in Hpre as (am & Ham%parse_amount_uok & Hpre).
  apply bind_Ok_inv in Hpre as (st1' & Hs & Hpre). apply bind_Ok_inv in Hpre as (cl & _ & Hpre).
  injection Hpre as <- <- <- <- <-. apply obind_Ok in Hg as ([puzzle_cost read] & Hrun & [= Hg]).
  apply bind_Ok_inv in Hg as (cost & [-> Hcost]%ok_or_checked & Hg). apply bind_Ok_inv in Hg as ([[spend cs] extra] & Hread & Hpush).
  apply runs_typed in Hrun. eapply (spend_step_typed read); [|done|done|exact Hcost|exact Hread|exact Hpush].
  split_and!; [done| |done]. cbn. destruct hashes as [hs|]; cbn; [|apply tree_hash_length].
  destruct (hs !! index) as [h|] eqn:Hi; [|apply tree_hash_length]. rewrite Forall_forall in Hh. by apply Hh, (list_elem_of_lookup_2 _ index).
Qed.

Lemma processed_spends_typed c l st st' : gen_typed st → processed_spends c l st = Ok st' → gen_typed st'.
Proof.
  revert st. induction l as [|t l IH]; intros st Hok Hg; cbn in Hg; [by injection Hg as <-|].
  apply bind_Ok_inv in Hg as (st2 & Hp & Hg). apply (IH st2); [|done]. clear IH Hg.
  unfold processed_spend in Hp. apply bind_Ok_inv in Hp as ([[[parent pz] amt] sl] & _ & Hp).
  apply bind_Ok_inv in Hp as (pid & Hpid%parse_atom_sized & Hp). apply bind_Ok_inv in Hp as (ph & Hph%parse_atom_sized & Hp).
  apply bind_Ok_inv in Hp as (am & Ham%parse_amount_uok & Hp). apply bind_Ok_inv in Hp as (st1 & Hs & Hp).
  apply bind_Ok_inv in Hp as (cds & Hc & Hp). apply bind_Ok_inv in Hp as ([[spend cs] extra] & Hread & Hpush).
  pose proof (conditions_try_from_price _ _ Hc) as Hprice. apply conditions_try_from_sized in Hc.
  rewrite <- (execution_cost_0 spend) in Hpush by (by apply (spend_from_conditions_read _ _ _ _ _ _ _ _ _ Hprice) in Hread as []).
  pose proof (collecting_typed c false cds Hc) as Htyped.
  assert (g_conds st1 = (g_conds st1) <| conds_cost := conds_cost (g_conds st1) |>) as Hg by (by destruct (g_conds st1)).
  rewrite Hg in Hread. eapply (spend_step_typed (λ coin cs extra, spend_from_conditions c false coin cds cs extra));
    [|exact Hok|exact Hs| |exact Hread|exact Hpush]; [done|]. apply spend_coin_frame in Hs as [-> _]. apply Hok.
Qed.

Lemma finish_typed max_cost e st r : gen_typed st → finish max_cost e st = Ok r → conds_typed r.
Proof.
  intros [[[] Hs] He] Hf. unfold finish in Hf. apply bind_Ok_inv in Hf as (t & [-> Ht]%ok_or_checked & Hf).
  destruct (_ <? _); [done|]. injection Hf as <-. split; [by split|done].
Qed.

#[export] Instance arena_runner_typed `{Blst} flags fuel c max_cost : TypedRunner (arena_runner flags fuel c max_cost).
Proof.
  intros cost_left puzzle sol cost read Hr. unfold arena_runner in Hr.
  apply obind_Ok in Hr as ([[c0 n] a] & _ & [= <- <-]). apply _.
Qed.

Lemma bundle_spend_typed `{Blst} flags fuel export_fuel c max_cost cs cache st cache' st' :
  coin_typed (cs_coin cs) → gen_typed st →
  bundle_spend flags fuel export_fuel c max_cost cs (cache, st) = Some (Ok (cache', st')) → gen_typed st'.
Proof.
  intros Hcoin Hok Hb. unfold bundle_spend in Hb. apply obind_Ok in Hb as ([[[[puzzle sol] cache1] st1] cost_left] & [= Hpre] & Hb).
  apply bind_Ok_inv in Hpre as (pz & _ & Hpre). apply bind_Ok_inv in Hpre as (sl & _ & Hpre).
  destruct (match _ !! _ with Some _ => _ | None => _ end) as [h cache2]. destruct (negb _); [done|].
  apply bind_Ok_inv in Hpre as (st1' & Hs%map_err_Ok & Hpre). apply bind_Ok_inv in Hpre as (cl & _ & [= <- <- <- <- <-]).
  apply obind_Ok in Hb as ([puzzle_cost output] & _ & [= Hb]). apply bind_Ok_inv in Hb as (cost & [-> Hcost]%ok_or_checked & Hb).
  apply bind_Ok_inv in Hb as (cds & Hc%map_err_Ok%conditions_try_from_sized & Hb).
  apply bind_Ok_inv in Hb as ([[spend cs'] extra] & Hread%map_err_Ok & Hb).
  apply bind_Ok_inv in Hb as (st2 & Hpush%map_err_Ok & [= _ <-]). pose proof (collecting_typed c true cds Hc) as Htyped.
  eapply (spend_step_typed (λ coin cs extra, spend_from_conditions c true coin cds cs extra));
    [exact Hcoin|exact Hok|exact Hs|exact Hcost|exact Hread|exact Hpush].
Qed.

Lemma bundle_spends_typed `{Blst} flags fuel export_fuel c max_cost l cache st cache' st' :
  Forall (λ cs, coin_typed (cs_coin cs)) l → gen_typed st →
  bundle_spends flags fuel export_fuel c max_cost l (cache, st) = Some (Ok (cache', st')) → gen_typed st'.
Proof.
  intros Hl. revert cache st. induction Hl as [|cs l Hcs Hl IH]; intros cache st Hok Hb; cbn [bundle_spends] in Hb.
  { by injection Hb as _ <-. }
  apply obind_Ok in Hb as ([cache1 st1] & Hb1 & Hb). apply (IH cache1 st1); [|done]. by eapply bundle_spend_typed.
Qed.

Lemma clear_ff_typed s : spend_typed s → spend_typed (clear_ff s).
Proof. intros []. by split. Qed.

Lemma commitments_typed r : conds_typed r → conds_typed (clear_ff_for_bundle_commitments r).
Proof.
  intros [[] Hs]. split; [by split|]. cbn. apply Forall_fmap.
  assert (Hf : ∀ idx l, Forall spend_typed l → Forall spend_typed (foldl (λ l i, alter clear_ff i l) l idx)).
  { induction idx as [|i idx IH]; intros l Hl; cbn; [done|]. apply IH. apply Forall_alter; [done|]. intros x _. apply clear_ff_typed. }
  eapply Forall_impl; [by apply Hf|]. intros s Hss. cbn. destruct (_ && _); [by apply clear_ff_typed|done].
Qed.

Lemma executed_typed `{Blst, MemoryOk} fuel export_fuel input r :
  execute_block_generator_result fuel export_fuel input = Some (Ok r) → conds_typed r.
Proof.
  unfold execute_block_generator_result. cbv zeta. intros Hx.
  apply obind_Ok in Hx as ([[generator byte_cost] cost_left] & _ & Hx). destruct (simple_generator (input_flags input)).
  - apply obind_Ok in Hx as ([cost output] & _ & Hx). apply obind_Ok in Hx as (total & [= [-> Ht]%ok_or_checked] & Hx).
    apply obind_Ok in Hx as (hs & [= Hh%map_err_Ok] & Hx). apply fmap_Some in Hx as (x & Hx & Hok). symmetry in Hok.
    apply map_err_Ok in Hok as ->. unfold conditions_from_generator_output, generator_output in Hx.
    apply obind_Ok in Hx as (all & _ & Hx). apply obind_Ok in Hx as (st & Hl & [= Hf]).
    eapply finish_typed; [|exact Hf]. eapply generator_spends_typed; [apply _| |by apply start_typed|exact Hl].
    destruct (place_coherent generator) as [env Hc]. rewrite (reveal_hashes_ok env _ Hc), place_erase in Hh. injection Hh as <-.
    destruct generator as [|q [|all' tl]]; cbn [default]; [constructor..|]. apply Forall_fmap, Forall_forall. intros t _. apply tree_hash_length.
  - apply obind_Ok in Hx as (rom & _ & Hx). apply obind_Ok in Hx as ([cost output] & _ & [= Hx]).
    apply bind_Ok_inv in Hx as (total & [-> Ht]%ok_or_checked & Hx%map_err_Ok). unfold conditions_from_processed_generator_output in Hx.
    apply bind_Ok_inv in Hx as (all & _ & Hx). apply bind_Ok_inv in Hx as (st & Hl & Hf).
    eapply finish_typed; [|exact Hf]. eapply processed_spends_typed; [by apply start_typed|exact Hl].
Qed.

Lemma bundle_typed `{Blst} fuel export_fuel coin_spends height c r :
  Forall (λ cs, coin_typed (cs_coin cs)) coin_spends →
  conditions_from_spend_bundle fuel export_fuel coin_spends height c = Some (Ok r) → conds_typed r.
Proof.
  intros Hcs Hr. unfold conditions_from_spend_bundle in Hr. cbv zeta in Hr.
  apply obind_Ok in Hr as (byte_cost & [= [Hb ->]%chk_Ok] & Hr). apply obind_Ok in Hr as ([cache st] & Hl & [= Hr]).
  apply bind_Ok_inv in Hr as (cost & Hcost & Hr). destruct (max_block_cost_clvm c <? cost) eqn:Em; [done|].
  injection Hr as <-. apply commitments_typed. eapply (finish_typed (max_block_cost_clvm c) Overflow st).
  - eapply bundle_spends_typed; [exact Hcs|by apply start_typed|exact Hl].
  - unfold finish. apply ok_or_checked in Hcost as [-> Hu]. rewrite checked_ok by done. cbn [ok_or mbind res_bind]. by rewrite Em.
Qed.

End loops.

