(* ===== verification/MerkleSet.v ===== *)
(** * Merkle sets: [core/src/consensus/merkle_set.rs] and the roots of
    [core/src/consensus/block_generator.rs]

    A block commits to the coins it adds and removes by the root of a Merkle
    set: a radix tree over 32-byte keys in which a lone key, or a lone pair of
    keys, is moved up through the levels where nothing else is.  The code has
    two constructions, one over a sorted list ([merkle_set_root]) and one that
    partitions in place and keeps the nodes ([MerkleSet::from_leafs]), proofs
    of inclusion and exclusion ([generate_proof]), and their check
    ([validate_merkle_proof]).

    The specification is [mtree_of], a tree built bit by bit from the set of
    keys alone. *)
From Stdlib Require Import ZArith Lia.
From stdpp Require Import base list numbers option sorting gmap sets.
From S2P Require Import Prelude Serialize ClvmNumber ClvmSexp Coin.

Open Scope Z_scope.

Inductive SetErrorT := SetError.
Notation mset := (res SetErrorT).

Definition BLANK : list Z := repeat 0 32.
Definition EMPTY_NODE_HASH : list Z :=
  [0x66; 0x68; 0x7a; 0xad; 0xf8; 0x62; 0xbd; 0x77; 0x6c; 0x8f; 0xc1; 0x8b; 0x8e; 0x9f; 0x8e; 0x20;
   0x08; 0x97; 0x14; 0x85; 0x6e; 0xe2; 0x33; 0xb3; 0x90; 0x2a; 0x59; 0x1d; 0x0d; 0x5f; 0x29; 0x25].

Definition EMPTY : Z := 0.
Definition TERMINAL : Z := 1.
Definition MIDDLE : Z := 2.
Definition TRUNCATED : Z := 3.

Inductive NodeType := NEmpty | NTerm | NMid | NMidDbl.
#[global] Instance node_type_dec : EqDecision NodeType.
Proof. solve_decision. Defined.

Definition encode_type (t : NodeType) : Z := match t with NEmpty => 0 | NTerm => 1 | NMid | NMidDbl => 2 end.

(** The bytes a middle node hashes. *)
Definition middle_bytes (ltype rtype : NodeType) (left right : list Z) : list Z :=
  repeat 0 30 ++ [encode_type ltype] ++ [encode_type rtype] ++ left ++ right.
Definition node_hash `{Sha256} (ltype rtype : NodeType) (left right : list Z) : list Z :=
  hash_256 (middle_bytes ltype rtype left right).
Definition hash_leaf `{Sha256} (leaf : list Z) : list Z := hash_256 ([1] ++ leaf).

(** The bit of a key, the most significant one first. *)
Definition get_bit (val : list Z) (bit : nat) : bool :=
  negb (Z.land (nth (bit / 8) val 0) (Z.shiftr 0x80 (Z.land (Z.of_nat bit) 7)) =? 0).

(** ** The stored tree *)
Inductive StoredKind := SLeaf | SMiddle (left right : nat) | SEmpty | STruncated.
Record StoredNode := mkNode { kind : StoredKind; stored_hash : list Z }.
Definition kind_type (k : StoredKind) : NodeType :=
  match k with SEmpty => NEmpty | SLeaf => NTerm | SMiddle _ _ | STruncated => NMid end.
Record MerkleSet := { nodes : list StoredNode; from_proof_flag : bool }.

(** The loop that moves the keys with a clear bit to the front; [swap] is
    [range.swap(left, right)]. *)
Definition swap (l : list (list Z)) (i j : nat) : list (list Z) :=
  match l !! i, l !! j with Some x, Some y => <[j := x]> (<[i := y]> l) | _, _ => l end.

Fixpoint partition_loop (fuel : nat) (depth : nat) (range : list (list Z)) (left right : Z) : mset (list (list Z) * Z * Z) :=
  if right <? left then Ok (range, left, right)
  else
    match fuel with
    | O => Panic
    | S fuel =>
        l ← expect (range !! Z.to_nat left);
        r ← expect (range !! Z.to_nat right);
        let left_bit := get_bit l depth in
        let right_bit := get_bit r depth in
        if left_bit && negb right_bit then
          partition_loop fuel depth (swap range (Z.to_nat left) (Z.to_nat right)) (left + 1) (right - 1)
        else
          partition_loop fuel depth range (if left_bit then left else left + 1) (if right_bit then right - 1 else right)
    end.

Section build.
Context `{Sha256}.

Definition built : Type := list StoredNode * (list Z * NodeType).

(** One side of a level is empty: the child moves up, with an empty sibling
    where it does not collapse. *)
Definition one_sided (left_empty : bool) (child : built) : built :=
  let '(ns, (child_hash, child_type)) := child in
  if bool_decide (child_type = NMid) then
    let ns := ns ++ [mkNode SEmpty EMPTY_NODE_HASH] in
    let node_length := length ns in
    if left_empty then
      let h := node_hash NEmpty child_type BLANK child_hash in
      (ns ++ [mkNode (SMiddle (node_length - 1) (node_length - 2)) h], (h, NMid))
    else
      let h := node_hash child_type NEmpty child_hash BLANK in
      (ns ++ [mkNode (SMiddle (node_length - 2) (node_length - 1)) h], (h, NMid))
  else child.

(** A middle node over two children, the right one last in the vector. *)
Definition middle_node (left_child_index : nat) (l : list Z * NodeType) (r : built) : built :=
  let '(left_hash, left_type) := l in
  let '(ns, (right_hash, right_type)) := r in
  let h := node_hash left_type right_type left_hash right_hash in
  let node_type :=
    if bool_decide (left_type = NTerm) && bool_decide (right_type = NTerm) then NMidDbl else NMid in
  (ns ++ [mkNode (SMiddle left_child_index (length ns - 1)) h], (h, node_type)).

(** The last level: two distinct keys. *)
Definition last_pair (x y : list Z) (ns : list StoredNode) : built :=
  let ns := ns ++ [mkNode SLeaf x] ++ [mkNode SLeaf y] in
  let nodes_len := length ns in
  let h := node_hash NTerm NTerm x y in
  (ns ++ [mkNode (SMiddle (nodes_len - 2) (nodes_len - 1)) h], (h, NMidDbl)).

(** [generate_merkle_tree_recurse]; [n] is 255 less the depth. *)
Fixpoint generate_merkle_tree_recurse (n : nat) (depth : nat) (range : list (list Z)) (ns : list StoredNode) : mset built :=
  match range with
  | [] => Panic
  | [x] => Ok (ns ++ [mkNode SLeaf x], (x, NTerm))
  | _ =>
      '(range, low, high) ← partition_loop (S (length range)) depth range 0 (zlen range - 1);
      let left_empty := low =? 0 in
      let right_empty := high =? zlen range - 1 in
      if left_empty || right_empty then
        match n with
        | O => x ← expect (range !! 0%nat); Ok (ns ++ [mkNode SLeaf x], (x, NTerm))
        | S n => child ← generate_merkle_tree_recurse n (S depth) range ns; Ok (one_sided left_empty child)
        end
      else
        match n with
        | O => x ← expect (range !! 0%nat); y ← expect (range !! Z.to_nat low); Ok (last_pair x y ns)
        | S n =>
            '(ns, l) ← generate_merkle_tree_recurse n (S depth) (take (Z.to_nat low) range) ns;
            let left_child_index := (length ns - 1)%nat in
            r ← generate_merkle_tree_recurse n (S depth) (drop (Z.to_nat low) range) ns;
            Ok (middle_node left_child_index l r)
        end
  end.

Definition from_leafs (leafs : list (list Z)) : mset MerkleSet :=
  match leafs with
  | [] => Ok {| nodes := [mkNode SEmpty BLANK]; from_proof_flag := false |}
  | _ =>
      '(ns, _) ← generate_merkle_tree_recurse 255 0 leafs [];
      Ok {| nodes := ns; from_proof_flag := false |}
  end.

Definition get_root (t : MerkleSet) : list Z :=
  match last (nodes t) with
  | None => BLANK
  | Some n =>
      match kind n with
      | SLeaf => hash_leaf (stored_hash n)
      | SMiddle _ _ | STruncated => stored_hash n
      | SEmpty => BLANK
      end
  end.
End build.

(** ** Proofs: [deserialize_proof_impl] *)
Inductive ParseOp := PNode | PMiddle.

Definition read_exact (proof : list Z) (pos n : nat) : mset (list Z * nat) :=
  if (pos + n <=? length proof)%nat then Ok (take n (drop pos proof), (pos + n)%nat) else Err SetError.

Record parse_state := mkParse {
  p_pos : nat;
  p_values : list (nat * NodeType);
  p_ops : list ParseOp;
  p_depth : nat;
  p_bits : list (list bool);
  p_nodes : list StoredNode;
}.

Definition leaf_placed (bits : list bool) (leaf : list Z) : bool :=
  forallb (λ '(p, v), bool_decide (get_bit leaf (p mod 256) = v)) (imap pair bits).

Definition parse_node (proof : list Z) (bits : list bool) (s : parse_state) : mset parse_state :=
  '(byte, pos) ← read_exact proof (p_pos s) 1;
  match byte with
  | [0] =>
      Ok (mkParse pos ((length (p_nodes s), NEmpty) :: p_values s) (p_ops s) (p_depth s) (p_bits s)
            (p_nodes s ++ [mkNode SEmpty BLANK]))
  | [1] =>
      '(leaf, pos) ← read_exact proof pos 32;
      if leaf_placed bits leaf then
        Ok (mkParse pos ((length (p_nodes s), NTerm) :: p_values s) (p_ops s) (p_depth s) (p_bits s)
              (p_nodes s ++ [mkNode SLeaf leaf]))
      else Err SetError
  | [3] =>
      '(th, pos) ← read_exact proof pos 32;
      Ok (mkParse pos ((length (p_nodes s), NMid) :: p_values s) (p_ops s) (p_depth s) (p_bits s)
            (p_nodes s ++ [mkNode STruncated th]))
  | [2] =>
      if (256 <? p_depth s)%nat then Err SetError
      else
        Ok (mkParse pos (p_values s) (PNode :: PNode :: PMiddle :: p_ops s) (S (p_depth s))
              ((bits ++ [false]) :: (bits ++ [true]) :: [] :: p_bits s) (p_nodes s))
  | _ => Err SetError
  end.

Definition parse_middle `{Sha256} (s : parse_state) : mset parse_state :=
  match p_values s with
  | (ri, rt) :: (li, lt) :: values =>
      l ← expect (p_nodes s !! li);
      r ← expect (p_nodes s !! ri);
      let '(value, h) :=
        match lt, rt with
        | NEmpty, NMidDbl => ((ri, rt), stored_hash r)
        | NMidDbl, NEmpty => ((li, lt), stored_hash l)
        | _, _ =>
            ((length (p_nodes s), match lt, rt with NTerm, NTerm => NMidDbl | _, _ => NMid end),
             node_hash (kind_type (kind l)) (kind_type (kind r)) (stored_hash l) (stored_hash r))
        end in
      depth ← expect (if (p_depth s =? 0)%nat then None else Some (p_depth s - 1)%nat);
      Ok (mkParse (p_pos s) (value :: values) (p_ops s) depth (p_bits s) (p_nodes s ++ [mkNode (SMiddle li ri) h]))
  | _ => Err SetError
  end.

Fixpoint parse_proof_loop `{Sha256} (fuel : nat) (proof : list Z) (s : parse_state) : mset parse_state :=
  match p_ops s with
  | [] => Ok s
  | op :: ops =>
      match fuel with
      | O => Panic
      | S fuel =>
          match p_bits s with
          | [] => Err SetError
          | bits :: rest =>
              let s := mkParse (p_pos s) (p_values s) ops (p_depth s) rest (p_nodes s) in
              s ← match op with PNode => parse_node proof bits s | PMiddle => parse_middle s end;
              parse_proof_loop fuel proof s
          end
      end
  end.

(** A proof of [n] bytes has at most [n] nodes, each visited at most twice. *)
Definition from_proof `{Sha256} (proof : list Z) : mset MerkleSet :=
  s ← parse_proof_loop (2 * length proof + 2) proof (mkParse 0 [] [PNode] 0 [[]] []);
  if (p_pos s =? length proof)%nat then Ok {| nodes := p_nodes s; from_proof_flag := true |} else Err SetError.

(** ** [generate_proof] *)
(** [depth + 1] on a [u8] *)
Definition next_depth (depth : nat) : mset nat := if (depth =? 255)%nat then Panic else Ok (S depth).

Fixpoint pad_middles_for_proof_gen (n : nat) (left right : list Z) (depth : nat) : mset (list Z) :=
  let left_bit := get_bit left depth in
  let right_bit := get_bit right depth in
  if negb (bool_decide (left_bit = right_bit)) then Ok (MIDDLE :: TERMINAL :: left ++ TERMINAL :: right)
  else
    match n with
    | O => Panic
    | S n =>
        if left_bit then
          depth ← next_depth depth; rest ← pad_middles_for_proof_gen n left right depth;
          Ok (MIDDLE :: EMPTY :: rest)
        else
          depth ← next_depth depth; rest ← pad_middles_for_proof_gen n left right depth;
          Ok (MIDDLE :: rest ++ [EMPTY])
    end.

Definition other_included (ns : list StoredNode) (i : nat) : mset (list Z) :=
  node ← expect (ns !! i);
  Ok (match kind node with
      | SEmpty => [EMPTY]
      | SMiddle _ _ | STruncated => TRUNCATED :: stored_hash node
      | SLeaf => TERMINAL :: stored_hash node
      end).

(** [generate_proof_impl]; the depth is a [u8], so there are at most 256
    levels. *)
Fixpoint generate_proof_impl (fuel : nat) (ns : list StoredNode) (i : nat) (leaf : list Z) (depth : nat) :
    mset (bool * list Z) :=
  match fuel with
  | O => Panic
  | S fuel =>
      node ← expect (ns !! i);
      match kind node with
      | SEmpty => Ok (false, [EMPTY])
      | SLeaf => Ok (bool_decide (stored_hash node = leaf), TERMINAL :: stored_hash node)
      | SMiddle li ri =>
          l ← expect (ns !! li);
          r ← expect (ns !! ri);
          match kind l, kind r with
          | SLeaf, SLeaf =>
              proof ← pad_middles_for_proof_gen 256 (stored_hash l) (stored_hash r) depth;
              Ok (bool_decide (stored_hash l = leaf) || bool_decide (stored_hash r = leaf), proof)
          | _, _ =>
              if get_bit leaf depth then
                other ← other_included ns li;
                depth ← next_depth depth;
                '(b, proof) ← generate_proof_impl fuel ns ri leaf depth;
                Ok (b, MIDDLE :: other ++ proof)
              else
                depth ← next_depth depth;
                '(b, proof) ← generate_proof_impl fuel ns li leaf depth;
                other ← other_included ns ri;
                Ok (b, MIDDLE :: proof ++ other)
          end
      | STruncated => Err SetError
      end
  end.

Definition generate_proof (t : MerkleSet) (leaf : list Z) : mset (bool * list Z) :=
  i ← ok_or (match nodes t with [] => None | _ => Some (length (nodes t) - 1)%nat end) SetError;
  '(included, proof) ← generate_proof_impl 257 (nodes t) i leaf 0;
  Ok (included, if from_proof_flag t then [] else proof).

Definition validate_merkle_proof `{Sha256} (proof item root : list Z) : mset bool :=
  tree ← from_proof proof;
  if negb (bool_decide (get_root tree = root)) then Err SetError
  else '(included, _) ← generate_proof tree item; Ok included.

(** ** The roots of a block: [merkle_set_root] *)
Inductive MerkleNodeType := Terminal | Middle | MiddleDbl.
#[global] Instance merkle_node_type_dec : EqDecision MerkleNodeType.
Proof. solve_decision. Defined.
Definition tag (t : MerkleNodeType) : Z := match t with Terminal => 1 | Middle | MiddleDbl => 2 end.

Definition merkle_hashdown `{Sha256} (ltag rtag : Z) (left right : list Z) : list Z :=
  hash_256 (repeat 0 30 ++ [ltag] ++ [rtag] ++ left ++ right).

Definition bit_is_set (item : list Z) (bit : nat) : bool :=
  let byte := (bit / 8)%nat in
  let offset := (7 - bit mod 8)%nat in
  (byte <? length item)%nat && negb (Z.land (nth byte item 0) (Z.shiftl 1 (Z.of_nat offset)) =? 0).

(** [dedup] of a sorted vector. *)
Fixpoint dedup (l : list (list Z)) : list (list Z) :=
  match l with
  | x :: (y :: _) as tl => if bool_decide (x = y) then dedup tl else x :: dedup tl
  | _ => l
  end.
Definition sort_unstable (l : list (list Z)) : list (list Z) := merge_sort bytes_leb l.
Definition position {A} (f : A → bool) (l : list A) : option nat := fst <$> list_find f l.

Section roots.
Context `{Sha256}.

(** [merkle_set_recurse]; at most 257 levels for distinct keys. *)
Fixpoint merkle_set_recurse (fuel : nat) (items : list (list Z)) (depth : nat) : mset (list Z * MerkleNodeType) :=
  match fuel with
  | O => Panic
  | S fuel =>
      match items with
      | [x] => Ok (x, Terminal)
      | _ =>
          let split := default (length items) (position (λ item, bit_is_set item depth) items) in
          match take split items, drop split items with
          | [], [] => Panic
          | [], items_right =>
              '(child, child_type) ← merkle_set_recurse fuel items_right (S depth);
              if bool_decide (child_type = Middle) then
                Ok (merkle_hashdown 0 2 BLANK child, Middle)
              else Ok (child, child_type)
          | items_left, [] =>
              '(child, child_type) ← merkle_set_recurse fuel items_left (S depth);
              if bool_decide (child_type = Middle) then
                Ok (merkle_hashdown 2 0 child BLANK, Middle)
              else Ok (child, child_type)
          | items_left, items_right =>
              '(lhash, ltype) ← merkle_set_recurse fuel items_left (S depth);
              '(rhash, rtype) ← merkle_set_recurse fuel items_right (S depth);
              Ok (merkle_hashdown (tag ltype) (tag rtype) lhash rhash,
                  if bool_decide (ltype = Terminal) && bool_decide (rtype = Terminal) then MiddleDbl else Middle)
          end
      end
  end.

Definition merkle_set_root (items : list (list Z)) : mset (list Z) :=
  let items := dedup (sort_unstable items) in
  match items with
  | [] => Ok BLANK
  | _ =>
      '(h, node_type) ← merkle_set_recurse 257 items 0;
      Ok (match node_type with Terminal => hash_256 ([1] ++ h) | Middle | MiddleDbl => h end)
  end.
End roots.

(** ** Bits of a key *)
Definition key_ok (k : list Z) : Prop := length k = 32%nat ∧ bytes_ok k.

(** The number a key is, and its bits. *)
Definition byte_bit_table : bool :=
  forallb (λ b, forallb (λ j,
    Bool.eqb (negb (Z.land (Z.of_nat b) (Z.shiftr 0x80 (Z.of_nat j)) =? 0)) (Z.testbit (Z.of_nat b) (7 - Z.of_nat j)) &&
    Bool.eqb (negb (Z.land (Z.of_nat b) (Z.shiftl 1 (Z.of_nat (7 - j))) =? 0)) (Z.testbit (Z.of_nat b) (7 - Z.of_nat j)))
    (seq 0 8)) (seq 0 256).

Lemma byte_bits b j :
  byte_ok b → (j < 8)%nat →
  negb (Z.land b (Z.shiftr 0x80 (Z.of_nat j)) =? 0) = Z.testbit b (7 - Z.of_nat j) ∧
  negb (Z.land b (Z.shiftl 1 (Z.of_nat (7 - j))) =? 0) = Z.testbit b (7 - Z.of_nat j).
Proof.
  intros [Hb Hb'] Hj. assert (Ht : byte_bit_table = true) by (vm_compute; reflexivity).
  unfold byte_bit_table in Ht. rewrite forallb_forall in Ht. specialize (Ht (Z.to_nat b)).
  rewrite forallb_forall in Ht. specialize (Ht ltac:(apply in_seq; lia) j ltac:(apply in_seq; lia)).
  rewrite Z2Nat.id in Ht by lia. apply andb_true_iff in Ht as [H1 H2].
  split; by apply Bool.eqb_prop.
Qed.

Lemma land_7 (i : nat) : Z.land (Z.of_nat i) 7 = Z.of_nat (i mod 8).
Proof. change 7 with (Z.ones 3). rewrite Z.land_ones by lia. by rewrite Nat2Z.inj_mod. Qed.

Lemma from_be_testbit k i :
  bytes_ok k → (i < 8 * length k)%nat →
  Z.testbit (from_be k) (Z.of_nat (8 * length k - 1 - i)) = Z.testbit (nth (i / 8) k 0) (7 - Z.of_nat (i mod 8)).
Proof.
  intros Hk. revert i. induction k as [|b k IH]; intros i Hi; [cbn in Hi; lia|].
  apply bytes_ok_cons in Hk as [Hb Hk]. rewrite from_be_cons. cbn [length] in *.
  assert (Hp : 256 ^ zlen k = 2 ^ (8 * Z.of_nat (length k))) by (unfold zlen; rewrite Z.pow_mul_r by lia; done).
  assert (Hrange : 0 ≤ from_be k < 2 ^ (8 * Z.of_nat (length k))) by (rewrite <- Hp; by apply from_be_bounds).
  rewrite Hp. destruct (decide (i < 8)%nat) as [Hlt|Hge].
  - rewrite (Nat.div_small i 8), (Nat.mod_small i 8) by lia. cbn [nth].
    replace (Z.of_nat (8 * S (length k) - 1 - i)) with ((7 - Z.of_nat i) + 8 * Z.of_nat (length k)) by lia.
    rewrite <- Z.div_pow2_bits by lia. f_equal. rewrite Z.div_add_l by lia. rewrite Z.div_small by lia. lia.
  - specialize (IH Hk (i - 8)%nat ltac:(lia)).
    replace (i / 8)%nat with (S ((i - 8) / 8)).
    2: { replace i with ((i - 8) + 1 * 8)%nat at 2 by lia. rewrite Nat.div_add by lia. lia. }
    replace (i mod 8)%nat with ((i - 8) mod 8)%nat.
    2: { replace i with ((i - 8) + 1 * 8)%nat at 2 by lia. by rewrite Nat.Div0.mod_add. }
    cbn [nth]. rewrite <- IH. replace (8 * S (length k) - 1 - i)%nat with (8 * length k - 1 - (i - 8))%nat by lia.
    rewrite <- (Z.mod_pow2_bits_low (b * _ + _) (8 * Z.of_nat (length k))) by lia.
    f_equal. rewrite Z.add_comm, Z.mod_add by lia. by apply Z.mod_small.
Qed.

Lemma nth_byte_ok k i : bytes_ok k → byte_ok (nth i k 0).
Proof. intros Hk. revert i. induction Hk; intros [|i]; cbn; try done. Qed.

Lemma get_bit_testbit k i : key_ok k → (i < 256)%nat → get_bit k i = Z.testbit (from_be k) (Z.of_nat (255 - i)).
Proof.
  intros [Hl Hk] Hi. unfold get_bit. rewrite land_7.
  rewrite (proj1 (byte_bits _ (i mod 8) (nth_byte_ok k (i / 8) Hk) ltac:(apply Nat.mod_upper_bound; lia))).
  rewrite <- from_be_testbit by (rewrite ?Hl; done || lia). by rewrite Hl.
Qed.

Lemma bit_is_set_get_bit k i : key_ok k → (i < 256)%nat → bit_is_set k i = get_bit k i.
Proof.
  intros [Hl Hk] Hi. unfold bit_is_set, get_bit. rewrite land_7.
  destruct (byte_bits _ (i mod 8) (nth_byte_ok k (i / 8) Hk) ltac:(apply Nat.mod_upper_bound; lia)) as [-> ->].
  rewrite (proj2 (Nat.ltb_lt _ _)); [done|]. rewrite Hl. apply Nat.Div0.div_lt_upper_bound. lia.
Qed.

(** Keys that agree on all bits are equal. *)
Lemma key_bits_eq x y : key_ok x → key_ok y → (∀ i, (i < 256)%nat → get_bit x i = get_bit y i) → x = y.
Proof.
  intros Hx Hy Hb. assert (from_be x = from_be y) as Heq.
  { apply Z.bits_inj'. intros n Hn. destruct (decide (n < 256)) as [Hlt|Hge].
    - specialize (Hb (255 - Z.to_nat n)%nat ltac:(lia)). rewrite !get_bit_testbit in Hb by (done || lia).
      by replace (Z.of_nat (255 - (255 - Z.to_nat n))) with n in Hb by lia.
    - assert (Hr : ∀ k, key_ok k → 0 ≤ from_be k < 2 ^ 256).
      { intros k [Hl Hk]. pose proof (from_be_bounds k Hk) as Hkb. unfold zlen in Hkb. rewrite Hl in Hkb. exact Hkb. }
      assert (Hz : ∀ k, key_ok k → Z.testbit (from_be k) n = false).
      { intros k Hk. specialize (Hr k Hk). destruct (decide (from_be k = 0)) as [->|Hnz]; [apply Z.bits_0|].
        apply Z.bits_above_log2; [lia|]. assert (Z.log2 (from_be k) < 256) by (apply Z.log2_lt_pow2; lia). lia. }
      by rewrite !Hz. }
  destruct Hx as [Hlx Hx], Hy as [Hly Hy]. rewrite <- (to_be_from_be x Hx), <- (to_be_from_be y Hy), Hlx, Hly. by rewrite Heq.
Qed.

(** ** The specification: a tree built from the set of keys *)
Inductive mtree := MEmpty | MLeaf (k : list Z) | MTrunc (h : list Z) | MNode (l r : mtree).

Definition ntype (t : mtree) : NodeType :=
  match t with
  | MEmpty => NEmpty
  | MLeaf _ => NTerm
  | MNode (MLeaf _) (MLeaf _) => NMidDbl
  | MNode _ _ | MTrunc _ => NMid
  end.
Fixpoint nhash `{Sha256} (t : mtree) : list Z :=
  match t with
  | MEmpty => BLANK
  | MLeaf k => k
  | MTrunc h => h
  | MNode l r => node_hash (ntype l) (ntype r) (nhash l) (nhash r)
  end.
Definition root_of `{Sha256} (t : mtree) : list Z :=
  match t with MLeaf k => hash_leaf k | _ => nhash t end.

(** A lone key or a lone pair moves up; anything else keeps its level. *)
Definition join (l r : mtree) : mtree :=
  match ntype l, ntype r with
  | NEmpty, NEmpty => MEmpty
  | NEmpty, (NTerm | NMidDbl) => r
  | (NTerm | NMidDbl), NEmpty => l
  | _, _ => MNode l r
  end.

Definition clear_at (d : nat) (l : list (list Z)) : list (list Z) := filter (λ k, get_bit k d = false) l.
Definition set_at (d : nat) (l : list (list Z)) : list (list Z) := filter (λ k, get_bit k d = true) l.

(** The tree of the keys [P], [n] levels from depth [d]. *)
Fixpoint mtree_of (n d : nat) (P : list (list Z)) : mtree :=
  match n with
  | O => match P with [] => MEmpty | x :: _ => MLeaf x end
  | S n => join (mtree_of n (S d) (clear_at d P)) (mtree_of n (S d) (set_at d P))
  end.

(** Keys that agree on the bits above depth [d]. *)
Definition agree (d : nat) (P : list (list Z)) : Prop :=
  ∀ x y i, x ∈ P → y ∈ P → (i < d)%nat → get_bit x i = get_bit y i.

Lemma agree_sub d P Q : (∀ x, x ∈ Q → x ∈ P) → agree d P → agree d Q.
Proof. intros Hsub Ha x y i Hx Hy. apply Ha; auto. Qed.

Lemma elem_clear d P x : x ∈ clear_at d P ↔ get_bit x d = false ∧ x ∈ P.
Proof. unfold clear_at. by rewrite list_elem_of_filter. Qed.
Lemma elem_set d P x : x ∈ set_at d P ↔ get_bit x d = true ∧ x ∈ P.
Proof. unfold set_at. by rewrite list_elem_of_filter. Qed.

Lemma agree_S d P b Q :
  agree d P → (∀ x, x ∈ Q ↔ get_bit x d = b ∧ x ∈ P) → agree (S d) Q.
Proof.
  intros Ha HQ x y i Hx Hy Hi. apply HQ in Hx as [Hbx Hx], Hy as [Hby Hy].
  destruct (decide (i = d)) as [->|Hne]; [congruence|]. apply Ha; [done..|lia].
Qed.

Lemma keys_sub P Q : (∀ x, x ∈ Q → x ∈ P) → Forall key_ok P → Forall key_ok Q.
Proof. rewrite !Forall_forall. auto. Qed.

Lemma agree_same P x y : Forall key_ok P → agree 256 P → x ∈ P → y ∈ P → x = y.
Proof. rewrite Forall_forall. intros Hk Ha Hx Hy. apply key_bits_eq; auto. Qed.

(** The tree depends on the set only. *)
Lemma mtree_of_ext n d P Q :
  (n + d = 256)%nat → Forall key_ok P → Forall key_ok Q → agree d P →
  (∀ x, x ∈ P ↔ x ∈ Q) → mtree_of n d P = mtree_of n d Q.
Proof.
  revert d P Q. induction n as [|n IH]; intros d P Q Hd HP HQ Ha Heq; cbn [mtree_of].
  - assert (d = 256%nat) as -> by lia. destruct P as [|x P], Q as [|y Q].
    + done.
    + specialize (Heq y). set_solver.
    + specialize (Heq x). set_solver.
    + f_equal. apply (agree_same (x :: P)); [done|done|set_solver|apply Heq; set_solver].
  - f_equal; apply IH; try lia.
    + eapply keys_sub; [|exact HP]. intros x. rewrite elem_clear. tauto.
    + eapply keys_sub; [|exact HQ]. intros x. rewrite elem_clear. tauto.
    + eapply agree_S; [exact Ha|]. intros x. apply elem_clear.
    + intros x. rewrite !elem_clear, Heq. done.
    + eapply keys_sub; [|exact HP]. intros x. rewrite elem_set. tauto.
    + eapply keys_sub; [|exact HQ]. intros x. rewrite elem_set. tauto.
    + eapply agree_S; [exact Ha|]. intros x. apply elem_set.
    + intros x. rewrite !elem_set, Heq. done.
Qed.

Lemma mtree_of_nil n d : mtree_of n d [] = MEmpty.
Proof. revert d. induction n as [|n IH]; intros d; cbn; [done|]. unfold clear_at, set_at. cbn. by rewrite IH. Qed.

Lemma mtree_of_single n d x P : x ∈ P → (∀ y, y ∈ P → y = x) → mtree_of n d P = MLeaf x.
Proof.
  revert d P. induction n as [|n IH]; intros d P Hin Hall; cbn [mtree_of].
  { destruct P as [|y P]; [set_solver|]. f_equal. apply Hall. set_solver. }
  destruct (get_bit x d) eqn:Hb.
  - replace (clear_at d P) with (@nil (list Z)).
    2: { symmetry. apply elem_of_nil_inv. intros y [Hy Hyp%Hall]%elem_clear. congruence. }
    rewrite mtree_of_nil, IH; [done|apply elem_set; auto|]. intros y [_ Hy]%elem_set. auto.
  - replace (set_at d P) with (@nil (list Z)).
    2: { symmetry. apply elem_of_nil_inv. intros y [Hy Hyp%Hall]%elem_set. congruence. }
    rewrite mtree_of_nil, IH; [done|apply elem_clear; auto|]. intros y [_ Hy]%elem_clear. auto.
Qed.

(** What a tree of keys says about them. *)
Lemma join_cases l r :
  (join l r = MNode l r ∧ ¬ (ntype l = NEmpty ∧ (ntype r = NTerm ∨ ntype r = NMidDbl)) ∧
     ¬ ((ntype l = NTerm ∨ ntype l = NMidDbl) ∧ ntype r = NEmpty) ∧ ¬ (ntype l = NEmpty ∧ ntype r = NEmpty)) ∨
  (ntype l = NEmpty ∧ ntype r = NEmpty ∧ join l r = MEmpty) ∨
  (ntype l = NEmpty ∧ (ntype r = NTerm ∨ ntype r = NMidDbl) ∧ join l r = r) ∨
  (ntype r = NEmpty ∧ (ntype l = NTerm ∨ ntype l = NMidDbl) ∧ join l r = l).
Proof. unfold join. destruct (ntype l), (ntype r); naive_solver. Qed.

Lemma ntype_empty t : ntype t = NEmpty ↔ t = MEmpty.
Proof. destruct t as [| | |[] []]; cbn; naive_solver. Qed.
Lemma ntype_term t : ntype t = NTerm ↔ ∃ k, t = MLeaf k.
Proof. destruct t as [| | |[] []]; cbn; naive_solver. Qed.
Lemma ntype_dbl t : ntype t = NMidDbl ↔ ∃ a b, t = MNode (MLeaf a) (MLeaf b).
Proof. destruct t as [| | |[] []]; cbn; naive_solver. Qed.

(** The keys of a tree. *)
Fixpoint keys (t : mtree) : list (list Z) :=
  match t with MLeaf k => [k] | MNode l r => keys l ++ keys r | _ => [] end.

Lemma keys_join l r x : x ∈ keys (join l r) ↔ x ∈ keys l ∨ x ∈ keys r.
Proof.
  destruct (join_cases l r) as [[-> _]|[(Hl & Hr & ->)|[(Hl & _ & ->)|(Hr & _ & ->)]]].
  - cbn. by rewrite elem_of_app.
  - apply ntype_empty in Hl as ->, Hr as ->. cbn. set_solver.
  - apply ntype_empty in Hl as ->. cbn. set_solver.
  - apply ntype_empty in Hr as ->. cbn. set_solver.
Qed.

Lemma keys_mtree_of n d P x :
  (n + d = 256)%nat → Forall key_ok P → agree d P → x ∈ keys (mtree_of n d P) ↔ x ∈ P.
Proof.
  revert d P. induction n as [|n IH]; intros d P Hd HP Ha; cbn [mtree_of].
  - assert (d = 256%nat) as -> by lia. destruct P as [|y P]; cbn; [set_solver|].
    rewrite list_elem_of_singleton. split; [intros ->; set_solver|].
    intros Hx. apply (agree_same (y :: P)); [done|done|done|set_solver].
  - rewrite keys_join, !IH; try lia.
    + rewrite elem_clear, elem_set. destruct (get_bit x d); naive_solver.
    + eapply keys_sub; [|exact HP]. intros y. rewrite elem_set. tauto.
    + eapply agree_S; [exact Ha|]. intros y. apply elem_set.
    + eapply keys_sub; [|exact HP]. intros y. rewrite elem_clear. tauto.
    + eapply agree_S; [exact Ha|]. intros y. apply elem_clear.
Qed.

(** ** The sorted construction *)
Lemma bytes_leb_total x y : bytes_leb x y = true ∨ bytes_leb y x = true.
Proof.
  revert y. induction x as [|a x IH]; intros [|b y]; cbn; auto.
  destruct (Z.ltb_spec a b), (Z.ltb_spec b a); auto; lia.
Qed.

Lemma bytes_leb_trans x y z : bytes_leb x y = true → bytes_leb y z = true → bytes_leb x z = true.
Proof.
  revert y z. induction x as [|a x IH]; intros [|b y] [|c z]; cbn; try done.
  destruct (Z.ltb_spec a b), (Z.ltb_spec b a), (Z.ltb_spec b c), (Z.ltb_spec c b), (Z.ltb_spec a c), (Z.ltb_spec c a);
    try done; try lia. apply IH.
Qed.

#[local] Instance bytes_le_total : Total (λ x y, Is_true (bytes_leb x y)).
Proof. intros x y. destruct (bytes_leb_total x y) as [Hx|Hx]; [left|right]; by rewrite Hx. Qed.
#[local] Instance bytes_le_trans : Transitive (λ x y, Is_true (bytes_leb x y)).
Proof. intros x y z Hx%Is_true_true Hy%Is_true_true. apply Is_true_true. by eapply bytes_leb_trans. Qed.

Lemma bytes_leb_num x y :
  bytes_ok x → bytes_ok y → length x = length y → bytes_leb x y = true → from_be x ≤ from_be y.
Proof.
  intros Hx. revert y. induction Hx as [|a x Ha Hx IH]; intros [|b y] Hy Hl; cbn [length] in Hl; try done.
  apply bytes_ok_cons in Hy as [Hb Hy]. injection Hl as Hl. rewrite !from_be_cons. cbn [bytes_leb].
  pose proof (from_be_bounds x Hx). pose proof (from_be_bounds y Hy). unfold zlen in *. rewrite Hl in *.
  assert (0 < 256 ^ Z.of_nat (length y)) by lia.
  destruct (Z.ltb_spec a b); [intros _; nia|]. destruct (Z.ltb_spec b a); [done|].
  assert (a = b) as -> by lia. intros Hle%IH; [lia|done|done].
Qed.

Definition key_lt (x y : list Z) : Prop := from_be x < from_be y.

Lemma key_num_inj x y : key_ok x → key_ok y → from_be x = from_be y → x = y.
Proof.
  intros [Hlx Hx] [Hly Hy] Heq. rewrite <- (to_be_from_be x Hx), <- (to_be_from_be y Hy), Hlx, Hly. by rewrite Heq.
Qed.

Lemma dedup_cons2 a b l : dedup (a :: b :: l) = if bool_decide (a = b) then dedup (b :: l) else a :: dedup (b :: l).
Proof. done. Qed.

Lemma elem_of_dedup l x : x ∈ dedup l ↔ x ∈ l.
Proof.
  induction l as [|a l IH]; [done|]. destruct l as [|b l]; [done|]. rewrite dedup_cons2.
  case_bool_decide as Hab; [subst|]; rewrite ?elem_of_cons, IH; set_solver.
Qed.

Lemma dedup_sorted l :
  Forall key_ok l → StronglySorted (λ x y, Is_true (bytes_leb x y)) l → StronglySorted key_lt (dedup l).
Proof.
  induction l as [|a l IH]; intros Hk Hs; [constructor|]. inversion Hk as [|? ? Ha Hk']; subst.
  inversion Hs as [|? ? Hs' Hall]; subst. specialize (IH Hk' Hs').
  destruct l as [|b l]; [repeat constructor|]. rewrite dedup_cons2.
  case_bool_decide as Hab; [done|]. constructor; [done|].
  apply Forall_forall. intros y Hy. rewrite elem_of_dedup in Hy. rewrite Forall_forall in Hall, Hk'.
  assert (Hle : ∀ z, z ∈ b :: l → from_be a ≤ from_be z).
  { intros z Hz. destruct Ha as [Hla Ha], (Hk' z Hz) as [Hlz Hkz].
    apply bytes_leb_num; [done|done|congruence|]. apply Is_true_true, Hall, Hz. }
  assert (Hab' : from_be a < from_be b).
  { assert (from_be a ≤ from_be b) by (apply Hle; set_solver).
    assert (from_be a ≠ from_be b); [|lia]. intros Heq%key_num_inj; [done|done|apply Hk'; set_solver]. }
  apply elem_of_cons in Hy as [->|Hy]; [done|]. unfold key_lt. inversion Hs' as [|? ? _ Hall']; subst.
  rewrite Forall_forall in Hall'. specialize (Hall' y Hy).
  destruct (Hk' b ltac:(set_solver)) as [Hlb Hkb], (Hk' y ltac:(set_solver)) as [Hly Hky].
  pose proof (bytes_leb_num b y Hkb Hky ltac:(congruence) ltac:(by apply Is_true_true)). lia.
Qed.

(** Sorted keys that agree above a bit are split by it. *)
Lemma bit_monotone x y d :
  key_ok x → key_ok y → (d < 256)%nat → (∀ i, (i < d)%nat → get_bit x i = get_bit y i) → key_lt x y →
  get_bit x d = true → get_bit y d = true.
Proof.
  intros Hx Hy Hd Ha Hlt Hbx. destruct (get_bit y d) eqn:Hby; [done|]. exfalso.
  rewrite get_bit_testbit in Hbx, Hby by done. set (j := Z.of_nat (255 - d)) in *.
  assert (Hhi : from_be x / 2 ^ (j + 1) = from_be y / 2 ^ (j + 1)).
  { apply Z.bits_inj'. intros n Hn. rewrite !Z.div_pow2_bits by lia.
    destruct (decide (n + (j + 1) < 256)) as [Hlt'|Hge].
    - specialize (Ha (255 - Z.to_nat (n + (j + 1)))%nat ltac:(lia)). rewrite !get_bit_testbit in Ha by (done || lia).
      by replace (Z.of_nat (255 - (255 - Z.to_nat (n + (j + 1))))) with (n + (j + 1)) in Ha by lia.
    - assert (Hz : ∀ k, key_ok k → Z.testbit (from_be k) (n + (j + 1)) = false).
      { intros k [Hl Hk]. pose proof (from_be_bounds k Hk) as Hkb. unfold zlen in Hkb. rewrite Hl in Hkb.
        change (256 ^ Z.of_nat 32) with (2 ^ 256) in Hkb.
        rewrite <- (Z.mod_small (from_be k) (2 ^ 256)) by lia. apply Z.mod_pow2_bits_high. lia. }
      by rewrite !Hz. }
  assert (Hsplit : ∀ z, z / 2 ^ j = 2 * (z / 2 ^ (j + 1)) + Z.b2z (Z.testbit z j)).
  { intros z. rewrite Z.testbit_spec' by lia. rewrite Z.pow_add_r, <- Z.div_div by lia. change (2 ^ 1) with 2.
    apply Z.div_mod. lia. }
  pose proof (Hsplit (from_be x)) as Hsx. pose proof (Hsplit (from_be y)) as Hsy. rewrite Hbx in Hsx. rewrite Hby in Hsy. cbn in Hsx, Hsy.
  unfold key_lt in Hlt. assert (from_be x / 2 ^ j ≤ from_be y / 2 ^ j) by (apply Z.div_le_mono; lia). lia.
Qed.

Lemma position_cons {A} (f : A → bool) x l : position f (x :: l) = if f x then Some 0%nat else S <$> position f l.
Proof.
  unfold position. cbn. destruct (decide (Is_true (f x))) as [Hf|Hf]; cbn.
  - by rewrite (Is_true_true_1 _ Hf).
  - destruct (f x); [done|]. by destruct (list_find _ l) as [[]|].
Qed.

Lemma filter_all {A} (P : A → Prop) `{∀ x, Decision (P x)} (l : list A) : (∀ x, x ∈ l → P x) → filter P l = l.
Proof.
  induction l as [|x l IH]; intros Hall; [done|]. rewrite filter_cons, decide_True by (apply Hall; set_solver).
  f_equal. apply IH. set_solver.
Qed.

Lemma position_split d items :
  (d < 256)%nat → Forall key_ok items → agree d items → StronglySorted key_lt items →
  take (default (length items) (position (λ item, bit_is_set item d) items)) items = clear_at d items ∧
  drop (default (length items) (position (λ item, bit_is_set item d) items)) items = set_at d items.
Proof.
  intros Hd Hk Ha Hs. induction Hs as [|x l Hs IH Hall]; [done|].
  inversion Hk as [|? ? Hx Hk']; subst. specialize (IH Hk' ltac:(eapply agree_sub; [|exact Ha]; set_solver)).
  rewrite position_cons, bit_is_set_get_bit by done. unfold clear_at, set_at. rewrite !filter_cons.
  destruct (get_bit x d) eqn:Hb; cbn [default].
  - rewrite decide_False, decide_True by (congruence || done). cbn [from_option id take drop].
    rewrite Forall_forall in Hall. assert (Hl : ∀ y, y ∈ l → get_bit y d = true).
    { intros y Hy. rewrite Forall_forall in Hk'. apply (bit_monotone x y d); auto. intros i Hi. apply Ha; set_solver. }
    split; [|f_equal].
    + symmetry. apply elem_of_nil_inv. intros y [Hy1 Hy2]%list_elem_of_filter. rewrite Hl in Hy1; done.
    + symmetry. by apply filter_all.
  - rewrite decide_True, decide_False by (congruence || done). destruct IH as [IH1 IH2].
    destruct (position _ l); cbn in *; [by rewrite IH1, IH2|]. by rewrite IH1, IH2.
Qed.

Definition merkle_type (t : NodeType) : MerkleNodeType :=
  match t with NTerm => Terminal | NMidDbl => MiddleDbl | NEmpty | NMid => Middle end.

Lemma tag_type t : t ≠ MEmpty → tag (merkle_type (ntype t)) = encode_type (ntype t).
Proof. destruct t as [| | |[] []]; done. Qed.

Lemma hashdown_hash `{Sha256} lt rt x y : merkle_hashdown (encode_type lt) (encode_type rt) x y = node_hash lt rt x y.
Proof. done. Qed.

Lemma mtree_of_nonempty n d P : P ≠ [] → (n + d = 256)%nat → Forall key_ok P → agree d P → mtree_of n d P ≠ MEmpty.
Proof.
  intros Hne Hd HP Ha Ht. destruct P as [|x P]; [done|].
  assert (Hin : x ∈ keys (mtree_of n d (x :: P))) by (apply keys_mtree_of; [done|done|done|set_solver]).
  rewrite Ht in Hin. cbn in Hin. set_solver.
Qed.

(** Both halves of a split inherit what the recursion needs. *)
Lemma halves d P :
  Forall key_ok P → agree d P →
  Forall key_ok (clear_at d P) ∧ agree (S d) (clear_at d P) ∧ Forall key_ok (set_at d P) ∧ agree (S d) (set_at d P).
Proof.
  intros HP Ha. split_and!.
  - eapply keys_sub; [|exact HP]. intros y. rewrite elem_clear. tauto.
  - eapply agree_S; [exact Ha|]. intros y. apply elem_clear.
  - eapply keys_sub; [|exact HP]. intros y. rewrite elem_set. tauto.
  - eapply agree_S; [exact Ha|]. intros y. apply elem_set.
Qed.

Lemma sorted_filter (P : list Z → Prop) `{∀ x, Decision (P x)} l : StronglySorted key_lt l → StronglySorted key_lt (filter P l).
Proof.
  induction 1 as [|x l Hs IH Hall]; [constructor|]. rewrite filter_cons. destruct (decide (P x)); [|done].
  constructor; [done|]. rewrite Forall_forall in *. intros y [_ Hy]%list_elem_of_filter. auto.
Qed.

Section sorted_tree.
Context `{Sha256}.

Lemma merkle_set_recurse_spec n d items :
  (n + d = 256)%nat → Forall key_ok items → agree d items → StronglySorted key_lt items → items ≠ [] →
  merkle_set_recurse (S n) items d = Ok (nhash (mtree_of n d items), merkle_type (ntype (mtree_of n d items))).
Proof.
  revert d items. induction n as [|n IH]; intros d items Hd Hk Ha Hs Hne.
  all: destruct items as [|x [|y items]]; [done| |].
  1,3: rewrite (mtree_of_single _ _ x) by set_solver; done.
  { exfalso. assert (d = 256%nat) as -> by lia. assert (x = y) as -> by (apply (agree_same (x :: y :: items)); set_solver).
    inversion Hs as [|? ? _ Hall]; subst. rewrite Forall_forall in Hall. specialize (Hall y ltac:(set_solver)).
    unfold key_lt in Hall. lia. }
  set (items' := x :: y :: items) in *.
  destruct (halves d items' Hk Ha) as (Hkl & Hal & Hkr & Har).
  destruct (position_split d items' ltac:(lia) Hk Ha Hs) as [Htake Hdrop].
  change (merkle_set_recurse (S (S n)) items' d) with
    (let split := default (length items') (position (λ item, bit_is_set item d) items') in
     match take split items', drop split items' with
     | [], [] => Panic
     | [], items_right =>
         '(child, child_type) ← merkle_set_recurse (S n) items_right (S d);
         if bool_decide (child_type = Middle) then Ok (merkle_hashdown 0 2 BLANK child, Middle) else Ok (child, child_type)
     | items_left, [] =>
         '(child, child_type) ← merkle_set_recurse (S n) items_left (S d);
         if bool_decide (child_type = Middle) then Ok (merkle_hashdown 2 0 child BLANK, Middle) else Ok (child, child_type)
     | items_left, items_right =>
         '(lhash, ltype) ← merkle_set_recurse (S n) items_left (S d);
         '(rhash, rtype) ← merkle_set_recurse (S n) items_right (S d);
         Ok (merkle_hashdown (tag ltype) (tag rtype) lhash rhash,
             if bool_decide (ltype = Terminal) && bool_decide (rtype = Terminal) then MiddleDbl else Middle)
     end : mset (list Z * MerkleNodeType)).
  cbv zeta. rewrite Htake, Hdrop. cbn [mtree_of].
  pose proof (sorted_filter (λ k, get_bit k d = false) items' Hs) as Hsl. fold (clear_at d items') in Hsl.
  pose proof (sorted_filter (λ k, get_bit k d = true) items' Hs) as Hsr. fold (set_at d items') in Hsr.
  assert (Hin : x ∈ clear_at d items' ∨ x ∈ set_at d items').
  { rewrite elem_clear, elem_set. destruct (get_bit x d); set_solver. }
  set (lo := clear_at d items') in *. set (hi := set_at d items') in *.
  pose proof (mtree_of_nonempty n (S d) lo) as Hlo. pose proof (mtree_of_nonempty n (S d) hi) as Hhi.
  pose proof (IH (S d) lo ltac:(lia) Hkl Hal Hsl) as IHl. pose proof (IH (S d) hi ltac:(lia) Hkr Har Hsr) as IHr.
  destruct lo as [|a lo], hi as [|b hi].
  - set_solver.
  - rewrite IHr by done. cbn [mbind res_bind]. rewrite mtree_of_nil. unfold join. cbn [ntype].
    specialize (Hhi ltac:(done) ltac:(lia) Hkr Har).
    destruct (mtree_of n (S d) (b :: hi)) as [| | |[] []] eqn:Et; try done.
  - rewrite IHl by done. cbn [mbind res_bind]. rewrite mtree_of_nil. unfold join. cbn [ntype].
    specialize (Hlo ltac:(done) ltac:(lia) Hkl Hal).
    destruct (mtree_of n (S d) (a :: lo)) as [| | |[] []] eqn:Et; try done.
  - rewrite IHl, IHr by done. cbn [mbind res_bind].
    specialize (Hlo ltac:(done) ltac:(lia) Hkl Hal). specialize (Hhi ltac:(done) ltac:(lia) Hkr Har).
    rewrite !tag_type by done. rewrite hashdown_hash.
    destruct (mtree_of n (S d) (a :: lo)) as [| | |[] []], (mtree_of n (S d) (b :: hi)) as [| | |[] []]; done.
Qed.

(** The root over a list of keys is the root of the tree of their set. *)
Lemma merkle_set_root_spec items :
  Forall key_ok items → merkle_set_root items = Ok (root_of (mtree_of 256 0 items)).
Proof.
  intros Hk. unfold merkle_set_root, sort_unstable. cbv zeta.
  set (sorted := merge_sort _ items). assert (Hp : sorted ≡ₚ items) by apply merge_sort_Permutation.
  assert (Hks : Forall key_ok sorted) by (by rewrite Hp).
  assert (Hel : ∀ x, x ∈ dedup sorted ↔ x ∈ items) by (intros x; by rewrite elem_of_dedup, Hp).
  assert (Hkd : Forall key_ok (dedup sorted)) by (eapply keys_sub; [intros x; apply Hel|done]).
  assert (Hss : StronglySorted key_lt (dedup sorted)).
  { apply dedup_sorted; [done|]. apply Sorted_StronglySorted; [apply _|]. apply Sorted_merge_sort. apply _. }
  rewrite <- (mtree_of_ext 256 0 (dedup sorted) items); [|done|done|done| |exact Hel].
  2: { intros ? ? ? ? ? ?. lia. }
  destruct (dedup sorted) as [|x l] eqn:Ed; [by rewrite mtree_of_nil|].
  rewrite (merkle_set_recurse_spec 256 0 (x :: l)); [|done|done| |done|done].
  2: { intros ? ? ? ? ? ?. lia. }
  pose proof (mtree_of_nonempty 256 0 (x :: l) ltac:(done) eq_refl Hkd ltac:(intros ? ? ? ? ? ?; lia)) as Hne.
  cbn [mbind res_bind]. destruct (mtree_of 256 0 (x :: l)) as [| | |[] []]; done.
Qed.
End sorted_tree.

(** ** The construction in place *)
Lemma swap_perm l i j : swap l i j ≡ₚ l.
Proof.
  unfold swap. destruct (l !! i) as [x|] eqn:Hi; [|done]. destruct (l !! j) as [y|] eqn:Hj; [|done].
  by apply Permutation_insert_swap.
Qed.

Lemma swap_lookup l i j x y k :
  l !! i = Some x → l !! j = Some y → i ≠ j →
  swap l i j !! k = if decide (k = j) then Some x else if decide (k = i) then Some y else l !! k.
Proof.
  intros Hi Hj Hne. unfold swap. rewrite Hi, Hj. apply lookup_lt_Some in Hi, Hj.
  destruct (decide (k = j)) as [->|Hkj].
  { rewrite list_lookup_insert_eq; [done|]. by rewrite length_insert. }
  rewrite list_lookup_insert_ne by done. destruct (decide (k = i)) as [->|Hki].
  - by rewrite list_lookup_insert_eq.
  - by rewrite list_lookup_insert_ne.
Qed.

(** Keys before [left] have the bit clear, keys after [right] have it set. *)
Record parted (depth : nat) (range : list (list Z)) (lo hi : Z) : Prop := {
  parted_low : ∀ i x, Z.of_nat i < lo → range !! i = Some x → get_bit x depth = false;
  parted_high : ∀ i x, hi < Z.of_nat i → range !! i = Some x → get_bit x depth = true;
  parted_bounds : 0 ≤ lo ∧ hi < zlen range ∧ lo ≤ hi + 1;
}.

Lemma partition_loop_spec fuel depth range lo hi :
  parted depth range lo hi → hi - lo + 1 < Z.of_nat fuel →
  ∃ range' m, partition_loop fuel depth range lo hi = Ok (range', m, m - 1) ∧ range' ≡ₚ range ∧ parted depth range' m (m - 1).
Proof.
  revert range lo hi. induction fuel as [|fuel IH]; intros range lo hi [Hlow Hhigh (Hb0 & Hb1 & Hb2)] Hf; cbn [partition_loop].
  { rewrite (proj2 (Z.ltb_lt _ _)) by lia. exists range, lo. assert (hi = lo - 1) as -> by lia. split; [done|]. split; [done|by split]. }
  destruct (Z.ltb_spec hi lo) as [Hlt|Hle].
  { exists range, lo. assert (hi = lo - 1) as -> by lia. split; [done|]. split; [done|by split]. }
  unfold zlen in Hb1. destruct (lookup_lt_is_Some_2 range (Z.to_nat lo) ltac:(lia)) as [x Hx].
  destruct (lookup_lt_is_Some_2 range (Z.to_nat hi) ltac:(lia)) as [y Hy].
  rewrite Hx, Hy. cbn [expect mbind res_bind].
  destruct (get_bit x depth) eqn:Hbx, (get_bit y depth) eqn:Hby; cbn [negb andb].
  - apply IH; [|lia]. split; [done| |unfold zlen; lia]. intros i z Hi Hz.
    destruct (decide (Z.of_nat i = hi)) as [Heq|Hne]; [|apply (Hhigh i z); [lia|done]].
    replace (Z.to_nat hi) with i in Hy by lia. congruence.
  - assert (Z.to_nat lo ≠ Z.to_nat hi) as Hne by congruence.
    destruct (IH (swap range (Z.to_nat lo) (Z.to_nat hi)) (lo + 1) (hi - 1)) as (range' & m & Hr & Hp & Hpt).
    + split.
      * intros i z Hi Hz. rewrite (swap_lookup _ _ _ x y) in Hz by done.
        destruct (decide (i = Z.to_nat hi)) as [->|]; [lia|]. destruct (decide (i = Z.to_nat lo)) as [->|]; [congruence|].
        apply (Hlow i z); [lia|done].
      * intros i z Hi Hz. rewrite (swap_lookup _ _ _ x y) in Hz by done.
        destruct (decide (i = Z.to_nat hi)) as [->|]; [congruence|]. destruct (decide (i = Z.to_nat lo)) as [->|]; [lia|].
        apply (Hhigh i z); [lia|done].
      * unfold zlen. rewrite (Permutation_length (swap_perm range _ _)). lia.
    + lia.
    + exists range', m. split; [done|]. split; [|done]. by rewrite Hp, swap_perm.
  - apply IH; [|lia]. split; [| |unfold zlen].
    + intros i z Hi Hz. destruct (decide (Z.of_nat i = lo)) as [Heq|Hne]; [|apply (Hlow i z); [lia|done]].
      replace (Z.to_nat lo) with i in Hx by lia. congruence.
    + intros i z Hi Hz. destruct (decide (Z.of_nat i = hi)) as [Heq|Hne]; [|apply (Hhigh i z); [lia|done]].
      replace (Z.to_nat hi) with i in Hy by lia. congruence.
    + assert (lo ≠ hi) by (intros ->; congruence). lia.
  - apply IH; [|lia]. split; [|done|unfold zlen; lia]. intros i z Hi Hz.
    destruct (decide (Z.of_nat i = lo)) as [Heq|Hne]; [|apply (Hlow i z); [lia|done]].
    replace (Z.to_nat lo) with i in Hx by lia. congruence.
Qed.

(** What the partition gives: the keys with a clear bit, then the others. *)
Lemma partition_spec depth range :
  range ≠ [] →
  ∃ lo hi, partition_loop (S (length range)) depth range 0 (zlen range - 1) = Ok (lo ++ hi, zlen lo, zlen lo - 1) ∧
    lo ++ hi ≡ₚ range ∧ (∀ x, x ∈ lo ↔ x ∈ clear_at depth range) ∧ (∀ x, x ∈ hi ↔ x ∈ set_at depth range).
Proof.
  intros Hne. assert (Hl : (0 < length range)%nat) by (destruct range; [done|cbn; lia]).
  destruct (partition_loop_spec (S (length range)) depth range 0 (zlen range - 1)) as (range' & m & Hr & Hp & [Hlow Hhigh Hb]).
  { split; [intros; lia| |unfold zlen; lia]. intros i x Hi Hx%lookup_lt_Some. unfold zlen in Hi. lia. }
  { unfold zlen. lia. }
  exists (take (Z.to_nat m) range'), (drop (Z.to_nat m) range'). rewrite take_drop.
  assert (Hzl : zlen (take (Z.to_nat m) range') = m) by (unfold zlen in *; rewrite length_take; lia). rewrite Hzl.
  split; [done|]. split; [done|].
  assert (Hlo : ∀ x, x ∈ take (Z.to_nat m) range' → get_bit x depth = false).
  { intros x [i Hi]%list_elem_of_lookup_1. rewrite lookup_take_Some in Hi. destruct Hi as [Hi Hlt]. apply (Hlow i x); [lia|done]. }
  assert (Hhi : ∀ x, x ∈ drop (Z.to_nat m) range' → get_bit x depth = true).
  { intros x [i Hi]%list_elem_of_lookup_1. rewrite lookup_drop in Hi. apply (Hhigh (Z.to_nat m + i)%nat x); [lia|done]. }
  assert (Hall : ∀ x, x ∈ range ↔ x ∈ take (Z.to_nat m) range' ∨ x ∈ drop (Z.to_nat m) range').
  { intros x. rewrite <- elem_of_app, take_drop. by rewrite Hp. }
  split; intros x; rewrite ?elem_clear, ?elem_set, Hall.
  - split; [auto|]. intros [Hb' [Hx|Hx]]; [done|]. apply Hhi in Hx. congruence.
  - split; [auto|]. intros [Hb' [Hx|Hx]]; [|done]. apply Hlo in Hx. congruence.
Qed.

(** ** Stored trees *)
Section stored.
Context `{Sha256}.

(** Node [i] stores [t]; an empty node stores the bytes [e]. *)
Inductive rep_of (e : list Z) (ns : list StoredNode) : nat → mtree → Prop :=
  | rep_empty i : ns !! i = Some (mkNode SEmpty e) → rep_of e ns i MEmpty
  | rep_leaf i k : ns !! i = Some (mkNode SLeaf k) → rep_of e ns i (MLeaf k)
  | rep_trunc i h : ns !! i = Some (mkNode STruncated h) → rep_of e ns i (MTrunc h)
  | rep_node i li ri l r :
      ns !! i = Some (mkNode (SMiddle li ri) (nhash (MNode l r))) → rep_of e ns li l → rep_of e ns ri r →
      rep_of e ns i (MNode l r).

Lemma rep_app e ns ms i t : rep_of e ns i t → rep_of e (ns ++ ms) i t.
Proof. induction 1; econstructor; eauto using lookup_app_l_Some. Qed.

Notation rep := (rep_of EMPTY_NODE_HASH).

Lemma lookup_snoc (ns : list StoredNode) x : (ns ++ [x]) !! (length (ns ++ [x]) - 1)%nat = Some x.
Proof. rewrite length_app. cbn. replace (length ns + 1 - 1)%nat with (length ns) by lia. by rewrite list_lookup_middle. Qed.

(** What a step of the construction gives. *)
Definition builds (ns : list StoredNode) (m : mset built) (t : mtree) : Prop :=
  ∃ ms, m = Ok (ns ++ ms, (nhash t, ntype t)) ∧ ms ≠ [] ∧ rep (ns ++ ms) (length (ns ++ ms) - 1) t.

Lemma builds_leaf ns x : builds ns (Ok (ns ++ [mkNode SLeaf x], (x, NTerm))) (MLeaf x).
Proof. exists [mkNode SLeaf x]. split_and!; [done|done|]. constructor. apply lookup_snoc. Qed.

Lemma builds_one_sided ns m t (left_empty : bool) :
  builds ns m t → t ≠ MEmpty →
  builds ns (child ← m; Ok (one_sided left_empty child)) (if left_empty then join MEmpty t else join t MEmpty).
Proof.
  intros (ms & -> & Hms & Hrep) Hne. cbn [mbind res_bind]. unfold join, one_sided. cbn [ntype].
  case_bool_decide as Hmid.
  - rewrite Hmid. cbv zeta. set (e := mkNode SEmpty EMPTY_NODE_HASH).
    assert (Hlen : (0 < length (ns ++ ms))%nat) by (rewrite length_app; destruct ms; [done|cbn; lia]).
    assert (Hidx : ∀ x, ((ns ++ ms) ++ [e]) ++ [x] = ns ++ (ms ++ [e; x])) by (intros; by rewrite <- !(assoc_L (++))).
    assert (Hlast : rep (((ns ++ ms) ++ [e])) (length ((ns ++ ms) ++ [e]) - 2) t).
    { apply rep_app. rewrite (length_app (ns ++ ms)). cbn [length].
      by replace (length (ns ++ ms) + 1 - 2)%nat with (length (ns ++ ms) - 1)%nat by lia. }
    assert (Hemp : rep ((ns ++ ms) ++ [e]) (length ((ns ++ ms) ++ [e]) - 1) MEmpty).
    { eapply rep_empty. apply lookup_snoc. }
    assert (Hty : ntype (MNode t MEmpty) = NMid) by (by destruct t).
    destruct left_empty; eexists; (split; [rewrite Hidx, ?Hty; cbn [nhash ntype]; by rewrite Hmid|]);
      (split; [by destruct ms|]); rewrite <- Hidx.
    all: econstructor; [rewrite lookup_snoc; cbn [nhash ntype]; by rewrite Hmid| |]; by apply rep_app.
  - exists ms. destruct left_empty, (ntype t) eqn:Hty; rewrite ?Hty; try done.
    all: by apply ntype_empty in Hty.
Qed.

Lemma builds_split ns m1 (k : list StoredNode → mset built) l r :
  builds ns m1 l → (∀ ns, builds ns (k ns) r) → l ≠ MEmpty → r ≠ MEmpty →
  builds ns
    ('(ns, l) ← m1; let left_child_index := (length ns - 1)%nat in r ← k ns; Ok (middle_node left_child_index l r))
    (join l r).
Proof.
  intros (ms & -> & Hms & Hrep) Hk Hl Hr. cbn [mbind res_bind]. cbv zeta.
  destruct (Hk (ns ++ ms)) as (ms' & -> & Hms' & Hrep'). cbn [mbind res_bind middle_node].
  assert (Hj : join l r = MNode l r).
  { unfold join. destruct l as [| | |[] []], r as [| | |[] []]; done. }
  rewrite Hj. eexists (ms ++ ms' ++ [_]). split.
  { rewrite !(assoc_L (++)). do 2 f_equal. f_equal. destruct l as [| | |[] []], r as [| | |[] []]; done. }
  split; [by destruct ms|]. rewrite !(assoc_L (++)). econstructor; [by rewrite lookup_snoc| |].
  - by do 2 apply rep_app.
  - by apply rep_app.
Qed.

Lemma builds_last_pair ns x y : builds ns (Ok (last_pair x y ns)) (MNode (MLeaf x) (MLeaf y)).
Proof.
  unfold last_pair. cbv zeta. rewrite (assoc_L (++)). set (ns1 := ns ++ [mkNode SLeaf x]). set (ns2 := ns1 ++ [mkNode SLeaf y]).
  eexists ([mkNode SLeaf x; mkNode SLeaf y] ++ [_]). split; [unfold ns2, ns1; by rewrite <- !(assoc_L (++))|]. split; [done|].
  match goal with |- rep ?a _ _ => replace a with (ns2 ++ [mkNode (SMiddle (length ns2 - 2) (length ns2 - 1)) (node_hash NTerm NTerm x y)]) end.
  2: { unfold ns2, ns1. by rewrite <- !(assoc_L (++)). }
  econstructor; [by rewrite lookup_snoc| |]; apply rep_app.
  - unfold ns2. apply rep_app. rewrite length_app. cbn [length].
    replace (length ns1 + 1 - 2)%nat with (length ns1 - 1)%nat by lia. constructor. apply lookup_snoc.
  - constructor. apply lookup_snoc.
Qed.

(** The case distinction of a level, after the partition. *)
Lemma sides_empty (lo hi : list (list Z)) :
  (zlen lo =? 0) = bool_decide (lo = []) ∧ (zlen lo - 1 =? zlen (lo ++ hi) - 1) = bool_decide (hi = []).
Proof.
  rewrite zlen_app. pose proof (zlen_nonneg lo). pose proof (zlen_nonneg hi).
  split; apply Bool.eq_iff_eq_true; rewrite Z.eqb_eq, bool_decide_eq_true, <- zlen_0; lia.
Qed.

Lemma take_drop_zlen (lo hi : list (list Z)) : take (Z.to_nat (zlen lo)) (lo ++ hi) = lo ∧ drop (Z.to_nat (zlen lo)) (lo ++ hi) = hi.
Proof. unfold zlen. rewrite Nat2Z.id. by rewrite take_app_length, drop_app_length. Qed.

Lemma generate_spec n d range ns :
  (n + d = 255)%nat → Forall key_ok range → agree d range → range ≠ [] →
  builds ns (generate_merkle_tree_recurse n d range ns) (mtree_of (S n) d range).
Proof.
  revert d range ns. induction n as [|n IH]; intros d range ns Hd Hk Ha Hne.
  all: destruct range as [|x [|y range]]; [done| |].
  1,3: rewrite (mtree_of_single _ _ x) by set_solver; apply builds_leaf.
  all: set (rg := x :: y :: range) in *.
  all: destruct (partition_spec d rg Hne) as (lo & hi & Hpart & Hperm & Hlo & Hhi).
  all: destruct (halves d rg Hk Ha) as (Hkl & Hal & Hkr & Har).
  all: assert (Hkl' : Forall key_ok lo) by (eapply keys_sub; [intros z; apply Hlo|done]).
  all: assert (Hkr' : Forall key_ok hi) by (eapply keys_sub; [intros z; apply Hhi|done]).
  all: assert (Hal' : agree (S d) lo) by (eapply agree_sub; [intros z; apply Hlo|done]).
  all: assert (Har' : agree (S d) hi) by (eapply agree_sub; [intros z; apply Hhi|done]).
  all: assert (Hany : lo ++ hi ≠ []) by (intros Hz; rewrite Hz in Hperm; by apply Permutation_nil_l in Hperm).
  all: destruct (sides_empty lo hi) as [Hle Hre], (take_drop_zlen lo hi) as [Htake Hdrop].
  - change (mtree_of 1 d rg) with (join (mtree_of 0 (S d) (clear_at d rg)) (mtree_of 0 (S d) (set_at d rg))).
    rewrite <- (mtree_of_ext 0 (S d) lo (clear_at d rg)), <- (mtree_of_ext 0 (S d) hi (set_at d rg)) by (done || lia).
    change (generate_merkle_tree_recurse 0 d rg ns) with
      ('(range, low, high) ← partition_loop (S (length rg)) d rg 0 (zlen rg - 1);
       if (low =? 0) || (high =? zlen range - 1)
       then x ← expect (range !! 0%nat); Ok (ns ++ [mkNode SLeaf x], (x, NTerm))
       else x ← expect (range !! 0%nat); y ← expect (range !! Z.to_nat low); Ok (last_pair x y ns) : mset built).
    rewrite Hpart. cbn [mbind res_bind]. rewrite Hle, Hre. unfold zlen. rewrite Nat2Z.id.
    destruct lo as [|a lo], hi as [|b hi]; [by destruct Hany|apply builds_leaf|apply builds_leaf|].
    rewrite (list_lookup_middle (a :: lo) hi b (length (a :: lo))) by done. apply builds_last_pair.
  - change (mtree_of (S (S n)) d rg) with (join (mtree_of (S n) (S d) (clear_at d rg)) (mtree_of (S n) (S d) (set_at d rg))).
    rewrite <- (mtree_of_ext (S n) (S d) lo (clear_at d rg)), <- (mtree_of_ext (S n) (S d) hi (set_at d rg)) by (done || lia).
    change (generate_merkle_tree_recurse (S n) d rg ns) with
      ('(range, low, high) ← partition_loop (S (length rg)) d rg 0 (zlen rg - 1);
       if (low =? 0) || (high =? zlen range - 1)
       then child ← generate_merkle_tree_recurse n (S d) range ns; Ok (one_sided (low =? 0) child)
       else
         '(ns, l) ← generate_merkle_tree_recurse n (S d) (take (Z.to_nat low) range) ns;
         let left_child_index := (length ns - 1)%nat in
         r ← generate_merkle_tree_recurse n (S d) (drop (Z.to_nat low) range) ns;
         Ok (middle_node left_child_index l r) : mset built).
    rewrite Hpart. cbn [mbind res_bind]. rewrite Hle, Hre, Htake, Hdrop.
    pose proof (mtree_of_nonempty (S n) (S d)) as Hnonempty.
    destruct lo as [|a lo]; [|destruct hi as [|b hi]].
    + rewrite mtree_of_nil. apply (builds_one_sided _ _ _ true); [by apply IH; [lia|..]|by apply Hnonempty; [|lia|..]].
    + rewrite mtree_of_nil, (right_id_L [] (++)).
      apply (builds_one_sided _ _ _ false); [by apply IH; [lia|..]|by apply Hnonempty; [|lia|..]].
    + apply builds_split; [by apply IH; [lia|..]|intros ns'; by apply IH; [lia|..]|by apply Hnonempty; [|lia|..]..].
Qed.

(** The root of the stored tree is that of the tree of the set. *)
Lemma from_leafs_spec leafs :
  Forall key_ok leafs →
  ∃ e ns, from_leafs leafs = Ok {| nodes := ns; from_proof_flag := false |} ∧ ns ≠ [] ∧
    rep_of e ns (length ns - 1) (mtree_of 256 0 leafs).
Proof.
  intros Hk. unfold from_leafs. destruct leafs as [|x leafs].
  - eexists BLANK, _. split; [done|]. split; [done|]. rewrite mtree_of_nil. by apply rep_empty.
  - destruct (generate_spec 255 0 (x :: leafs) [] eq_refl Hk) as (ms & Hms & Hne & Hrep); [intros ? ? ? ? ? ?; lia|done|].
    rewrite Hms. cbn [mbind res_bind]. eauto.
Qed.

Lemma get_root_rep e ns t flag :
  rep_of e ns (length ns - 1) t → ns ≠ [] → get_root {| nodes := ns; from_proof_flag := flag |} = root_of t.
Proof.
  intros Hr Hne. unfold get_root. cbn. rewrite last_lookup. replace (Init.Nat.pred (length ns)) with (length ns - 1)%nat by lia.
  by inversion Hr; subst; match goal with H : ns !! _ = Some _ |- _ => rewrite H end.
Qed.
End stored.
