(* ===== verification/MerkleProof.v ===== *)
(** * Merkle proofs: [MerkleSet::from_proof], [generate_proof] and
    [validate_merkle_proof] of [core/src/consensus/merkle_set.rs]

    The parser of proofs is shown to read exactly the encodings of trees whose
    leaves are where their bits lead; a proof that validates against the root
    of a set tells the truth about the set unless two strings that were
    hashed collide ([merkle_proof_sound]); and the proofs that the code
    generates validate ([merkle_proof_complete]). *)
From Stdlib Require Import ZArith Lia.
From stdpp Require Import base list numbers option gmap sets.
From S2P Require Import Prelude Serialize ClvmNumber ClvmSexp Coin MerkleSet.

Open Scope Z_scope.

(** ** Proofs as trees

    A proof is the pre-order encoding of a tree that keeps every level. *)
Inductive ptree := PEmpty | PLeaf (k : list Z) | PTrunc (h : list Z) | PMid (l r : ptree).

Fixpoint encode_proof (p : ptree) : list Z :=
  match p with
  | PEmpty => [EMPTY]
  | PLeaf k => TERMINAL :: k
  | PTrunc h => TRUNCATED :: h
  | PMid l r => MIDDLE :: encode_proof l ++ encode_proof r
  end.

(** The levels where only a pair is, taken out. *)
Fixpoint ctree (p : ptree) : mtree :=
  match p with
  | PEmpty => MEmpty
  | PLeaf k => MLeaf k
  | PTrunc h => MTrunc h
  | PMid l r =>
      match ntype (ctree l), ntype (ctree r) with
      | NEmpty, NMidDbl => ctree r
      | NMidDbl, NEmpty => ctree l
      | _, _ => MNode (ctree l) (ctree r)
      end
  end.

(** What the parser audits: sizes, nesting, and the position of each leaf. *)
Fixpoint well_placed (bits : list bool) (p : ptree) : Prop :=
  match p with
  | PEmpty => True
  | PLeaf k => length k = 32%nat ∧ leaf_placed bits k = true
  | PTrunc h => length h = 32%nat
  | PMid l r => (length bits ≤ 256)%nat ∧ well_placed (bits ++ [false]) l ∧ well_placed (bits ++ [true]) r
  end.

Fixpoint rounds (p : ptree) : nat :=
  match p with PMid l r => S (S (rounds l + rounds r)) | _ => 1 end.

Section parsing.
Context `{Sha256} (proof : list Z).

Notation rep := (rep_of BLANK).

Lemma proof_read_app pos n x rest :
  drop pos proof = x ++ rest → length x = n → (0 < n)%nat → read_exact proof pos n = Ok (x, (pos + n)%nat).
Proof.
  intros Hd Hl Hn. unfold read_exact. assert (Hlen : length (drop pos proof) = (length x + length rest)%nat) by (rewrite Hd; apply length_app).
  rewrite length_drop in Hlen. rewrite (proj2 (Nat.leb_le _ _)) by lia. rewrite Hd. by rewrite take_app_length'.
Qed.

Lemma drop_next pos x rest : drop pos proof = x ++ rest → drop (pos + length x) proof = rest.
Proof. intros Hd. rewrite <- drop_drop, Hd. apply drop_app_length. Qed.

(** The last node of a vector after the parse of [p]. *)
Definition last_is (ns : list StoredNode) (p : ptree) : Prop :=
  match p with
  | PMid l r => ∃ li ri, ns !! (length ns - 1)%nat = Some (mkNode (SMiddle li ri) (nhash (ctree p))) ∧
      rep ns li (ctree l) ∧ rep ns ri (ctree r)
  | _ => rep ns (length ns - 1) (ctree p)
  end.

(** The state after the parse of [p]. *)
Definition parsed (p : ptree) (s : parse_state) (ops : list ParseOp) (bs : list (list bool)) (s' : parse_state) : Prop :=
  ∃ ms i, s' = mkParse (p_pos s + length (encode_proof p)) ((i, ntype (ctree p)) :: p_values s) ops (p_depth s) bs (p_nodes s ++ ms) ∧
    ms ≠ [] ∧ rep (p_nodes s ++ ms) i (ctree p) ∧ last_is (p_nodes s ++ ms) p.

Lemma rep_kind ns i t :
  rep ns i t → ∃ node, ns !! i = Some node ∧ encode_type (kind_type (kind node)) = encode_type (ntype t) ∧ stored_hash node = nhash t.
Proof.
  intros Hr. inversion Hr; subst; eexists; (split; [done|]); (split; [|done]); [done..|].
  cbn [kind kind_type]. destruct l as [| | |[] []], r as [| | |[] []]; done.
Qed.

Lemma ntype_node l r : ntype (MNode l r) = match ntype l, ntype r with NTerm, NTerm => NMidDbl | _, _ => NMid end.
Proof. destruct l as [| | |[] []], r as [| | |[] []]; done. Qed.

Lemma loop_step fuel op pos vals ops depth bits bs ns :
  parse_proof_loop (S fuel) proof (mkParse pos vals (op :: ops) depth (bits :: bs) ns) =
  (s ← match op with
       | PNode => parse_node proof bits (mkParse pos vals ops depth bs ns)
       | PMiddle => parse_middle (mkParse pos vals ops depth bs ns)
       end; parse_proof_loop fuel proof s).
Proof. done. Qed.

(** A middle over two parsed children. *)
Lemma parse_middle_spec pos ri li vals ops depth bs ns l r :
  rep ns li (ctree l) → rep ns ri (ctree r) →
  ∃ i ms, parse_middle (mkParse pos ((ri, ntype (ctree r)) :: (li, ntype (ctree l)) :: vals) ops (S depth) bs ns) =
    Ok (mkParse pos ((i, ntype (ctree (PMid l r))) :: vals) ops depth bs (ns ++ ms)) ∧
    ms ≠ [] ∧ rep (ns ++ ms) i (ctree (PMid l r)) ∧ last_is (ns ++ ms) (PMid l r).
Proof.
  intros Hl Hr. destruct (rep_kind _ _ _ Hl) as (nl & Hnl & Hkl & Hhl). destruct (rep_kind _ _ _ Hr) as (nr & Hnr & Hkr & Hhr).
  unfold parse_middle. cbn [p_values p_nodes p_depth p_ops p_bits p_pos]. rewrite Hnl, Hnr. cbn [expect mbind res_bind Nat.eqb].
  rewrite Nat.sub_succ, Nat.sub_0_r.
  assert (Hh : node_hash (kind_type (kind nl)) (kind_type (kind nr)) (stored_hash nl) (stored_hash nr) = nhash (MNode (ctree l) (ctree r))).
  { unfold nhash at 1; fold nhash. unfold node_hash, middle_bytes. by rewrite Hkl, Hkr, Hhl, Hhr. }
  assert (Hlast : ∀ h, h = nhash (ctree (PMid l r)) → last_is (ns ++ [mkNode (SMiddle li ri) h]) (PMid l r)).
  { intros h ->. exists li, ri. split; [apply lookup_snoc|]. split; by apply rep_app. }
  assert (Hnode : ∀ ty, ctree (PMid l r) = MNode (ctree l) (ctree r) → ty = ntype (MNode (ctree l) (ctree r)) →
    ∃ i ms, Ok (mkParse pos ((length ns, ty) :: vals) ops depth bs
                 (ns ++ [mkNode (SMiddle li ri) (nhash (MNode (ctree l) (ctree r)))])) =
      Ok (E := SetErrorT) (mkParse pos ((i, ntype (ctree (PMid l r))) :: vals) ops depth bs (ns ++ ms)) ∧
      ms ≠ [] ∧ rep (ns ++ ms) i (ctree (PMid l r)) ∧ last_is (ns ++ ms) (PMid l r)).
  { intros ty Hc ->. eexists _, [_]. rewrite Hc. split; [done|]. split; [done|]. split.
    - econstructor; [by rewrite list_lookup_middle| |]; by apply rep_app.
    - apply Hlast. by rewrite Hc. }
  rewrite Hh. rewrite ntype_node in Hnode. cbn [ctree] in Hnode, Hlast |- *.
  destruct (ntype (ctree l)) eqn:Tl, (ntype (ctree r)) eqn:Tr; cbn [mbind res_bind]; try (by apply Hnode).
  - eexists ri, [_]. rewrite Tr. split; [done|]. split; [done|]. split; [by apply rep_app|by apply Hlast].
  - eexists li, [_]. rewrite Tl. split; [done|]. split; [done|]. split; [by apply rep_app|by apply Hlast].
Qed.

(** The loop parses what [encode_proof] writes. *)
Lemma parse_encode p fuel pos vals ops bits bs ns rest :
  well_placed bits p → drop pos proof = encode_proof p ++ rest →
  ∃ s', parsed p (mkParse pos vals (PNode :: ops) (length bits) (bits :: bs) ns) ops bs s' ∧
    parse_proof_loop (rounds p + fuel) proof (mkParse pos vals (PNode :: ops) (length bits) (bits :: bs) ns) =
    parse_proof_loop fuel proof s'.
Proof.
  revert fuel pos vals ops bits bs ns rest. induction p as [|k|h|l IHl r IHr]; intros fuel pos vals ops bits bs ns rest Hw Hd.
  - eexists. split; [eexists [_], _; split; [done|]; split; [done|]|].
    2: { cbn [rounds Nat.add]. rewrite loop_step. unfold parse_node. cbn [p_pos p_values p_nodes p_ops p_depth p_bits].
         rewrite (proof_read_app pos 1 [0] rest); [done|exact Hd|done|lia]. }
    split; [constructor; by rewrite list_lookup_middle|constructor; apply lookup_snoc].
  - destruct Hw as [Hlen Hpl]. eexists. split; [eexists [_], _; split; [done|]; split; [done|]|].
    2: { cbn [rounds Nat.add]. rewrite loop_step. unfold parse_node. cbn [p_pos p_values p_nodes p_ops p_depth p_bits].
         rewrite (proof_read_app pos 1 [1] (k ++ rest)); [|exact Hd|done|lia]. cbn [mbind res_bind].
         rewrite (proof_read_app (pos + 1) 32 k rest); [|apply (drop_next pos [1]); exact Hd|done|lia]. cbn [mbind res_bind].
         rewrite Hpl. cbn [mbind res_bind encode_proof length]. rewrite Hlen. by replace (pos + 1 + 32)%nat with (pos + 33)%nat by lia. }
    split; [constructor; by rewrite list_lookup_middle|constructor; apply lookup_snoc].
  - cbn in Hw. eexists. split; [eexists [_], _; split; [done|]; split; [done|]|].
    2: { cbn [rounds Nat.add]. rewrite loop_step. unfold parse_node. cbn [p_pos p_values p_nodes p_ops p_depth p_bits].
         rewrite (proof_read_app pos 1 [3] (h ++ rest)); [|exact Hd|done|lia]. cbn [mbind res_bind].
         rewrite (proof_read_app (pos + 1) 32 h rest); [|apply (drop_next pos [3]); exact Hd|done|lia]. cbn [mbind res_bind].
         cbn [mbind res_bind encode_proof length]. rewrite Hw. by replace (pos + 1 + 32)%nat with (pos + 33)%nat by lia. }
    split; [constructor; by rewrite list_lookup_middle|constructor; apply lookup_snoc].
  - destruct Hw as (Hdepth & Hwl & Hwr). cbn [rounds Nat.add]. rewrite loop_step. unfold parse_node.
    cbn [p_pos p_values p_nodes p_ops p_depth p_bits]. cbn [encode_proof app] in Hd. rewrite <- (assoc_L (++)) in Hd.
    rewrite (proof_read_app pos 1 [2] (encode_proof l ++ encode_proof r ++ rest)); [|exact Hd|done|lia]. cbn [mbind res_bind].
    rewrite (proj2 (Nat.ltb_ge _ _)) by lia. cbn [mbind res_bind].
    apply (drop_next pos [2]) in Hd. cbn [length] in Hd.
    assert (Hlen : ∀ b, length (bits ++ [b]) = S (length bits)) by (intros; rewrite length_app; cbn; lia).
    rewrite <- (Hlen false).
    destruct (IHl (rounds r + S fuel)%nat (pos + 1)%nat vals (PNode :: PMiddle :: ops) (bits ++ [false])
      ((bits ++ [true]) :: [] :: bs) ns (encode_proof r ++ rest) Hwl Hd) as (s1 & (ms1 & i1 & -> & Hms1 & Hr1 & _) & Hrun1).
    replace (S (rounds l + rounds r + fuel))%nat with (rounds l + (rounds r + S fuel))%nat by lia.
    rewrite Hrun1. cbn [p_pos p_values p_nodes p_depth]. rewrite (Hlen false), <- (Hlen true). clear Hrun1.
    destruct (IHr (S fuel) (pos + 1 + length (encode_proof l))%nat ((i1, ntype (ctree l)) :: vals) (PMiddle :: ops) (bits ++ [true])
      ([] :: bs) (ns ++ ms1) rest Hwr (drop_next _ _ _ Hd)) as (s2 & (ms2 & i2 & -> & Hms2 & Hr2 & _) & Hrun2).
    rewrite Hrun2. cbn [p_pos p_values p_nodes p_depth]. rewrite loop_step, (Hlen true). clear Hrun2.
    destruct (parse_middle_spec (pos + 1 + length (encode_proof l) + length (encode_proof r)) i2 i1 vals ops (length bits) bs
      ((ns ++ ms1) ++ ms2) l r (rep_app _ _ _ _ _ Hr1) Hr2) as (i & ms & -> & Hms & Hrep & Hlast).
    cbn [mbind res_bind]. rewrite <- !(assoc_L (++)) in *. eexists. split; [|done].
    exists (ms1 ++ ms2 ++ ms), i. cbn [p_pos p_values p_nodes p_depth]. split.
    { f_equal. cbn [encode_proof length]. rewrite length_app. lia. }
    split; [by destruct ms1|done].
Qed.

(** The loop succeeds only on what [encode_proof] writes. *)
Lemma read_exact_Ok pos n x pos' :
  read_exact proof pos n = Ok (x, pos') → length x = n ∧ drop pos proof = x ++ drop pos' proof ∧ pos' = (pos + n)%nat.
Proof.
  unfold read_exact. destruct (Nat.leb_spec (pos + n) (length proof)); [|done]. intros [= <- <-].
  split; [rewrite length_take, length_drop; lia|]. split; [|done]. rewrite <- drop_drop. by rewrite take_drop.
Qed.

Lemma parse_inv fuel pos vals ops bits bs ns s :
  parse_proof_loop fuel proof (mkParse pos vals (PNode :: ops) (length bits) (bits :: bs) ns) = Ok s →
  ∃ p rest f, drop pos proof = encode_proof p ++ rest ∧ well_placed bits p ∧ fuel = (rounds p + f)%nat.
Proof.
  revert pos vals ops bits bs ns. induction fuel as [fuel IH] using lt_wf_ind. intros pos vals ops bits bs ns Hrun.
  destruct fuel as [|fuel]; [done|]. rewrite loop_step in Hrun. apply bind_Ok_inv in Hrun as (s1 & Hnode & Hrun).
  unfold parse_node in Hnode. cbn [p_pos p_values p_nodes p_ops p_depth p_bits] in Hnode.
  apply bind_Ok_inv in Hnode as ([byte pos1] & (Hlen & Hdrop & ->)%read_exact_Ok & Hnode).
  destruct byte as [|b [|]]; [done| |done].
  destruct (decide (b = 0)) as [->|Hb0].
  { exists PEmpty, (drop (pos + 1) proof), fuel. split; [exact Hdrop|]. split; [done|cbn; lia]. }
  destruct (decide (b = 1)) as [->|Hb1].
  { apply bind_Ok_inv in Hnode as ([k pos2] & (Hlk & Hdk & ->)%read_exact_Ok & Hnode).
    destruct (leaf_placed bits k) eqn:Hpl; [|done]. exists (PLeaf k), (drop (pos + 1 + 32) proof), fuel.
    split; [by rewrite Hdrop, Hdk|]. split; [done|cbn; lia]. }
  destruct (decide (b = 3)) as [->|Hb3].
  { apply bind_Ok_inv in Hnode as ([h pos2] & (Hlk & Hdk & ->)%read_exact_Ok & Hnode).
    exists (PTrunc h), (drop (pos + 1 + 32) proof), fuel. split; [by rewrite Hdrop, Hdk|]. split; [done|cbn; lia]. }
  destruct (decide (b = 2)) as [->|Hb2].
  2: { exfalso. destruct b as [|[[]|[]|]|]; done. }
  destruct (Nat.ltb_spec 256 (length bits)); [done|]. injection Hnode as <-.
  assert (Hbl : ∀ b, length (bits ++ [b]) = S (length bits)) by (intros; rewrite length_app; cbn; lia).
  rewrite <- (Hbl false) in Hrun.
  destruct (IH fuel ltac:(lia) _ _ _ _ _ _ Hrun) as (l & rest1 & f1 & Hd1 & Hw1 & ->).
  destruct (parse_encode l f1 (pos + 1) vals (PNode :: PMiddle :: ops) (bits ++ [false]) ((bits ++ [true]) :: [] :: bs) ns
    rest1 Hw1 Hd1) as (s1 & (ms1 & i1 & -> & _ & Hr1 & _) & Heq1).
  rewrite Heq1 in Hrun. cbn [p_pos p_values p_nodes p_depth] in Hrun. rewrite (Hbl false), <- (Hbl true) in Hrun. clear Heq1.
  destruct (IH f1 ltac:(lia) _ _ _ _ _ _ Hrun) as (r & rest2 & f2 & Hd2 & Hw2 & ->).
  destruct (parse_encode r f2 (pos + 1 + length (encode_proof l)) ((i1, ntype (ctree l)) :: vals) (PMiddle :: ops) (bits ++ [true])
    ([] :: bs) (ns ++ ms1) rest2 Hw2 Hd2) as (s2 & (ms2 & i2 & -> & _ & Hr2 & _) & Heq2).
  rewrite Heq2 in Hrun. clear Heq2. destruct f2 as [|f2]; [done|].
  exists (PMid l r), rest2, f2. split; [|split; [done|cbn; lia]].
  cbn [encode_proof app]. rewrite <- (assoc_L (++)), <- Hd2, (drop_next _ _ _ Hd1), <- Hd1. exact Hdrop.
Qed.
End parsing.

Lemma rounds_bound p : (rounds p ≤ 2 * length (encode_proof p))%nat.
Proof. induction p; cbn [rounds encode_proof length]; rewrite ?length_app; lia. Qed.

(** [from_proof] reads exactly the well-placed proofs. *)
Lemma from_proof_encode `{Sha256} p :
  well_placed [] p →
  ∃ ns, from_proof (encode_proof p) = Ok {| nodes := ns; from_proof_flag := true |} ∧ ns ≠ [] ∧ last_is ns p.
Proof.
  intros Hw. unfold from_proof. pose proof (rounds_bound p) as Hb.
  replace (2 * length (encode_proof p) + 2)%nat with (rounds p + S (2 * length (encode_proof p) + 1 - rounds p))%nat by lia.
  destruct (parse_encode (encode_proof p) p (S (2 * length (encode_proof p) + 1 - rounds p)) 0 [] [] [] [] [] [] Hw)
    as (s' & (ms & i & -> & Hms & _ & Hlast) & Hrun); [cbn [drop]; by rewrite (right_id_L [] (++))|].
  cbn [length] in Hrun. rewrite Hrun. cbn [parse_proof_loop p_ops p_pos p_nodes mbind res_bind Nat.add app]. rewrite Nat.eqb_refl.
  exists ms. done.
Qed.

Lemma from_proof_inv `{Sha256} proof t :
  from_proof proof = Ok t → ∃ p, proof = encode_proof p ∧ well_placed [] p.
Proof.
  unfold from_proof. intros Hf. apply bind_Ok_inv in Hf as (s & Hrun & Hf).
  destruct (parse_inv proof _ 0 [] [] [] [] [] s Hrun) as (p & rest & f & Hd & Hw & Hfuel). rewrite Hfuel in Hrun.
  destruct (parse_encode proof p f 0 [] [] [] [] [] rest Hw Hd) as (s' & (ms & i & -> & Hms & _ & Hlast) & Heq).
  cbn [length] in Heq. rewrite Heq in Hrun. assert (Hs : s = mkParse (0 + length (encode_proof p)) [(i, ntype (ctree p))] [] 0 [] ([] ++ ms)).
  { destruct f; cbn in Hrun; by injection Hrun as <-. }
  subst s. cbn [p_pos] in Hf. destruct (Nat.eqb_spec (0 + length (encode_proof p)) (length proof)) as [Hl|]; [|done].
  exists p. split; [|done]. change (drop 0 proof) with proof in Hd. rewrite Hd in Hl |- *. rewrite length_app in Hl.
  destruct rest; [by rewrite (right_id_L [] (++))|cbn in Hl; lia].
Qed.

(** ** Looking a key up *)
Definition other_bytes `{Sha256} (t : mtree) : list Z :=
  match t with
  | MEmpty => [EMPTY]
  | MLeaf k => TERMINAL :: k
  | MTrunc h => TRUNCATED :: h
  | MNode _ _ => TRUNCATED :: nhash t
  end.

(** [generate_proof_impl] on a tree. *)
Fixpoint prove `{Sha256} (t : mtree) (leaf : list Z) (d : nat) : mset (bool * list Z) :=
  match t with
  | MEmpty => Ok (false, [EMPTY])
  | MLeaf k => Ok (bool_decide (k = leaf), TERMINAL :: k)
  | MTrunc _ => Err SetError
  | MNode (MLeaf a) (MLeaf b) =>
      proof ← pad_middles_for_proof_gen 256 a b d;
      Ok (bool_decide (a = leaf) || bool_decide (b = leaf), proof)
  | MNode l r =>
      d' ← next_depth d;
      if get_bit leaf d then '(b, proof) ← prove r leaf d'; Ok (b, MIDDLE :: other_bytes l ++ proof)
      else '(b, proof) ← prove l leaf d'; Ok (b, MIDDLE :: proof ++ other_bytes r)
  end.

Section lookup.
Context `{Sha256}.

Lemma rep_other e ns i t : rep_of e ns i t → other_included ns i = Ok (other_bytes t).
Proof. intros Hr. unfold other_included. inversion Hr; subst; by match goal with H : ns !! _ = Some _ |- _ => rewrite H end. Qed.

Lemma rep_leaf_kind e ns i t : rep_of e ns i t → ∃ node, ns !! i = Some node ∧ (kind node = SLeaf → ∃ k, t = MLeaf k).
Proof. intros Hr. inversion Hr; subst; eexists; (split; [eassumption|]); cbn; (discriminate || eauto). Qed.

Lemma pair_or_not l r : (∃ a b, l = MLeaf a ∧ r = MLeaf b) ∨ ¬ (∃ a b, l = MLeaf a ∧ r = MLeaf b).
Proof. destruct l, r; naive_solver. Qed.

Lemma prove_node l r leaf d :
  ¬ (∃ a b, l = MLeaf a ∧ r = MLeaf b) →
  prove (MNode l r) leaf d =
    (d' ← next_depth d;
     if get_bit leaf d then '(b, proof) ← prove r leaf d'; Ok (b, MIDDLE :: other_bytes l ++ proof)
     else '(b, proof) ← prove l leaf d'; Ok (b, MIDDLE :: proof ++ other_bytes r)).
Proof. intros Hn. destruct l, r; try done. exfalso. eauto. Qed.

(** The node form of [generate_proof_impl]. *)
Lemma generate_proof_node fuel ns i li ri h nl nr leaf d :
  ns !! i = Some (mkNode (SMiddle li ri) h) → ns !! li = Some nl → ns !! ri = Some nr →
  ¬ (kind nl = SLeaf ∧ kind nr = SLeaf) →
  generate_proof_impl (S fuel) ns i leaf d =
    if get_bit leaf d then
      other ← other_included ns li; depth ← next_depth d;
      '(b, proof) ← generate_proof_impl fuel ns ri leaf depth; Ok (b, MIDDLE :: other ++ proof)
    else
      depth ← next_depth d; '(b, proof) ← generate_proof_impl fuel ns li leaf depth;
      other ← other_included ns ri; Ok (b, MIDDLE :: proof ++ other).
Proof.
  intros Hi Hl Hr Hk. cbn [generate_proof_impl]. rewrite Hi. cbn [expect mbind res_bind kind]. rewrite Hl, Hr. cbn [expect mbind res_bind].
  destruct (kind nl), (kind nr); try done. exfalso. auto.
Qed.

Lemma generate_proof_pair fuel ns i li ri h a b leaf d :
  ns !! i = Some (mkNode (SMiddle li ri) h) → ns !! li = Some (mkNode SLeaf a) → ns !! ri = Some (mkNode SLeaf b) →
  generate_proof_impl (S fuel) ns i leaf d = prove (MNode (MLeaf a) (MLeaf b)) leaf d.
Proof.
  intros Hi Hl Hr. cbn [generate_proof_impl prove]. generalize 256%nat. intros pads.
  rewrite Hi. cbn [expect mbind res_bind kind]. rewrite Hl, Hr. cbn [expect mbind res_bind kind stored_hash]. reflexivity.
Qed.

Lemma generate_proof_rep e ns i t leaf d fuel :
  rep_of e ns i t → (257 ≤ fuel + d)%nat → (d ≤ 255)%nat →
  generate_proof_impl fuel ns i leaf d = prove t leaf d.
Proof.
  intros Hr. revert d fuel. induction Hr as [i Hi|i k Hi|i h Hi|i li ri l r Hi Hl IHl Hr IHr]; intros d fuel Hf Hd;
    (destruct fuel as [|fuel]; [lia|]).
  1-3: cbn [generate_proof_impl]; by rewrite Hi.
  destruct (pair_or_not l r) as [(a & b & -> & ->)|Hn].
  - inversion Hl as [|? ? Hla| |]; subst. inversion Hr as [|? ? Hrb| |]; subst. by eapply generate_proof_pair.
  - destruct (rep_leaf_kind _ _ _ _ Hl) as (nl & Hnl & Hkl), (rep_leaf_kind _ _ _ _ Hr) as (nr & Hnr & Hkr).
    assert (Hk : ¬ (kind nl = SLeaf ∧ kind nr = SLeaf)).
    { intros [[a ->]%Hkl [b ->]%Hkr]. apply Hn. eauto. }
    rewrite (generate_proof_node fuel ns i li ri _ nl nr leaf d Hi Hnl Hnr Hk), (prove_node l r leaf d Hn).
    rewrite (rep_other _ _ _ _ Hl), (rep_other _ _ _ _ Hr). unfold next_depth.
    destruct (Nat.eqb d 255) eqn:Hne; cbn [mbind res_bind]; [by destruct (get_bit leaf d)|].
    apply Nat.eqb_neq in Hne. destruct (get_bit leaf d); [rewrite IHr by lia|rewrite IHl by lia]; reflexivity.
Qed.
End lookup.

(** ** Soundness of a proof *)

(** The byte strings a tree hashes. *)
Fixpoint preimages `{Sha256} (t : mtree) : list (list Z) :=
  match t with
  | MNode l r => middle_bytes (ntype l) (ntype r) (nhash l) (nhash r) :: preimages l ++ preimages r
  | _ => []
  end.
Definition root_preimages `{Sha256} (t : mtree) : list (list Z) :=
  match t with MLeaf k => [[1] ++ k] | _ => preimages t end.

(** No two different strings that the trees hash collide, and none hashes to
    the blank root. *)
Definition no_collision `{Sha256} (t u : mtree) : Prop :=
  (∀ x y, x ∈ root_preimages t → y ∈ root_preimages u → hash_256 x = hash_256 y → x = y) ∧
  (∀ x, x ∈ root_preimages t ++ root_preimages u → hash_256 x ≠ BLANK).

Section soundness.
Context `{Sha256Ok}.

Lemma encode_eq a b : encode_type a = encode_type b →
  a = b ∨ (a = NMid ∧ b = NMidDbl) ∨ (a = NMidDbl ∧ b = NMid).
Proof. destruct a, b; cbn; try lia; auto. Qed.

(** Hash strings are read in one way. *)
Fixpoint sized (t : mtree) : Prop :=
  match t with
  | MEmpty => True
  | MLeaf k => length k = 32%nat
  | MTrunc h => length h = 32%nat
  | MNode l r => sized l ∧ sized r
  end.

Lemma nhash_length t : sized t → length (nhash t) = 32%nat.
Proof. destruct t; cbn; try done. intros _. apply hash_256_length. Qed.

Lemma middle_bytes_inj l r l' r' :
  sized l → sized l' →
  middle_bytes (ntype l) (ntype r) (nhash l) (nhash r) = middle_bytes (ntype l') (ntype r') (nhash l') (nhash r') →
  encode_type (ntype l) = encode_type (ntype l') ∧ encode_type (ntype r) = encode_type (ntype r') ∧
  nhash l = nhash l' ∧ nhash r = nhash r'.
Proof.
  intros Hl Hl' Heq. unfold middle_bytes in Heq. apply (inj (repeat 0 30 ++.)) in Heq. cbn [app] in Heq.
  injection Heq as -> -> Heq. apply app_inj_1 in Heq as [-> ->]; [done|]. by rewrite !nhash_length.
Qed.

Lemma well_placed_sized bits p : well_placed bits p → sized (ctree p).
Proof.
  revert bits. induction p as [|k|h|l IHl r IHr]; intros bits Hw; cbn; [done|apply Hw|exact Hw|].
  destruct Hw as (_ & Hl%IHl & Hr%IHr). destruct (ntype (ctree l)), (ntype (ctree r)); done.
Qed.

Lemma mtree_of_sized n d P : Forall key_ok P → sized (mtree_of n d P).
Proof.
  revert d P. induction n as [|n IH]; intros d P HP; cbn [mtree_of].
  - destruct P as [|x P]; [done|]. by inversion HP as [|? ? [? ?]].
  - assert (Hl : sized (mtree_of n (S d) (clear_at d P))).
    { apply IH. eapply keys_sub; [|exact HP]. intros y. rewrite elem_clear. tauto. }
    assert (Hr : sized (mtree_of n (S d) (set_at d P))).
    { apply IH. eapply keys_sub; [|exact HP]. intros y. rewrite elem_set. tauto. }
    unfold join. destruct (ntype (mtree_of n (S d) (clear_at d P))), (ntype (mtree_of n (S d) (set_at d P))); done.
Qed.

(** A tree of keys has no truncated part, and its middle nodes split the
    keys at their depth. *)
Lemma mtree_of_node n d P l r :
  mtree_of n d P = MNode l r →
  (∃ a b, l = MLeaf a ∧ r = MLeaf b) ∨
  ∃ n', n = S n' ∧ l = mtree_of n' (S d) (clear_at d P) ∧ r = mtree_of n' (S d) (set_at d P) ∧ join l r = MNode l r.
Proof.
  revert d P. induction n as [|n IH]; intros d P Ht; cbn [mtree_of] in Ht; [by destruct P|].
  set (l' := mtree_of n (S d) (clear_at d P)) in *. set (r' := mtree_of n (S d) (set_at d P)) in *.
  destruct (join_cases l' r') as [[Hj _]|[(_ & _ & Hj)|[(_ & Hr & Hj)|(_ & Hl & Hj)]]]; rewrite Hj in Ht.
  - injection Ht as <- <-. right. by exists n.
  - done.
  - left. rewrite Ht in Hr. destruct Hr as [[? Hr]%ntype_term|(a & b & [= -> ->])%ntype_dbl]; [done|eauto].
  - left. rewrite Ht in Hl. destruct Hl as [[? Hl]%ntype_term|(a & b & [= -> ->])%ntype_dbl]; [done|eauto].
Qed.

Lemma mtree_of_trunc n d P h : mtree_of n d P ≠ MTrunc h.
Proof.
  revert d P. induction n as [|n IH]; intros d P Ht; cbn [mtree_of] in Ht; [by destruct P|].
  destruct (join_cases (mtree_of n (S d) (clear_at d P)) (mtree_of n (S d) (set_at d P)))
    as [[Hj _]|[(_ & _ & Hj)|[(_ & _ & Hj)|(_ & _ & Hj)]]]; rewrite Hj in Ht; [done|done|by apply IH in Ht..].
Qed.

Lemma prove_pair_inv x y item d b proof :
  prove (MNode (MLeaf x) (MLeaf y)) item d = Ok (b, proof) →
  b = bool_decide (x = item) || bool_decide (y = item) ∧ pad_middles_for_proof_gen 256 x y d = Ok proof.
Proof.
  cbn [prove]. generalize 256%nat. intros pads Hp. apply bind_Ok_inv in Hp as (pad & -> & Hp). injection Hp as <- <-. done.
Qed.

(** A lookup in a proof whose hash is that of the tree of [P] finds the
    keys of [P]. *)
Lemma prove_sound n d P p item b proof :
  (n + d = 256)%nat → Forall key_ok P → agree d P → sized (ctree p) →
  (∀ x y, x ∈ preimages (mtree_of n d P) → y ∈ preimages (ctree p) → hash_256 x = hash_256 y → x = y) →
  encode_type (ntype (ctree p)) = encode_type (ntype (mtree_of n d P)) → nhash (ctree p) = nhash (mtree_of n d P) →
  prove (ctree p) item d = Ok (b, proof) → b = bool_decide (item ∈ P).
Proof.
  intros Hd HP Ha Hsz Hcol Hty Hh Hpr. remember (ctree p) as c eqn:Hc. clear p Hc.
  revert n d P b proof Hd HP Ha Hsz Hcol Hty Hh Hpr.
  induction c as [|k|h|cl IHl cr IHr]; intros n d P b proof Hd HP Ha Hsz Hcol Hty Hh Hpr.
  - cbn in Hpr. injection Hpr as <- _. symmetry. apply bool_decide_eq_false. intros Hin.
    apply (keys_mtree_of n d P item Hd HP Ha) in Hin. destruct (mtree_of n d P) as [| | |[] []]; cbn in Hty; try lia.
    by apply not_elem_of_nil in Hin.
  - cbn in Hpr. injection Hpr as <- _. apply bool_decide_ext. rewrite <- (keys_mtree_of n d P item Hd HP Ha).
    destruct (mtree_of n d P) as [| | |[] []]; cbn in Hty; try lia. cbn in Hh |- *. subst. rewrite list_elem_of_singleton. naive_solver.
  - done.
  - destruct (mtree_of n d P) as [|k'|h'|l' r'] eqn:Ht.
    { exfalso. destruct cl as [| | |[] []], cr as [| | |[] []]; cbn in Hty; lia. }
    { exfalso. destruct cl as [| | |[] []], cr as [| | |[] []]; cbn in Hty; lia. }
    { by apply mtree_of_trunc in Ht. }
    pose proof (mtree_of_sized n d P HP) as Hsz'. rewrite Ht in Hsz'. destruct Hsz as [Hszl Hszr], Hsz' as [Hszl' Hszr'].
    cbn [nhash] in Hh. unfold node_hash in Hh. symmetry in Hh. apply Hcol in Hh; [|apply list_elem_of_here|apply list_elem_of_here].
    symmetry in Hh. apply middle_bytes_inj in Hh as (Htl & Htr & Hhl & Hhr); [|done|done].
    destruct (pair_or_not cl cr) as [(a & a' & -> & ->)|Hn].
    + assert (∃ k, l' = MLeaf k) as [k ->] by (destruct l' as [| | |[] []]; cbn in Htl; try lia; eauto).
      assert (∃ k, r' = MLeaf k) as [k' ->] by (destruct r' as [| | |[] []]; cbn in Htr; try lia; eauto).
      cbn in Hhl, Hhr. subst k k'. apply prove_pair_inv in Hpr as [-> _].
      pose proof (keys_mtree_of n d P item Hd HP Ha) as Hin. rewrite Ht in Hin. cbn in Hin.
      rewrite <- bool_decide_or. apply bool_decide_ext. rewrite <- Hin, elem_of_cons, list_elem_of_singleton. naive_solver.
    + destruct (mtree_of_node n d P l' r' Ht) as [(a & a' & -> & ->)|(n' & -> & -> & -> & _)].
      { exfalso. apply Hn. destruct cl as [| | |[] []]; cbn in Htl; try lia. destruct cr as [| | |[] []]; cbn in Htr; try lia. eauto. }
      destruct (halves d P HP Ha) as (Hkl & Hal & Hkr & Har).
      rewrite (prove_node cl cr item d Hn) in Hpr. apply bind_Ok_inv in Hpr as (d' & Hnext & Hpr).
      unfold next_depth in Hnext. destruct (Nat.eqb d 255) eqn:Hne; [done|]. injection Hnext as <-.
      destruct (get_bit item d) eqn:Hbit.
      * apply bind_Ok_inv in Hpr as ([b' pr] & Hpr & [= <- _]).
        rewrite (IHr n' (S d) (set_at d P) b' pr) by (try done; try lia; intros x y Hx Hy; apply Hcol; apply list_elem_of_further, elem_of_app; auto).
        apply bool_decide_ext. rewrite elem_set. tauto.
      * apply bind_Ok_inv in Hpr as ([b' pr] & Hpr & [= <- _]).
        rewrite (IHl n' (S d) (clear_at d P) b' pr) by (try done; try lia; intros x y Hx Hy; apply Hcol; apply list_elem_of_further, elem_of_app; auto).
        apply bool_decide_ext. rewrite elem_clear. tauto.
Qed.
End soundness.

(** ** Auditing a parsed proof *)
Section audit.
Context `{Sha256Ok}.

Lemma placed_snoc bits v k :
  leaf_placed (bits ++ [v]) k = true ↔ leaf_placed bits k = true ∧ get_bit k (length bits mod 256) = v.
Proof.
  unfold leaf_placed. rewrite imap_app, forallb_app, andb_true_iff. cbn [imap forallb].
  by rewrite andb_true_r, bool_decide_eq_true, Nat.add_0_r.
Qed.

Lemma keys_placed bits p k : well_placed bits p → k ∈ keys (ctree p) → leaf_placed bits k = true.
Proof.
  revert bits. induction p as [|k'|h|l IHl r IHr]; intros bits Hw Hin; cbn [ctree] in Hin.
  - by apply not_elem_of_nil in Hin.
  - apply list_elem_of_singleton in Hin as ->. apply Hw.
  - by apply not_elem_of_nil in Hin.
  - destruct Hw as (_ & Hl & Hr).
    assert (k ∈ keys (ctree l) ∨ k ∈ keys (ctree r)) as [Hk|Hk].
    { destruct (ntype (ctree l)), (ntype (ctree r)); cbn [keys] in Hin; rewrite ?elem_of_app in Hin; auto. }
    + eapply placed_snoc, IHl; eauto.
    + eapply placed_snoc, IHr; eauto.
Qed.

(** The bit of the answer that [validate_merkle_proof] returns. *)
Definition included (m : mset (bool * list Z)) : mset bool := '(b, _) ← m; Ok b.

(** A root over an empty side and a pair. *)
Lemma audit_lone_pair fuel ns i li ri h a b item (high : bool) :
  (256 ≤ fuel)%nat → ns !! i = Some (mkNode (SMiddle li ri) h) →
  rep_of BLANK ns li (if high then MEmpty else MNode (MLeaf a) (MLeaf b)) →
  rep_of BLANK ns ri (if high then MNode (MLeaf a) (MLeaf b) else MEmpty) →
  included (generate_proof_impl (S fuel) ns i item 0) =
    if bool_decide (get_bit item 0 = high) then included (prove (MNode (MLeaf a) (MLeaf b)) item 1) else Ok false.
Proof.
  intros Hf Hi Hl Hr. destruct (rep_leaf_kind _ _ _ _ Hl) as (nl & Hnl & Hkl), (rep_leaf_kind _ _ _ _ Hr) as (nr & Hnr & Hkr).
  assert (Hk : ¬ (kind nl = SLeaf ∧ kind nr = SLeaf)).
  { intros [[x Hx]%Hkl [y Hy]%Hkr]. by destruct high. }
  pose proof (generate_proof_rep _ _ _ _ item 1 fuel Hl) as Hpl. pose proof (generate_proof_rep _ _ _ _ item 1 fuel Hr) as Hpr.
  rewrite (generate_proof_node fuel ns i li ri h nl nr item 0 Hi Hnl Hnr Hk), (rep_other _ _ _ _ Hl), (rep_other _ _ _ _ Hr).
  cbn [next_depth Nat.eqb mbind res_bind]. rewrite Hpl, Hpr by lia. clear Hpl Hpr.
  destruct high, (get_bit item 0); cbn [bool_decide bool_eq_dec decide].
  - rewrite bool_decide_eq_true_2 by done. by destruct (prove _ item 1) as [[]| |].
  - by rewrite bool_decide_eq_false_2.
  - by rewrite bool_decide_eq_false_2.
  - rewrite bool_decide_eq_true_2 by done. by destruct (prove _ item 1) as [[]| |].
Qed.

(** A parsed proof is looked up as its tree, but that a root over an empty
    side and a pair keeps its level. *)
Lemma audit fuel p ns item :
  (256 ≤ fuel)%nat → well_placed [] p → last_is ns p →
  included (generate_proof_impl (S fuel) ns (length ns - 1) item 0) = included (prove (ctree p) item 0) ∨
  ∃ a b high, ctree p = MNode (MLeaf a) (MLeaf b) ∧ get_bit a 0 = high ∧ get_bit b 0 = high ∧
    included (generate_proof_impl (S fuel) ns (length ns - 1) item 0) =
      if bool_decide (get_bit item 0 = high) then included (prove (MNode (MLeaf a) (MLeaf b)) item 1) else Ok false.
Proof.
  intros Hf Hw Hlast. destruct p as [|k|h|l r]; cbn [last_is] in Hlast.
  1-3: left; f_equal; by eapply generate_proof_rep; [exact Hlast|lia|lia].
  destruct Hlast as (li & ri & Hi & Hl & Hr). destruct Hw as (_ & Hwl & Hwr).
  assert (Hplain : ctree (PMid l r) = MNode (ctree l) (ctree r) →
    included (generate_proof_impl (S fuel) ns (length ns - 1) item 0) = included (prove (ctree (PMid l r)) item 0)).
  { intros Hc. f_equal. rewrite Hc in Hi |- *. eapply generate_proof_rep; [by econstructor|lia|lia]. }
  cbn [ctree] in Hplain |- *.
  destruct (ntype (ctree l)) eqn:Tl, (ntype (ctree r)) eqn:Tr; try (by left; apply Hplain); right; clear Hplain.
  - apply ntype_empty in Tl. apply ntype_dbl in Tr as (a & b & Hab). rewrite Tl in Hl. rewrite Hab in Hr |- *.
    assert (Hp : ∀ k, k ∈ [a; b] → get_bit k 0 = true).
    { intros k Hk. apply (keys_placed _ r k) in Hwr; [|by rewrite Hab]. by apply (placed_snoc [] true k) in Hwr as [_ ?]. }
    exists a, b, true. split; [done|]. split; [apply Hp, list_elem_of_here|].
    split; [apply Hp, list_elem_of_further, list_elem_of_here|]. by eapply (audit_lone_pair _ _ _ _ _ _ _ _ _ true).
  - apply ntype_empty in Tr. apply ntype_dbl in Tl as (a & b & Hab). rewrite Tr in Hr. rewrite Hab in Hl |- *.
    assert (Hp : ∀ k, k ∈ [a; b] → get_bit k 0 = false).
    { intros k Hk. apply (keys_placed _ l k) in Hwl; [|by rewrite Hab]. by apply (placed_snoc [] false k) in Hwl as [_ ?]. }
    exists a, b, false. split; [done|]. split; [apply Hp, list_elem_of_here|].
    split; [apply Hp, list_elem_of_further, list_elem_of_here|]. by eapply (audit_lone_pair _ _ _ _ _ _ _ _ _ false).
Qed.

Lemma parsed_root p ns flag :
  ns ≠ [] → last_is ns p → get_root {| nodes := ns; from_proof_flag := flag |} = root_of (ctree p).
Proof.
  intros Hne Hlast. destruct p as [|k|h|l r]; [by eapply get_root_rep..|].
  destruct Hlast as (li & ri & Hi & _ & _). unfold get_root. cbn [nodes]. rewrite last_lookup.
  replace (Init.Nat.pred (length ns)) with (length ns - 1)%nat by lia. rewrite Hi. cbn [kind stored_hash].
  assert (Hleaf : ∀ k, ctree (PMid l r) ≠ MLeaf k).
  { intros k Hk. cbn [ctree] in Hk. destruct (ntype (ctree l)) eqn:Tl, (ntype (ctree r)) eqn:Tr; try done;
      rewrite Hk in *; done. }
  destruct (ctree (PMid l r)) as [|k| |]; [done|by destruct (Hleaf k)|done|done].
Qed.

Lemma generate_proof_last ns flag item :
  ns ≠ [] →
  ∃ fuel, (256 ≤ fuel)%nat ∧ generate_proof {| nodes := ns; from_proof_flag := flag |} item =
    ('(b, proof) ← generate_proof_impl (S fuel) ns (length ns - 1) item 0; Ok (b, if flag then [] else proof)).
Proof.
  intros Hne. assert (∃ fuel, fuel = 256%nat) as [fuel Hfuel] by eauto. exists fuel. split; [lia|].
  unfold generate_proof. replace 257%nat with (S fuel) by lia. cbn [nodes from_proof_flag].
  replace (match ns with [] => None | _ => Some (length ns - 1)%nat end) with (Some (length ns - 1)%nat) by (by destruct ns).
  done.
Qed.

(** [validate_merkle_proof] in terms of the tree of the proof. *)
Lemma validate_spec p item root :
  well_placed [] p →
  ∃ fuel ns, (256 ≤ fuel)%nat ∧ last_is ns p ∧ validate_merkle_proof (encode_proof p) item root =
    if bool_decide (root_of (ctree p) = root) then included (generate_proof_impl (S fuel) ns (length ns - 1) item 0) else Err SetError.
Proof.
  intros Hw. destruct (from_proof_encode p Hw) as (ns & Hf & Hne & Hlast).
  destruct (generate_proof_last ns true item Hne) as (fuel & Hfuel & Hg). exists fuel, ns. split; [done|]. split; [done|].
  unfold validate_merkle_proof. rewrite Hf. cbn [mbind res_bind]. rewrite (parsed_root p ns true Hne Hlast), Hg.
  case_bool_decide; [|done]. cbn [negb]. by destruct (generate_proof_impl (S fuel) ns (length ns - 1) item 0) as [[]| |].
Qed.
End audit.

(** ** Proofs that validate are right *)
Section sound.
Context `{Sha256Ok}.

Lemma agree_0 P : agree 0 P.
Proof. intros x y i _ _ Hi. lia. Qed.

(** The tree of a set of keys. *)
Definition set_tree (S : list (list Z)) : mtree := mtree_of 256 0 S.

Lemma from_leafs_tree S :
  Forall key_ok S →
  ∃ e ns, from_leafs S = Ok {| nodes := ns; from_proof_flag := false |} ∧ ns ≠ [] ∧ rep_of e ns (length ns - 1) (set_tree S).
Proof. apply from_leafs_spec. Qed.
Lemma merkle_set_root_tree S : Forall key_ok S → merkle_set_root S = Ok (root_of (set_tree S)).
Proof. apply merkle_set_root_spec. Qed.
Lemma set_tree_ext S S' : Forall key_ok S → Forall key_ok S' → (∀ k, k ∈ S ↔ k ∈ S') → set_tree S = set_tree S'.
Proof. intros HS HS'. apply mtree_of_ext; [done|done|done|apply agree_0]. Qed.

Lemma set_tree_facts S :
  Forall key_ok S → sized (set_tree S) ∧ (∀ h, set_tree S ≠ MTrunc h) ∧ (∀ x, x ∈ keys (set_tree S) ↔ x ∈ S).
Proof.
  intros HS. split; [by apply mtree_of_sized|]. split; [apply mtree_of_trunc|].
  intros x. by apply keys_mtree_of; [|done|apply agree_0].
Qed.

Lemma set_tree_sound S p item b proof :
  Forall key_ok S → sized (ctree p) →
  (∀ x y, x ∈ preimages (set_tree S) → y ∈ preimages (ctree p) → hash_256 x = hash_256 y → x = y) →
  encode_type (ntype (ctree p)) = encode_type (ntype (set_tree S)) → nhash (ctree p) = nhash (set_tree S) →
  prove (ctree p) item 0 = Ok (b, proof) → b = bool_decide (item ∈ S).
Proof. intros HS. unfold set_tree. apply prove_sound; [done|done|apply agree_0]. Qed.

#[local] Opaque set_tree.

(** Equal roots are roots of the same kind. *)
Lemma roots_match P p :
  Forall key_ok P → well_placed [] p → no_collision (set_tree P) (ctree p) →
  root_of (ctree p) = root_of (set_tree P) →
  (∃ h, ctree p = MTrunc h) ∨
  encode_type (ntype (ctree p)) = encode_type (ntype (set_tree P)) ∧ nhash (ctree p) = nhash (set_tree P).
Proof.
  intros HP Hw [Hcol Hblank] Hroot. destruct (set_tree_facts P HP) as (Hsz & Htr & _). pose proof (well_placed_sized _ _ Hw) as Hsz'.
  remember (set_tree P) as t eqn:Ht. remember (ctree p) as u eqn:Hu. clear Ht Hu Hw HP.
  assert (Hmid : ∀ l r, encode_type (ntype (MNode l r)) = 2) by (intros [| | |[] []] [| | |[] []]; done).
  assert (Hlen : ∀ k l r, length k = 32%nat → sized (MNode l r) →
    [1] ++ k ≠ middle_bytes (ntype l) (ntype r) (nhash l) (nhash r)).
  { intros k l r Hk [Hl Hr] Heq%(f_equal length). revert Heq. unfold middle_bytes.
    rewrite !length_app, repeat_length, Hk, !nhash_length by done. cbn [length]. lia. }
  destruct u as [|k|h|l r], t as [|k'|h'|l' r']; eauto; try (by destruct (Htr h')); right.
  - exfalso. symmetry in Hroot. eapply Hblank; [|exact Hroot]. apply list_elem_of_here.
  - exfalso. symmetry in Hroot. eapply Hblank; [|exact Hroot]. apply list_elem_of_here.
  - exfalso. eapply Hblank; [|exact Hroot]. apply elem_of_app. right. apply list_elem_of_here.
  - split; [done|]. symmetry in Hroot. apply Hcol in Hroot; [|apply list_elem_of_here|apply list_elem_of_here]. by injection Hroot.
  - exfalso. eapply (Hlen k l' r'); [done|done|]. symmetry. apply Hcol; [apply list_elem_of_here|apply list_elem_of_here|].
    exact (eq_sym Hroot).
  - exfalso. eapply Hblank; [|exact Hroot]. apply elem_of_app. right. apply list_elem_of_here.
  - exfalso. eapply (Hlen k' l r); [done|done|]. apply Hcol; [apply list_elem_of_here|apply list_elem_of_here|]. exact (eq_sym Hroot).
  - split; [by rewrite !Hmid|done].
Qed.

(** A tree with the hash of a pair is the pair. *)
Lemma pair_match P a b :
  Forall key_ok P → sized (MNode (MLeaf a) (MLeaf b)) →
  (∀ x y, x ∈ preimages (set_tree P) → y ∈ preimages (MNode (MLeaf a) (MLeaf b)) → hash_256 x = hash_256 y → x = y) →
  encode_type (ntype (set_tree P)) = 2 → nhash (MNode (MLeaf a) (MLeaf b)) = nhash (set_tree P) →
  set_tree P = MNode (MLeaf a) (MLeaf b).
Proof.
  intros HP [Hsa Hsb] Hcol Hty Hh. destruct (set_tree_facts P HP) as (Hsz & Htr & _).
  destruct (set_tree P) as [|k|h|l r]; [done|done|by destruct (Htr h)|]. destruct Hsz as [Hl Hr].
  assert (Heq : hash_256 (middle_bytes (ntype l) (ntype r) (nhash l) (nhash r)) = hash_256 (middle_bytes NTerm NTerm a b)) by (by symmetry).
  apply Hcol in Heq; [|apply list_elem_of_here|apply list_elem_of_here].
  apply (middle_bytes_inj l r (MLeaf a) (MLeaf b)) in Heq as (Htl & Htr' & Hhl & Hhr); [|done|done].
  destruct l as [| | |[] []]; cbn in Htl; try lia. destruct r as [| | |[] []]; cbn in Htr'; try lia. cbn in Hhl, Hhr. by subst.
Qed.

Lemma included_Ok m b : included m = Ok b → ∃ proof, m = Ok (b, proof).
Proof. destruct m as [[b' proof]| |]; cbn; [intros [= ->]; eauto|done..]. Qed.

(** C3: a Merkle proof that validates tells the truth. Let the root that
    [validate_merkle_proof] is given be that of a set of keys; if it returns
    [b], the proof is the encoding of a tree, and unless two of the strings
    hashed for the set and for the proof collide, [b] says whether the item
    is in the set. *)
Theorem merkle_proof_sound (S : list (list Z)) (proof item : list Z) (b : bool) :
  Forall key_ok S → validate_merkle_proof proof item (root_of (set_tree S)) = Ok b →
  ∃ p, proof = encode_proof p ∧ (no_collision (set_tree S) (ctree p) → b = bool_decide (item ∈ S)).
Proof.
  intros HS Hv. assert (∃ t, from_proof proof = Ok t) as [t Ht].
  { unfold validate_merkle_proof in Hv. apply bind_Ok_inv in Hv as (t & Ht & _). eauto. }
  destruct (from_proof_inv proof t Ht) as (p & -> & Hw). exists p. split; [done|]. intros Hnc.
  destruct (validate_spec p item (root_of (set_tree S)) Hw) as (fuel & ns & Hfuel & Hlast & Heq).
  rewrite Heq in Hv. case_bool_decide as Hroot; [|done].
  destruct (set_tree_facts S HS) as (_ & _ & Hkeys). specialize (Hkeys item).
  assert (Hcol : ∀ x y, x ∈ preimages (set_tree S) → y ∈ preimages (ctree p) → hash_256 x = hash_256 y → x = y).
  { intros x y Hx Hy. apply (proj1 Hnc); [destruct (set_tree S)|destruct (ctree p)]; cbn in Hx, Hy |- *;
      rewrite ?elem_of_nil in *; done. }
  destruct (roots_match S p HS Hw Hnc Hroot) as [[h Htr]|[Hty Hh]];
    destruct (audit fuel p ns item ltac:(lia) Hw Hlast) as [Ha|(x & y & high & Hc & Hx & Hy & Ha)]; rewrite Ha in Hv.
  - by rewrite Htr in Hv.
  - by rewrite Htr in Hc.
  - apply included_Ok in Hv as [pr Hpr].
    eapply (set_tree_sound S p item b pr); eauto using well_placed_sized.
  - pose proof (well_placed_sized _ _ Hw) as Hsz. rewrite Hc in Hty, Hh, Hcol, Hsz.
    rewrite (pair_match S x y HS Hsz Hcol (eq_sym Hty) Hh) in Hkeys. cbn [keys app] in Hkeys.
    rewrite !elem_of_cons, elem_of_nil in Hkeys. case_bool_decide as Hbit.
    + apply included_Ok in Hv as [pr [-> _]%prove_pair_inv]. rewrite <- bool_decide_or. apply bool_decide_ext.
      rewrite <- Hkeys. clear. naive_solver.
    + injection Hv as <-. symmetry. apply bool_decide_eq_false. rewrite <- Hkeys. clear -Hx Hy Hbit. naive_solver.
Qed.
End sound.

(** ** The proofs that are generated validate *)
Section complete.
Context `{Sha256Ok}.

(** [a] and [b] part at a bit below [d], [a] to the left. *)
Definition parts (d : nat) (a b : list Z) : Prop :=
  ∃ j, (d ≤ j < 256)%nat ∧ (∀ i, (i < j)%nat → get_bit a i = get_bit b i) ∧ get_bit a j = false ∧ get_bit b j = true.

Lemma mtree_of_pair n d P a b :
  (n + d = 256)%nat → Forall key_ok P → agree d P → mtree_of n d P = MNode (MLeaf a) (MLeaf b) → parts d a b.
Proof.
  revert d P. induction n as [|n IH]; intros d P Hd HP Ha Ht; cbn [mtree_of] in Ht; [by destruct P|].
  destruct (halves d P HP Ha) as (Hkl & Hal & Hkr & Har).
  assert (Hdown : ∀ Q, Forall key_ok Q → agree (S d) Q → mtree_of n (S d) Q = MNode (MLeaf a) (MLeaf b) → parts d a b).
  { intros Q HQ HaQ HtQ. destruct (IH (S d) Q ltac:(lia) HQ HaQ HtQ) as (j & Hj & Hab). exists j. split; [lia|done]. }
  destruct (join_cases (mtree_of n (S d) (clear_at d P)) (mtree_of n (S d) (set_at d P)))
    as [[Hj _]|[(_ & _ & Hj)|[(_ & _ & Hj)|(_ & _ & Hj)]]]; rewrite Hj in Ht; [|done|exact (Hdown _ Hkr Har Ht)|exact (Hdown _ Hkl Hal Ht)].
  injection Ht as Hl Hr. pose proof (keys_mtree_of n (S d) (clear_at d P) a ltac:(lia) Hkl Hal) as Hina.
  pose proof (keys_mtree_of n (S d) (set_at d P) b ltac:(lia) Hkr Har) as Hinb. rewrite Hl in Hina; cbn [keys] in Hina; rewrite list_elem_of_singleton in Hina.
  rewrite Hr in Hinb; cbn [keys] in Hinb; rewrite list_elem_of_singleton in Hinb. apply proj1 in Hina, Hinb. specialize (Hina eq_refl). specialize (Hinb eq_refl).
  apply elem_clear in Hina as [Hba Hina]. apply elem_set in Hinb as [Hbb Hinb].
  exists d. split; [lia|]. split; [|done]. intros i Hi. by apply Ha.
Qed.

(** The levels written above a pair are taken out again. *)
Lemma pad_spec n d a b bits :
  (256 ≤ n + d)%nat → parts d a b → length a = 32%nat → length b = 32%nat → length bits = d →
  leaf_placed bits a = true → leaf_placed bits b = true →
  ∃ p, pad_middles_for_proof_gen n a b d = Ok (encode_proof p) ∧ ctree p = MNode (MLeaf a) (MLeaf b) ∧ well_placed bits p.
Proof.
  revert d bits. induction n as [|n IH]; intros d bits Hn (j & Hj & Hab & Hba & Hbb) Hla Hlb Hbits Hpa Hpb; [lia|].
  cbn [pad_middles_for_proof_gen]. assert (Hdm : (length bits mod 256 = d)%nat) by (rewrite Hbits; apply Nat.mod_small; lia).
  destruct (decide (j = d)) as [->|Hne].
  - exists (PMid (PLeaf a) (PLeaf b)). rewrite bool_decide_eq_false_2 by congruence. split; [done|]. split; [done|].
    cbn [well_placed]. rewrite !placed_snoc, Hdm. split_and!; (done || lia).
  - specialize (Hab d) as Habd. rewrite bool_decide_eq_true_2 by (apply Habd; lia). cbn [negb].
    assert (Hrec : ∀ v, get_bit a d = v → ∃ p, pad_middles_for_proof_gen n a b (S d) = Ok (encode_proof p) ∧
      ctree p = MNode (MLeaf a) (MLeaf b) ∧ well_placed (bits ++ [v]) p).
    { intros v Hv. apply IH; [lia| |done|done| | |].
      - exists j. split; [lia|done].
      - rewrite length_app. cbn. lia.
      - apply placed_snoc. by rewrite Hdm.
      - apply placed_snoc. rewrite Hdm, <- Habd by lia. done. }
    unfold next_depth. destruct (Nat.eqb d 255) eqn:Hd; [apply Nat.eqb_eq in Hd; lia|].
    destruct (get_bit a d); cbn [mbind res_bind]; destruct (Hrec _ eq_refl) as (p & -> & Hc & Hw).
    + exists (PMid PEmpty p). cbn [ctree encode_proof well_placed]. rewrite Hc. cbn [ntype mbind res_bind]. split_and!; (done || lia).
    + exists (PMid p PEmpty). cbn [ctree encode_proof well_placed]. rewrite Hc. cbn [ntype mbind res_bind]. split_and!; (done || lia).
Qed.

Lemma pad_fuel n k a b d x : pad_middles_for_proof_gen n a b d = Ok x → pad_middles_for_proof_gen (n + k) a b d = Ok x.
Proof.
  revert d x. induction n as [|n IH]; intros d x; destruct k as [|k]; rewrite ?Nat.add_0_r; try done;
    cbn [pad_middles_for_proof_gen Nat.add]; case_bool_decide; try done; cbn [negb].
  unfold next_depth. destruct (Nat.eqb d 255); [by destruct (get_bit a d)|]. cbn [mbind res_bind].
  destruct (get_bit a d); intros Hr; apply bind_Ok_inv in Hr as (rest & Hr & Hx); by rewrite (IH _ _ Hr).
Qed.

(** What a proof says of the side it leaves. *)
Definition other_ptree (t : mtree) : ptree :=
  match t with
  | MEmpty => PEmpty
  | MLeaf k => PLeaf k
  | MTrunc h => PTrunc h
  | MNode _ _ => PTrunc (nhash t)
  end.

Lemma other_ptree_spec t :
  encode_proof (other_ptree t) = other_bytes t ∧ nhash (ctree (other_ptree t)) = nhash t ∧
  ntype (ctree (other_ptree t)) = (if ntype t is NMidDbl then NMid else ntype t).
Proof. destruct t as [| | |l r]; [done..|]. split; [done|]. split; [done|]. by destruct l, r. Qed.

Lemma other_placed n d P bits :
  (n + d = 256)%nat → Forall key_ok P → agree d P → (∀ k, k ∈ P → leaf_placed bits k = true) →
  well_placed bits (other_ptree (mtree_of n d P)).
Proof.
  intros Hd HP Ha Hb. pose proof (mtree_of_sized n d P HP) as Hsz. pose proof (keys_mtree_of n d P) as Hk.
  destruct (mtree_of n d P) as [|k|h|l r] eqn:Ht; cbn [other_ptree well_placed]; [done| |done|].
  - split; [done|]. apply Hb, Hk; [done..|]. apply list_elem_of_here.
  - by apply (nhash_length (MNode l r)).
Qed.

(** A generated proof: what it proves and what reading it gives. *)
Definition proves (item : list Z) (P : list (list Z)) (bits : list bool) (t : mtree) : Prop :=
  ∃ p proof', prove t item (length bits) = Ok (bool_decide (item ∈ P), encode_proof p) ∧
    ntype (ctree p) = ntype t ∧ nhash (ctree p) = nhash t ∧ well_placed bits p ∧
    prove (ctree p) item (length bits) = Ok (bool_decide (item ∈ P), proof').

Lemma proves_pair item P bits a b :
  Forall key_ok P → parts (length bits) a b → (∀ k, k ∈ [a; b] ↔ k ∈ P) → (∀ k, k ∈ P → leaf_placed bits k = true) →
  proves item P bits (MNode (MLeaf a) (MLeaf b)).
Proof.
  intros HP Hab Hk Hb. assert (Ha : a ∈ P) by (apply Hk, list_elem_of_here).
  assert (Hb' : b ∈ P) by (apply Hk, list_elem_of_further, list_elem_of_here). rewrite Forall_forall in HP.
  assert (∃ pads, pads = 256%nat) as [pads Hpads] by eauto.
  destruct (pad_spec pads (length bits) a b bits ltac:(lia) Hab) as (p & Hp & Hc & Hw); [apply HP, Ha|apply HP, Hb'|done|by apply Hb..|].
  assert (Hpr : prove (MNode (MLeaf a) (MLeaf b)) item (length bits) = Ok (bool_decide (item ∈ P), encode_proof p)).
  { cbn [prove]. rewrite <- Hpads, Hp. cbn [mbind res_bind]. do 2 f_equal. rewrite <- bool_decide_or. apply bool_decide_ext.
    rewrite <- Hk, !elem_of_cons, elem_of_nil. clear. naive_solver. }
  exists p, (encode_proof p). by rewrite Hc.
Qed.

Lemma node_not_child l r : MNode l r ≠ l ∧ MNode l r ≠ r.
Proof.
  split; [revert r; induction l as [| | |l IHl r' IHr]|revert l; induction r as [| | |l' IHl r IHr]]; intros ? Heq; try done.
  - injection Heq as Heq _. by apply IHl in Heq.
  - injection Heq as _ Heq. by apply IHr in Heq.
Qed.

Lemma join_node l r :
  join l r = MNode l r → ¬ (ntype l = NEmpty ∧ ntype r = NMidDbl) ∧ ¬ (ntype l = NMidDbl ∧ ntype r = NEmpty).
Proof.
  intros Hj. destruct (node_not_child l r) as [Hl Hr]. unfold join in Hj.
  split; intros [El Er]; rewrite El, Er in Hj; congruence.
Qed.

(** A side that is left and a side that is proved make a node. *)
Lemma proves_node item l r bits side P Q :
  ¬ (∃ a b, l = MLeaf a ∧ r = MLeaf b) → join l r = MNode l r → (length bits < 255)%nat → side = get_bit item (length bits) →
  well_placed (bits ++ [negb side]) (other_ptree (if side then l else r)) →
  (item ∈ Q ↔ item ∈ P) → proves item Q (bits ++ [side]) (if side then r else l) →
  proves item P bits (MNode l r).
Proof.
  intros Hn Hj Hd Hs Hwo HQ (p & proof' & Hp & Hty & Hh & Hw & Hp').
  rewrite (bool_decide_ext _ _ HQ) in Hp, Hp'. rewrite length_app in Hp, Hp'. cbn [length] in Hp, Hp'.
  rewrite Nat.add_1_r in Hp, Hp'.
  destruct (other_ptree_spec (if side then l else r)) as (Hoe & Hoh & Hot).
  set (o := other_ptree (if side then l else r)) in *.
  assert (Hnext : next_depth (length bits) = Ok (S (length bits))).
  { unfold next_depth. by rewrite (proj2 (Nat.eqb_neq _ _)) by lia. }
  set (lo := if side then o else p). set (hi := if side then p else o).
  assert (Htl : ntype (ctree lo) = ntype l ∨ ntype (ctree lo) = NMid ∧ ntype l = NMidDbl).
  { subst lo. destruct side; [rewrite Hot|rewrite Hty]; [destruct (ntype l)|]; auto. }
  assert (Htr : ntype (ctree hi) = ntype r ∨ ntype (ctree hi) = NMid ∧ ntype r = NMidDbl).
  { subst hi. destruct side; [rewrite Hty|rewrite Hot]; [|destruct (ntype r)]; auto. }
  assert (Hhl : nhash (ctree lo) = nhash l) by (subst lo; by destruct side).
  assert (Hhr : nhash (ctree hi) = nhash r) by (subst hi; by destruct side).
  assert (Hc : ctree (PMid lo hi) = MNode (ctree lo) (ctree hi)).
  { apply join_node in Hj as [Hj1 Hj2]. cbn [ctree].
    destruct (ntype (ctree lo)) eqn:El, (ntype (ctree hi)) eqn:Er; try done; exfalso;
      destruct Htl as [Htl|[]], Htr as [Htr|[]]; try done; auto. }
  assert (Hn' : ¬ (∃ a b, ctree lo = MLeaf a ∧ ctree hi = MLeaf b)).
  { intros (a & b & Ha & Hb). apply Hn. rewrite Ha in Htl. rewrite Hb in Htr. cbn [ntype] in Htl, Htr.
    destruct Htl as [[x ->]%eq_sym%ntype_term|[]]; [|done]. destruct Htr as [[y ->]%eq_sym%ntype_term|[]]; [|done]. eauto. }
  exists (PMid lo hi). rewrite Hc, (prove_node l r _ _ Hn), (prove_node _ _ _ _ Hn'), Hnext, !ntype_node, <- Hs. cbn [mbind res_bind nhash].
  rewrite Hhl, Hhr. cbn [encode_proof well_placed].
  assert (Hte : ∀ t u, ntype t = ntype u ∨ ntype t = NMid ∧ ntype u = NMidDbl → encode_type (ntype t) = encode_type (ntype u)).
  { intros t u [->|[-> ->]]; done. }
  unfold node_hash, middle_bytes. rewrite (Hte _ _ Htl), (Hte _ _ Htr).
  assert (Htt : (match ntype (ctree lo), ntype (ctree hi) with NTerm, NTerm => NMidDbl | _, _ => NMid end) =
    (match ntype l, ntype r with NTerm, NTerm => NMidDbl | _, _ => NMid end)).
  { destruct Htl as [El|[El El']], Htr as [Er|[Er Er']]; rewrite El, ?El', ?Er, ?Er'; try done; by destruct (ntype l). }
  subst lo hi. destruct side; rewrite Hp, Hp'; cbn [mbind res_bind]; eexists; rewrite <- Hoe; split_and!; (done || lia).
Qed.

Lemma prove_complete n d P bits item :
  (n + d = 256)%nat → Forall key_ok P → agree d P → length bits = d → (∀ k, k ∈ P → leaf_placed bits k = true) →
  proves item P bits (mtree_of n d P).
Proof.
  revert d P bits. induction n as [n IH] using lt_wf_ind. intros d P bits Hd HP Ha Hbits Hb.
  pose proof (λ x, keys_mtree_of n d P x Hd HP Ha) as Hk. destruct (mtree_of n d P) as [|k|h|l r] eqn:Ht; cbn [keys] in Hk.
  - exists PEmpty, [EMPTY]. rewrite bool_decide_eq_false_2; [done|]. rewrite <- Hk. apply not_elem_of_nil.
  - assert (Hkin : k ∈ P) by (apply Hk, list_elem_of_here). exists (PLeaf k), (TERMINAL :: k).
    assert (Hbd : bool_decide (k = item) = bool_decide (item ∈ P)).
    { apply bool_decide_ext. rewrite <- Hk, list_elem_of_singleton. done. }
    cbn [prove ctree encode_proof well_placed]. rewrite Hbd. rewrite Forall_forall in HP. split_and!; try done; [apply HP, Hkin|by apply Hb].
  - by apply mtree_of_trunc in Ht.
  - destruct (pair_or_not l r) as [(a & b & -> & ->)|Hn].
    { apply proves_pair; [done|rewrite Hbits; by eapply mtree_of_pair|exact Hk|done]. }
    destruct (mtree_of_node n d P l r Ht) as [(a & b & -> & ->)|(n' & -> & Hl & Hr & Hj)]; [exfalso; eauto|].
    destruct (halves d P HP Ha) as (Hkl & Hal & Hkr & Har).
    assert (Hdm : (length bits mod 256 = d)%nat) by (rewrite Hbits; apply Nat.mod_small; lia).
    assert (Hlt : (length bits < 255)%nat).
    { destruct n' as [|n']; [|lia]. exfalso. cbn [mtree_of] in Hl, Hr. destruct (node_not_child l r) as [Hnl Hnr].
      destruct (clear_at d P), (set_at d P); subst l r; cbn in Hj; try done. apply Hn. eauto. }
    destruct (get_bit item (length bits)) eqn:Hbit.
    + eapply (proves_node item l r bits true P (set_at d P)); [done|done|done|done| | |].
      * rewrite Hl. apply other_placed; [lia|done|done|]. intros k [Hbk Hin]%elem_clear. apply placed_snoc. rewrite Hdm. auto.
      * rewrite elem_set, <- Hbits. tauto.
      * rewrite Hr. apply (IH n' ltac:(lia) (S d)); [lia|done|done|rewrite length_app; cbn; lia|].
        intros k [Hbk Hin]%elem_set. apply placed_snoc. rewrite Hdm. auto.
    + eapply (proves_node item l r bits false P (clear_at d P)); [done|done|done|done| | |].
      * rewrite Hr. apply other_placed; [lia|done|done|]. intros k [Hbk Hin]%elem_set. apply placed_snoc. rewrite Hdm. auto.
      * rewrite elem_clear, <- Hbits. tauto.
      * rewrite Hl. apply (IH n' ltac:(lia) (S d)); [lia|done|done|rewrite length_app; cbn; lia|].
        intros k [Hbk Hin]%elem_clear. apply placed_snoc. rewrite Hdm. auto.
Qed.

Lemma set_tree_complete S item : Forall key_ok S → proves item S [] (set_tree S).
Proof. intros HS. by apply (prove_complete 256 0 S [] item); [|done|apply agree_0|..]. Qed.

Lemma root_of_same t u : ntype t = ntype u → nhash t = nhash u → root_of t = root_of u.
Proof.
  intros Hty Hh. destruct (decide (ntype u = NTerm)) as [Hu|Hu].
  - rewrite Hu in Hty. apply ntype_term in Hty as [k ->], Hu as [k' ->]. cbn in Hh. by subst.
  - assert (Ht : ntype t ≠ NTerm) by congruence. destruct t, u; cbn [root_of ntype] in *; done.
Qed.

(** The pair of a lone-pair root is found below it too. *)
Lemma prove_pair_down a b item high r proof :
  get_bit a 0 = high → get_bit b 0 = high → prove (MNode (MLeaf a) (MLeaf b)) item 0 = Ok (r, proof) →
  r = bool_decide (a = item) || bool_decide (b = item) ∧ included (prove (MNode (MLeaf a) (MLeaf b)) item 1) = Ok r.
Proof.
  intros Ha Hb [-> Hpad]%prove_pair_inv. split; [done|].
  assert (∃ x, pad_middles_for_proof_gen 255 a b 1 = Ok x) as [x Hx].
  { revert Hpad. change 256%nat with (S 255). generalize 255%nat. intros n. cbn [pad_middles_for_proof_gen].
    rewrite Ha, Hb, bool_decide_eq_true_2 by done. cbn [negb next_depth Nat.eqb mbind res_bind].
    destruct high; intros Hp; apply bind_Ok_inv in Hp as (x & Hx & _); eauto. }
  apply (pad_fuel 255 1) in Hx. cbn [prove]. revert Hx. change (255 + 1)%nat with 256%nat. generalize 256%nat.
  intros n Hx. rewrite Hx. done.
Qed.

(** C17: the proofs that the code generates validate. For every set of keys
    and every item, [from_leafs] builds a tree, [generate_proof] answers
    whether the item is in the set, and [validate_merkle_proof] accepts the
    proof it writes against the tree's root, with the same answer. *)
Theorem merkle_proof_complete (S : list (list Z)) (item : list Z) :
  Forall key_ok S →
  ∃ t proof, from_leafs S = Ok t ∧ generate_proof t item = Ok (bool_decide (item ∈ S), proof) ∧
    validate_merkle_proof proof item (get_root t) = Ok (bool_decide (item ∈ S)).
Proof.
  intros HS. destruct (from_leafs_tree S HS) as (e & ns & Hf & Hne & Hrep).
  destruct (set_tree_complete S item HS) as (p & proof' & Hp & Hty & Hh & Hw & Hp'). cbn [length] in Hp, Hp'.
  exists {| nodes := ns; from_proof_flag := false |}, (encode_proof p). split; [done|]. split.
  - destruct (generate_proof_last ns false item Hne) as (fuel & Hfuel & ->).
    by rewrite (generate_proof_rep _ _ _ _ item 0 _ Hrep), Hp by lia.
  - rewrite (get_root_rep _ _ _ _ Hrep Hne). destruct (validate_spec p item (root_of (set_tree S)) Hw) as (fuel & ms & Hfuel & Hlast & ->).
    rewrite bool_decide_eq_true_2 by (by apply root_of_same).
    destruct (audit fuel p ms item ltac:(lia) Hw Hlast) as [->|(x & y & high & Hc & Hx & Hy & ->)]; [by rewrite Hp'|].
    rewrite Hc in Hp'. destruct (prove_pair_down x y item high _ _ Hx Hy Hp') as [Hr ->]. 
    destruct (bool_decide (get_bit item 0 = high)) eqn:Hbit; [done|]. apply bool_decide_eq_false in Hbit.
    rewrite Hr, !bool_decide_eq_false_2 by (intros ->; congruence). done.
Qed.

(** the two constructions of a Merkle root agree. For every list of keys,
    in any order and with repetitions, [merkle_set_root] of the block
    validator and [get_root] of the tree [from_leafs] builds are the same
    string, and another list has the same roots if it has the same keys. *)
Theorem merkle_roots_agree (S S' : list (list Z)) :
  Forall key_ok S → (∀ k, k ∈ S ↔ k ∈ S') →
  ∃ t root, from_leafs S = Ok t ∧ get_root t = root ∧ merkle_set_root S = Ok root ∧ merkle_set_root S' = Ok root.
Proof.
  intros HS Heq. destruct (from_leafs_tree S HS) as (e & ns & Hf & Hne & Hrep).
  assert (HS' : Forall key_ok S') by (eapply keys_sub; [intros x; apply Heq|done]).
  eexists _, _. split; [exact Hf|]. split; [by eapply get_root_rep|]. split; [by apply merkle_set_root_tree|].
  by rewrite merkle_set_root_tree, (set_tree_ext S S').
Qed.
End complete.

(** ** A concrete set *)
Definition sample_low : list Z := 1 :: repeat 0 31.
Definition sample_high : list Z := 129 :: repeat 0 31.
Definition sample_set : list (list Z) := [sample_high; sample_low; sample_high].
Definition sample_ptree : ptree := PMid (PLeaf sample_low) (PLeaf sample_high).

Lemma sample_set_ok : Forall key_ok sample_set.
Proof. by repeat constructor; vm_compute. Qed.

Lemma sample_set_tree : set_tree sample_set = MNode (MLeaf sample_low) (MLeaf sample_high).
Proof.
  Transparent set_tree. unfold set_tree. change 256%nat with (S 255). generalize 255%nat. intros n. cbn [mtree_of].
  rewrite (mtree_of_single n 1 sample_low), (mtree_of_single n 1 sample_high); [done|..].
  - apply list_elem_of_here.
  - intros y Hy. by apply list_elem_of_In in Hy as [<-|[<-|[]]].
  - apply list_elem_of_here.
  - intros y Hy. by apply list_elem_of_In in Hy as [<-|[]].
Qed.

Lemma sample_no_collision : no_collision (H := toy_hash) (set_tree sample_set) (ctree sample_ptree).
Proof.
  rewrite sample_set_tree. split.
  - intros x y Hx%list_elem_of_singleton Hy%list_elem_of_singleton _. by subst.
  - intros x Hx. apply list_elem_of_In in Hx as [<-|[<-|[]]]; by vm_compute.
Qed.

Lemma merkle_proof_sound_witness :
  Forall key_ok sample_set ∧
  validate_merkle_proof (H := toy_hash) (encode_proof sample_ptree) sample_low (root_of (H := toy_hash) (set_tree sample_set)) = Ok true ∧
  no_collision (H := toy_hash) (set_tree sample_set) (ctree sample_ptree) ∧
  ∃ p, encode_proof sample_ptree = encode_proof p ∧
    (no_collision (H := toy_hash) (set_tree sample_set) (ctree p) → true = bool_decide (sample_low ∈ sample_set)).
Proof.
  assert (Hv : validate_merkle_proof (H := toy_hash) (encode_proof sample_ptree) sample_low
    (root_of (H := toy_hash) (set_tree sample_set)) = Ok true) by (rewrite sample_set_tree; vm_compute; reflexivity).
  split; [apply sample_set_ok|]. split; [exact Hv|]. split; [apply sample_no_collision|].
  exact (merkle_proof_sound (H := toy_hash) (H0 := toy_hash_ok) sample_set _ _ _ sample_set_ok Hv).
Defined.

Lemma merkle_proof_complete_witness :
  Forall key_ok sample_set ∧
  ∃ t proof, from_leafs (H := toy_hash) sample_set = Ok t ∧
    generate_proof t sample_low = Ok (bool_decide (sample_low ∈ sample_set), proof) ∧
    validate_merkle_proof (H := toy_hash) proof sample_low (get_root (H := toy_hash) t) = Ok (bool_decide (sample_low ∈ sample_set)).
Proof.
  split; [apply sample_set_ok|].
  exact (merkle_proof_complete (H := toy_hash) (H0 := toy_hash_ok) sample_set sample_low sample_set_ok).
Defined.

Lemma merkle_roots_agree_witness :
  (∀ k, k ∈ sample_set ↔ k ∈ [sample_low; sample_high]) ∧
  ∃ t root, from_leafs (H := toy_hash) sample_set = Ok t ∧ get_root (H := toy_hash) t = root ∧
    merkle_set_root (H := toy_hash) sample_set = Ok root ∧ merkle_set_root (H := toy_hash) [sample_low; sample_high] = Ok root.
Proof.
  assert (Heq : ∀ k, k ∈ sample_set ↔ k ∈ [sample_low; sample_high]).
  { intros k. unfold sample_set. rewrite !elem_of_cons, elem_of_nil. tauto. }
  split; [exact Heq|].
  exact (merkle_roots_agree (H := toy_hash) sample_set [sample_low; sample_high] sample_set_ok Heq).
Defined.
