(* ===== verification/BlockValidation.v ===== *)
(** * Validation of a transaction block: [core/src/consensus/block_generator.rs]

    [validate_transaction_block] puts the parts together: it executes the
    generator, compares the roots, the cost, the fees and the commitments of
    the foliage with what the conditions give, verifies the aggregate
    signature, and checks the conditions in the context of the chain.

    [transaction_block_accepted] states acceptance as one predicate,
    [accepted_block_conserves] that an accepted block creates no money,
    [accepted_block_signed] that it carries a signature of every pair its
    conditions ask for,
    [block_signature_iff] which messages must be signed by whom,
    [verify_deduped_correct] that validating each distinct key once is
    validating every key, and [additions_root_correct] what the root of the
    created coins commits to. *)
From Stdlib Require Import ZArith Lia.
From stdpp Require Import base list numbers option gmap sets sorting.
From S2P Require Import Prelude Serialize ClvmNumber ClvmSexp Coin ClvmPath ClvmParser ClvmCanonical BackrefWriter ClvmView ClvmOps ClvmBls ClvmArena ClvmOutcome ClvmRuntime ClvmRefine ClvmEval PotIterations Conditions SpendConditions BlockConditions BlockGenerator GeneratorProgram FastForward ConditionSizes MerkleSet MerkleProof.

Open Scope Z_scope.

(** ** [blockchain/transactions_info.rs], [foliage_transaction_block.rs] *)
Record TransactionsInfo := {
  info_generator_root : list Z;
  info_generator_refs_root : list Z;
  aggregated_signature : list Z;
  info_fees : Z;
  info_cost : Z;
  reward_claims_incorporated : list Coin;
}.

Record FoliageTransactionBlock := {
  prev_transaction_block_hash : list Z;
  foliage_timestamp : Z;
  filter_hash : list Z;
  foliage_additions_root : list Z;
  foliage_removals_root : list Z;
  foliage_transactions_info_hash : list Z;
}.

(** The derived codecs write the fields in order. *)
Definition coin_to_bytes (ver : ChiaProtocolVersion) (c : Coin) : io (list Z) :=
  p ← to_bytes ver (Arr (n := 32) (parent_coin_info c));
  h ← to_bytes ver (Arr (n := 32) (puzzle_hash c));
  a ← to_bytes ver (Num (t := u64) (amount c));
  Ok (p ++ h ++ a).
Fixpoint coins_to_bytes (ver : ChiaProtocolVersion) (l : list Coin) : io (list Z) :=
  match l with
  | [] => Ok []
  | c :: l => b ← coin_to_bytes ver c; bs ← coins_to_bytes ver l; Ok (b ++ bs)
  end.
Definition transactions_info_to_bytes (ver : ChiaProtocolVersion) (i : TransactionsInfo) : io (list Z) :=
  g ← to_bytes ver (Arr (n := 32) (info_generator_root i));
  r ← to_bytes ver (Arr (n := 32) (info_generator_refs_root i));
  s ← to_bytes ver (Arr (n := 96) (aggregated_signature i));
  f ← to_bytes ver (Num (t := u64) (info_fees i));
  c ← to_bytes ver (Num (t := u64) (info_cost i));
  l ← coins_to_bytes ver (reward_claims_incorporated i);
  Ok (g ++ r ++ s ++ f ++ c ++ len_prefix (reward_claims_incorporated i) ++ l).

(** ** Keys and signatures: [blst::min_pk] *)
Class BlsVerify := {
  PublicKey : Set;
  Signature : Set;
  pk_from_bytes : list Z → option PublicKey;
  pk_default : PublicKey;
  pk_validate : PublicKey → bool;
  sig_from_bytes : list Z → option Signature;
  aggregate_verify : Signature → bool → list (list Z) → list Z → list PublicKey → bool → bool;
}.
(** What [blst] documents: the default key is the point at infinity, which is
    not valid, and the last flag of [aggregate_verify] asks for every key to
    be validated as well. *)
Class BlsVerifyOk `{BlsVerify} : Prop := {
  default_invalid : pk_validate pk_default = false;
  aggregate_verify_validates sig check msgs dst pks :
    aggregate_verify sig check msgs dst pks true = forallb pk_validate pks && aggregate_verify sig check msgs dst pks false;
}.

(** The domain separation tag of the augmented scheme. *)
Definition AUG_SCHEME_DST : list Z := to_be 43 0x424c535f5349475f424c53313233383147325f584d443a5348412d3235365f535357555f524f5f4155475f.

Definition DEDUP_MAX_DISTINCT_KEYS : nat := 64.

(** The loop that counts distinct keys, with its early end. *)
Fixpoint distinct_keys (keys : list (list Z)) (distinct : gset (list Z)) : gset (list Z) :=
  match keys with
  | [] => distinct
  | key :: keys =>
      let distinct := {[key]} ∪ distinct in
      if (DEDUP_MAX_DISTINCT_KEYS <? size distinct)%nat then distinct else distinct_keys keys distinct
  end.

Section verify.
Context `{BlsVerify}.

(** Each distinct key, decoded and validated; [None] when one fails. *)
Fixpoint validate_keys (l : list (list Z)) (validated : gmap (list Z) PublicKey) : option (gmap (list Z) PublicKey) :=
  match l with
  | [] => Some validated
  | key :: l =>
      match pk_from_bytes key with
      | Some pk => if pk_validate pk then validate_keys l (<[key := pk]> validated) else None
      | None => None
      end
  end.

(** [validated[key]] for every key *)
Fixpoint index_keys (keys : list (list Z)) (validated : gmap (list Z) PublicKey) : chia (list PublicKey) :=
  match keys with
  | [] => Ok []
  | key :: keys => pk ← expect (validated !! key); pks ← index_keys keys validated; Ok (pk :: pks)
  end.

Definition aggregate_verify_deduped (keys messages : list (list Z)) (signature : Signature) : chia bool :=
  let augmented := zip_with (λ key msg, key ++ msg) keys messages in
  let distinct := distinct_keys keys ∅ in
  if (size distinct <=? DEDUP_MAX_DISTINCT_KEYS)%nat && (size distinct * 2 <=? length keys)%nat then
    match validate_keys (elements distinct) ∅ with
    | None => Ok false
    | Some validated =>
        pks ← index_keys keys validated;
        Ok (aggregate_verify signature true augmented AUG_SCHEME_DST pks false)
    end
  else
    let converted := map (λ key, default pk_default (pk_from_bytes key)) keys in
    Ok (aggregate_verify signature true augmented AUG_SCHEME_DST converted true).
End verify.

Section block.
Context `{BigIntBytes, Sha256, Blst, Memory, BlsVerify}.

(** ** The messages to sign *)
Fixpoint agg_sig_conditions (k : list Z → list Z → ConditionWithArgs) (l : list (list Z * list Z)) :
    chia (list ConditionWithArgs) :=
  match l with
  | [] => Ok []
  | (pk, msg) :: l =>
      key ← map_err (λ _, InvalidCondition) (sized_parse 48 pk);
      message ← map_err (λ _, InvalidCondition) (message_new msg);
      rest ← agg_sig_conditions k l;
      Ok (k key message :: rest)
  end.

Definition pkm_pairs_for_spend (spend : Spend) (coin : Coin) (c : ConsensusConstants) :
    chia (list (ConditionOpcode * list Z * list Z)) :=
  me ← agg_sig_conditions AggSigMe (agg_sig_me spend);
  parent ← agg_sig_conditions AggSigParent (agg_sig_parent spend);
  puzzle ← agg_sig_conditions AggSigPuzzle (agg_sig_puzzle spend);
  amt ← agg_sig_conditions AggSigAmount (agg_sig_amount spend);
  puzzle_amt ← agg_sig_conditions AggSigPuzzleAmount (agg_sig_puzzle_amount spend);
  parent_amt ← agg_sig_conditions AggSigParentAmount (agg_sig_parent_amount spend);
  parent_puzzle ← agg_sig_conditions AggSigParentPuzzle (agg_sig_parent_puzzle spend);
  map_err (λ _, InvalidCondition)
    (pkm_pairs_for_conditions (me ++ parent ++ puzzle ++ amt ++ puzzle_amt ++ parent_amt ++ parent_puzzle) coin
      (agg_sig_me_additional_data c)).

(** The pairs of keys and messages, in the order they are pushed. *)
Fixpoint unsafe_pairs (l : list (list Z * list Z)) : chia (list (list Z * list Z)) :=
  match l with
  | [] => Ok []
  | (pk, msg) :: l =>
      key ← map_err (λ _, InvalidCondition) (sized_parse 48 pk);
      message ← map_err (λ _, InvalidCondition) (message_new msg);
      rest ← unsafe_pairs l;
      Ok ((key, message) :: rest)
  end.
Fixpoint spends_pairs (c : ConsensusConstants) (l : list Spend) : chia (list (list Z * list Z)) :=
  match l with
  | [] => Ok []
  | spend :: l =>
      pairs ← pkm_pairs_for_spend spend
        {| parent_coin_info := parent_id spend; puzzle_hash := spend_puzzle_hash spend; amount := coin_amount spend |} c;
      rest ← spends_pairs c l;
      Ok (map (λ '(_, pk, msg), (pk, msg)) pairs ++ rest)
  end.

Definition infinity_signature : list Z := 0xc0 :: repeat 0 95.

Definition validate_block_aggregate_signature (conds : SpendBundleConditions) (aggregated_signature : list Z)
    (c : ConsensusConstants) : chia unit :=
  unsafe ← unsafe_pairs (agg_sig_unsafe conds);
  rest ← spends_pairs c (spends conds);
  let pairs := unsafe ++ rest in
  if bool_decide (pairs = []) then
    if bool_decide (aggregated_signature = infinity_signature) then Ok tt else Err BadAggregateSignature
  else
    signature ← ok_or (sig_from_bytes aggregated_signature) BadAggregateSignature;
    ok ← aggregate_verify_deduped pairs.*1 pairs.*2 signature;
    if (ok : bool) then Ok tt else Err BadAggregateSignature.

(** ** Additions, removals, hints *)
Definition additions_for_conditions (conds : SpendBundleConditions) (reward_claims : list Coin) : list Coin :=
  reward_claims ++ (s ← spends conds; map (created_coin s) (create_coin s)).
Definition removals_for_conditions (conds : SpendBundleConditions) : list (list Z) := map spend_coin_id (spends conds).
Definition hints_for_conditions (conds : SpendBundleConditions) : list (list Z * list Z) :=
  s ← spends conds;
  omap (λ nc, match nc_hint nc with
              | Some hint => if bool_decide (length hint = 32%nat) then Some (hint, coin_id (created_coin s nc)) else None
              | None => None
              end) (create_coin s).

(** [sort_unstable_by(|a, b| b.cmp(a))] *)
Definition hash_coin_ids (coin_ids : list (list Z)) : list Z :=
  match coin_ids with
  | [x] => hash_256 x
  | _ => hash_256 (concat (merge_sort (flip bytes_leb) coin_ids))
  end.

(** The set root of the code has no error value. *)
Definition infallible {E A} (m : mset A) : res E A := match m with Ok x => Ok x | _ => Panic end.

(** [by_puzzle_hash], a [BTreeMap] *)
Definition by_puzzle_hash (additions : list Coin) : gmap (list Z) (list (list Z)) :=
  foldl (λ m coin, <[puzzle_hash coin := default [] (m !! puzzle_hash coin) ++ [coin_id coin]]> m) ∅ additions.
(** It is iterated in ascending order of the keys. *)
Definition in_key_order (m : gmap (list Z) (list (list Z))) : list (list Z * list (list Z)) :=
  omap (λ k, (λ ids, (k, ids)) <$> m !! k) (merge_sort bytes_leb (map_to_list m).*1).
Definition merkle_items (m : gmap (list Z) (list (list Z))) : list (list Z) :=
  '(ph, coin_ids) ← in_key_order m; [ph; hash_coin_ids coin_ids].
Definition canonical_additions_root (additions : list Coin) : clvm (list Z) :=
  infallible (merkle_set_root (merkle_items (by_puzzle_hash additions))).
Definition canonical_removals_root (removals : list (list Z)) : chia (list Z) := infallible (merkle_set_root removals).

Definition additions_root (conds : SpendBundleConditions) (reward_claims : list Coin) : clvm (list Z) :=
  canonical_additions_root (additions_for_conditions conds reward_claims).
Definition removals_root (conds : SpendBundleConditions) : chia (list Z) :=
  canonical_removals_root (removals_for_conditions conds).

(** ** Fees *)
Record BlockFeeSummary := { removals_total : Z; additions_total : Z; fee_reserve : Z }.
Definition fee_summary (conds : SpendBundleConditions) : chia BlockFeeSummary :=
  Ok {| removals_total := removal_amount conds; additions_total := addition_amount conds; fee_reserve := reserve_fee conds |}.
Definition block_fee_amount (summary : BlockFeeSummary) : chia Z :=
  fee ← ok_or (checked 128 (removals_total summary - additions_total summary)) InvalidBlockFeeAmount;
  ok_or (checked 64 fee) InvalidBlockFeeAmount.

(** ** Roots and hashes *)
Definition transactions_generator_root (generator : list Z) : list Z := hash_256 generator.
Definition transactions_generator_refs_root (ref_heights : list Z) : chia (list Z) :=
  match ref_heights with
  | [] => Ok (repeat 1 32)
  | _ =>
      serialized ← match encode_all version_default (map (Num (t := u32)) ref_heights) with
                   | Ok bs => Ok bs | Err _ => Err InvalidTransactionsGeneratorHash | Panic => Panic
                   end;
      Ok (hash_256 serialized)
  end.
Definition transactions_info_hash (i : TransactionsInfo) : chia (list Z) :=
  match transactions_info_to_bytes version_default i with
  | Ok bs => Ok (hash_256 bs) | Err _ => Err InvalidTransactionsInfoHash | Panic => Panic
  end.

(** ** [validate_transaction_block] *)
Record TransactionBlockValidationInput := {
  generator_input : BlockGeneratorInput;
  transactions_info : TransactionsInfo;
  foliage_transaction_block : option FoliageTransactionBlock;
  condition_context : option ConditionValidationContext;
  prev_transaction_block_height : Z;
}.
Record TransactionBlockValidationResult := {
  conditions : SpendBundleConditions;
  result_additions_root : list Z;
  result_removals_root : list Z;
  generator_root : list Z;
  generator_refs_root : list Z;
  result_fee_summary : BlockFeeSummary;
}.

Definition MAX_SPENDS_PER_BLOCK : Z := 6000.

(** The checks of the commitments in the foliage. *)
Definition check_foliage (foliage : FoliageTransactionBlock) (info : TransactionsInfo) (additions removals : list Z) : chia unit :=
  info_hash ← transactions_info_hash info;
  _ ← guard_err (negb (bool_decide (foliage_transactions_info_hash foliage = info_hash))) InvalidTransactionsInfoHash;
  _ ← guard_err (negb (bool_decide (foliage_additions_root foliage = additions))) BadAdditionRoot;
  guard_err (negb (bool_decide (foliage_removals_root foliage = removals))) BadRemovalRoot.

Definition validate_executed (input : TransactionBlockValidationInput) (sf9 : bool) (conds : SpendBundleConditions) :
    chia TransactionBlockValidationResult :=
  let gi := generator_input input in
  let info := transactions_info input in
  _ ← guard_err (sf9 && (MAX_SPENDS_PER_BLOCK <? zlen (spends conds))) TooManySpends;
  let root := transactions_generator_root (transactions_generator gi) in
  _ ← guard_err (negb (bool_decide (root = info_generator_root info))) InvalidTransactionsGeneratorHash;
  refs_root ← transactions_generator_refs_root (map ref_height (generator_refs gi));
  _ ← guard_err (negb (bool_decide (refs_root = info_generator_refs_root info))) InvalidTransactionsGeneratorHash;
  _ ← validate_block_aggregate_signature conds (aggregated_signature info) (constants gi);
  _ ← guard_err (negb (conds_cost conds =? info_cost info)) InvalidBlockCost;
  summary ← fee_summary conds;
  computed_fee ← block_fee_amount summary;
  _ ← guard_err (negb (computed_fee =? info_fees info)) InvalidBlockFeeAmount;
  _ ← guard_err (computed_fee <? fee_reserve summary) ReserveFeeConditionFailed;
  additions ← map_err (λ _, BadAdditionRoot) (additions_root conds (reward_claims_incorporated info));
  removals ← removals_root conds;
  _ ← match foliage_transaction_block input with
      | Some foliage => check_foliage foliage info additions removals
      | None => Ok tt
      end;
  _ ← match condition_context input with
      | Some ctx => validate_block_conditions conds ctx
      | None => Ok tt
      end;
  Ok {| conditions := conds; result_additions_root := additions; result_removals_root := removals;
        generator_root := root; generator_refs_root := refs_root; result_fee_summary := summary |}.

Definition validate_transaction_block (fuel export_fuel : nat) (input : TransactionBlockValidationInput) :
    option (chia TransactionBlockValidationResult) :=
  let gi := generator_input input in
  let sf9 := soft_fork9_height (constants gi) <=? prev_transaction_block_height input in
  obind (Some (
    _ ← guard_err (sf9 && negb (bool_decide (generator_refs gi = []))) TooManyGeneratorRefs;
    guard_err (sf9 && negb (is_canonical_serialization (transactions_generator gi))) ComplexGeneratorReceived)) (λ _,
    obind (execute_block_generator_result fuel export_fuel gi) (λ conds, Some (validate_executed input sf9 conds))).
End block.

(** * Theorems *)

(** ** Distinct keys *)
Lemma distinct_keys_all keys d :
  (size (distinct_keys keys d) ≤ DEDUP_MAX_DISTINCT_KEYS)%nat → distinct_keys keys d = list_to_set keys ∪ d.
Proof.
  revert d. induction keys as [|key keys IH]; intros d Hs; cbn [distinct_keys list_to_set] in *; [set_solver|].
  destruct (Nat.ltb_spec DEDUP_MAX_DISTINCT_KEYS (size ({[key]} ∪ d))); [lia|]. rewrite IH by done. set_solver.
Qed.

Section verify_laws.
Context `{BlsVerifyOk}.

Definition valid_key (key : list Z) (pk : PublicKey) : Prop := pk_from_bytes key = Some pk ∧ pk_validate pk = true.

(** The signature is one of every message by its key, all keys valid. *)
Definition keys_verify (keys messages : list (list Z)) (signature : Signature) : Prop :=
  ∃ pks, Forall2 valid_key keys pks ∧
    aggregate_verify signature true (zip_with (λ key msg, key ++ msg) keys messages) AUG_SCHEME_DST pks false = true.

Lemma valid_key_fun keys pks pks' : Forall2 valid_key keys pks → Forall2 valid_key keys pks' → pks = pks'.
Proof.
  intros Hf. revert pks'. induction Hf as [|k p keys pks [Hp _] Hf IH]; intros pks' Hf'; inversion Hf' as [|? p' ? ? [Hp' _]]; subst; [done|].
  f_equal; [congruence|by apply IH].
Qed.

Lemma validate_keys_some l m m' :
  validate_keys l m = Some m' → (∀ k pk, m !! k = Some pk → valid_key k pk) →
  (∀ k pk, m' !! k = Some pk → valid_key k pk) ∧ (∀ k, is_Some (m !! k) ∨ k ∈ l → is_Some (m' !! k)).
Proof.
  revert m. induction l as [|key l IH]; intros m Hv Hm; cbn [validate_keys] in Hv.
  { injection Hv as <-. split; [done|]. intros k [Hk|Hk]; [done|by apply not_elem_of_nil in Hk]. }
  destruct (pk_from_bytes key) as [pk|] eqn:Hd; [|done]. destruct (pk_validate pk) eqn:Hp; [|done].
  apply IH in Hv as [H1 H2].
  - split; [done|]. intros k Hk. apply H2. destruct (decide (k = key)) as [->|Hne]; [left; by rewrite lookup_insert_eq|].
    rewrite lookup_insert_ne by done. destruct Hk as [Hk|Hk]; [by left|]. apply elem_of_cons in Hk as [Hk|Hk]; [done|by right].
  - intros k pk' Hk. destruct (decide (k = key)) as [->|Hne]; [rewrite lookup_insert_eq in Hk; by injection Hk as <-|].
    rewrite lookup_insert_ne in Hk by done. by apply Hm.
Qed.

Lemma validate_keys_none l m : validate_keys l m = None → ∃ k, k ∈ l ∧ ∀ pk, ¬ valid_key k pk.
Proof.
  revert m. induction l as [|key l IH]; intros m Hv; cbn [validate_keys] in Hv; [done|].
  destruct (pk_from_bytes key) as [pk|] eqn:Hd; [destruct (pk_validate pk) eqn:Hp|].
  - apply IH in Hv as (k & Hk & Hn). exists k. split; [by apply list_elem_of_further|done].
  - exists key. split; [apply list_elem_of_here|]. intros pk' [Hpk Hpv]. congruence.
  - exists key. split; [apply list_elem_of_here|]. intros pk' [Hpk Hpv]. congruence.
Qed.

Lemma index_keys_ok keys m :
  (∀ k, k ∈ keys → is_Some (m !! k)) → (∀ k pk, m !! k = Some pk → valid_key k pk) →
  ∃ pks, index_keys keys m = Ok pks ∧ Forall2 valid_key keys pks.
Proof.
  intros Hk Hm. induction keys as [|k keys IH]; [by exists []|]. destruct (Hk k) as [pk Hpk]; [apply list_elem_of_here|].
  destruct IH as (pks & Hi & Hf); [intros k' Hk'; apply Hk; by apply list_elem_of_further|].
  exists (pk :: pks). cbn [index_keys]. rewrite Hpk. cbn [expect mbind res_bind]. rewrite Hi. split; [done|]. constructor; auto.
Qed.

(** Converting every occurrence, with the default key for those that do not
    decode, and validating them all. *)
Lemma converted_valid keys :
  let pks := map (λ key, default pk_default (pk_from_bytes key)) keys in
  forallb pk_validate pks = true ↔ Forall2 valid_key keys pks.
Proof.
  cbv zeta. induction keys as [|k keys IH]; cbn [map forallb]; [split; [constructor|done]|].
  rewrite andb_true_iff, IH. split.
  - intros [Hp Hf]. constructor; [|done]. destruct (pk_from_bytes k) as [pk|] eqn:Hd; [by split|].
    cbn in Hp. by rewrite default_invalid in Hp.
  - intros Hf. inversion Hf as [|? ? ? ? [_ Hp] Hf']; subst. done.
Qed.

Lemma converted_spec keys messages signature :
  aggregate_verify signature true (zip_with (λ key msg, key ++ msg) keys messages) AUG_SCHEME_DST
    (map (λ key, default pk_default (pk_from_bytes key)) keys) true = true ↔ keys_verify keys messages signature.
Proof.
  rewrite aggregate_verify_validates, andb_true_iff, converted_valid. unfold keys_verify. split.
  - intros [Hf Hv]. eauto.
  - intros (pks & Hf & Hv). assert (pks = map (λ key, default pk_default (pk_from_bytes key)) keys) as ->; [|done].
    clear -Hf. induction Hf as [|k p keys pks [Hp _] Hf IH]; cbn [map]; [done|]. by rewrite Hp, IH.
Qed.

Lemma deduped_spec keys messages signature :
  ∃ b, aggregate_verify_deduped keys messages signature = Ok b ∧ (b = true ↔ keys_verify keys messages signature).
Proof.
  unfold aggregate_verify_deduped. cbv zeta.
  destruct (Nat.leb_spec (size (distinct_keys keys ∅)) DEDUP_MAX_DISTINCT_KEYS) as [Hs|Hs]; cbn [andb].
  2:{ eexists. split; [done|]. apply converted_spec. }
  rewrite (distinct_keys_all keys ∅ Hs), (right_id_L ∅ (∪)).
  destruct (_ <=? _)%nat.
  2:{ eexists. split; [done|]. apply converted_spec. }
  destruct (validate_keys _ ∅) as [m|] eqn:Hv.
  - apply validate_keys_some in Hv as [Hm Hall]; [|intros k pk Hk; by rewrite lookup_empty in Hk].
    destruct (index_keys_ok keys m) as (pks & Hi & Hf); [|done|].
    { intros k Hk. apply Hall. right. by rewrite elem_of_elements, elem_of_list_to_set. }
    rewrite Hi. eexists. split; [done|]. split; [intros Hag; by exists pks|].
    intros (pks' & Hf' & Hag). by rewrite (valid_key_fun _ _ _ Hf Hf').
  - apply validate_keys_none in Hv as (k & Hk & Hn). rewrite elem_of_elements, elem_of_list_to_set in Hk.
    eexists. split; [done|]. split; [done|]. intros (pks & Hf & _). apply list_elem_of_lookup in Hk as [i Hi].
    destruct (Forall2_lookup_l _ _ _ _ _ Hf Hi) as (pk & _ & Hvk). by apply Hn in Hvk.
Qed.

(** Validating each distinct key once is validating every key: the check of
    an aggregate signature never panics, whichever branch it takes, and
    succeeds exactly when every key decodes to a valid one and the signature
    is that of the messages, each prefixed with its key. *)
Theorem verify_deduped_correct keys messages signature :
  ∃ b, aggregate_verify_deduped keys messages signature = Ok b ∧ (b = true ↔ keys_verify keys messages signature).
Proof. apply deduped_spec. Qed.
End verify_laws.

(** ** The root of the additions *)
#[local] Instance bytes_ge_total : Total (λ x y, Is_true (flip bytes_leb x y)).
Proof. intros x y. destruct (bytes_leb_total y x) as [Hx|Hx]; [left|right]; unfold flip; by rewrite Hx. Qed.
#[local] Instance bytes_ge_trans : Transitive (λ x y, Is_true (flip bytes_leb x y)).
Proof.
  intros x y z Hx%Is_true_true Hy%Is_true_true. unfold flip in *. apply Is_true_true. by eapply bytes_leb_trans.
Qed.

Lemma bytes_leb_antisym x y : bytes_leb x y = true → bytes_leb y x = true → x = y.
Proof.
  revert y. induction x as [|a x IH]; intros [|b y]; cbn [bytes_leb]; try done.
  destruct (Z.ltb_spec a b), (Z.ltb_spec b a); try done; try lia. intros H1 H2. f_equal; [lia|by apply IH].
Qed.
#[local] Instance bytes_ge_antisym : AntiSymm (=) (λ x y, Is_true (flip bytes_leb x y)).
Proof. intros x y Hx%Is_true_true Hy%Is_true_true. unfold flip in *. by apply bytes_leb_antisym. Qed.

Section additions.
Context `{Sha256Ok}.

Lemma hash_coin_ids_eq ids : hash_coin_ids ids = hash_256 (concat (merge_sort (flip bytes_leb) ids)).
Proof.
  destruct ids as [|x [|y ids]]; [done| |done]. cbn [hash_coin_ids]. f_equal.
  assert (Hp : merge_sort (flip bytes_leb) [x] = [x]) by (apply Permutation_singleton_r, merge_sort_Permutation).
  rewrite Hp. cbn. by rewrite app_nil_r.
Qed.

(** The order in which the coins are listed does not matter. *)
Lemma hash_coin_ids_perm ids ids' : ids ≡ₚ ids' → hash_coin_ids ids = hash_coin_ids ids'.
Proof.
  intros Hp. rewrite !hash_coin_ids_eq. do 2 f_equal. eapply (StronglySorted_unique (λ x y, Is_true (flip bytes_leb x y))).
  - apply StronglySorted_merge_sort; apply _.
  - apply StronglySorted_merge_sort; apply _.
  - by rewrite !merge_sort_Permutation.
Qed.

(** The ids of the coins with puzzle hash [ph]. *)
Definition ids_of (ph : list Z) (l : list Coin) : list (list Z) := map coin_id (filter (λ c, puzzle_hash c = ph) l).

Lemma by_puzzle_hash_lookup l ph : default [] (by_puzzle_hash l !! ph) = ids_of ph l ∧ (is_Some (by_puzzle_hash l !! ph) ↔ ph ∈ map puzzle_hash l).
Proof.
  unfold by_puzzle_hash, ids_of. induction l as [|c l IH] using rev_ind.
  { split; [done|]. split; [by intros []|by intros ?%not_elem_of_nil]. }
  rewrite foldl_app, filter_app, !map_app, elem_of_app. cbn [foldl map]. rewrite list_elem_of_singleton.
  set (m := foldl _ ∅ l) in *. destruct IH as [IH1 IH2]. destruct (decide (puzzle_hash c = ph)) as [<-|Hne].
  - rewrite lookup_insert_eq, IH1. cbn [default]. rewrite filter_cons_True by done. split; [done|]. split; eauto.
  - rewrite lookup_insert_ne, filter_cons_False, IH1 by done. cbn. rewrite app_nil_r. split; [done|]. rewrite IH2.
    split; [auto|]. intros [|]; [done|by subst].
Qed.

Lemma merkle_items_elem l x :
  x ∈ merkle_items (by_puzzle_hash l) ↔ ∃ ph, ph ∈ map puzzle_hash l ∧ (x = ph ∨ x = hash_coin_ids (ids_of ph l)).
Proof.
  unfold merkle_items, in_key_order. rewrite list_elem_of_bind. split.
  - intros ([ph ids] & Hx & Hin). apply list_elem_of_omap in Hin as (k & _ & Hk). apply fmap_Some in Hk as (ids' & Hk & [= <- <-]).
    destruct (by_puzzle_hash_lookup l ph) as [Hd Hs]. rewrite Hk in Hd, Hs. cbn in Hd. subst. exists ph. split; [by apply Hs|].
    rewrite elem_of_cons, list_elem_of_singleton in Hx. done.
  - intros (ph & Hph & Hx). destruct (by_puzzle_hash_lookup l ph) as [Hd Hs]. apply Hs in Hph as [ids Hids].
    rewrite Hids in Hd. cbn in Hd. exists (ph, ids). split.
    + rewrite elem_of_cons, list_elem_of_singleton. subst ids. done.
    + apply list_elem_of_omap. exists ph. rewrite Hids. split; [|done]. rewrite merge_sort_Permutation.
      apply list_elem_of_fmap. exists (ph, ids). split; [done|]. by apply elem_of_map_to_list.
Qed.

Definition coin_sized (c : Coin) : Prop := key_ok (puzzle_hash c).

Lemma hash_coin_ids_key ids : key_ok (hash_coin_ids ids).
Proof. rewrite hash_coin_ids_eq. split; [apply hash_256_length|apply hash_256_bytes]. Qed.

Lemma merkle_items_ok l : Forall coin_sized l → Forall key_ok (merkle_items (by_puzzle_hash l)).
Proof.
  intros Hl. apply Forall_forall. intros x (ph & Hph & [->| ->])%merkle_items_elem; [|apply hash_coin_ids_key].
  apply list_elem_of_fmap in Hph as (c & -> & Hc). rewrite Forall_forall in Hl. by apply Hl.
Qed.

Lemma additions_root_ok l : Forall coin_sized l → canonical_additions_root l = Ok (root_of (set_tree (merkle_items (by_puzzle_hash l)))).
Proof. intros Hl. unfold canonical_additions_root. by rewrite merkle_set_root_tree by (by apply merkle_items_ok). Qed.

(** What the additions root commits to: it is the root of the set that has,
    for every puzzle hash a coin is created for, the puzzle hash and the hash
    of the ids of all the coins created for it; the order of the additions
    does not matter. *)
Theorem additions_root_correct l l' :
  Forall coin_sized l → l ≡ₚ l' →
  ∃ root, canonical_additions_root l = Ok root ∧ canonical_additions_root l' = Ok root ∧
    merkle_set_root (c ← l; [puzzle_hash c; hash_coin_ids (ids_of (puzzle_hash c) l)]) = Ok root.
Proof.
  intros Hl Hp. assert (Hl' : Forall coin_sized l') by (by rewrite <- Hp).
  assert (Hids : ∀ ph, hash_coin_ids (ids_of ph l) = hash_coin_ids (ids_of ph l')).
  { intros ph. apply hash_coin_ids_perm. unfold ids_of. by rewrite Hp. }
  eexists. split; [by apply additions_root_ok|]. split.
  - rewrite additions_root_ok by done. do 2 f_equal. apply set_tree_ext; [by apply merkle_items_ok..|].
    intros x. rewrite !merkle_items_elem. setoid_rewrite Hids. by setoid_rewrite Hp.
  - assert (Hx : ∀ x, x ∈ merkle_items (by_puzzle_hash l) ↔ x ∈ (c ← l; [puzzle_hash c; hash_coin_ids (ids_of (puzzle_hash c) l)])).
    { intros x. rewrite merkle_items_elem, list_elem_of_bind. setoid_rewrite list_elem_of_fmap. split.
      - intros (ph & (c & -> & Hc) & Hx). exists c. rewrite elem_of_cons, list_elem_of_singleton. done.
      - intros (c & Hx & Hc). exists (puzzle_hash c). rewrite elem_of_cons, list_elem_of_singleton in Hx. eauto. }
    assert (Hk : Forall key_ok (c ← l; [puzzle_hash c; hash_coin_ids (ids_of (puzzle_hash c) l)])).
    { eapply keys_sub; [|by apply (merkle_items_ok l)]. intros x. by rewrite Hx. }
    rewrite merkle_set_root_tree by done. do 2 f_equal. apply set_tree_ext; [done|by apply merkle_items_ok|]. intros x. by rewrite Hx.
Qed.
End additions.

(** ** Who must have signed what *)
Section signatures.
Context `{Sha256, BlsVerifyOk}.

(** The seven lists of a spend, each with what its messages commit to. *)
Definition spend_commitments (s : Spend) : list (ConditionOpcode * (list Z → list Z → ConditionWithArgs) * list (list Z * list Z)) := [
  (Opcode.AggSigMe, AggSigMe, agg_sig_me s);
  (Opcode.AggSigParent, AggSigParent, agg_sig_parent s);
  (Opcode.AggSigPuzzle, AggSigPuzzle, agg_sig_puzzle s);
  (Opcode.AggSigAmount, AggSigAmount, agg_sig_amount s);
  (Opcode.AggSigPuzzleAmount, AggSigPuzzleAmount, agg_sig_puzzle_amount s);
  (Opcode.AggSigParentAmount, AggSigParentAmount, agg_sig_parent_amount s);
  (Opcode.AggSigParentPuzzle, AggSigParentPuzzle, agg_sig_parent_puzzle s)].

Definition spend_keys_sized (s : Spend) : Prop := Forall (λ x, Forall pair_sized x.2) (spend_commitments s).

Lemma spend_typed_keys s : spend_typed s → spend_keys_sized s.
Proof. intros []. by repeat constructor. Qed.

Definition commitment (op : ConditionOpcode) (coin : Coin) : list Z :=
  match op with
  | Opcode.AggSigMe => coin_id coin
  | Opcode.AggSigParent => parent_coin_info coin
  | Opcode.AggSigPuzzle => puzzle_hash coin
  | Opcode.AggSigAmount => u64_to_bytes (amount coin)
  | Opcode.AggSigPuzzleAmount => puzzle_hash coin ++ u64_to_bytes (amount coin)
  | Opcode.AggSigParentAmount => parent_coin_info coin ++ u64_to_bytes (amount coin)
  | Opcode.AggSigParentPuzzle => parent_coin_info coin ++ puzzle_hash coin
  | _ => []
  end.
Definition signed_pair (data : list Z) (coin : Coin) (op : ConditionOpcode) (p : list Z * list Z) : list Z * list Z :=
  (p.1, p.2 ++ commitment op coin ++ agg_sig_additional_data_for_opcode data op).

(** The pairs of a spend and of a block, in the order they are verified. *)
Definition spend_pairs (data : list Z) (s : Spend) : list (list Z * list Z) :=
  '(op, _, l) ← spend_commitments s; map (signed_pair data (spent_coin s) op) l.
Definition block_pairs (data : list Z) (conds : SpendBundleConditions) : list (list Z * list Z) :=
  agg_sig_unsafe conds ++ (s ← spends conds; spend_pairs data s).

Definition fit (l : list (list Z * list Z)) : bool := forallb (λ p, zlen p.2 <=? 1024) l.

Lemma agg_sig_conditions_ok k l : Forall pair_sized l → agg_sig_conditions k l = Ok (map (λ p, k p.1 p.2) l).
Proof.
  induction 1 as [|[pk msg] l [Hk Hm] Hl IH]; cbn [agg_sig_conditions map fst snd] in *; [done|].
  unfold sized_parse. rewrite bool_decide_eq_false_2 by lia. rewrite Hk, Nat.sub_diag. cbn [replicate app map_err mbind res_bind].
  unfold message_new. rewrite (proj2 (Z.ltb_ge _ _)) by done. cbn [map_err mbind res_bind]. by rewrite IH.
Qed.

Lemma unsafe_pairs_ok l : Forall pair_sized l → unsafe_pairs l = Ok l.
Proof.
  induction 1 as [|[pk msg] l [Hk Hm] Hl IH]; cbn [unsafe_pairs fst snd] in *; [done|].
  unfold sized_parse. rewrite bool_decide_eq_false_2 by lia. rewrite Hk, Nat.sub_diag. cbn [replicate app map_err mbind res_bind].
  unfold message_new. rewrite (proj2 (Z.ltb_ge _ _)) by done. cbn [map_err mbind res_bind]. by rewrite IH.
Qed.

(** What the conditions of one list contribute. *)
Definition tagged (op : ConditionOpcode) (l : list (list Z * list Z)) : list (ConditionOpcode * list Z * list Z) :=
  map (λ p, (op, p.1, p.2)) l.
Definition tried {A} (ok : bool) (x : A) : clvm A := if ok then Ok x else Err InvalidInputE.

Lemma map_tagged op l : map (λ '(_, pk, msg), (pk, msg)) (tagged op l) = l.
Proof. unfold tagged. rewrite map_map. rewrite <- (map_id l) at 2. apply map_ext. by intros []. Qed.

Lemma pkm_pairs_app l1 l2 coin data :
  pkm_pairs (l1 ++ l2) coin data = (r1 ← pkm_pairs l1 coin data; r2 ← pkm_pairs l2 coin data; Ok (r1 ++ r2)).
Proof.
  induction l1 as [|c l1 IH]; cbn [app pkm_pairs]; [by destruct (pkm_pairs l2 coin data)|].
  destruct (match c with | AggSigUnsafe _ _ => _ | _ => _ end) as [ret| |]; cbn [mbind res_bind]; [|done..]. rewrite IH.
  destruct (pkm_pairs l1 coin data) as [r1| |]; cbn [mbind res_bind]; [|done..].
  destruct (pkm_pairs l2 coin data); cbn [mbind res_bind]; [|done..]. by rewrite (assoc_L (++)).
Qed.

Lemma pkm_pairs_list s op k l coin data :
  (op, k, l) ∈ spend_commitments s →
  pkm_pairs (map (λ p, k p.1 p.2) l) coin data =
    tried (fit (map (signed_pair data coin op) l)) (tagged op (map (signed_pair data coin op) l)).
Proof.
  intros Hin. assert (Hk : ∀ key msg l, pkm_pairs (k key msg :: l) coin data =
    (m ← message_new (msg ++ commitment op coin ++ agg_sig_additional_data_for_opcode data op);
     rest ← pkm_pairs l coin data; Ok ((op, key, m) :: rest))).
  { intros key msg l'. unfold spend_commitments in Hin.
    repeat (apply elem_of_cons in Hin as [[= -> -> ->]|Hin]; [cbn [pkm_pairs signed_suffix op_code commitment]; by destruct (message_new _)|]).
    by apply not_elem_of_nil in Hin. }
  clear Hin. induction l as [|[key msg] l IH]; [done|]. cbn [map fst snd]. rewrite Hk, IH. clear IH. unfold message_new, tried.
  cbn [fit forallb signed_pair fst snd]. fold (fit (map (signed_pair data coin op) l)).
  set (m := msg ++ _). destruct (Z.ltb_spec 1024 (zlen m)); [by rewrite (proj2 (Z.leb_gt _ _)) by lia|].
  rewrite (proj2 (Z.leb_le _ _)) by lia. cbn [mbind res_bind andb]. by destruct (fit _).
Qed.

Lemma tried_app {A} b1 b2 (x1 x2 : list A) :
  (r1 ← tried b1 x1; r2 ← tried b2 x2; Ok (r1 ++ r2)) = tried (b1 && b2) (x1 ++ x2).
Proof. by destruct b1, b2. Qed.

Lemma fit_app l1 l2 : fit (l1 ++ l2) = fit l1 && fit l2.
Proof. apply forallb_app. Qed.

Lemma pkm_pairs_spend s c :
  spend_keys_sized s → length (agg_sig_me_additional_data c) = 32%nat →
  (pairs ← pkm_pairs_for_spend s (spent_coin s) c; Ok (map (λ '(_, pk, msg), (pk, msg)) pairs)) =
    (let l := spend_pairs (agg_sig_me_additional_data c) s in if fit l then Ok l else Err InvalidCondition).
Proof.
  intros Hs Hd. unfold pkm_pairs_for_spend. pose proof Hs as Hs'. unfold spend_keys_sized, spend_commitments in Hs'.
  rewrite !Forall_cons in Hs'. cbn [snd] in Hs'. destruct Hs' as (Hl1 & Hl2 & Hl3 & Hl4 & Hl5 & Hl6 & Hl7 & _).
  rewrite !agg_sig_conditions_ok by done. cbn [mbind res_bind]. unfold pkm_pairs_for_conditions, sized_parse.
  rewrite bool_decide_eq_false_2 by lia. rewrite Hd, Nat.sub_diag. cbn [replicate app mbind res_bind].
  rewrite !pkm_pairs_app. unfold spend_pairs.
  rewrite (pkm_pairs_list s Opcode.AggSigMe AggSigMe (agg_sig_me s)),
    (pkm_pairs_list s Opcode.AggSigParent AggSigParent (agg_sig_parent s)),
    (pkm_pairs_list s Opcode.AggSigPuzzle AggSigPuzzle (agg_sig_puzzle s)),
    (pkm_pairs_list s Opcode.AggSigAmount AggSigAmount (agg_sig_amount s)),
    (pkm_pairs_list s Opcode.AggSigPuzzleAmount AggSigPuzzleAmount (agg_sig_puzzle_amount s)),
    (pkm_pairs_list s Opcode.AggSigParentAmount AggSigParentAmount (agg_sig_parent_amount s)),
    (pkm_pairs_list s Opcode.AggSigParentPuzzle AggSigParentPuzzle (agg_sig_parent_puzzle s))
    by (unfold spend_commitments; rewrite !elem_of_cons; tauto).
  rewrite !tried_app. rewrite <- !fit_app. unfold spend_commitments. cbn [mbind list_bind]. rewrite app_nil_r.
  unfold tried. destruct (fit _); cbn [map_err mbind res_bind]; [|done]. f_equal. by rewrite !map_app, !map_tagged.
Qed.

Lemma spends_pairs_ok c l :
  Forall spend_keys_sized l → length (agg_sig_me_additional_data c) = 32%nat →
  spends_pairs c l = (let ps := s ← l; spend_pairs (agg_sig_me_additional_data c) s in if fit ps then Ok ps else Err InvalidCondition).
Proof.
  intros Hl Hd. induction Hl as [|s l Hs Hl IH]; [done|]. cbn [spends_pairs mbind list_bind]. rewrite fit_app.
  pose proof (pkm_pairs_spend s c Hs Hd) as Hp. unfold spent_coin in Hp. cbv zeta in *.
  destruct (pkm_pairs_for_spend s _ c) as [ps|e|]; cbn [mbind res_bind] in *; destruct (fit (spend_pairs _ s)); try done.
  injection Hp as Hp. rewrite Hp, IH. cbn [andb]. by destruct (fit _).
Qed.

Lemma block_signature_spec conds signature c :
  let pairs := block_pairs (agg_sig_me_additional_data c) conds in
  length (agg_sig_me_additional_data c) = 32%nat → conds_typed conds →
  validate_block_aggregate_signature conds signature c = Ok tt ↔
  Forall (λ p, zlen p.2 ≤ 1024) pairs ∧
  (pairs = [] ∧ signature = infinity_signature ∨
   pairs ≠ [] ∧ ∃ s, sig_from_bytes signature = Some s ∧ keys_verify pairs.*1 pairs.*2 s).
Proof.
  cbv zeta. intros Hd [[_ Hu _ _ _] Hs]. assert (Hs' : Forall spend_keys_sized (spends conds)) by (eapply Forall_impl; [exact Hs|apply spend_typed_keys]).
  unfold validate_block_aggregate_signature, block_pairs.
  rewrite unsafe_pairs_ok, spends_pairs_ok by done. cbn [mbind res_bind]. cbv zeta.
  set (ps := s ← spends conds; spend_pairs _ s).
  assert (Hfit : Forall (λ p, zlen p.2 ≤ 1024) (agg_sig_unsafe conds ++ ps) ↔ fit ps = true).
  { rewrite Forall_app. unfold fit. rewrite forallb_forall. rewrite (List.Forall_forall _ ps). split.
    - intros [_ Hf] p Hp. apply Z.leb_le, Hf, Hp.
    - intros Hf. split; [eapply Forall_impl; [exact Hu|]; by intros p []|]. intros p Hp. apply Z.leb_le, Hf, Hp. }
  rewrite Hfit. destruct (fit ps); cbn [mbind res_bind]; [|split; [done|by intros [? _]]].
  case_bool_decide as Hnil.
  - case_bool_decide as Hsig; [naive_solver|]. split; [done|]. naive_solver.
  - destruct (sig_from_bytes signature) as [s|] eqn:Hsig; cbn [ok_or mbind res_bind]; [|split; [done|naive_solver]].
    destruct (deduped_spec (agg_sig_unsafe conds ++ ps).*1 (agg_sig_unsafe conds ++ ps).*2 s) as (b & Hb & Hv).
    rewrite Hb. cbn [mbind res_bind]. split.
    + intros Hok. split; [done|]. right. split; [done|]. exists s. split; [done|]. apply Hv. by destruct b.
    + intros [_ [[? _]|(_ & s' & [= <-] & Hk)]]; [done|]. apply Hv in Hk. by subst b.
Qed.

(** C31: Which signature a block needs: its aggregate signature is accepted
    exactly when no message to sign is longer than 1024 bytes and, for a
    block that asks for signatures, it is one of every message by its key,
    all keys valid; a block that asks for none must carry the point at
    infinity. *)
Theorem block_signature_iff conds signature c :
  let pairs := block_pairs (agg_sig_me_additional_data c) conds in
  length (agg_sig_me_additional_data c) = 32%nat → conds_typed conds →
  validate_block_aggregate_signature conds signature c = Ok tt ↔
  Forall (λ p, zlen p.2 ≤ 1024) pairs ∧
  (pairs = [] ∧ signature = infinity_signature ∨
   pairs ≠ [] ∧ ∃ s, sig_from_bytes signature = Some s ∧ keys_verify pairs.*1 pairs.*2 s).
Proof. apply block_signature_spec. Qed.
End signatures.

(** ** Acceptance *)
Section accepted.
Context `{BigIntBytes, Sha256Ok, Blst, Memory, BlsVerifyOk}.

(** The commitments of the foliage. *)
Definition foliage_commits (foliage : FoliageTransactionBlock) (info : TransactionsInfo) (additions removals : list Z) : Prop :=
  transactions_info_hash info = Ok (foliage_transactions_info_hash foliage) ∧
  foliage_additions_root foliage = additions ∧ foliage_removals_root foliage = removals.

(** A block is good with conditions [conds] and result [r]. *)
Record block_good (input : TransactionBlockValidationInput) (conds : SpendBundleConditions) (r : TransactionBlockValidationResult) : Prop := {
  bg_sf9 : soft_fork9_height (constants (generator_input input)) ≤ prev_transaction_block_height input →
    generator_refs (generator_input input) = [] ∧
    is_canonical_serialization (transactions_generator (generator_input input)) = true ∧ zlen (spends conds) ≤ MAX_SPENDS_PER_BLOCK;
  bg_root : hash_256 (transactions_generator (generator_input input)) = info_generator_root (transactions_info input);
  bg_refs_root : transactions_generator_refs_root (map ref_height (generator_refs (generator_input input))) =
    Ok (info_generator_refs_root (transactions_info input));
  bg_signature : validate_block_aggregate_signature conds (aggregated_signature (transactions_info input))
    (constants (generator_input input)) = Ok tt;
  bg_cost : conds_cost conds = info_cost (transactions_info input);
  bg_fees : removal_amount conds - addition_amount conds = info_fees (transactions_info input);
  bg_fees_fit : uok 64 (info_fees (transactions_info input));
  bg_reserve : reserve_fee conds ≤ info_fees (transactions_info input);
  bg_additions : additions_root conds (reward_claims_incorporated (transactions_info input)) = Ok (result_additions_root r);
  bg_removals : removals_root conds = Ok (result_removals_root r);
  bg_foliage : ∀ foliage, foliage_transaction_block input = Some foliage →
    foliage_commits foliage (transactions_info input) (result_additions_root r) (result_removals_root r);
  bg_conditions : ∀ ctx, condition_context input = Some ctx → block_valid conds ctx;
  bg_result : r = {| conditions := conds; result_additions_root := result_additions_root r;
    result_removals_root := result_removals_root r; generator_root := info_generator_root (transactions_info input);
    generator_refs_root := info_generator_refs_root (transactions_info input);
    result_fee_summary := {| removals_total := removal_amount conds; additions_total := addition_amount conds;
      fee_reserve := reserve_fee conds |} |};
}.

Lemma block_fee_iff summary fee :
  block_fee_amount summary = Ok fee ↔ removals_total summary - additions_total summary = fee ∧ uok 64 fee.
Proof.
  unfold block_fee_amount. split.
  - intros Hf. apply bind_Ok_inv in Hf as (x & [-> _]%ok_or_checked & [-> Hx]%ok_or_checked). done.
  - intros [-> Hf]. rewrite checked_ok by (unfold uok in *; lia). cbn [ok_or mbind res_bind]. by rewrite checked_ok.
Qed.

Lemma check_foliage_iff foliage info additions removals :
  check_foliage foliage info additions removals = Ok tt ↔ foliage_commits foliage info additions removals.
Proof.
  unfold check_foliage, foliage_commits. rewrite bind_ok_iff. split.
  - intros (h & Hh & Hg). rewrite !guard_err_then, guard_err_ok, !negb_false_iff, !bool_decide_eq_true in Hg.
    destruct Hg as (-> & -> & ->). done.
  - intros (Hh & <- & <-). exists (foliage_transactions_info_hash foliage). split; [done|].
    rewrite !guard_err_then, guard_err_ok, !negb_false_iff, !bool_decide_eq_true. done.
Qed.

Lemma context_iff conds o :
  match o with Some ctx => validate_block_conditions conds ctx | None => Ok tt end = Ok tt ↔ ∀ ctx, o = Some ctx → block_valid conds ctx.
Proof.
  destruct o as [ctx|]; [|naive_solver]. split.
  - intros Hv ctx' [= <-]. by apply accepted_valid.
  - intros Hv. by apply valid_accepted, Hv.
Qed.

Lemma foliage_iff o info additions removals :
  match o with Some f => check_foliage f info additions removals | None => Ok tt end = Ok tt ↔
  ∀ f, o = Some f → foliage_commits f info additions removals.
Proof. destruct o as [f|]; [rewrite check_foliage_iff|]; naive_solver. Qed.

Lemma bind_unit_iff {B} (m : chia unit) (f : chia B) y : (_ ← m; f) = Ok y ↔ m = Ok tt ∧ f = Ok y.
Proof. destruct m as [[]| |]; cbn; naive_solver. Qed.

Lemma executed_iff input sf9 conds r :
  sf9 = (soft_fork9_height (constants (generator_input input)) <=? prev_transaction_block_height input) →
  (sf9 = true → generator_refs (generator_input input) = [] ∧
    is_canonical_serialization (transactions_generator (generator_input input)) = true) →
  validate_executed input sf9 conds = Ok r ↔ block_good input conds r.
Proof.
  intros Hsf Hpre. unfold validate_executed, transactions_generator_root. cbv zeta.
  unfold fee_summary. rewrite !guard_err_then. split.
  - intros (Hn & Hroot%negb_false_iff%bool_decide_eq_true & Hv). apply bind_ok_iff in Hv as (refs & Hrefs & Hv).
    rewrite guard_err_then, bind_unit_iff, guard_err_then in Hv. cbn [mbind res_bind] in Hv.
    destruct Hv as (Hr%negb_false_iff%bool_decide_eq_true & Hsig & Hc%negb_false_iff%Z.eqb_eq & Hv).
    apply bind_ok_iff in Hv as (fee & [Hf Hfit]%block_fee_iff & Hv). rewrite !guard_err_then in Hv.
    destruct Hv as (Hfee%negb_false_iff%Z.eqb_eq & Hres%Z.ltb_ge & Hv). cbn [removals_total additions_total fee_reserve] in *.
    apply bind_ok_iff in Hv as (adds & Ha%map_err_Ok & Hv). apply bind_ok_iff in Hv as (rems & Hrm & Hv).
    rewrite !bind_unit_iff, foliage_iff, context_iff in Hv. destruct Hv as (Hfol & Hctx & [= <-]). subst fee refs.
    rewrite Hfee in Hfit, Hres.
    split; cbn [result_additions_root result_removals_root]; try done; [|by rewrite Hroot].
    intros Hh. assert (sf9 = true) as Ht by (by rewrite Hsf, Z.leb_le). destruct (Hpre Ht) as [? ?]. rewrite Ht in Hn.
    by apply Z.ltb_ge in Hn.
  - intros [Bsf Broot Brefs Bsig Bcost Bfees Bfit Bres Badd Brem Bfol Bctx Bres'].
    split; [destruct sf9; [|done]; apply Z.ltb_ge, Bsf; by apply Z.leb_le|].
    split; [by apply negb_false_iff, bool_decide_eq_true|]. rewrite Brefs. cbn [mbind res_bind].
    rewrite guard_err_then, bind_unit_iff, guard_err_then. split; [by apply negb_false_iff, bool_decide_eq_true|].
    split; [done|]. split; [by apply negb_false_iff, Z.eqb_eq|].
    rewrite (proj2 (block_fee_iff _ (info_fees (transactions_info input)))) by done. cbn [mbind res_bind fee_reserve].
    rewrite !guard_err_then. split; [by apply negb_false_iff, Z.eqb_eq|]. split; [by apply Z.ltb_ge|].
    rewrite Badd. cbn [map_err mbind res_bind]. rewrite Brem. cbn [mbind res_bind]. rewrite !bind_unit_iff, foliage_iff, context_iff.
    split; [done|]. split; [done|]. rewrite Broot. by rewrite <- Bres'.
Qed.

Lemma accepted_good fuel export_fuel input r :
  validate_transaction_block fuel export_fuel input = Some (Ok r) ↔
  ∃ conds, execute_block_generator_result fuel export_fuel (generator_input input) = Some (Ok conds) ∧ block_good input conds r.
Proof.
  unfold validate_transaction_block. cbv zeta. set (sf9 := _ <=? _). split.
  - intros Hv. apply obind_Ok in Hv as ([] & [= Hg] & Hv). rewrite guard_err_then, guard_err_ok in Hg. destruct Hg as [Hg1 Hg2].
    apply obind_Ok in Hv as (conds & Hc & [= Hv]). exists conds. split; [done|].
    apply (executed_iff input sf9 conds r eq_refl); [|done]. intros Ht. rewrite Ht in Hg1, Hg2. cbn in Hg1, Hg2.
    apply negb_false_iff in Hg1, Hg2. by apply bool_decide_eq_true in Hg1.
  - intros (conds & Hc & Hg). pose proof (bg_sf9 _ _ _ Hg) as Hsf. rewrite Hc.
    assert (Hpre : sf9 = true → generator_refs (generator_input input) = [] ∧
      is_canonical_serialization (transactions_generator (generator_input input)) = true).
    { intros Ht%Z.leb_le. by destruct (Hsf Ht) as (? & ? & _). }
    assert (guard_err (sf9 && negb (bool_decide (generator_refs (generator_input input) = []))) TooManyGeneratorRefs = Ok tt) as ->.
    { apply guard_err_ok. destruct sf9; [|done]. destruct (Hpre eq_refl) as [-> _]. done. }
    assert (guard_err (sf9 && negb (is_canonical_serialization (transactions_generator (generator_input input)))) ComplexGeneratorReceived = Ok tt) as ->.
    { apply guard_err_ok. destruct sf9; [|done]. by destruct (Hpre eq_refl) as [_ ->]. }
    cbn [mbind res_bind obind]. f_equal. by apply (executed_iff input sf9 conds r eq_refl).
Qed.


(** The conditions of an executed block add up. *)
Lemma executed_accounted fuel export_fuel input conds :
  execute_block_generator_result fuel export_fuel input = Some (Ok conds) →
  ∃ base, accounted base (max_block_cost_clvm (constants input)) conds.
Proof.
  unfold execute_block_generator_result. cbv zeta. intros Hx. apply obind_Ok in Hx as ([[generator byte_cost] cost_left] & _ & Hx).
  destruct (simple_generator (input_flags input)).
  - apply obind_Ok in Hx as ([cost output] & _ & Hx). apply obind_Ok in Hx as (total & _ & Hx). apply obind_Ok in Hx as (hs & _ & Hx).
    exists total. apply fmap_Some in Hx as (x & Hx & Hok). symmetry in Hok. apply map_err_Ok in Hok as ->.
    by eapply generator_output_accounted.
  - apply obind_Ok in Hx as (rom & _ & Hx). apply obind_Ok in Hx as ([cost output] & _ & [= Hx]).
    apply bind_Ok_inv in Hx as (total & _ & Hx). apply map_err_Ok in Hx. exists total. by eapply processed_output_accounted.
Qed.

(** C6: An accepted block creates no money and spends no coin twice: the coins
    it spends are worth exactly the coins it creates plus the fees it
    declares, the fees cover what its spends reserve, its cost is the one it
    declares and within the maximum, every spent id is the id of its coin,
    and no coin is spent or created twice. *)
Theorem accepted_block_conserves fuel export_fuel input r :
  validate_transaction_block fuel export_fuel input = Some (Ok r) →
  let l := spends (conditions r) in
  sum_of coin_amount l = sum_of (λ s, sum_amounts (create_coin s)) l + info_fees (transactions_info input) ∧
  0 ≤ info_fees (transactions_info input) ∧ reserve_fee (conditions r) ≤ info_fees (transactions_info input) ∧
  conds_cost (conditions r) = info_cost (transactions_info input) ∧
  info_cost (transactions_info input) ≤ max_block_cost_clvm (constants (generator_input input)) ∧
  Forall (λ s, spend_coin_id s = coin_id (spent_coin s)) l ∧
  NoDup (map spend_coin_id l) ∧ NoDup (concat (map created_ids l)).
Proof.
  intros Hv. apply accepted_good in Hv as (conds & Hx & Hg). pose proof (bg_result _ _ _ Hg) as Hr.
  assert (conditions r = conds) as -> by (by rewrite Hr). cbv zeta.
  apply executed_accounted in Hx as (base & [[T1 T2 T3 T4 T5] _ Hmax]). destruct Hg.
  split_and!; try done; [lia|unfold uok in *; lia|lia].
Qed.

(** C7: Every signature an accepted block asks for was given: its aggregate
    signature is one of every message its conditions require, each under the
    key the condition names, and all those keys are valid. *)
Theorem accepted_block_signed `{!MemoryOk} fuel export_fuel input r :
  let data := agg_sig_me_additional_data (constants (generator_input input)) in
  let pairs := block_pairs data (conditions r) in
  length data = 32%nat → validate_transaction_block fuel export_fuel input = Some (Ok r) → pairs ≠ [] →
  ∃ s, sig_from_bytes (aggregated_signature (transactions_info input)) = Some s ∧ keys_verify pairs.*1 pairs.*2 s.
Proof.
  cbv zeta. intros Hd Hv Hne. apply accepted_good in Hv as (conds & Hx & Hg). pose proof (bg_result _ _ _ Hg) as Hr.
  assert (conditions r = conds) as Hcr by (by rewrite Hr). rewrite Hcr in *.
  apply executed_typed in Hx. apply bg_signature in Hg. apply block_signature_spec in Hg as [_ [[Hnil _]|[_ Hs]]]; done.
Qed.
End accepted.

(** ** Instances *)

(** Keys are one byte, the zero byte the invalid one; a signature is the
    first 96 bytes of what was signed. *)
#[export] Instance toy_verify : BlsVerify := {|
  PublicKey := Z;
  Signature := list Z;
  pk_from_bytes bs := head bs;
  pk_default := 0;
  pk_validate pk := negb (pk =? 0);
  sig_from_bytes bs := Some bs;
  aggregate_verify sig _ msgs _ pks validate :=
    bool_decide (sig = take 96 (concat msgs ++ repeat 0 96)) && (negb validate || forallb (λ pk, negb (pk =? 0)) pks);
|}.
#[export] Instance toy_verify_ok : BlsVerifyOk.
Proof.
  split; [done|]. intros sig check msgs dst pks. cbn. rewrite andb_true_r. apply andb_comm.
Qed.

Definition sample_key (k : Z) : list Z := k :: repeat 0 47.

(** Two messages under one key, which is validated once. *)
Definition sample_conds : SpendBundleConditions :=
  mkConds [] 0 0 0 None None [(sample_key 5, [1]); (sample_key 5, [2])] 0 0 0.
Definition sample_signature : list Z := take 96 (sample_key 5 ++ [1] ++ sample_key 5 ++ [2]).

Lemma verify_deduped_correct_witness :
  ∃ b, aggregate_verify_deduped [sample_key 5; sample_key 5] [[1]; [2]] (sample_signature : @Signature toy_verify) = Ok b ∧
    (b = true ↔ @keys_verify toy_verify [sample_key 5; sample_key 5] [[1]; [2]] sample_signature).
Proof. apply (@verify_deduped_correct toy_verify toy_verify_ok). Defined.

Lemma block_signature_iff_witness :
  @validate_block_aggregate_signature toy_hash toy_verify sample_conds sample_signature MAINNET = Ok tt.
Proof.
  apply (@block_signature_iff toy_hash toy_verify toy_verify_ok).
  - reflexivity.
  - split; [split; [done| |done..]|constructor]. repeat constructor; vm_compute; discriminate.
  - split; [repeat constructor; vm_compute; discriminate|]. right. split; [done|]. exists sample_signature. split; [done|].
    exists [5; 5]. split; [by repeat constructor|]. by vm_compute.
Defined.

Definition sample_coin (p : Z) : Coin := {| parent_coin_info := repeat p 32; puzzle_hash := repeat 9 32; amount := p |}.
Lemma additions_root_correct_witness :
  ∃ root, @canonical_additions_root toy_hash [sample_coin 1; sample_coin 2] = Ok root ∧
    @canonical_additions_root toy_hash [sample_coin 2; sample_coin 1] = Ok root ∧
    @merkle_set_root toy_hash (c ← [sample_coin 1; sample_coin 2];
      [puzzle_hash c; @hash_coin_ids toy_hash (@ids_of toy_hash (puzzle_hash c) [sample_coin 1; sample_coin 2])]) = Ok root.
Proof.
  apply (@additions_root_correct toy_hash toy_hash_ok [sample_coin 1; sample_coin 2] [sample_coin 2; sample_coin 1]).
  - apply Forall_forall. intros c Hc. assert (puzzle_hash c = repeat 9 32) as Hp by (clear -Hc; set_solver).
    unfold coin_sized. rewrite Hp. split; [done|]. apply bytes_okb_spec. reflexivity.
  - apply perm_swap.
Defined.

(** The block of the quiet spend. *)
Definition quiet_info : TransactionsInfo := {|
  info_generator_root := @hash_256 toy_hash quiet_generator;
  info_generator_refs_root := repeat 1 32;
  aggregated_signature := infinity_signature;
  info_fees := 5;
  info_cost := zlen quiet_generator + 40;
  reward_claims_incorporated := [sample_coin 3];
|}.
Definition quiet_transaction_block : TransactionBlockValidationInput := {|
  generator_input := quiet_block; transactions_info := quiet_info; foliage_transaction_block := None;
  condition_context := None; prev_transaction_block_height := 9000000;
|}.

Lemma accepted_block_conserves_witness :
  ∃ r, @validate_transaction_block bigint_ref toy_hash toy_blst interned toy_verify 4001 100 quiet_transaction_block = Some (Ok r) ∧
    sum_of coin_amount (spends (conditions r)) =
      sum_of (λ s, sum_amounts (create_coin s)) (spends (conditions r)) + info_fees quiet_info.
Proof.
  eexists. split; [vm_compute; reflexivity|].
  apply (@accepted_block_conserves bigint_ref toy_hash toy_blst interned toy_verify
    4001 100 quiet_transaction_block).
  vm_compute. reflexivity.
Defined.

(** The same coin, whose puzzle asks for a signature. *)
Definition signed_puzzle : SExp :=
  Pair (Atom [1]) (Pair (Pair (Atom [50]) (Pair (Atom (sample_key 5)) (Pair (Atom [7]) NULL_SEXP))) NULL_SEXP).
Definition signed_spend : CoinSpend := {|
  cs_coin := {| parent_coin_info := repeat 7 32; puzzle_hash := @tree_hash toy_hash signed_puzzle; amount := 5 |};
  puzzle_reveal := encoded signed_puzzle;
  solution := [0x80];
|}.
Definition signed_generator : list Z := match @simple_solution_generator bigint_ref [signed_spend] with Ok g => g | _ => [] end.
Definition signed_transaction_block : TransactionBlockValidationInput := {|
  generator_input := {|
    transactions_generator := signed_generator; generator_refs := []; input_height := 6000000;
    constants := MAINNET <| max_block_cost_clvm := 2000000 |> <| cost_per_byte := 1 |>;
    input_flags := {| simple_generator := true; clvm_flags := 0 |};
  |};
  transactions_info := {|
    info_generator_root := @hash_256 toy_hash signed_generator; info_generator_refs_root := repeat 1 32;
    aggregated_signature := take 96 (sample_key 5 ++ [7] ++ @coin_id toy_hash (cs_coin signed_spend) ++ agg_sig_me_additional_data MAINNET);
    info_fees := 5; info_cost := zlen signed_generator + 40 + AGG_SIG_COST; reward_claims_incorporated := [];
  |};
  foliage_transaction_block := None; condition_context := None; prev_transaction_block_height := 9000000;
|}.

Lemma accepted_block_signed_witness :
  ∃ r s, let pairs := @block_pairs toy_hash (agg_sig_me_additional_data MAINNET) (conditions r) in
    @validate_transaction_block bigint_ref toy_hash toy_blst interned toy_verify 500 100 signed_transaction_block = Some (Ok r) ∧
    length pairs = 1%nat ∧ @sig_from_bytes toy_verify (aggregated_signature (transactions_info signed_transaction_block)) = Some s ∧
    @keys_verify toy_verify pairs.*1 pairs.*2 s.
Proof.
  eexists. destruct (@accepted_block_signed bigint_ref toy_hash toy_hash_ok toy_blst interned toy_verify toy_verify_ok interned_ok
    500 100 signed_transaction_block _ eq_refl ltac:(vm_compute; reflexivity) ltac:(vm_compute; discriminate)) as (s & Hs & Hv).
  exists s. split; [vm_compute; reflexivity|]. split; [reflexivity|]. exact (conj Hs Hv).
Defined.
