(* ===== verification/BlockFilter.v ===== *)
(** * Block filters: [core/src/consensus/block_filter.rs]

    A transaction block commits to a filter of its puzzle hashes and coin
    names: each is hashed into a range with SipHash, the values are sorted, and
    their differences are written in Golomb-Rice code as a stream of bits.
    [filter_roundtrip] says that decoding a filter gives the sorted values,
    [filter_no_false_negatives] that every element of the block matches, and
    [filter_of_set] that order and repetition of the elements do not matter. *)
From Stdlib Require Import ZArith Lia.
From stdpp Require Import base list numbers option sorting.
From S2P Require Import Prelude ClvmSexp MerkleSet BlockValidation.

Open Scope Z_scope.

Definition GCS_P : Z := 20.
Definition GCS_M : Z := Z.shiftl 1 20.
Definition SIPHASH_K0 : Z := 0.
Definition SIPHASH_K1 : Z := 0.

(** [from_le_bytes], [to_le_bytes] and [rotate_left] *)
Definition from_le (bs : list Z) : Z := from_be (rev bs).
Definition to_le (n : nat) (v : Z) : list Z := rev (to_be n v).
Definition rotl (x k : Z) : Z := Z.lor (wrapu 64 (Z.shiftl x k)) (Z.shiftr x (64 - k)).

(** ** [siphash24] *)
Record Sip := mkSip { v0 : Z; v1 : Z; v2 : Z; v3 : Z }.

Definition sipround (s : Sip) : Sip :=
  let '(mkSip v0 v1 v2 v3) := s in
  let v0 := wrapu 64 (v0 + v1) in
  let v1 := rotl v1 13 in
  let v1 := Z.lxor v1 v0 in
  let v0 := rotl v0 32 in
  let v2 := wrapu 64 (v2 + v3) in
  let v3 := rotl v3 16 in
  let v3 := Z.lxor v3 v2 in
  let v0 := wrapu 64 (v0 + v3) in
  let v3 := rotl v3 21 in
  let v3 := Z.lxor v3 v0 in
  let v2 := wrapu 64 (v2 + v1) in
  let v1 := rotl v1 17 in
  let v1 := Z.lxor v1 v2 in
  let v2 := rotl v2 32 in
  mkSip v0 v1 v2 v3.

Definition sip_compress (m : Z) (s : Sip) : Sip :=
  let s := sipround (sipround (mkSip (v0 s) (v1 s) (v2 s) (Z.lxor (v3 s) m))) in
  mkSip (Z.lxor (v0 s) m) (v1 s) (v2 s) (v3 s).

(** The loop over blocks of eight bytes, and what is left. *)
Fixpoint sip_blocks (data : list Z) (s : Sip) : Sip * list Z :=
  match data with
  | b0 :: b1 :: b2 :: b3 :: b4 :: b5 :: b6 :: b7 :: data =>
      sip_blocks data (sip_compress (from_le [b0; b1; b2; b3; b4; b5; b6; b7]) s)
  | _ => (s, data)
  end.
Fixpoint sip_rest (i : Z) (data : list Z) (b : Z) : Z :=
  match data with
  | [] => b
  | byte :: data => sip_rest (i + 1) data (Z.lor b (Z.shiftl byte (8 * i)))
  end.

Definition siphash24 (k0 k1 : Z) (data : list Z) : Z :=
  let s := mkSip (Z.lxor k0 0x736f6d6570736575) (Z.lxor k1 0x646f72616e646f6d)
             (Z.lxor k0 0x6c7967656e657261) (Z.lxor k1 0x7465646279746573) in
  let '(s, rem) := sip_blocks data s in
  let b := sip_rest 0 rem (Z.shiftl (Z.land (zlen data) 0xff) 56) in
  let s := sip_compress b s in
  let s := mkSip (v0 s) (v1 s) (Z.lxor (v2 s) 0xff) (v3 s) in
  let s := sipround (sipround (sipround (sipround s))) in
  Z.lxor (Z.lxor (Z.lxor (v0 s) (v1 s)) (v2 s)) (v3 s).

Definition map_into_range (x n : Z) : Z := Z.shiftr (x * n) 64.
Definition element_hash (f : Z) (e : list Z) : Z := map_into_range (siphash24 SIPHASH_K0 SIPHASH_K1 e) f.

(** ** Compact sizes *)
Definition write_compact_size (n : Z) : list Z :=
  if n <? 253 then [n]
  else if n <=? 0xffff then 0xfd :: to_le 2 n
  else if n <=? 0xffffffff then 0xfe :: to_le 4 n
  else 0xff :: to_le 8 n.

(** [bytes.get(1..k)] of the slice after the first byte. *)
Definition get_le (k : nat) (bytes : list Z) : option Z :=
  if (k <=? length bytes)%nat then Some (from_le (take k bytes)) else None.
Definition read_compact_size (bytes : list Z) : option (Z * nat) :=
  match bytes with
  | [] => None
  | b :: rest =>
      if b <? 253 then Some (b, 1%nat)
      else if b =? 0xfd then n ← get_le 2 rest; Some (n, 3%nat)
      else if b =? 0xfe then n ← get_le 4 rest; Some (n, 5%nat)
      else n ← get_le 8 rest; Some (n, 9%nat)
  end.

(** ** [BitStreamWriter] *)
Record BitStreamWriter := mkWriter { out : list Z; buffer : Z; offset : Z }.

(** The loop of [write]: a round writes at least one bit. *)
Fixpoint write_bits (fuel : nat) (data nbits : Z) (w : BitStreamWriter) : BitStreamWriter :=
  match fuel with
  | O => w
  | S fuel =>
      if nbits =? 0 then w else
      let bits := Z.min (8 - offset w) nbits in
      let shifted := Z.shiftr (wrapu 64 (Z.shiftl data (64 - nbits))) (56 + offset w) in
      let buf := Z.lor (buffer w) (wrapu 8 shifted) in
      let off := offset w + bits in
      write_bits fuel data (nbits - bits)
        (if off =? 8 then mkWriter (out w ++ [buf]) 0 0 else mkWriter (out w) buf off)
  end.
Definition write (data nbits : Z) (w : BitStreamWriter) : BitStreamWriter := write_bits (Z.to_nat nbits) data nbits w.
Definition writer_finish (w : BitStreamWriter) : list Z := if offset w =? 0 then out w else out w ++ [buffer w].

(** The unary loop of [golomb_rice_encode]: at most 64 bits a call. *)
Fixpoint write_unary (fuel : nat) (q : Z) (w : BitStreamWriter) : BitStreamWriter :=
  match fuel with
  | O => w
  | S fuel =>
      if q =? 0 then w else
      let nbits := if q <=? 64 then q else 64 in
      write_unary fuel (q - nbits) (write u64_max nbits w)
  end.
Definition golomb_rice_encode (p x : Z) (w : BitStreamWriter) : BitStreamWriter :=
  let q := Z.shiftr x p in
  write x p (write 0 1 (write_unary (Z.to_nat q) q w)).

(** ** [chia_block_filter] *)
Definition distinct_items (items : list (list Z)) : list (list Z) := dedup (sort_unstable items).

Fixpoint encode_values (last_value : Z) (hashed : list Z) (w : BitStreamWriter) : res Empty_set BitStreamWriter :=
  match hashed with
  | [] => Ok w
  | value :: hashed =>
      delta ← chk 64 (value - last_value);
      encode_values value hashed (golomb_rice_encode GCS_P delta w)
  end.

Definition chia_block_filter (items : list (list Z)) : res Empty_set (list Z) :=
  let distinct := distinct_items items in
  let n := zlen distinct in
  let out := write_compact_size n in
  if n =? 0 then Ok out else
  f ← chk 64 (n * GCS_M);
  let hashed := merge_sort Z.le (map (element_hash f) distinct) in
  w ← encode_values 0 hashed (mkWriter out 0 0);
  Ok (writer_finish w).

(** ** [decode_chia_block_filter] *)

(** [BitStreamReader::read] at a position. *)
Fixpoint read_bits (bytes : list Z) (nbits : nat) (position acc : Z) : option (Z * Z) :=
  match nbits with
  | O => Some (acc, position)
  | S nbits =>
      byte ← bytes !! Z.to_nat (position / 8);
      let bit := Z.land (Z.shiftr byte (7 - position mod 8)) 1 in
      read_bits bytes nbits (position + 1) (Z.lor (wrapu 64 (Z.shiftl acc 1)) bit)
  end.
Definition read (bytes : list Z) (nbits : nat) (position : Z) : option (Z * Z) := read_bits bytes nbits position 0.

(** The unary loop; it ends within the bits that are left. *)
Fixpoint read_unary (fuel : nat) (bytes : list Z) (position quotient : Z) : option (Z * Z) :=
  match fuel with
  | O => None
  | S fuel =>
      '(bit, position) ← read bytes 1 position;
      if bit =? 1 then quotient ← checked 64 (quotient + 1); read_unary fuel bytes position quotient
      else Some (quotient, position)
  end.

Fixpoint decode_values (n : nat) (bytes : list Z) (position last_value : Z) : option (list Z) :=
  match n with
  | O => Some []
  | S n =>
      '(quotient, position) ← read_unary (S (8 * length bytes)) bytes position 0;
      '(remainder, position) ← read bytes (Z.to_nat GCS_P) position;
      scaled ← checked 64 (quotient * Z.shiftl 1 GCS_P);
      delta ← checked 64 (scaled + remainder);
      last_value ← checked 64 (last_value + delta);
      values ← decode_values n bytes position last_value;
      Some (last_value :: values)
  end.

Definition decode_chia_block_filter (filter : list Z) : option (list Z) :=
  '(n, body_start) ← read_compact_size filter;
  if n =? 0 then Some [] else
  if (length filter <? body_start)%nat then None else
  let body := drop body_start filter in
  if zlen body * 8 <? n * (GCS_P + 1) then None else
  decode_values (Z.to_nat n) body 0 0.

(** ** [chia_block_filter_match]

    [binary_search] of the standard library, on indices. *)
Fixpoint search_loop (fuel : nat) (l : list Z) (x : Z) (base size : nat) : nat :=
  match fuel with
  | O => base
  | S fuel =>
      if (size <=? 1)%nat then base else
      let half := (size / 2)%nat in
      let mid := (base + half)%nat in
      search_loop fuel l x (if x <? default 0 (l !! mid) then base else mid) (size - half)%nat
  end.
Definition binary_search (l : list Z) (x : Z) : bool :=
  match l with
  | [] => false
  | _ => bool_decide (l !! search_loop (length l) l x 0 (length l) = Some x)
  end.
Definition chia_block_filter_match (decoded : list Z) (item : list Z) : res Empty_set bool :=
  if bool_decide (decoded = []) then Ok false else
  f ← chk 64 (zlen decoded * GCS_M);
  Ok (binary_search decoded (element_hash f item)).

(** * Lemmas *)

(** ** Streams of bits, the most significant first *)
Fixpoint bits (n : nat) (x : Z) : list bool :=
  match n with
  | O => []
  | S n => Z.testbit x (Z.of_nat n) :: bits n x
  end.
Definition bits_val (l : list bool) : Z := foldl (λ acc b, 2 * acc + Z.b2z b) 0 l.
Definition byte_bits (bytes : list Z) : list bool := bytes ≫= bits 8.

Lemma length_bits n x : length (bits n x) = n.
Proof. induction n; cbn; lia. Qed.

Lemma bits_lookup n x i : (i < n)%nat → bits n x !! i = Some (Z.testbit x (Z.of_nat (n - 1 - i))).
Proof.
  revert i. induction n as [|n IH]; intros i Hi; [lia|]. destruct i as [|i]; cbn.
  - do 3 f_equal. lia.
  - rewrite IH by lia. do 3 f_equal. lia.
Qed.

Lemma bits_ext n x y : (∀ i, 0 ≤ i < Z.of_nat n → Z.testbit x i = Z.testbit y i) → bits n x = bits n y.
Proof. induction n as [|n IH]; intros Heq; cbn; [done|]. f_equal; [apply Heq; lia|]. apply IH. intros i Hi. apply Heq. lia. Qed.

Lemma bits_app n m x : bits (n + m) x = bits n (Z.shiftr x (Z.of_nat m)) ++ bits m x.
Proof.
  induction n as [|n IH]; cbn; [done|]. rewrite IH. f_equal. rewrite Z.shiftr_spec by lia. f_equal. lia.
Qed.

Lemma bits_true n x : (∀ i, 0 ≤ i < Z.of_nat n → Z.testbit x i = true) → bits n x = replicate n true.
Proof. induction n as [|n IH]; intros Hx; cbn; [done|]. rewrite Hx by lia. f_equal. apply IH. intros i Hi. apply Hx. lia. Qed.
Lemma bits_false n x : (∀ i, 0 ≤ i < Z.of_nat n → Z.testbit x i = false) → bits n x = replicate n false.
Proof. induction n as [|n IH]; intros Hx; cbn; [done|]. rewrite Hx by lia. f_equal. apply IH. intros i Hi. apply Hx. lia. Qed.

Lemma bits_val_fold l acc : foldl (λ acc b, 2 * acc + Z.b2z b) acc l = acc * 2 ^ zlen l + bits_val l.
Proof.
  unfold bits_val. revert acc. induction l as [|b l IH]; intros acc; cbn [foldl]; [rewrite zlen_nil; lia|].
  rewrite IH, (IH (2 * 0 + _)), zlen_cons, Z.pow_add_r by (try apply zlen_nonneg; lia). lia.
Qed.
Lemma bits_val_cons b l : bits_val (b :: l) = Z.b2z b * 2 ^ zlen l + bits_val l.
Proof. unfold bits_val at 1. cbn [foldl]. rewrite bits_val_fold. lia. Qed.

Lemma bits_val_bits n x : bits_val (bits n x) = x mod 2 ^ Z.of_nat n.
Proof.
  induction n as [|n IH]; [cbn; by rewrite Z.mod_1_r|]. cbn [bits]. rewrite bits_val_cons, IH. unfold zlen. rewrite length_bits.
  rewrite Nat2Z.inj_succ, Z.pow_succ_r by lia. rewrite (Z.mul_comm 2), Z.rem_mul_r, <- Z.testbit_spec' by lia. lia.
Qed.
Lemma bits_val_bounds l : 0 ≤ bits_val l < 2 ^ zlen l.
Proof.
  induction l as [|b l IH]; [unfold bits_val, zlen; cbn; lia|].
  rewrite bits_val_cons, zlen_cons, Z.pow_add_r by (try apply zlen_nonneg; lia). destruct b; cbn [Z.b2z]; lia.
Qed.

Lemma byte_bits_lookup bytes p :
  byte_bits bytes !! p = bytes !! (p / 8)%nat ≫= λ b, bits 8 b !! (p mod 8)%nat.
Proof.
  unfold byte_bits. revert p. induction bytes as [|b bytes IH]; intros p; [by rewrite !lookup_nil|]. cbn [mbind list_bind].
  destruct (Nat.lt_ge_cases p 8) as [Hp|Hp].
  - rewrite lookup_app_l by (by rewrite length_bits). rewrite Nat.div_small, Nat.mod_small by done. done.
  - rewrite lookup_app_r by (by rewrite length_bits). rewrite length_bits, IH.
    replace (p / 8)%nat with (S ((p - 8) / 8)) by (replace p with ((p - 8) + 1 * 8)%nat at 2 by lia; rewrite Nat.div_add by lia; lia).
    replace (p mod 8)%nat with ((p - 8) mod 8)%nat by (replace p with ((p - 8) + 1 * 8)%nat at 2 by lia; by rewrite Nat.Div0.mod_add). done.
Qed.
Lemma length_byte_bits bytes : length (byte_bits bytes) = (8 * length bytes)%nat.
Proof. unfold byte_bits. induction bytes as [|b bytes IH]; [done|]. cbn [mbind list_bind]. rewrite length_app, length_bits, IH. cbn. lia. Qed.

(** ** The writer *)
Record writer_ok (w : BitStreamWriter) : Prop := {
  wo_offset : 0 ≤ offset w < 8;
  wo_low i : 0 ≤ i < 8 - offset w → Z.testbit (buffer w) i = false;
  wo_buffer : 0 ≤ buffer w < 256;
  wo_out : bytes_ok (out w);
}.
Definition stream (w : BitStreamWriter) : list bool := byte_bits (out w) ++ take (Z.to_nat (offset w)) (bits 8 (buffer w)).

(** The bits of one round: below [8 - offset] they are those of [data]. *)
Lemma shifted_testbit data nbits off i :
  0 < nbits ≤ 64 → 0 ≤ off < 8 → 0 ≤ i →
  Z.testbit (wrapu 8 (Z.shiftr (wrapu 64 (Z.shiftl data (64 - nbits))) (56 + off))) i =
    if decide (i < 8 - off) then Z.testbit data (i - (8 - off) + nbits) else false.
Proof.
  intros Hn Ho Hi. unfold wrapu. destruct (Z.lt_ge_cases i 8) as [H8|H8].
  2: { rewrite Z.mod_pow2_bits_high by lia. by rewrite decide_False by lia. }
  rewrite Z.mod_pow2_bits_low by lia. rewrite Z.shiftr_spec by lia. case_decide as Hlt.
  - rewrite Z.mod_pow2_bits_low by lia. rewrite Z.shiftl_spec by lia. f_equal. lia.
  - by rewrite Z.mod_pow2_bits_high by lia.
Qed.

(** One round of [write]. *)
Lemma write_round data nbits w :
  writer_ok w → 0 < nbits ≤ 64 →
  let n := Z.min (8 - offset w) nbits in
  let buf := Z.lor (buffer w) (wrapu 8 (Z.shiftr (wrapu 64 (Z.shiftl data (64 - nbits))) (56 + offset w))) in
  0 ≤ buf < 256 ∧ take (Z.to_nat (offset w + n)) (bits 8 buf) = take (Z.to_nat (offset w)) (bits 8 (buffer w)) ++ bits (Z.to_nat n) (Z.shiftr data (nbits - n)) ∧
  ∀ i, 0 ≤ i < 8 - (offset w + n) → Z.testbit buf i = false.
Proof.
  intros [Hoff Hlow Hbuf _] Hn n buf.
  assert (Hbit : ∀ i, 0 ≤ i → Z.testbit buf i = Z.testbit (buffer w) i || if decide (i < 8 - offset w) then Z.testbit data (i - (8 - offset w) + nbits) else false).
  { intros i Hi. unfold buf. by rewrite Z.lor_spec, shifted_testbit. }
  split; [|split].
  - split; [apply Z.lor_nonneg; split; [lia|]; unfold wrapu; by apply Z.mod_pos_bound|].
    change 256 with (2 ^ 8). assert (0 ≤ buf) by (apply Z.lor_nonneg; split; [lia|]; unfold wrapu; by apply Z.mod_pos_bound).
    destruct (Z.lt_ge_cases buf (2 ^ 8)) as [|Hge]; [done|]. exfalso.
    assert (Hl : 8 ≤ Z.log2 buf) by (by apply Z.log2_le_pow2; lia). pose proof (Z.bit_log2 buf ltac:(lia)) as Hb.
    rewrite Hbit in Hb by lia. rewrite decide_False in Hb by lia. rewrite orb_false_r in Hb.
    rewrite Z.bits_above_log2 in Hb; [done|lia|]. destruct (Z.eq_dec (buffer w) 0) as [->|]; [cbn; lia|].
    assert (Z.log2 (buffer w) < 8) by (apply Z.log2_lt_pow2; lia). lia.
  - apply list_eq. intros i. destruct (Nat.lt_ge_cases i (Z.to_nat (offset w + n))) as [Hi|Hi].
    2: { rewrite !lookup_ge_None_2; [done| |rewrite length_take, length_bits; lia].
         rewrite length_app, length_take, !length_bits. lia. }
    rewrite lookup_take_lt by done. rewrite bits_lookup by lia. rewrite Hbit by lia.
    destruct (Nat.lt_ge_cases i (Z.to_nat (offset w))) as [Hi'|Hi'].
    + rewrite lookup_app_l by (rewrite length_take, length_bits; lia). rewrite lookup_take_lt by done. rewrite bits_lookup by lia.
      rewrite decide_False by lia. by rewrite orb_false_r.
    + rewrite lookup_app_r by (rewrite length_take, length_bits; lia). rewrite length_take, length_bits, bits_lookup by lia.
      rewrite Hlow by lia. rewrite decide_True by lia. cbn [orb]. rewrite Z.shiftr_spec by lia. do 2 f_equal. lia.
  - intros i Hi. rewrite Hbit by lia. rewrite Hlow by lia. cbn [orb]. rewrite decide_True by lia. apply Z.testbit_neg_r. lia.
Qed.

Lemma write_bits_spec fuel data nbits w :
  writer_ok w → 0 ≤ nbits ≤ 64 → (Z.to_nat nbits ≤ fuel)%nat →
  writer_ok (write_bits fuel data nbits w) ∧ stream (write_bits fuel data nbits w) = stream w ++ bits (Z.to_nat nbits) data.
Proof.
  revert nbits w. induction fuel as [|fuel IH]; intros nbits w Hw Hn Hf.
  { assert (nbits = 0) as -> by lia. cbn. by rewrite app_nil_r. }
  cbn [write_bits]. destruct (Z.eqb_spec nbits 0) as [->|Hnz]; [cbn; by rewrite app_nil_r|].
  pose proof (write_round data nbits w Hw ltac:(lia)) as Hr. cbv zeta in Hr |- *.
  set (n := Z.min (8 - offset w) nbits) in *. set (buf := Z.lor _ _) in *. destruct Hr as (Hbuf & Htake & Hlow).
  pose proof (wo_offset _ Hw). assert (Hn0 : 0 < n ≤ nbits ∧ n ≤ 8 - offset w) by (unfold n; lia). set (w1 := if offset w + n =? 8 then _ else _).
  assert (Hw1 : writer_ok w1 ∧ stream w1 = stream w ++ bits (Z.to_nat n) (Z.shiftr data (nbits - n))).
  { unfold w1, stream. destruct (Z.eqb_spec (offset w + n) 8) as [He|He]; cbn [out buffer offset].
    - split; [split; cbn; [lia|intros; by apply Z.testbit_0_l|lia|apply Forall_app; split; [apply Hw|by repeat constructor; lia]]|].
      rewrite He in Htake. rewrite firstn_all2 in Htake by (by rewrite length_bits). unfold byte_bits. rewrite bind_app, bind_singleton.
      cbn [Z.to_nat take]. rewrite app_nil_r, <- (assoc_L (++)). by rewrite Htake.
    - split; [split; cbn; [lia|done|done|apply Hw]|]. rewrite <- (assoc_L (++)). by rewrite Htake. }
  destruct Hw1 as [Hw1 Hs1]. destruct (IH (nbits - n) w1 Hw1 ltac:(lia) ltac:(lia)) as [E1 E2]. split; [done|].
  rewrite E2, Hs1, <- (assoc_L (++)). f_equal. replace (Z.to_nat nbits) with (Z.to_nat n + Z.to_nat (nbits - n))%nat by lia.
  rewrite bits_app, Z2Nat.id by lia. done.
Qed.

Lemma write_spec data nbits w : writer_ok w → 0 ≤ nbits ≤ 64 →
  writer_ok (write data nbits w) ∧ stream (write data nbits w) = stream w ++ bits (Z.to_nat nbits) data.
Proof. intros Hw Hn. by apply write_bits_spec. Qed.

Lemma write_unary_spec fuel q w : writer_ok w → 0 ≤ q → (Z.to_nat q ≤ fuel)%nat →
  writer_ok (write_unary fuel q w) ∧ stream (write_unary fuel q w) = stream w ++ replicate (Z.to_nat q) true.
Proof.
  revert q w. induction fuel as [|fuel IH]; intros q w Hw Hq Hf.
  { assert (q = 0) as -> by lia. cbn. by rewrite app_nil_r. }
  cbn [write_unary]. destruct (Z.eqb_spec q 0) as [->|Hnz]; [cbn; by rewrite app_nil_r|]. cbv zeta.
  set (n := if q <=? 64 then q else 64). assert (0 < n ≤ 64 ∧ n ≤ q) by (unfold n; destruct (Z.leb_spec q 64); lia).
  destruct (write_spec u64_max n w Hw ltac:(lia)) as [E1 E2]. destruct (IH (q - n) _ E1 ltac:(lia) ltac:(lia)) as [F1 F2]. split; [done|].
  rewrite F2, E2, <- (assoc_L (++)). f_equal. rewrite bits_true.
  - rewrite <- replicate_add. f_equal. lia.
  - intros i Hi. change u64_max with (Z.ones 64). apply Z.ones_spec_low. lia.
Qed.

(** The code of a difference. *)
Definition rice (x : Z) : list bool := replicate (Z.to_nat (Z.shiftr x GCS_P)) true ++ false :: bits (Z.to_nat GCS_P) x.
Lemma golomb_spec x w : writer_ok w → 0 ≤ x →
  writer_ok (golomb_rice_encode GCS_P x w) ∧ stream (golomb_rice_encode GCS_P x w) = stream w ++ rice x.
Proof.
  intros Hw Hx. unfold golomb_rice_encode. pose proof (proj2 (Z.shiftr_nonneg x GCS_P) Hx).
  destruct (write_unary_spec (Z.to_nat (Z.shiftr x GCS_P)) (Z.shiftr x GCS_P) w Hw) as [E1 E2]; [done|lia|].
  destruct (write_spec 0 1 _ E1 ltac:(lia)) as [F1 F2]. destruct (write_spec x GCS_P _ F1 ltac:(unfold GCS_P; lia)) as [G1 G2].
  split; [done|]. rewrite G2, F2, E2, <- !(assoc_L (++)). unfold rice. do 2 f_equal.
Qed.

(** What was written before does not matter. *)
Definition prefixed (o : list Z) (w : BitStreamWriter) : BitStreamWriter := mkWriter (o ++ out w) (buffer w) (offset w).
Lemma write_bits_prefixed fuel data nbits o w : write_bits fuel data nbits (prefixed o w) = prefixed o (write_bits fuel data nbits w).
Proof.
  revert nbits w. induction fuel as [|fuel IH]; intros nbits w; cbn [write_bits]; [done|]. destruct (nbits =? 0); [done|]. cbv zeta.
  cbn [prefixed offset buffer out]. rewrite <- IH. f_equal. destruct (_ =? 8); [|done]. unfold prefixed. cbn. by rewrite (assoc_L (++)).
Qed.
Lemma write_unary_prefixed fuel q o w : write_unary fuel q (prefixed o w) = prefixed o (write_unary fuel q w).
Proof.
  revert q w. induction fuel as [|fuel IH]; intros q w; cbn [write_unary]; [done|]. destruct (q =? 0); [done|]. cbv zeta.
  unfold write. by rewrite write_bits_prefixed, IH.
Qed.
Lemma golomb_prefixed p x o w : golomb_rice_encode p x (prefixed o w) = prefixed o (golomb_rice_encode p x w).
Proof. unfold golomb_rice_encode, write. by rewrite write_unary_prefixed, !write_bits_prefixed. Qed.

Lemma finish_spec w : writer_ok w → bytes_ok (writer_finish w) ∧
  ∃ k, (k < 8)%nat ∧ byte_bits (writer_finish w) = stream w ++ replicate k false.
Proof.
  intros [Hoff Hlow Hbuf Hout]. unfold writer_finish, stream. destruct (Z.eqb_spec (offset w) 0) as [He|He].
  - split; [done|]. exists 0%nat. split; [lia|]. rewrite He. cbn. by rewrite !app_nil_r.
  - split; [apply Forall_app; split; [done|by repeat constructor; unfold byte_ok; lia]|]. exists (Z.to_nat (8 - offset w)). split; [lia|].
    unfold byte_bits. rewrite bind_app, bind_singleton, <- (assoc_L (++)). f_equal.
    rewrite <- (take_drop (Z.to_nat (offset w)) (bits 8 (buffer w))) at 1. f_equal.
    apply list_eq. intros i. rewrite lookup_drop. destruct (Nat.lt_ge_cases i (Z.to_nat (8 - offset w))) as [Hi|Hi].
    + rewrite bits_lookup by lia. rewrite lookup_replicate_2 by lia. f_equal. apply Hlow. lia.
    + rewrite !lookup_ge_None_2; [done|rewrite length_replicate; lia|rewrite length_bits; lia].
Qed.

(** ** The reader *)
Section reader.
Context (bytes : list Z) (Hbytes : bytes_ok bytes).

(** What the reader sees from a position on. *)
Definition ahead (p : Z) : list bool := drop (Z.to_nat p) (byte_bits bytes).

Lemma read_bits_spec l rest p acc :
  0 ≤ p → ahead p = l ++ rest → 0 ≤ acc → acc * 2 ^ zlen l + bits_val l < 2 ^ 64 →
  read_bits bytes (length l) p acc = Some (acc * 2 ^ zlen l + bits_val l, p + zlen l).
Proof.
  revert p acc. induction l as [|b l IH]; intros p acc Hp Ha Hacc Hlt; cbn [length read_bits].
  { rewrite zlen_nil. unfold bits_val. cbn. do 2 f_equal; lia. }
  assert (Hb : byte_bits bytes !! Z.to_nat p = Some b).
  { rewrite <- (Nat.add_0_r (Z.to_nat p)), <- lookup_drop. unfold ahead in Ha. by rewrite Ha. }
  rewrite byte_bits_lookup in Hb. replace (Z.to_nat p / 8)%nat with (Z.to_nat (p / 8)) in Hb by (rewrite Z2Nat.inj_div by lia; done).
  destruct (bytes !! Z.to_nat (p / 8)) as [byte|] eqn:Hbyte; [|done]. cbn [mbind option_bind] in Hb |- *.
  pose proof (Z.mod_pos_bound p 8 ltac:(lia)). replace (Z.to_nat p mod 8)%nat with (Z.to_nat (p mod 8)) in Hb by (rewrite Z2Nat.inj_mod by lia; done).
  rewrite bits_lookup in Hb by lia. injection Hb as Hb. replace (Z.of_nat _) with (7 - p mod 8) in Hb by lia.
  pose proof (bits_val_bounds l) as Hv. pose proof (zlen_nonneg l). rewrite bits_val_cons, zlen_cons, Z.pow_add_r in Hlt |- * by lia.
  assert (0 < 2 ^ zlen l) by lia.
  assert (Hbit : Z.land (Z.shiftr byte (7 - p mod 8)) 1 = Z.b2z b).
  { change 1 with (Z.ones 1). rewrite Z.land_ones by lia. change (2 ^ 1) with 2. rewrite <- Z.bit0_mod, Z.shiftr_spec by lia. by rewrite Z.add_0_l, Hb. }
  assert (Hacc' : Z.lor (wrapu 64 (Z.shiftl acc 1)) (Z.b2z b) = acc * 2 + Z.b2z b).
  { unfold wrapu. rewrite Z.shiftl_mul_pow2 by lia. change (2 ^ 1) with 2. rewrite Z.mod_small by (destruct b; cbn [Z.b2z] in Hlt; nia).
    destruct b; cbn [Z.b2z]; [|by rewrite Z.lor_0_r, Z.add_0_r]. replace (acc * 2) with (Z.shiftl acc 1) by (rewrite Z.shiftl_mul_pow2 by lia; lia).
    symmetry. apply Z.add_nocarry_lor. apply Z.bits_inj'. intros i Hi. rewrite Z.land_spec, Z.bits_0. destruct (Z.eq_dec i 0) as [->|].
    - by rewrite Z.shiftl_spec_low by lia.
    - rewrite (Z.bits_above_log2 1) by (cbn; lia). apply andb_false_r. }
  rewrite Hbit, Hacc'. rewrite IH.
  - do 2 f_equal; lia.
  - lia.
  - unfold ahead in *. replace (Z.to_nat (p + 1)) with (Z.to_nat p + 1)%nat by lia. rewrite <- drop_drop, Ha. done.
  - destruct b; cbn [Z.b2z]; lia.
  - lia.
Qed.

Lemma ahead_add p l rest : 0 ≤ p → ahead p = l ++ rest → ahead (p + zlen l) = rest.
Proof.
  intros Hp Ha. unfold ahead in *. unfold zlen. rewrite Z2Nat.inj_add, Nat2Z.id by lia. rewrite <- drop_drop, Ha. apply drop_app_length.
Qed.

Lemma read_spec l rest p : 0 ≤ p → ahead p = l ++ rest → zlen l ≤ 64 →
  read bytes (length l) p = Some (bits_val l, p + zlen l) ∧ ahead (p + zlen l) = rest.
Proof.
  intros Hp Ha Hl. split; [|by eapply ahead_add]. unfold read. rewrite (read_bits_spec l rest) by (try done; try lia;
    pose proof (bits_val_bounds l); pose proof (Z.pow_le_mono_r 2 (zlen l) 64); lia). do 2 f_equal.
Qed.

Lemma read_unary_spec fuel q rest p q0 :
  0 ≤ p → ahead p = replicate q true ++ false :: rest → (q < fuel)%nat → 0 ≤ q0 → q0 + Z.of_nat q < 2 ^ 64 →
  read_unary fuel bytes p q0 = Some (q0 + Z.of_nat q, p + Z.of_nat q + 1) ∧ ahead (p + Z.of_nat q + 1) = rest.
Proof.
  revert fuel p q0. induction q as [|q IH]; intros fuel p q0 Hp Ha Hf Hq0 Hlt; (destruct fuel as [|fuel]; [lia|]); cbn [read_unary].
  - destruct (read_spec [false] rest p Hp Ha ltac:(unfold zlen; cbn; lia)) as [E1 E2]. change 1%nat with (length [false]). rewrite E1.
    cbn [mbind option_bind]. change (bits_val [false] =? 1) with false. change (zlen [false]) with 1 in *.
    replace (p + Z.of_nat 0 + 1) with (p + 1) by lia. rewrite Z.add_0_r. done.
  - destruct (read_spec [true] (replicate q true ++ false :: rest) p Hp Ha ltac:(unfold zlen; cbn; lia)) as [E1 E2]. change 1%nat with (length [true]). rewrite E1.
    cbn [mbind option_bind]. change (bits_val [true] =? 1) with true. cbn [orb]. rewrite checked_ok by (unfold uok; lia).
    cbn [mbind option_bind]. change (zlen [true]) with 1 in *. destruct (IH fuel (p + 1) (q0 + 1)) as [F1 F2]; [lia|done|lia|lia|lia|].
    rewrite F1. replace (p + Z.of_nat (S q) + 1) with (p + 1 + Z.of_nat q + 1) by lia. split; [do 2 f_equal; lia|done].
Qed.

(** The values whose differences are written from [last]. *)
Fixpoint rices (last : Z) (values : list Z) : list bool :=
  match values with
  | [] => []
  | v :: values => rice (v - last) ++ rices v values
  end.

Lemma decode_values_spec values rest p last :
  0 ≤ p → ahead p = rices last values ++ rest → 0 ≤ last → Sorted Z.le (last :: values) → Forall (λ v, v < 2 ^ 64) values →
  decode_values (length values) bytes p last = Some values.
Proof.
  revert p last. induction values as [|v values IH]; intros p last Hp Ha Hlast Hs Hmax; cbn [length decode_values]; [done|].
  apply Forall_cons in Hmax as [Hv Hmax]. apply Sorted_inv in Hs as [Hs Hle]. inversion Hle as [|? ? Hle']; subst.
  cbn [rices] in Ha. unfold rice in Ha. rewrite <- !(assoc_L (++)) in Ha. cbn [app] in Ha.
  set (q := Z.to_nat (Z.shiftr (v - last) GCS_P)) in Ha. pose proof (proj2 (Z.shiftr_nonneg (v - last) GCS_P) ltac:(lia)) as Hq.
  assert (Hdiv : Z.shiftr (v - last) GCS_P = (v - last) / 2 ^ GCS_P) by (apply Z.shiftr_div_pow2; unfold GCS_P; lia).
  pose proof (Z.div_mod (v - last) (2 ^ GCS_P) ltac:(done)) as Hdm. pose proof (Z.mod_pos_bound (v - last) (2 ^ GCS_P) ltac:(done)) as Hmod.
  assert (Hqf : (q < 8 * length bytes)%nat).
  { assert (Hl : (length (ahead p) ≤ 8 * length bytes)%nat) by (unfold ahead; rewrite length_drop, length_byte_bits; lia).
    rewrite Ha, length_app, length_replicate in Hl. cbn in Hl. lia. }
  assert (Hq64 : Z.of_nat q = Z.shiftr (v - last) GCS_P) by (unfold q; lia).
  assert (Hsmall : 0 ≤ Z.shiftr (v - last) GCS_P * 2 ^ GCS_P ≤ v - last) by (rewrite Hdiv; unfold GCS_P in *; lia).
  assert (Hqb : Z.of_nat q < 2 ^ 64) by (unfold GCS_P in *; lia).
  destruct (read_unary_spec (S (8 * length bytes)) q _ p 0 Hp Ha ltac:(lia) ltac:(lia) ltac:(lia)) as [E1 E2]. rewrite E1. cbn [mbind option_bind].
  destruct (read_spec (bits (Z.to_nat GCS_P) (v - last)) (rices v values ++ rest) (p + Z.of_nat q + 1) ltac:(lia) E2) as [F1 F2].
  { unfold zlen. rewrite length_bits. done. }
  rewrite length_bits in F1. rewrite F1. cbn [mbind option_bind]. rewrite bits_val_bits. unfold zlen in *. rewrite length_bits in *.
  rewrite Z2Nat.id in * by (unfold GCS_P; lia). rewrite Z.shiftl_mul_pow2, Z.mul_1_l by (unfold GCS_P; lia).
  rewrite Z.add_0_l, Hq64. rewrite checked_ok by (unfold uok; lia). cbn [mbind option_bind].
  replace (Z.shiftr (v - last) GCS_P * 2 ^ GCS_P + (v - last) mod 2 ^ GCS_P) with (v - last) by (rewrite Hdiv; lia).
  rewrite checked_ok by (unfold uok; lia). cbn [mbind option_bind]. replace (last + (v - last)) with v by lia.
  rewrite checked_ok by (unfold uok; lia). cbn [mbind option_bind].
  rewrite IH; [done|unfold GCS_P in *; lia|by rewrite <- Hq64|lia|done|done].
Qed.
End reader.

Lemma encode_values_spec values last w :
  writer_ok w → Sorted Z.le (last :: values) → 0 ≤ last → Forall (λ v, v < 2 ^ 64) values →
  ∃ w', encode_values last values w = Ok w' ∧ writer_ok w' ∧ stream w' = stream w ++ rices last values ∧
    ∀ o, encode_values last values (prefixed o w) = Ok (prefixed o w').
Proof.
  revert last w. induction values as [|v values IH]; intros last w Hw Hs Hlast Hmax; cbn [encode_values rices].
  { exists w. rewrite app_nil_r. done. }
  apply Forall_cons in Hmax as [Hv Hmax]. apply Sorted_inv in Hs as [Hs Hle]. inversion Hle as [|? ? Hle']; subst.
  rewrite chk_ok by (unfold uok; lia). cbn [mbind res_bind]. destruct (golomb_spec (v - last) w Hw ltac:(lia)) as [E1 E2].
  destruct (IH v _ E1 Hs ltac:(lia) Hmax) as (w' & F1 & F2 & F3 & F4). exists w'. split; [done|]. split; [done|].
  split; [by rewrite F3, E2, <- (assoc_L (++))|]. intros o. by rewrite golomb_prefixed, F4.
Qed.

Lemma length_rices last values : (21 * length values ≤ length (rices last values))%nat.
Proof.
  revert last. induction values as [|v values IH]; intros last; [done|]. cbn [rices length]. unfold rice. specialize (IH v).
  rewrite !length_app, length_replicate. cbn [length]. rewrite length_bits. change (Z.to_nat GCS_P) with 20%nat. lia.
Qed.

(** ** Compact sizes *)
Lemma from_to_le n v : 0 ≤ v < 256 ^ Z.of_nat n → from_le (to_le n v) = v.
Proof. intros Hv. unfold from_le, to_le. rewrite rev_involutive, from_be_to_be. by apply Z.mod_small. Qed.
Lemma length_to_le n v : length (to_le n v) = n.
Proof. unfold to_le. by rewrite length_rev, length_to_be. Qed.

Lemma get_le_spec n v rest : 0 ≤ v < 256 ^ Z.of_nat n → get_le n (to_le n v ++ rest) = Some v.
Proof.
  intros Hv. unfold get_le. rewrite length_app, length_to_le. rewrite (proj2 (Nat.leb_le _ _)) by lia.
  rewrite take_app_le by (by rewrite length_to_le). rewrite take_ge by (by rewrite length_to_le). by rewrite from_to_le.
Qed.

Lemma compact_size_roundtrip n rest : 0 ≤ n < 2 ^ 64 →
  read_compact_size (write_compact_size n ++ rest) = Some (n, length (write_compact_size n)).
Proof.
  intros Hn. unfold write_compact_size. destruct (Z.ltb_spec n 253) as [H1|H1].
  { cbn. by rewrite (proj2 (Z.ltb_lt _ _)). }
  destruct (Z.leb_spec n 0xffff) as [H2|H2].
  { cbn [app read_compact_size]. rewrite get_le_spec by (cbn; lia). cbn. done. }
  destruct (Z.leb_spec n 0xffffffff) as [H3|H3].
  { cbn [app read_compact_size]. rewrite get_le_spec by (cbn; lia). cbn. done. }
  cbn [app read_compact_size]. rewrite get_le_spec by (cbn; lia). cbn. done.
Qed.

(** ** [siphash24] stays in its word *)
Definition word (x : Z) : Prop := 0 ≤ x < 2 ^ 64.
Definition sip_ok (s : Sip) : Prop := word (v0 s) ∧ word (v1 s) ∧ word (v2 s) ∧ word (v3 s).

Lemma word_bits x : word x ↔ 0 ≤ x ∧ ∀ i, 64 ≤ i → Z.testbit x i = false.
Proof.
  split.
  - intros [H1 H2]. split; [done|]. intros i Hi. rewrite <- (Z.mod_small x (2 ^ 64)) by done. apply Z.mod_pow2_bits_high. lia.
  - intros [H1 H2]. assert (x = x mod 2 ^ 64) as ->; [|apply Z.mod_pos_bound; lia].
    apply Z.bits_inj'. intros i Hi. destruct (Z.lt_ge_cases i 64); [by rewrite Z.mod_pow2_bits_low by lia|].
    by rewrite H2, Z.mod_pow2_bits_high by lia.
Qed.
Lemma word_wrap x : word (wrapu 64 x).
Proof. unfold word, wrapu. apply Z.mod_pos_bound. lia. Qed.
Lemma word_lxor x y : word x → word y → word (Z.lxor x y).
Proof.
  rewrite !word_bits. intros [Hx Hx'] [Hy Hy']. split; [apply Z.lxor_nonneg; lia|].
  intros i Hi. by rewrite Z.lxor_spec, Hx', Hy'.
Qed.
Lemma word_lor x y : word x → word y → word (Z.lor x y).
Proof.
  rewrite !word_bits. intros [Hx Hx'] [Hy Hy']. split; [apply Z.lor_nonneg; lia|].
  intros i Hi. by rewrite Z.lor_spec, Hx', Hy'.
Qed.
Lemma word_rotl x k : word x → 0 ≤ k ≤ 64 → word (rotl x k).
Proof.
  intros Hx Hk. unfold rotl. apply word_lor; [apply word_wrap|]. destruct Hx as [H1 H2].
  split; [by apply Z.shiftr_nonneg|]. rewrite Z.shiftr_div_pow2 by lia.
  assert (0 < 2 ^ (64 - k)) by lia. pose proof (Z.div_le_upper_bound x (2 ^ (64 - k)) x). nia.
Qed.
(** Shows that an expression of words is a word. *)
Ltac words :=
  try assumption;
  lazymatch goal with
  | |- word (wrapu _ _) => apply word_wrap
  | |- word (rotl _ _) => apply word_rotl; [words|lia]
  | |- word (Z.lxor _ _) => apply word_lxor; words
  | |- _ => idtac
  end.

Lemma sip_ok_mk a b c d : word a → word b → word c → word d → sip_ok (mkSip a b c d).
Proof. unfold sip_ok. cbn [v0 v1 v2 v3]. auto. Qed.
Lemma sipround_ok s : sip_ok s → sip_ok (sipround s).
Proof. destruct s as [a b c d]. intros (H1 & H2 & H3 & H4). cbn [v0 v1 v2 v3] in *. unfold sipround. apply sip_ok_mk; words. Qed.
Lemma sip_compress_ok m s : word m → sip_ok s → sip_ok (sip_compress m s).
Proof.
  intros Hm (H1 & H2 & H3 & H4). unfold sip_compress. cbv zeta.
  destruct (sipround_ok _ (sipround_ok _ (sip_ok_mk _ _ _ _ H1 H2 H3 (word_lxor _ _ H4 Hm)))) as (T1 & T2 & T3 & T4).
  apply sip_ok_mk; words.
Qed.

Lemma word_from_le l : bytes_ok l → (length l ≤ 8)%nat → word (from_le l).
Proof.
  intros Hl Hlen. unfold from_le, word. assert (Hr : bytes_ok (rev l)) by (unfold bytes_ok; by apply Forall_rev).
  pose proof (from_be_bounds _ Hr) as Hb. unfold zlen in Hb. rewrite length_rev in Hb.
  pose proof (Z.pow_le_mono_r 256 (Z.of_nat (length l)) 8 ltac:(lia) ltac:(lia)). change (256 ^ 8) with (2 ^ 64) in *. lia.
Qed.

Lemma sip_blocks_ok n data s : (length data ≤ n)%nat → bytes_ok data → sip_ok s →
  sip_ok (sip_blocks data s).1 ∧ bytes_ok (sip_blocks data s).2 ∧ (length (sip_blocks data s).2 < 8)%nat.
Proof.
  revert data s. induction n as [|n IH]; intros data s Hlen Hd Hs.
  { destruct data; [|cbn in Hlen; lia]. cbn. split_and!; [done|done|lia]. }
  do 8 (destruct data as [|? data]; [cbn; split_and!; [done|done|lia]|]). cbn [sip_blocks]. cbn in Hlen.
  change (?a :: ?b :: ?c :: ?d :: ?e :: ?f :: ?g :: ?h :: data) with ([a; b; c; d; e; f; g; h] ++ data) in Hd.
  apply Forall_app in Hd as [H8 Hd]. apply IH; [lia|done|]. apply sip_compress_ok; [|done]. by apply word_from_le.
Qed.

Lemma sip_rest_ok i data b : 0 ≤ i → i + zlen data ≤ 8 → bytes_ok data → word b → word (sip_rest i data b).
Proof.
  revert i b. induction data as [|x data IH]; intros i b Hi Hlen Hd Hb; cbn [sip_rest]; [done|].
  apply Forall_cons in Hd as [Hx Hd]. rewrite zlen_cons in Hlen. pose proof (zlen_nonneg data). apply IH; [lia|lia|done|].
  apply word_lor; [done|]. unfold byte_ok in Hx. unfold word. rewrite Z.shiftl_mul_pow2 by lia.
  assert (0 < 2 ^ (8 * i) ≤ 2 ^ 56) by (split; [lia|apply Z.pow_le_mono_r; lia]). nia.
Qed.

Lemma siphash24_word k0 k1 data : word k0 → word k1 → bytes_ok data → word (siphash24 k0 k1 data).
Proof.
  intros H0 H1 Hd. unfold siphash24. set (s := mkSip _ _ _ _).
  assert (Hs : sip_ok s). { apply sip_ok_mk; words; done. }
  destruct (sip_blocks_ok (length data) data s ltac:(lia) Hd Hs) as (E1 & E2 & E3).
  destruct (sip_blocks data s) as [s' rem]. cbn [fst snd] in *. cbv zeta.
  set (b := sip_rest _ _ _). assert (Hb : word b).
  { apply sip_rest_ok; [lia|unfold zlen; lia|done|]. change 0xff with (Z.ones 8). rewrite Z.land_ones by lia. unfold word.
    rewrite Z.shiftl_mul_pow2 by lia. pose proof (Z.mod_pos_bound (zlen data) (2 ^ 8)). lia. }
  destruct (sip_compress_ok b s' Hb E1) as (C1 & C2 & C3 & C4). assert (Hff : word 0xff) by done.
  destruct (sipround_ok _ (sipround_ok _ (sipround_ok _ (sipround_ok _ (sip_ok_mk _ _ _ _ C1 C2 (word_lxor _ _ C3 Hff) C4)))))
    as (T1 & T2 & T3 & T4). words.
Qed.

(** An element falls into the range. *)
Lemma element_hash_range f e : 0 < f < 2 ^ 64 → bytes_ok e → 0 ≤ element_hash f e < f.
Proof.
  intros Hf He. unfold element_hash, map_into_range. destruct (siphash24_word SIPHASH_K0 SIPHASH_K1 e) as [H1 H2]; [done|done|done|].
  rewrite Z.shiftr_div_pow2 by lia. split; [apply Z.div_pos; nia|]. apply Z.div_lt_upper_bound; nia.
Qed.

(** ** Sorting *)
#[local] Existing Instances bytes_le_total bytes_le_trans.
#[local] Instance bytes_le_antisym : AntiSymm (=) (λ x y, Is_true (bytes_leb x y)).
Proof. intros x y Hx%Is_true_true Hy%Is_true_true. by apply bytes_leb_antisym. Qed.

Lemma dedup_unique l : StronglySorted (λ x y, Is_true (bytes_leb x y)) l →
  StronglySorted (λ x y, Is_true (bytes_leb x y)) (dedup l) ∧ NoDup (dedup l).
Proof.
  induction l as [|a l IH]; intros Hs; [repeat constructor|]. apply StronglySorted_inv in Hs as [Hs Hall].
  destruct (IH Hs) as [I1 I2]. destruct l as [|b l]; [cbn; split; [by repeat constructor|apply NoDup_singleton]|]. rewrite dedup_cons2.
  case_bool_decide as Hab; [done|]. split.
  - constructor; [done|]. apply Forall_forall. intros y. rewrite elem_of_dedup. revert y. by apply Forall_forall.
  - constructor; [|done]. rewrite elem_of_dedup. intros [->|Hin]%elem_of_cons; [done|].
    apply StronglySorted_inv in Hs as [_ Hb]. apply Forall_cons in Hall as [Hle _]. rewrite Forall_forall in Hb.
    apply Hab. by apply (anti_symm (λ x y, Is_true (bytes_leb x y))); [|apply Hb].
Qed.

Lemma sort_sorted items : StronglySorted (λ x y, Is_true (bytes_leb x y)) (sort_unstable items).
Proof. apply StronglySorted_merge_sort; apply _. Qed.
Lemma elem_of_distinct items e : e ∈ distinct_items items ↔ e ∈ items.
Proof. unfold distinct_items. rewrite elem_of_dedup. unfold sort_unstable. by rewrite merge_sort_Permutation. Qed.
Lemma distinct_NoDup items : NoDup (distinct_items items).
Proof. apply dedup_unique, sort_sorted. Qed.

(** The distinct elements depend on the set alone. *)
Lemma distinct_ext items items' : (∀ e, e ∈ items ↔ e ∈ items') → distinct_items items = distinct_items items'.
Proof.
  intros He. apply (StronglySorted_unique (λ x y, Is_true (bytes_leb x y))).
  - apply dedup_unique, sort_sorted.
  - apply dedup_unique, sort_sorted.
  - apply NoDup_Permutation; [apply distinct_NoDup..|]. intros e. by rewrite !elem_of_distinct.
Qed.

Definition hashed_values (items : list (list Z)) : list Z :=
  merge_sort Z.le (map (element_hash (zlen (distinct_items items) * GCS_M)) (distinct_items items)).

Lemma length_hashed items : length (hashed_values items) = length (distinct_items items).
Proof. unfold hashed_values. rewrite merge_sort_Permutation. by rewrite length_map. Qed.
Lemma elem_of_hashed items h : h ∈ hashed_values items ↔ ∃ e, e ∈ items ∧ h = element_hash (zlen (distinct_items items) * GCS_M) e.
Proof.
  unfold hashed_values. rewrite merge_sort_Permutation, list_elem_of_In, in_map_iff.
  setoid_rewrite <- list_elem_of_In. setoid_rewrite elem_of_distinct. split; intros (e & H1 & H2); eauto.
Qed.

(** ** The search *)
Section search.
Context (l : list Z) (Hs : StronglySorted Z.le l).

Lemma sorted_lookup i j a b : l !! i = Some a → l !! j = Some b → (i ≤ j)%nat → a ≤ b.
Proof.
  intros Hi Hj Hij. destruct (decide (i = j)) as [->|Hne]; [simplify_eq; lia|].
  eapply (StronglySorted_app_1_elem_of Z.le (take j l) (drop j l)); [by rewrite take_drop|..].
  - apply list_elem_of_lookup. exists i. rewrite lookup_take_lt by lia. done.
  - apply list_elem_of_lookup. exists 0%nat. rewrite lookup_drop. by rewrite Nat.add_0_r.
Qed.

Lemma search_loop_spec fuel x base size i :
  (size ≤ fuel)%nat → (base ≤ i < base + size)%nat → (base + size ≤ length l)%nat → l !! i = Some x →
  l !! search_loop fuel l x base size = Some x.
Proof.
  revert base size i. induction fuel as [|fuel IH]; intros base size i Hf Hi Hlen Hx; [lia|]. cbn [search_loop].
  destruct (Nat.leb_spec size 1) as [H1|H1]; [by replace base with i by lia|]. cbv zeta.
  pose proof (Nat.div_lt size 2 ltac:(lia) ltac:(lia)). pose proof (Nat.div_str_pos size 2 ltac:(lia)).
  assert (size / 2 ≤ size - size / 2)%nat by (pose proof (Nat.Div0.mul_div_le size 2); lia).
  destruct (lookup_lt_is_Some_2 l (base + size / 2)) as [y Hy]; [lia|]. rewrite Hy. change (default 0 (Some y)) with y.
  destruct (Z.ltb_spec x y) as [Hxy|Hxy].
  - apply (IH base (size - size / 2)%nat i); [lia| |lia|done]. split; [lia|].
    destruct (Nat.lt_ge_cases i (base + size / 2)) as [|Hge]; [lia|]. pose proof (sorted_lookup _ _ _ _ Hy Hx Hge). lia.
  - destruct (Nat.lt_ge_cases i (base + size / 2)) as [Hlt|Hge].
    + assert (y = x) as -> by (pose proof (sorted_lookup _ _ _ _ Hx Hy ltac:(lia)); lia).
      apply (IH _ _ (base + size / 2)%nat); [lia..|done].
    + apply (IH _ _ i); [lia..|done].
Qed.

Lemma binary_search_spec x : binary_search l x = bool_decide (x ∈ l).
Proof.
  transitivity (bool_decide (l !! search_loop (length l) l x 0 (length l) = Some x)); [by destruct l|].
  apply bool_decide_ext. split.
  - intros Hx. by eapply list_elem_of_lookup_2.
  - intros [i Hi]%list_elem_of_lookup. apply (search_loop_spec _ x 0 _ i); [lia| |lia|done].
    apply lookup_lt_Some in Hi. lia.
Qed.
End search.

(** ** The filter *)
Lemma zlen_elem_of {A} (l : list A) x : x ∈ l → 0 < zlen l.
Proof. destruct l as [|y l]; [by intros ?%not_elem_of_nil|]. rewrite zlen_cons. pose proof (zlen_nonneg l). lia. Qed.

Lemma length_rices_le last values m : 0 ≤ last → Sorted Z.le (last :: values) → Forall (λ v, v ≤ m) values → last ≤ m →
  zlen (rices last values) ≤ 21 * zlen values + (m - last) / 2 ^ GCS_P.
Proof.
  revert last. induction values as [|v values IH]; intros last Hlast Hs Hm Hlm; cbn [rices].
  { rewrite (zlen_nil (A:=bool)), (zlen_nil (A:=Z)). pose proof (Z.div_pos (m - last) (2 ^ GCS_P)). unfold GCS_P in *. lia. }
  apply Forall_cons in Hm as [Hv Hm]. apply Sorted_inv in Hs as [Hs Hle]. inversion Hle as [|? ? Hle']; subst.
  specialize (IH v ltac:(lia) Hs Hm Hv). rewrite zlen_app, zlen_cons. unfold rice at 1. rewrite zlen_app, zlen_cons.
  unfold zlen at 1 2. rewrite length_replicate, length_bits. rewrite Z.shiftr_div_pow2 by (unfold GCS_P; lia).
  rewrite Z2Nat.id by (apply Z.div_pos; unfold GCS_P; lia). unfold GCS_P in *. change (Z.of_nat (Z.to_nat 20)) with 20.
  pose proof (Z.div_mod (v - last) (2 ^ 20)). pose proof (Z.div_mod (m - v) (2 ^ 20)). pose proof (Z.div_mod (m - last) (2 ^ 20)).
  pose proof (Z.mod_pos_bound (v - last) (2 ^ 20)). pose proof (Z.mod_pos_bound (m - v) (2 ^ 20)). pose proof (Z.mod_pos_bound (m - last) (2 ^ 20)). lia.
Qed.

Lemma compact_size_ok n : 0 ≤ n < 2 ^ 64 → bytes_ok (write_compact_size n) ∧ 1 ≤ zlen (write_compact_size n) ≤ 9.
Proof.
  intros Hn. assert (Hle : ∀ k, bytes_ok (to_le k n)) by (intros k; unfold to_le, bytes_ok; apply Forall_rev, to_be_ok).
  assert (Hlen : ∀ k, zlen (to_le k n) = Z.of_nat k) by (intros k; unfold zlen; by rewrite length_to_le).
  unfold write_compact_size. destruct (Z.ltb_spec n 253) as [H1|H1].
  { split; [repeat constructor; unfold byte_ok; lia|]. unfold zlen. cbn. lia. }
  destruct (n <=? 0xffff); [|destruct (n <=? 0xffffffff)]; rewrite zlen_cons, Hlen;
    (split; [constructor; [unfold byte_ok; lia|apply Hle]|lia]).
Qed.

Section filter.
Context (items : list (list Z)) (Hitems : Forall bytes_ok items).
Context (Hcount : zlen (distinct_items items) < 2 ^ 44).

Lemma hashed_range v : v ∈ hashed_values items → 0 ≤ v ≤ zlen (distinct_items items) * GCS_M - 1.
Proof.
  intros (e & He & ->)%elem_of_hashed. pose proof (proj2 (elem_of_distinct items e) He) as Hd.
  apply zlen_elem_of in Hd.
  change GCS_M with (2 ^ 20). rewrite Forall_forall in Hitems.
  pose proof (element_hash_range (zlen (distinct_items items) * 2 ^ 20) e ltac:(lia) (Hitems e He)). lia.
Qed.

Lemma hashed_sorted : StronglySorted Z.le (hashed_values items).
Proof. apply StronglySorted_merge_sort; apply _. Qed.
Lemma hashed_sorted_0 : Sorted Z.le (0 :: hashed_values items).
Proof.
  apply StronglySorted_Sorted. constructor; [apply hashed_sorted|]. apply Forall_forall. intros v Hv. by apply hashed_range.
Qed.

(** What [chia_block_filter] writes. *)
Lemma chia_block_filter_spec : ∃ body k,
  chia_block_filter items = Ok (write_compact_size (zlen (distinct_items items)) ++ body) ∧
  bytes_ok body ∧ (k < 8)%nat ∧ byte_bits body = rices 0 (hashed_values items) ++ replicate k false.
Proof.
  pose proof (zlen_nonneg (distinct_items items)) as Hn. unfold chia_block_filter. cbv zeta.
  destruct (Z.eqb_spec (zlen (distinct_items items)) 0) as [H0|H0].
  { exists [], 0%nat. rewrite app_nil_r. split; [done|]. split; [constructor|]. split; [lia|].
    apply zlen_0 in H0.
    unfold hashed_values. by rewrite H0. }
  rewrite chk_ok by (change GCS_M with (2 ^ 20); unfold uok; lia). cbn [mbind res_bind]. fold (hashed_values items).
  set (o := write_compact_size _).
  replace (mkWriter o 0 0) with (prefixed o (mkWriter [] 0 0)) by (unfold prefixed; cbn; by rewrite app_nil_r).
  destruct (encode_values_spec (hashed_values items) 0 (mkWriter [] 0 0)) as (w & _ & E2 & E3 & E4).
  - split; cbn; [lia|intros; apply Z.bits_0|lia|constructor].
  - apply hashed_sorted_0.
  - lia.
  - apply Forall_forall. intros v Hv%hashed_range. change GCS_M with (2 ^ 20) in Hv. lia.
  - rewrite E4. cbn [mbind res_bind]. destruct (finish_spec w E2) as (F1 & k & F2 & F3). exists (writer_finish w), k.
    split; [|split; [done|split; [done|by rewrite F3, E3]]]. f_equal. unfold writer_finish. cbn [prefixed offset out buffer].
    destruct (offset w =? 0); [done|]. by rewrite (assoc_L (++)).
Qed.

Lemma decode_filter_spec : ∃ filter, chia_block_filter items = Ok filter ∧ bytes_ok filter ∧
  zlen filter ≤ 9 + (22 * zlen (distinct_items items) + 7) / 8 ∧
  decode_chia_block_filter filter = Some (hashed_values items).
Proof.
  destruct chia_block_filter_spec as (body & k & E1 & E2 & E3 & E4). pose proof (zlen_nonneg (distinct_items items)) as Hn.
  destruct (compact_size_ok (zlen (distinct_items items))) as [C1 C2]; [lia|]. eexists. split; [exact E1|].
  split; [by apply Forall_app|]. assert (Hlen : 8 * zlen body = zlen (rices 0 (hashed_values items)) + Z.of_nat k).
  { pose proof (f_equal length E4) as Hl. rewrite length_byte_bits, length_app, length_replicate in Hl. unfold zlen. lia. }
  assert (Hh : zlen (hashed_values items) = zlen (distinct_items items)) by (unfold zlen; by rewrite length_hashed).
  pose proof (length_rices 0 (hashed_values items)) as Hlow. split.
  - rewrite zlen_app. destruct (Z.eq_dec (zlen (distinct_items items)) 0) as [H0|H0].
    { rewrite H0 in Hh. pose proof (proj1 (zlen_0 _) Hh) as Hnil.
      rewrite Hnil in Hlen. cbn [rices] in Hlen. rewrite zlen_nil in Hlen. pose proof (Z.div_pos (22 * zlen (distinct_items items) + 7) 8). lia. }
    pose proof (length_rices_le 0 (hashed_values items) (zlen (distinct_items items) * 2 ^ 20 - 1) ltac:(lia) hashed_sorted_0) as Hup.
    specialize (Hup ltac:(apply Forall_forall; intros v Hv%hashed_range; change GCS_M with (2 ^ 20) in Hv; lia) ltac:(lia)).
    rewrite Hh, Z.sub_0_r in Hup. unfold GCS_P in Hup.
    pose proof (Z.div_lt_upper_bound (zlen (distinct_items items) * 2 ^ 20 - 1) (2 ^ 20) (zlen (distinct_items items)) ltac:(lia) ltac:(lia)).
    assert (zlen body ≤ (22 * zlen (distinct_items items) + 7) / 8); [|lia]. apply Z.div_le_lower_bound; lia.
  - unfold decode_chia_block_filter. rewrite compact_size_roundtrip by lia. cbn [mbind option_bind].
    destruct (Z.eqb_spec (zlen (distinct_items items)) 0) as [H0|H0].
    { rewrite H0 in Hh. by rewrite (proj1 (zlen_0 _) Hh). }
    rewrite (proj2 (Nat.ltb_ge _ _)) by (rewrite length_app; lia). rewrite drop_app_length. cbv zeta.
    rewrite (proj2 (Z.ltb_ge _ _)) by (unfold zlen in *; unfold GCS_P; lia).
    replace (Z.to_nat (zlen (distinct_items items))) with (length (hashed_values items)) by (unfold zlen in *; lia).
    apply (decode_values_spec body (hashed_values items) (replicate k false)); [lia|done|lia|apply hashed_sorted_0|].
    apply Forall_forall. intros v Hv%hashed_range. change GCS_M with (2 ^ 20) in Hv. lia.
Qed.

Lemma match_spec e : items ≠ [] →
  chia_block_filter_match (hashed_values items) e =
    Ok (bool_decide (element_hash (zlen (distinct_items items) * GCS_M) e ∈ hashed_values items)).
Proof.
  intros Hne. unfold chia_block_filter_match. rewrite bool_decide_eq_false_2.
  2: { destruct items as [|x l]; [done|]. intros Hnil. eapply not_elem_of_nil. rewrite <- Hnil. apply elem_of_hashed. exists x. split; [apply list_elem_of_here|done]. }
  replace (zlen (hashed_values items)) with (zlen (distinct_items items)) by (unfold zlen; by rewrite length_hashed).
  pose proof (zlen_nonneg (distinct_items items)). rewrite chk_ok by (change GCS_M with (2 ^ 20); unfold uok; lia). cbn [mbind res_bind].
  by rewrite binary_search_spec by apply hashed_sorted.
Qed.
End filter.

(** C38: for fewer than 2^44 distinct elements [chia_block_filter] returns,
    without overflow, a filter of at most nine bytes and 22 bits an element,
    and [decode_chia_block_filter] reads back from it the sorted hashes of the
    distinct elements. *)
Theorem filter_roundtrip items :
  Forall bytes_ok items → zlen (distinct_items items) < 2 ^ 44 →
  ∃ filter, chia_block_filter items = Ok filter ∧ bytes_ok filter ∧
    zlen filter ≤ 9 + (22 * zlen (distinct_items items) + 7) / 8 ∧
    decode_chia_block_filter filter =
      Some (merge_sort Z.le (map (element_hash (zlen (distinct_items items) * GCS_M)) (distinct_items items))).
Proof. intros Hi Hc. by apply decode_filter_spec. Qed.

Definition sample_items : list (list Z) := [replicate 32 1; replicate 32 2; [7; 8; 9]; replicate 32 1; []].
Lemma filter_roundtrip_witness :
  ∃ filter, chia_block_filter sample_items = Ok filter ∧ bytes_ok filter ∧
    zlen filter ≤ 9 + (22 * zlen (distinct_items sample_items) + 7) / 8 ∧
    decode_chia_block_filter filter =
      Some (merge_sort Z.le (map (element_hash (zlen (distinct_items sample_items) * GCS_M)) (distinct_items sample_items))).
Proof. apply filter_roundtrip; [apply (bool_decide_unpack _); vm_compute; exact I|vm_compute; reflexivity]. Defined.

(** C39: a decoded filter matches exactly the elements whose hash is the hash
    of an element of the block: every element of the block matches, and one
    outside it matches only on a collision. *)
Theorem filter_no_false_negatives items :
  Forall bytes_ok items → zlen (distinct_items items) < 2 ^ 44 → items ≠ [] →
  ∃ filter decoded, chia_block_filter items = Ok filter ∧ decode_chia_block_filter filter = Some decoded ∧
    (∀ e, e ∈ items → chia_block_filter_match decoded e = Ok true) ∧
    ∀ e, ∃ b, chia_block_filter_match decoded e = Ok b ∧
      (b = true ↔ ∃ e', e' ∈ items ∧ element_hash (zlen decoded * GCS_M) e = element_hash (zlen decoded * GCS_M) e').
Proof.
  intros Hi Hc Hne. destruct (decode_filter_spec items Hi Hc) as (filter & E1 & _ & _ & E2). exists filter, (hashed_values items).
  split; [done|]. split; [done|].
  assert (zlen (hashed_values items) = zlen (distinct_items items)) as -> by (unfold zlen; by rewrite length_hashed). split.
  - intros e He. rewrite match_spec by done. by rewrite bool_decide_eq_true_2 by (apply elem_of_hashed; eauto).
  - intros e. eexists. split; [by apply match_spec|]. rewrite bool_decide_eq_true. apply elem_of_hashed.
Qed.

Lemma filter_no_false_negatives_witness :
  (∃ filter decoded, chia_block_filter sample_items = Ok filter ∧ decode_chia_block_filter filter = Some decoded ∧
    (∀ e, e ∈ sample_items → chia_block_filter_match decoded e = Ok true) ∧
    ∀ e, ∃ b, chia_block_filter_match decoded e = Ok b ∧
      (b = true ↔ ∃ e', e' ∈ sample_items ∧ element_hash (zlen decoded * GCS_M) e = element_hash (zlen decoded * GCS_M) e')) ∧
  chia_block_filter_match (hashed_values sample_items) [1] = Ok false.
Proof.
  split; [|vm_compute; reflexivity].
  apply filter_no_false_negatives; [apply (bool_decide_unpack _); vm_compute; exact I|vm_compute; reflexivity|discriminate].
Defined.

(** C40: the filter is a function of the set of its elements: their order and
    repetitions do not change a byte of it. *)
Theorem filter_of_set items items' :
  (∀ e, e ∈ items ↔ e ∈ items') → chia_block_filter items = chia_block_filter items'.
Proof. intros He. unfold chia_block_filter. by rewrite (distinct_ext items items' He). Qed.

Lemma filter_of_set_witness : chia_block_filter sample_items = chia_block_filter [[]; [7; 8; 9]; replicate 32 2; replicate 32 1].
Proof.
  apply filter_of_set. intros e. unfold sample_items. rewrite !elem_of_cons, elem_of_nil. tauto.
Defined.

(** The vector of the reference implementation: SHA-256 of "abc", "xyz" and "123". *)
Example reference_vector : chia_block_filter
  [[186; 120; 22; 191; 143; 1; 207; 234; 65; 65; 64; 222; 93; 174; 34; 35; 176; 3; 97; 163; 150; 23; 122; 156; 180; 16; 255; 97; 242; 0; 21; 173];
   [54; 8; 188; 161; 228; 78; 166; 196; 210; 104; 235; 109; 176; 34; 96; 38; 152; 146; 192; 180; 43; 134; 187; 241; 231; 122; 111; 161; 108; 60; 146; 130];
   [166; 101; 164; 89; 32; 66; 47; 157; 65; 126; 72; 103; 239; 220; 79; 184; 160; 74; 31; 63; 255; 31; 160; 126; 153; 142; 134; 247; 247; 162; 122; 227]]
  = Ok [3; 174; 90; 204; 224; 219; 7; 253; 91].
Proof. vm_compute. reflexivity. Qed.
