(* ===== verification/Float64.v ===== *)
(** * [f64]

    The double-precision numbers of the fee rates, as the Standard Library's
    bit-exact specification of IEEE 754: 53 bits of precision, rounding to
    nearest, ties to even. *)
From Stdlib Require Import ZArith Lia Floats.SpecFloat.
From stdpp Require Import base list numbers option.
From S2P Require Import Prelude.

Open Scope Z_scope.

Definition f64 : Set := spec_float.

(** [n as f64] *)
Definition f64_of (n : Z) : f64 := binary_normalize 53 1024 n 0 false.
Definition f64_zero : f64 := S754_zero false.
Definition f64_add (x y : f64) : f64 := SFadd 53 1024 x y.
Definition f64_sub (x y : f64) : f64 := SFsub 53 1024 x y.
Definition f64_mul (x y : f64) : f64 := SFmul 53 1024 x y.
Definition f64_div (x y : f64) : f64 := SFdiv 53 1024 x y.
(** The double nearest to the decimal [n / 10^k], as a literal denotes. *)
Definition f64_dec (n : Z) (k : Z) : f64 := f64_div (f64_of n) (f64_of (10 ^ k)).

(** The comparison operators, false on a NaN. *)
Definition f64_lt (x y : f64) : bool := match SFcompare x y with Some Lt => true | _ => false end.
Definition f64_le (x y : f64) : bool := match SFcompare x y with Some Lt | Some Eq => true | _ => false end.
Definition f64_eqb (x y : f64) : bool := match SFcompare x y with Some Eq => true | _ => false end.
(** [partial_cmp(..).unwrap_or(Equal)] *)
Definition f64_cmp (x y : f64) : comparison := default Eq (SFcompare x y).

(** [fee as f64 / cost as f64], and zero for no cost. *)
Definition fee_rate (fee cost : Z) : f64 := if cost =? 0 then f64_zero else f64_div (f64_of fee) (f64_of cost).

(** ** Numbers that are not negative

    Fee rates are zero, positive or positive infinity, and on these the
    comparison is a total order. *)
Definition f64_pos (x : f64) : Prop :=
  match x with S754_zero _ => True | S754_infinity s | S754_finite s _ _ => s = false | S754_nan => False end.

Lemma f64_cmp_refl x : f64_pos x → f64_cmp x x = Eq.
Proof.
  destruct x as [s|s| |s m e]; cbn; intros Hs; try done; subst; [done|].
  unfold f64_cmp. cbn. rewrite Z.compare_refl. apply Pos.compare_refl.
Qed.

Lemma f64_cmp_antisym x y : f64_pos x → f64_pos y → f64_cmp y x = CompOpp (f64_cmp x y).
Proof.
  destruct x as [s|s| |s m e], y as [s'|s'| |s' m' e']; cbn; intros Hx Hy; try done; subst; try done.
  unfold f64_cmp. cbn. rewrite (Z.compare_antisym e e'). destruct (e ?= e'); try done. apply (Pos.compare_antisym m m').
Qed.

Lemma f64_cmp_trans x y z : f64_pos x → f64_pos y → f64_pos z → f64_cmp x y ≠ Gt → f64_cmp y z ≠ Gt → f64_cmp x z ≠ Gt.
Proof.
  destruct x as [s|s| |s m e], y as [s'|s'| |s' m' e'], z as [s''|s''| |s'' m'' e'']; cbn; intros Hx Hy Hz; try done; subst; try done.
  unfold f64_cmp. cbn. change (PosDef.Pos.compare_cont Eq) with Pos.compare.
  destruct (Z.compare_spec e e'), (Z.compare_spec e' e''), (Z.compare_spec e e''); subst; try done; try lia; intros Hmm Hmm'.
  destruct (Pos.compare_spec m m'), (Pos.compare_spec m' m''), (Pos.compare_spec m m''); subst; try done; lia.
Qed.
