(* ===== verification/Mempool.v ===== *)
(** * The mempool: [node/src/mempool.rs]

    Bundles that are valid at the peak wait here for a block.  The pool keeps
    totals of cost and fees, an index from coins to the items that spend them,
    a cache of bundles parked for a height lock, a cache of bundles that
    conflict with a resident item, and a cache of names seen.

    A method that takes [&mut self] and returns a [Result] is a [pool_m]: it
    returns the changed pool also when it returns an error.  The coin store is
    a parameter with the queries the pool makes; the fee estimator is an
    interface, [Estimator], which [FeeEstimator] implements; and the order in
    which hash maps are iterated is any order, [HashOrder]. *)
From Stdlib Require Import ZArith Lia.
From stdpp Require Import base list numbers option gmap sets sorting.
From S2P Require Import Prelude Serialize ClvmNumber ClvmSexp Coin ClvmPath ClvmParser ClvmCanonical PotIterations Conditions SpendConditions BlockConditions BlockGenerator GeneratorProgram FastForward BlockValidation Float64.

Open Scope Z_scope.

(** ** Hash maps and sets

    The standard library promises no order of iteration. *)
Class HashOrder := {
  map_iter {A} : gmap (list Z) A → list (list Z * A);
  set_iter : gset (list Z) → list (list Z);
}.
Class HashOrderOk `{HashOrder} : Prop := {
  map_iter_perm {A} (m : gmap (list Z) A) : map_iter m ≡ₚ map_to_list m;
  set_iter_perm (s : gset (list Z)) : set_iter s ≡ₚ elements s;
}.

(** ** The fee estimator

    What the pool calls; [None] is a panic. *)
Class Estimator := {
  estimator : Type;
  estimator_new : Z → estimator;
  add_mempool_item : Z → Z → Z → Z → estimator → option estimator;
  remove_mempool_item : Z → Z → Z → Z → estimator → option estimator;
  new_block : Z → list (Z * Z * Z) → Z → estimator → option estimator;
}.
(** Its promise: nothing panics as long as fewer than [2^64] items were ever
    added; [estimator_inv n e] says that [n] were. *)
Class EstimatorOk `{Estimator} := {
  estimator_inv : Z → estimator → Prop;
  estimator_new_ok size : estimator_inv 0 (estimator_new size);
  estimator_mono n n' e : estimator_inv n e → n ≤ n' → estimator_inv n' e;
  add_mempool_item_ok n e cost fee height total : estimator_inv n e → 0 ≤ height → n + 1 < 2 ^ 64 →
    ∃ e', add_mempool_item cost fee height total e = Some e' ∧ estimator_inv (n + 1) e';
  remove_mempool_item_ok n e cost fee height total : estimator_inv n e → 0 ≤ height →
    ∃ e', remove_mempool_item cost fee height total e = Some e' ∧ estimator_inv n e';
  new_block_ok n e height included total : estimator_inv n e → n < 2 ^ 64 → 0 ≤ height →
    ∃ e', new_block height included total e = Some e' ∧ estimator_inv n e';
}.

(** ** Constants *)
Definition MEMPOOL_MIN_FEE_INCREASE : Z := 10000000.
Definition PENDING_CACHE_CAP : nat := 100.
Definition CONFLICT_CACHE_MAX_SIZE : nat := 1000.
Definition MEMPOOL_ITEM_FEE_LIMIT : Z := Z.shiftl 1 50.
Definition NONZERO_FEE_MINIMUM_FPC : f64 := f64_of 5.
Definition EXPIRING_BLOCK_CUTOFF : Z := 48.
Definition EXPIRING_TIME_CUTOFF : Z := 900.
Definition SPEND_PENALTY_COST : Z := 500000.
Definition SEEN_CACHE_SIZE : nat := 10000.
Definition QUOTE_BYTES : Z := 2.
Definition QUOTE_EXECUTION_COST : Z := 20.
Definition I64_MAX : Z := 2 ^ 63 - 1.
Definition U64_MAX : Z := 2 ^ 64 - 1.

(** ** Data *)

(** [blockchain/coin_record.rs] *)
Record CoinRecord := {
  record_coin : Coin;
  confirmed_block_index : Z;
  spent_block_index : Z;
  coinbase : bool;
  record_timestamp : Z;
  record_spent : bool;
}.
Record UnspentLineageInfo := {
  lineage_coin_id : list Z;
  lineage_parent_id : list Z;
  lineage_parent_parent_id : list Z;
}.

(** [blockchain/spend_bundle.rs] *)
Record SpendBundle := {
  coin_spends : list CoinSpend;
  bundle_signature : list Z;
}.

(** The queries of [stores/src/traits.rs] that the pool makes; [None] is a
    [StoreError]. *)
Record CoinStore := {
  get_coin_record : list Z → option (option CoinRecord);
  get_coin_records : list (list Z) → option (list CoinRecord);
  get_unspent_by_puzzle_hash : list Z → option (list CoinRecord);
}.

Record BundleCoinSpend := mkCoinSpend {
  coin_spend : CoinSpend;
  eligible_for_dedup : bool;
  spend_additions : list Coin;
  spend_cost : Z;
  latest_singleton_lineage : option UnspentLineageInfo;
}.
#[global] Instance bundle_coin_spend_settable : Settable BundleCoinSpend :=
  settable! mkCoinSpend <coin_spend; eligible_for_dedup; spend_additions; spend_cost; latest_singleton_lineage>.

(** [BundleCoinSpend::supports_fast_forward] *)
Definition has_lineage (b : BundleCoinSpend) : bool := bool_decide (is_Some (latest_singleton_lineage b)).

Record EffectiveTimelocks := {
  assert_height : Z;
  assert_seconds : Z;
  assert_before_height : option Z;
  assert_before_seconds : option Z;
}.

Module TimelockFailure.
Inductive t :=
  | AssertHeightAbsolute
  | AssertHeightRelative
  | AssertSecondsAbsolute
  | AssertSecondsRelative
  | AssertMyBirthHeight
  | AssertMyBirthSeconds
  | AssertBeforeHeightAbsolute
  | AssertBeforeHeightRelative
  | AssertBeforeSecondsAbsolute
  | AssertBeforeSecondsRelative
  | ImpossibleHeightConstraints
  | ImpossibleSecondsConstraints.
End TimelockFailure.

Module TimelockCheck.
Inductive t :=
  | Park (f : TimelockFailure.t)
  | Expired (f : TimelockFailure.t)
  | NotMet (f : TimelockFailure.t).
End TimelockCheck.

Module MempoolError.
Inductive t :=
  | NoPeak
  | ZeroCost
  | CostExceedsMax (cost : Z)
  | UnknownUnspent (id : list Z)
  | DoubleSpend (id : list Z)
  | Conflict (id : list Z)
  | Pending (name : list Z) (f : TimelockFailure.t)
  | Expired (name : list Z) (f : TimelockFailure.t)
  | TimelockNotMet (name : list Z) (f : TimelockFailure.t)
  | ImpossibleTimelock (name : list Z) (f : TimelockFailure.t)
  | FeeTooLow
  | FeeNearZero
  | FeeLimitExceeded
  | NonCanonicalSolution (id : list Z)
  | AlreadyIncluding (name : list Z)
  | InvalidSpendBundle
  | Name
  | Store.
End MempoolError.

Record MempoolItem := mkItem {
  item_bundle : SpendBundle;
  item_conds : SpendBundleConditions;
  item_name : list Z;
  item_fee : Z;
  item_cost : Z;
  item_spends : Z;
  item_removals : list (list Z);
  item_coin_spends : list BundleCoinSpend;
  item_timelocks : EffectiveTimelocks;
  item_height_added : Z;
  item_seq : Z;
}.
#[global] Instance item_settable : Settable MempoolItem :=
  settable! mkItem <item_bundle; item_conds; item_name; item_fee; item_cost; item_spends; item_removals; item_coin_spends;
    item_timelocks; item_height_added; item_seq>.

Record PendingEntry := {
  pending_bundle : SpendBundle;
  pending_conds : SpendBundleConditions;
  pending_fee : Z;
  pending_cost : Z;
  pending_assert_height : Z;
}.
Record ConflictEntry := {
  conflict_bundle : SpendBundle;
  conflict_conds : SpendBundleConditions;
  conflict_fee : Z;
  conflict_entry_cost : Z;
}.

Record Mempool `{Estimator} := mkPool {
  max_total_cost : Z;
  max_tx_cost : Z;
  max_block_clvm_cost : Z;
  total_cost : Z;
  total_fee : Z;
  peak : option (Z * Z);
  items : gmap (list Z) MempoolItem;
  by_coin : gmap (list Z) (list (list Z));
  next_seq : Z;
  pending : gmap (list Z) PendingEntry;
  conflict : gmap (list Z) ConflictEntry;
  conflict_order : list (list Z);
  conflict_cost : Z;
  conflict_cache_max_cost : Z;
  seen : gset (list Z);
  seen_order : list (list Z);
  fee_estimator : estimator;
}.
Arguments mkPool {_}.
#[global] Instance mempool_settable `{Estimator} : Settable Mempool :=
  settable! mkPool <max_total_cost; max_tx_cost; max_block_clvm_cost; total_cost; total_fee; peak; items; by_coin; next_seq;
    pending; conflict; conflict_order; conflict_cost; conflict_cache_max_cost; seen; seen_order; fee_estimator>.

(** ** Methods that change the pool *)
Definition pool_m `{Estimator} (A : Type) : Type := Mempool → Mempool * res MempoolError.t A.
#[global] Instance pool_ret `{Estimator} : MRet pool_m := λ A a m, (m, Ok a).
#[global] Instance pool_bind `{Estimator} : MBind pool_m := λ A B f x m,
  match x m with
  | (m, Ok a) => f a m
  | (m, Err e) => (m, Err e)
  | (m, Panic) => (m, Panic)
  end.
Definition pool_get `{Estimator} : pool_m Mempool := λ m, (m, Ok m).
Definition pool_modify `{Estimator} (f : Mempool → Mempool) : pool_m unit := λ m, (f m, Ok tt).
Definition pool_lift `{Estimator} {A} (r : res MempoolError.t A) : pool_m A := λ m, (m, r).
Definition pool_err `{Estimator} {A} (e : MempoolError.t) : pool_m A := λ m, (m, Err e).
(** [for x in l { f(x)? }] *)
Fixpoint pool_for `{Estimator} {A} (l : list A) (f : A → pool_m unit) : pool_m unit :=
  match l with [] => mret tt | x :: l => _ ← f x; pool_for l f end.
(** [?] on a [StoreError] *)
Definition from_store {A} (o : option A) : res MempoolError.t A := ok_or o MempoolError.Store.

(** ** Time locks *)

(** [records]: the height and the time each removal was confirmed. *)
Section timelocks.
Context (records : gmap (list Z) (Z * Z)).

Definition opt_min (o : option Z) (bound : Z) : Z := match o with Some b => Z.min b bound | None => bound end.
Definition fold_timelocks (tl : EffectiveTimelocks) (spend : Spend) : EffectiveTimelocks :=
  match records !! spend_coin_id spend with
  | None => tl
  | Some (confirmed, timestamp) => {|
      assert_height := match height_relative spend with
                       | Some rel => Z.max (assert_height tl) (sat_addu 32 confirmed rel) | None => assert_height tl end;
      assert_seconds := match seconds_relative spend with
                        | Some rel => Z.max (assert_seconds tl) (sat_addu 64 timestamp rel) | None => assert_seconds tl end;
      assert_before_height := match before_height_relative spend with
                              | Some rel => Some (opt_min (assert_before_height tl) (sat_addu 32 confirmed rel))
                              | None => assert_before_height tl end;
      assert_before_seconds := match before_seconds_relative spend with
                               | Some rel => Some (opt_min (assert_before_seconds tl) (sat_addu 64 timestamp rel))
                               | None => assert_before_seconds tl end;
    |}
  end.
Definition effective_timelocks (conds : SpendBundleConditions) : EffectiveTimelocks :=
  foldl fold_timelocks
    {| assert_height := height_absolute conds; assert_seconds := seconds_absolute conds;
       assert_before_height := before_height_absolute conds; assert_before_seconds := before_seconds_absolute conds |}
    (spends conds).

Definition is_some_and {A} (o : option A) (p : A → bool) : bool := match o with Some x => p x | None => false end.

Definition check_spend_locks (prev_height prev_timestamp : Z) (spend : Spend) : option TimelockCheck.t :=
  match records !! spend_coin_id spend with
  | None => None
  | Some (confirmed, timestamp) =>
      if is_some_and (birth_height spend) (λ birth, negb (birth =? confirmed))
      then Some (TimelockCheck.NotMet TimelockFailure.AssertMyBirthHeight) else
      if is_some_and (birth_seconds spend) (λ birth, negb (birth =? timestamp))
      then Some (TimelockCheck.NotMet TimelockFailure.AssertMyBirthSeconds) else
      if is_some_and (height_relative spend) (λ rel, prev_height <? sat_addu 32 confirmed rel)
      then Some (TimelockCheck.Park TimelockFailure.AssertHeightRelative) else
      if is_some_and (seconds_relative spend) (λ rel, prev_timestamp <? sat_addu 64 timestamp rel)
      then Some (TimelockCheck.NotMet TimelockFailure.AssertSecondsRelative) else
      if is_some_and (before_height_relative spend) (λ rel, sat_addu 32 confirmed rel <=? prev_height)
      then Some (TimelockCheck.Expired TimelockFailure.AssertBeforeHeightRelative) else
      if is_some_and (before_seconds_relative spend) (λ rel, sat_addu 64 timestamp rel <=? prev_timestamp)
      then Some (TimelockCheck.Expired TimelockFailure.AssertBeforeSecondsRelative) else None
  end.
Fixpoint check_spends_locks (prev_height prev_timestamp : Z) (l : list Spend) : option TimelockCheck.t :=
  match l with
  | [] => None
  | spend :: l =>
      match check_spend_locks prev_height prev_timestamp spend with
      | Some r => Some r
      | None => check_spends_locks prev_height prev_timestamp l
      end
  end.
Definition check_time_locks (conds : SpendBundleConditions) (prev_height prev_timestamp : Z) : option TimelockCheck.t :=
  if prev_height <? height_absolute conds then Some (TimelockCheck.Park TimelockFailure.AssertHeightAbsolute) else
  if prev_timestamp <? seconds_absolute conds then Some (TimelockCheck.NotMet TimelockFailure.AssertSecondsAbsolute) else
  if is_some_and (before_height_absolute conds) (λ bound, bound <=? prev_height)
  then Some (TimelockCheck.Expired TimelockFailure.AssertBeforeHeightAbsolute) else
  if is_some_and (before_seconds_absolute conds) (λ bound, bound <=? prev_timestamp)
  then Some (TimelockCheck.Expired TimelockFailure.AssertBeforeSecondsAbsolute) else
  check_spends_locks prev_height prev_timestamp (spends conds).
End timelocks.

Section ops.
Context `{BigIntBytes, Sha256, HashOrder, Estimator}.

(** [SpendBundle::name]: the derived encoding, hashed. *)
Definition coin_spend_to_bytes (ver : ChiaProtocolVersion) (s : CoinSpend) : io (list Z) :=
  c ← coin_to_bytes ver (cs_coin s); Ok (c ++ puzzle_reveal s ++ solution s).
Fixpoint coin_spends_to_bytes (ver : ChiaProtocolVersion) (l : list CoinSpend) : io (list Z) :=
  match l with
  | [] => Ok []
  | s :: l => b ← coin_spend_to_bytes ver s; bs ← coin_spends_to_bytes ver l; Ok (b ++ bs)
  end.
Definition bundle_name (b : SpendBundle) : io (list Z) :=
  l ← coin_spends_to_bytes version_default (coin_spends b);
  s ← to_bytes version_default (Arr (n := 96) (bundle_signature b));
  Ok (hash_256 (len_prefix (coin_spends b) ++ l ++ s)).

(** [CoinStore::get_unspent_lineage_info] *)
Fixpoint lineage_matches (store : CoinStore) (puzzle_hash_ : list Z) (candidates : list CoinRecord) :
    option (list UnspentLineageInfo) :=
  match candidates with
  | [] => Some []
  | candidate :: candidates =>
      match get_coin_record store (parent_coin_info (record_coin candidate)) with
      | None => None
      | Some parent =>
          match lineage_matches store puzzle_hash_ candidates with
          | None => None
          | Some rest =>
              match parent with
              | Some parent =>
                  if record_spent parent && bool_decide (puzzle_hash (record_coin parent) = puzzle_hash_) &&
                     (amount (record_coin parent) =? amount (record_coin candidate))
                  then Some ({| lineage_coin_id := coin_id (record_coin candidate);
                                lineage_parent_id := coin_id (record_coin parent);
                                lineage_parent_parent_id := parent_coin_info (record_coin parent) |} :: rest)
                  else Some rest
              | None => Some rest
              end
          end
      end
  end.
Definition get_unspent_lineage_info (store : CoinStore) (puzzle_hash_ : list Z) : option (option UnspentLineageInfo) :=
  match get_unspent_by_puzzle_hash store puzzle_hash_ with
  | None => None
  | Some candidates =>
      if bool_decide (candidates = []) || (32 <? zlen candidates) then Some None else
      match lineage_matches store puzzle_hash_ candidates with
      | None => None
      | Some [m] => Some (Some m)
      | Some _ => Some None
      end
  end.

(** ** Items *)
Definition spend_id (b : BundleCoinSpend) : list Z := coin_id (cs_coin (coin_spend b)).
Definition find_spend_of (l : list BundleCoinSpend) (id : list Z) : option BundleCoinSpend :=
  List.find (λ b, bool_decide (spend_id b = id)) l.
Definition bundle_coin_spend (item : MempoolItem) (id : list Z) : option BundleCoinSpend :=
  find_spend_of (item_coin_spends item) id.
Definition index_key (l : list BundleCoinSpend) (id : list Z) : list Z :=
  match find_spend_of l id with
  | Some b => match latest_singleton_lineage b with Some lineage => lineage_coin_id lineage | None => id end
  | None => id
  end.
Definition index_keys (item : MempoolItem) : list (list Z) := map (index_key (item_coin_spends item)) (item_removals item).

Definition fee_per_cost (item : MempoolItem) : f64 := fee_rate (item_fee item) (item_cost item).
Definition fee_per_virtual_cost (item : MempoolItem) : res MempoolError.t f64 :=
  penalty ← chk 64 (item_spends item * SPEND_PENALTY_COST);
  Ok (fee_rate (item_fee item) (sat_addu 64 (item_cost item) penalty)).

(** ** The caches and the index *)
Definition mempool_new (c : ConsensusConstants) : res MempoolError.t Mempool :=
  quote ← chk 64 (QUOTE_BYTES * cost_per_byte c);
  block_overhead ← chk 64 (quote + QUOTE_EXECUTION_COST);
  let total := sat_mulu 64 (max_block_cost_clvm c) (mempool_block_buffer c) in
  Ok {| max_total_cost := total; max_tx_cost := max_block_cost_clvm c / 2;
        max_block_clvm_cost := sat_sub (max_block_cost_clvm c) block_overhead;
        total_cost := 0; total_fee := 0; peak := None; items := ∅; by_coin := ∅; next_seq := 0;
        pending := ∅; conflict := ∅; conflict_order := []; conflict_cost := 0;
        conflict_cache_max_cost := max_block_cost_clvm c; seen := ∅; seen_order := [];
        fee_estimator := estimator_new total |}.

(** [while self.seen_order.len() > SEEN_CACHE_SIZE] *)
Fixpoint trim_seen (fuel : nat) (s : gset (list Z)) (order : list (list Z)) : gset (list Z) * list (list Z) :=
  match fuel with
  | O => (s, order)
  | S fuel =>
      if (SEEN_CACHE_SIZE <? length order)%nat then
        match order with evicted :: order => trim_seen fuel (s ∖ {[evicted]}) order | [] => (s, order) end
      else (s, order)
  end.
Definition add_seen (name : list Z) (m : Mempool) : Mempool :=
  if bool_decide (name ∈ seen m) then m else
  let order := seen_order m ++ [name] in
  let '(s, order) := trim_seen (length order) ({[name]} ∪ seen m) order in
  m <| seen := s |> <| seen_order := order |>.
Definition remove_seen (name : list Z) (m : Mempool) : Mempool :=
  if bool_decide (name ∈ seen m) then
    m <| seen := seen m ∖ {[name]} |> <| seen_order := filter (λ entry, entry ≠ name) (seen_order m) |>
  else m.
Definition set_peak (height timestamp : Z) (m : Mempool) : Mempool := m <| peak := Some (height, timestamp) |>.

Definition index_add (name key : list Z) (idx : gmap (list Z) (list (list Z))) : gmap (list Z) (list (list Z)) :=
  let owners := default [] (idx !! key) in
  <[key := if bool_decide (name ∈ owners) then owners else owners ++ [name]]> idx.
Definition index_remove (name key : list Z) (idx : gmap (list Z) (list (list Z))) : gmap (list Z) (list (list Z)) :=
  match idx !! key with
  | Some owners =>
      let owners := filter (λ owner, owner ≠ name) owners in
      if bool_decide (owners = []) then delete key idx else <[key := owners]> idx
  | None => idx
  end.

Definition remove_inner (name : list Z) : pool_m (option MempoolItem) :=
  m ← pool_get;
  match items m !! name with
  | None => mret None
  | Some item =>
      _ ← pool_modify (λ m,
        m <| items := delete name (items m) |>
          <| total_cost := sat_sub (total_cost m) (item_cost item) |>
          <| total_fee := sat_sub (total_fee m) (item_fee item) |>
          <| by_coin := foldl (λ idx key, index_remove name key idx) (by_coin m) (index_keys item) |>);
      mret (Some item)
  end.
Definition remove (name : list Z) : pool_m (option MempoolItem) :=
  r ← remove_inner name;
  match r with
  | None => mret None
  | Some item =>
      m ← pool_get;
      e ← pool_lift (expect (remove_mempool_item (item_cost item) (item_fee item) (item_height_added item) (total_cost m) (fee_estimator m)));
      _ ← pool_modify (λ m, m <| fee_estimator := e |>);
      mret (Some item)
  end.
Definition remove_all (names : list (list Z)) : pool_m unit := pool_for names (λ name, _ ← remove name; mret tt).

(** ** Capacity *)
Definition at_full_capacity (m : Mempool) (cost : Z) : bool := max_total_cost m <? sat_addu 64 (total_cost m) cost.

(** [fee_per_cost ASC, seq DESC]; [priority DESC, seq ASC] *)
Definition then_cmp (a b : comparison) : comparison := match a with Eq => b | _ => a end.
Definition not_gt (c : comparison) : bool := match c with Gt => false | _ => true end.
Definition rate_asc (a b : f64 * Z * Z) : bool := not_gt (then_cmp (f64_cmp a.1.1 b.1.1) (b.1.2 ?= a.1.2)).
Definition priority_desc {A} (a b : A * f64 * Z * Z) : bool := not_gt (then_cmp (f64_cmp b.1.1.2 a.1.1.2) (a.1.2 ?= b.1.2)).

Fixpoint min_rate_loop (m : Mempool) (cost current_cost : Z) (l : list (f64 * Z * Z)) : res MempoolError.t (option f64) :=
  match l with
  | [] => Ok None
  | (fee_per_cost, _, item_cost) :: l =>
      current_cost ← chk 64 (current_cost - item_cost);
      if sat_addu 64 current_cost cost <=? max_total_cost m then Ok (Some fee_per_cost)
      else min_rate_loop m cost current_cost l
  end.
Definition get_min_fee_rate (m : Mempool) (cost : Z) : res MempoolError.t (option f64) :=
  if negb (at_full_capacity m cost) then Ok (Some f64_zero) else
  let candidates := map (λ '(_, i), (fee_per_cost i, item_seq i, item_cost i)) (map_iter (items m)) in
  min_rate_loop m cost (total_cost m) (merge_sort rate_asc candidates).
Definition is_fee_enough (m : Mempool) (fees cost : Z) : res MempoolError.t bool :=
  if cost =? 0 then Ok false else
  if negb (at_full_capacity m cost) then Ok true else
  let fees_per_cost := f64_div (f64_of fees) (f64_of cost) in
  if f64_lt fees_per_cost NONZERO_FEE_MINIMUM_FPC then Ok false else
  r ← get_min_fee_rate m cost;
  Ok (is_some_and r (λ min_fee_rate, f64_lt min_fee_rate fees_per_cost)).

(** The items with their priorities. *)
Fixpoint priorities (l : list MempoolItem) : res MempoolError.t (list (list Z * f64 * Z * Z)) :=
  match l with
  | [] => Ok []
  | i :: l => p ← fee_per_virtual_cost i; rest ← priorities l; Ok ((item_name i, p, item_seq i, item_cost i) :: rest)
  end.

(** ** [add_to_pool] *)
Definition expires_soon (block_cutoff time_cutoff : Z) (tl : EffectiveTimelocks) : bool :=
  is_some_and (assert_before_height tl) (λ h, h <? block_cutoff) || is_some_and (assert_before_seconds tl) (λ s, s <? time_cutoff).

(** The rows with the running sum of their costs. *)
Fixpoint cumulate (cumulative : Z) (l : list (list Z * f64 * Z * Z)) : list (list Z * f64 * Z) :=
  match l with
  | [] => []
  | (name, priority, _, item_cost) :: l =>
      let cumulative := sat_addu 64 cumulative item_cost in (name, priority, cumulative) :: cumulate cumulative l
  end.
(** The loop over the rows from the lowest priority; [None] aborts. *)
Fixpoint expiring_victims (budget cost : Z) (incoming_priority : f64) (rows : list (list Z * f64 * Z)) (to_remove : list (list Z)) :
    option (list (list Z)) :=
  match rows with
  | [] => Some to_remove
  | (name, priority, cumulative_cost) :: rows =>
      if sat_addu 64 cumulative_cost cost <=? budget then Some to_remove
      else if f64_lt incoming_priority priority then None
      else expiring_victims budget cost incoming_priority rows (to_remove ++ [name])
  end.
(** The rows past the running total that fits. *)
Fixpoint full_victims (budget running : Z) (rows : list (list Z * f64 * Z * Z)) : list (list Z) :=
  match rows with
  | [] => []
  | (name, _, _, item_cost) :: rows =>
      let running := sat_addu 64 running item_cost in
      if budget <? running then name :: full_victims budget running rows else full_victims budget running rows
  end.

Definition sweep_expiring (item : MempoolItem) : pool_m unit :=
  m ← pool_get;
  let '(peak_height, peak_timestamp) := default (0, 0) (peak m) in
  let soon := expires_soon (sat_addu 32 peak_height EXPIRING_BLOCK_CUTOFF) (sat_addu 64 peak_timestamp EXPIRING_TIME_CUTOFF) in
  if soon (item_timelocks item) then
    rows ← pool_lift (priorities (filter (λ i, soon (item_timelocks i) = true) (map_iter (items m)).*2));
    let rows := cumulate 0 (merge_sort priority_desc rows) in
    incoming_priority ← pool_lift (fee_per_virtual_cost item);
    match expiring_victims (max_block_clvm_cost m) (item_cost item) incoming_priority (rev rows) [] with
    | None => pool_err MempoolError.FeeTooLow
    | Some to_remove => remove_all to_remove
    end
  else mret tt.

Definition evict_for (item : MempoolItem) : pool_m unit :=
  m ← pool_get;
  if max_total_cost m <? sat_addu 64 (total_cost m) (item_cost item) then
    rows ← pool_lift (priorities (map_iter (items m)).*2);
    remove_all (full_victims (sat_sub (max_total_cost m) (item_cost item)) 0 (merge_sort priority_desc rows))
  else mret tt.

Definition insert_item (item : MempoolItem) : pool_m unit :=
  let name := item_name item in
  _ ← pool_modify (λ m, m <| by_coin := foldl (λ idx key, index_add name key idx) (by_coin m) (index_keys item) |>);
  m ← pool_get;
  cost ← pool_lift (chk 64 (total_cost m + item_cost item));
  _ ← pool_modify (λ m, m <| total_cost := cost |>);
  fee ← pool_lift (chk 64 (total_fee m + item_fee item));
  _ ← pool_modify (λ m, m <| total_fee := fee |>);
  e ← pool_lift (expect (add_mempool_item (item_cost item) (item_fee item) (item_height_added item) cost (fee_estimator m)));
  pool_modify (λ m, m <| fee_estimator := e |> <| items := <[name := item]> (items m) |>).

Definition add_to_pool (item : MempoolItem) : pool_m unit :=
  _ ← sweep_expiring item;
  _ ← evict_for item;
  insert_item item.

(** ** [can_replace] *)
Definition fold_min (a b : option Z) : option Z :=
  match a, b with Some a, Some b => Some (Z.min a b) | Some a, None => Some a | None, b => b end.

Record replaced := {
  conflicting_fees : Z;
  conflicting_cost : Z;
  replaced_height : Z;
  replaced_before_height : option Z;
  replaced_before_seconds : option Z;
  existing_ff_spends : gset (list Z);
  existing_dedup_spends : gset (list Z);
}.
(** The loop over the conflicting items; [None] is [return false]. *)
Fixpoint fold_replaced (m : Mempool) (new_removals : gset (list Z)) (l : list (list Z)) (r : replaced) : option replaced :=
  match l with
  | [] => Some r
  | name :: l =>
      match items m !! name with
      | None => None
      | Some item =>
          if forallb (λ id, bool_decide (id ∈ new_removals)) (item_removals item) then
            fold_replaced m new_removals l {|
              conflicting_fees := sat_addu 64 (conflicting_fees r) (item_fee item);
              conflicting_cost := sat_addu 64 (conflicting_cost r) (item_cost item);
              replaced_height := Z.max (replaced_height r) (assert_height (item_timelocks item));
              replaced_before_height := fold_min (replaced_before_height r) (assert_before_height (item_timelocks item));
              replaced_before_seconds := fold_min (replaced_before_seconds r) (assert_before_seconds (item_timelocks item));
              existing_ff_spends := existing_ff_spends r ∪ list_to_set (map spend_id (filter (λ b, has_lineage b = true) (item_coin_spends item)));
              existing_dedup_spends := existing_dedup_spends r ∪ list_to_set (map spend_id (filter (λ b, eligible_for_dedup b = true) (item_coin_spends item)));
            |}
          else None
      end
  end.
Definition can_replace (m : Mempool) (conflicting : list (list Z)) (new_removals : gset (list Z)) (new_fee new_cost : Z)
    (new_timelocks : EffectiveTimelocks) (new_coin_spends : list BundleCoinSpend) : bool :=
  match fold_replaced m new_removals conflicting
    {| conflicting_fees := 0; conflicting_cost := 0; replaced_height := 0; replaced_before_height := None;
       replaced_before_seconds := None; existing_ff_spends := ∅; existing_dedup_spends := ∅ |} with
  | None => false
  | Some r =>
      if new_fee * conflicting_cost r <=? conflicting_fees r * new_cost then false else
      if sat_sub new_fee (conflicting_fees r) <? MEMPOOL_MIN_FEE_INCREASE then false else
      if negb (assert_height new_timelocks =? replaced_height r) ||
         negb (bool_decide (assert_before_height new_timelocks = replaced_before_height r)) ||
         negb (bool_decide (assert_before_seconds new_timelocks = replaced_before_seconds r)) then false else
      forallb (λ id, is_some_and (find_spend_of new_coin_spends id) has_lineage) (set_iter (existing_ff_spends r)) &&
      forallb (λ id, is_some_and (find_spend_of new_coin_spends id) eligible_for_dedup) (set_iter (existing_dedup_spends r))
  end.

(** ** The two caches of bundles *)
Definition bundle_fee (conds : SpendBundleConditions) : Z := Z.min U64_MAX (sat_sub (removal_amount conds) (addition_amount conds)).

(** [max_by_key]: the last of the entries with the highest key. *)
Definition worst_pending (l : list (list Z * PendingEntry)) : option (list Z * PendingEntry) :=
  foldl (λ best x,
    match best with
    | Some b => if pending_assert_height b.2 <=? pending_assert_height x.2 then Some x else Some b
    | None => Some x
    end) None l.
Definition park_pending (name : list Z) (bundle : SpendBundle) (conds : SpendBundleConditions) (height : Z) (m : Mempool) : Mempool :=
  let entry := {| pending_bundle := bundle; pending_conds := conds; pending_fee := bundle_fee conds;
                  pending_cost := Z.max (conds_cost conds) 1; pending_assert_height := height |} in
  let parked := if (PENDING_CACHE_CAP <=? size (pending m))%nat
                then match worst_pending (map_iter (pending m)) with Some (k, _) => delete k (pending m) | None => pending m end
                else pending m in
  m <| pending := <[name := entry]> parked |>.

(** [while self.conflict_cost > max || self.conflict.len() > MAX_SIZE] *)
Fixpoint trim_conflicts (fuel : nat) (m : Mempool) : Mempool :=
  match fuel with
  | O => m
  | S fuel =>
      if (conflict_cache_max_cost m <? conflict_cost m) || (CONFLICT_CACHE_MAX_SIZE <? size (conflict m))%nat then
        match conflict_order m with
        | [] => m
        | oldest :: order =>
            let m := m <| conflict_order := order |> in
            match conflict m !! oldest with
            | Some evicted =>
                trim_conflicts fuel (m <| conflict := delete oldest (conflict m) |>
                                       <| conflict_cost := sat_sub (conflict_cost m) (conflict_entry_cost evicted) |>)
            | None => trim_conflicts fuel m
            end
        end
      else m
  end.
Definition cache_conflict (name : list Z) (bundle : SpendBundle) (conds : SpendBundleConditions) (fee cost : Z) (m : Mempool) : Mempool :=
  if bool_decide (is_Some (conflict m !! name)) then m else
  let entry := {| conflict_bundle := bundle; conflict_conds := conds; conflict_fee := fee; conflict_entry_cost := cost |} in
  let m := m <| conflict := <[name := entry]> (conflict m) |> <| conflict_order := conflict_order m ++ [name] |>
             <| conflict_cost := sat_addu 64 (conflict_cost m) cost |> in
  trim_conflicts (length (conflict_order m)) m.
Definition drain_conflict : pool_m (list (list Z * ConflictEntry)) :=
  m ← pool_get;
  _ ← pool_modify (λ m, m <| conflict_order := [] |> <| conflict_cost := 0 |> <| conflict := ∅ |>);
  mret (map_iter (conflict m)).

(** ** [admit] *)
Fixpoint join_spends (store : CoinStore) (conds : SpendBundleConditions) (l : list CoinSpend) : res MempoolError.t (list BundleCoinSpend) :=
  match l with
  | [] => Ok []
  | s :: l =>
      let id := coin_id (cs_coin s) in
      spend_conds ← ok_or (List.find (λ c, bool_decide (spend_coin_id c = id)) (spends conds)) MempoolError.InvalidSpendBundle;
      let dedup := negb (Z.land (flags spend_conds) ELIGIBLE_FOR_DEDUP =? 0) in
      _ ← (if dedup && negb (is_clvm_canonical (solution s)) then Err (MempoolError.NonCanonicalSolution id) else Ok tt);
      lineage ← (if negb (Z.land (flags spend_conds) ELIGIBLE_FOR_FF =? 0) && supports_fast_forward s
                 then from_store (get_unspent_lineage_info store (spend_puzzle_hash spend_conds)) else Ok None);
      rest ← join_spends store conds l;
      Ok ({| coin_spend := s; eligible_for_dedup := dedup;
             spend_additions := map (λ c, {| parent_coin_info := id; puzzle_hash := nc_puzzle_hash c; amount := nc_amount c |}) (create_coin spend_conds);
             spend_cost := sat_addu 64 (condition_cost spend_conds) (execution_cost spend_conds);
             latest_singleton_lineage := lineage |} :: rest)
  end.
Definition build_bundle_coin_spends (store : CoinStore) (bundle : SpendBundle) (conds : SpendBundleConditions) :
    res MempoolError.t (list BundleCoinSpend) :=
  match coin_spends bundle with
  | [] => Ok []
  | l =>
      out ← join_spends store conds l;
      if forallb has_lineage out then Err MempoolError.InvalidSpendBundle else Ok out
  end.

(** The records of the removals; an ephemeral one is confirmed after the peak. *)
Fixpoint removal_records (created : gset (list Z)) (peak_height peak_timestamp : Z) (l : list (list Z)) (records : gmap (list Z) (Z * Z)) :
    res MempoolError.t (gmap (list Z) (Z * Z)) :=
  match l with
  | [] => Ok records
  | id :: l =>
      match records !! id with
      | Some _ => removal_records created peak_height peak_timestamp l records
      | None =>
          if bool_decide (id ∈ created) then
            removal_records created peak_height peak_timestamp l (<[id := (sat_addu 32 peak_height 1, peak_timestamp)]> records)
          else Err (MempoolError.UnknownUnspent id)
      end
  end.

Definition check_fee (m : Mempool) (fee cost : Z) : res MempoolError.t unit :=
  if MEMPOOL_ITEM_FEE_LIMIT <? fee then Err MempoolError.FeeLimitExceeded else
  headroom ← chk 64 (I64_MAX - total_fee m);
  if headroom <=? fee then Err MempoolError.FeeLimitExceeded else
  if at_full_capacity m cost then
    let fees_per_cost := f64_div (f64_of fee) (f64_of cost) in
    if f64_lt fees_per_cost NONZERO_FEE_MINIMUM_FPC then Err MempoolError.FeeNearZero else
    r ← get_min_fee_rate m cost;
    match r with
    | None => Err MempoolError.FeeTooLow
    | Some min_fee_rate => if f64_le fees_per_cost min_fee_rate then Err MempoolError.FeeTooLow else Ok tt
    end
  else Ok tt.

Fixpoint check_unspent (l : list CoinRecord) (coin_spends : list BundleCoinSpend) : res MempoolError.t unit :=
  match l with
  | [] => Ok tt
  | r :: l =>
      let id := coin_id (record_coin r) in
      if record_spent r && negb (is_some_and (find_spend_of coin_spends id) has_lineage) then Err (MempoolError.DoubleSpend id)
      else check_unspent l coin_spends
  end.

(** The resident item's spend of the coin: direct, or a fast-forward one whose
    latest version is the coin. *)
Definition conflicting_spend (item : MempoolItem) (id : list Z) : option BundleCoinSpend :=
  match bundle_coin_spend item id with
  | Some b => Some b
  | None => List.find (λ b, is_some_and (latest_singleton_lineage b) (λ lineage, bool_decide (lineage_coin_id lineage = id))) (item_coin_spends item)
  end.
Definition spends_conflict (new : option BundleCoinSpend) (existing : BundleCoinSpend) : bool :=
  let new_ff := is_some_and new has_lineage in
  let new_dedup := is_some_and new eligible_for_dedup in
  if negb new_ff && negb new_dedup then true
  else if new_ff && negb (has_lineage existing) then true
  else if new_dedup && negb (eligible_for_dedup existing) then true
  else new_dedup && is_some_and new (λ b, negb (bool_decide (solution (coin_spend b) = solution (coin_spend existing)))).

Fixpoint conflicts_with (m : Mempool) (new : option BundleCoinSpend) (id : list Z) (owners : list (list Z)) (names : list (list Z)) :
    res MempoolError.t (list (list Z)) :=
  match owners with
  | [] => Ok names
  | owner :: owners =>
      if bool_decide (owner ∈ names) then conflicts_with m new id owners names else
      match items m !! owner with
      | None => conflicts_with m new id owners names
      | Some item =>
          match conflicting_spend item id with
          | None =>
              if bool_decide (item_coin_spends item = []) then conflicts_with m new id owners (names ++ [owner])
              else Err MempoolError.InvalidSpendBundle
          | Some existing => conflicts_with m new id owners (if spends_conflict new existing then names ++ [owner] else names)
          end
      end
  end.
Fixpoint find_conflicts (m : Mempool) (coin_spends : list BundleCoinSpend) (removals : list (list Z)) (names : list (list Z)) :
    res MempoolError.t (list (list Z)) :=
  match removals with
  | [] => Ok names
  | id :: removals =>
      match by_coin m !! id with
      | None => find_conflicts m coin_spends removals names
      | Some owners =>
          names ← conflicts_with m (find_spend_of coin_spends id) id owners names;
          find_conflicts m coin_spends removals names
      end
  end.

(** Conflicts: replaced if the new bundle may, cached otherwise. *)
Definition resolve_conflicts (name : list Z) (bundle : SpendBundle) (conds : SpendBundleConditions) (fee cost : Z)
    (removals : list (list Z)) (timelocks : EffectiveTimelocks) (coin_spends : list BundleCoinSpend) : pool_m unit :=
  m ← pool_get;
  conflict_names ← pool_lift (find_conflicts m coin_spends removals []);
  if bool_decide (conflict_names = []) then mret tt else
  if can_replace m conflict_names (list_to_set removals) fee cost timelocks coin_spends then remove_all conflict_names
  else
    let first := default (repeat 0 32) (List.find (λ c, bool_decide (is_Some (by_coin m !! c))) removals) in
    _ ← pool_modify (cache_conflict name bundle conds fee cost);
    pool_err (MempoolError.Conflict first).

Definition check_locks (name : list Z) (bundle : SpendBundle) (conds : SpendBundleConditions) (records : gmap (list Z) (Z * Z))
    (timelocks : EffectiveTimelocks) (peak_height peak_timestamp : Z) : pool_m unit :=
  if is_some_and (assert_before_height timelocks) (λ b, b <=? assert_height timelocks)
  then pool_err (MempoolError.ImpossibleTimelock name TimelockFailure.ImpossibleHeightConstraints) else
  if is_some_and (assert_before_seconds timelocks) (λ b, b <=? assert_seconds timelocks)
  then pool_err (MempoolError.ImpossibleTimelock name TimelockFailure.ImpossibleSecondsConstraints) else
  match check_time_locks records conds peak_height peak_timestamp with
  | Some (TimelockCheck.Park f) =>
      _ ← pool_modify (park_pending name bundle conds (assert_height timelocks));
      pool_err (MempoolError.Pending name f)
  | Some (TimelockCheck.Expired f) => pool_err (MempoolError.Expired name f)
  | Some (TimelockCheck.NotMet f) => pool_err (MempoolError.TimelockNotMet name f)
  | None => mret tt
  end.

Definition store_records_map (l : list CoinRecord) : gmap (list Z) (Z * Z) :=
  foldl (λ m r, <[coin_id (record_coin r) := (confirmed_block_index r, record_timestamp r)]> m) ∅ l.

(** After the early returns for a resident bundle, no peak, and the cost. *)
Definition admit_new (store : CoinStore) (bundle : SpendBundle) (conds : SpendBundleConditions) (name : list Z)
    (peak_height peak_timestamp : Z) : pool_m (list Z) :=
  let cost := conds_cost conds in
  let removals := removals_for_conditions conds in
  let created := list_to_set (map coin_id (additions_for_conditions conds [])) in
  coin_spends ← pool_lift (build_bundle_coin_spends store bundle conds);
  store_records ← pool_lift (from_store (get_coin_records store removals));
  records ← pool_lift (removal_records created peak_height peak_timestamp removals (store_records_map store_records));
  let fee := bundle_fee conds in
  m ← pool_get;
  _ ← pool_lift (check_fee m fee cost);
  _ ← pool_lift (check_unspent store_records coin_spends);
  let timelocks := effective_timelocks records conds in
  _ ← check_locks name bundle conds records timelocks peak_height peak_timestamp;
  _ ← resolve_conflicts name bundle conds fee cost removals timelocks coin_spends;
  m ← pool_get;
  let seq := next_seq m in
  next ← pool_lift (chk 64 (seq + 1));
  _ ← pool_modify (λ m, m <| next_seq := next |>);
  _ ← add_to_pool {| item_bundle := bundle; item_conds := conds; item_name := name; item_fee := fee; item_cost := cost;
                     item_spends := zlen (spends conds); item_removals := removals; item_coin_spends := coin_spends;
                     item_timelocks := timelocks; item_height_added := peak_height; item_seq := seq |};
  mret name.

Definition admit_bundle (store : CoinStore) (bundle : SpendBundle) (conds : SpendBundleConditions) : pool_m (list Z) :=
  name ← pool_lift (match bundle_name bundle with Ok n => Ok n | Err _ => Err MempoolError.Name | Panic => Panic end);
  m ← pool_get;
  if bool_decide (is_Some (items m !! name)) then mret name else
  match peak m with
  | None => pool_err MempoolError.NoPeak
  | Some (peak_height, peak_timestamp) =>
      let cost := conds_cost conds in
      if cost =? 0 then pool_err MempoolError.ZeroCost else
      if max_tx_cost m <? cost then pool_err (MempoolError.CostExceedsMax cost) else
      admit_new store bundle conds name peak_height peak_timestamp
  end.

(** ** [new_peak] *)
Record NewPeakResult := {
  dropped : Z;
  expired : Z;
  admitted : list (list Z * Z * Z);
}.

Definition is_expired (height timestamp : Z) (item : MempoolItem) : bool :=
  is_some_and (assert_before_height (item_timelocks item)) (λ b, b <=? height) ||
  is_some_and (assert_before_seconds (item_timelocks item)) (λ b, b <=? timestamp).

(** The newest version of the singleton is [id]. *)
Definition lineage_is (id : list Z) (b : BundleCoinSpend) : bool :=
  is_some_and (latest_singleton_lineage b) (λ lineage, bool_decide (lineage_coin_id lineage = id)).

(** What the loop over the spent coins collects. *)
Record touched := {
  to_remove : gset (list Z);
  included : list (Z * Z * Z);
  deferred_ff : list (list Z * list Z);
}.
Definition touch (m : Mempool) (spend : list Z) (t : touched) (owner : list Z) : touched :=
  if bool_decide (owner ∈ to_remove t) then t else
  match items m !! owner with
  | None => t
  | Some item =>
      let defer := {| to_remove := to_remove t; included := included t; deferred_ff := deferred_ff t ++ [(spend, owner)] |} in
      let include := {| to_remove := {[owner]} ∪ to_remove t;
                        included := included t ++ [(item_cost item, item_fee item, item_height_added item)];
                        deferred_ff := deferred_ff t |} in
      match bundle_coin_spend item spend with
      | Some b => if has_lineage b then defer else include
      | None => if existsb (lineage_is spend) (item_coin_spends item) then defer else include
      end
  end.
Definition touch_spent (m : Mempool) (spent : list (list Z)) : touched :=
  foldl (λ t spend, foldl (touch m spend) t (default [] (by_coin m !! spend)))
    {| to_remove := ∅; included := []; deferred_ff := [] |} spent.

(** Phase A: the lineages to look up, as owner, spent coin and puzzle hash. *)
Definition ff_lookups (m : Mempool) (st : list (list Z * list Z * list Z) * gset (list Z)) (d : list Z * list Z) :
    list (list Z * list Z * list Z) * gset (list Z) :=
  let '(lookups, removed) := st in
  let '(spend, owner) := d in
  if bool_decide (owner ∈ removed) then st else
  match items m !! owner with
  | None => st
  | Some item =>
      let found := filter (λ b, lineage_is spend b = true) (item_coin_spends item) in
      if bool_decide (found = []) then (lookups, {[owner]} ∪ removed)
      else (lookups ++ map (λ b, (owner, spend, puzzle_hash (cs_coin (coin_spend b)))) found, removed)
  end.

(** Phase B: the newest version for each puzzle hash. *)
Definition cache_lineage (store : CoinStore) (ph : list Z) (cache : gmap (list Z) (option UnspentLineageInfo)) :
    res MempoolError.t (gmap (list Z) (option UnspentLineageInfo)) :=
  match cache !! ph with
  | Some _ => Ok cache
  | None => lineage ← from_store (get_unspent_lineage_info store ph); Ok (<[ph := lineage]> cache)
  end.
Fixpoint lookup_lineages (store : CoinStore) (l : list (list Z * list Z * list Z)) (cache : gmap (list Z) (option UnspentLineageInfo)) :
    res MempoolError.t (gmap (list Z) (option UnspentLineageInfo)) :=
  match l with
  | [] => Ok cache
  | (_, _, ph) :: l => cache ← cache_lineage store ph cache; lookup_lineages store l cache
  end.

(** Phase C: rebase the items onto the new versions. *)
Definition rebase_spend (spend : list Z) (lineage : UnspentLineageInfo) (b : BundleCoinSpend) : BundleCoinSpend :=
  if lineage_is spend b then b <| latest_singleton_lineage := Some lineage |> else b.
Definition rebase_item (spend : list Z) (lineage : UnspentLineageInfo) (item : MempoolItem) : MempoolItem :=
  item <| item_coin_spends := map (rebase_spend spend lineage) (item_coin_spends item) |>.
Record rebasing := {
  rebased_items : gmap (list Z) MempoolItem;
  rebase_removed : gset (list Z);
  index_updates : list (list Z * list Z * list Z);
}.
Definition rebase_step (cache : gmap (list Z) (option UnspentLineageInfo)) (r : rebasing) (l : list Z * list Z * list Z) : rebasing :=
  let '(owner, spend, ph) := l in
  if bool_decide (owner ∈ rebase_removed r) then r else
  match default None (cache !! ph) with
  | None => {| rebased_items := rebased_items r; rebase_removed := {[owner]} ∪ rebase_removed r; index_updates := index_updates r |}
  | Some lineage =>
      {| rebased_items := match rebased_items r !! owner with
                          | Some item => <[owner := rebase_item spend lineage item]> (rebased_items r)
                          | None => rebased_items r
                          end;
         rebase_removed := rebase_removed r;
         index_updates := index_updates r ++ [(lineage_coin_id lineage, spend, owner)] |}
  end.
(** Move an owner from one coin to another in the index. *)
Definition index_move (owner current new : list Z) (idx : gmap (list Z) (list (list Z))) : gmap (list Z) (list (list Z)) :=
  index_add owner new (index_remove owner current idx).

(** [self.admit(..).await.is_ok()] *)
Definition try_admit (store : CoinStore) (bundle : SpendBundle) (conds : SpendBundleConditions) : pool_m bool := λ m,
  match admit_bundle store bundle conds m with
  | (m, Ok _) => (m, Ok true)
  | (m, Err _) => (m, Ok false)
  | (m, Panic) => (m, Panic)
  end.
Fixpoint retry_pending (store : CoinStore) (names : list (list Z)) : pool_m (list (list Z * Z * Z)) :=
  match names with
  | [] => mret []
  | name :: names =>
      m ← pool_get;
      match pending m !! name with
      | None => retry_pending store names
      | Some entry =>
          _ ← pool_modify (λ m, m <| pending := delete name (pending m) |>);
          ok ← try_admit store (pending_bundle entry) (pending_conds entry);
          rest ← retry_pending store names;
          mret (if (ok : bool) then (name, pending_cost entry, pending_fee entry) :: rest else rest)
      end
  end.
Fixpoint retry_conflicts (store : CoinStore) (l : list (list Z * ConflictEntry)) : pool_m (list (list Z * Z * Z)) :=
  match l with
  | [] => mret []
  | (name, entry) :: l =>
      ok ← try_admit store (conflict_bundle entry) (conflict_conds entry);
      rest ← retry_conflicts store l;
      mret (if (ok : bool) then (name, conflict_entry_cost entry, conflict_fee entry) :: rest else rest)
  end.

(** The items the block spent or invalidated leave; fast-forward spends are
    rebased.  Returns the number of items dropped. *)
Definition apply_spent (store : CoinStore) (height : Z) (spent : list (list Z)) : pool_m Z :=
  m ← pool_get;
  let t := touch_spent m spent in
  let '(lookups, removed) := foldl (ff_lookups m) ([], to_remove t) (deferred_ff t) in
  cache ← pool_lift (lookup_lineages store lookups ∅);
  let r := foldl (rebase_step cache) {| rebased_items := items m; rebase_removed := removed; index_updates := [] |} lookups in
  _ ← pool_modify (λ m, m <| items := rebased_items r |>
    <| by_coin := foldl (λ idx '(new, current, owner), index_move owner current new idx) (by_coin m) (index_updates r) |>);
  _ ← pool_for (set_iter (rebase_removed r)) (λ name, _ ← pool_modify (remove_seen name); _ ← remove_inner name; mret tt);
  m ← pool_get;
  e ← pool_lift (expect (new_block height (included t) (total_cost m) (fee_estimator m)));
  _ ← pool_modify (λ m, m <| fee_estimator := e |>);
  mret (Z.of_nat (size (rebase_removed r))).

Definition new_peak (store : CoinStore) (height timestamp : Z) (spent : list (list Z)) : pool_m NewPeakResult :=
  _ ← pool_modify (set_peak height timestamp);
  m ← pool_get;
  let expired_names := map item_name (filter (λ i, is_expired height timestamp i = true) (map_iter (items m)).*2) in
  _ ← remove_all expired_names;
  dropped ← apply_spent store height spent;
  m ← pool_get;
  let eligible := map fst (filter (λ e, pending_assert_height e.2 ≤ height) (map_iter (pending m))) in
  from_pending ← retry_pending store eligible;
  entries ← drain_conflict;
  from_conflict ← retry_conflicts store entries;
  mret {| dropped := dropped; expired := zlen expired_names; admitted := from_pending ++ from_conflict |}.

(** ** [revalidate_for_reorg] *)

Definition ff_spend (item : MempoolItem) (id : list Z) : option BundleCoinSpend :=
  match bundle_coin_spend item id with
  | Some b => if has_lineage b then Some b else None
  | None => None
  end.
(** The loop over an item's removals: [None] when the item is dead, otherwise
    the fast-forward spends to rebase. *)
Fixpoint live_removals (item : option MempoolItem) (by_id : gmap (list Z) bool) (created : gset (list Z)) (l : list (list Z)) :
    option (list (list Z * list Z)) :=
  match l with
  | [] => Some []
  | id :: l =>
      let ff := match item with
                | Some item => ff_spend item id
                | None => None
                end in
      match by_id !! id with
      | None => if bool_decide (id ∈ created) then live_removals item by_id created l else None
      | Some spent =>
          match ff with
          | Some b => rest ← live_removals item by_id created l; Some ((id, puzzle_hash (cs_coin (coin_spend b))) :: rest)
          | None => if (spent : bool) then None else live_removals item by_id created l
          end
      end
  end.
(** The newest versions the rebases need; [false] when one is gone. *)
Fixpoint rebases_live (store : CoinStore) (l : list (list Z * list Z)) (cache : gmap (list Z) (option UnspentLineageInfo)) :
    res MempoolError.t (gmap (list Z) (option UnspentLineageInfo) * bool) :=
  match l with
  | [] => Ok (cache, true)
  | (_, ph) :: l =>
      cache ← cache_lineage store ph cache;
      match default None (cache !! ph) with
      | None => Ok (cache, false)
      | Some _ => rebases_live store l cache
      end
  end.
(** [iter_mut().find(..)], then the assignment *)
Fixpoint set_lineage (id : list Z) (lineage : UnspentLineageInfo) (l : list BundleCoinSpend) : list BundleCoinSpend :=
  match l with
  | [] => []
  | b :: l => if bool_decide (spend_id b = id) then b <| latest_singleton_lineage := Some lineage |> :: l else b :: set_lineage id lineage l
  end.
Definition rebase_one (name : list Z) (cache : gmap (list Z) (option UnspentLineageInfo)) (r : list Z * list Z) (m : Mempool) : Mempool :=
  let '(id, ph) := r in
  match default None (cache !! ph) with
  | None => m
  | Some lineage =>
      match items m !! name with
      | None => m
      | Some item =>
          match bundle_coin_spend item id with
          | None => m
          | Some b =>
              let m := m <| items := <[name := item <| item_coin_spends := set_lineage id lineage (item_coin_spends item) |>]> (items m) |> in
              match latest_singleton_lineage b with
              | None => m
              | Some old =>
                  if bool_decide (lineage_coin_id old = lineage_coin_id lineage) then m
                  else m <| by_coin := index_move name (lineage_coin_id old) (lineage_coin_id lineage) (by_coin m) |>
              end
          end
      end
  end.

(** The loop over the snapshot: the cache of lineages and the names to drop. *)
Fixpoint revalidate_items (store : CoinStore) (l : list (list Z * list (list Z))) (cache : gmap (list Z) (option UnspentLineageInfo))
    (drop : list (list Z)) : pool_m (list (list Z)) :=
  match l with
  | [] => mret drop
  | (name, removals) :: l =>
      records ← pool_lift (from_store (get_coin_records store removals));
      let by_id := foldl (λ m r, <[coin_id (record_coin r) := record_spent r]> m) ∅ records in
      m ← pool_get;
      let created := match items m !! name with
                     | Some item => list_to_set (map coin_id (additions_for_conditions (item_conds item) []))
                     | None => ∅
                     end in
      match live_removals (items m !! name) by_id created removals with
      | None => revalidate_items store l cache (drop ++ [name])
      | Some rebases =>
          '(cache, live) ← pool_lift (rebases_live store rebases cache);
          if (live : bool) then
            _ ← pool_modify (λ m, foldl (λ m r, rebase_one name cache r m) m rebases);
            revalidate_items store l cache drop
          else revalidate_items store l cache (drop ++ [name])
      end
  end.
Definition revalidate_for_reorg (store : CoinStore) : pool_m Z :=
  _ ← pool_modify (λ m, m <| seen := ∅ |> <| seen_order := [] |>);
  m ← pool_get;
  drop ← revalidate_items store (map (λ '(_, i), (item_name i, item_removals i)) (map_iter (items m))) ∅ [];
  _ ← remove_all drop;
  mret (zlen drop).
End ops.
