(* ===== verification/MempoolInvariant.v ===== *)
(** * The mempool's invariant

    [pool_ok] says that the totals are the sums over the items, that they are
    within their bounds, that the index lists exactly the items that spend a
    coin, and that the three caches are within theirs.  [pool_invariant] shows
    it of every pool reachable by the methods of [Mempool], whatever the
    store answers, in whatever order hash maps are iterated. *)
From Stdlib Require Import ZArith Lia.
From stdpp Require Import base list numbers option gmap sets sorting.
From S2P Require Import Prelude Serialize ClvmNumber ClvmSexp Coin ClvmPath ClvmParser ClvmCanonical PotIterations Conditions SpendConditions BlockConditions BlockGenerator GeneratorProgram FastForward BlockValidation Float64 Mempool.

Open Scope Z_scope.

(** ** Sums over maps *)
Definition map_sum {A} (f : A → Z) (m : gmap (list Z) A) : Z := map_fold (λ _ x acc, f x + acc) 0 m.

Lemma map_sum_empty {A} (f : A → Z) : map_sum f ∅ = 0.
Proof. apply map_fold_empty. Qed.
Lemma map_sum_insert {A} (f : A → Z) m k x : m !! k = None → map_sum f (<[k := x]> m) = f x + map_sum f m.
Proof. intros Hk. unfold map_sum. apply (map_fold_insert_L (λ _ x acc, f x + acc) 0 k x m); [|done]. intros. lia. Qed.
Lemma map_sum_delete {A} (f : A → Z) m k x : m !! k = Some x → map_sum f (delete k m) = map_sum f m - f x.
Proof.
  intros Hk. rewrite <- (insert_delete_id m k x Hk) at 2. rewrite map_sum_insert by apply lookup_delete_eq. lia.
Qed.
Lemma map_sum_update {A} (f : A → Z) m k x y : m !! k = Some x → f y = f x → map_sum f (<[k := y]> m) = map_sum f m.
Proof.
  intros Hk Hf. rewrite <- insert_delete_eq, map_sum_insert by apply lookup_delete_eq.
  rewrite (map_sum_delete f m k x Hk). lia.
Qed.
Lemma sum_of_perm {A} (f : A → Z) l l' : l ≡ₚ l' → sum_of f l = sum_of f l'.
Proof. unfold sum_of. induction 1; cbn; lia. Qed.
Lemma map_sum_list {A} (f : A → Z) m (l : list (list Z * A)) : l ≡ₚ map_to_list m → map_sum f m = sum_of (λ x, f x.2) l.
Proof.
  intros Hl. rewrite (sum_of_perm _ _ _ Hl). unfold map_sum, sum_of. rewrite map_fold_foldr.
  clear Hl. induction (map_to_list m) as [|[k x] l' IH]; cbn in *; lia.
Qed.
Lemma map_sum_nonneg {A} (f : A → Z) m : map_Forall (λ _ x, 0 ≤ f x) m → 0 ≤ map_sum f m.
Proof.
  intros Hm. rewrite (map_sum_list f m (map_to_list m)) by done. unfold sum_of.
  assert (Forall (λ x, 0 ≤ f x.2) (map_to_list m)) as Hl by (apply Forall_forall; intros [k x] Hx%elem_of_map_to_list; by apply (Hm k)).
  induction Hl; cbn; lia.
Qed.

(** ** The index *)
Definition owners (idx : gmap (list Z) (list (list Z))) (key : list Z) : list (list Z) := default [] (idx !! key).
(** No key without an owner, no owner twice. *)
Definition index_wf (idx : gmap (list Z) (list (list Z))) : Prop := map_Forall (λ _ l, l ≠ [] ∧ NoDup l) idx.

Lemma index_add_owners name key idx k n :
  n ∈ owners (index_add name key idx) k ↔ n ∈ owners idx k ∨ (n = name ∧ k = key).
Proof.
  unfold owners, index_add. destruct (decide (k = key)) as [->|Hne].
  - rewrite lookup_insert_eq. cbn. case_bool_decide as Hin; [naive_solver|].
    rewrite elem_of_app, list_elem_of_singleton. naive_solver.
  - rewrite lookup_insert_ne by done. naive_solver.
Qed.
Lemma index_add_wf name key idx : index_wf idx → index_wf (index_add name key idx).
Proof.
  intros Hw. unfold index_add. apply map_Forall_insert_2; [|done]. destruct (idx !! key) as [l|] eqn:Hl; cbn.
  - destruct (Hw _ _ Hl) as [Hne Hnd]. case_bool_decide as Hin; [done|]. split; [by destruct l|].
    apply NoDup_app. split; [done|]. split; [|apply NoDup_singleton]. intros x Hx ->%list_elem_of_singleton. done.
  - rewrite bool_decide_false by apply not_elem_of_nil. cbn. split; [done|apply NoDup_singleton].
Qed.

Lemma index_remove_owners name key idx k n :
  n ∈ owners (index_remove name key idx) k ↔ n ∈ owners idx k ∧ ¬ (n = name ∧ k = key).
Proof.
  unfold owners, index_remove. destruct (idx !! key) as [l|] eqn:Hl.
  - case_bool_decide as Hf; (destruct (decide (k = key)) as [->|Hne]; [rewrite ?lookup_delete_eq, ?lookup_insert_eq, ?Hl|
      rewrite ?lookup_delete_ne, ?lookup_insert_ne by done; naive_solver]); cbn.
    + split; [intros []%not_elem_of_nil|]. intros [Hn Hnn]. exfalso. eapply (not_elem_of_nil n). rewrite <- Hf.
      apply list_elem_of_filter. naive_solver.
    + rewrite list_elem_of_filter. naive_solver.
  - destruct (decide (k = key)) as [->|Hne]; [rewrite Hl; cbn; set_solver|naive_solver].
Qed.
Lemma index_remove_wf name key idx : index_wf idx → index_wf (index_remove name key idx).
Proof.
  intros Hw. unfold index_remove. destruct (idx !! key) as [l|] eqn:Hl; [|done]. case_bool_decide as Hf.
  - by apply map_Forall_delete.
  - apply map_Forall_insert_2; [|done]. split; [done|]. apply NoDup_filter. by destruct (Hw _ _ Hl).
Qed.

Lemma index_adds_owners name keys idx k n :
  n ∈ owners (foldl (λ idx key, index_add name key idx) idx keys) k ↔ n ∈ owners idx k ∨ (n = name ∧ k ∈ keys).
Proof.
  revert idx. induction keys as [|key keys IH]; intros idx; cbn [foldl]; [set_solver|].
  rewrite IH, index_add_owners, elem_of_cons. naive_solver.
Qed.
Lemma index_adds_wf name keys idx : index_wf idx → index_wf (foldl (λ idx key, index_add name key idx) idx keys).
Proof. revert idx. induction keys as [|key keys IH]; intros idx Hw; cbn [foldl]; [done|]. by apply IH, index_add_wf. Qed.
Lemma index_removes_owners name keys idx k n :
  n ∈ owners (foldl (λ idx key, index_remove name key idx) idx keys) k ↔ n ∈ owners idx k ∧ ¬ (n = name ∧ k ∈ keys).
Proof.
  revert idx. induction keys as [|key keys IH]; intros idx; cbn [foldl]; [set_solver|].
  rewrite IH, index_remove_owners, elem_of_cons. naive_solver.
Qed.
Lemma index_removes_wf name keys idx : index_wf idx → index_wf (foldl (λ idx key, index_remove name key idx) idx keys).
Proof. revert idx. induction keys as [|key keys IH]; intros idx Hw; cbn [foldl]; [done|]. by apply IH, index_remove_wf. Qed.
Lemma index_move_owners name current new idx k n :
  n ∈ owners (index_move name current new idx) k ↔ (n ∈ owners idx k ∧ ¬ (n = name ∧ k = current)) ∨ (n = name ∧ k = new).
Proof. unfold index_move. by rewrite index_add_owners, index_remove_owners. Qed.
Lemma index_move_wf name current new idx : index_wf idx → index_wf (index_move name current new idx).
Proof. intros. unfold index_move. by apply index_add_wf, index_remove_wf. Qed.

(** The items whose names are not in a list. *)
Definition without (names : list (list Z)) (its : gmap (list Z) MempoolItem) : gmap (list Z) MempoolItem :=
  foldl (λ its name, delete name its) its names.
Lemma without_lookup names its n i : without names its !! n = Some i ↔ n ∉ names ∧ its !! n = Some i.
Proof.
  revert its. induction names as [|x names IH]; intros its; cbn [without foldl]; [set_solver|].
  fold (without names (delete x its)). rewrite IH, lookup_delete_Some, not_elem_of_cons. naive_solver.
Qed.

(** ** The invariant *)
Section invariant.
Context `{BigIntBytes, Sha256, HashOrderOk, EstimatorOk}.
(** The puzzle hash of the coin with an id. *)
Context (coin_hash : list Z → list Z).

(** A store answers a query for the newest version of a singleton with a coin
    of that puzzle hash. *)
Definition store_ok (store : CoinStore) : Prop :=
  ∀ ph l, get_unspent_lineage_info store ph = Some (Some l) → coin_hash (lineage_coin_id l) = ph.

(** The conditions are the bundle's: what [conditions_from_spend_bundle]
    returns. *)
Record genuine (bundle : SpendBundle) (conds : SpendBundleConditions) : Prop := {
  gn_cost : 0 ≤ conds_cost conds;
  gn_spends : zlen (spends conds) * SPEND_PENALTY_COST < 2 ^ 64;
  gn_matched s : coin_spends bundle ≠ [] → s ∈ spends conds → ∃ cs, cs ∈ coin_spends bundle ∧ coin_id (cs_coin cs) = spend_coin_id s;
  gn_hash cs s : cs ∈ coin_spends bundle → s ∈ spends conds → coin_id (cs_coin cs) = spend_coin_id s →
    spend_puzzle_hash s = puzzle_hash (cs_coin cs);
}.

Definition lineage_ok (b : BundleCoinSpend) : Prop :=
  ∀ l, latest_singleton_lineage b = Some l → coin_hash (lineage_coin_id l) = puzzle_hash (cs_coin (coin_spend b)).
Record item_ok (max_tx : Z) (name : list Z) (i : MempoolItem) : Prop := {
  io_name : item_name i = name;
  io_cost : 0 < item_cost i ≤ max_tx;
  io_fee : 0 ≤ item_fee i ≤ MEMPOOL_ITEM_FEE_LIMIT;
  io_spends : 0 ≤ item_spends i * SPEND_PENALTY_COST < 2 ^ 64;
  io_height : 0 ≤ item_height_added i;
  io_seq : 0 ≤ item_seq i;
  io_matched id : item_coin_spends i ≠ [] → id ∈ item_removals i → is_Some (bundle_coin_spend i id);
  io_lineage : Forall lineage_ok (item_coin_spends i);
}.

(** The index lists an item under a key exactly when the key is one of its. *)
Definition indexed (its : gmap (list Z) MempoolItem) (idx : gmap (list Z) (list (list Z))) : Prop :=
  index_wf idx ∧ ∀ k n, n ∈ owners idx k ↔ ∃ i, its !! n = Some i ∧ k ∈ index_keys i.

(** A removal that is not a fast-forward spend. *)
Definition plain (i : MempoolItem) (k : list Z) : Prop :=
  k ∈ item_removals i ∧ ∀ b, bundle_coin_spend i k = Some b → latest_singleton_lineage b = None.
(** Two items may spend a coin when the spends can be deduplicated. *)
Definition shared (i i' : MempoolItem) (c : list Z) : Prop :=
  ∃ b b', bundle_coin_spend i c = Some b ∧ bundle_coin_spend i' c = Some b' ∧
    eligible_for_dedup b = true ∧ eligible_for_dedup b' = true ∧ solution (coin_spend b) = solution (coin_spend b').
Definition exclusive (its : gmap (list Z) MempoolItem) : Prop :=
  ∀ n n' i i' c, its !! n = Some i → its !! n' = Some i' → n ≠ n' → plain i c → plain i' c → shared i i' c.

Lemma plain_key i k : plain i k → k ∈ index_keys i.
Proof.
  intros [Hk Hp]. apply list_elem_of_fmap. exists k. split; [|done]. unfold index_key. fold (bundle_coin_spend i k).
  destruct (bundle_coin_spend i k) as [b|] eqn:Hb; [|done]. by rewrite (Hp b).
Qed.
Lemma shared_sym i i' c : shared i i' c → shared i' i c.
Proof. intros (b & b' & ? & ? & ? & ? & ?). by exists b', b. Qed.
Lemma exclusive_insert its n i :
  exclusive its → (∀ n' i' c, its !! n' = Some i' → n' ≠ n → plain i c → plain i' c → shared i i' c) → exclusive (<[n := i]> its).
Proof.
  intros He Hi n1 n2 i1 i2 c H1' H2' Hne. apply lookup_insert_Some in H1' as [[<- <-]|[Hne1 H1']];
    apply lookup_insert_Some in H2' as [[<- <-]|[Hne2 H2']]; [done| | |by eapply He].
  - by eapply Hi.
  - intros. eapply shared_sym, Hi; eauto.
Qed.

(** [adds] counts the items the estimator was told of. *)
Record pool_ok (adds : Z) (m : Mempool) : Prop := {
  po_items : map_Forall (λ n i, item_ok (max_tx_cost m) n i ∧ item_seq i < next_seq m) (items m);
  po_seqs n n' i i' : items m !! n = Some i → items m !! n' = Some i' → item_seq i = item_seq i' → n = n';
  po_cost : total_cost m = map_sum item_cost (items m);
  po_fee : total_fee m = map_sum item_fee (items m);
  po_max : total_cost m ≤ max_total_cost m;
  po_fee_max : total_fee m ≤ I64_MAX;
  po_limits : max_tx_cost m ≤ max_total_cost m < 2 ^ 64 - 1;
  po_index : indexed (items m) (by_coin m);
  po_peak h t : peak m = Some (h, t) → 0 ≤ h;
  po_seq : 0 ≤ adds ≤ next_seq m ∧ next_seq m < 2 ^ 64;
  po_estimator : estimator_inv adds (fee_estimator m);
  po_exclusive : exclusive (items m);
}.

Record caches_ok (m : Mempool) : Prop := {
  co_pending : (size (pending m) ≤ PENDING_CACHE_CAP)%nat;
  co_pending_entries : map_Forall (λ _ e, genuine (pending_bundle e) (pending_conds e)) (pending m);
  co_conflict : (size (conflict m) ≤ CONFLICT_CACHE_MAX_SIZE)%nat;
  co_conflict_entries : map_Forall (λ _ e, genuine (conflict_bundle e) (conflict_conds e) ∧ 0 ≤ conflict_entry_cost e) (conflict m);
  co_conflict_order : NoDup (conflict_order m) ∧ ∀ n, n ∈ conflict_order m ↔ is_Some (conflict m !! n);
  co_conflict_cost : conflict_cost m = map_sum conflict_entry_cost (conflict m);
  co_conflict_max : conflict_cost m ≤ conflict_cache_max_cost m;
  co_conflict_limit : 0 ≤ conflict_cache_max_cost m ∧ conflict_cache_max_cost m + max_tx_cost m < 2 ^ 64;
  co_seen : (length (seen_order m) ≤ SEEN_CACHE_SIZE)%nat;
  co_seen_order : NoDup (seen_order m) ∧ ∀ n, n ∈ seen_order m ↔ n ∈ seen m;
}.

(** What changes when items come and go. *)
Definition with_items (m : Mempool) its idx cost fee e : Mempool :=
  m <| items := its |> <| by_coin := idx |> <| total_cost := cost |> <| total_fee := fee |> <| fee_estimator := e |>.
Definition same_rest (m m' : Mempool) : Prop := ∃ its idx cost fee e, m' = with_items m its idx cost fee e.

Lemma same_rest_refl m : same_rest m m.
Proof. exists (items m), (by_coin m), (total_cost m), (total_fee m), (fee_estimator m). by destruct m. Qed.
Lemma same_rest_trans m1 m2 m3 : same_rest m1 m2 → same_rest m2 m3 → same_rest m1 m3.
Proof. intros (? & ? & ? & ? & ? & ->) (its & idx & c & f & e & ->). by exists its, idx, c, f, e. Qed.
Lemma same_rest_caches m m' : same_rest m m' → caches_ok m → caches_ok m'.
Proof. intros (? & ? & ? & ? & ? & ->) Hc. destruct Hc. by constructor. Qed.

Lemma indexed_delete its idx name i :
  indexed its idx → its !! name = Some i →
  indexed (delete name its) (foldl (λ idx key, index_remove name key idx) idx (index_keys i)).
Proof.
  intros [Hw Hi] Hn. split; [by apply index_removes_wf|]. intros k n. rewrite index_removes_owners, Hi. split.
  - intros [(i' & Hi' & Hk) Hnn]. destruct (decide (n = name)) as [->|Hne].
    + assert (i' = i) as -> by congruence. naive_solver.
    + exists i'. by rewrite lookup_delete_ne.
  - intros (i' & Hi' & Hk). destruct (decide (n = name)) as [->|Hne]; [by rewrite lookup_delete_eq in Hi'|].
    rewrite lookup_delete_ne in Hi' by done. naive_solver.
Qed.

Lemma indexed_insert its idx i :
  indexed its idx → its !! item_name i = None →
  indexed (<[item_name i := i]> its) (foldl (λ idx key, index_add (item_name i) key idx) idx (index_keys i)).
Proof.
  intros [Hw Hi] Hn. split; [by apply index_adds_wf|]. intros k n. rewrite index_adds_owners, Hi. split.
  - intros [(i' & Hi' & Hk)|[-> Hk]]; [|exists i; by rewrite lookup_insert_eq].
    exists i'. rewrite lookup_insert_ne; [done|]. congruence.
  - intros (i' & Hi' & Hk). destruct (decide (n = item_name i)) as [->|Hne].
    + rewrite lookup_insert_eq in Hi'. naive_solver.
    + rewrite lookup_insert_ne in Hi' by done. naive_solver.
Qed.

(** ** Removing items *)
Lemma pool_sums adds m name i : pool_ok adds m → items m !! name = Some i → item_cost i ≤ total_cost m ∧ item_fee i ≤ total_fee m.
Proof.
  intros Hm Hi. rewrite (po_cost adds m Hm), (po_fee adds m Hm).
  assert (Hd : map_Forall (λ n i, item_ok (max_tx_cost m) n i ∧ item_seq i < next_seq m) (delete name (items m))) by (apply map_Forall_delete, Hm).
  pose proof (map_sum_delete item_cost _ _ _ Hi). pose proof (map_sum_delete item_fee _ _ _ Hi).
  assert (0 ≤ map_sum item_cost (delete name (items m))).
  { apply map_sum_nonneg. intros n x Hx. destruct (Hd _ _ Hx) as [[] _]. lia. }
  assert (0 ≤ map_sum item_fee (delete name (items m))).
  { apply map_sum_nonneg. intros n x Hx. destruct (Hd _ _ Hx) as [[] _]. lia. }
  lia.
Qed.

(** The pool without one item, with any estimator that keeps its promise. *)
Lemma pool_ok_delete adds m name i e :
  pool_ok adds m → items m !! name = Some i → estimator_inv adds e →
  pool_ok adds (with_items m (delete name (items m)) (foldl (λ idx key, index_remove name key idx) (by_coin m) (index_keys i))
    (sat_sub (total_cost m) (item_cost i)) (sat_sub (total_fee m) (item_fee i)) e).
Proof.
  intros Hm Hi He. destruct (pool_sums _ _ _ _ Hm Hi) as [Hc Hf]. pose proof Hm as Hm'. destruct Hm' as [P1 P2 P3 P4 P5 P6 P7 P8 P9 P10 P11 P12].
  pose proof (P1 _ _ Hi) as [[_ Hic Hif _ _ _ _ _] _].
  constructor; cbn; try done; unfold sat_sub.
  - by apply map_Forall_delete.
  - intros n n' x x' Hx%lookup_delete_Some Hx'%lookup_delete_Some. naive_solver.
  - rewrite (map_sum_delete _ _ _ _ Hi). lia.
  - rewrite (map_sum_delete _ _ _ _ Hi). lia.
  - lia.
  - lia.
  - by apply indexed_delete.
  - intros n n' x x' c Hx%lookup_delete_Some Hx'%lookup_delete_Some. naive_solver.
Qed.

Lemma remove_inner_spec adds name m :
  pool_ok adds m → ∃ m', remove_inner name m = (m', Ok (items m !! name)) ∧ pool_ok adds m' ∧ same_rest m m' ∧ items m' = delete name (items m).
Proof.
  intros Hm. unfold remove_inner, pool_get, mbind, pool_bind. destruct (items m !! name) as [i|] eqn:Hi.
  - eexists. split; [reflexivity|]. split; [|split; [|reflexivity]].
    + pose proof (pool_ok_delete adds m name i (fee_estimator m) Hm Hi (po_estimator adds m Hm)) as Hp. by destruct m.
    + exists (delete name (items m)), (foldl (λ idx key, index_remove name key idx) (by_coin m) (index_keys i)),
        (sat_sub (total_cost m) (item_cost i)), (sat_sub (total_fee m) (item_fee i)), (fee_estimator m). by destruct m.
  - exists m. split; [reflexivity|]. split; [done|]. split; [apply same_rest_refl|]. by rewrite delete_id.
Qed.

Lemma remove_spec adds name m :
  pool_ok adds m → ∃ m', remove name m = (m', Ok (items m !! name)) ∧ pool_ok adds m' ∧ same_rest m m' ∧ items m' = delete name (items m).
Proof.
  intros Hm. destruct (remove_inner_spec adds name m Hm) as (m' & Hr & Hm' & Hs & Hi').
  unfold remove, mbind at 1, pool_bind at 1. rewrite Hr. destruct (items m !! name) as [i|] eqn:Hi; [|by exists m'].
  destruct (po_items adds m Hm _ _ Hi) as [[_ _ _ _ Hh _ _ _] _].
  destruct (remove_mempool_item_ok _ _ (item_cost i) (item_fee i) (item_height_added i) (total_cost m') (po_estimator adds m' Hm') Hh) as (e & He & Hinv).
  unfold pool_get, mbind, pool_bind, pool_lift. rewrite He. eexists. split; [reflexivity|]. split; [|split; [|done]].
  - destruct Hm' as [P1 P2 P3 P4 P5 P6 P7 P8 P9 P10 P11 P12]. by constructor.
  - eapply same_rest_trans; [exact Hs|]. exists (items m'), (by_coin m'), (total_cost m'), (total_fee m'), e. by destruct m'.
Qed.

Lemma removes_spec {A} adds (f : A → pool_m unit) (g : A → list Z) :
  (∀ x m, pool_ok adds m → ∃ m', f x m = (m', Ok tt) ∧ pool_ok adds m' ∧ same_rest m m' ∧ items m' = delete (g x) (items m)) →
  ∀ l m, pool_ok adds m → ∃ m', pool_for l f m = (m', Ok tt) ∧ pool_ok adds m' ∧ same_rest m m' ∧ items m' = without (map g l) (items m).
Proof.
  intros Hf l. induction l as [|x l IH]; intros m Hm; cbn [pool_for map without foldl].
  { exists m. split; [done|]. split; [done|]. split; [apply same_rest_refl|done]. }
  destruct (Hf x m Hm) as (m1 & Hx & Hm1 & Hs1 & Hi1). destruct (IH m1 Hm1) as (m2 & Hl & Hm2 & Hs2 & Hi2).
  exists m2. unfold mbind, pool_bind. rewrite Hx. split; [done|]. split; [done|].
  split; [by eapply same_rest_trans|]. by rewrite Hi2, Hi1.
Qed.

Lemma remove_all_spec adds names m :
  pool_ok adds m → ∃ m', remove_all names m = (m', Ok tt) ∧ pool_ok adds m' ∧ same_rest m m' ∧ items m' = without names (items m).
Proof.
  intros Hm. destruct (removes_spec adds (λ name, _ ← remove name; mret tt) id) with names m as (m' & Hr); [|done|].
  - intros x m1 Hm1. destruct (remove_spec adds x m1 Hm1) as (m' & Hr & ?). exists m'. unfold mbind, pool_bind. by rewrite Hr.
  - exists m'. by rewrite map_id in Hr.
Qed.
End invariant.

(** ** Making room *)
Lemma filter_ext_elem {A} (P Q : A → Prop) `{!∀ x, Decision (P x), !∀ x, Decision (Q x)} (l : list A) :
  (∀ x, x ∈ l → P x ↔ Q x) → filter P l = filter Q l.
Proof.
  induction l as [|x l IH]; intros Hl; [done|]. rewrite !filter_cons, IH by (intros; apply Hl; by right).
  destruct (Hl x (list_elem_of_here _ _)). repeat case_decide; naive_solver.
Qed.

Section room.
Context `{BigIntBytes, Sha256, HashOrderOk, EstimatorOk} (coin_hash : list Z → list Z).
Notation pool_ok := (pool_ok coin_hash).
Notation item_ok := (item_ok coin_hash).

Definition row_name (r : list Z * f64 * Z * Z) : list Z := r.1.1.1.
Definition row_cost (r : list Z * f64 * Z * Z) : Z := r.2.

Lemma priorities_spec l :
  Forall (λ i, 0 ≤ item_spends i * SPEND_PENALTY_COST < 2 ^ 64) l →
  ∃ rows, priorities l = Ok rows ∧ map (λ r, (row_name r, row_cost r)) rows = map (λ i, (item_name i, item_cost i)) l.
Proof.
  induction 1 as [|i l Hi Hl (rows & Hr & Hm)]; cbn [priorities map]; [by exists []|].
  unfold fee_per_virtual_cost. rewrite chk_ok by done. cbn [mbind res_bind]. rewrite Hr. cbn [mbind res_bind].
  eexists. split; [done|]. cbn [map]. by rewrite Hm.
Qed.

Lemma full_victims_names budget running rows n : n ∈ full_victims budget running rows → n ∈ map row_name rows.
Proof.
  revert running. induction rows as [|[[[nm p] s] c] rows IH]; intros running; cbn [full_victims map]; [done|].
  destruct (_ <? _); rewrite ?elem_of_cons; naive_solver.
Qed.

(** What is kept fits. *)
Lemma full_victims_kept budget running rows :
  0 ≤ running → budget < 2 ^ 64 - 1 → Forall (λ r, 0 < row_cost r) rows → NoDup (map row_name rows) →
  sum_of row_cost (filter (λ r, row_name r ∉ full_victims budget running rows) rows) ≤ Z.max 0 (budget - running).
Proof.
  intros Hr Hb Hc. revert running Hr. induction Hc as [|[[[nm p] s] c] rows Hc Hrows IH]; intros running Hr Hnd; [unfold sum_of; cbn; lia|].
  cbn [map] in Hnd. apply NoDup_cons in Hnd as [Hni Hnd]. cbn [row_name row_cost fst snd] in *. cbn [full_victims].
  set (running' := sat_addu 64 running c). assert (0 ≤ running') by (unfold running', sat_addu; lia).
  specialize (IH running' ltac:(done) Hnd). destruct (Z.ltb_spec budget running') as [Hlt|Hge].
  - rewrite filter_cons_False by (cbn; rewrite elem_of_cons; naive_solver).
    assert (Hf : filter (λ r, row_name r ∉ nm :: full_victims budget running' rows) rows =
                 filter (λ r, row_name r ∉ full_victims budget running' rows) rows).
    { apply filter_ext_elem. intros r Hrin. rewrite not_elem_of_cons. split; [naive_solver|]. intros Hn. split; [|done].
      intros Heq. apply Hni. rewrite <- Heq. by apply list_elem_of_fmap_2. }
    rewrite Hf. lia.
  - rewrite filter_cons_True by (cbn; intros Hin%full_victims_names; done).
    unfold sum_of in *. cbn [foldr row_cost snd]. unfold running', sat_addu in *. lia.
Qed.

(** The items in any order: their names are the keys, each once. *)
Lemma iter_items adds m :
  pool_ok adds m →
  Forall (λ i, item_ok (max_tx_cost m) (item_name i) i) (map_iter (items m)).*2 ∧
  map item_name (map_iter (items m)).*2 = (map_iter (items m)).*1 ∧ NoDup (map_iter (items m)).*1.
Proof.
  intros Hm. assert (Hel : ∀ n i, (n, i) ∈ map_iter (items m) → item_ok (max_tx_cost m) n i).
  { intros n i Hi. rewrite map_iter_perm in Hi. apply elem_of_map_to_list in Hi. by apply (po_items _ _ _ Hm). }
  assert (Hnd : NoDup (map_iter (items m)).*1) by (rewrite map_iter_perm; apply NoDup_fst_map_to_list).
  clear Hm. induction (map_iter (items m)) as [|[n i] l IH]; [by repeat constructor|]. cbn [fmap list_fmap map fst snd] in *.
  apply NoDup_cons in Hnd as [Hn Hnd]. destruct IH as (IH1 & IH2 & IH3); [intros; apply Hel; by right|done|].
  pose proof (Hel n i (list_elem_of_here _ _)) as Hi. pose proof (io_name _ _ _ _ Hi) as Hin. split_and!.
  - constructor; [by rewrite Hin|done].
  - by rewrite Hin, IH2.
  - by constructor.
Qed.

(** The cost of the items that are kept, as a sum over any rows for them. *)
Lemma kept_cost adds m rows victims :
  pool_ok adds m → map (λ r, (row_name r, row_cost r)) rows ≡ₚ map (λ i, (item_name i, item_cost i)) (map_iter (items m)).*2 →
  map_sum item_cost (without victims (items m)) = sum_of row_cost (filter (λ r, row_name r ∉ victims) rows).
Proof.
  intros Hm Hrows. destruct (iter_items _ _ Hm) as (_ & Hn & Hnd).
  rewrite (map_sum_list _ _ (filter (λ x, x.1 ∉ victims) (map_iter (items m)))).
  - set (pairs := map (λ x : list Z * MempoolItem, (x.1, item_cost x.2)) (map_iter (items m))).
    assert (Hp : map (λ i, (item_name i, item_cost i)) (map_iter (items m)).*2 = pairs).
    { unfold pairs. clear -Hn. induction (map_iter (items m)) as [|[n i] l IH]; [done|]. cbn in *. injection Hn as Hn1 Hn2.
      rewrite Hn1. f_equal. by apply IH. }
    rewrite Hp in Hrows. trans (sum_of snd (filter (λ p : list Z * Z, p.1 ∉ victims) pairs)).
    + unfold pairs, sum_of. clear. induction (map_iter (items m)) as [|[n i] l IH]; [done|]. cbn [map fst snd].
      rewrite !filter_cons. cbn [fst]. case_decide; cbn [foldr snd]; lia.
    + rewrite (sum_of_perm _ _ _ (filter_Permutation _ _ _ (symmetry Hrows))). unfold sum_of. clear.
      induction rows as [|r rows IH]; [done|]. cbn [map]. rewrite !filter_cons. cbn [fst]. case_decide; cbn [foldr snd]; lia.
  - apply NoDup_Permutation.
    + apply NoDup_filter. rewrite map_iter_perm. apply NoDup_map_to_list.
    + apply NoDup_map_to_list.
    + intros [n i]. rewrite list_elem_of_filter, elem_of_map_to_list, without_lookup, map_iter_perm, elem_of_map_to_list. done.
Qed.

(** Sweeping the items that expire soon drops some items or refuses. *)
Lemma sweep_spec adds item m :
  pool_ok adds m → 0 ≤ item_spends item * SPEND_PENALTY_COST < 2 ^ 64 →
  sweep_expiring item m = (m, Err MempoolError.FeeTooLow) ∨
  ∃ m' names, sweep_expiring item m = (m', Ok tt) ∧ pool_ok adds m' ∧ same_rest m m' ∧ items m' = without names (items m).
Proof.
  intros Hm Hi. unfold sweep_expiring, pool_get, mbind, pool_bind. destruct (default (0, 0) (peak m)) as [h t].
  destruct (expires_soon _ _ _).
  2:{ right. exists m, []. split; [done|]. split; [done|]. split; [apply same_rest_refl|done]. }
  destruct (iter_items _ _ Hm) as (Hok & _ & _).
  match goal with |- context [priorities ?l] => destruct (priorities_spec l) as (rows & Hr & _) end.
  { apply Forall_forall. intros i [_ Hi']%list_elem_of_filter. rewrite Forall_forall in Hok. apply (Hok _ Hi'). }
  unfold pool_lift. rewrite Hr. unfold fee_per_virtual_cost. rewrite chk_ok by done. cbn [mbind res_bind].
  destruct (expiring_victims _ _ _ _ _) as [names|]; [|by left]. right.
  destruct (remove_all_spec coin_hash adds names m Hm) as (m' & Hm'). by exists m', names.
Qed.

(** After making room the new item fits. *)
Lemma evict_spec adds item m :
  pool_ok adds m → 0 < item_cost item ≤ max_tx_cost m →
  ∃ m' names, evict_for item m = (m', Ok tt) ∧ pool_ok adds m' ∧ same_rest m m' ∧ items m' = without names (items m) ∧
    total_cost m' + item_cost item ≤ max_total_cost m.
Proof.
  intros Hm Hc. unfold evict_for, pool_get, mbind, pool_bind. pose proof (po_limits _ _ _ Hm) as Hlim.
  pose proof (po_max _ _ _ Hm). destruct (Z.ltb_spec (max_total_cost m) (sat_addu 64 (total_cost m) (item_cost item))) as [Hlt|Hge].
  2:{ exists m, []. split; [done|]. split; [done|]. split; [apply same_rest_refl|]. split; [done|]. unfold sat_addu in Hge. lia. }
  destruct (iter_items _ _ Hm) as (Hok & Hn & Hnd).
  destruct (priorities_spec (map_iter (items m)).*2) as (rows & Hr & Hmap).
  { apply (Forall_impl _ _ _ Hok). intros i Hio. apply Hio. }
  unfold pool_lift. rewrite Hr. set (sorted := merge_sort priority_desc rows).
  set (victims := full_victims _ _ _). destruct (remove_all_spec coin_hash adds victims m Hm) as (m' & Hrm & Hm' & Hs & Hit).
  exists m', victims. split; [done|]. split; [done|]. split; [done|]. split; [done|].
  assert (Hperm : map (λ r, (row_name r, row_cost r)) sorted ≡ₚ map (λ i, (item_name i, item_cost i)) (map_iter (items m)).*2).
  { rewrite <- Hmap. apply Permutation_map, merge_sort_Permutation. }
  rewrite (po_cost _ _ _ Hm'), Hit, (kept_cost adds m sorted victims Hm Hperm).
  assert (Hnames : map row_name sorted ≡ₚ (map_iter (items m)).*1).
  { rewrite <- Hn. apply (Permutation_map fst) in Hperm. rewrite map_map in Hperm. rewrite Hperm. by rewrite map_map. }
  pose proof (full_victims_kept (sat_sub (max_total_cost m) (item_cost item)) 0 sorted) as Hk.
  unfold sat_sub in *. fold victims in Hk. enough (sum_of row_cost (filter (λ r, row_name r ∉ victims) sorted) ≤ Z.max 0 (Z.max 0 (max_total_cost m - item_cost item) - 0)) by lia.
  apply Hk; [lia|lia| |by rewrite Hnames].
  apply Forall_forall. intros r Hrin.
  assert (Hpair : (row_name r, row_cost r) ∈ map (λ r, (row_name r, row_cost r)) sorted) by (by apply (list_elem_of_fmap_2 (λ r, (row_name r, row_cost r)))).
  rewrite Hperm in Hpair. apply list_elem_of_fmap in Hpair as (i & [= _ ->] & Hin). rewrite Forall_forall in Hok. destruct (Hok _ Hin). lia.
Qed.

(** Inserting an item that fits. *)
Lemma insert_spec adds item m :
  pool_ok adds m → item_ok (max_tx_cost m) (item_name item) item → items m !! item_name item = None →
  adds ≤ item_seq item < next_seq m → (∀ n i, items m !! n = Some i → item_seq i ≠ item_seq item) →
  total_cost m + item_cost item ≤ max_total_cost m → total_fee m + item_fee item ≤ I64_MAX →
  (∀ n i c, items m !! n = Some i → plain item c → plain i c → shared item i c) →
  ∃ m', insert_item item m = (m', Ok tt) ∧ pool_ok (adds + 1) m' ∧ same_rest m m' ∧ items m' = <[item_name item := item]> (items m).
Proof.
  intros Hm Hio Hn Hseq Hfresh Hcost Hfee Hexcl. pose proof Hm as [P1 P2 P3 P4 P5 P6 P7 P8 P9 P10 P11 P12].
  destruct Hio as [I1 I2 I3 I4 I5 I6 I7 I8].
  assert (0 ≤ total_cost m). { rewrite P3. apply map_sum_nonneg. intros n i Hi. destruct (P1 _ _ Hi) as [[] _]. lia. }
  assert (0 ≤ total_fee m). { rewrite P4. apply map_sum_nonneg. intros n i Hi. destruct (P1 _ _ Hi) as [[] _]. lia. }
  destruct (add_mempool_item_ok adds (fee_estimator m) (item_cost item) (item_fee item) (item_height_added item) (total_cost m + item_cost item)) as (e & He & Hinv); [done|done|lia|].
  unfold insert_item, pool_get, mbind, pool_bind, pool_modify, pool_lift. cbn.
  rewrite !chk_ok by (unfold uok, I64_MAX in *; lia). rewrite He. cbn.
  eexists. split; [reflexivity|]. split; [|split; [|done]].
  - constructor; cbn; try done.
    + apply map_Forall_insert_2; [|done]. split; [by constructor|lia].
    + intros n n' i i' Hi Hi' Hs. apply lookup_insert_Some in Hi as [[<- <-]|[Hne Hi]]; apply lookup_insert_Some in Hi' as [[<- <-]|[Hne' Hi']]; [done|..].
      * by destruct (Hfresh _ _ Hi').
      * by destruct (Hfresh _ _ Hi).
      * by eapply P2.
    + rewrite map_sum_insert by done. lia.
    + rewrite map_sum_insert by done. lia.
    + by apply indexed_insert.
    + lia.
    + apply exclusive_insert; [done|]. eauto.
  - exists (<[item_name item := item]> (items m)), (foldl (λ idx key, index_add (item_name item) key idx) (by_coin m) (index_keys item)),
      (total_cost m + item_cost item), (total_fee m + item_fee item), e. by destruct m.
Qed.
End room.

(** ** The caches *)
Section caches.
Context `{BigIntBytes, Sha256, HashOrderOk, EstimatorOk} (coin_hash : list Z → list Z).
Notation pool_ok := (pool_ok coin_hash).

(** What changes when only the caches do. *)
Definition with_caches (m : Mempool) p c co cc s so : Mempool :=
  m <| pending := p |> <| conflict := c |> <| conflict_order := co |> <| conflict_cost := cc |> <| seen := s |> <| seen_order := so |>.
Definition same_items (m m' : Mempool) : Prop := ∃ p c co cc s so, m' = with_caches m p c co cc s so.

Lemma same_items_pool adds m m' : same_items m m' → pool_ok adds m → pool_ok adds m'.
Proof. intros (? & ? & ? & ? & ? & ? & ->) Hm. destruct Hm. by constructor. Qed.
Lemma same_items_refl m : same_items m m.
Proof. exists (pending m), (conflict m), (conflict_order m), (conflict_cost m), (seen m), (seen_order m). by destruct m. Qed.

Lemma worst_pending_in l : l ≠ [] → ∃ x, worst_pending l = Some x ∧ x ∈ l.
Proof.
  unfold worst_pending. intros Hl. destruct l as [|x l]; [done|]. cbn [foldl].
  assert (Hg : ∀ (b : list Z * PendingEntry) l, ∃ y, foldl (λ best (x : list Z * PendingEntry), match best with
      | Some b => if pending_assert_height b.2 <=? pending_assert_height x.2 then Some x else Some b
      | None => Some x end) (Some b) l = Some y ∧ (y = b ∨ y ∈ l)).
  { clear. intros b l. revert b. induction l as [|x l IH]; intros b; cbn [foldl]; [eauto|].
    destruct (_ <=? _); edestruct IH as (y & -> & Hy); exists y; (split; [done|]); rewrite elem_of_cons; naive_solver. }
  destruct (Hg x l) as (y & Hy & Hyl). exists y. split; [done|]. rewrite elem_of_cons. naive_solver.
Qed.

Lemma park_caches name bundle conds height m :
  genuine bundle conds → caches_ok m → caches_ok (park_pending name bundle conds height m) ∧ same_items m (park_pending name bundle conds height m).
Proof.
  intros Hg Hc. pose proof Hc as [C1 C2 C3 C4 C5 C6 C7 C8 C9 C10]. unfold park_pending.
  set (parked := if (_ <=? _)%nat then _ else _).
  assert (Hp : (S (size parked) ≤ PENDING_CACHE_CAP)%nat ∧ map_Forall (λ _ e, genuine (pending_bundle e) (pending_conds e)) parked).
  { unfold parked. destruct (Nat.leb_spec PENDING_CACHE_CAP (size (pending m))) as [Hle|Hgt]; [|split; [lia|done]].
    destruct (worst_pending_in (map_iter (pending m))) as ([k e] & -> & Hk).
    - intros Hnil. assert (Hl : length (map_iter (pending m)) = size (pending m)).
      { rewrite map_iter_perm. apply length_map_to_list. } rewrite Hnil in Hl. unfold PENDING_CACHE_CAP in Hle. cbn in Hl. lia.
    - rewrite map_iter_perm in Hk. apply elem_of_map_to_list in Hk. split; [|by apply map_Forall_delete].
      rewrite map_size_delete_Some by done. unfold PENDING_CACHE_CAP in *. lia. }
  destruct Hp as [Hp1 Hp2]. split.
  - constructor; cbn; try done; [|by apply map_Forall_insert_2].
    destruct (parked !! name) eqn:Hn; [rewrite map_size_insert_Some by done; lia|by rewrite map_size_insert_None].
  - clearbody parked. eexists _, (conflict m), (conflict_order m), (conflict_cost m), (seen m), (seen_order m). reflexivity.
Qed.

(** The conflict cache, perhaps over its bounds. *)
Record conflicts_ok (m : Mempool) : Prop := {
  cf_entries : map_Forall (λ _ e, genuine (conflict_bundle e) (conflict_conds e) ∧ 0 ≤ conflict_entry_cost e) (conflict m);
  cf_order : NoDup (conflict_order m) ∧ ∀ n, n ∈ conflict_order m ↔ is_Some (conflict m !! n);
  cf_cost : conflict_cost m = map_sum conflict_entry_cost (conflict m);
}.

Lemma trim_conflicts_spec fuel m :
  conflicts_ok m → 0 ≤ conflict_cache_max_cost m → (length (conflict_order m) ≤ fuel)%nat →
  ∃ c co cc, let m' := m <| conflict := c |> <| conflict_order := co |> <| conflict_cost := cc |> in
    trim_conflicts fuel m = m' ∧ conflicts_ok m' ∧ cc ≤ conflict_cache_max_cost m ∧ (size c ≤ CONFLICT_CACHE_MAX_SIZE)%nat.
Proof.
  revert m. induction fuel as [|fuel IH]; intros m Hm Hmax Hf; pose proof Hm as [F1 [F2 F3] F4]; cbn [trim_conflicts].
  - exists (conflict m), (conflict_order m), (conflict_cost m). cbv zeta. split; [by destruct m|].
    split; [by destruct m|]. destruct (conflict_order m) as [|x l] eqn:Ho; [|cbn in Hf; lia].
    assert (conflict m = ∅) as He.
    { apply map_empty. intros n. apply eq_None_not_Some. rewrite <- F3. apply not_elem_of_nil. }
    rewrite F4, He, map_sum_empty, map_size_empty. unfold CONFLICT_CACHE_MAX_SIZE. lia.
  - destruct (_ || _) eqn:Hover.
    2:{ exists (conflict m), (conflict_order m), (conflict_cost m). cbv zeta. split; [by destruct m|]. split; [by destruct m|].
        apply orb_false_iff in Hover as [Hc Hs]. apply Z.ltb_ge in Hc. apply Nat.ltb_ge in Hs. done. }
    destruct (conflict_order m) as [|oldest order] eqn:Ho.
    { exists (conflict m), [], (conflict_cost m). exfalso.
      assert (conflict m = ∅) as He.
      { apply map_empty. intros n. apply eq_None_not_Some. rewrite <- F3. apply not_elem_of_nil. }
      rewrite F4, He, map_sum_empty, map_size_empty in Hover. apply orb_true_iff in Hover as [Hc%Z.ltb_lt|Hs%Nat.ltb_lt]; [lia|].
      unfold CONFLICT_CACHE_MAX_SIZE in Hs. lia. }
    cbv zeta. change (conflict (m <| conflict_order := order |>)) with (conflict m).
    destruct (proj1 (F3 oldest) (list_elem_of_here _ _)) as [e He]. rewrite He.
    apply NoDup_cons in F2 as [Hni Hnd].
    destruct (IH (m <| conflict_order := order |> <| conflict := delete oldest (conflict m) |>
                    <| conflict_cost := sat_sub (conflict_cost m) (conflict_entry_cost e) |>)) as (c & co & cc & Ht & Hok & Hcc & Hsz).
    + constructor; cbn.
      * by apply map_Forall_delete.
      * split; [done|]. intros n. rewrite lookup_delete_is_Some, <- F3, elem_of_cons. naive_solver.
      * rewrite (map_sum_delete _ _ _ _ He), F4. unfold sat_sub.
        assert (0 ≤ map_sum conflict_entry_cost (delete oldest (conflict m))).
        { apply map_sum_nonneg. intros n x Hx%lookup_delete_Some. by destruct (F1 _ _ (proj2 Hx)). }
        rewrite (map_sum_delete _ _ _ _ He) in *. lia.
    + done.
    + cbn in Hf |- *. lia.
    + exists c, co, cc. cbv zeta in *. split; [etrans; [exact Ht|]; by destruct m|]. split; [by destruct m|]. done.
Qed.

Lemma cache_conflict_caches name bundle conds fee cost m :
  genuine bundle conds → 0 ≤ cost ≤ max_tx_cost m → caches_ok m →
  caches_ok (cache_conflict name bundle conds fee cost m) ∧ same_items m (cache_conflict name bundle conds fee cost m).
Proof.
  intros Hg Hc Hm. pose proof Hm as [C1 C2 C3 C4 [C5 C5'] C6 C7 C8 C9 C10]. unfold cache_conflict.
  case_bool_decide as Hin; [split; [done|apply same_items_refl]|]. cbv zeta.
  assert (Hn : conflict m !! name = None) by (by apply eq_None_not_Some).
  assert (0 ≤ conflict_cost m).
  { rewrite C6. apply map_sum_nonneg. intros n e He. by destruct (C4 _ _ He). }
  match goal with |- context [trim_conflicts ?f ?x] => destruct (trim_conflicts_spec f x) as (c & co & cc & -> & [F1 F2 F3] & Hcc & Hsz) end; cbn in *.
  - constructor; cbn.
    + apply map_Forall_insert_2; [cbn; split; [done|lia]|done].
    + split.
      * apply NoDup_app. split; [done|]. split; [|apply NoDup_singleton]. intros x Hx ->%list_elem_of_singleton.
        apply C5' in Hx. by rewrite Hn in Hx; destruct Hx.
      * intros n. rewrite elem_of_app, list_elem_of_singleton, lookup_insert_is_Some', C5'. naive_solver.
    + rewrite map_sum_insert by done. cbn. rewrite <- C6. unfold sat_addu. lia.
  - lia.
  - done.
  - split.
    + by constructor.
    + exists (pending m), c, co, cc, (seen m), (seen_order m). by destruct m.
Qed.

Lemma trim_seen_spec fuel s order :
  NoDup order → (∀ n, n ∈ order ↔ n ∈ s) → (length order ≤ fuel)%nat →
  let '(s', order') := trim_seen fuel s order in
  NoDup order' ∧ (∀ n, n ∈ order' ↔ n ∈ s') ∧ (length order' ≤ SEEN_CACHE_SIZE)%nat.
Proof.
  revert s order. induction fuel as [|fuel IH]; intros s order Hnd Hs Hf; cbn [trim_seen].
  { split_and!; [done..|lia]. }
  destruct (Nat.ltb_spec SEEN_CACHE_SIZE (length order)); [|by split_and!].
  destruct order as [|x order]; [cbn in *; lia|]. apply NoDup_cons in Hnd as [Hx Hnd].
  apply IH; [done| |cbn in *; lia]. intros n. rewrite elem_of_difference, elem_of_singleton, <- Hs, elem_of_cons. naive_solver.
Qed.

Lemma add_seen_caches name m : caches_ok m → caches_ok (add_seen name m) ∧ same_items m (add_seen name m).
Proof.
  intros Hm. pose proof Hm as [C1 C2 C3 C4 C5 C6 C7 C8 C9 [C10 C10']]. unfold add_seen.
  case_bool_decide as Hin; [split; [done|apply same_items_refl]|].
  pose proof (trim_seen_spec (length (seen_order m ++ [name])) ({[name]} ∪ seen m) (seen_order m ++ [name])) as Ht.
  destruct (trim_seen _ _ _) as [s o]. destruct Ht as (T1 & T2 & T3).
  - apply NoDup_app. split; [done|]. split; [|apply NoDup_singleton]. intros x Hx ->%list_elem_of_singleton. by apply C10' in Hx.
  - intros n. rewrite elem_of_app, list_elem_of_singleton, elem_of_union, elem_of_singleton, C10'. naive_solver.
  - done.
  - split; [by constructor|]. exists (pending m), (conflict m), (conflict_order m), (conflict_cost m), s, o. by destruct m.
Qed.

Lemma remove_seen_caches name m : caches_ok m → caches_ok (remove_seen name m) ∧ same_items m (remove_seen name m).
Proof.
  intros Hm. pose proof Hm as [C1 C2 C3 C4 C5 C6 C7 C8 C9 [C10 C10']]. unfold remove_seen.
  case_bool_decide as Hin; [|split; [done|apply same_items_refl]]. split.
  - constructor; cbn; try done.
    + etrans; [apply length_filter|done].
    + split; [by apply NoDup_filter|]. intros n. rewrite list_elem_of_filter, elem_of_difference, elem_of_singleton, C10'. naive_solver.
  - eexists (pending m), (conflict m), (conflict_order m), (conflict_cost m), _, _. by destruct m.
Qed.
End caches.
