(* ===== verification/MempoolAdmission.v ===== *)
(** * Admission keeps the mempool's invariant

    [admit] on a pool that satisfies [mempool_ok] leaves one that does, never
    panics short of the last sequence number, and says by its result what
    became of the bundle. *)
From Stdlib Require Import ZArith Lia.
From stdpp Require Import base list numbers option gmap sets sorting.
From S2P Require Import Prelude Serialize ClvmNumber ClvmSexp Coin ClvmPath ClvmParser ClvmCanonical PotIterations Conditions SpendConditions BlockConditions BlockGenerator GeneratorProgram FastForward BlockValidation Float64 Mempool MempoolInvariant.

Open Scope Z_scope.

Lemma bind_no_panic {E A B} (m : res E A) (f : A → res E B) :
  m ≠ Panic → (∀ x, m = Ok x → f x ≠ Panic) → (x ← m; f x) ≠ Panic.
Proof. destruct m; cbn; naive_solver. Qed.
Lemma ok_or_no_panic {E A} (o : option A) (e : E) : ok_or o e ≠ Panic.
Proof. by destruct o. Qed.

Lemma without_app l l' its : without (l ++ l') its = without l' (without l its).
Proof. apply foldl_app. Qed.
Lemma map_sum_without (f : MempoolItem → Z) l its :
  map_Forall (λ _ i, 0 ≤ f i) its → map_sum f (without l its) ≤ map_sum f its.
Proof.
  revert its. induction l as [|x l IH]; intros its Hf; cbn [without foldl]; [done|]. fold (without l (delete x its)).
  etrans; [apply IH; by apply map_Forall_delete|]. destruct (its !! x) as [i|] eqn:Hx.
  - rewrite (map_sum_delete _ _ _ _ Hx). pose proof (Hf _ _ Hx). cbn in *. lia.
  - by rewrite delete_id.
Qed.

(** ** Time locks *)
(** The bounds hold at a height and a time. *)
Definition open_at (tl : EffectiveTimelocks) (height timestamp : Z) : Prop :=
  assert_height tl ≤ height ∧ assert_seconds tl ≤ timestamp ∧
  (∀ b, assert_before_height tl = Some b → height < b) ∧ (∀ b, assert_before_seconds tl = Some b → timestamp < b).
(** The coin was born when the spend says it was. *)
Definition births_match (records : gmap (list Z) (Z * Z)) (s : Spend) : Prop :=
  ∀ h t, records !! spend_coin_id s = Some (h, t) →
    (∀ b, birth_height s = Some b → b = h) ∧ (∀ b, birth_seconds s = Some b → b = t).

Lemma is_some_and_lt {A} (o : option A) f h : is_some_and o (λ x, h <? f x) = false ↔ ∀ x, o = Some x → f x ≤ h.
Proof. destruct o as [x|]; cbn; [rewrite Z.ltb_ge|]; naive_solver. Qed.
Lemma is_some_and_le {A} (o : option A) f h : is_some_and o (λ x, f x <=? h) = false ↔ ∀ x, o = Some x → h < f x.
Proof. destruct o as [x|]; cbn; [rewrite Z.leb_gt|]; naive_solver. Qed.
Lemma is_some_and_ne (o : option Z) c : is_some_and o (λ x, negb (x =? c)) = false ↔ ∀ x, o = Some x → x = c.
Proof. destruct o as [x|]; cbn; [rewrite negb_false_iff, Z.eqb_eq|]; naive_solver. Qed.
Lemma early_return {A} (b : bool) (x : A) o : (if b then Some x else o) = None ↔ b = false ∧ o = None.
Proof. destruct b; naive_solver. Qed.
Lemma opt_max_le (o : option Z) f x h : (match o with Some r => Z.max x (f r) | None => x end) ≤ h ↔ x ≤ h ∧ ∀ r, o = Some r → f r ≤ h.
Proof. destruct o as [r|]; [rewrite Z.max_lub_iff|]; naive_solver. Qed.
Lemma opt_min_lt (o : option Z) f x h :
  (∀ b, (match o with Some r => Some (opt_min x (f r)) | None => x end) = Some b → h < b) ↔
  (∀ b, x = Some b → h < b) ∧ ∀ r, o = Some r → h < f r.
Proof.
  destruct o as [r|]; [|naive_solver]. unfold opt_min. destruct x as [y|]; split; intros Hb.
  - specialize (Hb _ eq_refl). split; intros ? [= <-]; lia.
  - destruct Hb as [Hy Hr]. intros ? [= <-]. specialize (Hy _ eq_refl). specialize (Hr _ eq_refl). lia.
  - split; [done|]. intros ? [= <-]. by apply Hb.
  - intros ? [= <-]. by apply (proj2 Hb).
Qed.

Lemma check_spend_locks_None records h t s tl :
  open_at (fold_timelocks records tl s) h t ∧ births_match records s ↔ open_at tl h t ∧ check_spend_locks records h t s = None.
Proof.
  unfold fold_timelocks, check_spend_locks, births_match. destruct (records !! spend_coin_id s) as [[ch ct]|]; [|naive_solver].
  unfold open_at. cbn [assert_height assert_seconds assert_before_height assert_before_seconds].
  rewrite !opt_max_le, !opt_min_lt, !early_return, !is_some_and_ne, !is_some_and_lt, !is_some_and_le. split.
  - intros (((? & ?) & (? & ?) & (? & ?) & (? & ?)) & Hb). destruct (Hb _ _ eq_refl). by split_and!.
  - intros ((? & ? & ? & ?) & ? & ? & ? & ? & ? & ? & _). split; [by split_and!|]. by intros ? ? [= <- <-].
Qed.

Lemma check_spends_locks_None records h t l tl :
  open_at tl h t ∧ check_spends_locks records h t l = None ↔
  open_at (foldl (fold_timelocks records) tl l) h t ∧ ∀ s, s ∈ l → births_match records s.
Proof.
  revert tl. induction l as [|s l IH]; intros tl; cbn [foldl check_spends_locks]; [set_solver|].
  pose proof (check_spend_locks_None records h t s tl) as Hs. specialize (IH (fold_timelocks records tl s)).
  split.
  - intros [Ho Hc]. destruct (check_spend_locks records h t s); [done|]. destruct (proj2 Hs) as [Ho' Hb]; [done|].
    destruct (proj1 IH) as [Hf Hl]; [done|]. split; [done|]. by intros x [->|Hx]%elem_of_cons; [|apply Hl].
  - intros [Hf Hl]. destruct (proj2 IH) as [Ho' Hc]; [split; [done|]; intros x Hx; apply Hl; by apply list_elem_of_further|].
    destruct (proj1 Hs) as [Ho Hn]; [split; [done|]; apply Hl, list_elem_of_here|]. by rewrite Hn.
Qed.

Lemma check_time_locks_spec records conds h t :
  check_time_locks records conds h t = None ↔
  open_at (effective_timelocks records conds) h t ∧ ∀ s, s ∈ spends conds → births_match records s.
Proof.
  unfold effective_timelocks. rewrite <- check_spends_locks_None. unfold check_time_locks, open_at.
  cbn [assert_height assert_seconds assert_before_height assert_before_seconds].
  rewrite !early_return, !(is_some_and_le _ (λ x, x)), !Z.ltb_ge. split.
  - intros (? & ? & ? & ? & ?). by split_and!.
  - intros ((? & ? & ? & ?) & ?). by split_and!.
Qed.

Lemma open_not_expired i h t : open_at (item_timelocks i) h t → is_expired h t i = false.
Proof.
  intros (_ & _ & Hh & Hs). unfold is_expired. apply orb_false_iff. by rewrite !(is_some_and_le _ (λ x, x)).
Qed.

(** ** The steps before the conflicts *)
Section admission.
Context `{BigIntBytes, Sha256, HashOrderOk, EstimatorOk} (coin_hash : list Z → list Z).
Notation pool_ok := (pool_ok coin_hash).
Notation store_ok := (store_ok coin_hash).

(** The invariant of a pool at rest. *)
Definition mempool_ok (m : Mempool) : Prop := ∃ adds, pool_ok adds m ∧ caches_ok m.

Lemma bundle_name_total b : ∃ name, bundle_name b = Ok name.
Proof.
  unfold bundle_name. assert (∃ l, coin_spends_to_bytes version_default (coin_spends b) = Ok l) as [l ->].
  { induction (coin_spends b) as [|s l (x & Hx)]; cbn [coin_spends_to_bytes]; [by eexists|]. unfold coin_spend_to_bytes, coin_to_bytes. cbn.
    cbn in Hx. rewrite Hx. by eexists. }
  cbn. by eexists.
Qed.

Lemma join_spends_spec store bundle conds l :
  store_ok store → genuine bundle conds → l ⊆ coin_spends bundle →
  join_spends store conds l ≠ Panic ∧
  ∀ out, join_spends store conds l = Ok out → map coin_spend out = l ∧ Forall (lineage_ok coin_hash) out.
Proof.
  intros Hst Hg. induction l as [|s l IH]; intros Hl; cbn [join_spends].
  { split; [done|]. intros out [= <-]. by split. }
  destruct IH as [IHp IHo]; [set_solver|].
  destruct (List.find _ _) as [sc|] eqn:Hf; cbn [ok_or mbind res_bind]; [|done].
  apply List.find_some in Hf as [Hin Hid%bool_decide_eq_true]. apply list_elem_of_In in Hin.
  assert (Hh : spend_puzzle_hash sc = puzzle_hash (cs_coin s)) by (eapply gn_hash; [exact Hg|set_solver|done|done]).
  destruct (_ && negb _); cbn [mbind res_bind]; [done|].
  set (lin := if _ : bool then _ else _).
  assert (Hlin : lin ≠ Panic ∧ ∀ o i, lin = Ok o → o = Some i → coin_hash (lineage_coin_id i) = puzzle_hash (cs_coin s)).
  { unfold lin. destruct (_ && _); [|naive_solver]. split; [apply ok_or_no_panic|]. unfold from_store.
    intros o i Ho ->. destruct (get_unspent_lineage_info store _) as [o|] eqn:Hu; [|done]. cbn in Ho. injection Ho as ->.
    rewrite <- Hh. by apply Hst. }
  destruct Hlin as [Hp Hlin]. clearbody lin. destruct lin as [o| |]; cbn [mbind res_bind]; [|done|done].
  destruct (join_spends store conds l) as [rest| |]; cbn [mbind res_bind]; [|done|done]. split; [done|].
  intros out [= <-]. destruct (IHo rest eq_refl) as [Hm HF]. cbn [map]. rewrite Hm. split; [done|]. constructor; [|done].
  intros i Hi. by eapply Hlin.
Qed.

Lemma build_spends_spec store bundle conds :
  store_ok store → genuine bundle conds →
  build_bundle_coin_spends store bundle conds ≠ Panic ∧
  ∀ out, build_bundle_coin_spends store bundle conds = Ok out → map coin_spend out = coin_spends bundle ∧ Forall (lineage_ok coin_hash) out.
Proof.
  intros Hst Hg. destruct (join_spends_spec store bundle conds (coin_spends bundle) Hst Hg) as [Hp Ho]; [done|].
  unfold build_bundle_coin_spends. destruct (coin_spends bundle) as [|s l].
  { split; [done|]. intros out [= <-]. by split. }
  destruct (join_spends _ _ _) as [out| |]; cbn [mbind res_bind]; [|done|done].
  destruct (forallb _ _); [done|]. split; [done|]. intros out' [= <-]. by apply Ho.
Qed.

(** Every removal of the item has its spend. *)
Lemma spends_matched bundle conds out id :
  genuine bundle conds → map coin_spend out = coin_spends bundle → out ≠ [] → id ∈ removals_for_conditions conds →
  is_Some (find_spend_of out id).
Proof.
  intros Hg Hm Hne Hid. apply list_elem_of_fmap in Hid as (s & -> & Hs).
  destruct (gn_matched _ _ Hg s) as (cs & Hcs & Heq); [by destruct out; [|rewrite <- Hm]|done|].
  rewrite <- Hm in Hcs. apply list_elem_of_fmap in Hcs as (b & -> & Hb).
  unfold find_spend_of. destruct (List.find _ _) as [x|] eqn:Hf; [by eexists|]. exfalso.
  apply list_elem_of_In in Hb. pose proof (List.find_none _ _ Hf _ Hb) as Hn. cbn in Hn.
  apply bool_decide_eq_false in Hn. unfold spend_id in Hn. congruence.
Qed.

Lemma removal_records_no_panic created h t l records : removal_records created h t l records ≠ Panic.
Proof.
  revert records. induction l as [|id l IH]; intros records; cbn [removal_records]; [done|].
  destruct (records !! id); [apply IH|]. case_bool_decide; [apply IH|done].
Qed.
Lemma check_unspent_no_panic l spends : check_unspent l spends ≠ Panic.
Proof. induction l as [|r l IH]; cbn [check_unspent]; [done|]. by destruct (_ && _). Qed.

Lemma conflicts_with_no_panic m new id owners names : conflicts_with m new id owners names ≠ Panic.
Proof.
  revert names. induction owners as [|o owners IH]; intros names; cbn [conflicts_with]; [done|].
  case_bool_decide; [apply IH|]. destruct (items m !! o); [|apply IH]. destruct (conflicting_spend _ _); [apply IH|].
  case_bool_decide; [apply IH|done].
Qed.
Lemma find_conflicts_no_panic m spends removals names : find_conflicts m spends removals names ≠ Panic.
Proof.
  revert names. induction removals as [|id removals IH]; intros names; cbn [find_conflicts]; [done|].
  destruct (by_coin m !! id); [|apply IH]. apply bind_no_panic; [apply conflicts_with_no_panic|]. intros. apply IH.
Qed.

(** The names found are all the items that stand in the way. *)
Definition clear_of (new : option BundleCoinSpend) (i : MempoolItem) (id : list Z) : Prop :=
  ∃ e, conflicting_spend i id = Some e ∧ spends_conflict new e = false.
Lemma conflicts_with_spec m new id owners names names' :
  conflicts_with m new id owners names = Ok names' →
  names ⊆ names' ∧ ∀ o i, o ∈ owners → items m !! o = Some i → o ∈ names' ∨ clear_of new i id.
Proof.
  revert names. induction owners as [|o owners IH]; intros names; cbn [conflicts_with].
  { intros [= <-]. split; [done|]. intros ? ? []%not_elem_of_nil. }
  assert (Hgo : ∀ names0, names ⊆ names0 → conflicts_with m new id owners names0 = Ok names' →
    (∀ i, items m !! o = Some i → o ∈ names0 ∨ clear_of new i id) →
    names ⊆ names' ∧ ∀ o' i, o' ∈ o :: owners → items m !! o' = Some i → o' ∈ names' ∨ clear_of new i id).
  { intros names0 Hsub [Hs Ho]%IH Hi. split; [set_solver|]. intros o' i [->|Hin]%elem_of_cons Hoi; [|by apply Ho].
    destruct (Hi i Hoi); [left; set_solver|by right]. }
  case_bool_decide as Hin; [intros Hc; apply (Hgo names); auto|].
  destruct (items m !! o) as [i|] eqn:Hi; [|intros Hc; apply (Hgo names); done].
  destruct (conflicting_spend i id) as [e|] eqn:He.
  - destruct (spends_conflict new e) eqn:Hs; intros Hc; eapply Hgo; [|exact Hc| |done|exact Hc|].
    + set_solver.
    + intros ? _. left. set_solver.
    + intros ? [= <-]. right. by exists e.
  - case_bool_decide; [|done]. intros Hc. eapply Hgo; [|exact Hc|]; [set_solver|]. intros ? _. left. set_solver.
Qed.
Lemma find_conflicts_spec m spends removals names names' :
  find_conflicts m spends removals names = Ok names' →
  names ⊆ names' ∧ ∀ id o i, id ∈ removals → o ∈ owners (by_coin m) id → items m !! o = Some i →
    o ∈ names' ∨ clear_of (find_spend_of spends id) i id.
Proof.
  revert names. induction removals as [|id removals IH]; intros names; cbn [find_conflicts].
  { intros [= <-]. split; [done|]. intros ? ? ? []%not_elem_of_nil. }
  unfold owners at 1. destruct (by_coin m !! id) as [l|] eqn:Hl.
  - intros (names1 & [Hs1 Hc1]%conflicts_with_spec & [Hs2 Hc2]%IH)%bind_Ok_inv. split; [set_solver|].
    intros id' o i [->|Hin]%elem_of_cons Ho Hi; [|by apply Hc2]. rewrite Hl in Ho. destruct (Hc1 o i Ho Hi); [left; set_solver|by right].
  - intros [Hs Hc]%IH. split; [done|]. intros id' o i [->|Hin]%elem_of_cons Ho Hi; [|by apply Hc].
    rewrite Hl in Ho. by apply not_elem_of_nil in Ho.
Qed.

(** A clear item shares a plainly spent coin only where both may. *)
Lemma clear_shared max_tx n i item c :
  item_ok coin_hash max_tx n i → plain item c → plain i c → clear_of (bundle_coin_spend item c) i c → shared item i c.
Proof.
  intros Hio [Hc Hp] [Hc' Hp'] (e & He & Hs). unfold conflicting_spend in He. destruct (bundle_coin_spend i c) as [b|] eqn:Hb.
  - injection He as ->. unfold spends_conflict in Hs. destruct (bundle_coin_spend item c) as [new|] eqn:Hn; cbn in Hs; [|done].
    unfold has_lineage in Hs. rewrite (Hp new eq_refl) in Hs. rewrite bool_decide_false in Hs by (by intros []). cbn in Hs.
    destruct (eligible_for_dedup new) eqn:Hd; cbn in Hs; [|done]. destruct (eligible_for_dedup e) eqn:Hd'; cbn in Hs; [|done].
    apply negb_false_iff, bool_decide_eq_true in Hs. by exists new, e.
  - apply List.find_some in He as [He _]. destruct (io_matched _ _ _ _ Hio c) as [b Hb']; [by intros Hn; rewrite Hn in He|done|congruence].
Qed.

Lemma min_rate_loop_no_panic m cost current l :
  Forall (λ r, 0 ≤ r.2) l → sum_of (λ r, r.2) l ≤ current < 2 ^ 64 → min_rate_loop m cost current l ≠ Panic.
Proof.
  intros Hl. revert current. unfold sum_of. induction Hl as [|[[r q] c] l Hc Hl IH]; intros current Hs; cbn [min_rate_loop foldr snd] in *; [done|].
  assert (0 ≤ foldr (λ (x : f64 * Z * Z) acc, x.2 + acc) 0 l) by (clear -Hl; induction Hl; cbn [foldr]; lia).
  rewrite chk_ok by (unfold uok; cbn in *; lia). cbn [mbind res_bind]. destruct (_ <=? _); [done|]. apply IH. cbn in *. lia.
Qed.
Lemma get_min_fee_rate_no_panic adds m cost : pool_ok adds m → get_min_fee_rate m cost ≠ Panic.
Proof.
  intros Hm. unfold get_min_fee_rate. destruct (negb _); [done|].
  set (rows := map _ _). assert (Hsum : sum_of (λ r : f64 * Z * Z, r.2) rows = total_cost m).
  { rewrite (po_cost _ _ _ Hm), (map_sum_list _ _ _ (map_iter_perm _)). unfold rows, sum_of.
    induction (map_iter (items m)) as [|[n i] l IH]; cbn [map foldr]; [done|]. by rewrite IH. }
  apply min_rate_loop_no_panic.
  - rewrite merge_sort_Permutation. unfold rows. apply Forall_map, Forall_forall. intros [n i] Hi.
    rewrite map_iter_perm in Hi. apply elem_of_map_to_list in Hi. destruct (po_items _ _ _ Hm _ _ Hi) as [[] _]. cbn. lia.
  - rewrite (sum_of_perm _ _ _ (merge_sort_Permutation _ _)), Hsum. pose proof (po_max _ _ _ Hm). pose proof (po_limits _ _ _ Hm). lia.
Qed.

Lemma total_fee_nonneg adds m : pool_ok adds m → 0 ≤ total_fee m.
Proof. intros Hm. rewrite (po_fee _ _ _ Hm). apply map_sum_nonneg. intros n i Hi. destruct (po_items _ _ _ Hm _ _ Hi) as [[] _]. lia. Qed.

Lemma check_fee_spec adds m fee cost :
  pool_ok adds m → check_fee m fee cost ≠ Panic ∧
  (check_fee m fee cost = Ok tt → fee ≤ MEMPOOL_ITEM_FEE_LIMIT ∧ total_fee m + fee < I64_MAX).
Proof.
  intros Hm. unfold check_fee. destruct (Z.ltb_spec MEMPOOL_ITEM_FEE_LIMIT fee); [done|].
  pose proof (total_fee_nonneg _ _ Hm). pose proof (po_fee_max _ _ _ Hm).
  rewrite chk_ok by (unfold uok, I64_MAX in *; lia). cbn [mbind res_bind].
  destruct (Z.leb_spec (I64_MAX - total_fee m) fee); [done|]. split; [|intros _; lia].
  destruct (at_full_capacity m cost); [|done]. destruct (f64_lt _ _); [done|].
  apply bind_no_panic; [by eapply get_min_fee_rate_no_panic|]. intros [r|] _; [|done]. by destruct (f64_le _ _).
Qed.

(** ** What a method leaves *)
(** The pool after a method satisfies the invariant; [Q] holds on success, [R]
    on an error, and a panic means that the sequence numbers ran out. *)
Definition outcome {A} (Q : A → Mempool → Prop) (R : MempoolError.t → Mempool → Prop) (p : Mempool * res MempoolError.t A) : Prop :=
  mempool_ok p.1 ∧
  match p.2 with Ok a => Q a p.1 | Err e => R e p.1 | Panic => next_seq p.1 = U64_MAX end.

Lemma outcome_bind {A B} (c : pool_m A) (f : A → pool_m B) Q1 Q R m :
  outcome Q1 R (c m) → (∀ a m1, mempool_ok m1 → Q1 a m1 → outcome Q R (f a m1)) → outcome Q R ((c ≫= f) m).
Proof. unfold mbind, pool_bind, outcome at 1. intros [Hm Hc] Hf. destruct (c m) as [m1 [a|e|]]; [by apply Hf|by split..]. Qed.
Lemma outcome_lift {A} (r : res MempoolError.t A) Q (R : MempoolError.t → Mempool → Prop) m :
  mempool_ok m → r ≠ Panic → (∀ a, r = Ok a → Q a m) → (∀ e, R e m) → outcome Q R (pool_lift r m).
Proof. intros Hm Hp HQ HR. split; [done|]. cbn. destruct r; naive_solver. Qed.
Lemma outcome_impl {A} (Q Q' : A → Mempool → Prop) R R' p :
  outcome Q R p → (∀ a m, Q a m → Q' a m) → (∀ e m, R e m → R' e m) → outcome Q' R' p.
Proof. intros [Hm Hr] HQ HR. split; [done|]. destruct p as [m [a|e|]]; cbn in *; auto. Qed.
Lemma outcome_get (Q : Mempool → Mempool → Prop) R m : mempool_ok m → Q m m → outcome Q R (pool_get m).
Proof. done. Qed.

Lemma same_items_ok m m' : same_items m m' → caches_ok m' → mempool_ok m → mempool_ok m'.
Proof. intros Hs Hc (adds & Hp & _). exists adds. split; [by eapply same_items_pool|done]. Qed.
Lemma same_rest_next m m' : same_rest m m' → next_seq m' = next_seq m ∧ max_tx_cost m' = max_tx_cost m ∧ max_total_cost m' = max_total_cost m ∧ peak m' = peak m.
Proof. by intros (? & ? & ? & ? & ? & ->). Qed.

Lemma same_items_items m m' : same_items m m' → items m' = items m ∧ peak m' = peak m.
Proof. by intros (? & ? & ? & ? & ? & ? & ->). Qed.

(** *** [check_locks] *)
Lemma check_locks_spec name bundle conds records tl h t m :
  mempool_ok m → genuine bundle conds →
  outcome (λ _ m', m' = m ∧ check_time_locks records conds h t = None) (λ _ m', items m' = items m ∧ peak m' = peak m)
    (check_locks name bundle conds records tl h t m).
Proof.
  intros Hm Hg. unfold check_locks. destruct (is_some_and _ _); [by split|]. destruct (is_some_and _ _); [by split|].
  destruct (check_time_locks _ _ _ _) as [[f|f|f]|] eqn:Hk; [|by split..].
  pose proof Hm as (adds & Hp & Hc). destruct (park_caches name bundle conds (assert_height tl) m Hg Hc) as [Hc' Hs].
  split; [by eapply same_items_ok|]. exact (same_items_items _ _ Hs).
Qed.

(** *** [resolve_conflicts] *)
Lemma resolve_conflicts_spec name bundle conds fee removals tl spends m :
  mempool_ok m → genuine bundle conds → conds_cost conds ≤ max_tx_cost m →
  outcome (λ _ m', same_rest m m' ∧ (∃ names, items m' = without names (items m)) ∧
      ∀ n i c, items m' !! n = Some i → c ∈ removals → n ∈ owners (by_coin m) c → clear_of (find_spend_of spends c) i c)
    (λ _ m', items m' = items m ∧ peak m' = peak m)
    (resolve_conflicts name bundle conds fee (conds_cost conds) removals tl spends m).
Proof.
  intros Hm Hg Hcost. unfold resolve_conflicts.
  eapply outcome_bind; [apply (outcome_get (λ a m', a = m ∧ m' = m)); done|]. intros a m1 Hm1 [-> ->].
  eapply outcome_bind; [apply (outcome_lift _ (λ a m', find_conflicts m spends removals [] = Ok a ∧ m' = m)); [done|apply find_conflicts_no_panic|done|done]|].
  intros names m1 _ [[_ Hfind]%find_conflicts_spec ->].
  assert (Hclear : ∀ its, its = without names (items m) → ∀ n i c, its !! n = Some i → c ∈ removals → n ∈ owners (by_coin m) c →
    clear_of (find_spend_of spends c) i c).
  { intros its -> n i c [Hn Hi]%without_lookup Hc Ho. by destruct (Hfind c n i Hc Ho Hi). }
  case_bool_decide as Hnil.
  { split; [done|]. split; [apply same_rest_refl|]. split; [by exists []|]. apply Hclear. by rewrite Hnil. }
  pose proof Hm as (adds & Hp & Hc). destruct (can_replace _ _ _ _ _ _ _).
  - destruct (remove_all_spec coin_hash adds names m Hp) as (m' & -> & Hp' & Hs & Hi).
    split; [exists adds; split; [done|]; by eapply same_rest_caches|]. split; [done|]. split; [by exists names|]. by apply Hclear.
  - destruct (cache_conflict_caches coin_hash name bundle conds fee (conds_cost conds) m Hg) as [Hc' Hs]; [split; [apply Hg|done]|done|].
    split; [by eapply same_items_ok|]. exact (same_items_items _ _ Hs).
Qed.

(** *** [add_to_pool] *)
Lemma pool_ok_next adds m : pool_ok adds m → next_seq m + 1 < 2 ^ 64 → pool_ok adds (m <| next_seq := next_seq m + 1 |>).
Proof.
  intros Hm Hn. destruct Hm as [P1 P2 P3 P4 P5 P6 P7 P8 P9 P10 P11 P12]. constructor; cbn; try done; [|lia].
  intros n i Hi. destruct (P1 _ _ Hi). split; [done|]. lia.
Qed.

Lemma add_to_pool_spec adds item m :
  pool_ok adds m → caches_ok m → item_ok coin_hash (max_tx_cost m) (item_name item) item → items m !! item_name item = None →
  adds ≤ item_seq item < next_seq m → (∀ n i, items m !! n = Some i → item_seq i ≠ item_seq item) →
  total_fee m + item_fee item ≤ I64_MAX → (∀ n i c, items m !! n = Some i → plain item c → plain i c → shared item i c) →
  outcome (λ _ m', peak m' = peak m ∧ ∃ names, items m' = <[item_name item := item]> (without names (items m)))
    (λ e m', e = MempoolError.FeeTooLow ∧ m' = m) (add_to_pool item m).
Proof.
  intros Hm Hca Hio Hn Hseq Hfresh Hfee Hexcl. unfold add_to_pool, mbind, pool_bind.
  destruct (sweep_spec coin_hash adds item m Hm) as [->|(m1 & l1 & -> & Hm1 & Hs1 & Hi1)]; [apply Hio|split; [by exists adds|done]|].
  destruct (same_rest_next _ _ Hs1) as (N1 & N2 & N3 & _).
  destruct (evict_spec coin_hash adds item m1 Hm1) as (m2 & l2 & -> & Hm2 & Hs2 & Hi2 & Hcost); [rewrite N2; apply Hio|].
  destruct (same_rest_next _ _ Hs2) as (N4 & N5 & N6 & _).
  assert (Hi : items m2 = without (l1 ++ l2) (items m)) by (by rewrite without_app, <- Hi1).
  assert (Hsub : ∀ n i, items m2 !! n = Some i → items m !! n = Some i) by (rewrite Hi; intros n i Hx; by apply without_lookup in Hx as [_ ?]).
  destruct (insert_spec coin_hash adds item m2 Hm2) as (m3 & -> & Hm3 & Hs3 & Hi3).
  - by rewrite N5, N2.
  - destruct (items m2 !! item_name item) as [x|] eqn:Hx; [|done]. apply Hsub in Hx. congruence.
  - lia.
  - intros n i Hx. by eapply Hfresh, Hsub.
  - lia.
  - rewrite (po_fee _ _ _ Hm2), Hi. rewrite (po_fee _ _ _ Hm) in Hfee.
    pose proof (map_sum_without item_fee (l1 ++ l2) (items m)) as Hle.
    etrans; [|exact Hfee]. apply Z.add_le_mono_r, Hle. intros n i Hx. destruct (po_items _ _ _ Hm _ _ Hx) as [[] _]. lia.
  - intros n i c Hx. by eapply Hexcl, Hsub.
  - split.
    + exists (adds + 1). split; [done|]. eapply same_rest_caches; [|exact Hca].
      exact (same_rest_trans _ _ _ Hs1 (same_rest_trans _ _ _ Hs2 Hs3)).
    + cbn [fst]. split; [by apply (same_rest_next m m3), (same_rest_trans _ _ _ Hs1 (same_rest_trans _ _ _ Hs2 Hs3))|]. exists (l1 ++ l2). by rewrite Hi3, Hi.
Qed.

(** The sequence number is taken, then the item enters. *)
Lemma enter_spec name fee (mk : Z → MempoolItem) m :
  mempool_ok m →
  (∀ seq, item_name (mk seq) = name ∧ item_seq (mk seq) = seq ∧ item_fee (mk seq) = fee ∧
    (0 ≤ seq → item_ok coin_hash (max_tx_cost m) name (mk seq))) →
  items m !! name = None → total_fee m + fee ≤ I64_MAX →
  (∀ seq n i c, items m !! n = Some i → plain (mk seq) c → plain i c → shared (mk seq) i c) →
  outcome (λ a m', a = name ∧ peak m' = peak m ∧ ∃ seq names, items m' = <[name := mk seq]> (without names (items m)))
    (λ e m', e = MempoolError.FeeTooLow ∧ items m' = items m ∧ peak m' = peak m)
    ((m ← pool_get; let seq := next_seq m in next ← pool_lift (chk 64 (seq + 1));
      _ ← pool_modify (λ m, m <| next_seq := next |>); _ ← add_to_pool (mk seq); mret name) m).
Proof.
  intros Hm Hmk Hn Hfee Hexcl. pose proof Hm as (adds & Hp & Hc). pose proof (po_seq _ _ _ Hp) as Hseq. cbv zeta.
  eapply outcome_bind; [apply (outcome_get (λ a m', a = m ∧ m' = m)); done|]. intros a m1 _ [-> ->].
  unfold mbind at 1, pool_bind at 1, pool_lift. destruct (chk 64 (next_seq m + 1)) as [next|e|] eqn:Hk.
  - apply chk_Ok in Hk as [Hk ->]. unfold uok in Hk. destruct (Hmk (next_seq m)) as (M1 & M2 & M3 & M4).
    unfold mbind at 1, pool_bind at 1, pool_modify.
    eapply outcome_bind; [eapply outcome_impl; [apply (add_to_pool_spec adds)| |]|].
    + apply pool_ok_next; [done|lia].
    + by destruct Hc.
    + rewrite M1. apply M4. lia.
    + by rewrite M1.
    + rewrite M2. cbn. lia.
    + cbn. intros n i Hi. destruct (po_items _ _ _ Hp _ _ Hi) as [_ Hlt]. lia.
    + by rewrite M3.
    + apply Hexcl.
    + intros a m1 Hx. exact Hx.
    + by intros e m1 [-> ->].
    + intros _ m1 Hm1 (Hpk & names & Hi). split; [done|]. split; [done|]. split; [done|]. exists (next_seq m), names. rewrite M1 in Hi. exact Hi.
  - by apply chk_not_Err in Hk.
  - split; [done|]. cbn. unfold U64_MAX. destruct (decide (next_seq m + 1 < 2 ^ 64)) as [Hlt|]; [|lia].
    rewrite chk_ok in Hk by (unfold uok; lia). done.
Qed.

(** ** [admit] *)
(** A bundle that is refused leaves the items as they were; only a
    replacement that then finds no room leaves without what it replaced. *)
Definition refused (m : Mempool) (e : MempoolError.t) (m' : Mempool) : Prop :=
  peak m' = peak m ∧ (items m' = items m ∨ (e = MempoolError.FeeTooLow ∧ ∃ names, items m' = without names (items m))).
(** An accepted bundle is resident with its own data, its locks open at the
    peak. *)
Definition resident (bundle : SpendBundle) (conds : SpendBundleConditions) (m : Mempool) (name : list Z) (m' : Mempool) : Prop :=
  bundle_name bundle = Ok name ∧
  match items m !! name with
  | Some _ => m' = m
  | None => ∃ item names, items m' = <[name := item]> (without names (items m)) ∧ item_bundle item = bundle ∧
      item_conds item = conds ∧ item_fee item = bundle_fee conds ∧ item_cost item = conds_cost conds ∧
      peak m' = peak m ∧ ∀ h t, peak m = Some (h, t) → open_at (item_timelocks item) h t
  end.

Lemma admit_new_spec store bundle conds name h t m :
  store_ok store → genuine bundle conds → mempool_ok m → items m !! name = None → peak m = Some (h, t) →
  0 < conds_cost conds ≤ max_tx_cost m →
  outcome (λ a m', a = name ∧ ∃ item names, items m' = <[name := item]> (without names (items m)) ∧ item_bundle item = bundle ∧
      item_conds item = conds ∧ item_fee item = bundle_fee conds ∧ item_cost item = conds_cost conds ∧
      peak m' = peak m ∧ open_at (item_timelocks item) h t)
    (refused m) (admit_new store bundle conds name h t m).
Proof.
  intros Hst Hg Hm Hn Hpeak Hcost. pose proof Hm as (adds & Hp & Hc). unfold admit_new. cbv zeta.
  assert (HR : ∀ e, refused m e m) by (by split; [|left]).
  destruct (build_spends_spec store bundle conds Hst Hg) as [Hb1 Hb2].
  eapply outcome_bind; [apply (outcome_lift _ (λ s m', build_bundle_coin_spends store bundle conds = Ok s ∧ m' = m)); try done|].
  intros coin_spends0 m1 _ [Hspends ->]. destruct (Hb2 _ Hspends) as [Hmap Hlin].
  eapply outcome_bind; [apply (outcome_lift _ (λ _ m', m' = m)); [done|apply ok_or_no_panic|done|done]|]. intros records0 m1 _ ->.
  eapply outcome_bind; [apply (outcome_lift _ (λ _ m', m' = m)); [done|apply removal_records_no_panic|done|done]|]. intros records m1 _ ->.
  eapply outcome_bind; [apply (outcome_get (λ a m', a = m ∧ m' = m)); done|]. intros a m1 _ [-> ->].
  destruct (check_fee_spec adds m (bundle_fee conds) (conds_cost conds) Hp) as [Hf1 Hf2].
  eapply outcome_bind; [apply (outcome_lift _ (λ s m', check_fee m (bundle_fee conds) (conds_cost conds) = Ok s ∧ m' = m)); try done|].
  intros [] m1 _ [Hfee%Hf2 ->].
  eapply outcome_bind; [apply (outcome_lift _ (λ _ m', m' = m)); [done|apply check_unspent_no_panic|done|done]|]. intros _ m1 _ ->.
  set (tl := effective_timelocks records conds).
  eapply outcome_bind; [eapply outcome_impl; [by apply (check_locks_spec name bundle conds records tl h t)| |]|].
  { intros a m1 Hx. exact Hx. } { intros e m1 [Hx Hpk]. split; [done|by left]. }
  intros _ m1 _ [-> [Hopen _]%check_time_locks_spec].
  eapply outcome_bind; [eapply outcome_impl; [apply resolve_conflicts_spec; [done|done|lia]| |]|].
  { intros a m1 Hx. exact Hx. } { intros e m1 [Hx Hpk]. split; [done|by left]. }
  intros _ m1 Hm1 (Hs & (names & Hi) & Hclear). destruct (same_rest_next _ _ Hs) as (_ & N2 & _ & Npk).
  assert (Hfee1 : total_fee m1 ≤ total_fee m).
  { destruct Hm1 as (adds1 & Hp1 & _). rewrite (po_fee _ _ _ Hp1), (po_fee _ _ _ Hp), Hi. apply map_sum_without.
    intros n i Hx. destruct (po_items _ _ _ Hp _ _ Hx) as [[] _]. lia. }
  eapply outcome_impl; [apply (enter_spec name (bundle_fee conds) (λ seq, {| item_bundle := bundle; item_conds := conds; item_name := name;
    item_fee := bundle_fee conds; item_cost := conds_cost conds; item_spends := zlen (spends conds); item_removals := removals_for_conditions conds;
    item_coin_spends := coin_spends0; item_timelocks := tl; item_height_added := h; item_seq := seq |})); try done| |].
  - intros seq. split_and!; [done..|]. intros Hseq. rewrite N2. constructor; cbn; try done.
    + unfold bundle_fee, sat_sub, U64_MAX in *. lia.
    + pose proof (gn_spends _ _ Hg). unfold zlen, SPEND_PENALTY_COST in *. lia.
    + by eapply po_peak.
    + intros id Hne Hid. by eapply spends_matched.
  - rewrite Hi. destruct (without names (items m) !! name) as [x|] eqn:Hx; [|done]. apply without_lookup in Hx. naive_solver.
  - lia.
  - intros seq n i c Hn1 Hpc Hpi. pose proof Hm1 as (adds1 & Hp1 & _). destruct (po_items _ _ _ Hp1 _ _ Hn1) as [Hio _].
    eapply clear_shared; [exact Hio|done|done|]. apply (Hclear n i c Hn1); [by destruct Hpc|].
    rewrite Hi in Hn1. apply without_lookup in Hn1 as [_ Hn1]. apply (po_index _ _ _ Hp). exists i. split; [done|]. by apply plain_key.
  - intros a m2 (-> & Hpk & seq & names' & Hi2). split; [done|]. eexists _, (names ++ names'). rewrite Hi2, Hi, without_app, Hpk, Npk. by split_and!.
  - intros e m2 (-> & Hi2 & Hpk). split; [by rewrite Hpk|]. right. split; [done|]. exists names. by rewrite Hi2.
Qed.

Lemma admit_outcome store bundle conds m :
  store_ok store → genuine bundle conds → mempool_ok m → outcome (resident bundle conds m) (refused m) (admit_bundle store bundle conds m).
Proof.
  intros Hst Hg Hm. unfold admit_bundle. destruct (bundle_name_total bundle) as [name Hname]. rewrite Hname.
  eapply outcome_bind; [apply (outcome_lift _ (λ a m', a = name ∧ m' = m)); [done..|naive_solver|by split; [|left]]|]. intros a m1 _ [-> ->].
  eapply outcome_bind; [apply (outcome_get (λ a m', a = m ∧ m' = m)); done|]. intros a m1 _ [-> ->].
  case_bool_decide as Hin.
  { split; [done|]. split; [done|]. by destruct Hin as [i ->]. }
  apply eq_None_not_Some in Hin. assert (HR : ∀ e, refused m e m) by (by split; [|left]).
  destruct (peak m) as [[h t]|] eqn:Hpeak; [|split; [done|apply HR]]. pose proof (gn_cost _ _ Hg).
  destruct (Z.eqb_spec (conds_cost conds) 0); [split; [done|apply HR]|].
  destruct (Z.ltb_spec (max_tx_cost m) (conds_cost conds)); [split; [done|apply HR]|].
  eapply outcome_impl; [apply (admit_new_spec store bundle conds name h t m); try done; lia| |done].
  intros a m' (-> & item & names & Hi & ? & ? & ? & ? & ? & ?). split; [done|]. rewrite Hin. exists item, names.
  split_and!; [done..|]. intros h' t' Hpk. by simplify_eq.
Qed.
End admission.
