(* ===== verification/MempoolPeak.v ===== *)
(** * A new peak and a reorganisation keep the mempool's invariant

    [new_peak] drops the items a block spent, moves the fast-forward spends of
    the others to the newest version of their singletons, and retries the
    cached bundles; [revalidate_for_reorg] checks every item against the
    store.  Both change lineages and the index together. *)
From Stdlib Require Import ZArith Lia.
From stdpp Require Import base list numbers option gmap sets sorting.
From S2P Require Import Prelude Serialize ClvmNumber ClvmSexp Coin ClvmPath ClvmParser ClvmCanonical PotIterations Conditions SpendConditions BlockConditions BlockGenerator GeneratorProgram FastForward BlockValidation Float64 Mempool MempoolInvariant MempoolAdmission.

Open Scope Z_scope.

(** ** The keys of an item *)
Section keys.
Context `{BigIntBytes, Sha256}.
(** The newest version a fast-forward spend follows. *)
Definition ff_key (i : MempoolItem) (k : list Z) : Prop :=
  ∃ id b l, id ∈ item_removals i ∧ bundle_coin_spend i id = Some b ∧ latest_singleton_lineage b = Some l ∧ lineage_coin_id l = k.

Lemma index_keys_spec i k : k ∈ index_keys i ↔ plain i k ∨ ff_key i k.
Proof.
  unfold index_keys. rewrite list_elem_of_fmap. split.
  - intros (id & -> & Hid). unfold index_key. fold (bundle_coin_spend i id). destruct (bundle_coin_spend i id) as [b|] eqn:Hb; [|left; split; [done|congruence]].
    destruct (latest_singleton_lineage b) as [l|] eqn:Hl; [right; by exists id, b, l|left; split; [done|congruence]].
  - intros [Hp|(id & b & l & Hid & Hb & Hl & Hk)].
    + by apply list_elem_of_fmap, plain_key.
    + exists id. unfold index_key. fold (bundle_coin_spend i id). by rewrite Hb, Hl.
Qed.

Lemma find_map_spend (f : BundleCoinSpend → BundleCoinSpend) l id :
  (∀ b, coin_spend (f b) = coin_spend b) → find_spend_of (map f l) id = f <$> find_spend_of l id.
Proof.
  intros Hf. unfold find_spend_of. induction l as [|b l IH]; cbn; [done|]. assert (spend_id (f b) = spend_id b) as -> by (unfold spend_id; by rewrite Hf).
  by case_bool_decide.
Qed.
(** What a change of lineages keeps. *)
Definition spend_facts (b : BundleCoinSpend) : CoinSpend * bool * bool := (coin_spend b, eligible_for_dedup b, has_lineage b).
Definition same_spends (i i' : MempoolItem) : Prop :=
  item_removals i' = item_removals i ∧ map spend_facts (item_coin_spends i') = map spend_facts (item_coin_spends i).
Lemma facts_find l l' id : map spend_facts l' = map spend_facts l → spend_facts <$> find_spend_of l' id = spend_facts <$> find_spend_of l id.
Proof.
  unfold find_spend_of. revert l'. induction l as [|b l IH]; intros [|b' l'] Hm; cbn; try done. injection Hm as Hb Hd Hl Hm.
  unfold spend_id. rewrite Hb. case_bool_decide; [|by apply IH]. unfold spend_facts. cbn. by rewrite Hb, Hd, Hl.
Qed.
Lemma same_spends_plain i i' c : same_spends i i' → plain i' c → plain i c.
Proof.
  intros [Hr Hm] [Hc Hp]. split; [by rewrite <- Hr|]. intros b Hb. pose proof (facts_find _ _ c Hm) as Hf.
  fold (bundle_coin_spend i c) (bundle_coin_spend i' c) in Hf. rewrite Hb in Hf. destruct (bundle_coin_spend i' c) as [b'|]; [|done].
  specialize (Hp b' eq_refl). injection Hf as _ _ Hl. unfold has_lineage in Hl. rewrite Hp in Hl. rewrite (bool_decide_false (is_Some None)) in Hl by (by intros []).
  symmetry in Hl. apply bool_decide_eq_false in Hl. by apply eq_None_not_Some.
Qed.
Lemma same_spends_shared i i' x c : same_spends i i' → shared i x c → shared i' x c.
Proof.
  intros [Hr Hm] (b & b' & Hb & Hb' & Hd & Hd' & Hs). pose proof (facts_find _ _ c Hm) as Hf.
  fold (bundle_coin_spend i c) (bundle_coin_spend i' c) in Hf. rewrite Hb in Hf. destruct (bundle_coin_spend i' c) as [b1|] eqn:Hb1; [|done].
  injection Hf as Hcs Hdd _. exists b1, b'. rewrite Hcs, Hdd. done.
Qed.

Lemma rebase_spend_coin s L b : coin_spend (rebase_spend s L b) = coin_spend b.
Proof. unfold rebase_spend. by destruct (lineage_is s b). Qed.
Lemma rebase_spend_lineage s L b :
  latest_singleton_lineage (rebase_spend s L b) =
    (λ l, if bool_decide (lineage_coin_id l = s) then L else l) <$> latest_singleton_lineage b.
Proof.
  unfold rebase_spend, lineage_is. destruct (latest_singleton_lineage b) as [l|] eqn:Hl; cbn; [|done].
  case_bool_decide; cbn; [done|by rewrite Hl].
Qed.

Lemma rebase_item_spend s L i id : bundle_coin_spend (rebase_item s L i) id = rebase_spend s L <$> bundle_coin_spend i id.
Proof. apply find_map_spend, rebase_spend_coin. Qed.
Lemma rebase_item_plain s L i k : plain (rebase_item s L i) k ↔ plain i k.
Proof.
  unfold plain. change (item_removals (rebase_item s L i)) with (item_removals i). rewrite rebase_item_spend.
  destruct (bundle_coin_spend i k) as [b|]; cbn; [|naive_solver].
  split; intros [? Hb]; (split; [done|]); intros ? [= <-]; specialize (Hb _ eq_refl); rewrite rebase_spend_lineage in *;
    by destruct (latest_singleton_lineage b).
Qed.
Lemma rebase_item_ff s L i k : ff_key (rebase_item s L i) k ↔ (ff_key i k ∧ k ≠ s) ∨ (ff_key i s ∧ k = lineage_coin_id L).
Proof.
  unfold ff_key. change (item_removals (rebase_item s L i)) with (item_removals i). setoid_rewrite rebase_item_spend. split.
  - intros (id & b' & l' & Hid & Hb & Hl & <-). destruct (bundle_coin_spend i id) as [b|] eqn:Hbi; [|done]. injection Hb as <-.
    rewrite rebase_spend_lineage in Hl. destruct (latest_singleton_lineage b) as [l|] eqn:Hlb; [|done]. cbn in Hl.
    case_bool_decide as Hs; injection Hl as <-; [right|left]; (split; [by exists id, b, l|done]).
  - intros [[(id & b & l & Hid & Hb & Hl & <-) Hne]|[(id & b & l & Hid & Hb & Hl & <-) ->]];
      [exists id, (rebase_spend s L b), l|exists id, (rebase_spend (lineage_coin_id l) L b), L];
      (split; [done|]; split; [by rewrite Hb|]); rewrite rebase_spend_lineage, Hl; cbn.
    + by rewrite bool_decide_false.
    + by rewrite bool_decide_true.
Qed.

(** The keys after a rebase: the old version's key becomes the new one's. *)
Lemma rebase_item_keys s L i k :
  ¬ plain i s → s ∈ index_keys i ∨ lineage_coin_id L ∈ index_keys i →
  k ∈ index_keys (rebase_item s L i) ↔ (k ∈ index_keys i ∧ k ≠ s) ∨ k = lineage_coin_id L.
Proof.
  intros Hp. rewrite !index_keys_spec, rebase_item_plain, rebase_item_ff. intros Hk.
  destruct (decide (lineage_coin_id L = s)) as [<-|Hne]; split; naive_solver.
Qed.

Lemma indexed_move its idx o i i' s new :
  indexed its idx → its !! o = Some i → (∀ k, k ∈ index_keys i' ↔ (k ∈ index_keys i ∧ k ≠ s) ∨ k = new) →
  indexed (<[o := i']> its) (index_move o s new idx).
Proof.
  intros [Hw Hi] Ho Hk. split; [by apply index_move_wf|]. intros k n. rewrite index_move_owners, Hi.
  destruct (decide (n = o)) as [->|Hne].
  - setoid_rewrite lookup_insert_eq. rewrite Ho. split.
    + intros [[(x & [= <-] & Hx) Hn]|[_ ->]]; eexists; (split; [done|]); apply Hk; naive_solver.
    + intros (x & [= <-] & Hx). apply Hk in Hx. naive_solver.
  - rewrite lookup_insert_ne by done. naive_solver.
Qed.
Lemma indexed_same its idx o i i' :
  indexed its idx → its !! o = Some i → (∀ k, k ∈ index_keys i' ↔ k ∈ index_keys i) → indexed (<[o := i']> its) idx.
Proof.
  intros [Hw Hi] Ho Hk. split; [done|]. intros k n. rewrite Hi. destruct (decide (n = o)) as [->|Hne].
  - rewrite lookup_insert_eq, Ho. naive_solver.
  - by rewrite lookup_insert_ne.
Qed.

End keys.

Section peak.
Context `{BigIntBytes, Sha256, HashOrderOk, EstimatorOk} (coin_hash : list Z → list Z).
Notation pool_ok := (pool_ok coin_hash).
Notation store_ok := (store_ok coin_hash).
Notation mempool_ok := (mempool_ok coin_hash).

(** An item changed in its lineages only, with the index to match. *)
Lemma pool_ok_update adds m o i i' idx :
  pool_ok adds m → items m !! o = Some i → item_ok coin_hash (max_tx_cost m) o i' →
  item_cost i' = item_cost i → item_fee i' = item_fee i → item_seq i' = item_seq i → same_spends i i' →
  indexed (<[o := i']> (items m)) idx →
  pool_ok adds (m <| items := <[o := i']> (items m) |> <| by_coin := idx |>).
Proof.
  intros Hm Ho Hio Hc Hf Hs Hsame Hidx. destruct Hm as [P1 P2 P3 P4 P5 P6 P7 P8 P9 P10 P11 P12].
  constructor; cbn; try done.
  - apply map_Forall_insert_2; [|done]. split; [done|]. rewrite Hs. by apply (P1 _ _ Ho).
  - intros n n' x x' Hx Hx'. rewrite lookup_insert_Some in Hx, Hx'.
    destruct Hx as [[<- <-]|[_ Hx]], Hx' as [[<- <-]|[_ Hx']]; rewrite ?Hs; eauto.
  - by rewrite (map_sum_update _ _ _ _ _ Ho).
  - by rewrite (map_sum_update _ _ _ _ _ Ho).
  - apply exclusive_insert; [done|]. intros n' x c Hx Hne Hp Hp'. eapply same_spends_shared; [done|].
    eapply (P12 o n'); [done|done|done|by eapply same_spends_plain|done].
Qed.

Lemma item_ok_lineages max_tx o i l :
  item_ok coin_hash max_tx o i → Forall (lineage_ok coin_hash) l → map coin_spend l = map coin_spend (item_coin_spends i) →
  item_ok coin_hash max_tx o (i <| item_coin_spends := l |>).
Proof.
  intros [I1 I2 I3 I4 I5 I6 I7 I8] Hl Hm. constructor; cbn; try done. intros id Hne Hid.
  assert (Hs : ∀ l l' : list BundleCoinSpend, map coin_spend l = map coin_spend l' → is_Some (find_spend_of l id) → is_Some (find_spend_of l' id)).
  { clear. unfold find_spend_of. induction l as [|b l IH]; intros [|b' l'] Hm; cbn; try done. injection Hm as Hb Hm.
    unfold spend_id. rewrite Hb. case_bool_decide; [by eexists|]. by apply IH. }
  eapply Hs; [symmetry; exact Hm|]. apply I7; [|done]. intros Hn. rewrite Hn in Hm. by destruct l.
Qed.

(** ** The items a block touches *)
(** An item under one of the spent coins. *)
Definition hit (m : Mempool) (spent : list (list Z)) (o : list Z) : Prop := ∃ s, s ∈ spent ∧ o ∈ owners (by_coin m) s.

(** What holds while the spent coins are gone through. *)
Record touch_ok (m : Mempool) (spent : list (list Z)) (t : touched) : Prop := {
  to_deferred s o : (s, o) ∈ deferred_ff t → ∃ i, items m !! o = Some i ∧ s ∈ index_keys i ∧ ¬ plain i s;
  to_deferred_hit s o : (s, o) ∈ deferred_ff t → hit m spent o;
  to_removed_hit o : o ∈ to_remove t → hit m spent o;
}.
Definition handled (t : touched) (s o : list Z) : Prop := o ∈ to_remove t ∨ (s, o) ∈ deferred_ff t.

Lemma touch_step adds m spent s o t :
  pool_ok adds m → s ∈ spent → o ∈ owners (by_coin m) s → touch_ok m spent t →
  touch_ok m spent (touch m s t o) ∧ handled (touch m s t o) s o ∧ ∀ s' o', handled t s' o' → handled (touch m s t o) s' o'.
Proof.
  intros Hm Hs Ho Ht. assert (Hhit : hit m spent o) by (by exists s). destruct Ht as [T1 T2 T3]. unfold handled, touch.
  case_bool_decide as Hin; [split; [by constructor|]; naive_solver|].
  pose proof Ho as (i & Hi & Hk)%(po_index _ _ _ Hm). rewrite Hi.
  destruct (po_items _ _ _ Hm _ _ Hi) as [[_ _ _ _ _ _ I7 _] _].
  assert (Hdefer : ¬ plain i s →
    let t' := {| to_remove := to_remove t; included := included t; deferred_ff := deferred_ff t ++ [(s, o)] |} in
    touch_ok m spent t' ∧ handled t' s o ∧ ∀ s' o', handled t s' o' → handled t' s' o').
  { intros Hp. cbv zeta. split; [constructor; cbn; [| |done]|split].
    - intros s' o' [Hd|[= -> ->]%list_elem_of_singleton]%elem_of_app; eauto.
    - intros s' o' [Hd|[= -> ->]%list_elem_of_singleton]%elem_of_app; eauto.
    - right. cbn. set_solver.
    - intros s' o' [Hr|Hd]; [by left|right; cbn; set_solver]. }
  assert (Hinclude :
    let t' := {| to_remove := {[o]} ∪ to_remove t; included := included t ++ [(item_cost i, item_fee i, item_height_added i)];
                 deferred_ff := deferred_ff t |} in
    touch_ok m spent t' ∧ handled t' s o ∧ ∀ s' o', handled t s' o' → handled t' s' o').
  { cbv zeta. split; [constructor; cbn; [done|done|]|split].
    - intros o' [->%elem_of_singleton|Hr]%elem_of_union; eauto.
    - left. cbn. set_solver.
    - intros s' o' [Hr|Hd]; [left; cbn; set_solver|by right]. }
  destruct (bundle_coin_spend i s) as [b|] eqn:Hb.
  - unfold has_lineage. case_bool_decide as Hl; [|exact Hinclude]. apply Hdefer. intros [_ Hp]. rewrite (Hp _ Hb) in Hl. by destruct Hl.
  - destruct (existsb _ _) eqn:He; [|exact Hinclude]. apply Hdefer. intros [Hr _].
    destruct (I7 s) as [b Hb']; [|done|congruence]. by intros Hn; rewrite Hn in He.
Qed.

Lemma touch_owners adds m spent s l t :
  pool_ok adds m → s ∈ spent → l ⊆ owners (by_coin m) s → touch_ok m spent t →
  let t' := foldl (touch m s) t l in
  touch_ok m spent t' ∧ (∀ o, o ∈ l → handled t' s o) ∧ ∀ s' o', handled t s' o' → handled t' s' o'.
Proof.
  intros Hm Hs. revert t. induction l as [|o l IH]; intros t Hl Ht; cbn [foldl]; [split; [done|]; set_solver|].
  destruct (touch_step adds m spent s o t) as (Ht' & Ho & Hmono); [done|done|set_solver|done|].
  destruct (IH (touch m s t o)) as (Ht'' & Hl' & Hmono'); [set_solver|done|]. split; [done|]. split; [|auto].
  intros o' [->|Ho']%elem_of_cons; auto.
Qed.

Lemma touch_spent_spec adds m spent :
  pool_ok adds m → touch_ok m spent (touch_spent m spent) ∧ ∀ s o, s ∈ spent → o ∈ owners (by_coin m) s → handled (touch_spent m spent) s o.
Proof.
  intros Hm. unfold touch_spent. set (t0 := {| to_remove := ∅; included := []; deferred_ff := [] |}).
  assert (H0' : touch_ok m spent t0) by (constructor; cbn; [intros ?? []%not_elem_of_nil..|set_solver]).
  assert (Hg : ∀ l t, l ⊆ spent → touch_ok m spent t →
    let t' := foldl (λ t s, foldl (touch m s) t (default [] (by_coin m !! s))) t l in
    touch_ok m spent t' ∧ (∀ s o, s ∈ l → o ∈ owners (by_coin m) s → handled t' s o) ∧ ∀ s' o', handled t s' o' → handled t' s' o').
  { clear H0' t0. induction l as [|s l IH]; intros t Hl Ht; cbn [foldl]; [split; [done|]; set_solver|].
    destruct (touch_owners adds m spent s (default [] (by_coin m !! s)) t) as (Ht' & Ho & Hmono); [done|set_solver|done|done|].
    destruct (IH _ ltac:(set_solver) Ht') as (Ht'' & Hl' & Hmono'). split; [done|]. split; [|auto].
    intros s' o' [->|Hs']%elem_of_cons Ho'; eauto. }
  destruct (Hg spent t0) as (Ht & Hs & _); [done|done|]. by split.
Qed.

(** ** The lookups *)
(** A lookup that the rebase may rely on. *)
Definition ready (cache : gmap (list Z) (option UnspentLineageInfo)) (its : gmap (list Z) MempoolItem) (x : list Z * list Z * list Z) : Prop :=
  coin_hash x.1.2 = x.2 ∧ ∃ i, its !! x.1.1 = Some i ∧ ¬ plain i x.1.2 ∧
    ∀ L, default None (cache !! x.2) = Some L → x.1.2 ∈ index_keys i ∨ lineage_coin_id L ∈ index_keys i.
Definition cache_ok (cache : gmap (list Z) (option UnspentLineageInfo)) : Prop :=
  ∀ ph L, cache !! ph = Some (Some L) → coin_hash (lineage_coin_id L) = ph.

Lemma ff_lookups_spec adds m spent t :
  pool_ok adds m → touch_ok m spent t →
  let '(lookups, removed) := foldl (ff_lookups m) ([], to_remove t) (deferred_ff t) in
  (∀ cache, Forall (ready cache (items m)) lookups) ∧ to_remove t ⊆ removed ∧
  (∀ o, o ∈ removed ∨ o ∈ map (λ x, x.1.1) lookups → hit m spent o) ∧
  ∀ s o, (s, o) ∈ deferred_ff t → o ∈ removed ∨ (o, s, coin_hash s) ∈ lookups.
Proof.
  intros Hm [T1 T2 T3].
  assert (Hg : ∀ l lk rm, l ⊆ deferred_ff t → (∀ cache, Forall (ready cache (items m)) lk) →
    (∀ o, o ∈ rm ∨ o ∈ map (λ x, x.1.1) lk → hit m spent o) →
    let '(lookups, removed) := foldl (ff_lookups m) (lk, rm) l in
    (∀ cache, Forall (ready cache (items m)) lookups) ∧ rm ⊆ removed ∧ lk ⊆ lookups ∧
    (∀ o, o ∈ removed ∨ o ∈ map (λ x, x.1.1) lookups → hit m spent o) ∧
    ∀ s o, (s, o) ∈ l → o ∈ removed ∨ (o, s, coin_hash s) ∈ lookups).
  { induction l as [|[s o] l IH]; intros lk rm Hl Hlk Hhit; cbn [foldl]; [split_and!; set_solver|].
    destruct (T1 s o) as (i & Hi & Hk & Hp); [set_solver|]. assert (Ho : hit m spent o) by (apply (T2 s o); set_solver).
    assert (Hstep : ∃ lk' rm', ff_lookups m (lk, rm) (s, o) = (lk', rm') ∧ (∀ cache, Forall (ready cache (items m)) lk') ∧ rm ⊆ rm' ∧ lk ⊆ lk' ∧
      (∀ o, o ∈ rm' ∨ o ∈ map (λ x, x.1.1) lk' → hit m spent o) ∧ (o ∈ rm' ∨ (o, s, coin_hash s) ∈ lk')).
    { unfold ff_lookups. case_bool_decide as Hin; [exists lk, rm; by split_and!; [..|left]|]. rewrite Hi.
      set (found := filter _ _). assert (Hf : ∀ b, b ∈ found → puzzle_hash (cs_coin (coin_spend b)) = coin_hash s).
      { intros b [Hl' Hb]%list_elem_of_filter. unfold lineage_is in Hl'. destruct (latest_singleton_lineage b) as [L|] eqn:HL; [|done].
        cbn in Hl'. apply bool_decide_eq_true in Hl' as <-. destruct (po_items _ _ _ Hm _ _ Hi) as [[_ _ _ _ _ _ _ I8] _].
        rewrite Forall_forall in I8. symmetry. by apply (I8 b). }
      case_bool_decide as He.
      - exists lk, ({[o]} ∪ rm). split_and!; [done|done|set_solver|done| |left; set_solver].
        intros o' [[->%elem_of_singleton|Hr]%elem_of_union|Hr]; [done|apply Hhit; by left|apply Hhit; by right].
      - eexists _, rm. split_and!; [done| |done|set_solver| |].
        + intros cache. apply Forall_app. split; [done|]. apply Forall_map, Forall_forall. intros b Hb. split; [cbn; by rewrite (Hf b)|].
          exists i. split_and!; [done|done|by left].
        + intros o' [Hr|Hr]; [apply Hhit; by left|]. rewrite map_app, elem_of_app in Hr. destruct Hr as [Hr|Hr]; [apply Hhit; by right|].
          rewrite map_map in Hr. apply list_elem_of_fmap in Hr as (b & -> & _). done.
        + right. destruct found as [|b found']; [done|]. apply elem_of_app. right. apply list_elem_of_fmap. exists b.
          rewrite (Hf b) by apply list_elem_of_here. split; [done|apply list_elem_of_here]. }
    destruct Hstep as (lk' & rm' & -> & Hlk' & Hrm & Hsub & Hhit' & Hdone).
    specialize (IH lk' rm' ltac:(set_solver) Hlk' Hhit'). destruct (foldl _ _ _) as [lookups removed].
    destruct IH as (I1 & I2 & I3 & I4 & I5). split_and!; [done|set_solver|set_solver|done|].
    intros s' o' [[= -> ->]|Hin]%elem_of_cons; [|by apply I5]. destruct Hdone; [left|right]; set_solver. }
  specialize (Hg (deferred_ff t) [] (to_remove t) ltac:(done) ltac:(done)).
  destruct (foldl _ _ _) as [lookups removed]. destruct Hg as (G1 & G2 & _ & G4 & G5); [|by split_and!].
  intros o [Hr|Hr]; [by apply T3|]. cbn in Hr. by apply not_elem_of_nil in Hr.
Qed.

Lemma lookup_lineages_spec store l cache (P : UnspentLineageInfo → Prop) :
  store_ok store → (∀ ph L, get_unspent_lineage_info store ph = Some (Some L) → P L) → cache_ok cache →
  (∀ ph L, cache !! ph = Some (Some L) → P L) →
  lookup_lineages store l cache ≠ Panic ∧
  ∀ cache', lookup_lineages store l cache = Ok cache' → cache_ok cache' ∧ ∀ ph L, cache' !! ph = Some (Some L) → P L.
Proof.
  intros Hst HP. revert cache. induction l as [|[[o s] ph] l IH]; intros cache Hc Hcp; cbn [lookup_lineages].
  { split; [done|]. intros cache' [= <-]. by split. }
  unfold cache_lineage. destruct (cache !! ph) as [x|] eqn:Hph; cbn [mbind res_bind]; [by apply IH|].
  unfold from_store. destruct (get_unspent_lineage_info store ph) as [o'|] eqn:Hg; cbn [ok_or mbind res_bind]; [|done].
  apply IH; intros ph' L; (destruct (decide (ph' = ph)) as [->|Hne]; [rewrite lookup_insert_eq; intros [= ->]|rewrite lookup_insert_ne by done]); eauto.
Qed.

(** ** The rebase *)
Definition moved (m : Mempool) (r : rebasing) : Mempool :=
  m <| items := rebased_items r |>
    <| by_coin := foldl (λ idx '(new, current, owner), index_move owner current new idx) (by_coin m) (index_updates r) |>.

Lemma moved_step m r o s L i :
  rebased_items r !! o = Some i →
  moved m {| rebased_items := <[o := rebase_item s L i]> (rebased_items r); rebase_removed := rebase_removed r;
             index_updates := index_updates r ++ [(lineage_coin_id L, s, o)] |} =
  (moved m r) <| items := <[o := rebase_item s L i]> (items (moved m r)) |>
            <| by_coin := index_move o s (lineage_coin_id L) (by_coin (moved m r)) |>.
Proof. intros Hi. unfold moved. cbn. rewrite foldl_app. reflexivity. Qed.

Lemma rebase_item_same s L i : same_spends i (rebase_item s L i).
Proof.
  split; [done|]. cbn. rewrite map_map. apply map_ext. intros b. unfold spend_facts, has_lineage. rewrite rebase_spend_coin, rebase_spend_lineage.
  f_equal; [by unfold rebase_spend; destruct (lineage_is s b)|]. by destruct (latest_singleton_lineage b).
Qed.
Lemma rebase_item_ok max_tx o s L i :
  item_ok coin_hash max_tx o i → coin_hash (lineage_coin_id L) = coin_hash s → item_ok coin_hash max_tx o (rebase_item s L i).
Proof.
  intros Hi HL. apply item_ok_lineages; [done| |].
  - apply Forall_map. eapply Forall_impl; [apply Hi|]. intros b Hb l. cbn. rewrite rebase_spend_lineage, rebase_spend_coin.
    destruct (latest_singleton_lineage b) as [l0|] eqn:Hl; [|done]. cbn. intros [= <-]. specialize (Hb l0 Hl).
    case_bool_decide as Hs; [by rewrite HL, <- Hs|done].
  - rewrite map_map. apply map_ext. intros b. apply rebase_spend_coin.
Qed.

(** What holds before the lookups [l] are gone through. *)
Record rebase_ok (adds : Z) (m : Mempool) (spent : list (list Z)) (cache : gmap (list Z) (option UnspentLineageInfo))
    (l : list (list Z * list Z * list Z)) (r : rebasing) : Prop := {
  rb_pool : pool_ok adds (moved m r);
  rb_ready : Forall (ready cache (rebased_items r)) l;
  rb_settled o i s : s ∈ spent → rebased_items r !! o = Some i → s ∈ index_keys i →
    o ∈ rebase_removed r ∨ (o, s, coin_hash s) ∈ l ∨ ∃ ph L, cache !! ph = Some (Some L) ∧ lineage_coin_id L ∈ spent;
  rb_hit o : o ∈ rebase_removed r ∨ o ∈ map (λ x, x.1.1) l → hit m spent o;
  rb_others o : ¬ hit m spent o → rebased_items r !! o = items m !! o;
  rb_same o i' : rebased_items r !! o = Some i' → ∃ i, items m !! o = Some i ∧ i' = i <| item_coin_spends := item_coin_spends i' |>;
}.

Lemma rebase_step_ok adds m spent cache x l r :
  cache_ok cache → rebase_ok adds m spent cache (x :: l) r → rebase_ok adds m spent cache l (rebase_step cache r x).
Proof.
  intros Hc [R1 R2 R3 R4 R5 R6]. destruct x as [[o s] ph]. apply Forall_cons in R2 as [(Hph & i & Hi & Hp & HL) R2].
  cbn in Hph, Hi, Hp, HL. subst ph. unfold rebase_step.
  assert (Hhit : hit m spent o) by (apply R4; right; apply list_elem_of_here).
  assert (R4' : ∀ o', o' ∈ rebase_removed r ∨ o' ∈ map (λ x, x.1.1) l → hit m spent o').
  { intros o' [Hr|Hr]; apply R4; [by left|right; by apply list_elem_of_further]. }
  case_bool_decide as Hin.
  { constructor; try done. intros o' i' s' Hs' Ho' Hk. destruct (R3 _ _ _ Hs' Ho' Hk) as [?|[[[= -> ->]|?]%elem_of_cons|?]]; auto. }
  destruct (default None (cache !! coin_hash s)) as [L|] eqn:HcL.
  2:{ constructor; cbn; try done.
      - intros o' i' s' Hs' Ho' Hk. destruct (R3 _ _ _ Hs' Ho' Hk) as [?|[[[= -> ->]|?]%elem_of_cons|?]]; auto; left; set_solver.
      - intros o' [[->%elem_of_singleton|Hr]%elem_of_union|Hr]; auto. }
  assert (Hcs : cache !! coin_hash s = Some (Some L)) by (destruct (cache !! coin_hash s) as [[]|]; cbn in HcL; congruence).
  specialize (HL L eq_refl). rewrite Hi. pose proof (Hc _ _ Hcs) as HcL'.
  assert (Hkeys : ∀ k, k ∈ index_keys (rebase_item s L i) ↔ (k ∈ index_keys i ∧ k ≠ s) ∨ k = lineage_coin_id L) by (intros; by apply rebase_item_keys).
  constructor; cbn [rebased_items rebase_removed].
  - rewrite (moved_step m r o s L i Hi). apply (pool_ok_update _ _ _ i); [done|done| |done|done|done|apply rebase_item_same|].
    + apply rebase_item_ok; [|done]. by destruct (po_items _ _ _ R1 o i Hi).
    + eapply indexed_move; [apply (po_index _ _ _ R1)|done|done].
  - apply (Forall_impl _ _ _ R2). intros [[o' s'] ph'] (Hph' & i' & Hi' & Hp' & HL'). cbn in *. subst ph'.
    split; [done|]. destruct (decide (o' = o)) as [->|Hne]; cbn.
    + exists (rebase_item s L i). rewrite lookup_insert_eq. assert (i' = i) as -> by congruence.
      split; [done|]. rewrite rebase_item_plain. split; [done|]. intros L' HL0. rewrite !Hkeys.
      destruct (decide (s' = s)) as [->|Hs]; [right; right; congruence|].
      destruct (HL' L' HL0) as [?|Hk]; [naive_solver|]. right. destruct (decide (lineage_coin_id L' = s)) as [Heq|]; [|naive_solver].
      right. assert (coin_hash s' = coin_hash s) as Hss.
      { rewrite <- Heq. symmetry. apply Hc. destruct (cache !! coin_hash s') as [[]|]; cbn in HL0; congruence. }
      rewrite Hss in HL0. congruence.
    + exists i'. by rewrite lookup_insert_ne.
  - intros o' i' s' Hs' Ho' Hk. destruct (decide (o' = o)) as [->|Hne].
    + rewrite lookup_insert_eq in Ho'. injection Ho' as <-. apply Hkeys in Hk as [[Hk Hne]| ->]; [|eauto 10].
      destruct (R3 _ _ _ Hs' Hi Hk) as [?|[[[= ->]|?]%elem_of_cons|?]]; auto; done.
    + rewrite lookup_insert_ne in Ho' by done. destruct (R3 _ _ _ Hs' Ho' Hk) as [?|[[[= -> ->]|?]%elem_of_cons|?]]; auto; done.
  - done.
  - intros o' Ho'. destruct (decide (o' = o)) as [->|Hne]; [done|]. rewrite lookup_insert_ne by done. by apply R5.
  - intros o' i' Ho'. destruct (decide (o' = o)) as [->|Hne]; [|rewrite lookup_insert_ne in Ho' by done; by apply R6].
    rewrite lookup_insert_eq in Ho'. injection Ho' as <-. destruct (R6 _ _ Hi) as (i0 & Hi0 & ->). by exists i0.
Qed.

Lemma rebase_fold_ok adds m spent cache l r :
  cache_ok cache → rebase_ok adds m spent cache l r → rebase_ok adds m spent cache [] (foldl (rebase_step cache) r l).
Proof. intros Hc. revert r. induction l as [|x l IH]; intros r Hr; cbn [foldl]; [done|]. by apply IH, rebase_step_ok. Qed.

(** ** The items dropped *)
Lemma drop_spec adds l m :
  pool_ok adds m → caches_ok m →
  ∃ m', pool_for l (λ name, _ ← pool_modify (remove_seen name); _ ← remove_inner name; mret tt) m = (m', Ok tt) ∧
    pool_ok adds m' ∧ caches_ok m' ∧ peak m' = peak m ∧ items m' = without l (items m).
Proof.
  revert m. induction l as [|n l IH]; intros m Hm Hc; cbn [pool_for without foldl]; [by exists m|].
  destruct (remove_seen_caches coin_hash n m Hc) as [Hc1 Hs1].
  destruct (remove_inner_spec coin_hash adds n (remove_seen n m)) as (m2 & Hr & Hm2 & Hs2 & Hi2); [by eapply same_items_pool|].
  destruct (IH m2 Hm2) as (m' & Hl & Hm' & Hc' & Hpk & Hi'); [by eapply same_rest_caches|].
  destruct (same_items_items _ _ Hs1) as [Hi1 Hp1]. destruct (same_rest_next _ _ Hs2) as (_ & _ & _ & Hp2).
  exists m'. split; [|split_and!; [done|done|by rewrite Hpk, Hp2|by rewrite Hi', Hi2, Hi1]].
  unfold mbind, pool_bind, pool_modify in *. rewrite Hr. cbn. exact Hl.
Qed.

Lemma pool_ok_estimator adds m e : pool_ok adds m → estimator_inv adds e → pool_ok adds (m <| fee_estimator := e |>).
Proof. intros [P1 P2 P3 P4 P5 P6 P7 P8 P9 P10 P11 P12] He. by constructor. Qed.

(** What [apply_spent] leaves: items of before, changed in their lineages at
    most; the items no spent coin touches are as they were; and no item is indexed under a spent coin, unless the store gave a
    spent coin as the newest version of a singleton. *)
Definition spent_applied (store : CoinStore) (spent : list (list Z)) (m m' : Mempool) : Prop :=
  peak m' = peak m ∧
  (∀ o i', items m' !! o = Some i' → ∃ i, items m !! o = Some i ∧ i' = i <| item_coin_spends := item_coin_spends i' |>) ∧
  (∀ o, ¬ hit m spent o → items m' !! o = items m !! o) ∧
  ((∀ ph L, get_unspent_lineage_info store ph = Some (Some L) → lineage_coin_id L ∉ spent) → ∀ s, s ∈ spent → by_coin m' !! s = None).

Lemma index_wf_empty idx s : index_wf idx → (∀ n, n ∉ owners idx s) → idx !! s = None.
Proof.
  intros Hw Ho. destruct (idx !! s) as [l|] eqn:Hs; [|done]. destruct (Hw _ _ Hs) as [Hne _]. unfold owners in Ho. rewrite Hs in Ho.
  destruct l as [|n l]; [done|]. destruct (Ho n). apply list_elem_of_here.
Qed.

Lemma apply_spent_outcome store height spent m :
  store_ok store → 0 ≤ height → mempool_ok m →
  outcome coin_hash (λ _ m', spent_applied store spent m m') (λ _ m', m' = m) (apply_spent store height spent m).
Proof.
  intros Hst Hh Hm. pose proof Hm as (adds & Hp & Hca). unfold apply_spent.
  eapply outcome_bind; [apply (outcome_get coin_hash (λ a m', a = m ∧ m' = m)); done|]. intros a m1 _ [-> ->]. cbv zeta.
  destruct (touch_spent_spec adds m spent Hp) as [Ht Hall]. set (t := touch_spent m spent) in *.
  pose proof (ff_lookups_spec adds m spent t Hp Ht) as Hlk. destruct (foldl (ff_lookups m) _ _) as [lookups removed].
  destruct Hlk as (L1 & L2 & L3 & L4).
  set (P := λ L : UnspentLineageInfo, (∀ ph L, get_unspent_lineage_info store ph = Some (Some L) → lineage_coin_id L ∉ spent) → lineage_coin_id L ∉ spent).
  destruct (lookup_lineages_spec store lookups ∅ P Hst) as [Hl1 Hl2]; [by intros ph L HL Hf; eapply Hf|done|done|].
  eapply outcome_bind; [apply (outcome_lift coin_hash _ (λ c m', lookup_lineages store lookups ∅ = Ok c ∧ m' = m)); done|].
  intros cache m1 _ [[Hcache HP]%Hl2 ->].
  set (r0 := {| rebased_items := items m; rebase_removed := removed; index_updates := [] |}).
  assert (Hr : rebase_ok adds m spent cache [] (foldl (rebase_step cache) r0 lookups)).
  { apply rebase_fold_ok; [done|]. constructor; cbn; try done; [by destruct Hp| |by intros o i ->; exists i; destruct i].
    intros o i s Hs Ho Hk. destruct (Hall s o Hs) as [Hx|Hx]; [apply (po_index _ _ _ Hp); eauto|left; set_solver|]. apply L4 in Hx. naive_solver. }
  destruct Hr as [R1 _ R3 R4 R5 R6]. set (r := foldl (rebase_step cache) r0 lookups) in *.
  unfold mbind at 1, pool_bind at 1, pool_modify at 1. change (m <| items := _ |> <| by_coin := _ |>) with (moved m r).
  destruct (drop_spec adds (set_iter (rebase_removed r)) (moved m r) R1) as (m2 & Hd & Hp2 & Hc2 & Hpk & Hi2); [by destruct Hca|].
  unfold mbind at 1, pool_bind at 1. rewrite Hd.
  destruct (new_block_ok adds (fee_estimator m2) height (included t) (total_cost m2)) as (e & He & Hinv); [apply Hp2|destruct (po_seq _ _ _ Hp2); lia|done|].
  unfold mbind, pool_bind, pool_get, pool_lift, pool_modify, mret, pool_ret. rewrite He. cbn.
  assert (Hlook : ∀ o i, items m2 !! o = Some i ↔ o ∉ rebase_removed r ∧ rebased_items r !! o = Some i).
  { intros o i. rewrite Hi2, without_lookup, set_iter_perm, elem_of_elements. done. }
  split; [exists adds; split; [by apply pool_ok_estimator|by destruct Hc2]|]. cbn. split_and!.
  - exact Hpk.
  - intros o i' [_ Hi]%Hlook. by apply R6.
  - intros o Ho. cbn. apply option_eq. intros i. rewrite Hlook, (R5 o Ho). naive_solver.
  - intros Hf s Hs. cbn. apply index_wf_empty; [apply (po_index _ _ _ Hp2)|]. intros n (i & Hi & Hk)%(po_index _ _ _ Hp2).
    apply Hlook in Hi as [Hn Hi]. destruct (R3 _ _ _ Hs Hi Hk) as [?|[[]%not_elem_of_nil|(ph & L & HL & Hin)]]; [done|].
    by apply (HP ph L).
Qed.

(** ** [new_peak] *)
(** No item is past its bounds at the peak. *)
Definition live (m : Mempool) : Prop :=
  ∀ h t, peak m = Some (h, t) → map_Forall (λ _ i, is_expired h t i = false) (items m).
Definition live_at (p : option (Z * Z)) (m : Mempool) : Prop := peak m = p ∧ live m.

Lemma live_without p m m' names : live_at p m → peak m' = peak m → items m' = without names (items m) → live_at p m'.
Proof.
  intros [Hp Hl] Hpk Hi. split; [by rewrite Hpk|]. intros h t Ht. rewrite Hi. intros n i [_ Hn]%without_lookup.
  rewrite Hpk in Ht. by apply (Hl h t Ht n).
Qed.

Lemma admit_live store bundle conds p m :
  store_ok store → genuine bundle conds → mempool_ok m → live_at p m →
  outcome coin_hash (λ _ m', live_at p m') (λ _ m', live_at p m') (admit_bundle store bundle conds m).
Proof.
  intros Hst Hg Hm Hl. eapply outcome_impl; [by apply (admit_outcome coin_hash)| |].
  - intros name m' [_ Hr]. destruct (items m !! name) as [i|] eqn:Hi; [by subst m'|].
    destruct Hr as (item & names & Hi' & _ & _ & _ & _ & Hpk & Hopen). destruct Hl as [Hp Hl].
    split; [by rewrite Hpk|]. intros h t Ht. rewrite Hpk in Ht. rewrite Hi'. apply map_Forall_insert_2; [by apply open_not_expired, Hopen|].
    intros n i [_ Hn]%without_lookup. by apply (Hl h t Ht n).
  - intros e m' [Hpk [Hi|(_ & names & Hi)]]; [|by eapply live_without]. apply (live_without p m m' []); [done|done|by rewrite Hi].
Qed.

Lemma try_admit_live store bundle conds p m :
  store_ok store → genuine bundle conds → mempool_ok m → live_at p m →
  outcome coin_hash (λ _ m', live_at p m') (λ _ _, False) (try_admit store bundle conds m).
Proof.
  intros Hst Hg Hm Hl. unfold try_admit. pose proof (admit_live store bundle conds p m Hst Hg Hm Hl) as [Ho Hr].
  by destruct (admit_bundle store bundle conds m) as [m' [a|e|]].
Qed.

Lemma retry_pending_live store p names m :
  store_ok store → mempool_ok m → live_at p m →
  outcome coin_hash (λ _ m', live_at p m') (λ _ _, False) (retry_pending store names m).
Proof.
  intros Hst. revert m. induction names as [|name names IH]; intros m Hm Hl; cbn [retry_pending]; [by split|].
  eapply outcome_bind; [apply (outcome_get coin_hash (λ a m', a = m ∧ m' = m)); done|]. intros a m1 _ [-> ->].
  destruct (pending m !! name) as [entry|] eqn:He; [|by apply IH].
  pose proof Hm as (adds & Hp & Hc). unfold mbind at 1, pool_bind at 1, pool_modify. set (m1 := m <| pending := delete name (pending m) |>).
  assert (Hm1 : mempool_ok m1).
  { exists adds. split.
    - destruct Hp as [P1 P2 P3 P4 P5 P6 P7 P8 P9 P10 P11 P12]. by constructor.
    - destruct Hc as [C1 C2 C3 C4 C5 C6 C7 C8 C9 C10]. constructor; cbn; try done; [|by apply map_Forall_delete].
      rewrite map_size_delete_Some by done. lia. }
  eapply outcome_bind; [eapply outcome_impl; [apply (try_admit_live store _ _ p m1); [done|by apply (co_pending_entries _ Hc name)|done|done]| |]|].
  { intros a m2 Hx. exact Hx. } { done. }
  intros ok m2 Hm2 Hl2. eapply outcome_bind; [by apply IH|]. intros rest m3 Hm3 Hl3. by split.
Qed.

Lemma retry_conflicts_live store p l m :
  store_ok store → Forall (λ x, genuine (conflict_bundle x.2) (conflict_conds x.2)) l → mempool_ok m → live_at p m →
  outcome coin_hash (λ _ m', live_at p m') (λ _ _, False) (retry_conflicts store l m).
Proof.
  intros Hst Hl. revert m. induction Hl as [|[name e] l He Hl IH]; intros m Hm Hlive; cbn [retry_conflicts]; [by split|].
  eapply outcome_bind; [by apply (try_admit_live store _ _ p)|]. intros ok m2 Hm2 Hl2.
  eapply outcome_bind; [by apply IH|]. intros rest m3 Hm3 Hl3. by split.
Qed.

Lemma drain_conflict_live p m :
  mempool_ok m → live_at p m →
  outcome coin_hash (λ l m', live_at p m' ∧ Forall (λ x, genuine (conflict_bundle x.2) (conflict_conds x.2)) l) (λ _ _, False) (drain_conflict m).
Proof.
  intros (adds & Hp & Hc) Hl. unfold drain_conflict, pool_get, pool_modify, mret, pool_ret, mbind, pool_bind. split; cbn.
  - exists adds. split; [destruct Hp as [P1 P2 P3 P4 P5 P6 P7 P8 P9 P10 P11 P12]; by constructor|].
    destruct Hc as [C1 C2 C3 C4 C5 C6 C7 C8 C9 C10]. constructor; cbn; try done; [rewrite map_size_empty; lia| |lia].
    split; [constructor|]. intros n. rewrite lookup_empty. split; [intros []%not_elem_of_nil|by intros []].
  - split; [done|]. apply Forall_forall. intros [n e] He. rewrite map_iter_perm in He. apply elem_of_map_to_list in He.
    by destruct (co_conflict_entries _ Hc n e He).
Qed.

Lemma set_peak_ok height timestamp m : 0 ≤ height → mempool_ok m → mempool_ok (set_peak height timestamp m).
Proof.
  intros Hh (adds & [P1 P2 P3 P4 P5 P6 P7 P8 P9 P10 P11 P12] & Hc). exists adds. split; [|by destruct Hc].
  constructor; cbn; try done. by intros ? ? [= <- <-].
Qed.

(** The expired items leave, and the rest is alive. *)
Lemma remove_expired_live adds height timestamp m :
  pool_ok adds m → caches_ok m → peak m = Some (height, timestamp) →
  outcome coin_hash (λ _ m', live_at (Some (height, timestamp)) m') (λ _ _, False)
    (remove_all (map item_name (filter (λ i, is_expired height timestamp i = true) (map_iter (items m)).*2)) m).
Proof.
  intros Hp Hc Hpk. set (names := map _ _). destruct (remove_all_spec coin_hash adds names m Hp) as (m' & -> & Hp' & Hs & Hi).
  destruct (same_rest_next _ _ Hs) as (_ & _ & _ & Hpk').
  split; [exists adds; split; [done|by eapply same_rest_caches]|]. split; cbn; [by rewrite Hpk'|].
  intros h t Ht. rewrite Hpk', Hpk in Ht. injection Ht as <- <-. rewrite Hi. intros n i [Hn Hni]%without_lookup.
  destruct (is_expired height timestamp i) eqn:He; [|done]. destruct Hn. destruct (po_items _ _ _ Hp _ _ Hni) as [[I1 _ _ _ _ _ _ _] _].
  rewrite <- I1. apply (list_elem_of_fmap_2 item_name). apply list_elem_of_filter. split; [done|].
  apply list_elem_of_fmap. exists (n, i). split; [done|]. by rewrite map_iter_perm, elem_of_map_to_list.
Qed.

Lemma new_peak_outcome store height timestamp spent m :
  store_ok store → 0 ≤ height → mempool_ok m →
  outcome coin_hash (λ _ m', live_at (Some (height, timestamp)) m') (λ _ m', live_at (Some (height, timestamp)) m')
    (new_peak store height timestamp spent m).
Proof.
  intros Hst Hh Hm. unfold new_peak, mbind at 1, pool_bind at 1, pool_modify at 1.
  assert (Hm1 : mempool_ok (set_peak height timestamp m)) by (by apply set_peak_ok). set (m1 := set_peak height timestamp m) in *.
  eapply outcome_bind; [apply (outcome_get coin_hash (λ a m', a = m1 ∧ m' = m1)); done|]. intros a m2 _ [-> ->]. cbv zeta.
  pose proof Hm1 as (adds & Hp1 & Hc1).
  eapply outcome_bind; [eapply outcome_impl; [by apply (remove_expired_live adds)| |]|].
  { intros a m2 Hx. exact Hx. } { done. }
  intros u m2 Hm2 Hl2. cbn in Hl2. clear u.
  eapply outcome_bind; [eapply outcome_impl; [by apply apply_spent_outcome| |]|].
  { intros a m3 Hx. exact Hx. } { by intros e m3 ->. }
  intros n m3 Hm3 (Hpk & Hsame & _).
  assert (Hl3 : live_at (Some (height, timestamp)) m3).
  { destruct Hl2 as [Hp2 Hl2]. split; [by rewrite Hpk|]. intros h t Ht o i' Hi'. destruct (Hsame _ _ Hi') as (i & Hi & ->).
    rewrite Hpk in Ht. exact (Hl2 h t Ht o i Hi). }
  eapply outcome_bind; [apply (outcome_get coin_hash (λ a m', a = m3 ∧ m' = m3)); done|]. intros a m4 _ [-> ->].
  eapply outcome_bind; [eapply outcome_impl; [by apply (retry_pending_live store (Some (height, timestamp)))| |]|]. { intros a m4 Hx. exact Hx. } { done. }
  intros from_pending m4 Hm4 Hl4.
  eapply outcome_bind; [eapply outcome_impl; [by apply (drain_conflict_live (Some (height, timestamp)))| |]|]. { intros a m5 Hx. exact Hx. } { done. }
  intros entries m5 Hm5 [Hl5 HF].
  eapply outcome_bind; [eapply outcome_impl; [by apply (retry_conflicts_live store (Some (height, timestamp)))| |]|].
  { intros a m6 Hx. exact Hx. } { done. }
  intros from_conflict m6 Hm6 Hl6. by split.
Qed.
End peak.
