(* ===== verification/MempoolReorg.v ===== *)
(** * A reorganisation keeps the mempool's invariant

    [revalidate_for_reorg] looks up the removals of every item, drops the
    items whose coins are gone, and points the fast-forward spends of the
    others at the newest version of their singletons. *)
From Stdlib Require Import ZArith Lia.
From stdpp Require Import base list numbers option gmap sets sorting.
From S2P Require Import Prelude Serialize ClvmNumber ClvmSexp Coin ClvmPath ClvmParser ClvmCanonical PotIterations Conditions SpendConditions BlockConditions BlockGenerator GeneratorProgram FastForward BlockValidation Float64 Mempool MempoolInvariant MempoolAdmission MempoolPeak.

Open Scope Z_scope.

Lemma NoDup_map_inj {A B} (f : A → B) l x y : NoDup (map f l) → x ∈ l → y ∈ l → f x = f y → x = y.
Proof.
  induction l as [|z l IH]; cbn [map]; [set_solver|]. intros [Hz Hl]%NoDup_cons [->|Hx]%elem_of_cons [->|Hy]%elem_of_cons Hf; [done| | |by apply IH].
  - destruct Hz. rewrite Hf. by apply (list_elem_of_fmap_2 f).
  - destruct Hz. rewrite <- Hf. by apply (list_elem_of_fmap_2 f).
Qed.

(** ** One lineage *)
Section lineage.
Context `{BigIntBytes, Sha256}.

Lemma set_lineage_find id L l id' :
  find_spend_of (set_lineage id L l) id' =
    if bool_decide (id' = id) then (λ b, b <| latest_singleton_lineage := Some L |>) <$> find_spend_of l id else find_spend_of l id'.
Proof.
  unfold find_spend_of. induction l as [|b l IH]; cbn [set_lineage List.find]; [by case_bool_decide|].
  destruct (decide (spend_id b = id)) as [Heq|Hne].
  - rewrite !(bool_decide_true (spend_id b = id)) by done. cbn [List.find].
    change (spend_id (b <| latest_singleton_lineage := Some L |>)) with (spend_id b).
    destruct (decide (id' = id)) as [->|Hne]; [by rewrite !bool_decide_true|]. rewrite !bool_decide_false by congruence. done.
  - rewrite !(bool_decide_false (spend_id b = id)) by done. cbn [List.find]. rewrite IH.
    destruct (decide (id' = id)) as [->|Hne']; [by rewrite (bool_decide_false (spend_id b = id)) by done|]. by case_bool_decide.
Qed.
Lemma set_lineage_spends id L l : map coin_spend (set_lineage id L l) = map coin_spend l.
Proof. induction l as [|b l IH]; cbn [set_lineage map]; [done|]. case_bool_decide; cbn; [done|]. by rewrite IH. Qed.

Definition relineage (id : list Z) (L : UnspentLineageInfo) (i : MempoolItem) : MempoolItem :=
  i <| item_coin_spends := set_lineage id L (item_coin_spends i) |>.

Lemma relineage_spend id L i id' :
  bundle_coin_spend (relineage id L i) id' =
    if bool_decide (id' = id) then (λ b, b <| latest_singleton_lineage := Some L |>) <$> bundle_coin_spend i id else bundle_coin_spend i id'.
Proof. apply set_lineage_find. Qed.
Lemma relineage_key id L i id' :
  is_Some (bundle_coin_spend i id) →
  index_key (item_coin_spends (relineage id L i)) id' = if bool_decide (id' = id) then lineage_coin_id L else index_key (item_coin_spends i) id'.
Proof.
  intros [b Hb]. unfold index_key. fold (bundle_coin_spend (relineage id L i) id'). fold (bundle_coin_spend i id').
  rewrite relineage_spend. case_bool_decide; [|done]. by rewrite Hb.
Qed.

(** The keys after the lineage of one spend changed: no other removal has its
    key, or the key stays. *)
Lemma relineage_keys id L i b old k :
  id ∈ item_removals i → bundle_coin_spend i id = Some b → latest_singleton_lineage b = Some old →
  (∀ id', id' ∈ item_removals i → id' ≠ id → index_key (item_coin_spends i) id' = lineage_coin_id old → lineage_coin_id old = lineage_coin_id L) →
  k ∈ index_keys (relineage id L i) ↔
    if bool_decide (lineage_coin_id old = lineage_coin_id L) then k ∈ index_keys i
    else (k ∈ index_keys i ∧ k ≠ lineage_coin_id old) ∨ k = lineage_coin_id L.
Proof.
  intros Hid Hb Hl Hother. assert (Hkey : index_key (item_coin_spends i) id = lineage_coin_id old).
  { unfold index_key. fold (bundle_coin_spend i id). by rewrite Hb, Hl. }
  unfold index_keys. change (item_removals (relineage id L i)) with (item_removals i).
  assert (Hrel := λ id', relineage_key id L i id' (ex_intro _ b Hb)). case_bool_decide as Heq; rewrite !list_elem_of_fmap.
  - split; intros (id' & -> & Hid'); exists id'; (split; [|done]); rewrite Hrel; case_bool_decide as Hd; congruence.
  - split.
    + intros (id' & -> & Hid'). rewrite Hrel. case_bool_decide as Hd; [by right|]. left. split; [by exists id'|]. intros Hk. by apply Heq, (Hother id').
    + intros [[(id' & -> & Hid') Hne]| ->].
      * exists id'. rewrite Hrel. rewrite bool_decide_false by congruence. done.
      * exists id. rewrite Hrel. by rewrite bool_decide_true.
Qed.
End lineage.

Section reorg.
Context `{BigIntBytes, Sha256, HashOrderOk, EstimatorOk} (coin_hash : list Z → list Z).
Notation pool_ok := (pool_ok coin_hash).
Notation store_ok := (store_ok coin_hash).
Notation mempool_ok := (mempool_ok coin_hash).
Notation cache_ok := (cache_ok coin_hash).
Implicit Types cache : gmap (list Z) (option UnspentLineageInfo).

(** ** One item *)
(** The same item but for its lineages. *)
Definition relined (i i' : MempoolItem) : Prop :=
  i' = i <| item_coin_spends := item_coin_spends i' |> ∧ ∀ id, is_Some (ff_spend i' id) ↔ is_Some (ff_spend i id).
Lemma relined_refl i : relined i i.
Proof. split; [by destruct i|done]. Qed.
Lemma relined_trans i1 i2 i3 : relined i1 i2 → relined i2 i3 → relined i1 i3.
Proof. intros [H12 F12] [H23 F23]. split; [rewrite H23; by rewrite H12|]. intros id. by rewrite F23. Qed.

Lemma relineage_relined id L i : is_Some (ff_spend i id) → relined i (relineage id L i).
Proof.
  intros Hff. split; [by destruct i|]. intros id'. unfold ff_spend. rewrite relineage_spend. case_bool_decide as Hd; [subst id'|done].
  unfold ff_spend in Hff. destruct (bundle_coin_spend i id) as [b|]; cbn; [|by destruct Hff]. destruct (has_lineage b); [|by destruct Hff]. naive_solver.
Qed.

Lemma relineage_same id L i b old :
  bundle_coin_spend i id = Some b → latest_singleton_lineage b = Some old → same_spends i (relineage id L i).
Proof.
  intros Hb Hl. split; [done|]. cbn. unfold bundle_coin_spend, find_spend_of in Hb. revert Hb.
  induction (item_coin_spends i) as [|b0 l IH]; cbn [List.find set_lineage map]; [done|]. case_bool_decide; cbn [map].
  - intros [= ->]. f_equal. unfold spend_facts, has_lineage. cbn. rewrite Hl. by rewrite !bool_decide_true by (by eexists).
  - intros Hf. by rewrite IH.
Qed.
Lemma relineage_ok max_tx o id L i b :
  item_ok coin_hash max_tx o i → bundle_coin_spend i id = Some b → coin_hash (lineage_coin_id L) = puzzle_hash (cs_coin (coin_spend b)) →
  item_ok coin_hash max_tx o (relineage id L i).
Proof.
  intros Hi Hb HL. apply item_ok_lineages; [done| |apply set_lineage_spends].
  pose proof (io_lineage _ _ _ _ Hi) as Hl. unfold bundle_coin_spend, find_spend_of in Hb. revert Hb Hl. clear Hi.
  induction (item_coin_spends i) as [|b0 l IH]; cbn [List.find set_lineage]; [done|]. intros Hf [Hb0 Hl]%Forall_cons.
  case_bool_decide; [|constructor; [done|by apply IH]]. injection Hf as ->. constructor; [|done]. by intros ? [= <-].
Qed.

(** What the rebases of one item rely on. *)
Definition rebasable cache (i : MempoolItem) (l : list (list Z * list Z)) : Prop :=
  NoDup l.*1 ∧ ∀ id ph, (id, ph) ∈ l → id ∈ item_removals i ∧
    ∃ b old, bundle_coin_spend i id = Some b ∧ latest_singleton_lineage b = Some old ∧ puzzle_hash (cs_coin (coin_spend b)) = ph ∧
      ∀ L, default None (cache !! ph) = Some L → ∀ id', id' ∈ item_removals i → id' ≠ id →
        index_key (item_coin_spends i) id' = lineage_coin_id old → lineage_coin_id old = lineage_coin_id L.

Lemma cache_hit cache ph L : cache_ok cache → default None (cache !! ph) = Some L → coin_hash (lineage_coin_id L) = ph.
Proof. intros Hc HL. apply Hc. destruct (cache !! ph) as [[]|]; cbn in HL; congruence. Qed.

Lemma rebasable_step cache max_tx o i id ph L l :
  cache_ok cache → item_ok coin_hash max_tx o i → default None (cache !! ph) = Some L →
  rebasable cache i ((id, ph) :: l) → rebasable cache (relineage id L i) l.
Proof.
  intros Hc Hio HL [Hnd Hr]. cbn in Hnd. apply NoDup_cons in Hnd as [Hni Hnd]. split; [done|]. intros id2 ph2 Hin.
  destruct (Hr id ph) as (Hid & b & old & Hb & Hl & Hph & _); [apply list_elem_of_here|].
  destruct (Hr id2 ph2) as (Hid2 & b2 & old2 & Hb2 & Hl2 & Hph2 & Hoth); [by apply list_elem_of_further|].
  assert (Hne : id2 ≠ id) by (intros ->; apply Hni; by apply (list_elem_of_fmap_2 fst _ (id, ph2))).
  split; [done|]. exists b2, old2. rewrite relineage_spend, bool_decide_false by done. split_and!; [done..|].
  intros L2 HL2 id' Hid' Hne'. rewrite relineage_key by (by eexists). case_bool_decide as Hd; [|by apply (Hoth L2 HL2)].
  intros Heq. assert (ph2 = ph) as ->; [|congruence].
  rewrite <- (cache_hit _ _ _ Hc HL), Heq, <- Hph2. symmetry. pose proof (io_lineage _ _ _ _ Hio) as HF. rewrite Forall_forall in HF.
  apply (HF b2); [|done]. unfold bundle_coin_spend, find_spend_of in Hb2. apply List.find_some in Hb2 as [Hin2 _]. by apply list_elem_of_In.
Qed.

Lemma rebase_one_ok adds cache name id ph l m i :
  cache_ok cache → pool_ok adds m → items m !! name = Some i → rebasable cache i ((id, ph) :: l) →
  ∃ i' idx, rebase_one name cache (id, ph) m = m <| items := <[name := i']> (items m) |> <| by_coin := idx |> ∧
    pool_ok adds (m <| items := <[name := i']> (items m) |> <| by_coin := idx |>) ∧ relined i i' ∧ rebasable cache i' l.
Proof.
  intros Hc Hm Hi Hr. unfold rebase_one. destruct (default None (cache !! ph)) as [L|] eqn:HL.
  2:{ exists i, (by_coin m). rewrite insert_id by done. split; [by destruct m|]. split; [by destruct m|]. split; [apply relined_refl|].
      destruct Hr as [Hnd Hr]. split; [by apply NoDup_cons in Hnd as [_ ?]|]. intros id2 ph2 Hin. apply Hr. by apply list_elem_of_further. }
  pose proof Hr as [_ Hr']. destruct (Hr' id ph) as (Hid & b & old & Hb & Hl & Hph & Hoth); [apply list_elem_of_here|]. specialize (Hoth L HL).
  rewrite Hi, Hb. cbv zeta. rewrite Hl. fold (relineage id L i). destruct (po_items _ _ _ Hm _ _ Hi) as [Hio _].
  assert (Hio' : item_ok coin_hash (max_tx_cost m) name (relineage id L i)).
  { eapply relineage_ok; [done|done|]. rewrite Hph. by eapply cache_hit. }
  assert (Hrel : relined i (relineage id L i)).
  { apply relineage_relined. unfold ff_spend. rewrite Hb. unfold has_lineage. rewrite Hl. by rewrite bool_decide_true by (by eexists). }
  assert (Hreb : rebasable cache (relineage id L i) l) by (by eapply rebasable_step).
  pose proof (λ k, relineage_keys id L i b old k Hid Hb Hl Hoth) as Hkeys.
  case_bool_decide as Heq; eexists (relineage id L i), _; (split; [by destruct m|]); (split; [|done]);
    (apply (pool_ok_update _ _ _ _ i); [done..|by eapply relineage_same|]).
  - by eapply indexed_same; [apply (po_index _ _ _ Hm)| |].
  - by eapply indexed_move; [apply (po_index _ _ _ Hm)| |].
Qed.

Lemma rebase_fold adds cache name l m i :
  cache_ok cache → pool_ok adds m → items m !! name = Some i → rebasable cache i l →
  ∃ i' idx, foldl (λ m r, rebase_one name cache r m) m l = m <| items := <[name := i']> (items m) |> <| by_coin := idx |> ∧
    pool_ok adds (m <| items := <[name := i']> (items m) |> <| by_coin := idx |>) ∧ relined i i'.
Proof.
  intros Hc. revert m i. induction l as [|[id ph] l IH]; intros m i Hm Hi Hr; cbn [foldl].
  { exists i, (by_coin m). rewrite insert_id by done. split; [by destruct m|]. split; [by destruct m|apply relined_refl]. }
  destruct (rebase_one_ok adds cache name id ph l m i Hc Hm Hi Hr) as (i1 & idx1 & -> & Hm1 & Hrel1 & Hr1).
  destruct (IH _ i1 Hm1) as (i2 & idx2 & -> & Hm2 & Hrel2); [by cbn; rewrite lookup_insert_eq|done|].
  exists i2, idx2. cbn in *. rewrite insert_insert_eq in *. split; [done|]. split; [by destruct m|by eapply relined_trans].
Qed.

(** ** The loop over the items *)
(** Every removal of the item is unspent in the store, followed by a
    fast-forward spend, or created by the bundle itself. *)
Definition standing (store : CoinStore) (i : MempoolItem) : Prop :=
  ∃ records, get_coin_records store (item_removals i) = Some records ∧
    ∀ id, id ∈ item_removals i →
      match foldl (λ m r, <[coin_id (record_coin r) := record_spent r]> m) (∅ : gmap (list Z) bool) records !! id with
      | None => id ∈ map coin_id (additions_for_conditions (item_conds i) [])
      | Some spent => spent = false ∨ is_Some (ff_spend i id)
      end.
Lemma standing_relined store i i' : relined i i' → standing store i → standing store i'.
Proof.
  intros [Hi Hff] (records & Hr & Hid). exists records. rewrite Hi. split; [done|]. intros id Hin. specialize (Hid id Hin).
  destruct (_ !! id) as [spent|]; [|done]. rewrite <- Hi, Hff. done.
Qed.

Lemma live_removals_spec i by_id created l rebases :
  live_removals (Some i) by_id created l = Some rebases →
  (∀ id, id ∈ l → match by_id !! id with None => id ∈ created | Some spent => spent = false ∨ is_Some (ff_spend i id) end) ∧
  rebases.*1 `sublist_of` l ∧
  ∀ id ph, (id, ph) ∈ rebases → ∃ b, bundle_coin_spend i id = Some b ∧ is_Some (latest_singleton_lineage b) ∧ puzzle_hash (cs_coin (coin_spend b)) = ph.
Proof.
  revert rebases. induction l as [|id l IH]; intros rebases; cbn [live_removals].
  { intros [= <-]. split_and!; [intros ? []%not_elem_of_nil|constructor|intros ?? []%not_elem_of_nil]. }
  setoid_rewrite elem_of_cons. destruct (by_id !! id) as [spent|] eqn:Hid.
  - destruct (ff_spend i id) as [b|] eqn:Hff.
    + destruct (live_removals _ _ _ _) as [rest|]; [|done]. intros [= <-]. destruct (IH _ eq_refl) as (I1 & I2 & I3). split_and!.
      * intros id' [->|Hin]; [rewrite Hid; right; by eexists|by apply I1].
      * cbn. by constructor.
      * intros id' ph [[= -> ->]|Hin]%elem_of_cons; [|by apply I3]. unfold ff_spend in Hff. destruct (bundle_coin_spend i id) as [b0|]; [|done].
        unfold has_lineage in Hff. case_bool_decide; [|done]. injection Hff as ->. eauto.
    + destruct spent; [done|]. intros (I1 & I2 & I3)%IH. split_and!; [|by constructor|done].
      intros id' [->|Hin]; [rewrite Hid; by left|by apply I1].
  - case_bool_decide as Hin; [|done]. intros (I1 & I2 & I3)%IH. split_and!; [|by constructor|done].
    intros id' [->|Hin']; [by rewrite Hid|by apply I1].
Qed.

Lemma rebases_live_spec store l cache :
  store_ok store → cache_ok cache →
  rebases_live store l cache ≠ Panic ∧ ∀ c live, rebases_live store l cache = Ok (c, live) → cache_ok c.
Proof.
  intros Hst. revert cache. induction l as [|[id ph] l IH]; intros cache Hc; cbn [rebases_live].
  { split; [done|]. by intros ? ? [= <- <-]. }
  unfold cache_lineage. destruct (cache !! ph) as [x|] eqn:Hph; cbn [mbind res_bind].
  - rewrite Hph. destruct x; cbn; [by apply IH|]. split; [done|]. by intros ? ? [= <- <-].
  - unfold from_store. destruct (get_unspent_lineage_info store ph) as [o|] eqn:Hg; cbn [ok_or mbind res_bind]; [|done].
    assert (Hc' : cache_ok (<[ph := o]> cache)).
    { intros ph' L. destruct (decide (ph' = ph)) as [->|Hne]; [rewrite lookup_insert_eq; intros [= ->]; by apply Hst|].
      rewrite lookup_insert_ne by done. apply Hc. }
    rewrite lookup_insert_eq. destruct o; cbn; [by apply IH|]. split; [done|]. by intros ? ? [= <- <-].
Qed.

(** The rebases of a live item with distinct keys may go ahead. *)
Lemma live_rebasable cache i by_id created rebases :
  NoDup (index_keys i) → live_removals (Some i) by_id created (item_removals i) = Some rebases → rebasable cache i rebases.
Proof.
  intros Hnd (_ & Hsub & Hr)%live_removals_spec. split.
  { eapply sublist_NoDup; [|exact Hsub]. eapply NoDup_fmap_1, Hnd. }
  intros id ph Hin. assert (Hid : id ∈ item_removals i).
  { eapply elem_of_sublist; [|exact Hsub]. by apply (list_elem_of_fmap_2 fst _ (id, ph)). }
  split; [done|]. destruct (Hr _ _ Hin) as (b & Hb & [old Hold] & Hph). exists b, old. split_and!; [done..|].
  intros L HL id' Hid' Hne Hk. destruct Hne. apply (NoDup_map_inj _ _ _ _ Hnd Hid' Hid).
  rewrite Hk. unfold index_key. fold (bundle_coin_spend i id). by rewrite Hb, Hold.
Qed.

(** What the rest of the loop relies on, and what it leaves. *)
Definition snapshot (m : Mempool) (l : list (list Z * list (list Z))) : Prop :=
  NoDup l.*1 ∧ ∀ n removals, (n, removals) ∈ l → ∃ i, items m !! n = Some i ∧ item_removals i = removals ∧ NoDup (index_keys i).
Record revalidated (store : CoinStore) (l : list (list Z * list (list Z))) (drop drop' : list (list Z)) (m m' : Mempool) : Prop := {
  rv_drop : drop ⊆ drop';
  rv_peak : peak m' = peak m;
  rv_seen : seen m' = seen m;
  rv_standing n i : n ∈ l.*1 → items m' !! n = Some i → n ∈ drop' ∨ standing store i;
  rv_others n : n ∉ l.*1 → items m' !! n = items m !! n;
  rv_relined n i' : items m' !! n = Some i' → ∃ i, items m !! n = Some i ∧ relined i i';
}.

Lemma revalidate_items_outcome store l cache drop m :
  store_ok store → cache_ok cache → mempool_ok m → snapshot m l →
  outcome coin_hash (λ drop' m', revalidated store l drop drop' m m') (λ _ _, True) (revalidate_items store l cache drop m).
Proof.
  intros Hst. revert cache drop m. induction l as [|[n removals] l IH]; intros cache drop m Hc Hm [Hnd Hsnap]; cbn [revalidate_items].
  { split; [done|]. constructor; cbn; try done; [intros ? ? []%not_elem_of_nil|]. intros n i' Hi. exists i'. split; [done|apply relined_refl]. }
  eapply outcome_bind; [apply (outcome_lift coin_hash _ (λ r m', get_coin_records store removals = Some r ∧ m' = m)); [done|apply ok_or_no_panic| |done]|].
  { unfold from_store. destruct (get_coin_records store removals); cbn; naive_solver. }
  intros records m1 _ [Hrec ->]. cbv zeta.
  eapply outcome_bind; [apply (outcome_get coin_hash (λ a m', a = m ∧ m' = m)); done|]. intros a m1 _ [-> ->].
  destruct (Hsnap n removals) as (i & Hi & <- & Hkeys); [apply list_elem_of_here|]. rewrite Hi.
  cbn in Hnd. apply NoDup_cons in Hnd as [Hn Hnd].
  (* the item is dropped *)
  assert (Hdrop : ∀ cache', cache_ok cache' →
    outcome coin_hash (λ drop' m', revalidated store ((n, item_removals i) :: l) drop drop' m m') (λ _ _, True)
      (revalidate_items store l cache' (drop ++ [n]) m)).
  { intros cache' Hc'. eapply outcome_impl; [apply (IH cache' (drop ++ [n]) m); [done|done|split; [done|]]| |done].
    - intros n' r' Hin. apply Hsnap. by apply list_elem_of_further.
    - intros drop' m' [V1 V2 V3 V4 V5 V6]. constructor; try done; [set_solver| |].
      + intros n' i' [->|Hin]%elem_of_cons Hi'; [left; apply V1; set_solver|by apply V4].
      + cbn. intros n' Hn'. apply V5. set_solver. }
  destruct (live_removals _ _ _ _) as [rebases|] eqn:Hlive; [|by apply Hdrop].
  destruct (rebases_live_spec store rebases cache Hst Hc) as [Hp Hcl].
  eapply outcome_bind; [apply (outcome_lift coin_hash _ (λ x m', rebases_live store rebases cache = Ok x ∧ m' = m)); done|].
  intros [cache' alive] m1 _ [Hreb ->]. pose proof (Hcl _ _ Hreb) as Hc'. destruct alive; [|by apply Hdrop].
  pose proof Hm as (adds & Hp' & Hca).
  destruct (rebase_fold adds cache' n rebases m i Hc' Hp' Hi) as (i' & idx & Hf & Hp1 & Hrel); [by eapply live_rebasable|].
  unfold mbind at 1, pool_bind at 1, pool_modify. rewrite Hf. set (m1 := m <| items := <[n := i']> (items m) |> <| by_coin := idx |>) in *.
  assert (Hm1 : mempool_ok m1) by (exists adds; split; [done|by destruct Hca]).
  assert (Hout : ∀ n', n' ≠ n → items m1 !! n' = items m !! n') by (intros; unfold m1; cbn; by rewrite lookup_insert_ne).
  eapply outcome_impl; [apply (IH cache' drop m1); [done|done|split; [done|]]| |done].
  - intros n' r' Hin. rewrite Hout; [apply Hsnap; by apply list_elem_of_further|].
    intros ->. apply Hn. by apply (list_elem_of_fmap_2 fst _ (n, r')).
  - intros drop' m' [V1 V2 V3 V4 V5 V6]. constructor; try done.
    + intros n' x [->|Hin]%elem_of_cons Hx; [right|by apply V4]. rewrite V5 in Hx by done. unfold m1 in Hx. cbn in Hx.
      rewrite lookup_insert_eq in Hx. injection Hx as <-. apply (standing_relined store i); [done|]. exists records. split; [done|].
      apply live_removals_spec in Hlive as (Hl & _). intros id Hid. specialize (Hl id Hid). destruct (_ !! id); [done|].
      apply elem_of_list_to_set in Hl. exact Hl.
    + cbn. intros n' Hn'. rewrite V5 by set_solver. apply Hout. set_solver.
    + intros n' x Hx. destruct (V6 _ _ Hx) as (y & Hy & Hxy). destruct (decide (n' = n)) as [->|Hne].
      * unfold m1 in Hy. cbn in Hy. rewrite lookup_insert_eq in Hy. injection Hy as <-. exists i. split; [done|by eapply relined_trans].
      * rewrite Hout in Hy by done. eauto.
Qed.

(** ** [revalidate_for_reorg] *)
Definition distinct_keys (m : Mempool) : Prop := map_Forall (λ _ i, NoDup (index_keys i)) (items m).

Lemma revalidate_outcome store m :
  store_ok store → mempool_ok m → distinct_keys m →
  outcome coin_hash (λ _ m', peak m' = peak m ∧ seen m' = ∅ ∧
      map_Forall (λ n i', standing store i' ∧ ∃ i, items m !! n = Some i ∧ relined i i') (items m')) (λ _ _, True)
    (revalidate_for_reorg store m).
Proof.
  intros Hst Hm Hd. unfold revalidate_for_reorg, mbind at 1, pool_bind at 1, pool_modify. set (m1 := m <| seen := ∅ |> <| seen_order := [] |>).
  assert (Hm1 : mempool_ok m1).
  { destruct Hm as (adds & [P1 P2 P3 P4 P5 P6 P7 P8 P9 P10 P11 P12] & [C1 C2 C3 C4 C5 C6 C7 C8 C9 C10]). exists adds.
    split; [by constructor|]. constructor; cbn; try done; [lia|]. split; [constructor|set_solver]. }
  eapply outcome_bind; [apply (outcome_get coin_hash (λ a m', a = m1 ∧ m' = m1)); done|]. intros a m2 _ [-> ->].
  set (l := map _ _). assert (Hl : l = map (λ x, (x.1, item_removals x.2)) (map_iter (items m1))).
  { apply map_ext_in. intros [n i] Hin. apply list_elem_of_In in Hin. rewrite map_iter_perm in Hin. apply elem_of_map_to_list in Hin.
    destruct Hm1 as (adds & Hp & _). destruct (po_items _ _ _ Hp _ _ Hin) as [[I1 _ _ _ _ _ _ _] _]. cbn. by rewrite I1. }
  assert (Hnames : l.*1 = (map_iter (items m1)).*1) by (rewrite Hl, <- list_fmap_compose; by apply map_ext).
  eapply outcome_bind; [eapply outcome_impl; [apply (revalidate_items_outcome store l ∅ [] m1); [done|done|done|split]| |]|].
  - rewrite Hnames, map_iter_perm. apply NoDup_fst_map_to_list.
  - rewrite Hl. intros n r ([n' i] & [= -> ->] & Hin)%list_elem_of_fmap. rewrite map_iter_perm in Hin. apply elem_of_map_to_list in Hin.
    exists i. split_and!; [done|done|]. by apply (Hd n' i).
  - intros a m2 Hx. exact Hx.
  - done.
  - intros drop m2 Hm2 [V1 V2 V3 V4 V5 V6]. pose proof Hm2 as (adds & Hp2 & Hc2).
    destruct (remove_all_spec coin_hash adds drop m2 Hp2) as (m3 & Hr & Hp3 & Hs3 & Hi3). unfold mbind, pool_bind. rewrite Hr.
    split; [exists adds; split; [done|by eapply same_rest_caches]|]. cbn. split_and!.
    + destruct (same_rest_next _ _ Hs3) as (_ & _ & _ & ->). by rewrite V2.
    + destruct Hs3 as (? & ? & ? & ? & ? & ->). cbn. by rewrite V3.
    + intros n i'. rewrite Hi3. intros [Hn Hi]%without_lookup. destruct (V6 _ _ Hi) as (i & Hi0 & Hrel). split; [|eauto].
      destruct (V4 n i') as [?|?]; [|done..]. rewrite Hnames, map_iter_perm. apply (list_elem_of_fmap_2 fst _ (n, i)).
      by apply elem_of_map_to_list.
Qed.
End reorg.
