(* ===== verification/FeeEstimator.v ===== *)
(** * The fee estimator

    [node/src/fee_estimator.rs]: decayed averages, per bucket of fee rates, of
    how long the items of the pool waited; and the estimate read off them.
    Indexing out of range, a zero divisor and an overflow are [None], as a
    panic is.  The estimator implements the interface [Estimator] that the
    mempool is proved against. *)
From Stdlib Require Import ZArith Lia Floats.SpecFloat.
From stdpp Require Import base list numbers option.
From S2P Require Import Prelude Float64 Mempool.

Open Scope Z_scope.

(** ** Loops over vectors *)
(** [for x in l { .. }] over a state; [None] is a panic. *)
Fixpoint ofor {A S} (l : list A) (f : A → S → option S) (s : S) : option S :=
  match l with [] => Some s | x :: l => s ← f x s; ofor l f s end.
(** [l[i] = f(l[i])], [m[i][j] = f(m[i][j])] *)
Definition upd {A} (l : list A) (i : nat) (f : A → option A) : option (list A) := x ← l !! i; y ← f x; Some (<[i := y]> l).
Definition upd2 {A} (m : list (list A)) (i j : nat) (f : A → option A) : option (list (list A)) := upd m i (λ row, upd row j f).
Definition get2 {A} (m : list (list A)) (i j : nat) : option A := row ← m !! i; row !! j.
Definition u64_add (x y : Z) : option Z := if uokb 64 (x + y) then Some (x + y) else None.
(** [n as usize % len] *)
Definition row_of (n : Z) (len : nat) : option nat := if (len =? 0)%nat then None else Some (Z.to_nat (n mod Z.of_nat len)).
(** [n.div_ceil(d)] *)
Definition usize_div_ceil (n d : Z) : option Z := if d =? 0 then None else Some ((n + d - 1) / d).

(** ** Buckets *)
Definition INITIAL_STEP : f64 := f64_of 5.
Definition MAX_FEE_RATE : f64 := f64_of 40000000.
Definition INFINITE_FEE_RATE : f64 := f64_of 1000000000.
Definition STEP_SIZE : f64 := f64_dec 105 2.
Definition SHORT_BLOCK_PERIOD : nat := 12.
Definition SHORT_SCALE : nat := 1.
Definition MED_BLOCK_PERIOD : nat := 24.
Definition MED_SCALE : nat := 2.
Definition LONG_BLOCK_PERIOD : nat := 42.
Definition LONG_SCALE : nat := 24.
Definition SECONDS_PER_BLOCK : Z := 40.
Definition SHORT_DECAY : f64 := f64_dec 962 3.
Definition MED_DECAY : f64 := f64_dec 9952 4.
Definition LONG_DECAY : f64 := f64_dec 99931 5.
Definition SUCCESS_PCT : f64 := f64_dec 85 2.
Definition SUFFICIENT_FEE_TXS : f64 := f64_dec 1 2.
Definition F64_EPSILON : f64 := f64_div (f64_of 1) (f64_of (2 ^ 52)).
Definition f64_one : f64 := f64_of 1.
Definition f64_thousand : f64 := f64_of 1000.
Definition f64_minus_one : f64 := f64_of (-1).

Record BucketResult := {
  start : f64;
  end_ : f64;
  within_target : f64;
  total_confirmed : f64;
  in_mempool : f64;
  left_mempool : f64;
}.
Definition bucket_result_default : BucketResult :=
  {| start := f64_zero; end_ := f64_zero; within_target := f64_zero; total_confirmed := f64_zero; in_mempool := f64_zero; left_mempool := f64_zero |}.
Record EstimateResult := {
  requested_time : Z;
  fail_bucket : BucketResult;
  median : f64;
}.

Definition clamp (n smallest largest : Z) : Z := Z.max smallest (Z.min n largest).
(** [slice::partition_point], of a slice on which the predicate is first true,
    then false *)
Fixpoint partition_point {A} (l : list A) (p : A → bool) : nat :=
  match l with x :: l => if p x then S (partition_point l p) else O | [] => O end.
Definition get_bucket_index (buckets : list f64) (rate : f64) : nat :=
  let bisect_left := partition_point buckets (λ b, f64_lt b rate) in
  Z.to_nat (clamp (Z.of_nat bisect_left - 1) 0 (Z.of_nat (length buckets) - 1)).

Fixpoint init_buckets_loop (fuel : nat) (rate : f64) : list f64 :=
  match fuel with
  | O => []
  | S fuel => if f64_lt rate MAX_FEE_RATE then rate :: init_buckets_loop fuel (f64_mul rate STEP_SIZE) else []
  end.
Definition init_buckets : list f64 := init_buckets_loop 400 INITIAL_STEP ++ [INFINITE_FEE_RATE].

Record ItemInfo := {
  info_cost : Z;
  info_fee : Z;
  info_height_added : Z;
}.
Definition info_fee_per_cost (i : ItemInfo) : f64 := fee_rate (info_fee i) (info_cost i).

(** ** [FeeStat] *)
Record FeeStat := mkStat {
  buckets : list f64;
  tx_ct_avg : list f64;
  confirmed_average : list (list f64);
  failed_average : list (list f64);
  m_fee_rate_avg : list f64;
  decay : f64;
  scale : nat;
  unconfirmed_txs : list (list Z);
  old_unconfirmed_txs : list Z;
  max_confirms : nat;
}.
#[global] Instance fee_stat_settable : Settable FeeStat :=
  settable! mkStat <buckets; tx_ct_avg; confirmed_average; failed_average; m_fee_rate_avg; decay; scale; unconfirmed_txs; old_unconfirmed_txs; max_confirms>.

Definition fee_stat_new (b : list f64) (max_periods : nat) (d : f64) (s : nat) : FeeStat :=
  let n := length b in
  let confirms := (s * max_periods)%nat in
  {| confirmed_average := replicate max_periods (replicate n f64_zero);
     failed_average := replicate max_periods (replicate n f64_zero);
     tx_ct_avg := replicate n f64_zero; m_fee_rate_avg := replicate n f64_zero;
     unconfirmed_txs := replicate confirms (replicate n 0); old_unconfirmed_txs := replicate n 0;
     decay := d; scale := s; max_confirms := confirms; buckets := b |}.

Definition plus_one (x : f64) : option f64 := Some (f64_add x f64_one).

Definition tx_confirmed (blocks_to_confirm : Z) (item : ItemInfo) (s : FeeStat) : option FeeStat :=
  periods_to_confirm ← usize_div_ceil blocks_to_confirm (Z.of_nat (scale s));
  let rate := f64_mul (info_fee_per_cost item) f64_thousand in
  let bucket_index := get_bucket_index (buckets s) rate in
  confirmed ← ofor (seqZ periods_to_confirm (Z.of_nat (length (confirmed_average s)) - periods_to_confirm))
    (λ i m, if i =? 0 then None else upd2 m (Z.to_nat (i - 1)) bucket_index plus_one) (confirmed_average s);
  tx_ct ← upd (tx_ct_avg s) bucket_index plus_one;
  rates ← upd (m_fee_rate_avg s) bucket_index (λ x, Some (f64_add x rate));
  Some (s <| confirmed_average := confirmed |> <| tx_ct_avg := tx_ct |> <| m_fee_rate_avg := rates |>).

Definition decayed (d x : f64) : option f64 := Some (f64_mul x d).
Definition update_moving_averages (s : FeeStat) : option FeeStat :=
  ofor (seq 0 (length (buckets s))) (λ j s,
    s ← ofor (seq 0 (length (confirmed_average s))) (λ i s,
          confirmed ← upd2 (confirmed_average s) i j (decayed (decay s));
          failed ← upd2 (failed_average s) i j (decayed (decay s));
          Some (s <| confirmed_average := confirmed |> <| failed_average := failed |>)) s;
    tx_ct ← upd (tx_ct_avg s) j (decayed (decay s));
    rates ← upd (m_fee_rate_avg s) j (decayed (decay s));
    Some (s <| tx_ct_avg := tx_ct |> <| m_fee_rate_avg := rates |>)) s.

Definition clear_current (block_height : Z) (s : FeeStat) : option FeeStat :=
  row ← row_of block_height (length (unconfirmed_txs s));
  ofor (seq 0 (length (buckets s))) (λ i s,
    n ← get2 (unconfirmed_txs s) row i;
    old ← upd (old_unconfirmed_txs s) i (λ x, u64_add x n);
    unconfirmed ← upd2 (unconfirmed_txs s) row i (λ _, Some 0);
    Some (s <| old_unconfirmed_txs := old |> <| unconfirmed_txs := unconfirmed |>)) s.

Definition new_mempool_tx (block_height : Z) (rate : f64) (s : FeeStat) : option FeeStat :=
  let bucket_index := get_bucket_index (buckets s) rate in
  row ← row_of block_height (length (unconfirmed_txs s));
  unconfirmed ← upd2 (unconfirmed_txs s) row bucket_index (λ x, u64_add x 1);
  Some (s <| unconfirmed_txs := unconfirmed |>).

Definition u64_sum (l : list Z) : option Z := ofor l (λ x acc, u64_add acc x) 0.
Definition outstanding (s : FeeStat) : option Z :=
  cur ← u64_sum (concat (unconfirmed_txs s)); old ← u64_sum (old_unconfirmed_txs s); u64_add cur old.

(** [for i in 0..len { if i as f64 >= periods_ago { break } .. }] *)
Fixpoint credit_failed (rows : list nat) (periods_ago : f64) (bucket_index : nat) (m : list (list f64)) : option (list (list f64)) :=
  match rows with
  | [] => Some m
  | i :: rows =>
      if f64_le periods_ago (f64_of (Z.of_nat i)) then Some m
      else m ← upd2 m i bucket_index plus_one; credit_failed rows periods_ago bucket_index m
  end.
Definition dec_pos (x : Z) : option Z := Some (if 0 <? x then x - 1 else x).
Definition stat_remove_tx (latest_seen_height : Z) (item : ItemInfo) (bucket_index : nat) (s : FeeStat) : option FeeStat :=
  let block_ago := if latest_seen_height =? 0 then 0 else latest_seen_height - info_height_added item in
  if block_ago <? 0 then Some s else
  let bins := Z.of_nat (length (unconfirmed_txs s)) in
  s ← (if bins <=? block_ago then
         old ← upd (old_unconfirmed_txs s) bucket_index dec_pos;
         Some (s <| old_unconfirmed_txs := old |>)
       else
         row ← row_of (info_height_added item) (length (unconfirmed_txs s));
         unconfirmed ← upd2 (unconfirmed_txs s) row bucket_index dec_pos;
         Some (s <| unconfirmed_txs := unconfirmed |>));
  if Z.of_nat (scale s) <=? block_ago then
    let periods_ago := f64_div (f64_of block_ago) (f64_of (Z.of_nat (scale s))) in
    failed ← credit_failed (seq 0 (length (failed_average s))) periods_ago bucket_index (failed_average s);
    Some (s <| failed_average := failed |>)
  else Some s.

(** ** [estimate_median_val] *)
(** The variables of the walk over the buckets. *)
Record walk := mkWalk {
  n_conf : f64;
  total_num : f64;
  extra_num : f64;
  fail_num : f64;
  cur_near_bucket : nat;
  best_near_bucket : nat;
  cur_far_bucket : nat;
  best_far_bucket : nat;
  found_answer : bool;
  new_bucket_range : bool;
  passing : bool;
  walk_fail : BucketResult;
}.
#[global] Instance walk_settable : Settable walk :=
  settable! mkWalk <n_conf; total_num; extra_num; fail_num; cur_near_bucket; best_near_bucket; cur_far_bucket; best_far_bucket; found_answer; new_bucket_range; passing; walk_fail>.

(** The band the walk is in, as the one that failed. *)
Definition failing_band (s : FeeStat) (w : walk) : option BucketResult :=
  let fail_min_bucket := (cur_near_bucket w `min` cur_far_bucket w)%nat in
  let fail_max_bucket := (cur_near_bucket w `max` cur_far_bucket w)%nat in
  low ← (match fail_min_bucket with O => Some f64_zero | S i => buckets s !! i end);
  high ← buckets s !! fail_max_bucket;
  Some {| start := low; end_ := high; within_target := n_conf w; total_confirmed := total_num w;
          in_mempool := extra_num w; left_mempool := fail_num w |}.

Definition walk_bucket (s : FeeStat) (ct : nat) (conf_target : Z) (sufficient_tx_val success_break_point : f64) (block_height : Z)
    (b : nat) (w : walk) : option walk :=
  let w := if new_bucket_range w then w <| cur_near_bucket := b |> <| new_bucket_range := false |> else w in
  let w := w <| cur_far_bucket := b |> in
  c ← get2 (confirmed_average s) ct b;
  t ← tx_ct_avg s !! b;
  f ← get2 (failed_average s) ct b;
  let w := w <| n_conf := f64_add (n_conf w) c |> <| total_num := f64_add (total_num w) t |> <| fail_num := f64_add (fail_num w) f |> in
  extra ← ofor (seqZ conf_target (Z.of_nat (max_confirms s) - conf_target)) (λ conf_ct extra,
    idx ← row_of (block_height - conf_ct) (length (unconfirmed_txs s));
    n ← get2 (unconfirmed_txs s) idx b;
    Some (f64_add extra (f64_of n))) (extra_num w);
  old ← old_unconfirmed_txs s !! b;
  let w := w <| extra_num := f64_add extra (f64_of old) |> in
  if f64_le (f64_div sufficient_tx_val (f64_sub f64_one (decay s))) (total_num w) then
    let curr_pct := f64_div (n_conf w) (f64_add (f64_add (total_num w) (fail_num w)) (extra_num w)) in
    if f64_lt curr_pct success_break_point then
      if passing w then band ← failing_band s w; Some (w <| walk_fail := band |> <| passing := false |>) else Some w
    else
      Some (w <| found_answer := true |> <| passing := true |> <| n_conf := f64_zero |> <| total_num := f64_zero |> <| fail_num := f64_zero |>
              <| extra_num := f64_zero |> <| best_near_bucket := cur_near_bucket w |> <| best_far_bucket := cur_far_bucket w |>
              <| new_bucket_range := true |>)
  else Some w.

(** The bucket of the band at which half of its transactions are reached. *)
Fixpoint median_loop (s : FeeStat) (is_ : list nat) (tx_sum : f64) : option f64 :=
  match is_ with
  | [] => Some f64_minus_one
  | i :: is_ =>
      t ← tx_ct_avg s !! i;
      if f64_lt t tx_sum then median_loop s is_ (f64_sub tx_sum t)
      else r ← m_fee_rate_avg s !! i; Some (f64_div r t)
  end.

Definition estimate_median_val (conf_target : Z) (sufficient_tx_val success_break_point : f64) (block_height : Z) (s : FeeStat) :
    option EstimateResult :=
  period_target ← (if conf_target =? 0 then Some 0 else usize_div_ceil conf_target (Z.of_nat (scale s)));
  max_bucket_index ← (match length (buckets s) with O => None | S n => Some n end);
  if (period_target <? 1) || (Z.of_nat (length (confirmed_average s)) <? period_target) then
    Some {| requested_time := conf_target * SECONDS_PER_BLOCK; fail_bucket := bucket_result_default; median := f64_minus_one |}
  else
    w ← ofor (rev (seq 0 (S max_bucket_index)))
      (walk_bucket s (Z.to_nat (period_target - 1)) conf_target sufficient_tx_val success_break_point block_height)
      {| n_conf := f64_zero; total_num := f64_zero; extra_num := f64_zero; fail_num := f64_zero;
         cur_near_bucket := max_bucket_index; best_near_bucket := max_bucket_index; cur_far_bucket := max_bucket_index;
         best_far_bucket := max_bucket_index; found_answer := false; new_bucket_range := true; passing := true;
         walk_fail := bucket_result_default |};
    let min_bucket := (best_near_bucket w `min` best_far_bucket w)%nat in
    let max_bucket := (best_near_bucket w `max` best_far_bucket w)%nat in
    tx_sum ← ofor (seq min_bucket (S max_bucket - min_bucket)) (λ i acc, t ← tx_ct_avg s !! i; Some (f64_add acc t)) f64_zero;
    m ← (if found_answer w && negb (f64_eqb tx_sum f64_zero)
         then median_loop s (seq min_bucket (max_bucket - min_bucket)) (f64_div tx_sum (f64_of 2))
         else Some f64_minus_one);
    fail ← (if passing w && negb (new_bucket_range w) then failing_band s w else Some (walk_fail w));
    Some {| requested_time := conf_target * SECONDS_PER_BLOCK - SECONDS_PER_BLOCK; fail_bucket := fail; median := m |}.

(** ** [FeeTracker] *)
Record FeeTracker := mkTracker {
  short_horizon : FeeStat;
  med_horizon : FeeStat;
  long_horizon : FeeStat;
  latest_seen_height : Z;
  first_recorded_height : Z;
  tracker_buckets : list f64;
}.
#[global] Instance fee_tracker_settable : Settable FeeTracker :=
  settable! mkTracker <short_horizon; med_horizon; long_horizon; latest_seen_height; first_recorded_height; tracker_buckets>.

Definition fee_tracker_new : FeeTracker :=
  let b := init_buckets in
  {| short_horizon := fee_stat_new b SHORT_BLOCK_PERIOD SHORT_DECAY SHORT_SCALE;
     med_horizon := fee_stat_new b MED_BLOCK_PERIOD MED_DECAY MED_SCALE;
     long_horizon := fee_stat_new b LONG_BLOCK_PERIOD LONG_DECAY LONG_SCALE;
     latest_seen_height := 0; first_recorded_height := 0; tracker_buckets := b |}.

(** The same call on the three horizons. *)
Definition horizons (f : FeeStat → option FeeStat) (t : FeeTracker) : option FeeTracker :=
  short ← f (short_horizon t); med ← f (med_horizon t); long ← f (long_horizon t);
  Some (t <| short_horizon := short |> <| med_horizon := med |> <| long_horizon := long |>).

Definition process_block_tx (current_height : Z) (item : ItemInfo) (t : FeeTracker) : option FeeTracker :=
  if current_height <=? info_height_added item then Some t
  else horizons (tx_confirmed (current_height - info_height_added item) item) t.
Definition process_block (block_height : Z) (its : list ItemInfo) (t : FeeTracker) : option FeeTracker :=
  if block_height <=? latest_seen_height t then Some t else
  let t := t <| latest_seen_height := block_height |> in
  t ← horizons (clear_current block_height) t;
  t ← horizons update_moving_averages t;
  t ← ofor its (process_block_tx block_height) t;
  Some (if (first_recorded_height t =? 0) && negb (Nat.eqb (length its) 0) then t <| first_recorded_height := block_height |> else t).

Definition add_tx (item : ItemInfo) (t : FeeTracker) : option FeeTracker :=
  horizons (new_mempool_tx (latest_seen_height t) (f64_mul (info_fee_per_cost item) f64_thousand)) t.
Definition remove_tx (item : ItemInfo) (t : FeeTracker) : option FeeTracker :=
  let bucket_index := get_bucket_index (tracker_buckets t) (f64_mul (info_fee_per_cost item) f64_thousand) in
  horizons (stat_remove_tx (latest_seen_height t) item bucket_index) t.

Definition estimate_fee_for_block (target_block : Z) (t : FeeTracker) : option EstimateResult :=
  estimate_median_val target_block SUFFICIENT_FEE_TXS SUCCESS_PCT (latest_seen_height t) (med_horizon t).
Definition estimate_fee (target_time : Z) (t : FeeTracker) : option EstimateResult :=
  confirm_target_block ← u64_add (target_time / SECONDS_PER_BLOCK) 1;
  estimate_fee_for_block (if uokb 32 confirm_target_block then confirm_target_block else 2 ^ 32 - 1) t.
Definition outstanding_short (t : FeeTracker) : option Z := outstanding (short_horizon t).

(** ** [FeeEstimator] *)
Record FeeEstimator := {
  tracker : FeeTracker;
  last_mempool_cost : Z;
  mempool_max_size : Z;
}.
Definition fee_estimator_new (size : Z) : FeeEstimator :=
  {| tracker := fee_tracker_new; last_mempool_cost := 0; mempool_max_size := size |}.
Definition with_tracker (f : FeeTracker → option FeeTracker) (mempool_cost : Z) (e : FeeEstimator) : option FeeEstimator :=
  t ← f (tracker e); Some {| tracker := t; last_mempool_cost := mempool_cost; mempool_max_size := mempool_max_size e |}.
Definition estimator_add_item (cost fee height_added mempool_cost : Z) : FeeEstimator → option FeeEstimator :=
  with_tracker (add_tx {| info_cost := cost; info_fee := fee; info_height_added := height_added |}) mempool_cost.
Definition estimator_remove_item (cost fee height_added mempool_cost : Z) : FeeEstimator → option FeeEstimator :=
  with_tracker (remove_tx {| info_cost := cost; info_fee := fee; info_height_added := height_added |}) mempool_cost.
Definition estimator_new_block (block_height : Z) (included : list (Z * Z * Z)) (mempool_cost : Z) : FeeEstimator → option FeeEstimator :=
  with_tracker (process_block block_height
    (map (λ '(cost, fee, height_added), {| info_cost := cost; info_fee := fee; info_height_added := height_added |}) included)) mempool_cost.
Definition ingest_block : Z → list (Z * Z * Z) → Z → FeeEstimator → option FeeEstimator := estimator_new_block.

Definition parse (r : EstimateResult) (e : FeeEstimator) : option f64 :=
  if f64_lt F64_EPSILON (SFabs (f64_sub (median r) f64_minus_one)) then Some (f64_div (median r) f64_thousand) else
  if f64_eqb (start (fail_bucket r)) f64_zero then Some f64_minus_one else
  max_val ← (match length (tracker_buckets (tracker e)) with O => None | S n => Some n end);
  let start_index := ((get_bucket_index (tracker_buckets (tracker e)) (start (fail_bucket r)) + 3) `min` max_val)%nat in
  b ← tracker_buckets (tracker e) !! start_index;
  Some (f64_div b f64_thousand).
Definition estimate_fee_rate (time_offset_seconds : Z) (e : FeeEstimator) : option f64 :=
  r ← estimate_fee time_offset_seconds (tracker e);
  parsed ← parse r e;
  Some (if f64_lt parsed f64_zero then f64_zero else f64_div parsed f64_thousand).

#[global] Instance fee_estimator_calls : Estimator := {|
  estimator := FeeEstimator;
  estimator_new := fee_estimator_new;
  add_mempool_item := estimator_add_item;
  remove_mempool_item := estimator_remove_item;
  new_block := estimator_new_block;
|}.

(** ** Shapes and sums *)
Definition rect {A} (n : nat) (m : list (list A)) : Prop := Forall (λ row, length row = n) m.
Definition sumZ (l : list Z) : Z := foldr Z.add 0 l.
Definition sum2 (m : list (list Z)) : Z := sumZ (map sumZ m).
#[local] Arguments sumZ : simpl never.
#[local] Arguments sum2 : simpl never.

Lemma ofor_inv {A S} (P : S → Prop) (f : A → S → option S) l s :
  (∀ x s, x ∈ l → P s → ∃ s', f x s = Some s' ∧ P s') → P s → ∃ s', ofor l f s = Some s' ∧ P s'.
Proof.
  revert s. induction l as [|x l IH]; intros s Hf Hs; cbn [ofor]; [by exists s|].
  destruct (Hf x s) as (s1 & -> & Hs1); [apply list_elem_of_here|done|]. cbn. apply IH; [|done]. intros y s2 Hy. apply Hf. by apply list_elem_of_further.
Qed.

(** The next loop of the goal keeps [P]. *)
Ltac ofor_step P y Hy := match goal with |- context [ofor ?l ?f ?x] => destruct (ofor_inv P f l x) as (y & -> & Hy) end.

Lemma upd_some {A} (l : list A) i f x y : l !! i = Some x → f x = Some y → upd l i f = Some (<[i := y]> l).
Proof. intros Hx Hy. unfold upd. rewrite Hx. cbn. by rewrite Hy. Qed.
Lemma upd_total {A} (l : list A) i f :
  (i < length l)%nat → (∀ x, x ∈ l → is_Some (f x)) → ∃ l', upd l i f = Some l' ∧ length l' = length l.
Proof.
  intros [x Hx]%lookup_lt_is_Some Hf. destruct (Hf x) as [y Hy]; [by eapply list_elem_of_lookup_2|].
  exists (<[i := y]> l). split; [by eapply upd_some|apply length_insert].
Qed.
Lemma upd2_total {A} n (m : list (list A)) i j f :
  rect n m → (i < length m)%nat → (j < n)%nat → (∀ x, is_Some (f x)) → ∃ m', upd2 m i j f = Some m' ∧ rect n m' ∧ length m' = length m.
Proof.
  intros Hr [row Hrow]%lookup_lt_is_Some Hj Hf. assert (Hlen : length row = n) by (eapply Forall_lookup_1 in Hr; done).
  destruct (upd_total row j f) as (row' & Hu & Hl); [lia|done|]. exists (<[i := row']> m).
  split; [by eapply upd_some|]. split; [|apply length_insert]. apply Forall_insert; [done|]. lia.
Qed.

Lemma sumZ_insert l i x y : l !! i = Some x → sumZ (<[i := y]> l) = sumZ l - x + y.
Proof.
  revert i. unfold sumZ. induction l as [|z l IH]; intros [|i]; cbn [lookup list_lookup insert list_insert foldr]; intros Hi; try done.
  - injection Hi as ->. lia.
  - change (list_insert i y l) with (<[i := y]> l). rewrite IH by done. lia.
Qed.
Lemma sumZ_cons x l : sumZ (x :: l) = x + sumZ l.
Proof. done. Qed.
Lemma sumZ_nonneg l : Forall (Z.le 0) l → 0 ≤ sumZ l.
Proof. induction 1; rewrite ?sumZ_cons; [done|lia]. Qed.
Lemma sumZ_lookup l i x : Forall (Z.le 0) l → l !! i = Some x → 0 ≤ x ≤ sumZ l.
Proof.
  intros Hl. revert i. induction Hl as [|z l Hz Hl IH]; intros [|i]; cbn [lookup list_lookup]; try done; rewrite sumZ_cons.
  - intros [= ->]. pose proof (sumZ_nonneg l Hl). lia.
  - intros Hi. specialize (IH i Hi). lia.
Qed.
Lemma sum2_insert m i row row' : m !! i = Some row → sum2 (<[i := row']> m) = sum2 m - sumZ row + sumZ row'.
Proof. intros Hi. unfold sum2. rewrite list_fmap_insert. apply sumZ_insert. by rewrite list_lookup_fmap, Hi. Qed.
Lemma sum2_lookup m i row : Forall (Forall (Z.le 0)) m → m !! i = Some row → sumZ row ≤ sum2 m.
Proof.
  intros Hm Hi. apply (sumZ_lookup (map sumZ m) i); [|by rewrite list_lookup_fmap, Hi].
  apply Forall_map. eapply List.Forall_impl; [|exact Hm]. intros a. apply sumZ_nonneg.
Qed.

(** A cell of a table of counts, changed. *)
Lemma upd2_count n m i j f x y :
  rect n m → Forall (Forall (Z.le 0)) m → get2 m i j = Some x → f x = Some y → 0 ≤ y →
  ∃ m', upd2 m i j f = Some m' ∧ rect n m' ∧ length m' = length m ∧ Forall (Forall (Z.le 0)) m' ∧ sum2 m' = sum2 m - x + y ∧ 0 ≤ x ≤ sum2 m.
Proof.
  intros Hr Hm Hx Hf Hy. unfold get2 in Hx. destruct (m !! i) as [row|] eqn:Hrow; [|done]. cbn in Hx.
  assert (Hlen : length row = n) by (eapply Forall_lookup_1 in Hr; done).
  assert (Hnn : Forall (Z.le 0) row) by (eapply Forall_lookup_1 in Hm; done).
  exists (<[i := <[j := y]> row]> m). split_and!.
  - eapply upd_some; [done|]. by eapply upd_some.
  - apply Forall_insert; [done|]. by rewrite length_insert.
  - apply length_insert.
  - apply Forall_insert; [done|]. by apply Forall_insert.
  - rewrite (sum2_insert _ _ row) by done. rewrite (sumZ_insert _ _ x) by done. lia.
  - by eapply sumZ_lookup.
  - pose proof (sumZ_lookup _ _ _ Hnn Hx). pose proof (sum2_lookup _ _ _ Hm Hrow). lia.
Qed.
Lemma get2_rect {A} n (m : list (list A)) i j : rect n m → (i < length m)%nat → (j < n)%nat → is_Some (get2 m i j).
Proof.
  intros Hr [row Hrow]%lookup_lt_is_Some Hj. unfold get2. rewrite Hrow. cbn. apply lookup_lt_is_Some. eapply Forall_lookup_1 in Hr; [|done]. lia.
Qed.
Lemma row_of_some n len : (0 < len)%nat → ∃ i, row_of n len = Some i ∧ (i < len)%nat.
Proof.
  intros Hl. unfold row_of. destruct (Nat.eqb_spec len 0); [lia|]. eexists. split; [done|].
  pose proof (Z.mod_pos_bound n (Z.of_nat len)). lia.
Qed.
Lemma bucket_index_lt b rate : (0 < length b)%nat → (get_bucket_index b rate < length b)%nat.
Proof. intros Hb. unfold get_bucket_index, clamp. lia. Qed.
Lemma u64_add_ok x y : 0 ≤ x + y < 2 ^ 64 → u64_add x y = Some (x + y).
Proof. intros Hxy. unfold u64_add. by rewrite (proj2 (uokb_spec _ _) Hxy). Qed.

(** ** The invariant of a horizon

    [n] bounds the transactions it was told of. *)
Record stat_ok (n : Z) (s : FeeStat) : Prop := {
  so_buckets : (0 < length (buckets s))%nat;
  so_scale : (0 < scale s)%nat;
  so_tx : length (tx_ct_avg s) = length (buckets s);
  so_rates : length (m_fee_rate_avg s) = length (buckets s);
  so_confirmed : rect (length (buckets s)) (confirmed_average s);
  so_failed : rect (length (buckets s)) (failed_average s);
  so_failed_len : length (failed_average s) = length (confirmed_average s);
  so_unconfirmed : rect (length (buckets s)) (unconfirmed_txs s);
  so_bins : length (unconfirmed_txs s) = max_confirms s;
  so_bins_pos : (0 < max_confirms s)%nat;
  so_old : length (old_unconfirmed_txs s) = length (buckets s);
  so_counts : Forall (Forall (Z.le 0)) (unconfirmed_txs s);
  so_old_counts : Forall (Z.le 0) (old_unconfirmed_txs s);
  so_total : sum2 (unconfirmed_txs s) + sumZ (old_unconfirmed_txs s) ≤ n;
}.
(** The bounds and the buckets of a horizon do not change. *)
Definition same_config (s s' : FeeStat) : Prop := buckets s' = buckets s ∧ scale s' = scale s ∧ decay s' = decay s ∧ max_confirms s' = max_confirms s.

Lemma stat_counts_nonneg n s : stat_ok n s → 0 ≤ sum2 (unconfirmed_txs s) ∧ 0 ≤ sumZ (old_unconfirmed_txs s).
Proof.
  intros Hs. split; [|by apply sumZ_nonneg, (so_old_counts n)]. apply sumZ_nonneg, Forall_map.
  eapply List.Forall_impl; [|exact (so_counts n s Hs)]. intros a. apply sumZ_nonneg.
Qed.

Lemma new_mempool_tx_ok n h rate s : stat_ok n s → n + 1 < 2 ^ 64 → ∃ s', new_mempool_tx h rate s = Some s' ∧ stat_ok (n + 1) s' ∧ same_config s s'.
Proof.
  intros Hs Hn. pose proof (stat_counts_nonneg n s Hs) as Hnn. pose proof Hs as [S1 S2 S3 S4 S5 S6 S7 S8 S9 S10 S11 S12 S13 S14].
  unfold new_mempool_tx. cbv zeta. destruct (row_of_some h (length (unconfirmed_txs s))) as (row & -> & Hrow); [lia|]. cbn.
  pose proof (bucket_index_lt (buckets s) rate S1) as Hb. destruct (get2_rect _ _ _ _ S8 Hrow Hb) as [x Hx].
  assert (Hxb : 0 ≤ x ≤ sum2 (unconfirmed_txs s)).
  { unfold get2 in Hx. destruct (_ !! row) as [r|] eqn:Hr; [|done]. cbn in Hx. assert (Forall (Z.le 0) r) by (eapply Forall_lookup_1 in S12; done).
    pose proof (sumZ_lookup r _ x ltac:(done) Hx). pose proof (sum2_lookup _ _ _ S12 Hr). lia. }
  destruct (upd2_count _ _ row (get_bucket_index (buckets s) rate) (λ x, u64_add x 1) x (x + 1) S8 S12 Hx) as (m' & -> & M1 & M2 & M3 & M4 & _);
    [apply u64_add_ok; lia|lia|].
  eexists. split; [done|]. split; [|done]. constructor; cbn; try done; lia.
Qed.

Lemma stat_remove_tx_ok n h item b s :
  stat_ok n s → (b < length (buckets s))%nat → ∃ s', stat_remove_tx h item b s = Some s' ∧ stat_ok n s' ∧ same_config s s'.
Proof.
  intros Hs Hb. pose proof Hs as [S1 S2 S3 S4 S5 S6 S7 S8 S9 S10 S11 S12 S13 S14]. unfold stat_remove_tx. cbv zeta.
  set (ago := if h =? 0 then 0 else _). destruct (Z.ltb_spec ago 0); [by exists s|].
  set (first := if _ <=? ago then _ else _).
  assert (Hfirst : ∃ s1, first = Some s1 ∧ stat_ok n s1 ∧ same_config s s1 ∧ failed_average s1 = failed_average s).
  { unfold first. destruct (_ <=? ago).
    - destruct (lookup_lt_is_Some_2 (old_unconfirmed_txs s) b) as [x Hx]; [lia|]. pose proof (sumZ_lookup _ _ _ S13 Hx).
      rewrite (upd_some _ _ dec_pos x (if 0 <? x then x - 1 else x) Hx) by done. cbn. eexists. split; [done|]. split; [|done].
      constructor; cbn; try done; [by rewrite length_insert|apply Forall_insert; [done|]|rewrite (sumZ_insert _ _ x) by done];
        destruct (Z.ltb_spec 0 x); lia.
    - destruct (row_of_some (info_height_added item) (length (unconfirmed_txs s))) as (row & -> & Hrow); [lia|]. cbn.
      destruct (get2_rect _ _ _ _ S8 Hrow Hb) as [x Hx].
      destruct (upd2_count _ _ row b dec_pos x (if 0 <? x then x - 1 else x) S8 S12 Hx) as (m' & -> & M1 & M2 & M3 & M4 & M5); [done| |].
      { unfold get2 in Hx. destruct (_ !! row) as [r|] eqn:Hr; [|done]. cbn in Hx. assert (Forall (Z.le 0) r) by (eapply Forall_lookup_1 in S12; done).
        pose proof (sumZ_lookup r _ x ltac:(done) Hx). destruct (Z.ltb_spec 0 x); lia. }
      cbn. eexists. split; [done|]. split; [|done]. constructor; cbn; try done; [by rewrite M2|]. rewrite M4. destruct (Z.ltb_spec 0 x); lia. }
  destruct Hfirst as (s1 & -> & Hs1 & Hc & Hf). cbn. destruct (_ <=? ago); [|by exists s1]. set (ago' := f64_div _ _).
  assert (Hcr : ∀ rows m, rect (length (buckets s)) m → (∀ i, i ∈ rows → (i < length m)%nat) →
    ∃ m', credit_failed rows ago' b m = Some m' ∧ rect (length (buckets s)) m' ∧ length m' = length m).
  { clearbody ago'. clear -Hb. induction rows as [|i rows IH]; intros m Hm Hi; cbn [credit_failed]; [by exists m|].
    destruct (f64_le _ _); [by exists m|]. destruct (upd2_total _ m i b plus_one Hm) as (m1 & -> & Hm1 & Hl1); [apply Hi, list_elem_of_here|done|by eexists|].
    cbn. destruct (IH m1 Hm1) as (m2 & -> & Hm2 & Hl2); [intros j Hj; rewrite Hl1; apply Hi; by apply list_elem_of_further|].
    exists m2. split; [done|]. split; [done|]. lia. }
  destruct Hc as (C1 & C2 & C3 & C4).
  destruct (Hcr (seq 0 (length (failed_average s1))) (failed_average s1)) as (m' & -> & M1 & M2); [rewrite Hf; done|intros i Hi%elem_of_seq; lia|].
  cbn. eexists. split; [done|]. split; [|done]. destruct Hs1 as [T1 T2 T3 T4 T5 T6 T7 T8 T9 T10 T11 T12 T13 T14].
  constructor; cbn; try done; [by rewrite C1|lia].
Qed.

Lemma clear_current_ok n h s : stat_ok n s → n < 2 ^ 64 → ∃ s', clear_current h s = Some s' ∧ stat_ok n s' ∧ same_config s s'.
Proof.
  intros Hs Hn. unfold clear_current. destruct (row_of_some h (length (unconfirmed_txs s))) as (row & -> & Hrow).
  { rewrite (so_bins n s Hs). apply Hs. }
  cbn. apply (ofor_inv (λ s', stat_ok n s' ∧ same_config s s')); [|by split].
  intros i s1 Hi%elem_of_seq [Hs1 (C1 & C2 & C3 & C4)]. pose proof Hs1 as [S1 S2 S3 S4 S5 S6 S7 S8 S9 S10 S11 S12 S13 S14].
  assert (Hrow1 : (row < length (unconfirmed_txs s1))%nat) by (rewrite S9, C4, <- (so_bins n s Hs); done).
  assert (Hi1 : (i < length (buckets s1))%nat) by (rewrite C1; lia).
  destruct (get2_rect _ _ _ _ S8 Hrow1 Hi1) as [x Hx]. rewrite Hx. cbn.
  destruct (upd2_count _ _ row i (λ _, Some 0) x 0 S8 S12 Hx) as (m' & Hm' & M1 & M2 & M3 & M4 & M5); [done|done|].
  destruct (lookup_lt_is_Some_2 (old_unconfirmed_txs s1) i) as [y Hy]; [lia|]. pose proof (sumZ_lookup _ _ _ S13 Hy).
  rewrite (upd_some _ _ _ y (y + x) Hy) by (apply u64_add_ok; lia). cbn. rewrite Hm'. cbn.
  eexists. split; [done|]. split; [|done]. constructor; cbn; try done.
  - by rewrite M2.
  - by rewrite length_insert.
  - apply Forall_insert; [done|lia].
  - rewrite M4, (sumZ_insert _ _ y) by done. lia.
Qed.

Lemma update_moving_averages_ok n s : stat_ok n s → ∃ s', update_moving_averages s = Some s' ∧ stat_ok n s' ∧ same_config s s'.
Proof.
  intros Hs. unfold update_moving_averages. apply (ofor_inv (λ s', stat_ok n s' ∧ same_config s s')); [|by split].
  intros j s1 Hj%elem_of_seq [Hs1 Hc1]. assert (Hj1 : (j < length (buckets s1))%nat) by (destruct Hc1 as (-> & _); lia).
  ofor_step (λ s', stat_ok n s' ∧ same_config s1 s' ∧ length (confirmed_average s') = length (confirmed_average s1)) s2 Hs2.
  - intros i s2 Hi%elem_of_seq (Hs2 & (C1 & C2 & C3 & C4) & Hl). destruct Hs2 as [S1 S2 S3 S4 S5 S6 S7 S8 S9 S10 S11 S12 S13 S14].
    destruct (upd2_total _ _ i j (decayed (decay s2)) S5) as (m1 & -> & M1 & L1); [lia|by rewrite C1|by eexists|].
    destruct (upd2_total _ _ i j (decayed (decay s2)) S6) as (m2 & -> & M2 & L2); [lia|by rewrite C1|by eexists|]. cbn.
    eexists. split; [done|]. split; [constructor; cbn; first [done|lia]|split; [exact (conj C1 (conj C2 (conj C3 C4)))|cbn; lia]].
  - by split_and!.
  - cbn. destruct Hs2 as (Hs2 & Hc2 & _). destruct Hs2 as [S1 S2 S3 S4 S5 S6 S7 S8 S9 S10 S11 S12 S13 S14]. destruct Hc1 as (B1 & B2 & B3 & B4), Hc2 as (C1 & C2 & C3 & C4).
    destruct (upd_total (tx_ct_avg s2) j (decayed (decay s2))) as (l1 & -> & L1); [rewrite S3, C1; done|by eexists|].
    destruct (upd_total (m_fee_rate_avg s2) j (decayed (decay s2))) as (l2 & -> & L2); [rewrite S4, C1; done|by eexists|]. cbn.
    eexists. split; [done|]. split; [constructor; cbn; try done; lia|]. split_and!; cbn; congruence.
Qed.

Lemma usize_div_ceil_pos n d : 0 < n → 0 < d → ∃ q, usize_div_ceil n d = Some q ∧ 1 ≤ q.
Proof.
  intros Hn Hd. unfold usize_div_ceil. destruct (Z.eqb_spec d 0); [lia|]. eexists. split; [done|]. apply Z.div_le_lower_bound; lia.
Qed.

Lemma tx_confirmed_ok n blocks item s : stat_ok n s → 1 ≤ blocks → ∃ s', tx_confirmed blocks item s = Some s' ∧ stat_ok n s' ∧ same_config s s'.
Proof.
  intros Hs Hb. pose proof Hs as [S1 S2 S3 S4 S5 S6 S7 S8 S9 S10 S11 S12 S13 S14]. unfold tx_confirmed.
  destruct (usize_div_ceil_pos blocks (Z.of_nat (scale s))) as (q & -> & Hq); [lia|lia|]. cbn. set (rate := f64_mul _ _).
  pose proof (bucket_index_lt (buckets s) rate S1) as Hi. set (b := get_bucket_index _ _) in *.
  ofor_step (λ m : list (list f64), rect (length (buckets s)) m ∧ length m = length (confirmed_average s)) m Hm.
  - intros i m Hin%elem_of_seqZ [Hm Hl]. destruct (Z.eqb_spec i 0); [lia|].
    destruct (upd2_total _ m (Z.to_nat (i - 1)) b plus_one Hm) as (m' & -> & Hm' & Hl'); [lia|done|by eexists|]. exists m'. split_and!; [done..|lia].
  - done.
  - cbn. destruct Hm as [Hm Hl]. destruct (upd_total (tx_ct_avg s) b plus_one) as (l1 & -> & L1); [by rewrite S3|by eexists|].
    destruct (upd_total (m_fee_rate_avg s) b (λ x, Some (f64_add x rate))) as (l2 & -> & L2); [by rewrite S4|by eexists|]. cbn.
    eexists. split; [done|]. split; [|done]. constructor; cbn; try done; lia.
Qed.

(** ** The estimate is always made *)
#[local] Arguments failing_band : simpl never.
Lemma elem_of_down n b : b ∈ rev (seq 0 n) → (b < n)%nat.
Proof. intros Hb. apply list_elem_of_In, in_rev, list_elem_of_In, elem_of_seq in Hb. lia. Qed.
Lemma failing_band_total s w nb :
  length (buckets s) = nb → (cur_near_bucket w < nb)%nat → (cur_far_bucket w < nb)%nat → is_Some (failing_band s w).
Proof.
  intros Hb Hn Hf. unfold failing_band. cbv zeta.
  assert (∃ low, match (cur_near_bucket w `min` cur_far_bucket w)%nat with O => Some f64_zero | S i => buckets s !! i end = Some low) as [low ->].
  { destruct (_ `min` _)%nat eqn:Hm; [by eexists|]. apply lookup_lt_is_Some. lia. }
  destruct (lookup_lt_is_Some_2 (buckets s) (cur_near_bucket w `max` cur_far_bucket w)) as [high ->]; [lia|]. by eexists.
Qed.

(** The walk stays inside the table. *)
Definition walk_ok (nb : nat) (w : walk) : Prop :=
  (cur_near_bucket w < nb)%nat ∧ (best_near_bucket w < nb)%nat ∧ (cur_far_bucket w < nb)%nat ∧ (best_far_bucket w < nb)%nat.

Lemma walk_bucket_total n s ct conf suff brk h b w :
  stat_ok n s → (ct < length (confirmed_average s))%nat → (b < length (buckets s))%nat → walk_ok (length (buckets s)) w →
  ∃ w', walk_bucket s ct conf suff brk h b w = Some w' ∧ walk_ok (length (buckets s)) w'.
Proof.
  intros [S1 S2 S3 S4 S5 S6 S7 S8 S9 S10 S11 S12 S13 S14] Hct Hb Hw. unfold walk_bucket. cbv zeta.
  set (w0 := if new_bucket_range w then _ else w). assert (Hw0 : walk_ok (length (buckets s)) w0).
  { unfold w0. destruct (new_bucket_range w); [|done]. destruct Hw as (? & ? & ? & ?). by split_and!. }
  clearbody w0. destruct (get2_rect _ _ _ _ S5 Hct Hb) as [c ->].
  destruct (lookup_lt_is_Some_2 (tx_ct_avg s) b) as [t ->]; [lia|].
  destruct (get2_rect _ _ ct b S6) as [f ->]; [lia|done|]. cbn.
  ofor_step (λ _ : f64, True) extra Hx; [|done|].
  { intros i x _ _. destruct (row_of_some (h - i) (length (unconfirmed_txs s))) as (row & -> & Hrow); [lia|]. cbn.
    destruct (get2_rect _ _ _ _ S8 Hrow Hb) as [k ->]. cbn. by eexists. }
  destruct (lookup_lt_is_Some_2 (old_unconfirmed_txs s) b) as [old ->]; [lia|]. cbn.
  destruct Hw0 as (W1 & W2 & W3 & W4). destruct (f64_le _ _); [|eexists; split; [done|]; by split_and!].
  destruct (f64_lt _ _); [|eexists; split; [done|]; by split_and!].
  destruct (passing w0); [|eexists; split; [done|]; by split_and!].
  match goal with |- context [failing_band s ?x] => destruct (failing_band_total s x (length (buckets s))) as [band ->]; [done|done|done|] end.
  cbn. eexists. split; [done|]. by split_and!.
Qed.

Lemma median_loop_total s l x : (∀ i, i ∈ l → (i < length (tx_ct_avg s))%nat) → length (m_fee_rate_avg s) = length (tx_ct_avg s) → is_Some (median_loop s l x).
Proof.
  intros Hl Hr. revert x Hl. induction l as [|i l IH]; intros x Hl; cbn [median_loop]; [by eexists|].
  assert (Hi : (i < length (tx_ct_avg s))%nat) by (apply Hl, list_elem_of_here).
  destruct (lookup_lt_is_Some_2 (tx_ct_avg s) i Hi) as [t ->]. cbn. destruct (f64_lt t x); [apply IH; intros; apply Hl; by apply list_elem_of_further|].
  destruct (lookup_lt_is_Some_2 (m_fee_rate_avg s) i) as [r ->]; [lia|]. by eexists.
Qed.

Lemma estimate_median_total n target suff brk h s : stat_ok n s → 0 ≤ target → is_Some (estimate_median_val target suff brk h s).
Proof.
  intros Hs Ht. pose proof Hs as [S1 S2 S3 S4 S5 S6 S7 S8 S9 S10 S11 S12 S13 S14]. unfold estimate_median_val.
  assert (∃ p, (if target =? 0 then Some 0 else usize_div_ceil target (Z.of_nat (scale s))) = Some p) as [p ->].
  { destruct (Z.eqb_spec target 0); [by eexists|]. destruct (usize_div_ceil_pos target (Z.of_nat (scale s))) as (q & -> & _); [lia|lia|]. by eexists. }
  cbn. destruct (length (buckets s)) as [|mb] eqn:Hmb; [lia|]. cbn.
  destruct (_ || _) eqn:Hr; [by eexists|]. apply orb_false_iff in Hr as [Hp1%Z.ltb_ge Hp2%Z.ltb_ge].
  ofor_step (walk_ok (length (buckets s))) w Hw.
  - intros b w Hb Hw. apply (walk_bucket_total n); [done|lia| |done]. rewrite Hmb.
    by apply (elem_of_down (S mb)).
  - split_and!; cbn; lia.
  - destruct Hw as (W1 & W2 & W3 & W4). set (lo := (best_near_bucket w `min` best_far_bucket w)%nat). set (hi := (best_near_bucket w `max` best_far_bucket w)%nat).
    cbn. ofor_step (λ _ : f64, True) tx_sum Hx; [|done|cbn].
    { intros i x Hi%elem_of_seq _. destruct (lookup_lt_is_Some_2 (tx_ct_avg s) i) as [t ->]; [lia|]. cbn. by eexists. }
    match goal with |- context [median_loop s ?l ?x] => destruct (median_loop_total s l x) as [m ->]; [|lia|] end.
    { intros i Hi%elem_of_seq. lia. }
    destruct (failing_band_total s w (length (buckets s))) as [band ->]; [done|done|done|].
    by destruct (found_answer w && _), (passing w && _); eexists.
Qed.

(** ** The tracker *)
Record tracker_ok (n : Z) (t : FeeTracker) : Prop := {
  tk_short : stat_ok n (short_horizon t) ∧ buckets (short_horizon t) = tracker_buckets t;
  tk_med : stat_ok n (med_horizon t) ∧ buckets (med_horizon t) = tracker_buckets t;
  tk_long : stat_ok n (long_horizon t) ∧ buckets (long_horizon t) = tracker_buckets t;
}.
Lemma stat_ok_mono n n' s : stat_ok n s → n ≤ n' → stat_ok n' s.
Proof. intros [S1 S2 S3 S4 S5 S6 S7 S8 S9 S10 S11 S12 S13 S14] Hn. constructor; try done. lia. Qed.

Lemma horizons_ok n n' f t :
  (∀ s, stat_ok n s → buckets s = tracker_buckets t → ∃ s', f s = Some s' ∧ stat_ok n' s' ∧ same_config s s') → tracker_ok n t →
  ∃ t', horizons f t = Some t' ∧ tracker_ok n' t' ∧ tracker_buckets t' = tracker_buckets t.
Proof.
  intros Hf [[S1 B1] [S2 B2] [S3 B3]]. destruct (Hf _ S1 B1) as (s1 & F1 & O1 & C1 & _), (Hf _ S2 B2) as (s2 & F2 & O2 & C2 & _), (Hf _ S3 B3) as (s3 & F3 & O3 & C3 & _).
  unfold horizons. rewrite F1. cbn. rewrite F2. cbn. rewrite F3. cbn. eexists. split; [done|]. split; [|done].
  constructor; cbn; split; congruence.
Qed.

Lemma tracker_buckets_pos n t : tracker_ok n t → (0 < length (tracker_buckets t))%nat.
Proof. intros [[S1 <-] _ _]. apply S1. Qed.

Lemma add_tx_ok n item t : tracker_ok n t → n + 1 < 2 ^ 64 → ∃ t', add_tx item t = Some t' ∧ tracker_ok (n + 1) t'.
Proof.
  intros Ht Hn. destruct (horizons_ok n (n + 1) (new_mempool_tx (latest_seen_height t) (f64_mul (info_fee_per_cost item) f64_thousand)) t) as (t' & Hh & Ht' & _);
    [|done|by exists t']. intros s Hs _. by apply new_mempool_tx_ok.
Qed.
Lemma remove_tx_ok n item t : tracker_ok n t → ∃ t', remove_tx item t = Some t' ∧ tracker_ok n t'.
Proof.
  intros Ht. unfold remove_tx. cbv zeta. set (b := get_bucket_index _ _).
  destruct (horizons_ok n n (stat_remove_tx (latest_seen_height t) item b) t) as (t' & Hh & Ht' & _); [|done|by exists t'].
  intros s Hs Hb. apply stat_remove_tx_ok; [done|]. rewrite Hb. apply bucket_index_lt. by eapply tracker_buckets_pos.
Qed.
Lemma process_block_ok n h its t : tracker_ok n t → n < 2 ^ 64 → ∃ t', process_block h its t = Some t' ∧ tracker_ok n t'.
Proof.
  intros Ht Hn. unfold process_block. destruct (_ <=? _); [by exists t|]. cbv zeta. set (t0 := t <| latest_seen_height := h |>).
  assert (Ht0 : tracker_ok n t0) by (by destruct Ht).
  destruct (horizons_ok n n (clear_current h) t0) as (t1 & -> & Ht1 & _); [by intros s Hs _; apply clear_current_ok|done|]. cbn.
  destruct (horizons_ok n n update_moving_averages t1) as (t2 & -> & Ht2 & _); [by intros s Hs _; apply update_moving_averages_ok|done|]. cbn.
  ofor_step (tracker_ok n) t3 Ht3; [|done|].
  { intros item s Hi Hs. unfold process_block_tx. destruct (Z.leb_spec h (info_height_added item)); [by exists s|].
    destruct (horizons_ok n n (tx_confirmed (h - info_height_added item) item) s) as (s' & Hh & Hs' & _); [|done|by exists s'].
    intros x Hx _. apply tx_confirmed_ok; [done|lia]. }
  cbn. eexists. split; [done|]. destruct (_ && _); by destruct Ht3.
Qed.

Lemma replicate_rect {A} n k (x : A) : rect n (replicate k (replicate n x)).
Proof. apply Forall_replicate. apply length_replicate. Qed.
Lemma sumZ_zeros k : sumZ (replicate k 0) = 0.
Proof. induction k as [|k IH]; cbn [replicate]; rewrite ?sumZ_cons; [done|lia]. Qed.
Lemma fee_stat_new_ok b periods d s : (0 < length b)%nat → (0 < s)%nat → (0 < periods)%nat → stat_ok 0 (fee_stat_new b periods d s).
Proof.
  intros Hb Hs Hp. constructor; cbn; rewrite ?length_replicate; try done; try apply replicate_rect; [nia|..].
  - apply Forall_replicate, Forall_replicate. done.
  - by apply Forall_replicate.
  - unfold sum2. replace (map sumZ _) with (replicate (s * periods) 0); [rewrite !sumZ_zeros; done|].
    induction (s * periods)%nat as [|k IH]; cbn; [done|]. by rewrite sumZ_zeros, IH.
Qed.
Lemma init_buckets_pos : (0 < length init_buckets)%nat.
Proof. unfold init_buckets. rewrite length_app. cbn [length]. lia. Qed.
#[local] Arguments init_buckets : simpl never.
#[local] Arguments fee_stat_new : simpl never.
Lemma fee_tracker_new_ok : tracker_ok 0 fee_tracker_new.
Proof.
  pose proof init_buckets_pos. constructor; (split; [|reflexivity]); apply fee_stat_new_ok; try done;
    unfold SHORT_SCALE, MED_SCALE, LONG_SCALE, SHORT_BLOCK_PERIOD, MED_BLOCK_PERIOD, LONG_BLOCK_PERIOD; lia.
Qed.

Lemma with_tracker_ok n' f cost e :
  (∃ t', f (tracker e) = Some t' ∧ tracker_ok n' t') → ∃ e', with_tracker f cost e = Some e' ∧ tracker_ok n' (tracker e').
Proof. intros (t' & Hf & Ht). unfold with_tracker. rewrite Hf. by eexists. Qed.

(** The estimator keeps the promise the mempool relies on. *)
#[global, refine] Instance fee_estimator_ok : EstimatorOk := {|
  estimator_inv n e := tracker_ok n (tracker (e : FeeEstimator));
|}.
Proof.
  - intros size. apply fee_tracker_new_ok.
  - intros n n' e [[? ?] [? ?] [? ?]] Hn. constructor; (split; [by eapply stat_ok_mono|done]).
  - intros n e cost fee height total He _ Hn. apply with_tracker_ok. by apply add_tx_ok.
  - intros n e cost fee height total He _. apply with_tracker_ok. by apply remove_tx_ok.
  - intros n e height included total He Hn _. apply with_tracker_ok. by apply process_block_ok.
Defined.

(** ** Any sequence of calls *)
Inductive call :=
  | AddItem (cost fee height_added mempool_cost : Z)
  | RemoveItem (cost fee height_added mempool_cost : Z)
  | NewBlock (block_height : Z) (included : list (Z * Z * Z)) (mempool_cost : Z).
Definition run_call (c : call) : FeeEstimator → option FeeEstimator :=
  match c with
  | AddItem cost fee height total => estimator_add_item cost fee height total
  | RemoveItem cost fee height total => estimator_remove_item cost fee height total
  | NewBlock height included total => estimator_new_block height included total
  end.
Definition is_add (c : call) : bool := match c with AddItem _ _ _ _ => true | _ => false end.
Definition adds (l : list call) : Z := zlen (filter (λ c, is_add c = true) l).

Lemma adds_cons c l : adds (c :: l) = (if is_add c then 1 else 0) + adds l.
Proof. unfold adds, zlen. rewrite filter_cons. destruct (is_add c); [rewrite decide_True by done|rewrite decide_False by done]; cbn [length]; lia. Qed.
Lemma adds_nonneg l : 0 ≤ adds l.
Proof. unfold adds, zlen. lia. Qed.

Lemma run_calls_ok n l e : tracker_ok n (tracker e) → n + adds l < 2 ^ 64 → ∃ e', ofor l run_call e = Some e' ∧ tracker_ok (n + adds l) (tracker e').
Proof.
  revert n e. induction l as [|c l IH]; intros n e He Hn; cbn [ofor]; [exists e; by rewrite Z.add_0_r|].
  rewrite adds_cons in *. pose proof (adds_nonneg l).
  assert (∃ e1, run_call c e = Some e1 ∧ tracker_ok (n + if is_add c then 1 else 0) (tracker e1)) as (e1 & -> & He1).
  { destruct c; cbn [run_call is_add] in *; apply with_tracker_ok.
    - apply add_tx_ok; [done|lia].
    - rewrite Z.add_0_r. by apply remove_tx_ok.
    - rewrite Z.add_0_r. apply process_block_ok; [done|lia]. }
  cbn. destruct (IH _ e1 He1) as (e2 & -> & He2); [lia|]. exists e2. split; [done|]. by rewrite Z.add_assoc.
Qed.

Lemma u64_sum_ok l acc : Forall (Z.le 0) l → 0 ≤ acc → acc + sumZ l < 2 ^ 64 → ofor l (λ x acc, u64_add acc x) acc = Some (acc + sumZ l).
Proof.
  intros Hl. revert acc. induction Hl as [|x l Hx Hl IH]; intros acc Ha Hs; cbn [ofor]; rewrite ?sumZ_cons in *; [by rewrite Z.add_0_r|].
  pose proof (sumZ_nonneg l Hl). rewrite u64_add_ok by lia. cbn. rewrite IH by lia. f_equal. lia.
Qed.
Lemma sumZ_app l l' : sumZ (l ++ l') = sumZ l + sumZ l'.
Proof. induction l as [|x l IH]; [done|]. rewrite <- app_comm_cons, !sumZ_cons. lia. Qed.
Lemma sumZ_concat m : sumZ (concat m) = sum2 m.
Proof. unfold sum2. induction m as [|l m IH]; [done|]. cbn [concat map]. by rewrite sumZ_app, sumZ_cons, IH. Qed.

Lemma outstanding_ok n s : stat_ok n s → n < 2 ^ 64 → outstanding s = Some (sum2 (unconfirmed_txs s) + sumZ (old_unconfirmed_txs s)).
Proof.
  intros Hs Hn. destruct (stat_counts_nonneg n s Hs). pose proof (so_total n s Hs). unfold outstanding, u64_sum.
  rewrite (u64_sum_ok (concat (unconfirmed_txs s)) 0); [|by apply Forall_concat, (so_counts n)|done|rewrite sumZ_concat; lia]. cbn.
  rewrite (u64_sum_ok (old_unconfirmed_txs s) 0); [|by apply (so_old_counts n)|done|lia]. cbn. rewrite sumZ_concat, !Z.add_0_l. apply u64_add_ok. lia.
Qed.

Lemma estimate_rate_total n t e : tracker_ok n (tracker e) → 0 ≤ t < 2 ^ 64 → is_Some (estimate_fee_rate t e).
Proof.
  intros He Ht. unfold estimate_fee_rate, estimate_fee, SECONDS_PER_BLOCK. pose proof (Z.div_le_upper_bound t 40 (2 ^ 64 / 40) ltac:(lia)).
  assert (0 ≤ t / 40 ≤ 2 ^ 60) by (split; [apply Z.div_pos; lia|apply Z.div_le_upper_bound; lia]).
  rewrite u64_add_ok by lia. cbn. unfold estimate_fee_for_block.
  match goal with |- context [estimate_median_val ?a ?b ?c ?d ?s] => destruct (estimate_median_total n a b c d s) as [r ->] end.
  - apply He.
  - destruct (uokb _ _); lia.
  - cbn. unfold parse. destruct (f64_lt _ _); [by eexists|]. destruct (f64_eqb _ _); [by eexists|].
    pose proof (tracker_buckets_pos n _ He). destruct (length (tracker_buckets (tracker e))) as [|mv] eqn:Hl; [lia|]. cbn.
    destruct (lookup_lt_is_Some_2 (tracker_buckets (tracker e)) ((get_bucket_index (tracker_buckets (tracker e)) (start (fail_bucket r)) + 3) `min` mv)) as [b ->]; [lia|].
    by eexists.
Qed.

(** *** Adding and removing *)
Lemma upd2_undo {A} (m : list (list A)) i j x y f g :
  get2 m i j = Some x → f x = Some y → g y = Some x → ∃ m', upd2 m i j f = Some m' ∧ upd2 m' i j g = Some m ∧ length m' = length m.
Proof.
  unfold get2. destruct (m !! i) as [row|] eqn:Hrow; [|done]. cbn. intros Hx Hf Hg. exists (<[i := <[j := y]> row]> m).
  pose proof (lookup_lt_Some _ _ _ Hrow). pose proof (lookup_lt_Some _ _ _ Hx). split_and!.
  - eapply upd_some; [done|]. by eapply upd_some.
  - unfold upd2. erewrite upd_some; [|by rewrite list_lookup_insert_eq|eapply upd_some; [by rewrite list_lookup_insert_eq|done]].
    rewrite !list_insert_insert_eq, (list_insert_id row) by done. by rewrite list_insert_id.
  - apply length_insert.
Qed.

Lemma new_remove_undo n h rate item s s' :
  stat_ok n s → info_height_added item = h → new_mempool_tx h rate s = Some s' →
  stat_remove_tx h item (get_bucket_index (buckets s) rate) s' = Some s.
Proof.
  intros Hs Hh. pose proof Hs as [S1 S2 S3 S4 S5 S6 S7 S8 S9 S10 S11 S12 S13 S14]. unfold new_mempool_tx. cbv zeta.
  destruct (row_of_some h (length (unconfirmed_txs s))) as (row & Hr & Hrow); [lia|]. rewrite Hr. cbn.
  pose proof (bucket_index_lt (buckets s) rate S1) as Hb. set (b := get_bucket_index _ _) in *.
  destruct (get2_rect _ _ _ _ S8 Hrow Hb) as [x Hx].
  destruct (upd2 _ _ _ _) as [m'|] eqn:Hu; [|done]. cbn. intros [= <-].
  assert (Hx0 : 0 ≤ x) by (destruct (upd2_count _ _ row b (λ _, Some 0) x 0 S8 S12 Hx) as (? & _ & _ & _ & _ & _ & ?); [done|done|lia]).
  assert (Hy : u64_add x 1 = Some (x + 1)).
  { unfold upd2, upd in Hu. unfold get2 in Hx. destruct (_ !! row) as [r|]; [|done]. cbn in Hx, Hu. rewrite Hx in Hu. cbn in Hu.
    unfold u64_add in *. by destruct (uokb _ _). }
  destruct (upd2_undo (unconfirmed_txs s) row b x (x + 1) (λ x, u64_add x 1) dec_pos) as (m1 & Hu1 & Hback & Hlen); [done|done|
    unfold dec_pos; destruct (Z.ltb_spec 0 (x + 1)); [f_equal; lia|lia]|].
  assert (m1 = m') as -> by congruence. unfold stat_remove_tx. cbv zeta. rewrite Hh.
  assert ((if h =? 0 then 0 else h - h) = 0) as -> by (destruct (h =? 0); lia). cbn [Z.ltb Z.compare].
  destruct (Z.leb_spec (Z.of_nat (length (unconfirmed_txs (s <| unconfirmed_txs := m' |>)))) 0); [cbn in *; lia|].
  change (unconfirmed_txs (s <| unconfirmed_txs := m' |>)) with m'. rewrite Hlen, Hr. cbn. rewrite Hback. cbn.
  destruct (Z.leb_spec (Z.of_nat (scale s)) 0); [lia|]. by destruct s.
Qed.

(** ** The ladder of buckets *)
Lemma partition_point_spec {A} (p : A → bool) l :
  (partition_point l p ≤ length l)%nat ∧ (∀ j x, (j < partition_point l p)%nat → l !! j = Some x → p x = true) ∧
  (∀ x, l !! partition_point l p = Some x → p x = false).
Proof.
  induction l as [|y l (IH1 & IH2 & IH3)]; cbn [partition_point length]; [split_and!; [lia|lia|done]|]. destruct (p y) eqn:Hy; [|split_and!; [lia|lia|]].
  - split_and!; [lia| |done]. intros [|j] x Hj; cbn; [by intros [= <-]|apply IH2; lia].
  - cbn. by intros x [= <-].
Qed.

Fixpoint ascending (l : list f64) : bool :=
  match l with x :: l' => match l' with y :: _ => f64_lt x y && ascending l' | [] => true end | [] => true end.
Definition posb (x : f64) : bool := match x with S754_zero _ => true | S754_infinity s | S754_finite s _ _ => negb s | S754_nan => false end.
Lemma posb_spec x : posb x = true → f64_pos x.
Proof. by destruct x as [| [] | |[]]. Qed.
Lemma f64_lt_cmp x y : f64_lt x y = true → f64_cmp x y = Lt.
Proof. unfold f64_lt, f64_cmp. by destruct (SFcompare x y) as [[]|]. Qed.
Lemma f64_cmp_lt x y : f64_cmp x y = Lt → f64_lt x y = true.
Proof. unfold f64_lt, f64_cmp. by destruct (SFcompare x y) as [[]|]. Qed.

Lemma ascending_le l i j x y :
  ascending l = true → forallb posb l = true → (i ≤ j)%nat → l !! i = Some x → l !! j = Some y → f64_cmp x y ≠ Gt.
Proof.
  revert i j x y. induction l as [|z l IH]; intros [|i] [|j] x y Ha Hp Hij; cbn [lookup list_lookup]; try done; try lia.
  - intros [= ->] [= ->]. rewrite f64_cmp_refl; [done|]. apply posb_spec. cbn in Hp. by apply andb_true_iff in Hp as [? _].
  - intros [= ->] Hy. cbn in Ha. destruct l as [|z2 l2] eqn:Hl; [done|]. rewrite <- Hl in *. apply andb_true_iff in Ha as [Hlt%f64_lt_cmp Ha].
    cbn in Hp. apply andb_true_iff in Hp as [Hpx Hpl].
    assert (Hall : ∀ k w, l !! k = Some w → f64_pos w).
    { intros k w Hk. apply posb_spec. rewrite forallb_forall in Hpl. apply Hpl, list_elem_of_In. by eapply list_elem_of_lookup_2. }
    apply (f64_cmp_trans x z2 y); [by apply posb_spec|apply (Hall O); by rewrite Hl|by apply (Hall j)|by rewrite Hlt|].
    apply (IH 0%nat j); [done|done|lia|by rewrite Hl|done].
  - intros Hx Hy. apply (IH i j); try done; [|by cbn in Hp; apply andb_true_iff in Hp as [_ ?]|lia].
    cbn in Ha. destruct l; [done|]. by apply andb_true_iff in Ha as [_ ?].
Qed.

(** The bucket of a rate: the buckets up to it are below the rate (or it is the
    first), those after it are not. *)
Definition bucket_of (l : list f64) (rate : f64) (i : nat) : Prop :=
  (i < length l)%nat ∧ (∀ j b, (j ≤ i)%nat → l !! j = Some b → f64_lt b rate = true ∨ i = 0%nat) ∧
  (∀ j b, (i < j)%nat → l !! j = Some b → f64_lt b rate = false).

Lemma bucket_index_spec l rate :
  (0 < length l)%nat → ascending l = true → forallb posb l = true → f64_pos rate → bucket_of l rate (get_bucket_index l rate).
Proof.
  intros Hl Ha Hp Hr. destruct (partition_point_spec (λ b, f64_lt b rate) l) as (P1 & P2 & P3). split_and!.
  - by apply bucket_index_lt.
  - intros j b Hj Hb. unfold get_bucket_index, clamp in *. destruct (decide (partition_point l (λ b, f64_lt b rate) = 0%nat)) as [H0|H0]; [right; lia|].
    left. apply (P2 j b); [lia|done].
  - intros j b Hj Hb. destruct (f64_lt b rate) eqn:Hlt; [|done]. exfalso. pose proof (lookup_lt_Some _ _ _ Hb) as Hjl.
    assert (Hpp : (partition_point l (λ b, f64_lt b rate) ≤ j)%nat) by (unfold get_bucket_index, clamp in Hj; lia).
    destruct (lookup_lt_is_Some_2 l (partition_point l (λ b, f64_lt b rate))) as [c Hc]; [lia|]. pose proof (P3 c Hc) as Hcr. cbn in Hcr.
    assert (Hall : ∀ k w, l !! k = Some w → f64_pos w).
    { intros k w Hk. apply posb_spec. rewrite forallb_forall in Hp. apply Hp, list_elem_of_In. by eapply list_elem_of_lookup_2. }
    pose proof (ascending_le l _ j c b Ha Hp Hpp Hc Hb) as Hcb. apply f64_lt_cmp in Hlt.
    assert (Hrc : f64_cmp rate c ≠ Gt).
    { intros Hgt. assert (f64_lt c rate = true); [|congruence]. apply f64_cmp_lt. rewrite (f64_cmp_antisym rate c) by eauto. by rewrite Hgt. }
    pose proof (f64_cmp_trans rate c b Hr (Hall _ _ Hc) (Hall _ _ Hb) Hrc Hcb) as Hrb.
    rewrite (f64_cmp_antisym b rate) in Hrb by eauto. by rewrite Hlt in Hrb.
Qed.

(** The ladder is complete: more fuel adds nothing. *)
Lemma init_loop_fuel fuel k rate : (length (init_buckets_loop fuel rate) < fuel)%nat → init_buckets_loop (fuel + k) rate = init_buckets_loop fuel rate.
Proof.
  revert rate. induction fuel as [|fuel IH]; intros rate; cbn [init_buckets_loop Nat.add length]; [lia|].
  destruct (f64_lt rate MAX_FEE_RATE); cbn [length]; [|done]. intros Hl. f_equal. apply IH. lia.
Qed.
Lemma init_buckets_facts :
  (length (init_buckets_loop 400 INITIAL_STEP) <? 400)%nat && ascending init_buckets && forallb posb init_buckets = true.
Proof. vm_compute. reflexivity. Qed.

(** ** The last period *)
Lemma ofor_preserves {A S} (P : S → Prop) (f : A → S → option S) l s s' :
  (∀ x s s', x ∈ l → f x s = Some s' → P s → P s') → ofor l f s = Some s' → P s → P s'.
Proof.
  revert s. induction l as [|x l IH]; intros s Hf; cbn [ofor]; [by intros [= <-]|].
  destruct (f x s) as [s1|] eqn:Hx; cbn; [|done]. intros Hl Hs. apply (IH s1); [|done|].
  - intros y t t' Hy. apply Hf. by apply list_elem_of_further.
  - apply (Hf x s s1); [apply list_elem_of_here|done|done].
Qed.

(** The last row of the confirmations is zero. *)
Definition last_zero (s : FeeStat) : Prop :=
  f64_mul f64_zero (decay s) = f64_zero ∧ ∀ i row, S i = length (confirmed_average s) → confirmed_average s !! i = Some row → Forall (eq f64_zero) row.

Lemma upd2_inv {A} (m : list (list A)) i j f m' :
  upd2 m i j f = Some m' → ∃ row x y, m !! i = Some row ∧ row !! j = Some x ∧ f x = Some y ∧ m' = <[i := <[j := y]> row]> m.
Proof.
  unfold upd2, upd. destruct (m !! i) as [row|] eqn:Hr; cbn; [|done]. destruct (row !! j) as [x|] eqn:Hx; cbn; [|done].
  destruct (f x) as [y|] eqn:Hf; cbn; [|done]. intros [= <-]. by exists row, x, y.
Qed.

Lemma last_zero_rows s m :
  last_zero s → length m = length (confirmed_average s) → (∀ i row, S i = length m → m !! i = Some row → Forall (eq f64_zero) row) →
  last_zero (s <| confirmed_average := m |>).
Proof. intros [Hd _] Hl Hm. split; [done|]. cbn. exact Hm. Qed.

Lemma tx_confirmed_last blocks item s s' : 1 ≤ blocks → tx_confirmed blocks item s = Some s' → last_zero s → last_zero s'.
Proof.
  intros Hb. unfold tx_confirmed. destruct (usize_div_ceil _ _) as [q|] eqn:Hq; cbn; [|done].
  assert (1 ≤ q).
  { unfold usize_div_ceil in Hq. destruct (Z.eqb_spec (Z.of_nat (scale s)) 0); [done|]. injection Hq as <-. apply Z.div_le_lower_bound; lia. } set (rate := f64_mul _ _). set (b := get_bucket_index _ _).
  destruct (ofor _ _ _) as [m|] eqn:Hf; cbn; [|done]. destruct (upd (tx_ct_avg s) _ _) as [l1|]; cbn; [|done].
  destruct (upd (m_fee_rate_avg s) _ _) as [l2|]; cbn; [|done]. intros [= <-] [Hd Hz].
  apply (ofor_preserves (λ m, length m = length (confirmed_average s) ∧ ∀ i row, S i = length m → m !! i = Some row → Forall (eq f64_zero) row)) in Hf; [|..].
  - destruct Hf as [Hl Hm]. by split.
  - intros i m1 m2 Hi%elem_of_seqZ. destruct (i =? 0); [done|]. intros (row & x & y & Hrow & _ & _ & ->)%upd2_inv [Hl Hm].
    rewrite length_insert. split; [done|]. intros k r Hk. rewrite list_lookup_insert_ne by lia. by apply Hm.
  - by split.
Qed.

Lemma update_last s s' : update_moving_averages s = Some s' → last_zero s → last_zero s'.
Proof.
  unfold update_moving_averages. intros Hf. revert Hf. apply ofor_preserves. intros j s1 s2 _.
  destruct (ofor _ _ _) as [s3|] eqn:Hf; cbn; [|done]. destruct (upd (tx_ct_avg s3) _ _); cbn; [|done]. destruct (upd (m_fee_rate_avg s3) _ _); cbn; [|done].
  intros [= <-] Hs1. assert (Hs3 : last_zero s3); [|by destruct Hs3]. revert Hf Hs1. apply ofor_preserves.
  intros i t t' _. destruct (upd2 (confirmed_average t) _ _ _) as [m1|] eqn:H1'; cbn; [|done]. destruct (upd2 (failed_average t) _ _ _) as [m2|]; cbn; [|done].
  intros [= <-] [Hd Hz]. apply upd2_inv in H1' as (row & x & y & Hrow & Hx & Hy & ->). split; [done|]. cbn. rewrite length_insert. intros k r Hk.
  destruct (decide (k = i)) as [->|Hne]; [|rewrite list_lookup_insert_ne by done; by apply Hz].
  rewrite list_lookup_insert_eq by (by eapply lookup_lt_Some). intros [= <-]. pose proof (Hz _ _ Hk Hrow) as Hr.
  apply Forall_insert; [done|]. assert (x = f64_zero) as -> by (symmetry; eapply (Forall_lookup_1 _ _ _ _ Hr); done).
  unfold decayed in Hy. rewrite Hd in Hy. by injection Hy.
Qed.

(** The calls that leave the confirmations alone. *)
Definition keeps_confirmed (f : FeeStat → option FeeStat) : Prop :=
  ∀ s s', f s = Some s' → confirmed_average s' = confirmed_average s ∧ decay s' = decay s.
Lemma keeps_last f s s' : keeps_confirmed f → f s = Some s' → last_zero s → last_zero s'.
Proof. intros Hf [Hc Hd]%Hf Hz. unfold last_zero. by rewrite Hc, Hd. Qed.
Lemma new_mempool_tx_keeps h rate : keeps_confirmed (new_mempool_tx h rate).
Proof.
  intros s s'. unfold new_mempool_tx. destruct (row_of _ _); cbn; [|done]. destruct (upd2 _ _ _ _); cbn; [|done]. by intros [= <-].
Qed.
Lemma stat_remove_tx_keeps h item b : keeps_confirmed (stat_remove_tx h item b).
Proof.
  intros s s'. unfold stat_remove_tx. cbv zeta. set (ago := if h =? 0 then 0 else _). destruct (ago <? 0); [by intros [= <-]|].
  set (first := if _ <=? ago then _ else _).
  assert (Hfirst : ∀ s1, first = Some s1 → confirmed_average s1 = confirmed_average s ∧ decay s1 = decay s).
  { intros s1. unfold first. destruct (_ <=? ago).
    - destruct (upd (old_unconfirmed_txs s) _ _); cbn; [|done]. by intros [= <-].
    - destruct (row_of _ _); cbn; [|done]. destruct (upd2 (unconfirmed_txs s) _ _ _); cbn; [|done]. by intros [= <-]. }
  clearbody first. destruct first as [s1|]; cbn; [|done]. destruct (Hfirst s1 eq_refl) as [Hc Hd].
  destruct (_ <=? ago); [|by intros [= <-]]. destruct (credit_failed _ _ _ _); cbn; [|done]. by intros [= <-].
Qed.
Lemma clear_current_keeps h : keeps_confirmed (clear_current h).
Proof.
  intros s s'. unfold clear_current. destruct (row_of _ _) as [row|]; cbn; [|done]. intros Hf.
  refine (ofor_preserves (λ x, confirmed_average x = confirmed_average s ∧ decay x = decay s) _ _ _ _ _ Hf (conj eq_refl eq_refl)).
  intros i t t' _. destruct (get2 _ _ _); cbn; [|done]. destruct (upd (old_unconfirmed_txs t) _ _); cbn; [|done].
  destruct (upd2 (unconfirmed_txs t) _ _ _); cbn; [|done]. by intros [= <-].
Qed.

(** No horizon's last row is filled. *)
Definition tracker_last (t : FeeTracker) : Prop := last_zero (short_horizon t) ∧ last_zero (med_horizon t) ∧ last_zero (long_horizon t).
Lemma horizons_last f t t' : (∀ s s', f s = Some s' → last_zero s → last_zero s') → horizons f t = Some t' → tracker_last t → tracker_last t'.
Proof.
  intros Hf. unfold horizons. destruct (f (short_horizon t)) as [s1|] eqn:H1'; cbn; [|done]. destruct (f (med_horizon t)) as [s2|] eqn:H2'; cbn; [|done].
  destruct (f (long_horizon t)) as [s3|] eqn:H3'; cbn; [|done]. intros [= <-] (? & ? & ?). split_and!; cbn; eapply Hf; eauto.
Qed.
Lemma process_block_last h its t t' : process_block h its t = Some t' → tracker_last t → tracker_last t'.
Proof.
  unfold process_block. destruct (_ <=? _); [by intros [= <-]|]. cbv zeta. destruct (horizons (clear_current h) _) as [t1|] eqn:H1'; cbn; [|done].
  destruct (horizons update_moving_averages t1) as [t2|] eqn:H2'; cbn; [|done]. destruct (ofor _ _ _) as [t3|] eqn:H3'; cbn; [|done].
  intros [= <-] Ht. apply horizons_last in H1'; [|intros s s'; apply keeps_last, clear_current_keeps|done].
  apply horizons_last in H2'; [|intros s s'; apply update_last|done].
  assert (Ht3 : tracker_last t3); [|destruct (_ && _); exact Ht3]. revert H3' H2'. apply ofor_preserves.
  intros item s s' _. unfold process_block_tx. destruct (Z.leb_spec h (info_height_added item)); [by intros [= <-]|].
  apply horizons_last. intros x x'. apply tx_confirmed_last. lia.
Qed.
Lemma run_call_last c e e' : run_call c e = Some e' → tracker_last (tracker e) → tracker_last (tracker e').
Proof.
  assert (Hw : ∀ f cost, (∀ t t', f t = Some t' → tracker_last t → tracker_last t') → with_tracker f cost e = Some e' → tracker_last (tracker e) → tracker_last (tracker e')).
  { intros f cost Hf. unfold with_tracker. destruct (f (tracker e)) as [t|] eqn:Ht; cbn; [|done]. intros [= <-]. by apply Hf. }
  destruct c; cbn [run_call]; apply Hw; intros t t'.
  - apply horizons_last. intros s s'. apply keeps_last, new_mempool_tx_keeps.
  - apply horizons_last. intros s s'. apply keeps_last, stat_remove_tx_keeps.
  - apply process_block_last.
Qed.
Lemma last_index {A} (l : list A) d : l = [] ∨ ∃ i, S i = length l ∧ l !! i = Some (List.last l d).
Proof.
  induction l as [|x l IH]; [by left|]. right. destruct IH as [->|(i & Hi & Hl)]; [by exists 0%nat|]. exists (S i). split; [cbn; lia|].
  cbn. destruct l; [done|exact Hl].
Qed.
Lemma fee_stat_new_last b periods d s : f64_mul f64_zero d = f64_zero → last_zero (fee_stat_new b periods d s).
Proof.
  intros Hd. split; [exact Hd|]. intros i row _ Hrow. cbn in Hrow. apply lookup_replicate in Hrow as [-> _]. by apply Forall_replicate.
Qed.
Lemma fee_tracker_new_last : tracker_last fee_tracker_new.
Proof. split_and!; apply fee_stat_new_last; vm_compute; reflexivity. Qed.

(** ** Properties *)

(** C27: the estimator never panics.  Whatever calls the mempool makes, in any
    order, as long as fewer than [2^64] items are ever added, each call
    returns, an estimate for any time is made, and the transactions counted as
    outstanding never exceed the items added. *)
Theorem estimator_never_panics (l : list call) (size time : Z) :
  adds l < 2 ^ 64 → 0 ≤ time < 2 ^ 64 →
  ∃ e k, ofor l run_call (fee_estimator_new size) = Some e ∧ is_Some (estimate_fee_rate time e) ∧
    outstanding_short (tracker e) = Some k ∧ 0 ≤ k ≤ adds l.
Proof.
  intros Hl Ht. destruct (run_calls_ok 0 l (fee_estimator_new size) fee_tracker_new_ok) as (e & Hr & He); [lia|]. rewrite Z.add_0_l in He.
  pose proof He as [[Hs _] _ _]. destruct (stat_counts_nonneg _ _ Hs). pose proof (so_total _ _ Hs).
  exists e. eexists. split; [done|]. split; [by eapply estimate_rate_total|]. split; [by apply (outstanding_ok (adds l))|lia].
Qed.

(** C35: adding an item and then removing it at the height it was added leaves
    the tracker exactly as it was, in all three horizons. *)
Theorem add_remove_roundtrip (n : Z) (item : ItemInfo) (t t' : FeeTracker) :
  tracker_ok n t → info_height_added item = latest_seen_height t → add_tx item t = Some t' → remove_tx item t' = Some t.
Proof.
  intros [[S1 B1] [S2 B2] [S3 B3]] Hh. unfold add_tx, remove_tx. cbv zeta. set (rate := f64_mul _ _). unfold horizons.
  destruct (new_mempool_tx _ _ (short_horizon t)) as [s1|] eqn:H1'; cbn; [|done].
  destruct (new_mempool_tx _ _ (med_horizon t)) as [s2|] eqn:H2'; cbn; [|done].
  destruct (new_mempool_tx _ _ (long_horizon t)) as [s3|] eqn:H3'; cbn; [|done]. intros [= <-]. cbn.
  rewrite <- B1 at 1. rewrite (new_remove_undo n _ rate item _ _ S1 Hh H1'). cbn.
  rewrite <- B2 at 1. rewrite (new_remove_undo n _ rate item _ _ S2 Hh H2'). cbn.
  rewrite <- B3 at 1. rewrite (new_remove_undo n _ rate item _ _ S3 Hh H3'). by destruct t.
Qed.

(** the ladder of buckets is finished before its loop runs out of fuel,
    and the bucket of a fee rate is the right one: the buckets up to it start
    below the rate, unless it is the first, and no later one does. *)
Theorem bucket_index_correct (rate : f64) :
  f64_pos rate → (∀ k, init_buckets_loop (400 + k) INITIAL_STEP = init_buckets_loop 400 INITIAL_STEP) ∧
  bucket_of init_buckets rate (get_bucket_index init_buckets rate).
Proof.
  intros Hr. pose proof init_buckets_facts as [[Hlen Ha]%andb_true_iff Hp]%andb_true_iff. apply Nat.ltb_lt in Hlen. split.
  - intros k. by apply init_loop_fuel.
  - apply bucket_index_spec; [apply init_buckets_pos|done|done|done].
Qed.

(** C36: the confirmations of the last period are never recorded.  Whatever the
    calls, the last row of every horizon's table of confirmations stays zero:
    the loop that fills the table stops one period short. *)
Theorem last_period_unfilled (l : list call) (size : Z) (e : FeeEstimator) :
  ofor l run_call (fee_estimator_new size) = Some e →
  Forall (λ s, Forall (eq f64_zero) (List.last (confirmed_average s) []))
    [short_horizon (tracker e); med_horizon (tracker e); long_horizon (tracker e)].
Proof.
  intros Hl. assert (Ht : tracker_last (tracker e)).
  { refine (ofor_preserves (λ e, tracker_last (tracker e)) _ _ _ _ _ Hl fee_tracker_new_last). intros c x x' _. apply run_call_last. }
  assert (Hlast : ∀ s, last_zero s → Forall (eq f64_zero) (List.last (confirmed_average s) [])).
  { intros s [_ Hz]. destruct (last_index (confirmed_average s) []) as [Hnil|(i & Hi & Hrow)]; [by rewrite Hnil|by apply (Hz i)]. }
  destruct Ht as (? & ? & ?). by repeat constructor; apply Hlast.
Qed.

(** ** Witnesses *)
Definition sample_calls : list call := [AddItem 10 1000 0 10; NewBlock 1 [(10, 1000, 0)] 0; AddItem 20 50 1 20; RemoveItem 20 50 1 0].

Lemma estimator_never_panics_witness :
  ∃ e k, ofor sample_calls run_call (fee_estimator_new 100) = Some e ∧ is_Some (estimate_fee_rate 300 e) ∧
    outstanding_short (tracker e) = Some k ∧ 0 ≤ k ≤ 2.
Proof. apply (estimator_never_panics sample_calls 100 300); [reflexivity|lia]. Defined.

Definition sample_info : ItemInfo := {| info_cost := 10; info_fee := 1000; info_height_added := 0 |}.
Lemma add_remove_roundtrip_witness : ∃ t', add_tx sample_info fee_tracker_new = Some t' ∧ remove_tx sample_info t' = Some fee_tracker_new.
Proof.
  destruct (add_tx_ok 0 sample_info fee_tracker_new fee_tracker_new_ok) as (t' & Ht & _); [lia|]. exists t'. split; [exact Ht|].
  exact (add_remove_roundtrip 0 sample_info fee_tracker_new t' fee_tracker_new_ok eq_refl Ht).
Defined.

Lemma bucket_index_correct_witness :
  (∀ k, init_buckets_loop (400 + k) INITIAL_STEP = init_buckets_loop 400 INITIAL_STEP) ∧
  bucket_of init_buckets (f64_of 6) (get_bucket_index init_buckets (f64_of 6)).
Proof. apply (bucket_index_correct (f64_of 6)). reflexivity. Defined.

Lemma last_period_unfilled_witness :
  ∃ e, ofor sample_calls run_call (fee_estimator_new 100) = Some e ∧
    Forall (λ s, Forall (eq f64_zero) (List.last (confirmed_average s) []))
      [short_horizon (tracker e); med_horizon (tracker e); long_horizon (tracker e)].
Proof.
  destruct (run_calls_ok 0 sample_calls (fee_estimator_new 100) fee_tracker_new_ok) as (e & He & _); [reflexivity|].
  exists e. split; [exact He|]. exact (last_period_unfilled sample_calls 100 e He).
Defined.
