(* ===== verification/MempoolSafety.v ===== *)
(** * What the mempool guarantees

    The pools that the methods of [Mempool] can reach, and the theorems about
    them: the invariant, that no two items spend a coin both may not, what
    each method leaves, and when a bundle may replace others. *)
From Stdlib Require Import ZArith Lia.
From stdpp Require Import base list numbers option gmap sets sorting.
From S2P Require Import Prelude Serialize ClvmNumber ClvmSexp Coin ClvmPath ClvmParser ClvmCanonical PotIterations Conditions SpendConditions BlockConditions BlockGenerator GeneratorProgram FastForward BlockValidation Float64 Mempool MempoolInvariant MempoolAdmission MempoolPeak MempoolReorg FeeEstimator.

Open Scope Z_scope.

(** ** Replacing by fee *)
Section replacing.
Context `{BigIntBytes, Sha256, HashOrderOk, EstimatorOk} (coin_hash : list Z → list Z).

Definition fold_record (its : list MempoolItem) (r : replaced) : replaced := {|
  conflicting_fees := foldl (λ f i, sat_addu 64 f (item_fee i)) (conflicting_fees r) its;
  conflicting_cost := foldl (λ c i, sat_addu 64 c (item_cost i)) (conflicting_cost r) its;
  replaced_height := foldl (λ h i, Z.max h (assert_height (item_timelocks i))) (replaced_height r) its;
  replaced_before_height := foldl (λ b i, fold_min b (assert_before_height (item_timelocks i))) (replaced_before_height r) its;
  replaced_before_seconds := foldl (λ b i, fold_min b (assert_before_seconds (item_timelocks i))) (replaced_before_seconds r) its;
  existing_ff_spends := existing_ff_spends r ∪
    list_to_set (i ← its; map spend_id (filter (λ b, has_lineage b = true) (item_coin_spends i)));
  existing_dedup_spends := existing_dedup_spends r ∪
    list_to_set (i ← its; map spend_id (filter (λ b, eligible_for_dedup b = true) (item_coin_spends i)));
|}.

Lemma fold_replaced_spec m nr l r r' :
  fold_replaced m nr l r = Some r' ↔
  ∃ its, mapM (λ n, items m !! n) l = Some its ∧ (∀ i id, i ∈ its → id ∈ item_removals i → id ∈ nr) ∧ r' = fold_record its r.
Proof.
  revert r. induction l as [|n l IH]; intros r; cbn [fold_replaced mapM].
  { split.
    - intros [= <-]. exists []. split; [done|]. split; [set_solver|]. unfold fold_record. cbn. destruct r; f_equal; set_solver.
    - intros (its & [= <-] & _ & ->). unfold fold_record. cbn. destruct r; f_equal; f_equal; set_solver. }
  destruct (items m !! n) as [i|]; cbn [mbind option_bind]; [|naive_solver].
  assert (Hrec : ∀ its r, fold_record its {|
      conflicting_fees := sat_addu 64 (conflicting_fees r) (item_fee i); conflicting_cost := sat_addu 64 (conflicting_cost r) (item_cost i);
      replaced_height := Z.max (replaced_height r) (assert_height (item_timelocks i));
      replaced_before_height := fold_min (replaced_before_height r) (assert_before_height (item_timelocks i));
      replaced_before_seconds := fold_min (replaced_before_seconds r) (assert_before_seconds (item_timelocks i));
      existing_ff_spends := existing_ff_spends r ∪ list_to_set (map spend_id (filter (λ b, has_lineage b = true) (item_coin_spends i)));
      existing_dedup_spends := existing_dedup_spends r ∪ list_to_set (map spend_id (filter (λ b, eligible_for_dedup b = true) (item_coin_spends i))) |}
    = fold_record (i :: its) r).
  { intros its r0. unfold fold_record. cbn. f_equal; rewrite list_to_set_app_L; set_solver. }
  destruct (forallb _ _) eqn:Hsup.
  - rewrite IH. rewrite forallb_forall in Hsup. split.
    + intros (its & Hits & Hs & ->). exists (i :: its). rewrite Hits. split; [done|]. split; [|apply Hrec].
      intros x id [->|Hx]%elem_of_cons Hid; [|by eapply Hs]. apply list_elem_of_In in Hid. by apply Hsup, bool_decide_eq_true in Hid.
    + destruct (mapM _ l) as [its|]; [|naive_solver]. intros (? & [= <-] & Hs & ->). exists its. split; [done|]. split; [set_solver|]. symmetry. apply Hrec.
  - split; [done|]. destruct (mapM _ l) as [its|]; [|naive_solver]. intros (? & [= <-] & Hs & ->). exfalso.
    apply not_true_iff_false in Hsup. apply Hsup, forallb_forall. intros id Hid%list_elem_of_In. apply bool_decide_eq_true. eapply Hs; [apply list_elem_of_here|done].
Qed.

Lemma mapM_ext_in {A B} (f g : A → option B) l : (∀ x, x ∈ l → f x = g x) → mapM f l = mapM g l.
Proof.
  induction l as [|x l IH]; intros Hfg; cbn [mapM]; [done|]. rewrite (Hfg x) by apply list_elem_of_here. destruct (g x); cbn; [|done].
  rewrite IH; [done|]. intros y Hy. apply Hfg. by apply list_elem_of_further.
Qed.
(** Sums over distinct items do not saturate. *)
Lemma sum_items_le (f : MempoolItem → Z) its0 l its :
  NoDup l → mapM (λ n, its0 !! n) l = Some its → map_Forall (λ _ i, 0 ≤ f i) its0 → sum_of f its ≤ map_sum f its0.
Proof.
  revert its0 its. induction l as [|n l IH]; intros its0 its Hnd Hm Hf; cbn [mapM] in Hm.
  { injection Hm as <-. unfold sum_of. cbn. by apply map_sum_nonneg. }
  apply NoDup_cons in Hnd as [Hn Hnd]. destruct (its0 !! n) as [i|] eqn:Hi; [|done]. cbn in Hm. destruct (mapM _ l) as [its'|] eqn:Hl; [|done].
  injection Hm as <-. change (sum_of f (i :: its')) with (f i + sum_of f its').
  assert (sum_of f its' ≤ map_sum f (delete n its0)); [|rewrite (map_sum_delete _ _ _ _ Hi) in *; lia].
  apply IH; [done| |by apply map_Forall_delete]. rewrite <- Hl. apply mapM_ext_in. intros x Hx. rewrite lookup_delete_ne; [done|]. by intros ->.
Qed.
Lemma foldl_sat_sum (f : MempoolItem → Z) its acc :
  Forall (λ i, 0 ≤ f i) its → 0 ≤ acc → acc + sum_of f its < 2 ^ 64 → foldl (λ s i, sat_addu 64 s (f i)) acc its = acc + sum_of f its.
Proof.
  intros Hf. revert acc. induction Hf as [|i its Hi Hf IH]; intros acc Ha Hs; cbn [foldl]; [unfold sum_of; cbn; lia|].
  change (sum_of f (i :: its)) with (f i + sum_of f its) in *.
  assert (0 ≤ sum_of f its) by (clear -Hf; unfold sum_of; induction Hf; cbn [foldr]; lia).
  unfold sat_addu at 2. rewrite Z.min_r by lia. rewrite IH by lia. lia.
Qed.

(** The rules for replacing. *)
Definition may_replace (m : Mempool) (conflicting : list (list Z)) (removals : gset (list Z)) (fee cost : Z) (tl : EffectiveTimelocks)
    (new : list BundleCoinSpend) : Prop :=
  ∃ its, mapM (λ n, items m !! n) conflicting = Some its ∧
    (∀ i id, i ∈ its → id ∈ item_removals i → id ∈ removals) ∧
    sum_of item_fee its * cost < fee * sum_of item_cost its ∧
    sum_of item_fee its + MEMPOOL_MIN_FEE_INCREASE ≤ fee ∧
    assert_height tl = foldl (λ h i, Z.max h (assert_height (item_timelocks i))) 0 its ∧
    assert_before_height tl = foldl (λ b i, fold_min b (assert_before_height (item_timelocks i))) None its ∧
    assert_before_seconds tl = foldl (λ b i, fold_min b (assert_before_seconds (item_timelocks i))) None its ∧
    ∀ i b, i ∈ its → b ∈ item_coin_spends i →
      (has_lineage b = true → is_some_and (find_spend_of new (spend_id b)) has_lineage = true) ∧
      (eligible_for_dedup b = true → is_some_and (find_spend_of new (spend_id b)) eligible_for_dedup = true).

Lemma kept_eligible (its : list MempoolItem) (p : BundleCoinSpend → bool) (new : list BundleCoinSpend) (s : gset (list Z)) :
  s = ∅ ∪ list_to_set (i ← its; map spend_id (filter (λ b, p b = true) (item_coin_spends i))) →
  forallb (λ id, is_some_and (find_spend_of new id) p) (set_iter s) = true ↔
  ∀ i b, i ∈ its → b ∈ item_coin_spends i → p b = true → is_some_and (find_spend_of new (spend_id b)) p = true.
Proof.
  intros ->. rewrite forallb_forall. split.
  - intros Hf i b Hi Hb Hp. apply Hf. apply list_elem_of_In. rewrite set_iter_perm, elem_of_elements, elem_of_union, elem_of_list_to_set. right.
    apply list_elem_of_bind. exists i. split; [|done]. apply (list_elem_of_fmap_2 spend_id). by apply list_elem_of_filter.
  - intros Hf id Hid%list_elem_of_In. rewrite set_iter_perm, elem_of_elements, elem_of_union, elem_of_list_to_set in Hid.
    destruct Hid as [[]%not_elem_of_empty|Hid]. apply list_elem_of_bind in Hid as (i & Hid & Hi). apply list_elem_of_fmap in Hid as (b & -> & Hb).
    apply list_elem_of_filter in Hb as [Hp Hb]. by eapply Hf.
Qed.

Lemma replace_rules (r : replaced) fee cost tl (kept_ff kept_dedup : bool) :
  (if fee * conflicting_cost r <=? conflicting_fees r * cost then false else
   if sat_sub fee (conflicting_fees r) <? MEMPOOL_MIN_FEE_INCREASE then false else
   if negb (assert_height tl =? replaced_height r) || negb (bool_decide (assert_before_height tl = replaced_before_height r)) ||
      negb (bool_decide (assert_before_seconds tl = replaced_before_seconds r)) then false else kept_ff && kept_dedup) = true ↔
  conflicting_fees r * cost < fee * conflicting_cost r ∧ conflicting_fees r + MEMPOOL_MIN_FEE_INCREASE ≤ fee ∧
  assert_height tl = replaced_height r ∧ assert_before_height tl = replaced_before_height r ∧
  assert_before_seconds tl = replaced_before_seconds r ∧ kept_ff = true ∧ kept_dedup = true.
Proof.
  assert (Hmin : (sat_sub fee (conflicting_fees r) <? MEMPOOL_MIN_FEE_INCREASE) = false ↔ conflicting_fees r + MEMPOOL_MIN_FEE_INCREASE ≤ fee).
  { unfold sat_sub, MEMPOOL_MIN_FEE_INCREASE. rewrite Z.ltb_ge. lia. }
  destruct (Z.leb_spec (fee * conflicting_cost r) (conflicting_fees r * cost)); [split; [done|lia]|].
  destruct (_ <? MEMPOOL_MIN_FEE_INCREASE); [split; [done|]; intros (_ & Hx & _); by apply Hmin in Hx|].
  destruct (Z.eqb_spec (assert_height tl) (replaced_height r)); cbn; [|split; [done|naive_solver]].
  case_bool_decide; cbn; [|split; [done|naive_solver]]. case_bool_decide; cbn; [|split; [done|naive_solver]].
  rewrite andb_true_iff. split; [|naive_solver]. intros [? ?]. split_and!; try done. by apply Hmin.
Qed.

(** C23: a bundle may replace the items it conflicts with exactly when it
    spends every coin they spend, pays strictly more per cost than they do
    together and at least the minimum increase more in all, has their combined
    height and before locks, and keeps every spend that was eligible for
    fast-forward or deduplication eligible; none of the sums saturates. *)
Theorem can_replace_iff (m : Mempool) (conflicting : list (list Z)) (removals : gset (list Z)) (fee cost : Z) (tl : EffectiveTimelocks)
    (new : list BundleCoinSpend) :
  mempool_ok coin_hash m → NoDup conflicting →
  can_replace m conflicting removals fee cost tl new = true ↔ may_replace m conflicting removals fee cost tl new.
Proof.
  intros (adds & Hm & _) Hnd. unfold can_replace, may_replace. set (r0 := Build_replaced 0 0 0 None None ∅ ∅).
  assert (Hsum : ∀ its, mapM (λ n, items m !! n) conflicting = Some its →
    conflicting_fees (fold_record its r0) = sum_of item_fee its ∧ conflicting_cost (fold_record its r0) = sum_of item_cost its).
  { intros its Hits. assert (HF : Forall (λ i, 0 ≤ item_fee i ∧ 0 ≤ item_cost i) its).
    { apply mapM_Some in Hits. eapply Forall2_Forall_r; [exact Hits|]. apply Forall_forall. intros n _ i Hn. cbn in Hn.
      destruct (po_items _ _ _ Hm _ _ Hn) as [[] _]. lia. }
    assert (map_Forall (λ _ i, 0 ≤ item_fee i) (items m)) by (intros n i Hn; destruct (po_items _ _ _ Hm _ _ Hn) as [[] _]; lia).
    assert (map_Forall (λ _ i, 0 ≤ item_cost i) (items m)) by (intros n i Hn; destruct (po_items _ _ _ Hm _ _ Hn) as [[] _]; lia).
    pose proof (sum_items_le item_fee _ _ _ Hnd Hits ltac:(done)) as Hf. pose proof (sum_items_le item_cost _ _ _ Hnd Hits ltac:(done)) as Hc.
    rewrite <- (po_fee _ _ _ Hm) in Hf. rewrite <- (po_cost _ _ _ Hm) in Hc.
    pose proof (po_fee_max _ _ _ Hm). pose proof (po_max _ _ _ Hm). pose proof (po_limits _ _ _ Hm). unfold I64_MAX in *.
    cbn. rewrite !foldl_sat_sum; [done|eapply Forall_impl; [exact HF|]; naive_solver|lia|lia|eapply Forall_impl; [exact HF|]; naive_solver|lia|lia]. }
  destruct (fold_replaced m removals conflicting r0) as [r|] eqn:Hr.
  - apply fold_replaced_spec in Hr as (its & Hits & Hsup & ->). destruct (Hsum its Hits) as [Hf Hc].
    assert (Hff := kept_eligible its has_lineage new (existing_ff_spends (fold_record its r0)) eq_refl).
    assert (Hdd := kept_eligible its eligible_for_dedup new (existing_dedup_spends (fold_record its r0)) eq_refl).
    rewrite replace_rules, Hf, Hc, Hff, Hdd. split.
    + intros (? & ? & ? & ? & ? & Hx & Hy). exists its. split_and!; eauto.
    + intros (its' & Hits' & _ & ? & ? & ? & ? & ? & Hx). assert (its' = its) as -> by congruence. split_and!; try done; intros; by eapply Hx.
  - split; [done|]. intros (its & Hits & Hsup & _). exfalso. enough (fold_replaced m removals conflicting r0 = Some (fold_record its r0)) by congruence.
    apply fold_replaced_spec. by exists its.
Qed.
End replacing.

(** ** The pools that can be reached *)
Section reachable.
Context `{BigIntBytes, Sha256, HashOrderOk, EstimatorOk} (coin_hash : list Z → list Z).
Notation store_ok := (store_ok coin_hash).
Notation mempool_ok := (mempool_ok coin_hash).

(** Constants under which the limits of a pool do not saturate. *)
Definition pool_limits (c : ConsensusConstants) : Prop :=
  0 ≤ max_block_cost_clvm c ∧ 1 ≤ mempool_block_buffer c ∧ max_block_cost_clvm c * mempool_block_buffer c < 2 ^ 64 - 1 ∧
  max_block_cost_clvm c + max_block_cost_clvm c / 2 < 2 ^ 64.

(** A method of [Mempool], whatever it returns. *)
Inductive pool_step : Mempool → Mempool → Prop :=
  | step_admit store bundle conds m :
      store_ok store → genuine bundle conds → pool_step m (admit_bundle store bundle conds m).1
  | step_new_peak store height timestamp spent m :
      store_ok store → 0 ≤ height → pool_step m (new_peak store height timestamp spent m).1
  | step_reorg store m : store_ok store → distinct_keys m → pool_step m (revalidate_for_reorg store m).1
  | step_remove name m : pool_step m (remove name m).1
  | step_add_seen name m : pool_step m (add_seen name m)
  | step_remove_seen name m : pool_step m (remove_seen name m)
  | step_set_peak height timestamp m : 0 ≤ height → pool_step m (set_peak height timestamp m).
Inductive reachable (c : ConsensusConstants) : Mempool → Prop :=
  | reach_new m : mempool_new c = Ok m → reachable c m
  | reach_step m m' : reachable c m → pool_step m m' → reachable c m'.

Lemma mempool_new_ok c m : pool_limits c → mempool_new c = Ok m → mempool_ok m.
Proof.
  intros (L1 & L2 & L3 & L4). unfold mempool_new. intros (quote & _ & (over & _ & [= <-])%bind_Ok_inv)%bind_Ok_inv.
  assert (Htot : sat_mulu 64 (max_block_cost_clvm c) (mempool_block_buffer c) = max_block_cost_clvm c * mempool_block_buffer c) by (unfold sat_mulu; lia).
  assert (0 ≤ max_block_cost_clvm c / 2 ≤ max_block_cost_clvm c) by (split; [apply Z.div_pos; lia|apply Z.div_le_upper_bound; lia]).
  rewrite Htot. exists 0. split; constructor; cbn; try done; try nia.
  - split; [apply map_Forall_empty|]. intros k n. unfold owners. rewrite lookup_empty. cbn. split; [intros []%not_elem_of_nil|].
    intros (i & Hi & _). by rewrite lookup_empty in Hi.
  - apply estimator_new_ok.
  - unfold PENDING_CACHE_CAP. rewrite map_size_empty. lia.
  - unfold CONFLICT_CACHE_MAX_SIZE. rewrite map_size_empty. lia.
  - split; [constructor|]. intros n. rewrite lookup_empty. split; [intros []%not_elem_of_nil|by intros []].
  - split; [constructor|]. intros n. set_solver.
Qed.

Lemma outcome_ok {A} (Q : A → Mempool → Prop) R p : outcome coin_hash Q R p → mempool_ok p.1.
Proof. by intros []. Qed.

Lemma pool_step_ok m m' : pool_step m m' → mempool_ok m → mempool_ok m'.
Proof.
  destruct 1 as [store bundle conds m Hst Hg|store h t spent m Hst Hh|store m Hst Hd|name m|name m|name m|h t m Hh]; intros Hm.
  - by eapply outcome_ok, admit_outcome.
  - by eapply outcome_ok, new_peak_outcome.
  - by eapply outcome_ok, revalidate_outcome.
  - destruct Hm as (adds & Hp & Hc). destruct (remove_spec coin_hash adds name m Hp) as (m' & -> & Hp' & Hs & _).
    exists adds. split; [done|by eapply same_rest_caches].
  - destruct Hm as (adds & Hp & Hc). destruct (add_seen_caches coin_hash name m Hc) as [Hc' Hs]. exists adds. split; [by eapply same_items_pool|done].
  - destruct Hm as (adds & Hp & Hc). destruct (remove_seen_caches coin_hash name m Hc) as [Hc' Hs]. exists adds. split; [by eapply same_items_pool|done].
  - by apply set_peak_ok.
Qed.
Lemma reachable_ok c m : pool_limits c → reachable c m → mempool_ok m.
Proof. intros Hc. induction 1 as [m Hm|m m' _ IH Hs]; [by eapply mempool_new_ok|by eapply pool_step_ok]. Qed.




(** C20: after a new peak, returned or failed, the pool is at that peak, its
    invariant holds, and no item is past its bounds there, those that the
    retries let in included. *)
Theorem new_peak_live (store : CoinStore) (height timestamp : Z) (spent : list (list Z)) (m : Mempool) :
  store_ok store → 0 ≤ height → mempool_ok m →
  outcome coin_hash (λ _ m', live_at (Some (height, timestamp)) m') (λ _ m', live_at (Some (height, timestamp)) m')
    (new_peak store height timestamp spent m).
Proof. apply new_peak_outcome. Qed.

(** C21: the coins a block spent leave the pool.  The items that no spent coin
    touches stay as they are, the others stay with new lineages or leave, and
    no item remains under a spent coin, as long as the store names no spent
    coin as the newest version of a singleton. *)
Theorem spent_coins_leave (store : CoinStore) (height : Z) (spent : list (list Z)) (m : Mempool) :
  store_ok store → 0 ≤ height → mempool_ok m →
  outcome coin_hash (λ _ m', spent_applied store spent m m') (λ _ m', m' = m) (apply_spent store height spent m).
Proof. apply apply_spent_outcome. Qed.

End reachable.

(** C24: the check of the conditions' time locks passes exactly when the
    folded locks of the item are open at the height and time and every birth
    assertion names the coin's own. *)
Theorem check_time_locks_iff (records : gmap (list Z) (Z * Z)) (conds : SpendBundleConditions) (height timestamp : Z) :
  check_time_locks records conds height timestamp = None ↔
  open_at (effective_timelocks records conds) height timestamp ∧ ∀ s, s ∈ spends conds → births_match records s.
Proof. apply check_time_locks_spec. Qed.

(** ** Witnesses

    A pool at a peak with two bundles that spend the same coin in the same
    way. *)
Definition in_order : HashOrder := {| map_iter A := map_to_list; set_iter := elements |}.
Lemma in_order_ok : @HashOrderOk in_order.
Proof. by split. Qed.
Definition quiet_estimator : Estimator := {|
  estimator := unit; estimator_new _ := tt; add_mempool_item _ _ _ _ _ := Some tt; remove_mempool_item _ _ _ _ _ := Some tt;
  new_block _ _ _ _ := Some tt |}.
Definition quiet_estimator_ok : @EstimatorOk quiet_estimator.
Proof. refine {| estimator_inv := λ _ _, True |}; try done; by eexists. Defined.

(** A hash of one byte. *)
Definition byte_hash : Sha256 := λ bs, [foldl (λ acc b, (acc * 3 + b) mod 256) 1 bs].

Section witnesses.
#[local] Existing Instance bigint_ref.
#[local] Existing Instance byte_hash.
#[local] Existing Instance in_order.
#[local] Existing Instance in_order_ok.
#[local] Existing Instance quiet_estimator.
#[local] Existing Instance quiet_estimator_ok.

Definition coin_hash0 (id : list Z) : list Z := [].
Definition pool_coin (b : Z) : Coin := {| parent_coin_info := replicate 32 b; puzzle_hash := replicate 32 7; amount := 100 |}.
Definition coin_of_spend (c : Coin) : CoinSpend := {| cs_coin := c; puzzle_reveal := [1]; solution := [128] |}.
Definition bundle_of (cs : list Coin) : SpendBundle := {| coin_spends := map coin_of_spend cs; bundle_signature := replicate 96 0 |}.
Definition spend_of (c : Coin) : Spend := (new_spend c true) <| flags := ELIGIBLE_FOR_DEDUP |>.
Definition conds_of (cs : list Coin) : SpendBundleConditions := mkConds (map spend_of cs) 0 0 0 None None [] 1000 (100 * zlen cs) 0.
Definition record_of (c : Coin) : CoinRecord :=
  {| record_coin := c; confirmed_block_index := 5; spent_block_index := 0; coinbase := false; record_timestamp := 9; record_spent := false |}.
Definition sample_store : CoinStore := {|
  get_coin_record _ := Some None;
  get_coin_records ids := Some (filter (λ r, coin_id (record_coin r) ∈ ids) [record_of (pool_coin 1); record_of (pool_coin 2)]);
  get_unspent_by_puzzle_hash _ := Some [] |}.
Definition new_pool : Mempool :=
  match mempool_new MAINNET with Ok m => m | _ => mkPool 0 0 0 0 0 None ∅ ∅ 0 ∅ ∅ [] 0 0 ∅ [] tt end.
Definition pool1 : Mempool := set_peak 10 20 new_pool.
Definition pool2 : Mempool := (admit_bundle sample_store (bundle_of [pool_coin 1]) (conds_of [pool_coin 1]) pool1).1.
Definition pool3 : Mempool := (admit_bundle sample_store (bundle_of [pool_coin 1; pool_coin 2]) (conds_of [pool_coin 1; pool_coin 2]) pool2).1.

Lemma sample_store_ok : store_ok coin_hash0 sample_store.
Proof. intros ph l. by vm_compute. Qed.
Lemma genuine_of cs : zlen cs * SPEND_PENALTY_COST < 2 ^ 64 → NoDup (map coin_id cs) → genuine (bundle_of cs) (conds_of cs).
Proof.
  intros Hn Hnd. constructor; cbn [bundle_of conds_of coin_spends spends conds_cost].
  - done.
  - unfold zlen. by rewrite length_map.
  - intros s _ Hs. apply list_elem_of_fmap in Hs as (c & -> & Hc). exists (coin_of_spend c). split; [|done].
    by apply (list_elem_of_fmap_2 coin_of_spend).
  - intros x s Hx Hs. apply list_elem_of_fmap in Hs as (c & -> & Hc). apply list_elem_of_fmap in Hx as (c' & -> & Hc'). cbn. intros Heq.
    by rewrite (NoDup_map_inj coin_id cs c' c Hnd Hc' Hc Heq).
Qed.
Lemma genuine1 : genuine (bundle_of [pool_coin 1]) (conds_of [pool_coin 1]).
Proof. apply genuine_of; [done|]. apply NoDup_singleton. Qed.
Lemma genuine2 : genuine (bundle_of [pool_coin 1; pool_coin 2]) (conds_of [pool_coin 1; pool_coin 2]).
Proof. apply genuine_of; [done|]. apply (bool_decide_eq_true_1 _). by vm_compute. Qed.
Lemma mainnet_limits : pool_limits MAINNET.
Proof. by vm_compute. Qed.
Lemma reach1 : reachable coin_hash0 MAINNET pool1.
Proof. apply (reach_step _ _ new_pool); [by apply reach_new|by apply step_set_peak]. Qed.
Lemma reach3 : reachable coin_hash0 MAINNET pool3.
Proof.
  apply (reach_step _ _ pool2); [apply (reach_step _ _ pool1); [apply reach1|]|]; apply step_admit; [apply sample_store_ok|apply genuine1|apply sample_store_ok|apply genuine2].
Qed.


Definition plainb (i : MempoolItem) (k : list Z) : bool :=
  bool_decide (k ∈ item_removals i) && match bundle_coin_spend i k with Some b => negb (has_lineage b) | None => true end.
Lemma plainb_spec i k : plainb i k = true → plain i k.
Proof.
  unfold plainb. intros [Hk%bool_decide_eq_true Hb]%andb_true_iff. split; [done|]. intros b Hbi. rewrite Hbi in Hb. unfold has_lineage in Hb.
  apply negb_true_iff, bool_decide_eq_false in Hb. by apply eq_None_not_Some.
Qed.
Lemma plain_at m n k : match items m !! n with Some i => plainb i k | None => false end = true → ∃ i, items m !! n = Some i ∧ plain i k.
Proof. destruct (items m !! n) as [i|]; [|done]. intros Hp%plainb_spec. by exists i. Qed.

Lemma pool1_ok : mempool_ok coin_hash0 pool1.
Proof. exact (reachable_ok coin_hash0 MAINNET pool1 mainnet_limits reach1). Qed.
Lemma pool3_ok : mempool_ok coin_hash0 pool3.
Proof. exact (reachable_ok coin_hash0 MAINNET pool3 mainnet_limits reach3). Qed.


Lemma new_peak_live_witness :
  outcome coin_hash0 (λ _ m', live_at (Some (11, 30)) m') (λ _ m', live_at (Some (11, 30)) m')
    (new_peak sample_store 11 30 [coin_id (pool_coin 1)] pool3).
Proof. apply (new_peak_live coin_hash0 sample_store 11 30 [coin_id (pool_coin 1)] pool3 sample_store_ok); [lia|exact pool3_ok]. Defined.

Lemma spent_coins_leave_witness :
  let r := apply_spent sample_store 11 [coin_id (pool_coin 1)] pool3 in
  r.2 = Ok 2 ∧
  outcome coin_hash0 (λ _ m', spent_applied sample_store [coin_id (pool_coin 1)] pool3 m') (λ _ m', m' = pool3) r.
Proof.
  split; [vm_compute; reflexivity|].
  apply (spent_coins_leave coin_hash0 sample_store 11 [coin_id (pool_coin 1)] pool3 sample_store_ok); [lia|exact pool3_ok].
Defined.

Lemma pool3_distinct : distinct_keys pool3.
Proof. apply (bool_decide_eq_true_1 _). vm_compute. reflexivity. Qed.

Lemma can_replace_iff_witness :
  may_replace pool3 [[169]] (list_to_set [coin_id (pool_coin 1)]) 20000000 1000
    {| assert_height := 0; assert_seconds := 0; assert_before_height := None; assert_before_seconds := None |}
    [{| coin_spend := coin_of_spend (pool_coin 1); eligible_for_dedup := true; spend_additions := []; spend_cost := 0; latest_singleton_lineage := None |}].
Proof.
  apply (can_replace_iff coin_hash0 pool3); [exact pool3_ok|apply NoDup_singleton|]. vm_compute. reflexivity.
Defined.
End witnesses.
