(* ===== verification/BlockAssembly.v ===== *)
(** * Block assembly: [create_block_generator] of [node/src/mempool.rs]

    The pool's items are taken in the order of their priority until the block
    is full.  Spends of a singleton are moved to its newest version, which may
    be one that an earlier item of the same block created, and identical
    spends of a coin are put in once.  The selection becomes a compressed
    generator, which is executed as a validator would execute it before the
    block is handed out. *)
From Stdlib Require Import ZArith Lia.
From stdpp Require Import base list numbers option gmap sets sorting.
From S2P Require Import Prelude Serialize ClvmNumber ClvmSexp Coin ClvmPath ClvmParser ClvmView ClvmOps ClvmBls ClvmArena ClvmOutcome ClvmRuntime ClvmRefine ClvmEval ClvmCanonical BackrefWriter PotIterations Conditions SpendConditions BlockConditions BlockGenerator GeneratorProgram FastForward BlockValidation Float64 Mempool MempoolInvariant MempoolAdmission MempoolSafety.

Open Scope Z_scope.

Definition PRIORITY_TX_THRESHOLD : Z := 3.
Definition MAX_SKIPPED_ITEMS : Z := 10.
Definition MIN_COST_THRESHOLD : Z := 6000000.

(** ** Data *)
Record ProcessedItem := {
  unique_spends : list CoinSpend;
  unique_additions : list Coin;
  cost_saving : Z;
  ff_update : gmap (list Z) UnspentLineageInfo;
  new_dedup : list (list Z * (list Z * Z));
}.
Inductive ProcessError := SkipDedup | Failed.
Definition or_failed {E A} (r : res E A) : res ProcessError A := match r with Ok a => Ok a | Err _ => Err Failed | Panic => Panic end.

(** A spend after the fast-forward pass. *)
Record ForwardedSpend := {
  fs_spend : CoinSpend;
  fs_dedup : bool;
  fs_additions : list Coin;
  fs_cost : Z;
}.

(** The state of the selection loop. *)
Record Selection := mkSelection {
  cost_sum : Z;
  exec_cond_sum : Z;
  fee_sum : Z;
  spend_count : Z;
  skipped_items : Z;
  block_spends : list CoinSpend;
  block_sigs : list (list Z);
  block_additions : list Coin;
  block_removals : list Coin;
  dedup_spends : gmap (list Z) (list Z * Z);
  ff_state : gmap (list Z) UnspentLineageInfo;
}.
#[global] Instance selection_settable : Settable Selection :=
  settable! mkSelection <cost_sum; exec_cond_sum; fee_sum; spend_count; skipped_items; block_spends; block_sigs; block_additions; block_removals; dedup_spends; ff_state>.

(** [consensus/producer.rs] *)
Record BlockTransactions := {
  program : list Z;
  block_refs : list Z;
  tx_additions : list Coin;
  tx_removals : list Coin;
  tx_signature : list Z;
  tx_cost : Z;
}.

(** ** Signatures

    What [blst] does with parsed signatures when it aggregates them. *)
Class BlsAggregate `{BlsVerify} := {
  add_signature : Signature → Signature → option Signature;
  signature_bytes : Signature → list Z;
}.
Definition aggregate_signatures `{BlsAggregate} (sigs : list (list Z)) : option (list Z) :=
  parsed ← mapM sig_from_bytes sigs;
  match parsed with
  | [] => Some (192 :: repeat 0 95)
  | first :: rest =>
      agg ← foldl (λ agg sig, agg ← agg; add_signature agg sig) (Some first) rest;
      Some (signature_bytes agg)
  end.

Section assembly.
Context `{BigIntBytes, Sha256, Blst, Memory, BlsAggregate, HashOrder, Estimator}.

(** ** [process_item_spends] *)
Definition is_child (coin c : Coin) : bool := bool_decide (puzzle_hash c = puzzle_hash coin) && (amount c =? amount coin).
Definition keep_spend (b : BundleCoinSpend) : ForwardedSpend :=
  {| fs_spend := coin_spend b; fs_dedup := eligible_for_dedup b; fs_additions := spend_additions b; fs_cost := spend_cost b |}.

(** The latest version spent by its own spend: its child is the next one. *)
Definition keep_latest (b : BundleCoinSpend) : res ProcessError UnspentLineageInfo :=
  let coin := cs_coin (coin_spend b) in
  child ← ok_or (List.find (is_child coin) (spend_additions b)) Failed;
  Ok {| lineage_coin_id := coin_id child; lineage_parent_id := parent_coin_info child;
        lineage_parent_parent_id := parent_coin_info coin |}.

(** A spend moved to the version [target]. *)
Definition rebase_onto (target : UnspentLineageInfo) (b : BundleCoinSpend) : res ProcessError (ForwardedSpend * UnspentLineageInfo) :=
  let coin := cs_coin (coin_spend b) in
  let new_coin := {| parent_coin_info := lineage_parent_id target; puzzle_hash := puzzle_hash coin; amount := amount coin |} in
  let new_parent := {| parent_coin_info := lineage_parent_parent_id target; puzzle_hash := puzzle_hash coin; amount := amount coin |} in
  if negb (bool_decide (coin_id new_coin = lineage_coin_id target)) || negb (bool_decide (coin_id new_parent = lineage_parent_id target))
  then Err Failed else
  new_solution ← or_failed (fast_forward_singleton (coin_spend b) new_coin new_parent);
  let patched := map (λ a, {| parent_coin_info := lineage_coin_id target; puzzle_hash := puzzle_hash a; amount := amount a |}) (spend_additions b) in
  child ← ok_or (List.find (is_child coin) (rev patched)) Failed;
  Ok ({| fs_spend := {| cs_coin := new_coin; puzzle_reveal := puzzle_reveal (coin_spend b); solution := new_solution |};
         fs_dedup := eligible_for_dedup b; fs_additions := patched; fs_cost := spend_cost b |},
      {| lineage_coin_id := coin_id child; lineage_parent_id := parent_coin_info child;
         lineage_parent_parent_id := lineage_parent_id target |}).

(** One round of the fast-forward pass: the spend, the singleton's next
    version if it is one, and whether it was moved. *)
Definition forward_spend (state : gmap (list Z) UnspentLineageInfo) (b : BundleCoinSpend) :
    res ProcessError (ForwardedSpend * option UnspentLineageInfo * bool) :=
  if negb (has_lineage b) then Ok (keep_spend b, None, false) else
  '(target, already_chained) ←
    match state !! puzzle_hash (cs_coin (coin_spend b)) with
    | Some lineage => Ok (lineage, true)
    | None => lineage ← ok_or (latest_singleton_lineage b) Failed; Ok (lineage, false)
    end;
  if negb already_chained && bool_decide (lineage_coin_id target = spend_id b) then
    next ← keep_latest b; Ok (keep_spend b, Some next, false)
  else
    '(moved, next) ← rebase_onto target b; Ok (moved, Some next, true).

Fixpoint forward_spends (state : gmap (list Z) UnspentLineageInfo) (l : list BundleCoinSpend)
    (post : list ForwardedSpend) (update : gmap (list Z) UnspentLineageInfo) (fast_forwarded : Z) :
    res ProcessError (list ForwardedSpend * gmap (list Z) UnspentLineageInfo * Z) :=
  match l with
  | [] => Ok (post, update, fast_forwarded)
  | b :: l =>
      '(spend, next, moved) ← forward_spend state b;
      let update := match next with Some lineage => <[puzzle_hash (cs_coin (coin_spend b)) := lineage]> update | None => update end in
      forward_spends state l (post ++ [spend]) update (if (moved : bool) then fast_forwarded + 1 else fast_forwarded)
  end.

Fixpoint dedup_pass (dedup : gmap (list Z) (list Z * Z)) (l : list ForwardedSpend) (p : ProcessedItem) : res ProcessError ProcessedItem :=
  match l with
  | [] => Ok p
  | s :: l =>
      let unique := {| unique_spends := unique_spends p ++ [fs_spend s]; unique_additions := unique_additions p ++ fs_additions s;
                       cost_saving := cost_saving p; ff_update := ff_update p; new_dedup := new_dedup p |} in
      if negb (fs_dedup s) then dedup_pass dedup l unique else
      let id := coin_id (cs_coin (fs_spend s)) in
      match dedup !! id with
      | None =>
          dedup_pass dedup l {| unique_spends := unique_spends unique; unique_additions := unique_additions unique;
                                cost_saving := cost_saving p; ff_update := ff_update p;
                                new_dedup := new_dedup p ++ [(id, (solution (fs_spend s), fs_cost s))] |}
      | Some (known, saved_cost) =>
          if negb (bool_decide (known = solution (fs_spend s))) then Err SkipDedup else
          dedup_pass dedup l {| unique_spends := unique_spends p; unique_additions := unique_additions p;
                                cost_saving := sat_addu 64 (cost_saving p) saved_cost; ff_update := ff_update p; new_dedup := new_dedup p |}
      end
  end.

Definition process_item_spends (fuel export_fuel : nat) (item : MempoolItem) (dedup : gmap (list Z) (list Z * Z))
    (state : gmap (list Z) UnspentLineageInfo) (c : ConsensusConstants) (height : Z) : option (res ProcessError ProcessedItem) :=
  obind (Some (forward_spends state (item_coin_spends item) [] ∅ 0)) (λ '(post, update, fast_forwarded),
    obind (if 0 <? fast_forwarded
           then (λ r, _ ← or_failed r; Ok tt) <$> conditions_from_spend_bundle fuel export_fuel (map fs_spend post) height c
           else Some (Ok tt)) (λ _,
      Some (dedup_pass dedup post {| unique_spends := []; unique_additions := []; cost_saving := 0; ff_update := update; new_dedup := [] |}))).

(** ** The selection *)
Definition plain_item (spends : list CoinSpend) (additions : list Coin) : ProcessedItem :=
  {| unique_spends := spends; unique_additions := additions; cost_saving := 0; ff_update := ∅; new_dedup := [] |}.
Definition has_special (item : MempoolItem) : bool := existsb (λ b, eligible_for_dedup b || has_lineage b) (item_coin_spends item).

(** What becomes of an item: its spends, a pass, or a failure that counts as
    skipped. *)
Inductive Resolution := Resolved (p : ProcessedItem) | Passed | Unresolved.

Definition resolution (r : res ProcessError ProcessedItem) : res Empty_set Resolution :=
  match r with Ok p => Ok (Resolved p) | Err SkipDedup => Ok Passed | Err Failed => Ok Unresolved | Panic => Panic end.

Definition resolve_item (fuel export_fuel : nat) (c : ConsensusConstants) (height : Z) (item : MempoolItem) (st : Selection) :
    option (res Empty_set Resolution) :=
  if bool_decide (item_coin_spends item = []) then
    Some (Ok (Resolved (plain_item (coin_spends (item_bundle item)) (additions_for_conditions (item_conds item) []))))
  else if PRIORITY_TX_THRESHOLD <=? skipped_items st then
    Some (Ok (if has_special item then Passed
              else Resolved (plain_item (map coin_spend (item_coin_spends item)) (item_coin_spends item ≫= spend_additions))))
  else resolution <$> process_item_spends fuel export_fuel item (dedup_spends st) (ff_state st) c height.

(** The measured fit of the compressed block. *)
Definition fits_compressed (c : ConsensusConstants) (spends : list CoinSpend) (exec_cond item_exec_cond : Z) : res Empty_set bool :=
  match compressed_solution_generator_from_coin_spends spends with
  | Ok g => Ok (sat_addu 64 (sat_addu 64 (sat_addu 64 (sat_mulu 64 (zlen g) (cost_per_byte c)) QUOTE_EXECUTION_COST) exec_cond) item_exec_cond
                <=? max_block_cost_clvm c)
  | Err _ => Ok false
  | Panic => Panic
  end.

Definition fits (c : ConsensusConstants) (max_cost : Z) (st : Selection) (p : ProcessedItem) (new_cost_sum item_exec_cond : Z) :
    res Empty_set bool :=
  if MAX_SPENDS_PER_BLOCK <? spend_count st + zlen (unique_spends p) then Ok false
  else if new_cost_sum <=? max_cost then Ok true
  else fits_compressed c (block_spends st ++ unique_spends p) (exec_cond_sum st) item_exec_cond.

Definition plain_byte_cost (c : ConsensusConstants) (spends : list CoinSpend) : Z :=
  if bool_decide (spends = []) then 0
  else sat_mulu 64 (sat_sub (spend_bundle_generator_length spends) QUOTE_BYTES) (cost_per_byte c).

Definition commit_dedup (p : ProcessedItem) (st : Selection) : Selection :=
  st <| dedup_spends := foldl (λ m '(id, entry), <[id := entry]> m) (dedup_spends st) (new_dedup p) |>.

Definition include_item (p : ProcessedItem) (item : MempoolItem) (new_cost_sum new_fee_sum item_exec_cond : Z) (st : Selection) : Selection :=
  st <| ff_state := ff_update p ∪ ff_state st |>
     <| block_removals := block_removals st ++ map cs_coin (unique_spends p) |>
     <| block_spends := block_spends st ++ unique_spends p |>
     <| block_sigs := block_sigs st ++ [bundle_signature (item_bundle item)] |>
     <| block_additions := block_additions st ++ unique_additions p |>
     <| cost_sum := new_cost_sum |>
     <| exec_cond_sum := sat_addu 64 (exec_cond_sum st) item_exec_cond |>
     <| fee_sum := new_fee_sum |>
     <| spend_count := spend_count st + zlen (unique_spends p) |>.

(** A resolved item: committed to, and put in if it fits; the flag says
    whether the loop goes on. *)
Definition place_item (c : ConsensusConstants) (max_cost new_fee_sum : Z) (item : MempoolItem) (p : ProcessedItem) (st : Selection) :
    res Empty_set (Selection * bool) :=
  let st := commit_dedup p st in
  let item_cost := sat_sub (item_cost item) (cost_saving p) in
  let new_cost_sum := sat_addu 64 (cost_sum st) item_cost in
  let item_exec_cond := sat_sub item_cost (plain_byte_cost c (unique_spends p)) in
  fit ← fits c max_cost st p new_cost_sum item_exec_cond;
  Ok (if negb fit then
        (st <| skipped_items := skipped_items st + 1 |>, skipped_items st + 1 <? MAX_SKIPPED_ITEMS)
      else
        let st := include_item p item new_cost_sum new_fee_sum item_exec_cond st in
        (st, negb ((sat_sub max_cost (cost_sum st) <? MIN_COST_THRESHOLD) || (MAX_SPENDS_PER_BLOCK <=? spend_count st)))).

(** One round of the loop; [elapsed] is the time since its start. *)
Definition select_item (fuel export_fuel : nat) (c : ConsensusConstants) (height max_cost timeout elapsed : Z)
    (item : MempoolItem) (st : Selection) : option (res Empty_set (Selection * bool)) :=
  if timeout <=? elapsed then Some (Ok (st, false)) else
  match checked 64 (fee_sum st + item_fee item) with
  | None => Some (Ok (st, false))
  | Some new_fee_sum =>
      if max_coin_amount c <? new_fee_sum then Some (Ok (st, false)) else
      obind (resolve_item fuel export_fuel c height item st) (λ r,
        match r with
        | Passed => Some (Ok (st, true))
        | Unresolved => Some (Ok (st <| skipped_items := skipped_items st + 1 |>, true))
        | Resolved p => Some (place_item c max_cost new_fee_sum item p st)
        end)
  end.

(** [clock n] is the elapsed time that round [n] reads. *)
Fixpoint select_items (fuel export_fuel : nat) (c : ConsensusConstants) (height max_cost timeout : Z) (clock : nat → Z)
    (n : nat) (l : list MempoolItem) (st : Selection) : option (res Empty_set Selection) :=
  match l with
  | [] => Some (Ok st)
  | item :: l =>
      obind (select_item fuel export_fuel c height max_cost timeout (clock n) item st) (λ '(st, continue),
        if (continue : bool) then select_items fuel export_fuel c height max_cost timeout clock (S n) l st else Some (Ok st))
  end.

(** ** Orders *)
Definition with_priority (i : MempoolItem) : res MempoolError.t (MempoolItem * f64 * Z * Z) :=
  p ← fee_per_virtual_cost i; Ok (i, p, item_seq i, item_cost i).
Fixpoint with_priorities (l : list MempoolItem) : res MempoolError.t (list (MempoolItem * f64 * Z * Z)) :=
  match l with
  | [] => Ok []
  | i :: l => row ← with_priority i; rest ← with_priorities l; Ok (row :: rest)
  end.
(** Priorities are computed when two items are compared. *)
Definition items_by_fee (m : Mempool) : res Empty_set (list MempoolItem) :=
  let l := (map_iter (items m)).*2 in
  if (length l <=? 1)%nat then Ok l else
  match with_priorities l with
  | Ok rows => Ok (map (λ row, row.1.1.1) (merge_sort priority_desc rows))
  | _ => Panic
  end.
Definition items_by_feerate (m : Mempool) : list MempoolItem :=
  map (λ row, row.1.1.1)
    (merge_sort priority_desc (map (λ i, (i, fee_per_cost i, item_seq i, item_cost i)) (map_iter (items m)).*2)).

(** ** [create_block_generator] *)
Definition empty_selection : Selection :=
  {| cost_sum := 0; exec_cond_sum := 0; fee_sum := 0; spend_count := 0; skipped_items := 0; block_spends := []; block_sigs := [];
     block_additions := []; block_removals := []; dedup_spends := ∅; ff_state := ∅ |}.

Definition assembly_input (c : ConsensusConstants) (height : Z) (g : list Z) : BlockGeneratorInput :=
  {| transactions_generator := g; generator_refs := []; constants := c; input_height := height; input_flags := for_height c height |}.

(** The block of a selection: [None] where the code logs and gives up. *)
Definition finish_block (fuel export_fuel : nat) (c : ConsensusConstants) (height : Z) (st : Selection) :
    option (res Empty_set (option BlockTransactions)) :=
  if bool_decide (block_spends st = []) then Some (Ok None) else
  match compressed_solution_generator_from_coin_spends (block_spends st) with
  | Panic => Some Panic
  | Err _ => Some (Ok None)
  | Ok g =>
      match aggregate_signatures (block_sigs st) with
      | None => Some (Ok None)
      | Some signature =>
          match execute_block_generator_result fuel export_fuel (assembly_input c height g) with
          | None => None
          | Some Panic => Some Panic
          | Some (Err _) => Some (Ok None)
          | Some (Ok conds) =>
              Some (Ok (if max_block_cost_clvm c <? conds_cost conds then None
                        else Some {| program := g; block_refs := []; tx_additions := block_additions st; tx_removals := block_removals st;
                                     tx_signature := signature; tx_cost := conds_cost conds |}))
          end
      end
  end.

Definition create_block_generator (fuel export_fuel : nat) (m : Mempool) (c : ConsensusConstants) (height timeout : Z) (clock : nat → Z) :
    option (res Empty_set (option BlockTransactions)) :=
  match peak m with
  | None => Some (Ok None)
  | Some _ =>
      obind (Some (quote ← chk 64 (QUOTE_BYTES * cost_per_byte c); chk 64 (quote + QUOTE_EXECUTION_COST))) (λ block_overhead,
        obind (Some (items_by_fee m)) (λ l,
          obind (select_items fuel export_fuel c height (sat_sub (max_block_cost_clvm c) block_overhead) timeout clock 0 l empty_selection)
            (finish_block fuel export_fuel c height)))
  end.
End assembly.

(** * Lemmas *)
#[local] Arguments sum_of : simpl never.

Lemma sum_of_cons {A} (f : A → Z) x l : sum_of f (x :: l) = f x + sum_of f l.
Proof. done. Qed.
Lemma sum_of_nonneg {A} (f : A → Z) l : Forall (λ x, 0 ≤ f x) l → 0 ≤ sum_of f l.
Proof. induction 1; [done|]. rewrite sum_of_cons. lia. Qed.

Lemma sum_of_fmap {A B} (f : B → Z) (g : A → B) l : sum_of f (g <$> l) = sum_of (λ x, f (g x)) l.
Proof. induction l as [|x l IH]; [done|]. cbn. by rewrite !sum_of_cons, IH. Qed.
Lemma map_bind {A B C} (f : B → C) (g : A → list B) l : map f (l ≫= g) = l ≫= λ x, map f (g x).
Proof. induction l as [|x l IH]; [done|]. cbn. by rewrite map_app, IH. Qed.

(** ** Executing a quotation *)
Section executed.
Context `{BigIntBytesOk, Sha256Ok, BlstOk, !Memory, !MemoryOk}.

Lemma run_quote_inv flags fuel export_fuel max_cost t cost out :
  sexp_ok t → (tree_size t ≤ export_fuel)%nat →
  run flags fuel export_fuel max_cost (Pair (Atom [1]) t) NULL_SEXP = Some (Ok (cost, out)) → out = t.
Proof.
  intros Ht Hex Hr. unfold run, run_in_arena in Hr.
  destruct (import_both (Pair (Atom [1]) t) NULL_SEXP) as [(e & Hi & _)|(p & n & a & Hi & Hok & Hp & _ & _)]; [by repeat constructor..| |];
    rewrite Hi in Hr; [done|]. destruct fuel as [|fuel]; [done|].
  pose proof (kind_cases (arena_view a) (den a) _ _ Hp) as Hkp. cbn in Hkp. destruct Hkp as (f & r & Hk & Hf & Hrest).
  pose proof (kind_cases (arena_view a) (den a) _ _ Hf) as Hkf. cbn in Hkf.
  assert (Hq : eval_op arena_store (State a [n; p] [] []) = Ok (QUOTE_COST, State a [r] [] [])).
  { unfold eval_op, eval_pair. cbn [value_stack mem op_stack checkpoint_stack st_view arena_store]. change (v_kind (arena_view a) p) with (node_kind a p). rewrite Hk. cbn [mbind res_bind].
    change (v_kind (arena_view a) f) with (node_kind a f). rewrite Hkf. cbn [mbind res_bind]. unfold eval_op_atom.
    cbn [mem st_view arena_store]. change (v_atom (arena_view a) f) with (arena_atom a f). by rewrite (den_atom a f _ Hf). }
  cbn [run_loop op_stack step mem value_stack checkpoint_stack] in Hr. rewrite Hq in Hr. cbn [mbind res_bind] in Hr.
  destruct (c64 (0 + QUOTE_COST)) as [c|e|]; cbn [mbind res_bind] in Hr; [|done|done].
  destruct (effective_max_cost max_cost <? c); [done|]. destruct fuel; cbn in Hr; rewrite (export_spec _ _ _ _ Hrest Hex) in Hr; by injection Hr.
Qed.

Lemma spend_tree_parts s x : good_spend s x →
  ∃ am, spend_parts (spend_tree s x) = Ok (Atom (parent_coin_info (cs_coin s)), x.1, am, x.2) ∧
    parse_atom (Atom (parent_coin_info (cs_coin s))) = Ok (parent_coin_info (cs_coin s)) ∧ parse_amount am = Ok (amount (cs_coin s)).
Proof.
  intros [_ _ _ _ Hpar _ Ham _]. eexists. unfold spend_parts, spend_tree. rewrite ref_list_from_list. split; [done|].
  split; [|by apply parse_amount_bigint]. cbn [parse_atom]. unfold sized_parse. rewrite bool_decide_eq_false_2 by lia.
  by rewrite Hpar, Nat.sub_diag.
Qed.

Lemma generator_spend_coin run_puzzle `{!RunnerOk run_puzzle} max_cost index s x st st' :
  good_spend s x → generator_spend run_puzzle max_cost None index (spend_tree s x) st = Some (Ok st') →
  ∃ spend, spends (g_conds st') = spends (g_conds st) ++ [spend] ∧ spent_coin spend = cs_coin s ∧ spend_coin_id spend = coin_id (cs_coin s).
Proof.
  intros Hs Hg. unfold generator_spend in Hg. destruct (spend_tree_parts s x Hs) as (am & Hp & Hpa & Ham).
  rewrite Hp in Hg. cbn [mbind res_bind] in Hg. rewrite Hpa in Hg. cbn [mbind res_bind] in Hg. rewrite Ham in Hg. cbn [mbind res_bind option_bind] in Hg.
  rewrite <- (good_hash _ _ Hs) in Hg.
  apply obind_Ok in Hg as ([[[[coin puzzle] sol] st1] left] & [= Hg] & Hr).
  apply bind_Ok_inv in Hg as (st2 & Hsp & Hg). apply bind_Ok_inv in Hg as (cl & _ & [= <- <- <- <- <-]).
  apply obind_Ok in Hr as ([puzzle_cost read] & Hrun & [= Hr]). apply bind_Ok_inv in Hr as (cost & _ & Hr).
  apply bind_Ok_inv in Hr as ([[spend cs] extra] & Hread & Hpush). apply (runs _ _ _ _ _ Hrun) in Hread as [P1 P2 P3 P4 P5 _ _ _ _ _ _].
  unfold push_spend in Hpush. apply bind_Ok_inv in Hpush as (cr & _ & [= <-]). unfold spend_coin in Hsp. case_bool_decide; [done|].
  injection Hsp as <-. cbn in *. eexists. rewrite P5. split; [done|]. unfold spent_coin. cbn. rewrite P1, P2, P3. cbn. by destruct (cs_coin s).
Qed.

Lemma generator_spends_coins run_puzzle `{!RunnerOk run_puzzle} max_cost index l xs st st' :
  Forall2 good_spend l xs → generator_spends run_puzzle max_cost None index (zip_with spend_tree l xs) st = Some (Ok st') →
  ∃ new, spends (g_conds st') = spends (g_conds st) ++ new ∧ map spent_coin new = map cs_coin l ∧
    map spend_coin_id new = map (λ s, coin_id (cs_coin s)) l.
Proof.
  intros Hl. revert index st. induction Hl as [|s x l xs Hs Hl IH]; intros index st Hg; cbn in Hg.
  { injection Hg as <-. exists []. by rewrite app_nil_r. }
  apply obind_Ok in Hg as (st1 & Hone & Hg). apply generator_spend_coin in Hone as (spend & E1 & E2 & E3); [|done..].
  apply IH in Hg as (new & F1 & F2 & F3). exists (spend :: new). rewrite F1, E1, <- (assoc_L (++)). cbn. by rewrite F2, F3, E2, E3.
Qed.

(** A block that executes has read the spends of its generator. *)
Lemma executed_inv l xs g input fuel export_fuel conds :
  Forall2 good_spend l xs → produced l xs g → transactions_generator input = g → simple_generator (input_flags input) = true →
  (tree_size (output_tree l xs) ≤ export_fuel)%nat →
  execute_block_generator_result fuel export_fuel input = Some (Ok conds) →
  ∃ cost, conditions_from_generator_output fuel (output_tree l xs) cost (max_block_cost_clvm (constants input))
    (clvm_flags (input_flags input)) (constants input) None = Some (Ok conds).
Proof.
  intros Hl Hp Hg Hs Hex He. unfold execute_block_generator_result in He. rewrite Hs in He.
  apply obind_Ok in He as ([[generator byte_cost] left] & [= Hguard] & He).
  assert (generator = generator_tree l xs) as ->.
  { unfold generator_guards in Hguard. rewrite Hg in Hguard. destruct (produced_decodes l xs g Hl Hp) as [Hd _].
    destruct (_ <? _); [done|]. destruct (_ <? _); [done|]. apply bind_Ok_inv in Hguard as (? & _ & Hguard). destruct (_ && _); [done|].
    rewrite Hd in Hguard. cbn [map_err mbind res_bind] in Hguard. apply bind_Ok_inv in Hguard as (? & _ & Hguard).
    apply bind_Ok_inv in Hguard as ([? ?] & _ & Hguard). by injection Hguard. }
  apply obind_Ok in He as ([cost output] & Hrun & He). apply fmap_Some in Hrun as ([r|e|] & Hrun & [= <-]).
  apply run_quote_inv in Hrun as ->; [|by apply output_ok|done].
  apply obind_Ok in He as (total & _ & He). apply obind_Ok in He as (hs & [= Hh] & He).
  destruct (hashes_generator l xs) as (hs' & Hh' & ->). rewrite Hh' in Hh. injection Hh as <-.
  apply fmap_Some in He as ([r|e|] & He & [= <-]). exists total.
  unfold conditions_from_generator_output in *. by rewrite hashed_output in He.
Qed.

(** It spends the coins of the spends, each once, within the block's cost. *)
Lemma executed_coins l xs g input fuel export_fuel conds :
  Forall2 good_spend l xs → produced l xs g → transactions_generator input = g → simple_generator (input_flags input) = true →
  (tree_size (output_tree l xs) ≤ export_fuel)%nat →
  execute_block_generator_result fuel export_fuel input = Some (Ok conds) →
  map spent_coin (spends conds) = map cs_coin l ∧ removals_for_conditions conds = map (λ s, coin_id (cs_coin s)) l ∧
  NoDup (removals_for_conditions conds) ∧ conds_cost conds ≤ max_block_cost_clvm (constants input).
Proof.
  intros Hl Hp Hg Hs Hex He. destruct (executed_inv _ _ _ _ _ _ _ Hl Hp Hg Hs Hex He) as [total Hout].
  pose proof (generator_output_accounted _ _ _ _ _ _ _ _ Hout) as Hacc.
  unfold conditions_from_generator_output, generator_output, output_tree in Hout. cbn [sexp_first obind] in Hout.
  rewrite ref_list_from_list in Hout. apply obind_Ok in Hout as (st & Hst & [= Hf]).
  apply (generator_spends_coins _ _ _ l xs) in Hst as (new & E1 & E2 & E3); [|done].
  unfold finish in Hf. apply bind_Ok_inv in Hf as (? & _ & Hf). destruct (_ <? _); [done|]. injection Hf as <-. cbn in *.
  split; [by rewrite E1|]. split; [unfold removals_for_conditions; cbn; by rewrite E1|].
  split; [apply (t_spent_once _ (a_totals _ _ _ Hacc))|apply (a_max _ _ _ Hacc)].
Qed.
End executed.

(** ** The spends of a block *)
Section spends.
Context `{BigIntBytesOk, Sha256Ok}.

(** A spend that a generator can carry. *)
Definition sound (s : CoinSpend) : Prop := ∃ x, good_spend s x.

(** What the pool knows of a spend it holds: it is well formed, its additions
    are its coin's, and a singleton's grandparent is a hash. *)
Record spend_sound (b : BundleCoinSpend) : Prop := {
  ss_good : sound (coin_spend b);
  ss_lineage l : latest_singleton_lineage b = Some l → hash_ok (lineage_parent_parent_id l);
}.
(** A table of newest versions: coins of [made], with hashes as grandparents. *)
Definition versions (made : list Coin) (table : gmap (list Z) UnspentLineageInfo) : Prop :=
  map_Forall (λ _ l, hash_ok (lineage_parent_parent_id l) ∧ lineage_coin_id l ∈ map coin_id made) table.
(** No spend is eligible for both treatments. *)
Definition single (b : BundleCoinSpend) : Prop := has_lineage b = true → eligible_for_dedup b = false.

Lemma coin_id_hash_ok (c : Coin) : hash_ok (coin_id c).
Proof. split; [apply hash_256_length|apply hash_256_bytes]. Qed.

Lemma as_list_ok t l : sexp_ok t → as_list t = l → Forall sexp_ok l.
Proof.
  intros Ht <-. induction t as [a|f IHf r IHr]; cbn; [|destruct Ht; constructor; auto].
  destruct (negb _); [by repeat constructor|constructor].
Qed.

Lemma atom32_bytes t h : sexp_ok t → atom32 t = Ok h → bytes_ok h.
Proof.
  destruct t as [a|]; [|done]. cbn. unfold sized_parse. intros Ha. case_bool_decide; [done|]. intros [= <-].
  apply Forall_app. split; [|done]. apply Forall_replicate. by split.
Qed.

Lemma sexp_u64_bytes v : sexp_ok (sexp_u64 v).
Proof.
  cbn. unfold sexp_from_int. destruct (v =? 0); [constructor|]. apply trim_bytes_ok, to_be_ok.
Qed.

(** A rebased solution is the writing of a tree. *)
Lemma fast_forward_sound spend new_coin new_parent bs :
  sound spend → hash_ok (parent_coin_info new_parent) → fast_forward_singleton spend new_coin new_parent = Ok bs →
  ∃ t, sexp_ok t ∧ sexp_to_bytes t = Ok bs.
Proof.
  intros [x Hx] [_ Hg] Hf. unfold fast_forward_singleton in Hf. do 2 (destruct (_ || _) in Hf; [done|]).
  apply bind_Ok_inv in Hf as (puzzle & _ & Hf). apply bind_Ok_inv in Hf as ([[module st] inner] & _ & Hf). destruct (_ || _) in Hf; [done|].
  rewrite (from_serial_enc x.2 (solution spend)) in Hf by apply Hx. cbn [mbind res_bind] in Hf.
  apply bind_Ok_inv in Hf as ([[[pih lpp] lpa] ins] & Hs & Hf). destruct (negb _) in Hf; [done|]. destruct (negb _) in Hf; [done|].
  destruct (_ || _) in Hf; [done|]. destruct (negb _) in Hf; [done|].
  unfold singleton_solution in Hs. pose proof (as_list_ok x.2 _ (good_solution _ _ Hx) eq_refl) as Hl.
  destruct (as_list x.2) as [|proof [|sa [|ins' [|]]]]; try done. rewrite !Forall_cons in Hl. destruct Hl as (Hp & _ & Hi & _).
  pose proof (as_list_ok proof _ Hp eq_refl) as Hl. destruct (as_list proof) as [|pp [|pi [|pa [|]]]]; try done.
  rewrite !Forall_cons in Hl. destruct Hl as (_ & Hpi & _).
  apply bind_Ok_inv in Hs as (ph & Hph & Hs). repeat (apply bind_Ok_inv in Hs as (? & _ & Hs)). destruct (negb _) in Hs; [done|].
  injection Hs as <- _ _ <-. destruct (sexp_to_bytes _) as [bs'|e|] eqn:Hb in Hf; [|done|done]. injection Hf as <-.
  eexists. split; [|exact Hb]. pose proof (atom32_bytes _ _ Hpi Hph).
  apply sexp_ok_from_list. repeat constructor; try done; try apply sexp_u64_bytes.
Qed.

(** Where a spend of the block comes from: it is the item's, or the item's
    moved to the version its lineage names, or to one of [created]. *)
Inductive origin (created : list Coin) (b : BundleCoinSpend) (s : CoinSpend) : Prop :=
  | origin_kept : s = coin_spend b → origin created b s
  | origin_moved l :
      latest_singleton_lineage b = Some l → puzzle_reveal s = puzzle_reveal (coin_spend b) →
      puzzle_hash (cs_coin s) = puzzle_hash (cs_coin (coin_spend b)) → amount (cs_coin s) = amount (cs_coin (coin_spend b)) →
      coin_id (cs_coin s) = lineage_coin_id l ∨ coin_id (cs_coin s) ∈ map coin_id created → origin created b s.

Lemma origin_mono created created' b s : created ⊆ created' → origin created b s → origin created' b s.
Proof.
  intros Hsub [Hk|l Hl Hr Hp Ha Hid]; [by apply origin_kept|]. apply (origin_moved _ _ _ l); try done.
  destruct Hid as [Hid|Hid]; [by left|right]. apply list_elem_of_fmap in Hid as (c & -> & Hc). apply list_elem_of_fmap. eauto.
Qed.

(** A moved spend spends the coin its target names, and its child is among the
    additions. *)
Lemma rebase_onto_spec target b s next :
  rebase_onto target b = Ok (s, next) → spend_sound b → hash_ok (lineage_parent_parent_id target) →
  sound (fs_spend s) ∧ fs_dedup s = eligible_for_dedup b ∧ puzzle_reveal (fs_spend s) = puzzle_reveal (coin_spend b) ∧
  puzzle_hash (cs_coin (fs_spend s)) = puzzle_hash (cs_coin (coin_spend b)) ∧
  amount (cs_coin (fs_spend s)) = amount (cs_coin (coin_spend b)) ∧ coin_id (cs_coin (fs_spend s)) = lineage_coin_id target ∧
  hash_ok (lineage_parent_parent_id next) ∧ lineage_coin_id next ∈ map coin_id (fs_additions s).
Proof.
  intros Hr [Hg _] Ht. unfold rebase_onto in Hr. destruct (_ || _) eqn:Hids in Hr; [done|].
  apply orb_false_iff in Hids as [Hc%negb_false_iff%bool_decide_eq_true Hp%negb_false_iff%bool_decide_eq_true].
  apply bind_Ok_inv in Hr as (bs & Hbs & Hr). destruct (fast_forward_singleton _ _ _) as [bs'|e|] eqn:Hff in Hbs; [|done|done].
  injection Hbs as ->. apply bind_Ok_inv in Hr as (child & Hchild & [= <- <-]).
  destruct (List.find _ _) as [c|] eqn:Hfind in Hchild; [|done]. injection Hchild as ->.
  apply find_some in Hfind as [Hin _]. apply in_rev in Hin. apply fast_forward_sound in Hff as (t & Ht1 & Ht2); [|done..].
  cbn. split_and!; try done.
  - destruct Hg as [x Hx]. exists (x.1, t). destruct Hx. split; cbn; try done; rewrite <- Hp; apply coin_id_hash_ok.
  - rewrite <- Hp. apply coin_id_hash_ok.
  - apply list_elem_of_fmap. exists child. split; [done|]. by apply list_elem_of_In.
Qed.

Lemma keep_latest_spec b next : keep_latest b = Ok next → spend_sound b →
  hash_ok (lineage_parent_parent_id next) ∧ lineage_coin_id next ∈ map coin_id (spend_additions b).
Proof.
  intros Hk [[x Hx] _]. unfold keep_latest in Hk. apply bind_Ok_inv in Hk as (child & Hc & [= <-]).
  destruct (List.find _ _) as [c|] eqn:Hfind in Hc; [|done]. injection Hc as ->. apply find_some in Hfind as [Hin _].
  cbn. split; [split; apply Hx|]. apply list_elem_of_fmap. exists child. split; [done|]. by apply list_elem_of_In.
Qed.

Lemma forward_spend_spec state created b s next moved :
  forward_spend state b = Ok (s, next, moved) → spend_sound b → versions created state →
  sound (fs_spend s) ∧ fs_dedup s = eligible_for_dedup b ∧ origin created b (fs_spend s) ∧
  ∀ l, next = Some l → has_lineage b = true ∧ hash_ok (lineage_parent_parent_id l) ∧ lineage_coin_id l ∈ map coin_id (fs_additions s).
Proof.
  intros Hf Hb Hst. unfold forward_spend in Hf. destruct (has_lineage b) eqn:Hl; cbn [negb] in Hf.
  2: { injection Hf as <- <- <-. split_and!; [apply Hb|done|by apply origin_kept|done]. }
  apply bind_Ok_inv in Hf as ([target chained] & Ht & Hf).
  assert (Htarget : hash_ok (lineage_parent_parent_id target) ∧ ∃ l, latest_singleton_lineage b = Some l ∧
    (lineage_coin_id target = lineage_coin_id l ∨ lineage_coin_id target ∈ map coin_id created)).
  { apply bool_decide_eq_true in Hl as [l Hl]. destruct (state !! _) as [lin|] eqn:Hs in Ht.
    - injection Ht as <- <-. destruct (Hst _ _ Hs) as [Hpp Hcr]. split; [done|]. exists l. split; [done|]. by right.
    - rewrite Hl in Ht. injection Ht as <- <-. split; [by apply (ss_lineage _ Hb)|]. eauto. }
  destruct Htarget as (Htgt & l & Hlin & Hid). destruct (_ && _) in Hf.
  - apply bind_Ok_inv in Hf as (nx & Hk & [= <- <- <-]). apply keep_latest_spec in Hk as [Hk1 Hk2]; [|done].
    split_and!; [apply Hb|done|by apply origin_kept|]. by intros ? [= <-].
  - apply bind_Ok_inv in Hf as ([mv nx] & Hk & [= <- <- <-]).
    apply rebase_onto_spec in Hk as (E1 & E2 & E3 & E4 & E5 & E6 & E7 & E8); [|done..]. split_and!; [done|done| |].
    + apply (origin_moved _ _ _ l); try done. by rewrite E6.
    + by intros ? [= <-].
Qed.

Lemma versions_mono made made' table : made ⊆ made' → versions made table → versions made' table.
Proof.
  intros Hsub Hv ph l Hl. destruct (Hv ph l Hl) as [Hh Hin]. split; [done|].
  apply list_elem_of_fmap in Hin as (c & -> & Hc). apply list_elem_of_fmap. eauto.
Qed.

Lemma forward_spends_spec state created l post upd n post' upd' n' made :
  forward_spends state l post upd n = Ok (post', upd', n') → Forall spend_sound l → versions created state → versions made upd →
  ∃ new made', post' = post ++ new ∧
    Forall (λ s, sound (fs_spend s) ∧ ∃ b, b ∈ l ∧ origin created b (fs_spend s)) new ∧ versions made' upd' ∧
    (Forall single l → ∀ c, c ∈ made' → c ∈ made ∨ ∃ s, s ∈ new ∧ fs_dedup s = false ∧ c ∈ fs_additions s).
Proof.
  intros Hf Hl Hst. revert post upd n made Hf. induction Hl as [|b l Hb Hl IH]; intros post upd n made Hf Hm; cbn in Hf.
  { injection Hf as <- <- <-. exists [], made. rewrite app_nil_r. split_and!; [done|constructor|done|]. eauto. }
  apply bind_Ok_inv in Hf as ([[s next] moved] & Hs & Hf).
  destruct (forward_spend_spec _ _ _ _ _ _ Hs Hb Hst) as (E1 & E2 & E3 & E4).
  set (upd1 := match next with Some _ => _ | None => _ end) in Hf. set (made1 := match next with Some _ => fs_additions s ++ made | None => made end).
  destruct (IH (post ++ [s]) upd1 (if moved then n + 1 else n) made1 Hf) as (new & made' & F1 & F2 & F3 & F4).
  { unfold upd1, made1. destruct next as [lin|]; [|done]. destruct (E4 lin eq_refl) as (_ & G1 & G2). apply map_Forall_insert_2.
    - split; [done|]. apply list_elem_of_fmap in G2 as (c & -> & Hc). apply list_elem_of_fmap. exists c. split; [done|]. apply elem_of_app. by left.
    - eapply versions_mono; [|done]. set_solver. }
  exists (s :: new), made'. rewrite F1, <- (assoc_L (++)). split_and!; [done| |done|].
  - constructor; [split; [done|]; exists b; split; [constructor|done]|]. eapply Forall_impl; [exact F2|]. intros s' (? & b' & ? & ?).
    split; [done|]. exists b'. split; [by constructor|done].
  - intros Hsg c Hc. apply Forall_cons in Hsg as [Hsg1 Hsg]. destruct (F4 Hsg c Hc) as [Hin|(s' & ? & ? & ?)].
    + unfold made1 in Hin. destruct next as [lin|]; [|by left]. apply elem_of_app in Hin as [Hin|Hin]; [|by left]. right.
      exists s. split; [constructor|]. split; [|done]. rewrite E2. apply Hsg1. by apply (E4 lin).
    + right. exists s'. split; [by constructor|done].
Qed.

Lemma dedup_pass_spec dedup l p p' :
  dedup_pass dedup l p = Ok p' →
  ∃ kept, kept `sublist_of` l ∧ unique_spends p' = unique_spends p ++ map fs_spend kept ∧
    unique_additions p' = unique_additions p ++ (kept ≫= fs_additions) ∧ ff_update p' = ff_update p ∧
    ∀ s, s ∈ l → fs_dedup s = false → s ∈ kept.
Proof.
  revert p. induction l as [|s l IH]; intros p Hd; cbn in Hd.
  { injection Hd as <-. exists []. rewrite !app_nil_r. split_and!; [constructor|done..|]. intros s Hs. by apply not_elem_of_nil in Hs. }
  assert (Htake : ∀ q, unique_spends q = unique_spends p ++ [fs_spend s] → unique_additions q = unique_additions p ++ fs_additions s →
    ff_update q = ff_update p → dedup_pass dedup l q = Ok p' → ∃ kept, kept `sublist_of` s :: l ∧
      unique_spends p' = unique_spends p ++ map fs_spend kept ∧ unique_additions p' = unique_additions p ++ (kept ≫= fs_additions) ∧
      ff_update p' = ff_update p ∧ ∀ s', s' ∈ s :: l → fs_dedup s' = false → s' ∈ kept).
  { intros q Q1 Q2 Q3 (kept & K1 & K2 & K3 & K4 & K5)%IH. exists (s :: kept). rewrite K2, K3, K4, Q1, Q2, Q3, <- !(assoc_L (++)).
    split_and!; [by apply sublist_skip|done..|]. intros s' [->|Hs']%elem_of_cons; [constructor|]. intros ?. apply elem_of_cons. right. by apply K5. }
  destruct (fs_dedup s) eqn:Hs; cbn [negb] in Hd; [|by eapply Htake; [..|exact Hd]].
  destruct (dedup !! _) as [[known saved]|]; [|by eapply Htake; [..|exact Hd]].
  destruct (negb _); [done|]. apply IH in Hd as (kept & K1 & K2 & K3 & K4 & K5). exists kept. cbn in *.
  split_and!; [by apply sublist_cons|done..|]. intros s' [->|Hs']%elem_of_cons ?; [congruence|]. by apply K5.
Qed.

(** ** Items *)
Record item_sound (i : MempoolItem) : Prop := {
  is_spends : Forall spend_sound (item_coin_spends i);
  is_bundle : item_coin_spends i = [] → Forall sound (coin_spends (item_bundle i));
}.
Definition from_item (created : list Coin) (i : MempoolItem) (s : CoinSpend) : Prop :=
  (item_coin_spends i = [] ∧ s ∈ coin_spends (item_bundle i)) ∨ ∃ b, b ∈ item_coin_spends i ∧ origin created b s.
Record processed_ok (created : list Coin) (i : MempoolItem) (p : ProcessedItem) : Prop := {
  po_sound : Forall (λ s, sound s ∧ from_item created i s) (unique_spends p);
  po_versions : ∃ made, versions made (ff_update p) ∧ (Forall single (item_coin_spends i) → made ⊆ unique_additions p);
}.
End spends.

(** ** The loop *)
Section selection.
Context `{BigIntBytesOk, Sha256Ok, !Blst, !Memory, !BlsVerify, !BlsAggregate, !HashOrder, !Estimator}.

Lemma process_item_ok fuel export_fuel c height created i dedup state p :
  process_item_spends fuel export_fuel i dedup state c height = Some (Ok p) → item_sound i → versions created state →
  processed_ok created i p.
Proof.
  intros Hp Hi Hv. unfold process_item_spends in Hp. apply obind_Ok in Hp as ([[post upd] n] & [= Hf] & Hp).
  apply obind_Ok in Hp as ([] & _ & [= Hd]).
  destruct (forward_spends_spec _ created _ _ _ _ _ _ _ [] Hf (is_spends _ Hi) Hv) as (new & made & -> & Hnew & Hmade & Hsub).
  { apply map_Forall_empty. }
  apply dedup_pass_spec in Hd as (kept & K1 & K2 & K3 & K4 & K5). cbn in *. split.
  - rewrite K2. apply Forall_fmap, Forall_forall. intros s Hs. eapply elem_of_sublist in Hs; [|exact K1].
    rewrite Forall_forall in Hnew. destruct (Hnew s Hs) as (E1 & b & E2 & E3). split; [done|]. right. eauto.
  - exists made. rewrite K4, K3. split; [done|]. intros Hs x Hx. destruct (Hsub Hs x Hx) as [Hn|(s & S1 & S2 & S3)]; [by apply not_elem_of_nil in Hn|].
    apply list_elem_of_bind. exists s. split; [done|]. by apply K5.
Qed.

Lemma plain_item_ok created i l additions :
  Forall (λ s, sound s ∧ from_item created i s) l → processed_ok created i (plain_item l additions).
Proof.
  intros Hl. split; [done|]. exists []. split; [apply map_Forall_empty|]. intros _ x Hx. by apply not_elem_of_nil in Hx.
Qed.

Lemma resolve_item_ok fuel export_fuel c height created i st p :
  resolve_item fuel export_fuel c height i st = Some (Ok (Resolved p)) → item_sound i → versions created (ff_state st) →
  processed_ok created i p.
Proof.
  intros Hr Hi Hv. unfold resolve_item in Hr. case_bool_decide as Hnil.
  { injection Hr as <-. apply plain_item_ok. pose proof (is_bundle _ Hi Hnil) as Hb. rewrite Forall_forall in Hb |- *.
    intros s Hs. split; [by apply Hb|]. by left. }
  destruct (_ <=? _).
  { destruct (has_special i); [done|]. injection Hr as <-. apply plain_item_ok. apply Forall_fmap, Forall_forall. intros b Hb.
    pose proof (is_spends _ Hi) as Hs. rewrite Forall_forall in Hs. split; [apply (Hs b Hb)|]. right. exists b. split; [done|]. by apply origin_kept. }
  apply fmap_Some in Hr as ([q|[]|] & Hq & Hr); try done. injection Hr as <-. by eapply process_item_ok.
Qed.

(** One round either leaves the block as it is or puts an item in. *)
Inductive round (c : ConsensusConstants) (i : MempoolItem) (st : Selection) (fuel export_fuel : nat) (height : Z) : Selection → Prop :=
  | round_skip dedup skipped : round c i st fuel export_fuel height (st <| dedup_spends := dedup |> <| skipped_items := skipped |>)
  | round_take p cost exec fee :
      resolve_item fuel export_fuel c height i st = Some (Ok (Resolved p)) → fee = fee_sum st + item_fee i → fee ≤ max_coin_amount c →
      spend_count st + zlen (unique_spends p) ≤ MAX_SPENDS_PER_BLOCK →
      round c i st fuel export_fuel height (include_item p i cost fee exec (commit_dedup p st)).

Lemma select_item_round fuel export_fuel c height max_cost timeout elapsed i st st' continue :
  select_item fuel export_fuel c height max_cost timeout elapsed i st = Some (Ok (st', continue)) →
  round c i st fuel export_fuel height st'.
Proof.
  assert (Hskip : ∀ d k, st <| dedup_spends := d |> <| skipped_items := k |> = st' → round c i st fuel export_fuel height st').
  { intros d k <-. constructor. }
  unfold select_item. destruct (timeout <=? elapsed).
  { intros [= <- _]. apply (Hskip (dedup_spends st) (skipped_items st)). by destruct st. }
  destruct (checked 64 _) as [fee|] eqn:Hfee. 2: { intros [= <- _]. apply (Hskip (dedup_spends st) (skipped_items st)). by destruct st. }
  assert (fee = fee_sum st + item_fee i) as -> by (unfold checked in Hfee; by case_match; simplify_eq). destruct (Z.ltb_spec (max_coin_amount c) (fee_sum st + item_fee i)) as [|Hle].
  { intros [= <- _]. apply (Hskip (dedup_spends st) (skipped_items st)). by destruct st. }
  intros Hs. apply obind_Ok in Hs as (r & Hr & Hs). destruct r as [p| |].
  2: { injection Hs as <- _. apply (Hskip (dedup_spends st) (skipped_items st)). by destruct st. }
  2: { injection Hs as <- _. apply (Hskip (dedup_spends st) (skipped_items st + 1)). by destruct st. }
  injection Hs as Hs. unfold place_item in Hs. cbv zeta in Hs. apply bind_Ok_inv in Hs as (fit & Hfit & [= Hs]).
  destruct fit; cbn [negb] in Hs.
  - injection Hs as <- _. apply round_take; [done|done|done|]. unfold fits in Hfit.
    destruct (Z.ltb_spec MAX_SPENDS_PER_BLOCK (spend_count (commit_dedup p st) + zlen (unique_spends p))); [done|]. done.
  - injection Hs as <- _. unfold commit_dedup. eapply (Hskip _ (skipped_items st + 1)). by destruct st.
Qed.

(** What the block of a selection holds. *)
Record selected (c : ConsensusConstants) (chosen : list (MempoolItem * ProcessedItem)) (st : Selection) : Prop := {
  sl_spends : block_spends st = chosen ≫= λ x, unique_spends x.2;
  sl_additions : block_additions st = chosen ≫= λ x, unique_additions x.2;
  sl_removals : block_removals st = map cs_coin (block_spends st);
  sl_sigs : block_sigs st = map (λ x, bundle_signature (item_bundle x.1)) chosen;
  sl_fees : fee_sum st = sum_of (λ x, item_fee x.1) chosen;
  sl_max : chosen ≠ [] → fee_sum st ≤ max_coin_amount c;
  sl_count : spend_count st = zlen (block_spends st) ∧ spend_count st ≤ MAX_SPENDS_PER_BLOCK;
}.

Lemma selected_round c i st st' fuel export_fuel height chosen :
  round c i st fuel export_fuel height st' → selected c chosen st → selected c chosen st' ∨ ∃ p, selected c (chosen ++ [(i, p)]) st'.
Proof.
  intros [d k|p cost exec fee Hr -> Hmax Hcount] [S1 S2 S3 S4 S5 S6 S7]; [by left|right]. exists p. split; cbn.
  - by rewrite S1, bind_app, bind_singleton.
  - by rewrite S2, bind_app, bind_singleton.
  - by rewrite S3, map_app.
  - by rewrite S4, map_app.
  - rewrite sum_of_snoc. cbn. lia.
  - lia.
  - rewrite zlen_app. lia.
Qed.

(** Every spend is one of [l]'s items', and the versions that later spends
    follow are made in the block. *)
Record grounded (l : list MempoolItem) (created : list Coin) (st : Selection) : Prop := {
  gr_spends : Forall (λ s, sound s ∧ ∃ i, i ∈ l ∧ from_item created i s) (block_spends st);
  gr_versions : versions created (ff_state st);
  gr_single : Forall (λ i, Forall single (item_coin_spends i)) l → created ⊆ block_additions st;
}.

Lemma from_item_mono created created' i s : created ⊆ created' → from_item created i s → from_item created' i s.
Proof. intros Hsub [Hb|(b & Hb & Ho)]; [by left|]. right. exists b. split; [done|]. by eapply origin_mono. Qed.

Lemma grounded_round c i st st' fuel export_fuel height l created :
  round c i st fuel export_fuel height st' → i ∈ l → item_sound i → grounded l created st → ∃ created', grounded l created' st'.
Proof.
  intros [d k|p cost exec fee Hr _ _ _] Hi Hs [G1 G2 G3]; [by exists created|].
  apply (resolve_item_ok _ _ _ _ created) in Hr as [P1 (made & P2 & P3)]; [|done..].
  exists (made ++ created). split; cbn.
  - apply Forall_app. split; [eapply Forall_impl; [exact G1|]|eapply Forall_impl; [exact P1|]].
    + intros s (S1 & i' & S2 & S3). split; [done|]. exists i'. split; [done|]. eapply from_item_mono; [|done]. set_solver.
    + intros s (S1 & S2). split; [done|]. exists i. split; [done|]. eapply from_item_mono; [|done]. set_solver.
  - intros ph lin Hl. apply lookup_union_Some_raw in Hl as [Hl|[_ Hl]].
    + exact (versions_mono made (made ++ created) _ ltac:(set_solver) P2 ph lin Hl).
    + exact (versions_mono created (made ++ created) _ ltac:(set_solver) G2 ph lin Hl).
  - intros Hall. rewrite Forall_forall in Hall. specialize (P3 (Hall i Hi)). rewrite <- Forall_forall in Hall. specialize (G3 Hall). set_solver.
Qed.

Lemma select_items_spec fuel export_fuel c height max_cost timeout clock n l all st st' chosen created :
  select_items fuel export_fuel c height max_cost timeout clock n l st = Some (Ok st') →
  l ⊆ all → Forall item_sound all → selected c chosen st → grounded all created st →
  ∃ more created', more.*1 `sublist_of` l ∧ selected c (chosen ++ more) st' ∧ grounded all created' st'.
Proof.
  intros Hsel Hsub Hall. revert n st chosen created Hsel. induction l as [|i l IH]; intros n st chosen created Hsel Hs Hg; cbn in Hsel.
  { injection Hsel as <-. exists [], created. rewrite app_nil_r. split_and!; [constructor|done|done]. }
  apply obind_Ok in Hsel as ([st1 continue] & Hone%select_item_round & Hsel). rewrite Forall_forall in Hall.
  destruct (grounded_round _ _ _ _ _ _ _ _ _ Hone (Hsub i ltac:(constructor)) (Hall i (Hsub i ltac:(constructor))) Hg) as [created1 Hg1].
  rewrite <- Forall_forall in Hall.
  assert (∃ m1, m1.*1 `sublist_of` [i] ∧ selected c (chosen ++ m1) st1) as (m1 & Hm1 & Hs1).
  { destruct (selected_round _ _ _ _ _ _ _ _ Hone Hs) as [Hs1|[p Hs1]]; [exists []|exists [(i, p)]]; cbn.
    - rewrite app_nil_r. split; [apply sublist_nil_l|done].
    - done. }
  destruct continue.
  - destruct (IH ltac:(set_solver) (S n) st1 (chosen ++ m1) created1 Hsel Hs1 Hg1) as (more & created' & M1 & M2 & M3).
    exists (m1 ++ more), created'. rewrite (assoc_L (++)). split_and!; [|done|done]. rewrite fmap_app. change (i :: l) with ([i] ++ l). by apply sublist_app.
  - injection Hsel as <-. exists m1, created1. split_and!; [|done|done]. change (i :: l) with ([i] ++ l). rewrite <- (app_nil_r m1.*1).
    apply sublist_app; [done|apply sublist_nil_l].
Qed.
End selection.

(** ** The order *)
Section order.
Context `{!Sha256, !HashOrder, !HashOrderOk, !Estimator, !EstimatorOk} (coin_hash : list Z → list Z).

(** [i] may come right before [j]. *)
Definition precedes (i j : MempoolItem) : Prop :=
  ∃ p q, fee_per_virtual_cost i = Ok p ∧ fee_per_virtual_cost j = Ok q ∧
    (f64_cmp q p = Lt ∨ f64_cmp q p = Eq ∧ item_seq i ≤ item_seq j).
Definition pool_items (m : Mempool) : list MempoolItem := (map_to_list (items m)).*2.

Lemma f64_cmp_opp x y : f64_cmp y x = CompOpp (f64_cmp x y).
Proof.
  destruct x as [s|s| |s m e], y as [s'|s'| |s' m' e']; unfold f64_cmp; cbn; try done; try by destruct s; try by destruct s'.
  destruct s, s'; cbn; try done.
  - rewrite (Z.compare_antisym e e'). destruct (e ?= e'); try done. change (PosDef.Pos.compare_cont Eq) with Pos.compare. cbn. by rewrite (Pos.compare_antisym m m').
  - rewrite (Z.compare_antisym e e'). destruct (e ?= e'); try done. cbn. apply (Pos.compare_antisym m m').
Qed.

#[local] Instance priority_total {A} : Total (λ a b : A * f64 * Z * Z, priority_desc a b).
Proof.
  intros a b. unfold priority_desc, then_cmp. rewrite (f64_cmp_opp a.1.1.2 b.1.1.2), (Z.compare_antisym a.1.2 b.1.2).
  destruct (f64_cmp a.1.1.2 b.1.1.2); cbn; try by (left + right). destruct (a.1.2 ?= b.1.2); cbn; by (left + right).
Qed.

Lemma with_priorities_ok l : Forall (λ i, 0 ≤ item_spends i * SPEND_PENALTY_COST < 2 ^ 64) l →
  ∃ rows, with_priorities l = Ok rows ∧ map (λ row, row.1.1.1) rows = l ∧
    Forall (λ row, fee_per_virtual_cost row.1.1.1 = Ok row.1.1.2 ∧ row.1.2 = item_seq row.1.1.1) rows.
Proof.
  induction 1 as [|i l Hi Hl (rows & E1 & E2 & E3)]; [by exists []|]. cbn. unfold with_priority.
  destruct (fee_per_virtual_cost i) as [p|e|] eqn:Hp; unfold fee_per_virtual_cost in Hp; rewrite chk_ok in Hp by done; try done.
  cbn. rewrite E1. cbn. eexists. split; [done|]. cbn. rewrite E2. split; [done|]. constructor; [|done]. cbn. split; [|done].
  unfold fee_per_virtual_cost. by rewrite chk_ok.
Qed.

Lemma rows_precedes rows :
  Forall (λ row, fee_per_virtual_cost row.1.1.1 = Ok row.1.1.2 ∧ row.1.2 = item_seq row.1.1.1) rows →
  Sorted (λ a b, priority_desc a b) rows → Sorted precedes (map (λ row : MempoolItem * f64 * Z * Z, row.1.1.1) rows).
Proof.
  intros Hrows. induction 1 as [|a rows Hs IH Hhd]; cbn; [constructor|]. apply Forall_cons in Hrows as [[Ha1 Ha2] Hrows].
  constructor; [by apply IH|]. destruct Hhd as [|b rows Hab]; cbn; constructor. apply Forall_cons in Hrows as [[Hb1 Hb2] _].
  exists a.1.1.2, b.1.1.2. split; [done|]. split; [done|]. unfold priority_desc, then_cmp in Hab.
  destruct (f64_cmp b.1.1.2 a.1.1.2); cbn in Hab; [|by left|done]. right. split; [done|]. rewrite <- Ha2, <- Hb2.
  destruct (Z.compare_spec a.1.2 b.1.2); cbn in Hab; [lia|lia|done].
Qed.

Lemma items_by_fee_spec m : mempool_ok coin_hash m → ∃ l, items_by_fee m = Ok l ∧ l ≡ₚ pool_items m ∧ Sorted precedes l.
Proof.
  intros (adds & Hm & _). unfold items_by_fee. set (l := (map_iter (items m)).*2).
  assert (Hl : l ≡ₚ pool_items m) by (unfold l, pool_items; by rewrite map_iter_perm).
  destruct (Nat.leb_spec (length l) 1) as [Hlen|_].
  { exists l. split; [done|]. split; [done|]. destruct l as [|i [|]]; cbn in Hlen; [constructor|by repeat constructor|lia]. }
  destruct (with_priorities_ok l) as (rows & -> & E2 & E3).
  { apply Forall_forall. intros i Hi. rewrite Hl in Hi. apply list_elem_of_fmap in Hi as ([n i'] & -> & Hi). apply elem_of_map_to_list in Hi.
    apply (po_items _ _ _ Hm _ _ Hi). }
  eexists. split; [done|]. split.
  - rewrite <- Hl, <- E2. apply Permutation_map, merge_sort_Permutation.
  - apply rows_precedes; [|apply Sorted_merge_sort, _]. by rewrite merge_sort_Permutation.
Qed.
End order.

(** ** The block *)
Section block.
Context `{BigIntBytesOk, Sha256Ok, BlstOk, !Memory, !MemoryOk, !BlsVerify, !BlsAggregate, !HashOrder, !HashOrderOk, !Estimator, !EstimatorOk}.
Context (coin_hash : list Z → list Z).

Lemma create_block_inv fuel export_fuel m c height timeout clock bt :
  create_block_generator fuel export_fuel m c height timeout clock = Some (Ok (Some bt)) →
  ∃ max_cost l st conds, items_by_fee m = Ok l ∧
    select_items fuel export_fuel c height max_cost timeout clock 0 l empty_selection = Some (Ok st) ∧
    compressed_solution_generator_from_coin_spends (block_spends st) = Ok (program bt) ∧
    aggregate_signatures (block_sigs st) = Some (tx_signature bt) ∧
    execute_block_generator_result fuel export_fuel (assembly_input c height (program bt)) = Some (Ok conds) ∧
    conds_cost conds ≤ max_block_cost_clvm c ∧
    block_refs bt = [] ∧ tx_additions bt = block_additions st ∧ tx_removals bt = block_removals st ∧ tx_cost bt = conds_cost conds.
Proof.
  unfold create_block_generator. destruct (peak m); [|done]. intros Hc. apply obind_Ok in Hc as (overhead & _ & Hc).
  apply obind_Ok in Hc as (l & [= Hl] & Hc). apply obind_Ok in Hc as (st & Hst & Hc). unfold finish_block in Hc.
  case_bool_decide; [done|]. destruct (compressed_solution_generator_from_coin_spends _) as [g|e|] eqn:Hg; [|done|done].
  destruct (aggregate_signatures _) as [sig|] eqn:Hsig; [|done].
  destruct (execute_block_generator_result _ _ _) as [[conds|e|]|] eqn:He; [|done|done|done].
  destruct (Z.ltb_spec (max_block_cost_clvm c) (conds_cost conds)); [done|]. injection Hc as <-.
  by exists (sat_sub (max_block_cost_clvm c) overhead), l, st, conds.
Qed.

Lemma empty_selected c : selected c [] empty_selection.
Proof. by split. Qed.
Lemma empty_grounded l : grounded l [] empty_selection.
Proof. split; [constructor|apply map_Forall_empty|done]. Qed.

(** The selection behind a block. *)
Lemma create_block_selected fuel export_fuel m c height timeout clock bt :
  create_block_generator fuel export_fuel m c height timeout clock = Some (Ok (Some bt)) →
  mempool_ok coin_hash m → Forall item_sound (pool_items m) →
  ∃ l chosen created st conds, items_by_fee m = Ok l ∧ l ≡ₚ pool_items m ∧ Sorted precedes l ∧ chosen.*1 `sublist_of` l ∧
    selected c chosen st ∧ grounded l created st ∧
    compressed_solution_generator_from_coin_spends (block_spends st) = Ok (program bt) ∧
    aggregate_signatures (block_sigs st) = Some (tx_signature bt) ∧
    execute_block_generator_result fuel export_fuel (assembly_input c height (program bt)) = Some (Ok conds) ∧
    conds_cost conds ≤ max_block_cost_clvm c ∧
    block_refs bt = [] ∧ tx_additions bt = block_additions st ∧ tx_removals bt = block_removals st ∧ tx_cost bt = conds_cost conds.
Proof.
  intros Hc Hm Hsound. apply create_block_inv in Hc as (max_cost & l & st & conds & Hl & Hst & Hrest).
  destruct (items_by_fee_spec coin_hash m Hm) as (l' & Hl' & Hperm & Hsorted). rewrite Hl in Hl'. injection Hl' as <-.
  destruct (select_items_spec _ _ _ _ _ _ _ _ _ l _ _ [] [] Hst) as (chosen & created & C1 & C2 & C3);
    [done|by rewrite Hperm|apply empty_selected|apply empty_grounded|].
  by exists l, chosen, created, st, conds.
Qed.
End block.

(** ** Items without special spends *)
Section plain_items.
Context `{BigIntBytesOk, Sha256Ok, BlstOk, !Memory, !MemoryOk, !BlsVerify, !BlsAggregate, !HashOrder, !HashOrderOk, !Estimator, !EstimatorOk}.

(** What an item puts in a block when none of its spends is special. *)
Definition whole_item (i : MempoolItem) : ProcessedItem :=
  if bool_decide (item_coin_spends i = []) then plain_item (coin_spends (item_bundle i)) (additions_for_conditions (item_conds i) [])
  else plain_item (map coin_spend (item_coin_spends i)) (item_coin_spends i ≫= spend_additions).

Lemma forward_plain state l post upd n :
  existsb (λ b, eligible_for_dedup b || has_lineage b) l = false →
  forward_spends state l post upd n = Ok (post ++ map keep_spend l, upd, n).
Proof.
  revert post. induction l as [|b l IH]; intros post Hl; cbn in Hl |- *; [by rewrite app_nil_r|].
  apply orb_false_iff in Hl as [Hb Hl]. apply orb_false_iff in Hb as [_ Hb]. unfold forward_spend. rewrite Hb. cbn.
  rewrite IH by done. by rewrite <- (assoc_L (++)).
Qed.

Lemma dedup_plain dedup l p :
  existsb (λ b, eligible_for_dedup b || has_lineage b) l = false →
  dedup_pass dedup (map keep_spend l) p =
    Ok {| unique_spends := unique_spends p ++ map coin_spend l; unique_additions := unique_additions p ++ (l ≫= spend_additions);
          cost_saving := cost_saving p; ff_update := ff_update p; new_dedup := new_dedup p |}.
Proof.
  revert p. induction l as [|b l IH]; intros p Hl; cbn in Hl |- *; [destruct p; cbn; by rewrite !app_nil_r|].
  apply orb_false_iff in Hl as [Hb Hl]. apply orb_false_iff in Hb as [Hb _]. rewrite Hb. cbn. rewrite IH by done. cbn. by rewrite <- !(assoc_L (++)).
Qed.

Lemma resolve_plain fuel export_fuel c height i st :
  has_special i = false → resolve_item fuel export_fuel c height i st = Some (Ok (Resolved (whole_item i))).
Proof.
  intros Hi. unfold resolve_item, whole_item. case_bool_decide; [done|]. rewrite Hi. destruct (_ <=? _); [done|].
  unfold process_item_spends. rewrite forward_plain by done. cbn [obind app]. rewrite dedup_plain by done. done.
Qed.

Lemma select_plain fuel export_fuel c height max_cost timeout clock n l st :
  (∀ k, clock k < timeout) → max_cost < 2 ^ 64 → max_coin_amount c < 2 ^ 64 →
  Forall (λ i, has_special i = false ∧ 0 ≤ item_cost i ∧ 0 ≤ item_fee i) l →
  0 ≤ cost_sum st → 0 ≤ fee_sum st →
  cost_sum st + sum_of item_cost l + MIN_COST_THRESHOLD ≤ max_cost → fee_sum st + sum_of item_fee l ≤ max_coin_amount c →
  spend_count st + sum_of (λ i, zlen (unique_spends (whole_item i))) l < MAX_SPENDS_PER_BLOCK →
  ∃ st', select_items fuel export_fuel c height max_cost timeout clock n l st = Some (Ok st') ∧
    block_spends st' = block_spends st ++ (l ≫= λ i, unique_spends (whole_item i)) ∧
    block_additions st' = block_additions st ++ (l ≫= λ i, unique_additions (whole_item i)) ∧
    block_removals st' = block_removals st ++ (l ≫= λ i, map cs_coin (unique_spends (whole_item i))) ∧
    block_sigs st' = block_sigs st ++ map (λ i, bundle_signature (item_bundle i)) l.
Proof.
  intros Hclock Hmc Hmax Hl. revert n st. induction Hl as [|i l (Hi & Hcost & Hfee) Hl IH]; intros n st Hc0 Hf0 Hc Hf Hn.
  { exists st. cbn. by rewrite !app_nil_r. }
  rewrite !sum_of_cons in Hc, Hf, Hn. assert (Hsums : 0 ≤ sum_of item_cost l ∧ 0 ≤ sum_of item_fee l).
  { split; apply sum_of_nonneg; eapply Forall_impl; try exact Hl; naive_solver. }
  assert (Hlen : 0 ≤ sum_of (λ i, zlen (unique_spends (whole_item i))) l) by (apply sum_of_nonneg, Forall_forall; intros; apply zlen_nonneg).
  assert (Hmin : 0 < MIN_COST_THRESHOLD) by done. cbn [select_items]. unfold select_item.
  rewrite (proj2 (Z.leb_gt _ _)) by apply Hclock. rewrite checked_ok by (unfold uok; lia). rewrite (proj2 (Z.ltb_ge _ _)) by lia.
  rewrite resolve_plain by done. cbn [obind]. unfold place_item, fits.
  assert (new_dedup (whole_item i) = [] ∧ cost_saving (whole_item i) = 0) as [Hnd Hcs] by (unfold whole_item; by case_bool_decide).
  assert (Hsub : sat_sub (item_cost i) (cost_saving (whole_item i)) = item_cost i) by (rewrite Hcs; unfold sat_sub; lia).
  assert (Hcd : commit_dedup (whole_item i) st = st) by (unfold commit_dedup; rewrite Hnd; by destruct st). rewrite Hcd, Hsub. cbv zeta.
  assert (Hsum : sat_addu 64 (cost_sum st) (item_cost i) = cost_sum st + item_cost i) by (unfold sat_addu; lia). rewrite Hsum.
  pose proof (zlen_nonneg (unique_spends (whole_item i))). rewrite (proj2 (Z.ltb_ge MAX_SPENDS_PER_BLOCK _)) by lia.
  rewrite (proj2 (Z.leb_le (cost_sum st + item_cost i) max_cost)) by lia.
  cbn [mbind res_bind negb obind]. set (st1 := include_item _ _ _ _ _ _).
  assert (Hgo : (sat_sub max_cost (cost_sum st1) <? MIN_COST_THRESHOLD) || (MAX_SPENDS_PER_BLOCK <=? spend_count st1) = false).
  { apply orb_false_iff. split; [apply Z.ltb_ge|apply Z.leb_gt]; cbn; [unfold sat_sub|]; lia. }
  rewrite Hgo. cbn [negb]. destruct (IH (S n) st1) as (st' & E1 & E2 & E3 & E4 & E5); [cbn; lia..|].
  exists st'. split; [done|]. rewrite E2, E3, E4, E5. cbn. by rewrite <- !(assoc_L (++)).
Qed.
End plain_items.

(** * Theorems *)
#[local] Arguments plain_byte_cost : simpl never.
#[local] Arguments fits_compressed : simpl never.
#[local] Arguments sat_sub : simpl never.
#[local] Arguments sat_addu : simpl never.
Section theorems.
Context `{BigIntBytesOk, Sha256Ok, BlstOk, !Memory, !MemoryOk, !BlsVerify, !BlsAggregate, !HashOrder, !HashOrderOk, !Estimator, !EstimatorOk}.
Context (coin_hash : list Z → list Z).


Lemma sound_spends l : Forall sound l → ∃ xs, Forall2 good_spend l xs.
Proof. induction 1 as [|s l [x Hx] Hl [xs Hxs]]; [by exists []|]. exists (x :: xs). by constructor. Qed.

(** C14: an assembled block executes.  The validator runs its generator to
    conditions of the cost the block declares, within the maximum.  When the
    writer's hashes do not collide, the coins those conditions spend are the
    block's removals, each spent once. *)
Theorem assembled_block_executes fuel export_fuel m c height timeout clock bt :
  create_block_generator fuel export_fuel m c height timeout clock = Some (Ok (Some bt)) →
  mempool_ok coin_hash m → Forall item_sound (pool_items m) → hard_fork_height c ≤ height →
  ∃ l xs conds,
    tx_removals bt = map cs_coin l ∧ Forall2 good_spend (rev l) xs ∧
    execute_block_generator_result fuel export_fuel (assembly_input c height (program bt)) = Some (Ok conds) ∧
    tx_cost bt = conds_cost conds ∧ conds_cost conds ≤ max_block_cost_clvm c ∧
    (4 * Z.of_nat (sexp_size (generator_tree (rev l) xs)) + 1 < 2 ^ 32 →
     collision_free (writer_strings (generator_tree (rev l) xs)) →
     (tree_size (output_tree (rev l) xs) ≤ export_fuel)%nat →
     map spent_coin (spends conds) = rev (tx_removals bt) ∧ NoDup (map coin_id (tx_removals bt))).
Proof.
  intros Hc Hm Hs Hhf. destruct (create_block_selected coin_hash _ _ _ _ _ _ _ _ Hc Hm Hs)
    as (l & chosen & created & st & conds & _ & _ & _ & _ & Hsel & Hgr & Hg & _ & He & Hcost & _ & _ & Hrem & Hbc).
  destruct (sound_spends (rev (block_spends st))) as [xs Hxs].
  { apply Forall_rev. eapply Forall_impl; [apply (gr_spends _ _ _ Hgr)|]. by intros s [? _]. }
  exists (block_spends st), xs, conds. rewrite Hrem, (sl_removals _ _ _ Hsel). split_and!; try done. intros Hsize Hcf Hex.
  destruct (executed_coins (rev (block_spends st)) xs (program bt) (assembly_input c height (program bt)) fuel export_fuel conds)
    as (E1 & E2 & E3 & _); [done| |done| |done|done|].
  { apply produced_compressed; [by rewrite rev_involutive|done|done]. }
  { cbn. by apply Z.leb_le. }
  rewrite E1, map_rev. split; [done|]. rewrite E2 in E3. rewrite map_map, <- (rev_involutive (block_spends st)), map_rev.
  by rewrite <- Permutation_rev.
Qed.

(** C15: a pool that fits is assembled whole.  Without special spends, with
    time left and within the limits of cost, fees and spends, the selection
    is every item in the order of priority.  If the specification gives those
    spends conditions and the signatures aggregate, a block of exactly these
    spends and of that cost is returned, unless a run stops at a limit of the
    arena. *)
Theorem small_pool_assembled fuel export_fuel m c height timeout clock :
  mempool_ok coin_hash m → is_Some (peak m) → (∀ k, clock k < timeout) → Forall (λ i, has_special i = false) (pool_items m) →
  0 ≤ cost_per_byte c → max_block_cost_clvm c < 2 ^ 64 → max_coin_amount c < 2 ^ 64 →
  total_cost m + MIN_COST_THRESHOLD + (QUOTE_BYTES * cost_per_byte c + QUOTE_EXECUTION_COST) ≤ max_block_cost_clvm c →
  total_fee m ≤ max_coin_amount c →
  sum_of (λ i, zlen (unique_spends (whole_item i))) (pool_items m) < MAX_SPENDS_PER_BLOCK →
  ∃ l, items_by_fee m = Ok l ∧ l ≡ₚ pool_items m ∧
    let spends := l ≫= λ i, unique_spends (whole_item i) in
    ∀ xs g sig r,
      let input := assembly_input c height g in let max_cost := max_block_cost_clvm c in
      let flags := clvm_flags (for_height c height) in let byte_cost := zlen g * cost_per_byte c in
      spends ≠ [] → Forall2 good_spend (rev spends) xs →
      compressed_solution_generator_from_coin_spends spends = Ok g →
      4 * Z.of_nat (sexp_size (generator_tree (rev spends) xs)) + 1 < 2 ^ 32 →
      collision_free (writer_strings (generator_tree (rev spends) xs)) →
      aggregate_signatures (map (λ i, bundle_signature (item_bundle i)) l) = Some sig →
      simple_input input g → 4 * max_cost < Z.of_nat fuel → (tree_size (output_tree (rev spends) xs) ≤ export_fuel)%nat →
      room (2 + sexp_bytes (output_tree (rev spends) xs)) max_cost →
      block_conditions flags c max_cost (byte_cost + QUOTE_COST) None (output_tree (rev spends) xs) = Some (Ok r) →
      create_block_generator fuel export_fuel m c height timeout clock = Some (Ok (Some
        {| program := g; block_refs := []; tx_additions := l ≫= λ i, unique_additions (whole_item i);
           tx_removals := map cs_coin spends; tx_signature := sig; tx_cost := conds_cost r |})) ∨
      stopped (run flags fuel export_fuel (max_cost - byte_cost) (generator_tree (rev spends) xs) NULL_SEXP) ∨
      stopped (conditions_from_generator_output fuel (output_tree (rev spends) xs) (byte_cost + QUOTE_COST) max_cost flags c None).
Proof.
  intros Hm [pk Hpk] Hclock Hplain Hcpb Hmax Hcoin Hcost Hfee Hcount.
  destruct (items_by_fee_spec coin_hash m Hm) as (l & Hl & Hperm & _). destruct Hm as (adds & Hm & _).
  exists l. split; [done|]. split; [done|]. cbv zeta. intros xs g sig r Hne Hgood Hg Hsize Hcf Hsig Hin Hfuel Hexp Hroom Hr.
  assert (Hitems : Forall (λ i, has_special i = false ∧ 0 ≤ item_cost i ∧ 0 ≤ item_fee i) l).
  { apply Forall_forall. intros i Hi. rewrite Hperm in Hi. rewrite Forall_forall in Hplain. split; [by apply Hplain|].
    apply list_elem_of_fmap in Hi as ([n i'] & -> & Hi). apply elem_of_map_to_list in Hi. pose proof (proj1 (po_items _ _ _ Hm _ _ Hi)) as Hok.
    pose proof (io_cost _ _ _ _ Hok). pose proof (io_fee _ _ _ _ Hok). cbn. lia. }
  assert (Hsum : ∀ f, sum_of f l = map_sum f (items m)).
  { intros f. rewrite (sum_of_perm f _ _ Hperm). unfold pool_items. rewrite sum_of_fmap. symmetry. by apply map_sum_list. }
  rewrite (po_cost _ _ _ Hm), <- Hsum in Hcost. rewrite (po_fee _ _ _ Hm), <- Hsum in Hfee. rewrite <- (sum_of_perm _ _ _ Hperm) in Hcount.
  assert (Hnn : 0 ≤ sum_of item_cost l) by (apply sum_of_nonneg; eapply Forall_impl; [exact Hitems|]; naive_solver).
  assert (0 < MIN_COST_THRESHOLD) by done. unfold create_block_generator, QUOTE_BYTES, QUOTE_EXECUTION_COST in *.
  rewrite Hpk, chk_ok by (unfold uok; lia). cbn [mbind res_bind]. rewrite chk_ok by (unfold uok; lia).
  cbn [obind]. rewrite Hl. cbn [obind].
  destruct (select_plain fuel export_fuel c height (sat_sub (max_block_cost_clvm c) (2 * cost_per_byte c + 20)) timeout clock 0 l empty_selection)
    as (st & -> & E2 & E3 & E4 & E5); [done|unfold sat_sub; lia|done|done|done|done|unfold sat_sub; cbn [cost_sum empty_selection]; lia|cbn [fee_sum empty_selection]; lia|done|].
  cbn [obind app empty_selection block_spends block_additions block_removals block_sigs] in *. unfold finish_block.
  rewrite E2, E3, E4, E5. rewrite bool_decide_eq_false_2 by done. rewrite Hg, Hsig.
  assert (Hp : produced (rev (l ≫= λ i, unique_spends (whole_item i))) xs g) by (apply produced_compressed; [by rewrite rev_involutive|done|done]).
  destruct (produced_executes _ _ _ (assembly_input c height g) fuel export_fuel Hgood Hp Hin Hfuel Hexp Hroom r Hr) as [He|He]; [left|by right].
  rewrite He. destruct (executed_coins _ _ g (assembly_input c height g) _ _ _ Hgood Hp eq_refl (in_simple _ _ Hin) Hexp He) as (_ & _ & _ & Hle). cbn in Hle.
  rewrite (proj2 (Z.ltb_ge _ _)) by done. by rewrite map_bind.
Qed.

End theorems.

(** * Instances *)

(** A pool at a peak that holds the bundle of the quiet spend, in a network of
    small blocks. *)
#[export] Instance toy_aggregate : @BlsAggregate toy_verify := {| add_signature a _ := Some a; signature_bytes s := s |}.

Section witnesses.
#[local] Existing Instance bigint_ref.
#[local] Existing Instance bigint_ref_ok.
#[local] Existing Instance toy_hash.
#[local] Existing Instance toy_hash_ok.
#[local] Existing Instance toy_blst.
#[local] Existing Instance toy_blst_ok.
#[local] Existing Instance interned.
#[local] Existing Instance interned_ok.
#[local] Existing Instance in_order.
#[local] Existing Instance in_order_ok.
#[local] Existing Instance quiet_estimator.
#[local] Existing Instance quiet_estimator_ok.

Definition middle_net : ConsensusConstants := MAINNET <| max_block_cost_clvm := 6002000 |> <| cost_per_byte := 1 |>.
Definition quiet_coin : Coin := cs_coin quiet_spend.
Definition quiet_bundle : SpendBundle := {| coin_spends := [quiet_spend]; bundle_signature := repeat 0 96 |}.
Definition quiet_conds : SpendBundleConditions :=
  mkConds [(new_spend quiet_coin true) <| flags := 0 |>] 0 0 0 None None [] 1000 5 0.
Definition quiet_store : CoinStore := {|
  get_coin_record _ := Some None;
  get_coin_records ids := Some [{| record_coin := quiet_coin; confirmed_block_index := 5; spent_block_index := 0; coinbase := false;
    record_timestamp := 9; record_spent := false |}];
  get_unspent_by_puzzle_hash _ := Some [] |}.
Definition middle_pool : Mempool :=
  match mempool_new middle_net with Ok m => set_peak 10 20 m | _ => mkPool 0 0 0 0 0 None ∅ ∅ 0 ∅ ∅ [] 0 0 ∅ [] tt end.
Definition quiet_pool : Mempool := (admit_bundle quiet_store quiet_bundle quiet_conds middle_pool).1.
Definition quiet_item : MempoolItem := {|
  item_bundle := quiet_bundle; item_conds := quiet_conds; item_name := default [] (head (map fst (map_to_list (items quiet_pool))));
  item_fee := 5; item_cost := 1000; item_spends := 1; item_removals := [coin_id quiet_coin];
  item_coin_spends := [{| coin_spend := quiet_spend; eligible_for_dedup := false; spend_additions := []; spend_cost := 0; latest_singleton_lineage := None |}];
  item_timelocks := {| assert_height := 0; assert_seconds := 0; assert_before_height := None; assert_before_seconds := None |};
  item_height_added := 10; item_seq := 0 |}.

Lemma quiet_reachable : reachable coin_hash0 middle_net quiet_pool.
Proof.
  apply (reach_step _ _ middle_pool).
  - apply (reach_step _ _ (match mempool_new middle_net with Ok m => m | _ => middle_pool end)); [by apply reach_new|by apply step_set_peak].
  - apply step_admit; [intros ph l; by vm_compute|]. constructor.
    + vm_compute. discriminate.
    + vm_compute. reflexivity.
    + intros s _ ->%list_elem_of_singleton. exists quiet_spend. split; [apply list_elem_of_singleton|]; reflexivity.
    + intros cs s ->%list_elem_of_singleton ->%list_elem_of_singleton _. reflexivity.
Qed.
Lemma quiet_pool_ok : mempool_ok coin_hash0 quiet_pool.
Proof. apply (reachable_ok coin_hash0 middle_net); [by vm_compute|exact quiet_reachable]. Qed.
Lemma quiet_pool_items : pool_items quiet_pool = [quiet_item].
Proof. vm_compute. reflexivity. Qed.
Lemma quiet_pool_sound : Forall item_sound (pool_items quiet_pool).
Proof.
  rewrite quiet_pool_items. apply Forall_singleton. split; [|done]. apply Forall_singleton. split; [|done]. exists (quiet_puzzle, NULL_SEXP).
  pose proof quiet_good as Hg. by inversion Hg.
Qed.

Definition quiet_block_transactions : BlockTransactions := {|
  program := quiet_generator; block_refs := []; tx_additions := []; tx_removals := [quiet_coin];
  tx_signature := repeat 0 96; tx_cost := zlen quiet_generator + 40 |}.
Definition always : nat → Z := λ _, 0.
Lemma quiet_assembled : create_block_generator 1000 100 quiet_pool middle_net 6000000 1 always = Some (Ok (Some quiet_block_transactions)).
Proof. vm_compute. reflexivity. Qed.


Lemma assembled_block_executes_witness :
  ∃ l xs conds,
    [quiet_coin] = map cs_coin l ∧ Forall2 good_spend (rev l) xs ∧
    execute_block_generator_result 1000 100 (assembly_input middle_net 6000000 quiet_generator) = Some (Ok conds) ∧
    zlen quiet_generator + 40 = conds_cost conds ∧ conds_cost conds ≤ 6002000 ∧
    (4 * Z.of_nat (sexp_size (generator_tree (rev l) xs)) + 1 < 2 ^ 32 →
     collision_free (writer_strings (generator_tree (rev l) xs)) →
     (tree_size (output_tree (rev l) xs) ≤ 100)%nat →
     map spent_coin (spends conds) = rev [quiet_coin] ∧ NoDup (map coin_id [quiet_coin])).
Proof.
  exact (assembled_block_executes coin_hash0 1000 100 quiet_pool middle_net 6000000 1 always quiet_block_transactions
    quiet_assembled quiet_pool_ok quiet_pool_sound ltac:(vm_compute; discriminate)).
Defined.

Lemma quiet_whole : unique_spends (whole_item quiet_item) = [quiet_spend] ∧ unique_additions (whole_item quiet_item) = [].
Proof. done. Qed.
Lemma quiet_by_fee : items_by_fee quiet_pool = Ok [quiet_item].
Proof. vm_compute. reflexivity. Qed.
Lemma quiet_compressed : compressed_solution_generator_from_coin_spends [quiet_spend] = Ok quiet_generator.
Proof. vm_compute. reflexivity. Qed.
Lemma small_pool_assembled_witness :
  let fuel := Z.to_nat 24008001 in
  let flags := clvm_flags (for_height middle_net 6000000) in
  let tree := [(quiet_puzzle, NULL_SEXP)] in
  ∃ r, block_conditions flags middle_net 6002000 (zlen quiet_generator * 1 + QUOTE_COST) None (output_tree [quiet_spend] tree) = Some (Ok r) ∧
    (create_block_generator fuel 100 quiet_pool middle_net 6000000 1 always = Some (Ok (Some
       {| program := quiet_generator; block_refs := []; tx_additions := []; tx_removals := [quiet_coin]; tx_signature := repeat 0 96;
          tx_cost := conds_cost r |})) ∨
     stopped (run flags fuel 100 (6002000 - zlen quiet_generator * 1) (generator_tree [quiet_spend] tree) NULL_SEXP) ∨
     stopped (conditions_from_generator_output fuel (output_tree [quiet_spend] tree) (zlen quiet_generator * 1 + QUOTE_COST) 6002000 flags middle_net None)).
Proof.
  cbv zeta. eexists. split; [vm_compute; reflexivity|].
  destruct (small_pool_assembled coin_hash0 (Z.to_nat 24008001) 100 quiet_pool middle_net 6000000 1 always quiet_pool_ok) as (l & Hl & _ & Hall).
  - vm_compute. by eexists.
  - intros k. done.
  - rewrite quiet_pool_items. by repeat constructor.
  - vm_compute. discriminate.
  - vm_compute. reflexivity.
  - vm_compute. reflexivity.
  - vm_compute. discriminate.
  - vm_compute. discriminate.
  - rewrite quiet_pool_items. vm_compute. reflexivity.
  - rewrite quiet_by_fee in Hl. injection Hl as <-.
    apply (Hall [(quiet_puzzle, NULL_SEXP)] quiet_generator (repeat 0 96)).
    + done.
    + exact quiet_good.
    + exact quiet_compressed.
    + vm_compute. reflexivity.
    + apply collision_free_strings. vm_compute. reflexivity.
    + reflexivity.
    + by split.
    + rewrite Z2Nat.id by lia. reflexivity.
    + vm_compute. lia.
    + vm_compute. discriminate.
    + vm_compute. reflexivity.
Defined.

(** Two items that share a spend which can be deduplicated. *)
Definition shared_spend : BundleCoinSpend :=
  {| coin_spend := quiet_spend; eligible_for_dedup := true; spend_additions := []; spend_cost := 10; latest_singleton_lineage := None |}.
Definition own_spend : BundleCoinSpend :=
  {| coin_spend := {| cs_coin := {| parent_coin_info := repeat 8 32; puzzle_hash := puzzle_hash quiet_coin; amount := 5 |};
                      puzzle_reveal := puzzle_reveal quiet_spend; solution := solution quiet_spend |};
     eligible_for_dedup := false; spend_additions := []; spend_cost := 10; latest_singleton_lineage := None |}.
Definition item_of (l : list BundleCoinSpend) (cost : Z) : MempoolItem := {|
  item_bundle := {| coin_spends := map coin_spend l; bundle_signature := repeat 0 96 |}; item_conds := quiet_conds; item_name := [];
  item_fee := 5; item_cost := cost; item_spends := zlen l; item_removals := map spend_id l; item_coin_spends := l;
  item_timelocks := item_timelocks quiet_item; item_height_added := 10; item_seq := 0 |}.
End witnesses.
